(* ===== verification/_CoqProject ===== *)
-Q . S2P
Prelude.v
Words.v
Text.v
Crypto.v
BitPaths.v
MerkleTrees.v
Gadgets.v
Circuits.v
Folding.v
Database.v
OnChain.v
OnChainSpec.v
TreeDb.v
TreeDbSpec.v
Events.v
EventsSpec.v
Leases.v
Jobs.v
JobsSpec.v
RootJob.v
RootJobSpec.v
Teleport.v
TeleportSpec.v
Hub.v
HubSpec.v
CrossChain.v
CrossChainSpec.v
TeleportFlow.v
Payment.v
Server.v
ServerSpec.v
CrossJob.v
CrossJobSpec.v
Decider.v
DeciderSpec.v
Storage.v
StorageSpec.v
Cli.v
CliSpec.v
Redeem.v
RedeemSpec.v
Payout.v
Wasm.v
WasmSpec.v
Indexer.v
IndexerSpec.v
Bindings.v
BindingsSpec.v
Minter.v
MinterSpec.v
Params.v
ParamsSpec.v
Api.v
ApiSpec.v
Service.v
ServiceSpec.v
CliMain.v
CliMainSpec.v
