(* ===== verification/Prelude.v ===== *)
(** * zERC20: the services, circuits and contracts as a verified library

    ** The program

    zERC20 is a token whose holders pay privately: the payer sends tokens to a burn address that hides the recipient, and the recipient later
    proves in zero knowledge that such burns happened and has the value minted again ("teleport"), on the same chain or on another one.

    - The token contract keeps a SHA-256 hash chain of all transfers ([contracts/src/zERC20.sol]).  The indexer ([indexer/src]) copies the
      log of transfers into PostgreSQL, builds a Merkle tree of it, folds the transfers with Nova and submits the proved transfer root to the
      verifier contract ([contracts/src/Verifier.sol]); its HTTP server answers queries and gives historical Merkle proofs.  The liquidity
      adapter ([contracts/src/Minter.sol]) mints zERC20 against deposits and burns it on withdrawals.
    - The decider prover ([decider-prover/src]) is a job queue on Redis that turns a folding into a proof the contracts can check.
    - The cross-chain job ([crosschain-job/src]) relays proved roots of all chains over LayerZero to the hub ([contracts/src/Hub.sol]), which
      aggregates them and broadcasts the global root to the verifiers.
    - The client library ([client-common/src]), the command line ([cli/src]) and the browser bindings ([wasm/src]) derive burn
      addresses, find the burns of a recipient, rebuild the aggregation tree and prove withdrawals, with the circuits of [zkp/src].
    - Two canisters and their client ([zstorage]) store encrypted announcements of payments and invoices, and give out the view keys.

    ** The files

    Files named [..Spec] hold the theorems about the file without the suffix; state is a record, operations keep the names of the source.

    - [Prelude]: results, the state-and-error monad [M] with its running lemmas, list lemmas, tactics, hints.  [Words]: integer types at their
      width, big-endian bytes.  [Text]: strings.
    - [Crypto] ([zkp/src/utils]: field, conversions, Poseidon wrappers, recipients), [BitPaths], [MerkleTrees] ([zkp/src/utils/tree]),
      [Gadgets], [Circuits] ([zkp/src/circuits], [nova], [groth16]: constraint generators run on an assignment), [Folding] (what folded runs prove).
    - [Database] (the schema of [indexer/migrations] and the shapes of SQL statement), [TreeDb] ([trees/db.rs]), [Events]
      ([events/mod.rs]), [Leases] ([jobs/lock.rs]), [Jobs] ([jobs/event.rs], [jobs/tree.rs], [tokens.rs]), [RootJob] ([jobs/root.rs]), [Server]
      ([server/mod.rs], [client-common/src/indexer]), [Api] (the JSON and query strings of [api-types], the routes of the server and the HTTP
      client), [Indexer] ([config.rs], [main.rs] with [--once]), [Service] ([main.rs] as a running service: server and jobs interleaved).
    - [OnChain] ([zERC20.sol], [Verifier.sol] and the receipt parsers of [client-common/src/contracts]), [Hub] ([Hub.sol],
      [PoseidonAggregationLib.sol]), [CrossChain] (the hub, all chains and the messages in flight, as one transition system), [CrossJob]
      ([crosschain-job/src/main.rs]), [Bindings] ([client-common/src/contracts]: calls, transactions, receipts and log queries at a node with the
      three contracts, its blocks and its logs), [Minter] ([Minter.sol] and its binding).
    - [Decider] ([decider-prover/src], [client-common/src/prover]), [Params] ([zkp/src/nova/params.rs], [zkp/src/groth16/params.rs],
      [zkp/src/bin], [decider-prover/src/circuits.rs]: parameters, their files and what the provers load).
    - [Teleport] ([client-common/src/teleport]), [TeleportFlow] (the client against the contracts), [Payment] ([client-common/src/payment]).
    - [Storage] ([zstorage/backend], [zstorage/frontend]), [Cli] and [Redeem] ([cli/src], [zkp/src/groth16]), [CliMain] ([cli/src/main.rs] with its clients and all commands on
      one world, and the demonstration client [stealth_client.rs]), [Wasm] ([wasm/src/lib.rs]).
    - [Payout]: the whole system composed.

    ** What is shown

    - The system pays ([Payout]): an invoice that is issued, paid by burns on any of the chains, indexed, proved, aggregated and redeemed with the
      command line is minted in full; so is a private transfer that the recipient scans and redeems.  [IndexerSpec]: a [--once] run of the indexer, from its environment and a database in any state an
      earlier run left, brings the log of every configured token to a proved root on chain.  [RootJobSpec], [JobsSpec], [EventsSpec]: the same for its parts.
      [ServiceSpec]: so does the running service, under every interleaving of its jobs, of requests and of the growth of the chains.
    - Nothing is minted without a burn ([OnChainSpec], [CrossChainSpec]): in every reachable state proved roots and global roots are roots of
      the logs, and a teleport is covered by distinct burns to addresses of the recipient.  [Folding] shows the soundness of the circuits.
      Collision resistance is not assumed: the theorems exhibit the collision that a violation would contain.
    - The supply is backed ([MinterSpec]): it is what was deposited and not withdrawn plus what teleports minted, and the adapter holds the former.
    - Data structures refine their specification ([MerkleTrees], [TreeDbSpec], [HubSpec]): the history of leaves, a total assignment of leaves.
      [TreeDbSpec] also shows the interleaving in which a historical proof does not verify.
    - Services keep their contract: leases exclude each other ([Leases], a step relation), the server answers from the log ([ServerSpec]) and its
      client reads exactly what the handler answered ([ApiSpec]), the
      decider returns the engine's proofs under any interleaving of clients, workers, expiry and crashes ([DeciderSpec]), one round of the
      cross-chain job carries a root to every target ([CrossJobSpec]), the canisters keep the log and give a view key to its owner only
      ([StorageSpec]).
    - The assumptions about nodes hold of the contracts ([BindingsSpec]): every history of the nodes of the chains is a history of the cross-chain
      system, the bindings give the indexer and the clients the logs and values their theorems assume ([node_view], [client_views]), and a
      receipt reports what its transaction did.  The assumptions about provers hold of the generated artifacts ([ParamsSpec]): [ProverLaws],
      [WithdrawProverLaws] and [Groth16Complete] follow from the laws of Sonobe and arkworks for what the generator writes and the services load.
    - Clients find what is theirs ([TeleportSpec], [TeleportFlow], [CliSpec], [RedeemSpec]), each command changes only its part of the world and a
      private transfer is announced before it is paid ([CliMainSpec]), and the browser agrees with the command line and with
      the contracts ([WasmSpec]).
    - Errors: which inputs are refused and with which message, a client that panics on a token registered after the last broadcast
      ([TeleportFlow]), an outsider's empty broadcast that silences the job ([CrossJobSpec]), an unsigned request that locks an address
      ([StorageSpec]), the demonstration client that misses its message once 50 announcements are stored ([CliMainSpec]).

    ** External code

    What is not in the repository is a type class or an argument, with its documented behaviour as a class of laws that theorems assume
    and witnesses instantiate: [Crypto]/[CryptoLaws] (Poseidon, SHA-256, Keccak-256: output ranges and lengths only), [R1CS]/[R1CSLaws]
    (arkworks gadgets), [PoseidonT3]/[PoseidonT3Laws] (the Solidity Poseidon), [EthNode]/[node_view] and [HubNode] (Ethereum nodes; [Bindings] builds them from the contracts), [ERC20] (OpenZeppelin's balances), [Wire] (transport), [Endpoint]
    (LayerZero: quotes, fees, and that a delivered message was sent), [Rpc] and [JobRpc] (transport), [NovaScheme]/[ProverLaws],
    [WithdrawNova]/[WithdrawProverLaws], [Groth16]/[Groth16Complete], [DeciderClient], [Deciders] (proof systems: sound where safety needs it, complete
    where payment needs it), [Engine], [Json]/[Base64] with their laws, [SignatureLib]/[SignatureLaws] (ECDSA), [VetKeysLib]/[VetKeysLaws] (the
    identity-based encryption of the platform), [Signer], [WebLib]/[WebLaws] and [ApiText]/[ApiLaws] (alloy's number and address formats), [UrlLib]/[UrlLaws] and [Http] (URLs and requests), [Network]
    (the providers, agents and clients the command line constructs), [Underlying]/[UnderlyingLaws] and [ERC20Laws] (the deposited token, OpenZeppelin's
    balances), [Sonobe]/[SonobeLaws], [Groth16Lib]/[Groth16Laws] and [ToEthLaws] (folding, Groth16 and their calldata).  JSON is modelled as values for the
    indexer's API; its text, TCP, candid and the JavaScript boundary carry values unchanged.

    ** Bounds and fuel

    Integers are [Z] with the wrap, saturation or check of the operation written out; tables and maps are [gmap].  Loops that are not
    structural carry fuel, and the theorems say how much is enough: the block scan and the backfill more than the latest block, ingestion more than
    the length of the log, the search of the aggregation event one step more than the blocks divided by the span, the scan of announcements more
    than the length of the log, the levels of the aggregation one per level.  Waiting is a number of polls (root job) or a list of the states
    the polls find (decider client), an endless loop is run for a number of ticks or for the instants of a clock, and the search of the proof of work succeeds with the fuel that its
    hypothesis names, since no bound on it exists.

    ** Not modelled

    Upgrades of the contracts and changes of the token's verifier or of the proof verifiers after deployment (the calls are modelled, the
    theorems are about histories without them); the deployment of a token; the verifier contracts generated from the circuits and the back ends of
    the provers, which are external code; the parsing of arguments by [clap], printed output, logging and timing; failures of the
    database, Redis and HTTP transport below the calls that report them; tests and benchmarks; the vendored libraries under
    [contracts/lib]. *)

From stdpp Require Export base tactics list option numbers gmap fin_maps countable strings sorting.
From Stdlib Require Export ZArith Lia.

(** ** Scopes, tactics and hint databases *)

Declare Scope zerc20_scope.
Delimit Scope zerc20_scope with zerc20.

Create HintDb zerc20 discriminated.

(** Turns boolean comparisons in the context and the goal into propositions. *)
Ltac bool_cases :=
  repeat match goal with
  | H : (_ =? _)%Z = true |- _ => apply Z.eqb_eq in H
  | H : (_ =? _)%Z = false |- _ => apply Z.eqb_neq in H
  | H : (_ <=? _)%Z = true |- _ => apply Z.leb_le in H
  | H : (_ <=? _)%Z = false |- _ => apply Z.leb_gt in H
  | H : (_ <? _)%Z = true |- _ => apply Z.ltb_lt in H
  | H : (_ <? _)%Z = false |- _ => apply Z.ltb_ge in H
  | H : (_ && _)%bool = true |- _ => apply andb_true_iff in H; destruct H
  | H : (_ || _)%bool = false |- _ => apply orb_false_iff in H; destruct H
  | H : negb _ = true |- _ => apply negb_true_iff in H
  | H : negb _ = false |- _ => apply negb_false_iff in H
  end.

(** Splits on the first [if b then _ else _] of the goal with a named equation. *)
Ltac if_case E := match goal with |- context [if ?b then _ else _] => destruct b eqn:E end; bool_cases.
Ltac if_case_in H E := match type of H with context [if ?b then _ else _] => destruct b eqn:E end; bool_cases.

(** ** Fallible code: Rust's [Result] and the [?] operator *)

Inductive result (E A : Type) : Type :=
| Ok (a : A)
| Err (e : E).
Global Arguments Ok {E A} a.
Global Arguments Err {E A} e.

Global Instance result_ret E : MRet (result E) := fun A a => Ok a.
Global Instance result_bind E : MBind (result E) := fun A B f m =>
  match m with Ok a => f a | Err e => Err e end.
Global Instance result_fmap E : FMap (result E) := fun A B f m =>
  match m with Ok a => Ok (f a) | Err e => Err e end.

Definition is_ok {E A} (r : result E A) : bool :=
  match r with Ok _ => true | Err _ => false end.

(** [Option::ok_or]. *)
Definition ok_or {E A} (e : E) (o : option A) : result E A :=
  match o with Some a => Ok a | None => Err e end.

(** [Result::map_err] / anyhow's [context]. *)
Definition map_err {E E' A} (f : E -> E') (r : result E A) : result E' A :=
  match r with Ok a => Ok a | Err e => Err (f e) end.

(** [Option<Result<T>>::transpose]. *)
Definition transpose {E A} (o : option (result E A)) : result E (option A) :=
  match o with
  | None => Ok None
  | Some (Ok a) => Ok (Some a)
  | Some (Err e) => Err e
  end.

(** A [for] loop whose body can fail: the loop carries [S]. *)
Fixpoint fold_result {E S A} (f : S -> A -> result E S) (s : S) (l : list A) : result E S :=
  match l with
  | [] => Ok s
  | a :: l' => s' ← f s a; fold_result f s' l'
  end.

(** [iter().map(f).collect::<Result<Vec<_>, _>>()]. *)
Fixpoint map_result {E A B} (f : A -> result E B) (l : list A) : result E (list B) :=
  match l with
  | [] => Ok []
  | a :: l' => b ← f a; bs ← map_result f l'; Ok (b :: bs)
  end.

Lemma result_bind_ok {E A B} (m : result E A) (f : A -> result E B) b :
  m ≫= f = Ok b <-> exists a, m = Ok a /\ f a = Ok b.
Proof. destruct m as [a|e]; cbn; split; [eauto | by intros (a' & [= ->] & ?) | done | by intros (? & [=] & _)]. Qed.

Lemma result_bind_err {E A B} (m : result E A) (f : A -> result E B) e :
  m ≫= f = Err e <-> m = Err e \/ exists a, m = Ok a /\ f a = Err e.
Proof.
  destruct m as [a|e']; cbn; split.
  - eauto.
  - intros [[=]|(a' & [= ->] & ?)]; done.
  - intros [= ->]; by left.
  - intros [[= ->]|(? & [=] & _)]; done.
Qed.

Lemma map_result_ok {E A B} (f : A -> result E B) l bs :
  map_result f l = Ok bs <-> Forall2 (fun a b => f a = Ok b) l bs.
Proof.
  revert bs. induction l as [|a l IH]; intros bs; cbn.
  - split; [intros [= <-]; constructor | by inversion 1].
  - rewrite result_bind_ok. setoid_rewrite result_bind_ok. setoid_rewrite IH. split.
    + intros (b & Hb & bs' & Hbs & [= <-]). by constructor.
    + inversion 1; subst; eauto 8.
Qed.

(** ** Effectful code: state that survives an error, and transactions *)

(** A computation over the database (or a chain): effects before an early
    return persist, exactly as a statement executed on the pool does. *)
Definition M (S E A : Type) : Type := S -> S * result E A.

Section state_error.
Context {S E : Type}.

Global Instance M_ret : MRet (M S E) := fun A a s => (s, Ok a).
Global Instance M_bind : MBind (M S E) := fun A B f m s =>
  match m s with
  | (s', Ok a) => f a s'
  | (s', Err e) => (s', Err e)
  end.

Definition fail {A} (e : E) : M S E A := fun s => (s, Err e).
Definition get : M S E S := fun s => (s, Ok s).
Definition gets {A} (f : S -> A) : M S E A := fun s => (s, Ok (f s)).
Definition modify (f : S -> S) : M S E unit := fun s => (f s, Ok tt).
Definition lift {A} (r : result E A) : M S E A := fun s => (s, r).

(** [pool.begin() .. tx.commit()]: dropping the transaction on an early
    return rolls back every statement run inside it. *)
Definition transaction {A} (m : M S E A) : M S E A := fun s =>
  match m s with
  | (s', Ok a) => (s', Ok a)
  | (_, Err e) => (s, Err e)
  end.

Lemma transaction_ok {A} (m : M S E A) s s' a :
  transaction m s = (s', Ok a) <-> m s = (s', Ok a).
Proof. unfold transaction. destruct (m s) as [s1 [a1|e1]]; naive_solver. Qed.

Lemma transaction_err {A} (m : M S E A) s s' e :
  transaction m s = (s', Err e) -> s' = s.
Proof. unfold transaction. destruct (m s) as [s1 [a1|e1]]; naive_solver. Qed.

(** Running the first computation of a sequence. *)
Lemma M_bind_run {A B} (m : M S E A) (f : A -> M S E B) s s1 a :
  m s = (s1, Ok a) -> (m ≫= f) s = f a s1.
Proof. unfold mbind, M_bind. by intros ->. Qed.

Lemma M_bind_err {A B} (m : M S E A) (f : A -> M S E B) s s1 e :
  m s = (s1, Err e) -> (m ≫= f) s = (s1, Err e).
Proof. unfold mbind, M_bind. by intros ->. Qed.

Lemma lift_run {A} (r : result E A) (a : A) (s : S) : r = Ok a -> lift r s = (s, Ok a).
Proof. by intros ->. Qed.

Lemma lift_ok {A B} (r : result E A) (k : A -> M S E B) s s' b :
  (lift r ≫= k) s = (s', Ok b) -> exists a, r = Ok a /\ k a s = (s', Ok b).
Proof. unfold mbind, M_bind, lift. destruct r as [a|e]; [|done]. by exists a. Qed.

Lemma M_bind_ok {A B} (m : M S E A) (f : A -> M S E B) s s' b :
  (m ≫= f) s = (s', Ok b) <-> exists s1 a, m s = (s1, Ok a) /\ f a s1 = (s', Ok b).
Proof.
  unfold mbind, M_bind. destruct (m s) as [s1 [a|e]]; split.
  - eauto.
  - by intros (? & ? & [= -> ->] & ?).
  - done.
  - by intros (? & ? & [=] & ?).
Qed.
End state_error.
