(* ===== verification/Words.v ===== *)
(** Machine-width integers and byte strings: the Rust integer types as [Z] with
    their ranges, casts, saturating and checked operations, and big-endian byte
    encodings ([to_be_bytes], [from_be_bytes], [from_be_slice]). *)

From S2P Require Import Prelude.

Local Open Scope Z_scope.

(** ** Integer types *)

Definition in_u8 (x : Z) : Prop := 0 <= x < 256.
Definition in_u32 (x : Z) : Prop := 0 <= x < 2 ^ 32.
Definition in_u64 (x : Z) : Prop := 0 <= x < 2 ^ 64.
Definition in_i64 (x : Z) : Prop := - 2 ^ 63 <= x < 2 ^ 63.
Definition in_u256 (x : Z) : Prop := 0 <= x < 2 ^ 256.
Definition in_u160 (x : Z) : Prop := 0 <= x < 2 ^ 160.

Definition u64_max : Z := 2 ^ 64 - 1.
Definition i64_max : Z := 2 ^ 63 - 1.
Definition u256_max : Z := 2 ^ 256 - 1.

(** [x as u32], [x as u64] and [x as i64]: two's complement truncation. *)
Definition as_u32 (x : Z) : Z := x mod 2 ^ 32.
Definition as_u64 (x : Z) : Z := x mod 2 ^ 64.
Definition as_i64 (x : Z) : Z := (x + 2 ^ 63) mod 2 ^ 64 - 2 ^ 63.

(** [u64] addition and subtraction of the release profile (wrap around). *)
Definition u64_add (x y : Z) : Z := (x + y) mod 2 ^ 64.
Definition u64_sub (x y : Z) : Z := (x - y) mod 2 ^ 64.

Definition saturating_sub (x y : Z) : Z := if x <? y then 0 else x - y.
Definition saturating_add_u64 (x y : Z) : Z := Z.min (x + y) u64_max.
Definition checked_sub (x y : Z) : option Z := if x <? y then None else Some (x - y).

(** [i64::try_from(u64)] and [u64::try_from(i64)]. *)
Definition i64_try_from (x : Z) : option Z := if x <=? i64_max then Some x else None.
Definition u64_try_from (x : Z) : option Z := if 0 <=? x then Some x else None.

#[export] Hint Unfold in_u8 in_u32 in_u64 in_i64 in_u256 in_u160 : zerc20.

Lemma i64_try_from_spec x y : i64_try_from x = Some y <-> y = x /\ x <= i64_max.
Proof. unfold i64_try_from. if_case E; split; [intros [= <-] | intros [-> ?] | done | intros []]; auto; lia. Qed.

Lemma u64_try_from_spec x y : u64_try_from x = Some y <-> y = x /\ 0 <= x.
Proof. unfold u64_try_from. if_case E; split; [intros [= <-] | intros [-> ?] | done | intros []]; auto; lia. Qed.

Lemma as_u64_id x : in_u64 x -> as_u64 x = x.
Proof. intros. by apply Z.mod_small. Qed.

Lemma as_u32_id x : in_u32 x -> as_u32 x = x.
Proof. intros. by apply Z.mod_small. Qed.

Lemma as_i64_id x : in_i64 x -> as_i64 x = x.
Proof. unfold in_i64, as_i64. intros. rewrite Z.mod_small; lia. Qed.

Lemma as_u64_range x : in_u64 (as_u64 x).
Proof. apply Z.mod_pos_bound. lia. Qed.

(** A non-negative [i64] survives the cast to [u64] and back. *)
Lemma as_u64_of_i64 x : 0 <= x <= i64_max -> as_u64 x = x.
Proof. unfold i64_max. intros. apply as_u64_id. unfold in_u64. lia. Qed.

Lemma saturating_sub_spec x y : 0 <= x -> saturating_sub x y = Z.max 0 (x - y) \/ y < 0.
Proof. unfold saturating_sub. intros. if_case E; lia. Qed.

(** ** Big-endian byte strings *)

(** The low [n] bytes of [x], most significant first. *)
Fixpoint be_bytes (n : nat) (x : Z) : list Z :=
  match n with
  | O => []
  | S n' => (x / 256 ^ Z.of_nat n') mod 256 :: be_bytes n' x
  end.

Fixpoint be_val_acc (acc : Z) (l : list Z) : Z :=
  match l with
  | [] => acc
  | b :: l' => be_val_acc (acc * 256 + b) l'
  end.

(** The integer a big-endian byte string denotes. *)
Definition be_val (l : list Z) : Z := be_val_acc 0 l.

Lemma length_be_bytes n x : length (be_bytes n x) = n.
Proof. induction n; cbn; congruence. Qed.

Lemma be_bytes_bytes n x : Forall in_u8 (be_bytes n x).
Proof. induction n; cbn; constructor; auto. apply Z.mod_pos_bound. lia. Qed.

Lemma be_val_acc_shift acc l : be_val_acc acc l = acc * 256 ^ Z.of_nat (length l) + be_val l.
Proof.
  unfold be_val. revert acc. induction l as [|b l IH]; intros acc; cbn [be_val_acc length].
  - rewrite Z.pow_0_r. lia.
  - rewrite IH, (IH (0 * 256 + b)), Nat2Z.inj_succ, Z.pow_succ_r by lia. ring.
Qed.

Lemma be_val_nil : be_val [] = 0.
Proof. done. Qed.

Lemma be_val_cons b l : be_val (b :: l) = b * 256 ^ Z.of_nat (length l) + be_val l.
Proof. unfold be_val at 1. cbn. by rewrite be_val_acc_shift. Qed.

Lemma be_val_app l1 l2 : be_val (l1 ++ l2) = be_val l1 * 256 ^ Z.of_nat (length l2) + be_val l2.
Proof.
  induction l1 as [|b l1 IH]; cbn [app].
  - rewrite be_val_nil. lia.
  - rewrite !be_val_cons, IH, length_app, Nat2Z.inj_add, Z.pow_add_r by lia. ring.
Qed.

Lemma be_val_range l : Forall in_u8 l -> 0 <= be_val l < 256 ^ Z.of_nat (length l).
Proof.
  induction 1 as [|b l Hb _ IH]; [done|].
  rewrite be_val_cons. cbn [length]. rewrite Nat2Z.inj_succ, Z.pow_succ_r by lia.
  unfold in_u8 in Hb. nia.
Qed.

Lemma be_val_be_bytes n x : be_val (be_bytes n x) = x mod 256 ^ Z.of_nat n.
Proof.
  induction n as [|n IH]; [by rewrite Z.mod_1_r|].
  cbn [be_bytes]. rewrite be_val_cons, IH, length_be_bytes, Nat2Z.inj_succ, Z.pow_succ_r by lia.
  rewrite (Z.mul_comm 256), Z.rem_mul_r by (try apply Z.pow_nonzero; lia). ring.
Qed.

Lemma be_bytes_mod n k x : (n <= k)%nat -> be_bytes n (x mod 256 ^ Z.of_nat k) = be_bytes n x.
Proof.
  induction n as [|n IH]; intros Hnk; cbn [be_bytes]; [done|]. f_equal; [|apply IH; lia].
  replace (Z.of_nat k) with (Z.of_nat n + Z.of_nat (k - n)) by lia.
  rewrite Z.pow_add_r, Z.rem_mul_r by (try apply Z.pow_nonzero; lia).
  rewrite (Z.mul_comm (256 ^ Z.of_nat n) (_ mod _)), Z.div_add by (apply Z.pow_nonzero; lia).
  rewrite (Z.div_small (x mod _)) by (apply Z.mod_pos_bound; lia). rewrite Z.add_0_l.
  destruct (k - n)%nat as [|d] eqn:E; [lia|].
  rewrite Nat2Z.inj_succ, Z.pow_succ_r by lia.
  apply Z.mod_mod_divide. exists (256 ^ Z.of_nat d). lia.
Qed.

Lemma be_bytes_be_val l : Forall in_u8 l -> be_bytes (length l) (be_val l) = l.
Proof.
  induction 1 as [|b l Hb Hl IH]; [done|].
  cbn [length be_bytes]. pose proof (be_val_range l Hl) as Hr.
  rewrite be_val_cons, (Z.add_comm (b * _)), Z.div_add by lia.
  rewrite Z.div_small, Z.add_0_l, Z.mod_small by done. f_equal.
  etransitivity; [|exact IH]. rewrite <- (be_bytes_mod _ (length l)) by lia.
  rewrite Z.mod_add by lia. by rewrite Z.mod_small.
Qed.

Lemma be_bytes_inj n x y :
  0 <= x < 256 ^ Z.of_nat n -> 0 <= y < 256 ^ Z.of_nat n -> be_bytes n x = be_bytes n y -> x = y.
Proof.
  intros Hx Hy H. apply (f_equal be_val) in H. rewrite !be_val_be_bytes in H.
  by rewrite !Z.mod_small in H.
Qed.

#[export] Hint Resolve be_bytes_bytes length_be_bytes : zerc20.

(** [U256::to_be_bytes::<32>], [u64::to_be_bytes], [Address] and [B256] slices. *)
Definition u256_to_be_bytes (x : Z) : list Z := be_bytes 32 x.
Definition u64_to_be_bytes (x : Z) : list Z := be_bytes 8 x.
Definition u32_to_be_bytes (x : Z) : list Z := be_bytes 4 x.
Definition address_bytes (x : Z) : list Z := be_bytes 20 x.
Definition b256_bytes (x : Z) : list Z := be_bytes 32 x.

Lemma pow256 n : 256 ^ Z.of_nat n = 2 ^ (8 * Z.of_nat n).
Proof. change 256 with (2 ^ 8). rewrite <- Z.pow_mul_r by lia. done. Qed.

Lemma u256_bytes_roundtrip x : in_u256 x -> be_val (u256_to_be_bytes x) = x.
Proof. intros. unfold u256_to_be_bytes. rewrite be_val_be_bytes. by apply Z.mod_small. Qed.

Lemma u64_bytes_roundtrip x : in_u64 x -> be_val (u64_to_be_bytes x) = x.
Proof. intros. unfold u64_to_be_bytes. rewrite be_val_be_bytes. by apply Z.mod_small. Qed.

Lemma u32_bytes_roundtrip x : in_u32 x -> be_val (u32_to_be_bytes x) = x.
Proof. intros. unfold u32_to_be_bytes. rewrite be_val_be_bytes. by apply Z.mod_small. Qed.

Lemma address_bytes_roundtrip x : in_u160 x -> be_val (address_bytes x) = x.
Proof. intros. unfold address_bytes. rewrite be_val_be_bytes. by apply Z.mod_small. Qed.

Lemma be_val_32_range l : Forall in_u8 l -> length l = 32%nat -> in_u256 (be_val l).
Proof. intros Hl Hn. pose proof (be_val_range l Hl) as H. rewrite Hn in H. exact H. Qed.

Lemma be_val_20_range l : Forall in_u8 l -> length l = 20%nat -> in_u160 (be_val l).
Proof. intros Hl Hn. pose proof (be_val_range l Hl) as H. rewrite Hn in H. exact H. Qed.
