(* ===== verification/Text.v ===== *)
(** Strings of the services: Rust's [str] is a sequence of UTF-8 bytes; trimming,
    prefixes, and validation of UTF-8 as the standard library does them.  White
    space is the ASCII white space. *)

From Stdlib Require Import Ascii.
From S2P Require Import Prelude.
Local Open Scope Z_scope.

(** [str::trim().is_empty()]. *)
Definition is_space (a : ascii) : bool :=
  bool_decide (nat_of_ascii a ∈ [9; 10; 11; 12; 13; 32]%nat).
Fixpoint is_blank (s : string) : bool :=
  match s with
  | EmptyString => true
  | String a s' => is_space a && is_blank s'
  end.

Fixpoint trim_start (s : string) : string :=
  match s with
  | EmptyString => EmptyString
  | String a s' => if is_space a then trim_start s' else s
  end.
(** A string without its trailing white space. *)
Fixpoint trim_end (s : string) : string :=
  match s with
  | EmptyString => EmptyString
  | String a s' => if is_blank s then EmptyString else String a (trim_end s')
  end.
Definition trim (s : string) : string := trim_end (trim_start s).

(** [strip_prefix("0x")]. *)
Definition strip_0x (s : string) : option string :=
  match s with
  | String a (String b s') => if bool_decide (a = "0"%char) && bool_decide (b = "x"%char) then Some s' else None
  | _ => None
  end.

(** [eq_ignore_ascii_case("0x")]. *)
Definition is_0x (s : string) : bool :=
  match s with
  | String a (String b EmptyString) => bool_decide (a = "0"%char) && (bool_decide (b = "x"%char) || bool_decide (b = "X"%char))
  | _ => false
  end.

(** ** UTF-8 *)

Definition byte_of (a : ascii) : Z := Z.of_nat (nat_of_ascii a).
(** A continuation byte [0b10xxxxxx]. *)
Definition is_continuation (a : ascii) : bool := (0x80 <=? byte_of a) && (byte_of a <=? 0xbf).
Definition in_bytes (lo hi : Z) (a : ascii) : bool := (lo <=? byte_of a) && (byte_of a <=? hi).

(** The well-formed byte sequences of the Unicode standard (table 3-7). *)
Fixpoint utf8_valid (s : string) : bool :=
  match s with
  | EmptyString => true
  | String a s1 =>
    if byte_of a <=? 0x7f then utf8_valid s1
    else match s1 with
    | EmptyString => false
    | String b s2 =>
      if in_bytes 0xc2 0xdf a then is_continuation b && utf8_valid s2
      else match s2 with
      | EmptyString => false
      | String c s3 =>
        if byte_of a =? 0xe0 then in_bytes 0xa0 0xbf b && is_continuation c && utf8_valid s3
        else if in_bytes 0xe1 0xec a || in_bytes 0xee 0xef a then is_continuation b && is_continuation c && utf8_valid s3
        else if byte_of a =? 0xed then in_bytes 0x80 0x9f b && is_continuation c && utf8_valid s3
        else match s3 with
        | EmptyString => false
        | String d s4 =>
          if byte_of a =? 0xf0 then in_bytes 0x90 0xbf b && is_continuation c && is_continuation d && utf8_valid s4
          else if in_bytes 0xf1 0xf3 a then is_continuation b && is_continuation c && is_continuation d && utf8_valid s4
          else if byte_of a =? 0xf4 then in_bytes 0x80 0x8f b && is_continuation c && is_continuation d && utf8_valid s4
          else false
        end
      end
    end
  end.

(** [String::from_utf8]. *)
Definition from_utf8 (bytes : string) : option string := if utf8_valid bytes then Some bytes else None.

(** [is_char_boundary(n)]: the end, or a byte that is not a continuation byte. *)
Definition is_char_boundary (n : nat) (s : string) : bool :=
  match String.get n s with
  | Some a => negb (is_continuation a)
  | None => (String.length s =? n)%nat
  end.

(** [&s[..n]]; [None] is the panic of a slice off a character boundary. *)
Definition slice_to (n : nat) (s : string) : option string :=
  if is_char_boundary n s then Some (String.substring 0 n s) else None.

(** ** Lemmas *)

(** No white space at all. *)
Fixpoint solid (s : string) : bool :=
  match s with
  | EmptyString => true
  | String a s' => negb (is_space a) && solid s'
  end.

Lemma solid_not_blank a s : solid (String a s) = true -> is_blank (String a s) = false.
Proof. cbn. by destruct (is_space a). Qed.

Lemma trim_solid s : solid s = true -> trim s = s.
Proof.
  intros Hs. unfold trim. assert (trim_start s = s) as ->.
  { destruct s as [|a s]; [done|]. cbn in *. by destruct (is_space a). }
  induction s as [|a s IH]; [done|]. cbn [trim_end]. rewrite solid_not_blank by done.
  f_equal. apply IH. cbn in Hs. by destruct (is_space a).
Qed.

Lemma string_app_inj_l (p s t : string) : (p +:+ s = p +:+ t)%string -> s = t.
Proof. induction p as [|a p IH]; cbn; [done|]. intros [= H]. by apply IH. Qed.
