(* ===== verification/Crypto.v ===== *)
(** The BN254 scalar field, the conversions of [zkp/src/utils/convertion.rs],
    the Poseidon wrappers of [zkp/src/utils/poseidon], the host hash functions
    ([hash_chain], [compute_leaf_hash]) and [GeneralRecipient].

    The Poseidon sponge and its round constants (arkworks, light-poseidon),
    SHA-256 and Keccak-256 are third-party code: they are the fields of the
    class [Crypto], and what the code relies on is the class [CryptoLaws]. *)

From S2P Require Import Prelude Words.
Local Open Scope Z_scope.

(** ** The scalar field [ark_bn254::Fr] *)

(** The modulus of the BN254 scalar field. *)
Definition fr_modulus : Z :=
  21888242871839275222246405745257275088548364400416034343698204186575808495617.

(** Canonical representatives: what [into_bigint] returns. *)
Definition is_fr (x : Z) : Prop := 0 <= x < fr_modulus.
Global Instance is_fr_dec x : Decision (is_fr x).
Proof. unfold is_fr. apply _. Defined.

Definition fr_add (x y : Z) : Z := (x + y) mod fr_modulus.
Definition fr_sub (x y : Z) : Z := (x - y) mod fr_modulus.
Definition fr_mul (x y : Z) : Z := (x * y) mod fr_modulus.

(** [From<BigUint> for Fr], [Fr::from_be_bytes_mod_order]: reduction. *)
Definition fr_of_biguint (x : Z) : Z := x mod fr_modulus.

(** [x.into_bigint().to_bytes_be()]: four 64-bit limbs, 32 bytes. *)
Definition fr_bigint_bytes_be (x : Z) : list Z := be_bytes 32 x.

Lemma fr_modulus_bounds : 2 ^ 253 < fr_modulus < 2 ^ 254.
Proof. by vm_compute. Qed.

Lemma is_fr_mod x : is_fr (x mod fr_modulus).
Proof. apply Z.mod_pos_bound. by vm_compute. Qed.

Lemma fr_small x n : 0 <= x < 2 ^ n -> n <= 253 -> is_fr x.
Proof.
  intros [? Hx] Hn. split; [done|]. pose proof fr_modulus_bounds.
  destruct (decide (0 <= n)); [|rewrite Z.pow_neg_r in Hx; lia].
  pose proof (Z.pow_le_mono_r 2 n 253). lia.
Qed.

Lemma fr_of_biguint_id x : is_fr x -> fr_of_biguint x = x.
Proof. intros. by apply Z.mod_small. Qed.

Lemma is_fr_u256 x : is_fr x -> in_u256 x.
Proof. unfold is_fr, in_u256. pose proof fr_modulus_bounds. lia. Qed.

#[export] Hint Resolve is_fr_mod is_fr_u256 : zerc20.

(** ** [zkp/src/utils/convertion.rs] *)

Definition fr_to_address (x : Z) : Z := be_val (drop 12 (fr_bigint_bytes_be x)).
Definition address_to_fr (x : Z) : Z := fr_of_biguint (be_val (address_bytes x)).
Definition u256_to_fr (x : Z) : Z := fr_of_biguint (be_val (u256_to_be_bytes x)).
Definition fr_to_u256 (x : Z) : Z := be_val (fr_bigint_bytes_be x).
Definition b256_to_fr (x : Z) : Z := fr_of_biguint (be_val (b256_bytes x)).
Definition fr_to_b256 (x : Z) : Z := fr_to_u256 x.
(** [usize] is 64 bits wide on the targets the services run on. *)
Definition u256_to_usize (x : Z) : option Z :=
  let x_bigint := be_val (u256_to_be_bytes x) in
  if x_bigint <? 2 ^ 64 then Some x_bigint else None.

Lemma address_to_fr_id a : in_u160 a -> address_to_fr a = a.
Proof.
  intros Ha. unfold address_to_fr. rewrite address_bytes_roundtrip by done.
  apply fr_of_biguint_id. by apply (fr_small a 160).
Qed.

Lemma u256_to_fr_mod x : in_u256 x -> u256_to_fr x = x mod fr_modulus.
Proof. intros Hx. unfold u256_to_fr, fr_of_biguint. by rewrite u256_bytes_roundtrip. Qed.

Lemma u256_to_fr_is_fr x : is_fr (u256_to_fr x).
Proof. apply is_fr_mod. Qed.

Lemma fr_to_u256_id x : is_fr x -> fr_to_u256 x = x.
Proof. intros Hx. apply u256_bytes_roundtrip. by apply is_fr_u256. Qed.

Lemma u256_to_fr_id x : is_fr x -> u256_to_fr x = x.
Proof. intros Hx. rewrite u256_to_fr_mod by auto with zerc20. by apply Z.mod_small. Qed.

Lemma drop_be_bytes k n x : drop k (be_bytes (k + n) x) = be_bytes n x.
Proof. induction k as [|k IH]; [done|]. apply IH. Qed.

Lemma fr_to_address_mod x : fr_to_address x = x mod 2 ^ 160.
Proof.
  unfold fr_to_address, fr_bigint_bytes_be. change 32%nat with (12 + 20)%nat.
  rewrite drop_be_bytes, be_val_be_bytes. done.
Qed.

(** ** [zkp/src/utils/poseidon] *)

(** [light_poseidon::PoseidonParameters]. *)
Record PoseidonParameters := mkPoseidonParameters {
  pp_ark : list Z;
  pp_mds : list (list Z);
  pp_full_rounds : nat;
  pp_partial_rounds : nat;
  pp_width : nat;
  pp_alpha : Z;
}.

(** [ark_crypto_primitives::sponge::poseidon::PoseidonConfig]. *)
Record PoseidonConfig := mkPoseidonConfig {
  full_rounds : nat;
  partial_rounds : nat;
  alpha : Z;
  mds : list (list Z);
  ark : list (list Z);
  rate : nat;
  capacity : nat;
}.

Class Crypto := {
  (** absorb every input, squeeze one element, return [state[0]] *)
  poseidon_sponge : PoseidonConfig -> list Z -> Z;
  (** [bn254_x5::get_poseidon_parameters::<F>(3)] *)
  bn254_x5_params3 : PoseidonParameters;
  (** [Sha256::digest] and [keccak256] on byte strings *)
  sha256 : list Z -> list Z;
  keccak256 : list Z -> list Z;
}.

(** Documented behaviour of the third-party primitives. *)
Class CryptoLaws (C : Crypto) : Prop := {
  poseidon_sponge_fr : forall c l, is_fr (poseidon_sponge c l);
  bn254_width : pp_width bn254_x5_params3 = 3%nat;
  bn254_ark_len : length (pp_ark bn254_x5_params3)
    = ((pp_full_rounds bn254_x5_params3 + pp_partial_rounds bn254_x5_params3) * 3)%nat;
  sha256_length : forall m, length (sha256 m) = 32%nat;
  sha256_bytes : forall m, Forall in_u8 (sha256 m);
  keccak256_length : forall m, length (keccak256 m) = 32%nat;
  keccak256_bytes : forall m, Forall in_u8 (keccak256 m);
}.

(** [slice.chunks(w)] for [w > 0]; the length of the slice is enough fuel. *)
Fixpoint chunks_fuel {A} (fuel w : nat) (l : list A) : list (list A) :=
  match fuel, l with
  | S f, _ :: _ => take w l :: chunks_fuel f w (drop w l)
  | _, _ => []
  end.
Definition chunks {A} (w : nat) (l : list A) : list (list A) := chunks_fuel (length l) w l.

(** [None] is the failed assertion on the number of round constants. *)
Definition light_poseidon_to_ark_config (params : PoseidonParameters) : option PoseidonConfig :=
  let width := pp_width params in
  let rounds := (pp_full_rounds params + pp_partial_rounds params)%nat in
  if (length (pp_ark params) =? rounds * width)%nat then
    Some (mkPoseidonConfig (pp_full_rounds params) (pp_partial_rounds params) (pp_alpha params)
            (pp_mds params) (chunks width (pp_ark params)) (width - 1) 1)
  else None.

Section poseidon.
Context `{C : Crypto}.

Definition circom_poseidon_config : option PoseidonConfig :=
  light_poseidon_to_ark_config bn254_x5_params3.

(** [None] is the failed assertion "inputs must fill the sponge rate". *)
Definition circom_poseidon_hash (config : PoseidonConfig) (inputs : list Z) : option Z :=
  if (length inputs =? rate config)%nat then Some (poseidon_sponge config inputs) else None.

(** The [0] branches stand for the two panics, which never happen
    ([poseidon2_never_panics]). *)
Definition poseidon2 (left right : Z) : Z :=
  match circom_poseidon_config with
  | Some config => default 0 (circom_poseidon_hash config [left; right])
  | None => 0
  end.

(** [CircomCRH::evaluate]; the error carries the offending length. *)
Definition CircomCRH_evaluate (parameters : PoseidonConfig) (input : list Z) : result nat Z :=
  if negb (length input =? rate parameters)%nat then Err (length input)
  else ok_or 0%nat (circom_poseidon_hash parameters input).

(** [CircomTwoToOneCRH::compress] (and [evaluate], which forwards to it). *)
Definition CircomTwoToOneCRH_compress (parameters : PoseidonConfig) (left_input right_input : Z)
  : result nat Z :=
  if negb (rate parameters =? 2)%nat then Err (rate parameters)
  else ok_or 0%nat (circom_poseidon_hash parameters [left_input; right_input]).

(** [leaf_hash.rs] *)
Definition compute_leaf_hash (address amount : Z) : Z := poseidon2 address amount.

(** [hash_chain.rs]: SHA-256 with the most significant byte cleared. *)
Definition hash_chain (prev addr value : Z) : Z :=
  let digest := sha256 (u256_to_be_bytes prev ++ address_bytes addr ++ u256_to_be_bytes value) in
  be_val (<[0%nat := 0]> digest).
End poseidon.

(** ** [zkp/src/utils/general_recipient.rs] *)

Record GeneralRecipient := mkGeneralRecipient {
  gr_chain_id : Z;
  gr_address : Z;
  gr_tweak : Z;
}.

(** [address.into_word()] left-pads with zeros: the same integer. *)
Definition new_evm (chain_id address tweak : Z) : GeneralRecipient :=
  mkGeneralRecipient chain_id address tweak.

Definition gr_version : Z := 1.

Section general_recipient.
Context `{C : Crypto}.

Definition to_u256 (r : GeneralRecipient) : Z :=
  let digest := sha256 (u64_to_be_bytes (gr_chain_id r) ++ b256_bytes (gr_address r)
                        ++ b256_bytes (gr_tweak r)) in
  be_val (<[0%nat := gr_version]> digest).

Definition to_fr (r : GeneralRecipient) : Z := u256_to_fr (to_u256 r).
End general_recipient.

(** ** Lemmas on the hash functions *)

Lemma chunks_fuel_concat {A} fuel w (l : list A) :
  (0 < w)%nat -> (length l <= fuel)%nat -> concat (chunks_fuel fuel w l) = l.
Proof.
  intros Hw. revert l. induction fuel as [|f IH]; intros l Hl.
  - destruct l; [done | cbn in Hl; lia].
  - destruct l as [|a l]; [done|]. cbn [chunks_fuel concat].
    rewrite IH, take_drop; [done|]. rewrite length_drop. cbn in *. lia.
Qed.

Lemma chunks_fuel_lengths {A} fuel w n (l : list A) :
  (0 < w)%nat -> length l = (n * w)%nat -> (length l <= fuel)%nat ->
  length (chunks_fuel fuel w l) = n /\ Forall (fun c => length c = w) (chunks_fuel fuel w l).
Proof.
  intros Hw. revert n l. induction fuel as [|f IH]; intros n l Hn Hl.
  - destruct l; [|cbn in Hl; lia]. cbn in *. split; [destruct n; cbn in *; lia | constructor].
  - destruct l as [|a l].
    { cbn in *. split; [destruct n; cbn in *; lia | constructor]. }
    destruct n as [|n]; [cbn in Hn; lia|]. cbn [chunks_fuel].
    destruct (IH n (drop w (a :: l))) as [IH1 IH2].
    + rewrite length_drop. cbn in *. lia.
    + rewrite length_drop. cbn in *. lia.
    + split; [cbn; lia|]. constructor; [|done]. rewrite length_take. cbn in *. lia.
Qed.

Lemma be_val_set_head (l : list Z) (b : Z) n :
  length l = S n -> Forall in_u8 l -> in_u8 b ->
  be_val (<[0%nat := b]> l) = b * 256 ^ Z.of_nat n + be_val (drop 1 l)
  /\ 0 <= be_val (drop 1 l) < 256 ^ Z.of_nat n.
Proof.
  intros Hn Hl Hb. destruct l as [|a l]; [done|]. cbn in Hn. injection Hn as Hn.
  cbn [insert list_insert drop]. rewrite be_val_cons, Hn. split; [done|].
  rewrite <- Hn. apply be_val_range. by inversion Hl.
Qed.

Section laws.
Context {C : Crypto} {HC : CryptoLaws C}.

Lemma circom_config_ok :
  exists cfg, circom_poseidon_config = Some cfg /\ rate cfg = 2%nat
    /\ concat (ark cfg) = pp_ark bn254_x5_params3.
Proof.
  unfold circom_poseidon_config, light_poseidon_to_ark_config.
  rewrite bn254_width, bn254_ark_len, Nat.eqb_refl. eexists; split_and!; [done..|].
  apply chunks_fuel_concat; lia.
Qed.

Lemma poseidon2_never_panics l r :
  exists cfg, circom_poseidon_config = Some cfg
    /\ circom_poseidon_hash cfg [l; r] = Some (poseidon2 l r).
Proof.
  destruct circom_config_ok as (cfg & Hc & Hr & _). exists cfg; split; [done|].
  unfold poseidon2. rewrite Hc. unfold circom_poseidon_hash. by rewrite Hr.
Qed.

Lemma poseidon2_fr l r : is_fr (poseidon2 l r).
Proof.
  destruct (poseidon2_never_panics l r) as (cfg & _ & H). unfold circom_poseidon_hash in H.
  case_match; [|done]. injection H as <-. apply poseidon_sponge_fr.
Qed.

Lemma hash_chain_range prev addr value : 0 <= hash_chain prev addr value < 2 ^ 248.
Proof.
  unfold hash_chain. set (m := _ ++ _).
  destruct (be_val_set_head (sha256 m) 0 31) as [-> H];
    [apply sha256_length | apply sha256_bytes | unfold in_u8; lia | exact H].
Qed.

Lemma hash_chain_fr prev addr value : is_fr (hash_chain prev addr value).
Proof. eapply fr_small; [apply hash_chain_range | lia]. Qed.

Lemma to_u256_range r : 2 ^ 248 <= to_u256 r < 2 ^ 249.
Proof.
  unfold to_u256. set (m := _ ++ _).
  destruct (be_val_set_head (sha256 m) gr_version 31) as [-> H];
    [apply sha256_length | apply sha256_bytes | unfold in_u8, gr_version; lia |].
  change (256 ^ Z.of_nat 31) with (2 ^ 248) in *. unfold gr_version.
  change (2 ^ 249) with (2 * 2 ^ 248). lia.
Qed.
End laws.

#[export] Hint Resolve poseidon2_fr hash_chain_fr u256_to_fr_is_fr : zerc20.

(** ** A concrete instance

    A toy sponge and toy digests that satisfy the laws: it shows that the laws
    are consistent and lets the witnesses evaluate. *)

Definition toy_mix (seed : Z) (l : list Z) : Z :=
  fold_left (fun acc b => (acc * 257 + b * b + 3 * b + 1) mod (2 ^ 256 - 189)) l seed.

Definition toy_crypto : Crypto := {|
  poseidon_sponge := fun _ l => toy_mix 11 l mod fr_modulus;
  bn254_x5_params3 := mkPoseidonParameters (replicate 6 1) [] 1 1 3 5;
  sha256 := fun m => be_bytes 32 (toy_mix (7 * 2 ^ 249 + 1) m);
  keccak256 := fun m => be_bytes 32 (toy_mix (5 * 2 ^ 248 + 3) m);
|}.

Lemma toy_crypto_laws : CryptoLaws toy_crypto.
Proof.
  split; intros; cbn -[be_bytes toy_mix]; auto using length_be_bytes, be_bytes_bytes.
  apply is_fr_mod.
Qed.
