(* ===== verification/BitPaths.v ===== *)
(** [zkp/src/utils/tree/bit_path.rs]: node positions of a binary tree, their
    navigation operations and the 12-byte encoding used as a database key. *)

From S2P Require Import Prelude Words.
Local Open Scope Z_scope.

Record BitPath := mkBitPath { bp_length : Z; bp_value : Z }.

Global Instance BitPath_eq_dec : EqDecision BitPath.
Proof. solve_decision. Defined.

Global Instance BitPath_countable : Countable BitPath.
Proof.
  refine (inj_countable' (fun p => (bp_length p, bp_value p)) (fun q => mkBitPath q.1 q.2) _).
  by intros [].
Defined.

(** [BitPath::new] and [#[derive(Default)]]. *)
Definition BitPath_new (length value : Z) : BitPath := mkBitPath length value.
Definition BitPath_default : BitPath := mkBitPath 0 0.

Definition is_empty (p : BitPath) : bool := bp_length p =? 0.
Definition len (p : BitPath) : Z := bp_length p.
Definition value (p : BitPath) : Z := bp_value p.

(** The popped bit and the path after the call ([&mut self]). *)
Definition pop (p : BitPath) : option bool * BitPath :=
  if bp_length p =? 0 then (None, p)
  else
    let bit := Z.land (bp_value p) 1 in
    (Some (bit =? 1), mkBitPath (bp_length p - 1) (Z.shiftr (bp_value p) 1)).

Definition sibling (p : BitPath) : BitPath := mkBitPath (bp_length p) (Z.lxor (bp_value p) 1).

Definition to_bytes (p : BitPath) : list Z :=
  u32_to_be_bytes (bp_length p) ++ u64_to_be_bytes (bp_value p).

Definition from_bytes (bytes : list Z) : BitPath :=
  BitPath_new (be_val (take 4 bytes)) (be_val (drop 4 bytes)).

(** The field ranges of the Rust type. *)
Definition bp_wf (p : BitPath) : Prop := in_u32 (bp_length p) /\ in_u64 (bp_value p).

(** A position inside a tree of height [h]. *)
Definition bp_in (h : Z) (p : BitPath) : Prop :=
  0 <= bp_length p <= h /\ 0 <= bp_value p < 2 ^ bp_length p.

(** ** Bit arithmetic *)

Lemma land_1 v : Z.land v 1 = v mod 2.
Proof. exact (Z.land_ones v 1 ltac:(lia)). Qed.

Lemma land_1_odd v : (Z.land v 1 =? 1) = Z.odd v.
Proof. rewrite land_1, Zmod_odd. by destruct (Z.odd v). Qed.

Lemma shiftr_1 v : Z.shiftr v 1 = v / 2.
Proof. by rewrite Z.shiftr_div_pow2 by lia. Qed.

Lemma lxor_1 v : Z.lxor v 1 = if Z.odd v then v - 1 else v + 1.
Proof.
  apply Z.bits_inj'. intros n Hn. rewrite Z.lxor_spec.
  destruct (Z.odd v) eqn:Ho.
  - rewrite (Z.div_mod v 2) at 1 2 by lia. rewrite Zmod_odd, Ho.
    replace (2 * (v / 2) + 1 - 1) with (2 * (v / 2)) by lia.
    destruct (decide (n = 0)) as [->|].
    + rewrite Z.testbit_odd_0, Z.testbit_even_0. done.
    + replace n with (Z.succ (n - 1)) by lia. rewrite Z.testbit_odd_succ, Z.testbit_even_succ by lia.
      rewrite (Z.bits_above_log2 1) by (cbn; lia). apply xorb_false_r.
  - rewrite (Z.div_mod v 2) at 1 2 by lia. rewrite Zmod_odd, Ho, Z.add_0_r.
    destruct (decide (n = 0)) as [->|].
    + rewrite Z.testbit_odd_0, Z.testbit_even_0. done.
    + replace n with (Z.succ (n - 1)) by lia. rewrite Z.testbit_odd_succ, Z.testbit_even_succ by lia.
      rewrite (Z.bits_above_log2 1) by (cbn; lia). apply xorb_false_r.
Qed.

Lemma half_split v : v = 2 * (v / 2) + (if Z.odd v then 1 else 0).
Proof. rewrite <- Zmod_odd. apply Z.div_mod. lia. Qed.

Lemma lxor_1_half v : Z.lxor v 1 = 2 * (v / 2) + (if Z.odd v then 0 else 1).
Proof. rewrite lxor_1. pose proof (half_split v). destruct (Z.odd v); lia. Qed.

Lemma lxor_1_range v n : 0 < n -> 0 <= v < 2 ^ n -> 0 <= Z.lxor v 1 < 2 ^ n.
Proof.
  intros Hn Hv. pose proof (lxor_1_half v) as ->. pose proof (half_split v) as Hs.
  assert (2 ^ n = 2 * 2 ^ (n - 1)) as Hp.
  { rewrite <- Z.pow_succ_r by lia. f_equal. lia. }
  assert (v / 2 < 2 ^ (n - 1)) by (apply Z.div_lt_upper_bound; lia).
  assert (0 <= v / 2) by (apply Z.div_pos; lia). destruct (Z.odd v); lia.
Qed.

Lemma half_range v n : 0 < n -> 0 <= v < 2 ^ n -> 0 <= v / 2 < 2 ^ (n - 1).
Proof.
  intros Hn Hv. split; [apply Z.div_pos; lia|]. apply Z.div_lt_upper_bound; [lia|].
  rewrite <- Z.pow_succ_r by lia. replace (Z.succ (n - 1)) with n by lia. lia.
Qed.

(** ** Lemmas on the operations *)

Lemma pop_nonempty p :
  bp_length p <> 0 -> pop p = (Some (Z.odd (bp_value p)), mkBitPath (bp_length p - 1) (bp_value p / 2)).
Proof. intros H. unfold pop. if_case E; [lia|]. by rewrite land_1_odd, shiftr_1. Qed.

Lemma sibling_in h p : bp_in h p -> bp_length p <> 0 -> bp_in h (sibling p).
Proof. intros [H1 H2] Hn. split; [done|]. cbn. apply lxor_1_range; [|done]. lia. Qed.

Lemma bp_in_wf h p : h <= 64 -> bp_in h p -> bp_wf p.
Proof.
  intros Hh [H1 H2]. split; [unfold in_u32; lia|]. unfold in_u64.
  assert (2 ^ bp_length p <= 2 ^ 64) by (apply Z.pow_le_mono_r; lia). lia.
Qed.

Lemma length_to_bytes p : length (to_bytes p) = 12%nat.
Proof. unfold to_bytes, u32_to_be_bytes, u64_to_be_bytes. by rewrite length_app, !length_be_bytes. Qed.

Lemma to_bytes_bytes p : Forall in_u8 (to_bytes p).
Proof. apply Forall_app; split; apply be_bytes_bytes. Qed.

Lemma from_to_bytes p : bp_wf p -> from_bytes (to_bytes p) = p.
Proof.
  destruct p as [l v]. intros [Hl Hv]. unfold from_bytes, to_bytes, BitPath_new. cbn [bp_length bp_value] in *.
  rewrite take_app_length', drop_app_length' by (symmetry; apply length_be_bytes).
  by rewrite u32_bytes_roundtrip, u64_bytes_roundtrip.
Qed.

Lemma to_from_bytes bs : length bs = 12%nat -> Forall in_u8 bs -> to_bytes (from_bytes bs) = bs.
Proof.
  intros Hn Hb. unfold to_bytes, from_bytes, u32_to_be_bytes, u64_to_be_bytes, BitPath_new. cbn [bp_length bp_value].
  transitivity (take 4 bs ++ drop 4 bs); [f_equal | apply take_drop].
  - rewrite <- (be_bytes_be_val (take 4 bs)) at 2 by by apply Forall_take.
    f_equal. rewrite length_take. lia.
  - rewrite <- (be_bytes_be_val (drop 4 bs)) at 2 by by apply Forall_drop.
    f_equal. rewrite length_drop. lia.
Qed.

Lemma to_bytes_inj p q : bp_wf p -> bp_wf q -> to_bytes p = to_bytes q -> p = q.
Proof. intros Hp Hq H. rewrite <- (from_to_bytes p), <- (from_to_bytes q) by done. by rewrite H. Qed.

#[export] Hint Resolve length_to_bytes to_bytes_bytes : zerc20.
