(* ===== verification/MerkleTrees.v ===== *)
(** [zkp/src/utils/tree/merkle_tree.rs] and [incremental_merkle_tree.rs]: the
    sparse Merkle tree, its proofs, and the in-memory incremental tree.

    The abstract specification is a total assignment of leaf hashes
    ([spec_node] is the hash of the full binary tree above them); [repr] says
    that a sparse tree stores it, and every operation refines it.  Panics
    ([unwrap] on an empty path, an index out of [zero_hashes]) are [None]. *)

From S2P Require Import Prelude Words Crypto BitPaths.
Local Open Scope Z_scope.

(** ** The code *)

Record MerkleTree := mkMerkleTree {
  mt_height : nat;
  node_hashes : gmap BitPath Z;
  zero_hashes : list Z;
}.

Record MerkleProof := mkMerkleProof { siblings : list Z }.

Section code.
Context {C : Crypto}.

(** The loop of [new] that pushes the hash of every empty level. *)
Fixpoint zero_loop (n : nat) (acc : list Z) (h : Z) : list Z :=
  match n with
  | O => acc
  | S n' => let h' := poseidon2 h h in zero_loop n' (acc ++ [h']) h'
  end.

Definition MerkleTree_new (height : nat) : MerkleTree :=
  mkMerkleTree height ∅ (zero_loop height [0] 0).

Definition height (t : MerkleTree) : nat := mt_height t.

(** [self.height - path.len()] underflows, or indexes past the table, exactly
    when the path is longer than the tree is high: a panic. *)
Definition get_node_hash (t : MerkleTree) (path : BitPath) : option Z :=
  match node_hashes t !! path with
  | Some h => Some h
  | None =>
    if len path <=? Z.of_nat (mt_height t)
    then zero_hashes t !! Z.to_nat (Z.of_nat (mt_height t) - len path)
    else None
  end.

Definition get_root (t : MerkleTree) : option Z := get_node_hash t BitPath_default.

Definition insert_node (t : MerkleTree) (path : BitPath) (h : Z) : MerkleTree :=
  mkMerkleTree (mt_height t) (<[path := h]> (node_hashes t)) (zero_hashes t).

Fixpoint update_loop (n : nat) (t : MerkleTree) (path : BitPath) (h : Z) : option MerkleTree :=
  match n with
  | O => Some t
  | S n' =>
    sib ← get_node_hash t (sibling path);
    match pop path with
    | (Some bit, path') =>
      let h' := if bit then poseidon2 sib h else poseidon2 h sib in
      update_loop n' (insert_node t path' h') path' h'
    | (None, _) => None
    end
  end.

Definition update_leaf (t : MerkleTree) (index leaf_hash : Z) : option MerkleTree :=
  let path := BitPath_new (as_u32 (Z.of_nat (mt_height t))) index in
  update_loop (mt_height t) (insert_node t path leaf_hash) path leaf_hash.

Fixpoint prove_loop (n : nat) (t : MerkleTree) (path : BitPath) (acc : list Z) : option (list Z) :=
  match n with
  | O => Some acc
  | S n' =>
    sib ← get_node_hash t (sibling path);
    prove_loop n' t (pop path).2 (acc ++ [sib])
  end.

Definition prove (t : MerkleTree) (index : Z) : option MerkleProof :=
  mkMerkleProof <$> prove_loop (mt_height t) t (BitPath_new (as_u32 (Z.of_nat (mt_height t))) index) [].

(** [MerkleProof] *)
Definition dummy (height : nat) : MerkleProof := mkMerkleProof (replicate height 0).
Definition proof_height (p : MerkleProof) : nat := length (siblings p).

Fixpoint root_loop (sibs : list Z) (path : BitPath) (state : Z) : option Z :=
  match sibs with
  | [] => Some state
  | sib :: sibs' =>
    match pop path with
    | (Some bit, path') =>
      root_loop sibs' path' (if bit then poseidon2 sib state else poseidon2 state sib)
    | (None, _) => None
    end
  end.

Definition proof_get_root (p : MerkleProof) (leaf_hash index : Z) : option Z :=
  root_loop (siblings p) (BitPath_new (as_u32 (Z.of_nat (proof_height p))) index) leaf_hash.

Definition extend (p other : MerkleProof) : MerkleProof :=
  mkMerkleProof (siblings p ++ siblings other).
End code.

(** [incremental_merkle_tree.rs] *)

Record Leaf := mkLeaf { leaf_address : Z; leaf_value : Z }.

Record IncrementalMerkleTree := mkIMT {
  imt_tree : MerkleTree;
  imt_index : Z;
  imt_hash_chain : Z;
  imt_leaves : gmap Z Leaf;
  address_to_indices : gmap Z (list Z);
}.

Section incremental.
Context {C : Crypto}.

Definition Leaf_hash (l : Leaf) : Z :=
  compute_leaf_hash (address_to_fr (leaf_address l)) (u256_to_fr (leaf_value l)).

Definition IMT_new (height : nat) : IncrementalMerkleTree :=
  mkIMT (MerkleTree_new height) 0 0 ∅ ∅.

(** The returned index and the tree after the call; [None] is a panic. *)
Definition IMT_insert (t : IncrementalMerkleTree) (address value : Z)
  : option (Z * IncrementalMerkleTree) :=
  let leaf := mkLeaf address value in
  let index := imt_index t in
  tree' ← update_leaf (imt_tree t) index (Leaf_hash leaf);
  Some (index,
        mkIMT tree' (u64_add (imt_index t) 1)
          (hash_chain (imt_hash_chain t) (leaf_address leaf) (leaf_value leaf))
          (<[index := leaf]> (imt_leaves t))
          (<[address := default [] (address_to_indices t !! address) ++ [index]]>
             (address_to_indices t))).

Definition IMT_get_root (t : IncrementalMerkleTree) : option Z := get_root (imt_tree t).
Definition IMT_prove (t : IncrementalMerkleTree) (index : Z) : option MerkleProof :=
  prove (imt_tree t) index.

(** A sequence of insertions. *)
Fixpoint IMT_insert_all (t : IncrementalMerkleTree) (ls : list Leaf) : option IncrementalMerkleTree :=
  match ls with
  | [] => Some t
  | l :: ls' => r ← IMT_insert t (leaf_address l) (leaf_value l); IMT_insert_all r.2 ls'
  end.
End incremental.

(** ** The abstract specification *)

Section spec.
Context {C : Crypto}.

(** The hash of the node of level [k] (counted from the leaves) at position [v]. *)
Fixpoint spec_node (f : Z -> Z) (k : nat) (v : Z) : Z :=
  match k with
  | O => f v
  | S k' => poseidon2 (spec_node f k' (2 * v)) (spec_node f k' (2 * v + 1))
  end.

Definition spec_root (h : nat) (f : Z -> Z) : Z := spec_node f h 0.

(** One leaf changed. *)
Definition upd (f : Z -> Z) (i x : Z) : Z -> Z := fun j => if j =? i then x else f j.

(** Leaf hashes of a tree whose first [length l] leaves are [l]. *)
Definition leaf_fun (l : list Z) : Z -> Z := fun j =>
  if j <? 0 then 0 else default 0 (l !! Z.to_nat j).

(** The leaf assignment and the hash chain of a history of transfers. *)
Definition history_leaves (ls : list Leaf) : Z -> Z := leaf_fun (Leaf_hash <$> ls).
Definition history_chain (ls : list Leaf) : Z :=
  foldl (fun c l => hash_chain c (leaf_address l) (leaf_value l)) 0 ls.
Definition history_root (h : nat) (ls : list Leaf) : Z := spec_root h (history_leaves ls).

(** The positions of the transfers to [a], in order. *)
Definition history_indices (ls : list Leaf) (a : Z) : list Z :=
  (fun p => Z.of_nat p.1) <$> filter (fun p => leaf_address p.2 = a) (imap pair ls).

(** The root recomputed from a leaf and its authentication path. *)
Fixpoint path_root (leaf i : Z) (sibs : list Z) : Z :=
  match sibs with
  | [] => leaf
  | s :: ss => path_root (if Z.odd i then poseidon2 s leaf else poseidon2 leaf s) (i / 2) ss
  end.

(** The honest authentication path of leaf [i], from level [k] up. *)
Fixpoint spec_path (f : Z -> Z) (k n : nat) (i : Z) : list Z :=
  match n with
  | O => []
  | S n' => spec_node f k (Z.lxor i 1) :: spec_path f (S k) n' (i / 2)
  end.

(** Compares a presented path with the honest one, level by level, and
    returns the first two distinct hash inputs with the same hash. *)
Fixpoint find_collision (f : Z -> Z) (k : nat) (cur i : Z) (sibs : list Z)
  : option ((Z * Z) * (Z * Z)) :=
  match sibs with
  | [] => None
  | s :: ss =>
    let presented := if Z.odd i then (s, cur) else (cur, s) in
    let honest := (spec_node f k (2 * (i / 2)), spec_node f k (2 * (i / 2) + 1)) in
    if (if decide (presented = honest) then false
        else poseidon2 presented.1 presented.2 =? poseidon2 honest.1 honest.2)
    then Some (presented, honest)
    else find_collision f (S k) (poseidon2 presented.1 presented.2) (i / 2) ss
  end.

Definition is_collision (c : (Z * Z) * (Z * Z)) : Prop :=
  c.1 <> c.2 /\ poseidon2 c.1.1 c.1.2 = poseidon2 c.2.1 c.2.2.

Definition zeros_ok (t : MerkleTree) : Prop :=
  forall k, (k <= mt_height t)%nat -> zero_hashes t !! k = Some (spec_node (fun _ => 0) k 0).

(** The sparse tree stores the leaf assignment [f]. *)
Definition repr (t : MerkleTree) (f : Z -> Z) : Prop :=
  Z.of_nat (mt_height t) < 2 ^ 32 /\ zeros_ok t /\
  forall l v, 0 <= l <= Z.of_nat (mt_height t) -> 0 <= v < 2 ^ l ->
    get_node_hash t (mkBitPath l v) = Some (spec_node f (mt_height t - Z.to_nat l) v).

(** While [update_leaf] climbs, levels up to [j] already hold the new
    assignment [g] and the levels above still hold [f]. *)
Definition repr_upto (t : MerkleTree) (f g : Z -> Z) (j : nat) : Prop :=
  forall l v, 0 <= l <= Z.of_nat (mt_height t) -> 0 <= v < 2 ^ l ->
    get_node_hash t (mkBitPath l v)
    = Some (spec_node (if decide (mt_height t - Z.to_nat l <= j)%nat then g else f)
              (mt_height t - Z.to_nat l) v).

(** The state of the incremental tree after the history [ls]. *)
Record imt_repr (h : nat) (t : IncrementalMerkleTree) (ls : list Leaf) : Prop := {
  ir_height : mt_height (imt_tree t) = h;
  ir_tree : repr (imt_tree t) (history_leaves ls);
  ir_index : imt_index t = Z.of_nat (length ls);
  ir_chain : imt_hash_chain t = history_chain ls;
  ir_leaves : forall i, imt_leaves t !! i = if i <? 0 then None else ls !! Z.to_nat i;
  ir_addresses : forall a, default [] (address_to_indices t !! a) = history_indices ls a;
}.

(** A sequence of leaf updates, on the sparse tree and on the specification. *)
Definition apply_updates (t : MerkleTree) (us : list (Z * Z)) : option MerkleTree :=
  foldl (fun ot u => t' ← ot; update_leaf t' u.1 u.2) (Some t) us.

Definition spec_updates (us : list (Z * Z)) : Z -> Z :=
  foldl (fun f u => upd f u.1 u.2) (fun _ => 0) us.
End spec.

(** ** Lemmas *)

Section lemmas.
Context {C : Crypto}.

Lemma spec_node_ext f g k v :
  (forall j, v * 2 ^ Z.of_nat k <= j < (v + 1) * 2 ^ Z.of_nat k -> f j = g j) ->
  spec_node f k v = spec_node g k v.
Proof.
  revert v. induction k as [|k IH]; intros v Hfg; cbn [spec_node].
  - apply Hfg. rewrite Z.pow_0_r. lia.
  - assert (2 ^ Z.of_nat (S k) = 2 * 2 ^ Z.of_nat k) as Hp.
    { rewrite Nat2Z.inj_succ, Z.pow_succ_r by lia. done. }
    f_equal; apply IH; intros j Hj; apply Hfg; rewrite Hp; lia.
Qed.

Lemma spec_node_zero k v : spec_node (fun _ => 0) k v = spec_node (fun _ => 0) k 0.
Proof.
  revert v. induction k as [|k IH]; intros v; cbn [spec_node]; [done|].
  by rewrite (IH (2 * v)), (IH (2 * v + 1)), (IH (2 * 0)), (IH (2 * 0 + 1)).
Qed.

Lemma spec_node_upd_ne f i x k v :
  0 <= i -> v <> i / 2 ^ Z.of_nat k -> spec_node (upd f i x) k v = spec_node f k v.
Proof.
  intros Hi Hv. apply spec_node_ext. intros j Hj. unfold upd. if_case E; [|done]. subst j. exfalso.
  apply Hv. apply (Z.div_unique_pos i _ v (i - v * 2 ^ Z.of_nat k)); lia.
Qed.

(** A node from its position and its sibling. *)
Lemma spec_node_parent f k v :
  spec_node f (S k) (v / 2)
  = if Z.odd v then poseidon2 (spec_node f k (Z.lxor v 1)) (spec_node f k v)
    else poseidon2 (spec_node f k v) (spec_node f k (Z.lxor v 1)).
Proof.
  cbn [spec_node]. rewrite lxor_1_half. pose proof (half_split v) as Hs.
  destruct (Z.odd v); [rewrite Z.add_0_r | rewrite Z.add_0_r in Hs]; by rewrite <- Hs.
Qed.

Lemma zero_loop_lookup n acc h k :
  length acc = S k -> h = spec_node (fun _ => 0) k 0 ->
  (forall j, (j <= k)%nat -> acc !! j = Some (spec_node (fun _ => 0) j 0)) ->
  forall j, (j <= k + n)%nat -> zero_loop n acc h !! j = Some (spec_node (fun _ => 0) j 0).
Proof.
  revert acc h k. induction n as [|n IH]; intros acc h k Hl Hh Hacc j Hj; cbn [zero_loop].
  - apply Hacc. lia.
  - assert (poseidon2 h h = spec_node (fun _ => 0) (S k) 0) as Hh'.
    { cbn [spec_node]. rewrite (spec_node_zero k (2 * 0)), (spec_node_zero k (2 * 0 + 1)). by subst. }
    apply (IH _ _ (S k)); [rewrite length_app; cbn; lia | done | | lia].
    intros i Hi. destruct (decide (i = S k)) as [->|].
    + rewrite lookup_app_r by lia. by rewrite Hl, Nat.sub_diag, Hh'.
    + rewrite lookup_app_l by lia. apply Hacc. lia.
Qed.

Lemma get_insert_node t p h q :
  get_node_hash (insert_node t p h) q = if decide (p = q) then Some h else get_node_hash t q.
Proof. unfold get_node_hash, insert_node. cbn. rewrite lookup_insert. by case_decide. Qed.

Lemma zeros_ok_insert t p h : zeros_ok t -> zeros_ok (insert_node t p h).
Proof. done. Qed.

Lemma repr_upto_insert t f i x j :
  (j <= mt_height t)%nat -> 0 <= i < 2 ^ Z.of_nat (mt_height t) ->
  (forall l v, 0 <= l <= Z.of_nat (mt_height t) -> 0 <= v < 2 ^ l ->
    get_node_hash t (mkBitPath l v)
    = Some (spec_node (if decide (mt_height t - Z.to_nat l < j)%nat then upd f i x else f)
              (mt_height t - Z.to_nat l) v)) ->
  repr_upto (insert_node t (mkBitPath (Z.of_nat (mt_height t - j)) (i / 2 ^ Z.of_nat j))
               (spec_node (upd f i x) j (i / 2 ^ Z.of_nat j))) f (upd f i x) j.
Proof.
  intros Hj Hi Ht l v Hl Hv. cbn [mt_height insert_node] in *. rewrite get_insert_node.
  case_decide as Heq.
  - injection Heq as <- <-. rewrite Nat2Z.id.
    replace (mt_height t - (mt_height t - j))%nat with j by lia. by rewrite decide_True by lia.
  - rewrite Ht by done. f_equal. case_decide; [by rewrite decide_True by lia|].
    case_decide; [|done]. assert (mt_height t - Z.to_nat l = j)%nat as E by lia. rewrite E.
    symmetry. apply spec_node_upd_ne; [lia|]. intros ->. apply Heq. f_equal. lia.
Qed.

Lemma div_pow_succ i j : 0 <= i -> i / 2 ^ Z.of_nat j / 2 = i / 2 ^ Z.of_nat (S j).
Proof.
  intros. rewrite Z.div_div by (try apply Z.pow_nonzero; lia). f_equal.
  rewrite Nat2Z.inj_succ, Z.pow_succ_r by lia. lia.
Qed.

Lemma update_loop_spec n : forall j t f i x,
  (j + n)%nat = mt_height t -> 0 <= i < 2 ^ Z.of_nat (mt_height t) ->
  repr_upto t f (upd f i x) j ->
  exists t', update_loop n t (mkBitPath (Z.of_nat n) (i / 2 ^ Z.of_nat j))
               (spec_node (upd f i x) j (i / 2 ^ Z.of_nat j)) = Some t'
    /\ mt_height t' = mt_height t /\ zero_hashes t' = zero_hashes t
    /\ repr_upto t' f (upd f i x) (mt_height t).
Proof.
  induction n as [|n IH]; intros j t f i x Hjn Hi Ht.
  - exists t. split_and!; [done..|]. by replace (mt_height t) with j by lia.
  - set (g := upd f i x) in *. set (v := i / 2 ^ Z.of_nat j).
    assert (0 <= v < 2 ^ Z.of_nat (S n)) as Hv.
    { split; [apply Z.div_pos; lia|]. apply Z.div_lt_upper_bound; [lia|].
      rewrite <- Z.pow_add_r by lia. replace (Z.of_nat j + Z.of_nat (S n)) with (Z.of_nat (mt_height t)) by lia. lia. }
    cbn [update_loop]. unfold sibling. cbn [bp_length bp_value].
    rewrite (Ht (Z.of_nat (S n)) (Z.lxor v 1)) by (try apply lxor_1_range; lia). cbn [mbind option_bind].
    rewrite pop_nonempty by (cbn; lia). cbn [bp_length bp_value].
    replace (mt_height t - Z.to_nat (Z.of_nat (S n)))%nat with j by lia.
    rewrite decide_True by lia.
    replace (Z.of_nat (S n) - 1) with (Z.of_nat n) by lia.
    rewrite <- spec_node_parent. unfold v. rewrite div_pow_succ by lia.
    destruct (IH (S j) (insert_node t (mkBitPath (Z.of_nat n) (i / 2 ^ Z.of_nat (S j)))
                          (spec_node g (S j) (i / 2 ^ Z.of_nat (S j)))) f i x) as (t' & H1 & H2 & H3 & H4);
      [cbn; lia | done | | exists t'; split_and!; done].
    replace n with (mt_height t - S j)%nat by lia. apply repr_upto_insert; [lia | done |].
    intros l w Hl Hw. rewrite Ht by done. do 2 f_equal. repeat case_decide; try done; lia.
Qed.
End lemmas.

Section refinement.
Context {C : Crypto}.

Lemma MerkleTree_new_repr h : Z.of_nat h < 2 ^ 32 -> repr (MerkleTree_new h) (fun _ => 0).
Proof.
  intros Hh. assert (zeros_ok (MerkleTree_new h)) as Hz.
  { intros k Hk. apply (zero_loop_lookup h [0] 0 0); [done..| |done].
    intros j Hj. by replace j with 0%nat by lia. }
  split_and!; [done|done|]. intros l v Hl Hv. unfold get_node_hash. cbn [node_hashes MerkleTree_new].
  rewrite lookup_empty.
  change (mt_height (MerkleTree_new h)) with h in *. cbn [len bp_length]. if_case E; [|lia].
  replace (Z.to_nat (Z.of_nat h - l)) with (h - Z.to_nat l)%nat by lia.
  rewrite spec_node_zero. apply Hz. cbn. lia.
Qed.

Lemma update_leaf_repr t f i x :
  repr t f -> 0 <= i < 2 ^ Z.of_nat (mt_height t) ->
  exists t', update_leaf t i x = Some t' /\ mt_height t' = mt_height t /\ repr t' (upd f i x).
Proof.
  intros (Hh & Hz & Ht) Hi. unfold update_leaf. rewrite as_u32_id by (unfold in_u32; lia).
  assert (upd f i x i = x) as Hx by (unfold upd; by rewrite Z.eqb_refl).
  edestruct (update_loop_spec (mt_height t) 0
    (insert_node t (BitPath_new (Z.of_nat (mt_height t)) i) x) f i x) as (t' & H1 & H2 & H3 & H4);
    [done | done | |].
  - pose proof (repr_upto_insert t f i x 0) as H. cbn [spec_node] in H.
    rewrite Z.pow_0_r, Z.div_1_r, Nat.sub_0_r, Hx in H. apply H; [lia | done |].
    intros l v Hl Hv. rewrite Ht by done. by rewrite decide_False by lia.
  - rewrite Z.pow_0_r, Z.div_1_r in H1. cbn [spec_node] in H1. rewrite Hx in H1.
    cbn [mt_height insert_node zero_hashes] in *.
    exists t'. split_and!; [done | done |]. split_and!.
    + by rewrite H2.
    + intros k Hk. rewrite H3. apply Hz. lia.
    + intros l v Hl Hv. rewrite H4 by done. by rewrite decide_True by lia.
Qed.

Lemma repr_root t f : repr t f -> get_root t = Some (spec_root (mt_height t) f).
Proof.
  intros (Hh & Hz & Ht). unfold get_root, spec_root, BitPath_default.
  rewrite Ht by (rewrite ?Z.pow_0_r; lia). by rewrite Nat.sub_0_r.
Qed.

Lemma prove_loop_spec t f n : forall j i acc,
  repr t f -> (j + n)%nat = mt_height t -> 0 <= i < 2 ^ Z.of_nat n ->
  prove_loop n t (mkBitPath (Z.of_nat n) i) acc = Some (acc ++ spec_path f j n i).
Proof.
  induction n as [|n IH]; intros j i acc Ht Hjn Hi; cbn [prove_loop spec_path].
  - by rewrite app_nil_r.
  - unfold sibling. cbn [bp_length bp_value]. destruct Ht as (Hh & Hz & Ht).
    rewrite Ht by (try apply lxor_1_range; lia). cbn [mbind option_bind].
    rewrite pop_nonempty by (cbn; lia). cbn [snd bp_length bp_value].
    replace (Z.of_nat (S n) - 1) with (Z.of_nat n) by lia.
    rewrite (IH (S j)); [|done|lia|].
    + rewrite <- app_assoc. replace (mt_height t - Z.to_nat (Z.of_nat (S n)))%nat with j by lia. done.
    + pose proof (half_range i (Z.of_nat (S n))).
      replace (Z.of_nat (S n) - 1) with (Z.of_nat n) in * by lia. lia.
Qed.

Lemma prove_spec t f i :
  repr t f -> 0 <= i < 2 ^ Z.of_nat (mt_height t) ->
  prove t i = Some (mkMerkleProof (spec_path f 0 (mt_height t) i)).
Proof.
  intros Ht Hi. unfold prove. assert (Z.of_nat (mt_height t) < 2 ^ 32) by apply Ht.
  rewrite as_u32_id by (unfold in_u32; lia). unfold BitPath_new.
  by rewrite (prove_loop_spec t f _ 0).
Qed.

Lemma root_loop_path_root sibs : forall l i leaf,
  Z.of_nat (length sibs) <= l -> root_loop sibs (mkBitPath l i) leaf = Some (path_root leaf i sibs).
Proof.
  induction sibs as [|s ss IH]; intros l i leaf Hl; cbn [root_loop path_root]; [done|].
  cbn in Hl. rewrite pop_nonempty by (cbn; lia). cbn [bp_length bp_value]. apply IH. lia.
Qed.

Lemma proof_get_root_path p leaf i :
  Z.of_nat (length (siblings p)) < 2 ^ 32 -> proof_get_root p leaf i = Some (path_root leaf i (siblings p)).
Proof.
  intros Hl. unfold proof_get_root, proof_height. rewrite as_u32_id by (unfold in_u32; lia).
  by apply root_loop_path_root.
Qed.

Lemma length_spec_path f k n i : length (spec_path f k n i) = n.
Proof. revert k i. induction n as [|n IH]; intros k i; cbn; [done|]. by rewrite IH. Qed.

Lemma path_root_spec_path f n : forall k i,
  0 <= i -> path_root (spec_node f k i) i (spec_path f k n i) = spec_node f (k + n) (i / 2 ^ Z.of_nat n).
Proof.
  induction n as [|n IH]; intros k i Hi; cbn [spec_path path_root].
  - by rewrite Nat.add_0_r, Z.pow_0_r, Z.div_1_r.
  - rewrite <- spec_node_parent, IH by (apply Z.div_pos; lia).
    replace (S k + n)%nat with (k + S n)%nat by lia. f_equal.
    rewrite Z.div_div, Nat2Z.inj_succ, Z.pow_succ_r by (try apply Z.pow_nonzero; lia). done.
Qed.

Lemma spec_path_opens f h i :
  0 <= i < 2 ^ Z.of_nat h -> path_root (f i) i (spec_path f 0 h i) = spec_root h f.
Proof.
  intros Hi. pose proof (path_root_spec_path f h 0 i ltac:(lia)) as H. cbn [spec_node Nat.add] in H.
  by rewrite H, Z.div_small.
Qed.

Lemma path_root_app s1 : forall s2 leaf i,
  0 <= i ->
  path_root leaf i (s1 ++ s2) = path_root (path_root leaf i s1) (i / 2 ^ Z.of_nat (length s1)) s2.
Proof.
  induction s1 as [|s s1 IH]; intros s2 leaf i Hi; cbn [app path_root length].
  - by rewrite Z.pow_0_r, Z.div_1_r.
  - rewrite IH by (apply Z.div_pos; lia). f_equal.
    rewrite Z.div_div, Nat2Z.inj_succ, Z.pow_succ_r by (try apply Z.pow_nonzero; lia). done.
Qed.

(** Only the low bits of the index are read. *)
Lemma path_root_mod s : forall leaf i m,
  Z.of_nat (length s) <= m -> path_root leaf (i mod 2 ^ m) s = path_root leaf i s.
Proof.
  induction s as [|a s IH]; intros leaf i m Hm; cbn [path_root length] in *; [done|].
  assert (2 ^ m = 2 * 2 ^ (m - 1)) as Hp by (rewrite <- Z.pow_succ_r by lia; f_equal; lia).
  assert (Z.odd (i mod 2 ^ m) = Z.odd i) as ->.
  { rewrite Hp, Z.rem_mul_r, Z.odd_add_mul_2 by (try apply Z.pow_nonzero; lia).
    rewrite Zmod_odd. by destruct (Z.odd i). }
  assert (i mod 2 ^ m / 2 = (i / 2) mod 2 ^ (m - 1)) as ->.
  { rewrite Hp, Z.rem_mul_r, (Z.mul_comm 2), Z.div_add by (try apply Z.pow_nonzero; lia).
    rewrite Z.div_small by (apply Z.mod_pos_bound; lia). lia. }
  apply IH. lia.
Qed.

Lemma extend_get_root (p q : MerkleProof) (leaf i j : Z) :
  Z.of_nat (proof_height p + proof_height q) < 2 ^ 32 -> 0 <= i < 2 ^ Z.of_nat (proof_height p) -> 0 <= j ->
  proof_get_root (extend p q) leaf (Z.shiftl j (Z.of_nat (proof_height p)) + i)
  = (r ← proof_get_root p leaf i; proof_get_root q r j).
Proof.
  unfold proof_height. intros Hl Hi Hj. rewrite (proof_get_root_path p) by lia. cbn [mbind option_bind].
  rewrite !proof_get_root_path by (cbn [extend siblings]; rewrite ?length_app; lia).
  f_equal. cbn [extend siblings].
  rewrite Z.shiftl_mul_pow2, path_root_app by lia.
  rewrite Z.div_add_l, (Z.div_small i), Z.add_0_r by lia. f_equal.
  rewrite <- (path_root_mod _ _ (_ + i) _ (Z.le_refl _)).
  by rewrite Z.add_comm, Z.mod_add, Z.mod_small by lia.
Qed.

Lemma find_collision_sound f sibs : forall k cur i c,
  find_collision f k cur i sibs = Some c -> is_collision c.
Proof.
  induction sibs as [|s ss IH]; intros k cur i c; cbn [find_collision]; [done|].
  case_decide as Hd; [apply IH|]. if_case E; [|apply IH]. intros [= <-]. by split.
Qed.

(** No collision along the path: the presented leaf and siblings are the honest ones. *)
Lemma path_binding f sibs : forall k cur i,
  path_root cur i sibs = spec_node f (k + length sibs) (i / 2 ^ Z.of_nat (length sibs)) -> 0 <= i ->
  find_collision f k cur i sibs = None ->
  cur = spec_node f k i /\ sibs = spec_path f k (length sibs) i.
Proof.
  induction sibs as [|s ss IH]; intros k cur i Hr Hi Hc; cbn [path_root length spec_path] in *.
  - split; [|done]. by rewrite Nat.add_0_r, Z.pow_0_r, Z.div_1_r in Hr.
  - cbn [find_collision] in Hc. pose proof (half_split i) as Hs. pose proof (lxor_1_half i) as Hx.
    set (pr := if Z.odd i then (s, cur) else (cur, s)) in *.
    set (ho := (spec_node f k (2 * (i / 2)), spec_node f k (2 * (i / 2) + 1))) in *.
    assert (path_root (poseidon2 pr.1 pr.2) (i / 2) ss
            = spec_node f (S k + length ss) (i / 2 / 2 ^ Z.of_nat (length ss))) as Hr'.
    { replace (S k + length ss)%nat with (k + S (length ss))%nat by lia.
      rewrite Z.div_div by (try apply Z.pow_nonzero; lia).
      rewrite Nat2Z.inj_succ, Z.pow_succ_r in Hr by lia. rewrite <- Hr. subst pr. by destruct (Z.odd i). }
    assert (pr = ho /\ find_collision f (S k) (poseidon2 pr.1 pr.2) (i / 2) ss = None) as [Hd Hc'].
    { case_decide as Hd; [done|]. destruct (_ =? _) eqn:E; [done|]. bool_cases.
      exfalso. apply E. apply IH in Hr' as [Heq _]; [exact Heq | apply Z.div_pos; lia | done]. }
    apply IH in Hr' as [_ Hss]; [| apply Z.div_pos; lia | done].
    rewrite <- Hss. subst pr ho. destruct (Z.odd i); injection Hd as H1 H2.
    + rewrite Z.add_0_r in Hx. rewrite Hx, <- H1. split; [|done]. by rewrite Hs.
    + rewrite Z.add_0_r in Hs. rewrite Hx, <- H2. split; [|done]. by rewrite Hs.
Qed.

Lemma binding_or_collision f sibs k cur i :
  path_root cur i sibs = spec_node f (k + length sibs) (i / 2 ^ Z.of_nat (length sibs)) -> 0 <= i ->
  cur = spec_node f k i \/ exists c, find_collision f k cur i sibs = Some c.
Proof.
  intros Hr Hi. destruct (find_collision f k cur i sibs) as [c|] eqn:E; [by right; exists c|].
  left. by apply (path_binding f sibs).
Qed.
End refinement.

(** ** The incremental tree refines a history of transfers *)

Section history.
Context {C : Crypto}.

Lemma repr_ext t f g : (forall j, 0 <= j -> f j = g j) -> repr t f -> repr t g.
Proof.
  intros Hfg (Hh & Hz & Ht). split_and!; [done..|]. intros l v Hl Hv. rewrite Ht by done. f_equal.
  apply spec_node_ext. intros j Hj. apply Hfg. nia.
Qed.

Lemma history_leaves_snoc ls l j :
  0 <= j -> history_leaves (ls ++ [l]) j = upd (history_leaves ls) (Z.of_nat (length ls)) (Leaf_hash l) j.
Proof.
  intros Hj. unfold history_leaves, leaf_fun, upd. rewrite fmap_app. if_case E; [lia|].
  destruct (decide (j = Z.of_nat (length ls))) as [->|].
  - rewrite Z.eqb_refl, Nat2Z.id, lookup_app_r by (rewrite length_fmap; lia).
    by rewrite length_fmap, Nat.sub_diag.
  - rewrite (proj2 (Z.eqb_neq _ _)) by done. f_equal.
    destruct (decide (Z.to_nat j < length ls)%nat).
    + by rewrite lookup_app_l by (rewrite length_fmap; lia).
    + rewrite !lookup_ge_None_2; rewrite ?length_app, ?length_fmap; cbn; try done; lia.
Qed.

Lemma history_leaves_nil j : history_leaves [] j = 0.
Proof. unfold history_leaves, leaf_fun. by if_case E. Qed.

Lemma history_leaves_ge ls j : Z.of_nat (length ls) <= j -> history_leaves ls j = 0.
Proof.
  intros Hj. unfold history_leaves, leaf_fun. if_case E; [done|].
  by rewrite lookup_ge_None_2 by (rewrite length_fmap; lia).
Qed.

Lemma history_leaves_lookup ls (k : nat) l :
  ls !! k = Some l -> history_leaves ls (Z.of_nat k) = Leaf_hash l.
Proof.
  intros Hk. unfold history_leaves, leaf_fun. if_case E; [lia|].
  by rewrite Nat2Z.id, list_lookup_fmap, Hk.
Qed.

Lemma history_chain_snoc ls l :
  history_chain (ls ++ [l]) = hash_chain (history_chain ls) (leaf_address l) (leaf_value l).
Proof. unfold history_chain. by rewrite foldl_app. Qed.

Lemma history_indices_snoc ls l a :
  history_indices (ls ++ [l]) a
  = history_indices ls a ++ (if decide (leaf_address l = a) then [Z.of_nat (length ls)] else []).
Proof.
  unfold history_indices. rewrite imap_app, filter_app, fmap_app. f_equal. cbn.
  by case_decide; cbn; rewrite ?Nat.add_0_r.
Qed.

Lemma history_chain_fr {HC : CryptoLaws C} ls : is_fr (history_chain ls).
Proof.
  induction ls as [|l ls _] using rev_ind; [by vm_compute|].
  rewrite history_chain_snoc. auto with zerc20.
Qed.

Lemma spec_node_fr {HC : CryptoLaws C} f k v : (forall j, is_fr (f j)) -> is_fr (spec_node f k v).
Proof. intros Hf. destruct k; cbn; auto with zerc20. Qed.

Lemma path_root_fr {HC : CryptoLaws C} sibs : forall leaf i, is_fr leaf -> is_fr (path_root leaf i sibs).
Proof.
  induction sibs as [|s ss IH]; intros leaf i Hl; cbn [path_root]; [done|].
  apply IH. destruct (Z.odd i); apply poseidon2_fr.
Qed.

Lemma history_leaves_fr {HC : CryptoLaws C} ls j : is_fr (history_leaves ls j).
Proof.
  assert (is_fr 0) as H0 by by vm_compute.
  unfold history_leaves, leaf_fun. if_case E; [done|].
  rewrite list_lookup_fmap. destruct (ls !! _); cbn; [apply poseidon2_fr | done].
Qed.

Lemma history_node_fr {HC : CryptoLaws C} ls k v : is_fr (spec_node (history_leaves ls) k v).
Proof. apply spec_node_fr, history_leaves_fr. Qed.

Lemma IMT_new_repr h : Z.of_nat h < 2 ^ 32 -> imt_repr h (IMT_new h) [].
Proof.
  intros Hh. split; cbn; try done.
  { eapply repr_ext; [|by apply MerkleTree_new_repr]. intros j _. by rewrite history_leaves_nil. }
  intros i. rewrite lookup_empty. by case_match.
Qed.

Lemma IMT_insert_repr h t ls a v :
  imt_repr h t ls -> Z.of_nat (length ls) < 2 ^ Z.of_nat h -> Z.of_nat (length ls) + 1 < 2 ^ 64 ->
  exists t', IMT_insert t a v = Some (Z.of_nat (length ls), t') /\ imt_repr h t' (ls ++ [mkLeaf a v]).
Proof.
  intros [Hh Ht Hi Hc Hl Ha] Hcap Hov. unfold IMT_insert.
  destruct (update_leaf_repr (imt_tree t) (history_leaves ls) (imt_index t) (Leaf_hash (mkLeaf a v)))
    as (tr & -> & Hh' & Ht'); [done | rewrite Hi, Hh; lia |].
  cbn [mbind option_bind leaf_address leaf_value]. rewrite Hi.
  eexists; split; [done|]. split; cbn [imt_tree imt_index imt_hash_chain imt_leaves address_to_indices].
  - by rewrite Hh'.
  - eapply repr_ext; [|exact Ht']. intros j Hj. rewrite Hi. by rewrite history_leaves_snoc.
  - rewrite length_app. cbn. unfold u64_add. rewrite Z.mod_small; lia.
  - by rewrite history_chain_snoc, Hc.
  - intros i. rewrite lookup_insert. case_decide as E.
    + subst i. if_case E'; [lia|]. by rewrite Nat2Z.id, list_lookup_middle.
    + rewrite Hl. if_case E'; [done|]. destruct (decide (Z.to_nat i < length ls)%nat).
      * by rewrite lookup_app_l.
      * rewrite !lookup_ge_None_2; rewrite ?length_app; cbn; try done; lia.
  - intros b. rewrite history_indices_snoc, lookup_insert. cbn [leaf_address]. case_decide as E.
    + subst b. cbn. by rewrite Ha.
    + by rewrite Ha, app_nil_r.
Qed.

Lemma IMT_insert_all_repr h ls : forall t ls0,
  imt_repr h t ls0 -> Z.of_nat (length ls0 + length ls) <= 2 ^ Z.of_nat h ->
  Z.of_nat (length ls0 + length ls) < 2 ^ 64 ->
  exists t', IMT_insert_all t ls = Some t' /\ imt_repr h t' (ls0 ++ ls).
Proof.
  induction ls as [|l ls IH]; intros t ls0 Ht Hcap Hov; cbn [IMT_insert_all length] in *.
  - exists t. by rewrite app_nil_r.
  - destruct (IMT_insert_repr h t ls0 (leaf_address l) (leaf_value l) Ht) as (t1 & -> & Ht1); [lia..|].
    cbn. destruct (IH t1 (ls0 ++ [l])) as (t' & -> & Ht'); [by destruct l | | |].
    + rewrite length_app. cbn. lia.
    + rewrite length_app. cbn. lia.
    + exists t'. split; [done|]. by rewrite <- app_assoc in Ht'.
Qed.

(** The in-memory tree evaluates the root of a history. *)
Lemma history_root_eval h ls r :
  (h <= 63)%nat -> Z.of_nat (length ls) <= 2 ^ Z.of_nat h -> Z.of_nat (length ls) < 2 ^ 64 ->
  IMT_insert_all (IMT_new h) ls ≫= IMT_get_root = Some r -> history_root h ls = r.
Proof.
  intros Hh Hcap Hov. destruct (IMT_insert_all_repr h ls (IMT_new h) []) as (t & -> & Ht); [apply IMT_new_repr; lia | done..|].
  cbn. unfold IMT_get_root. rewrite (repr_root _ _ (ir_tree _ _ _ Ht)), (ir_height _ _ _ Ht). by intros [= <-].
Qed.
End history.

(** ** Properties *)

Section properties.
Context {C : Crypto}.

Lemma apply_updates_repr h us :
  Z.of_nat h < 2 ^ 32 -> Forall (fun u => 0 <= u.1 < 2 ^ Z.of_nat h) us ->
  exists t, apply_updates (MerkleTree_new h) us = Some t /\ mt_height t = h /\ repr t (spec_updates us).
Proof.
  intros Hh. unfold apply_updates, spec_updates. induction us as [|u us IH] using rev_ind; intros Hus.
  - exists (MerkleTree_new h). split_and!; [done..|]. by apply MerkleTree_new_repr.
  - apply Forall_app in Hus as [Hus Hu]. apply Forall_cons in Hu as [Hu _].
    destruct (IH Hus) as (t & Ht1 & Ht2 & Ht3).
    destruct (update_leaf_repr t _ u.1 u.2 Ht3) as (t' & H1 & H2 & H3); [rewrite Ht2; apply Hu|].
    exists t'. rewrite !foldl_app, Ht1. cbn. split_and!; [done | congruence | done].
Qed.

(** C34: After any sequence of [update_leaf] calls on a fresh tree of any height, no
    call panics, [get_root] is the root of the full binary tree whose leaves are
    the last value written at each position (0 elsewhere), and for every position
    [prove] returns a path of the tree's height from which [MerkleProof::get_root]
    recomputes exactly that root. *)
Theorem sparse_tree_correct (h : nat) (us : list (Z * Z)) (j : Z) :
  Z.of_nat h < 2 ^ 32 -> Forall (fun u => 0 <= u.1 < 2 ^ Z.of_nat h) us -> 0 <= j < 2 ^ Z.of_nat h ->
  exists t p, apply_updates (MerkleTree_new h) us = Some t
    /\ get_root t = Some (spec_root h (spec_updates us))
    /\ prove t j = Some p /\ proof_height p = h
    /\ proof_get_root p (spec_updates us j) j = get_root t.
Proof.
  intros Hh Hus Hj. destruct (apply_updates_repr h us Hh Hus) as (t & Ht & Hth & Hr).
  exists t, (mkMerkleProof (spec_path (spec_updates us) 0 h j)).
  pose proof (prove_spec t _ j Hr) as Hp. rewrite Hth in Hp.
  rewrite (repr_root _ _ Hr), Hp, Hth by done.
  split_and!; [done..| apply length_spec_path |].
  rewrite proof_get_root_path by (cbn; by rewrite length_spec_path). cbn [siblings]. f_equal.
  change (spec_updates us j) with (spec_node (spec_updates us) 0 j).
  rewrite path_root_spec_path by lia. by rewrite Z.div_small.
Qed.

(** A Merkle proof binds: if any path of the right length makes
    [MerkleProof::get_root] return the root of the tree with leaves [f], then
    either the presented leaf is the leaf of the tree at that index, or the
    extractor [find_collision] finds two distinct Poseidon inputs with the same
    hash among the values compared along the path. *)
Theorem merkle_proof_binding (h : nat) (f : Z -> Z) (p : MerkleProof) (leaf i : Z) :
  Z.of_nat h < 2 ^ 32 -> proof_height p = h -> 0 <= i < 2 ^ Z.of_nat h ->
  proof_get_root p leaf i = Some (spec_root h f) ->
  leaf = f i \/ exists c, find_collision f 0 leaf i (siblings p) = Some c /\ is_collision c.
Proof.
  unfold proof_height. intros Hh Hp Hi Hr. rewrite proof_get_root_path in Hr by by rewrite Hp.
  injection Hr as Hr. destruct (binding_or_collision f (siblings p) 0 leaf i) as [H|[c Hc]].
  - by rewrite Hp, Z.div_small, Hr.
  - lia.
  - by left.
  - right. exists c. split; [done|]. by eapply find_collision_sound.
Qed.

(** Extending a local proof with an aggregation proof opens the tree of trees:
    the root recomputed from the concatenated path at index
    [agg_index * 2^h + leaf_index] is the aggregation root recomputed from the
    local root at [agg_index], which is how global teleport proofs are built. *)
Theorem extend_composes (p q : MerkleProof) (leaf i j : Z) :
  Z.of_nat (proof_height p + proof_height q) < 2 ^ 32 -> 0 <= i < 2 ^ Z.of_nat (proof_height p) -> 0 <= j ->
  proof_get_root (extend p q) leaf (Z.shiftl j (Z.of_nat (proof_height p)) + i)
  = (r ← proof_get_root p leaf i; proof_get_root q r j).
Proof. apply extend_get_root. Qed.

(** C33: The in-memory incremental tree refines the history of insertions: as long
    as the history fits the tree, no insertion panics, the counter is the number
    of leaves, root and hash chain are those of the history, every leaf is stored
    at its index, and [address_to_indices] lists exactly the indices of the
    transfers to an address, in order. *)
Theorem incremental_tree_refines_history (h : nat) (ls : list Leaf) :
  Z.of_nat h < 2 ^ 32 -> Z.of_nat (length ls) <= 2 ^ Z.of_nat h -> Z.of_nat (length ls) < 2 ^ 64 ->
  exists t, IMT_insert_all (IMT_new h) ls = Some t
    /\ imt_index t = Z.of_nat (length ls)
    /\ IMT_get_root t = Some (history_root h ls)
    /\ imt_hash_chain t = history_chain ls
    /\ (forall k : nat, imt_leaves t !! Z.of_nat k = ls !! k)
    /\ (forall a, default [] (address_to_indices t !! a) = history_indices ls a).
Proof.
  intros Hh Hcap Hov. destruct (IMT_insert_all_repr h ls (IMT_new h) []) as (t & Ht & [H1 H2 H3 H4 H5 H6]);
    [by apply IMT_new_repr | done..|].
  exists t. split_and!; try done.
  - unfold IMT_get_root. by rewrite (repr_root _ _ H2), H1.
  - intros k. rewrite H5. if_case E; [lia|]. by rewrite Nat2Z.id.
Qed.
End properties.

(** ** Witnesses *)

Section witnesses.
#[local] Existing Instance toy_crypto.

Lemma sparse_tree_correct_witness :
exists t p, apply_updates (MerkleTree_new 3) [(5, 42); (0, 7); (5, 43)] = Some t
  /\ get_root t = Some (spec_root 3 (spec_updates [(5, 42); (0, 7); (5, 43)]))
  /\ prove t 5 = Some p /\ proof_height p = 3%nat
  /\ proof_get_root p 43 5 = get_root t.
Proof.
apply (sparse_tree_correct 3 [(5, 42); (0, 7); (5, 43)] 5);
  [lia | repeat constructor; cbn; lia | lia].
Defined.

Lemma merkle_proof_binding_witness :
9 = 9 \/ exists c, find_collision (upd (fun _ => 0) 2 9) 0 9 2
                    (spec_path (upd (fun _ => 0) 2 9) 0 2 2) = Some c /\ is_collision c.
Proof.
apply (merkle_proof_binding 2 (upd (fun _ => 0) 2 9)
         (mkMerkleProof (spec_path (upd (fun _ => 0) 2 9) 0 2 2)) 9 2);
  [lia | done | lia | by vm_compute].
Defined.

Lemma extend_composes_witness :
proof_get_root (extend (mkMerkleProof [1; 2]) (mkMerkleProof [3])) 5 (Z.shiftl 1 2 + 3)
= (r ← proof_get_root (mkMerkleProof [1; 2]) 5 3; proof_get_root (mkMerkleProof [3]) r 1).
Proof. apply (extend_composes); cbn; lia. Defined.

Lemma incremental_tree_refines_history_witness :
exists t, IMT_insert_all (IMT_new 2) [mkLeaf 3 10; mkLeaf 4 11; mkLeaf 3 12] = Some t
  /\ imt_index t = 3
  /\ IMT_get_root t = Some (history_root 2 [mkLeaf 3 10; mkLeaf 4 11; mkLeaf 3 12])
  /\ imt_hash_chain t = history_chain [mkLeaf 3 10; mkLeaf 4 11; mkLeaf 3 12]
  /\ (forall k : nat, imt_leaves t !! Z.of_nat k = [mkLeaf 3 10; mkLeaf 4 11; mkLeaf 3 12] !! k)
  /\ (forall a, default [] (address_to_indices t !! a)
                = history_indices [mkLeaf 3 10; mkLeaf 4 11; mkLeaf 3 12] a).
Proof. apply (incremental_tree_refines_history); cbn; lia. Defined.

End witnesses.
