(* ===== verification/Gadgets.v ===== *)
(** The circuit gadgets of [zkp/src/utils/poseidon/gadgets.rs],
    [zkp/src/utils/tree/gadgets] and the host functions they mirror.

    A gadget is run on an assignment: [Synth A] is [None] when synthesis fails
    (a [SynthesisError] or a failed assertion) and otherwise the value of the
    output variable together with the truth of the conjunction of all the
    constraints emitted.  [FpVar] and [Boolean] variables are their values.

    The arkworks gadget library is third-party code: the operations of it that
    the gadgets call are the fields of [R1CS], with their documented meaning in
    [R1CSLaws]. *)

From S2P Require Import Prelude Words Crypto BitPaths MerkleTrees.
Local Open Scope Z_scope.

(** ** The synthesis monad *)

Definition Synth (A : Type) : Type := option (A * bool).

Global Instance Synth_ret : MRet Synth := fun A a => Some (a, true).
Global Instance Synth_bind : MBind Synth := fun A B f m =>
  match m with
  | Some (a, b) => match f a with Some (a', b') => Some (a', b && b') | None => None end
  | None => None
  end.

Definition enforce (b : bool) : Synth unit := Some (tt, b).

(** [for x in l { f(x)?; }] *)
Fixpoint enforce_all {A} (f : A -> Synth unit) (l : list A) : Synth unit :=
  match l with
  | [] => mret tt
  | a :: l' => f a ≫= fun _ => enforce_all f l'
  end.

(** The [DEPTH]-style assertion: a panic is a synthesis failure. *)
Definition synth_assert (b : bool) : Synth unit := if b then Some (tt, true) else None.

(** ** Bits *)

Definition bits_of (n : nat) (x : Z) : list bool := (fun i => Z.testbit x (Z.of_nat i)) <$> seq 0 n.

Fixpoint bits_val (l : list bool) : Z :=
  match l with
  | [] => 0
  | b :: l' => Z.b2z b + 2 * bits_val l'
  end.

Class R1CS := {
  (** [FpVar::to_bits_le], [FpVar::to_bytes_le], [Boolean::le_bits_to_fp] *)
  fp_to_bits_le : Z -> list bool;
  fp_to_bytes_le : Z -> list Z;
  le_bits_to_fp : list bool -> Z;
  (** [PoseidonSpongeVar]: absorb every input, squeeze one, [state[0]] *)
  sponge_var : PoseidonConfig -> list Z -> Z;
  (** [Sha256Gadget::digest] *)
  sha256_var : list Z -> list Z;
}.

Class R1CSLaws (C : Crypto) (R : R1CS) : Prop := {
  (** the decomposition is canonical (it enforces that the bits are in the field) *)
  fp_to_bits_le_spec : forall x, is_fr x -> fp_to_bits_le x = bits_of 254 x;
  fp_to_bytes_le_spec : forall x, is_fr x -> fp_to_bytes_le x = reverse (be_bytes 32 x);
  le_bits_to_fp_spec : forall l, (length l <= 253)%nat -> le_bits_to_fp l = bits_val l;
  sponge_var_spec : forall c l, sponge_var c l = poseidon_sponge c l;
  sha256_var_spec : forall m, sha256_var m = sha256 m;
}.

(** ** [zkp/src/utils/poseidon/gadgets.rs] *)

Section poseidon_gadgets.
Context {C : Crypto} {R : R1CS}.

(** [cs_is_none]: every input is a constant, so the hash is computed natively. *)
Definition CircomCRHGadget_evaluate (parameters : PoseidonConfig) (cs_is_none : bool) (input : list Z)
  : Synth Z :=
  if cs_is_none then
    match circom_poseidon_hash parameters input with Some h => Some (h, true) | None => None end
  else Some (sponge_var parameters input, true).

Definition CircomTwoToOneCRHGadget_compress (parameters : PoseidonConfig) (cs_is_none : bool)
  (left_input right_input : Z) : Synth Z :=
  if cs_is_none then
    match circom_poseidon_hash parameters [left_input; right_input] with
    | Some h => Some (h, true) | None => None end
  else Some (sponge_var parameters [left_input; right_input], true).

(** [leaf_hash.rs]: in the circuits at least one input is an allocated variable. *)
Definition leaf_hash_var (params : PoseidonConfig) (addr amount : Z) : Synth Z :=
  CircomCRHGadget_evaluate params false [addr; amount].
End poseidon_gadgets.

(** ** [zkp/src/utils/tree/gadgets/merkle.rs] *)

Section merkle_gadgets.
Context {C : Crypto} {R : R1CS}.

Definition to_bits_le_limited (value : Z) (num_bits : nat) : Synth (list bool) :=
  let bits := fp_to_bits_le value in
  enforce_all (fun bit => enforce (Bool.eqb bit false)) (drop num_bits bits) ≫= fun _ =>
  mret (take num_bits bits).

Definition enforce_bit_length (value : Z) (num_bits : nat) : Synth unit :=
  to_bits_le_limited value num_bits ≫= fun _ => mret tt.

(** [offset += offset], [num_bits] times, in the field. *)
Fixpoint double_loop (n : nat) (offset : Z) : Z :=
  match n with
  | O => offset
  | S n' => double_loop n' (fr_add offset offset)
  end.

Definition enforce_strict_less_than (left right : Z) (num_bits : nat) : Synth unit :=
  enforce_bit_length left num_bits ≫= fun _ =>
  enforce_bit_length right num_bits ≫= fun _ =>
  let offset_var := double_loop num_bits 1 in
  let adjusted := fr_sub (fr_add left offset_var) right in
  let bits := fp_to_bits_le adjusted in
  match bits !! num_bits with
  | None => None
  | Some bit => enforce (Bool.eqb bit false)
  end.

Fixpoint merkle_loop (params : PoseidonConfig) (current : Z) (l : list (bool * Z)) : Synth Z :=
  match l with
  | [] => mret current
  | (bit, sib) :: l' =>
    let bit_fp := Z.b2z bit in
    let one_minus_bit := fr_sub 1 bit_fp in
    let left := fr_add (fr_mul current one_minus_bit) (fr_mul sib bit_fp) in
    let right := fr_add (fr_mul current bit_fp) (fr_mul sib one_minus_bit) in
    CircomCRHGadget_evaluate params false [left; right] ≫= fun h => merkle_loop params h l'
  end.

Definition merkle_root_from_leaf (params : PoseidonConfig) (leaf : Z) (index_bits : list bool)
  (sibs : list Z) : Synth Z :=
  synth_assert (length index_bits =? length sibs)%nat ≫= fun _ =>
  merkle_loop params leaf (zip index_bits sibs).
End merkle_gadgets.

(** ** [zkp/src/utils/tree/gadgets/hash_chain.rs] *)

Section hash_chain_gadget.
Context {C : Crypto} {R : R1CS}.

(** The zero prefix and the [target_len]-byte big-endian body. *)
Definition fp_var_be_bytes (var : Z) (target_len : nat) : list Z * list Z :=
  let bytes_be := reverse (fp_to_bytes_le var) in
  let bytes_be := if (length bytes_be <? target_len)%nat
                  then replicate (target_len - length bytes_be) 0 ++ bytes_be else bytes_be in
  let split := (length bytes_be - target_len)%nat in
  (take split bytes_be, drop split bytes_be).

Definition enforce_zero_bytes (bytes : list Z) : Synth unit :=
  enforce_all (fun byte => enforce (byte =? 0)) bytes.

Definition enforce_first_zero (bytes : list Z) : Synth unit :=
  match bytes with
  | first :: _ => enforce (first =? 0)
  | [] => mret tt
  end.

(** [byte.to_bits_le()] of a [UInt8]. *)
Definition byte_bits_le (b : Z) : list bool := bits_of 8 b.

Definition hash_chain_var (prev_hash_chain address value : Z) : Synth Z :=
  let '(prev_prefix, prev_bytes) := fp_var_be_bytes prev_hash_chain 32 in
  enforce_zero_bytes prev_prefix ≫= fun _ =>
  enforce_first_zero prev_bytes ≫= fun _ =>
  let '(address_prefix, address_bytes) := fp_var_be_bytes address 20 in
  enforce_zero_bytes address_prefix ≫= fun _ =>
  let '(value_prefix, value_bytes) := fp_var_be_bytes value 32 in
  enforce_zero_bytes value_prefix ≫= fun _ =>
  enforce_first_zero value_bytes ≫= fun _ =>
  let digest_bytes := sha256_var (prev_bytes ++ address_bytes ++ value_bytes) in
  let truncated := drop 1 digest_bytes in
  let new_hash_bits := concat (byte_bits_le <$> reverse truncated) in
  mret (le_bits_to_fp new_hash_bits).
End hash_chain_gadget.

(** Unfolds the synthesis monad without touching bit lists. *)
Ltac synth_simpl := cbn [mbind mret Synth_bind Synth_ret enforce synth_assert].

(** ** Lemmas *)

Lemma Synth_bind_some {A B} (m : Synth A) (f : A -> Synth B) a b a' b' :
  m = Some (a, b) -> f a = Some (a', b') -> m ≫= f = Some (a', b && b').
Proof. intros -> H. cbn. by rewrite H. Qed.

Lemma Synth_bind_inv {A B} (m : Synth A) (f : A -> Synth B) r :
  m ≫= f = Some (r, true) -> exists a, m = Some (a, true) /\ f a = Some (r, true).
Proof.
  destruct m as [[a b]|]; cbn; [|done]. destruct (f a) as [[a' b']|] eqn:E; [|done].
  intros [= <- ?]. bool_cases. subst. eauto.
Qed.

Lemma enforce_all_spec {A} (p : A -> bool) (l : list A) :
  enforce_all (fun a => enforce (p a)) l = Some (tt, forallb p l).
Proof. induction l as [|a l IH]; cbn; [done|]. by rewrite IH. Qed.

Lemma length_bits_of n x : length (bits_of n x) = n.
Proof. unfold bits_of. by rewrite length_fmap, length_seq. Qed.

Lemma bits_of_lookup n x i : (i < n)%nat -> bits_of n x !! i = Some (Z.testbit x (Z.of_nat i)).
Proof. intros Hi. unfold bits_of. rewrite list_lookup_fmap, lookup_seq_lt by done. done. Qed.

Lemma bits_of_S n x : bits_of (S n) x = Z.odd x :: bits_of n (x / 2).
Proof.
  apply list_eq. intros [|i].
  - rewrite bits_of_lookup by lia. cbn. by rewrite Z.bit0_odd.
  - cbn [lookup list_lookup]. destruct (decide (i < n)%nat).
    + rewrite !bits_of_lookup by lia. f_equal.
      rewrite Nat2Z.inj_succ. change 2 with (2 ^ 1). rewrite Z.div_pow2_bits by lia. done.
    + rewrite (lookup_ge_None_2 (bits_of _ _)) by (rewrite length_bits_of; lia). symmetry. apply lookup_ge_None_2. rewrite length_bits_of. lia.
Qed.

Lemma bits_val_bits_of n x : bits_val (bits_of n x) = x mod 2 ^ Z.of_nat n.
Proof.
  revert x. induction n as [|n IH]; intros x; [by rewrite Z.mod_1_r|].
  rewrite bits_of_S. cbn [bits_val]. rewrite IH, Nat2Z.inj_succ, Z.pow_succ_r by lia.
  rewrite Z.rem_mul_r by (try apply Z.pow_nonzero; lia). rewrite Zmod_odd. by destruct (Z.odd x).
Qed.

Lemma take_bits_of n k x : (n <= k)%nat -> take n (bits_of k x) = bits_of n x.
Proof.
  intros Hn. unfold bits_of. rewrite <- fmap_take. f_equal.
  rewrite take_seq. f_equal. lia.
Qed.

Lemma forallb_drop_bits n k x :
  0 <= x < 2 ^ Z.of_nat k -> (n <= k)%nat ->
  forallb (fun bit => Bool.eqb bit false) (drop n (bits_of k x)) = (x <? 2 ^ Z.of_nat n).
Proof.
  revert n x. induction k as [|k IH]; intros n x Hx Hn.
  - replace n with 0%nat by lia. cbn. rewrite Z.pow_0_r in Hx. symmetry. apply Z.ltb_lt. lia.
  - rewrite bits_of_S. assert (0 <= x / 2 < 2 ^ Z.of_nat k) as Hh.
    { pose proof (half_range x (Z.of_nat (S k))).
      replace (Z.of_nat (S k) - 1) with (Z.of_nat k) in * by lia. lia. }
    pose proof (half_split x) as Hs. destruct n as [|n]; cbn [drop].
    + cbn [forallb]. specialize (IH 0%nat (x / 2) Hh ltac:(lia)). rewrite drop_0 in IH. rewrite IH.
      change (2 ^ Z.of_nat 0) with 1. destruct (Z.odd x); cbn; destruct (x / 2 <? 1) eqn:E; bool_cases;
        symmetry; first [apply Z.ltb_lt | apply Z.ltb_ge]; lia.
    + rewrite IH by (try done; lia). rewrite Nat2Z.inj_succ, Z.pow_succ_r by lia.
      destruct (x / 2 <? _) eqn:E; bool_cases; symmetry; first [apply Z.ltb_lt | apply Z.ltb_ge];
        destruct (Z.odd x); lia.
Qed.

(** ** What each gadget computes and when its constraints hold *)

Lemma is_fr_254 x : is_fr x -> 0 <= x < 2 ^ Z.of_nat 254.
Proof. unfold is_fr. pose proof fr_modulus_bounds. lia. Qed.

Lemma double_loop_spec n : forall x, is_fr x -> double_loop n x = (x * 2 ^ Z.of_nat n) mod fr_modulus.
Proof.
  induction n as [|n IH]; intros x Hx; cbn [double_loop].
  - rewrite Z.pow_0_r, Z.mul_1_r, Z.mod_small; done.
  - rewrite IH by apply is_fr_mod. unfold fr_add. rewrite Z.mul_mod_idemp_l by done. f_equal.
    rewrite Nat2Z.inj_succ, Z.pow_succ_r by lia. ring.
Qed.

Lemma double_loop_pow n : (n <= 253)%nat -> double_loop n 1 = 2 ^ Z.of_nat n.
Proof.
  intros Hn. rewrite double_loop_spec, Z.mul_1_l by by vm_compute. apply Z.mod_small.
  split; [lia|]. pose proof (Z.pow_le_mono_r 2 (Z.of_nat n) 253). pose proof fr_modulus_bounds. lia.
Qed.

(** The arithmetic of the comparison: adding [2^n] and testing bit [n]. *)
Lemma less_than_bit l r n :
  0 <= n -> 0 <= l < 2 ^ n -> 0 <= r < 2 ^ n -> Z.testbit (l + 2 ^ n - r) n = negb (l <? r).
Proof.
  intros Hn Hl Hr. destruct (l <? r) eqn:E; bool_cases; cbn.
  - apply Z.bits_above_log2; [lia|]. apply Z.log2_lt_pow2; lia.
  - apply Z.testbit_true; [lia|]. assert ((l + 2 ^ n - r) / 2 ^ n = 1) as ->; [|done].
    symmetry. apply (Z.div_unique_pos _ _ _ (l - r)); lia.
Qed.

Section gadget_specs.
Context {C : Crypto} {HC : CryptoLaws C} {R : R1CS} {HR : R1CSLaws C R}.

Lemma CRH_evaluate_spec cfg cs_is_none l r :
  circom_poseidon_config = Some cfg ->
  CircomCRHGadget_evaluate cfg cs_is_none [l; r] = Some (poseidon2 l r, true).
Proof.
  intros Hcfg. destruct (poseidon2_never_panics l r) as (cfg' & Hc & Hh). rewrite Hcfg in Hc.
  injection Hc as <-. unfold CircomCRHGadget_evaluate. rewrite Hh, sponge_var_spec.
  unfold circom_poseidon_hash in Hh. case_match; [|done]. injection Hh as ->. by destruct cs_is_none.
Qed.

Lemma to_bits_le_limited_spec x n :
  is_fr x -> (n <= 254)%nat -> to_bits_le_limited x n = Some (bits_of n x, x <? 2 ^ Z.of_nat n).
Proof.
  intros Hx Hn. unfold to_bits_le_limited. rewrite fp_to_bits_le_spec by done.
  rewrite enforce_all_spec, forallb_drop_bits by (try done; by apply is_fr_254). synth_simpl.
  by rewrite take_bits_of, andb_true_r.
Qed.

Lemma enforce_bit_length_spec x n :
  is_fr x -> (n <= 254)%nat -> enforce_bit_length x n = Some (tt, x <? 2 ^ Z.of_nat n).
Proof.
  intros Hx Hn. unfold enforce_bit_length. rewrite to_bits_le_limited_spec by done. synth_simpl.
  by rewrite andb_true_r.
Qed.

Lemma strict_less_than_spec l r n :
  is_fr l -> is_fr r -> (n <= 252)%nat ->
  enforce_strict_less_than l r n
  = Some (tt, (l <? 2 ^ Z.of_nat n) && ((r <? 2 ^ Z.of_nat n) && (l <? r))).
Proof.
  intros Hl Hr Hn. unfold enforce_strict_less_than.
  rewrite !enforce_bit_length_spec by (try done; lia). synth_simpl.
  rewrite double_loop_pow, fp_to_bits_le_spec, bits_of_lookup by (try apply is_fr_mod; lia). synth_simpl.
  destruct (l <? 2 ^ _) eqn:E1; bool_cases; cbn [andb]; [|done].
  destruct (r <? 2 ^ _) eqn:E2; bool_cases; cbn [andb]; [|done].
  pose proof (Z.pow_le_mono_r 2 (Z.of_nat n) 252) as Hp. pose proof fr_modulus_bounds as Hm.
  unfold is_fr in Hl, Hr. change (2 ^ 253) with (2 * 2 ^ 252) in Hm.
  unfold fr_sub, fr_add. rewrite (Z.mod_small (l + _)), Z.mod_small by lia.
  rewrite less_than_bit by lia. by destruct (l <? r).
Qed.

Lemma select_left cur sib (b : bool) :
  is_fr cur -> is_fr sib ->
  fr_add (fr_mul cur (fr_sub 1 (Z.b2z b))) (fr_mul sib (Z.b2z b)) = (if b then sib else cur).
Proof.
  intros Hc Hs. unfold fr_add, fr_mul, fr_sub. destruct b; cbn [Z.b2z].
  - change ((1 - 1) mod fr_modulus) with 0. rewrite Z.mul_0_r, Z.mod_0_l, Z.mul_1_r, Z.add_0_l by done.
    by rewrite !Z.mod_small by (rewrite ?Z.mod_small; done).
  - change ((1 - 0) mod fr_modulus) with 1. rewrite Z.mul_0_r, Z.mod_0_l, Z.mul_1_r, Z.add_0_r by done.
    by rewrite !Z.mod_small by (rewrite ?Z.mod_small; done).
Qed.

Lemma select_right cur sib (b : bool) :
  is_fr cur -> is_fr sib ->
  fr_add (fr_mul cur (Z.b2z b)) (fr_mul sib (fr_sub 1 (Z.b2z b))) = (if b then cur else sib).
Proof.
  intros Hc Hs. unfold fr_add. rewrite Z.add_comm. change (fr_add (fr_mul sib (fr_sub 1 (Z.b2z b))) (fr_mul cur (Z.b2z b)) = if b then cur else sib).
  by apply select_left.
Qed.

Lemma merkle_loop_spec cfg sibs : forall cur i,
  circom_poseidon_config = Some cfg -> is_fr cur -> Forall is_fr sibs ->
  merkle_loop cfg cur (zip (bits_of (length sibs) i) sibs) = Some (path_root cur i sibs, true).
Proof.
  induction sibs as [|s ss IH]; intros cur i Hcfg Hcur Hs; [done|].
  inversion Hs as [|? ? Hs1 Hs2]; subst. cbn [length]. rewrite bits_of_S. cbn [zip zip_with merkle_loop path_root].
  rewrite select_left, select_right by done. rewrite CRH_evaluate_spec by done.
  synth_simpl.
  destruct (Z.odd i); rewrite IH by auto with zerc20; done.
Qed.

Lemma merkle_root_from_leaf_spec cfg leaf i sibs n :
  circom_poseidon_config = Some cfg -> is_fr leaf -> Forall is_fr sibs -> length sibs = n ->
  merkle_root_from_leaf cfg leaf (bits_of n i) sibs = Some (path_root leaf i sibs, true).
Proof.
  intros Hcfg Hl Hs <-. unfold merkle_root_from_leaf. rewrite length_bits_of, Nat.eqb_refl. synth_simpl.
  by rewrite merkle_loop_spec.
Qed.
End gadget_specs.

(** ** The hash-chain gadget *)

Lemma take_be_bytes_zero k n x :
  0 <= x < 256 ^ Z.of_nat (k + n) ->
  forallb (fun b => b =? 0) (take k (be_bytes (k + n) x)) = (x <? 256 ^ Z.of_nat n).
Proof.
  induction k as [|k IH]; intros Hx; cbn [take Nat.add be_bytes forallb] in *.
  - symmetry. apply Z.ltb_lt, Hx.
  - rewrite Nat2Z.inj_succ, Z.pow_succ_r in Hx by lia.
    assert (0 <= x / 256 ^ Z.of_nat (k + n) < 256) as Hq.
    { split; [apply Z.div_pos; lia|]. apply Z.div_lt_upper_bound; lia. }
    rewrite Z.mod_small by done. destruct (_ =? 0) eqn:E; bool_cases; cbn [andb].
    + apply IH. apply Z.div_small_iff in E; lia.
    + assert (256 ^ Z.of_nat n <= 256 ^ Z.of_nat (k + n)) by (apply Z.pow_le_mono_r; lia).
      symmetry. apply Z.ltb_ge. destruct (decide (x < 256 ^ Z.of_nat (k + n))); [|lia].
      rewrite Z.div_small in E; lia.
Qed.

Lemma bits_val_app l1 l2 : bits_val (l1 ++ l2) = bits_val l1 + 2 ^ Z.of_nat (length l1) * bits_val l2.
Proof.
  induction l1 as [|b l1 IH]; cbn [app bits_val length]; [rewrite Z.pow_0_r; lia|].
  rewrite IH, Nat2Z.inj_succ, Z.pow_succ_r by lia. ring.
Qed.

Lemma bits_val_bytes l :
  Forall in_u8 l -> bits_val (concat (byte_bits_le <$> reverse l)) = be_val l.
Proof.
  induction l as [|b l IH] using rev_ind; intros Hl; [done|].
  apply Forall_app in Hl as [Hl Hb]. apply Forall_cons in Hb as [Hb _].
  rewrite reverse_snoc. cbn [fmap list_fmap concat]. unfold byte_bits_le at 1.
  rewrite bits_val_app, length_bits_of, bits_val_bits_of, IH, be_val_app by done.
  rewrite (Z.mod_small b) by exact Hb. rewrite be_val_cons, be_val_nil. cbn. lia.
Qed.

Lemma length_concat_bits l : length (concat (byte_bits_le <$> l)) = (8 * length l)%nat.
Proof.
  induction l as [|b l IH]; cbn [fmap list_fmap concat length]; [done|].
  rewrite length_app, IH. unfold byte_bits_le. rewrite length_bits_of. lia.
Qed.

Section hash_chain_spec.
Context {C : Crypto} {HC : CryptoLaws C} {R : R1CS} {HR : R1CSLaws C R}.

Lemma fp_var_be_bytes_spec x k n :
  is_fr x -> (k + n = 32)%nat ->
  fp_var_be_bytes x n = (take k (be_bytes 32 x), be_bytes n x).
Proof.
  intros Hx Hk. unfold fp_var_be_bytes. rewrite fp_to_bytes_le_spec, reverse_involutive, length_be_bytes by done.
  destruct (32 <? n)%nat eqn:E; [apply Nat.ltb_lt in E; lia|].
  rewrite length_be_bytes. replace (32 - n)%nat with k by lia. f_equal.
  rewrite <- Hk. apply drop_be_bytes.
Qed.

Lemma enforce_first_zero_spec x :
  is_fr x -> enforce_first_zero (be_bytes 32 x) = Some (tt, x <? 2 ^ 248).
Proof.
  intros Hx. pose proof (take_be_bytes_zero 1 31 x) as H. pose proof (is_fr_u256 x Hx) as Hu.
  specialize (H Hu). cbn [take Nat.add forallb be_bytes] in H. rewrite andb_true_r in H.
  cbn [be_bytes enforce_first_zero enforce]. by rewrite H.
Qed.

Lemma hash_chain_var_spec prev address value :
  is_fr prev -> is_fr address -> is_fr value ->
  hash_chain_var prev address value
  = Some (hash_chain prev address value,
          (prev <? 2 ^ 248) && ((address <? 2 ^ 160) && (value <? 2 ^ 248))).
Proof.
  intros Hp Ha Hv. unfold hash_chain_var.
  rewrite (fp_var_be_bytes_spec prev 0 32), (fp_var_be_bytes_spec address 12 20),
    (fp_var_be_bytes_spec value 0 32) by done.
  unfold enforce_zero_bytes. rewrite !enforce_first_zero_spec, !enforce_all_spec by done.
  rewrite (take_be_bytes_zero 12 20) by (by apply is_fr_u256). rewrite !take_0.
  cbn [mbind mret Synth_bind Synth_ret forallb]. rewrite sha256_var_spec. unfold hash_chain.
  set (m := u256_to_be_bytes prev ++ _). change (be_bytes 32 prev ++ _) with m.
  destruct (be_val_set_head (sha256 m) 0 31) as [-> _];
    [apply sha256_length | apply sha256_bytes | unfold in_u8; lia |].
  rewrite le_bits_to_fp_spec.
  - rewrite bits_val_bytes by apply Forall_drop, sha256_bytes. rewrite Z.mul_0_l, Z.add_0_l.
    cbn [andb]. by rewrite !andb_true_r.
  - rewrite length_concat_bits, length_reverse, length_drop, sha256_length. lia.
Qed.
End hash_chain_spec.

(** A concrete gadget library with the documented meaning. *)
Definition toy_r1cs : R1CS := {|
  fp_to_bits_le := bits_of 254;
  fp_to_bytes_le := fun x => reverse (be_bytes 32 x);
  le_bits_to_fp := bits_val;
  sponge_var := @poseidon_sponge toy_crypto;
  sha256_var := @sha256 toy_crypto;
|}.

Lemma toy_r1cs_laws : R1CSLaws toy_crypto toy_r1cs.
Proof. by split. Qed.
