(* ===== verification/Circuits.v ===== *)
(** The circuits of [zkp/src/circuits] ([burn_address.rs], [withdraw.rs],
    [root_transition.rs]) with their host counterparts, and the Nova and Groth16
    step wrappers of [zkp/src/nova] and [zkp/src/groth16] that run them. *)

From S2P Require Import Prelude Words Crypto BitPaths MerkleTrees Gadgets.
Local Open Scope Z_scope.

(** ** [constants.rs] *)
Definition BYTES31_BIT_LENGTH : nat := 248.
Definition ADDRESS_BIT_LENGTH : nat := 160.
Definition POW_DIFFICULTY : nat := 12.

Definition AGGREGATION_TREE_HEIGHT : nat := 6.
Definition TRANSFER_TREE_HEIGHT : nat := 40.
Global Arguments TRANSFER_TREE_HEIGHT : simpl never.
Definition GLOBAL_TRANSFER_TREE_HEIGHT : nat := (TRANSFER_TREE_HEIGHT + AGGREGATION_TREE_HEIGHT)%nat.

(** ** [burn_address.rs] *)

Inductive BurnAddressError := PowDifficultyUnsatisfied (difficulty : nat).

Section burn_address.
Context {C : Crypto} {R : R1CS}.

Definition compute_burn_address_from_secret (recipient secret : Z) : result BurnAddressError Z :=
  let hash := poseidon2 recipient secret in
  let hash_bits := bits_of 256 hash in
  if existsb id (take POW_DIFFICULTY (drop ADDRESS_BIT_LENGTH hash_bits))
  then Err (PowDifficultyUnsatisfied POW_DIFFICULTY)
  else
    let mask := Z.shiftl 1 (Z.of_nat ADDRESS_BIT_LENGTH) - 1 in
    Ok (fr_of_biguint (Z.land hash mask)).

Definition secret_from_nonce (secret_seed nonce : Z) : Z :=
  fr_add secret_seed (fr_of_biguint nonce).

(** [for nonce in 0u64..]: the number of candidates tried is the fuel; the
    search needs one more than the first solution ([find_pow_nonce_least]). *)
Fixpoint find_pow_nonce_from (fuel : nat) (nonce recipient secret_seed : Z) : option Z :=
  match fuel with
  | O => None
  | S fuel' =>
    let candidate := fr_add secret_seed (fr_of_biguint nonce) in
    if is_ok (compute_burn_address_from_secret recipient candidate) then Some nonce
    else find_pow_nonce_from fuel' (nonce + 1) recipient secret_seed
  end.
Definition find_pow_nonce (fuel : nat) (recipient secret_seed : Z) : option Z :=
  find_pow_nonce_from fuel 0 recipient secret_seed.

Definition compute_burn_address_for_nonce (recipient secret_seed nonce : Z) : result BurnAddressError Z :=
  compute_burn_address_from_secret recipient (secret_from_nonce secret_seed nonce).

Definition burn_address_var (params : PoseidonConfig) (recipient secret : Z) (is_constrained : bool)
  : Synth Z :=
  CircomCRHGadget_evaluate params false [recipient; secret] ≫= fun poseidon =>
  let poseidon_bits := fp_to_bits_le poseidon in
  let is_constrained_fp := Z.b2z is_constrained in
  enforce_all (fun bit => enforce (fr_mul (Z.b2z bit) is_constrained_fp =? 0))
    (take POW_DIFFICULTY (drop ADDRESS_BIT_LENGTH poseidon_bits)) ≫= fun _ =>
  mret (le_bits_to_fp (take ADDRESS_BIT_LENGTH poseidon_bits)).
End burn_address.

(** ** [withdraw.rs] *)

Section withdraw.
Context {C : Crypto} {R : R1CS}.

Definition single_withdraw (DEPTH : nat) (params : PoseidonConfig)
  (merkle_root recipient value delta secret leaf_index : Z) (sibs : list Z) : Synth Z :=
  synth_assert (length sibs =? DEPTH)%nat ≫= fun _ =>
  enforce_bit_length leaf_index DEPTH ≫= fun _ =>
  enforce_bit_length value BYTES31_BIT_LENGTH ≫= fun _ =>
  enforce_bit_length delta BYTES31_BIT_LENGTH ≫= fun _ =>
  to_bits_le_limited leaf_index DEPTH ≫= fun index_bits =>
  burn_address_var params recipient secret true ≫= fun leaf_address =>
  leaf_hash_var params leaf_address value ≫= fun leaf_hash =>
  merkle_root_from_leaf params leaf_hash index_bits sibs ≫= fun computed_root =>
  enforce (merkle_root =? computed_root) ≫= fun _ =>
  let withdraw_value := fr_sub value delta in
  enforce_bit_length withdraw_value BYTES31_BIT_LENGTH ≫= fun _ =>
  mret withdraw_value.

(** The Nova state [merkle_root; recipient; leaf_index_with_offset; total_value]. *)
Record WithdrawState := mkWithdrawState {
  ws_root : Z;
  ws_recipient : Z;
  ws_index : Z;
  ws_total : Z;
}.

Definition withdraw_step (DEPTH : nat) (params : PoseidonConfig)
  (merkle_root recipient prev_leaf_index_with_offset prev_total_value : Z) (is_dummy : bool)
  (value secret leaf_index : Z) (sibs : list Z) : Synth WithdrawState :=
  synth_assert (length sibs =? DEPTH)%nat ≫= fun _ =>
  enforce_bit_length leaf_index DEPTH ≫= fun _ =>
  enforce_bit_length prev_leaf_index_with_offset (DEPTH + 1) ≫= fun _ =>
  enforce_bit_length value BYTES31_BIT_LENGTH ≫= fun _ =>
  let leaf_index_with_offset := fr_add leaf_index 1 in
  enforce_strict_less_than prev_leaf_index_with_offset leaf_index_with_offset (DEPTH + 1) ≫= fun _ =>
  to_bits_le_limited leaf_index DEPTH ≫= fun index_bits =>
  let should_constrain := negb is_dummy in
  burn_address_var params recipient secret should_constrain ≫= fun leaf_address =>
  leaf_hash_var params leaf_address value ≫= fun leaf_hash =>
  merkle_root_from_leaf params leaf_hash index_bits sibs ≫= fun computed_root =>
  let is_dummy_fp := Z.b2z is_dummy in
  let is_real_fp := fr_sub 1 is_dummy_fp in
  let diff := fr_sub merkle_root computed_root in
  enforce (fr_mul diff is_real_fp =? 0) ≫= fun _ =>
  let factor := fr_sub 1 (fr_mul is_dummy_fp 2) in
  let new_total_value := fr_add prev_total_value (fr_mul value factor) in
  enforce_bit_length new_total_value BYTES31_BIT_LENGTH ≫= fun _ =>
  mret (mkWithdrawState merkle_root recipient leaf_index_with_offset new_total_value).
End withdraw.

(** ** [root_transition.rs] *)

(** The Nova state [index; hash_chain; merkle_root]. *)
Record RootState := mkRootState { rs_index : Z; rs_hash_chain : Z; rs_root : Z }.

Section root_transition.
Context {C : Crypto} {R : R1CS}.

Definition root_transition_step (DEPTH : nat) (params : PoseidonConfig)
  (index prev_hash_chain prev_root address value : Z) (sibs : list Z) (is_dummy : bool)
  : Synth RootState :=
  synth_assert (length sibs =? DEPTH)%nat ≫= fun _ =>
  enforce_bit_length address ADDRESS_BIT_LENGTH ≫= fun _ =>
  enforce_bit_length value BYTES31_BIT_LENGTH ≫= fun _ =>
  to_bits_le_limited index DEPTH ≫= fun index_bits =>
  merkle_root_from_leaf params 0 index_bits sibs ≫= fun prev_merkle =>
  enforce (if negb is_dummy then prev_root =? prev_merkle else true) ≫= fun _ =>
  leaf_hash_var params address value ≫= fun leaf_hash =>
  merkle_root_from_leaf params leaf_hash index_bits sibs ≫= fun new_root =>
  hash_chain_var prev_hash_chain address value ≫= fun new_hash_chain =>
  let new_index_candidate := fr_add index 1 in
  let new_index := if is_dummy then index else new_index_candidate in
  let new_hash_chain := if is_dummy then prev_hash_chain else new_hash_chain in
  let new_root := if is_dummy then prev_root else new_root in
  mret (mkRootState new_index new_hash_chain new_root).
End root_transition.

(** ** Nova and Groth16 wrappers *)

Record RootExternalInputs := mkRootExternalInputs {
  rx_is_dummy : bool;
  rx_address : Z;
  rx_value : Z;
  rx_siblings : list Z;
}.

Record WithdrawExternalInputs := mkWithdrawExternalInputs {
  wx_is_dummy : Z;
  wx_value : Z;
  wx_secret : Z;
  wx_leaf_index : Z;
  wx_siblings : list Z;
}.

Definition ROOT_STATE_LEN : nat := 3.
Definition WITHDRAW_STATE_LEN : nat := 4.

(** [Default for RootExternalInputs] and [for WithdrawExternalInputs]. *)
Definition RootExternalInputs_default : RootExternalInputs :=
  mkRootExternalInputs false 0 0 (replicate TRANSFER_TREE_HEIGHT 0).
Definition WithdrawExternalInputs_default (DEPTH : nat) : WithdrawExternalInputs :=
  mkWithdrawExternalInputs 0 0 0 0 (replicate DEPTH 0).

Definition dummy_withdraw_ext_input (DEPTH : nat) (index value : Z) : WithdrawExternalInputs :=
  mkWithdrawExternalInputs 1 (u256_to_fr value) 0 (fr_of_biguint index) (replicate DEPTH 0).

Section nova.
Context {C : Crypto} {R : R1CS}.

(** [RootCircuit::generate_step_constraints]: the state vector is destructured
    as [[index, hash_chain, merkle_root]] and anything else is an error. *)
Definition root_generate_step_constraints (params : PoseidonConfig) (z_i : list Z)
  (ext : RootExternalInputs) : Synth (list Z) :=
  match z_i with
  | [index; prev_hash_chain; prev_root] =>
    root_transition_step TRANSFER_TREE_HEIGHT params index prev_hash_chain prev_root
      (rx_address ext) (rx_value ext) (rx_siblings ext) (rx_is_dummy ext) ≫= fun st =>
    mret [rs_index st; rs_hash_chain st; rs_root st]
  | _ => None
  end.

(** [WithdrawExternalInputsVar::new_variable]: the dummy flag must be 0 or 1. *)
Definition alloc_is_dummy (x : Z) : option bool :=
  if x =? 0 then Some false else if x =? 1 then Some true else None.

Definition withdraw_generate_step_constraints (DEPTH : nat) (params : PoseidonConfig) (z_i : list Z)
  (ext : WithdrawExternalInputs) : Synth (list Z) :=
  match alloc_is_dummy (wx_is_dummy ext), z_i with
  | Some is_dummy, [merkle_root; recipient; prev_leaf_index_with_offset; prev_total_value] =>
    withdraw_step DEPTH params merkle_root recipient prev_leaf_index_with_offset prev_total_value
      is_dummy (wx_value ext) (wx_secret ext) (wx_leaf_index ext) (wx_siblings ext) ≫= fun st =>
    mret [ws_root st; ws_recipient st; ws_index st; ws_total st]
  | _, _ => None
  end.

(** Folding a list of external inputs over the state, as [prove_step] does. *)
Fixpoint fold_steps {X} (step : list Z -> X -> Synth (list Z)) (z : list Z) (xs : list X)
  : Synth (list Z) :=
  match xs with
  | [] => mret z
  | x :: xs' => step z x ≫= fun z' => fold_steps step z' xs'
  end.
End nova.

(** ** Lemmas on bits and on the field *)

(** The proof-of-work window: bits 160 to 171 are zero. *)
Definition pow_ok (h : Z) : bool := (h / 2 ^ 160) mod 2 ^ 12 =? 0.

Lemma drop_bits_of n m x : drop n (bits_of (n + m) x) = bits_of m (x / 2 ^ Z.of_nat n).
Proof.
  revert x. induction n as [|n IH]; intros x; cbn [Nat.add]; [by rewrite drop_0, Z.pow_0_r, Z.div_1_r|].
  rewrite bits_of_S. cbn [drop]. rewrite IH. f_equal.
  rewrite Z.div_div, Nat2Z.inj_succ, Z.pow_succ_r by (try apply Z.pow_nonzero; lia). done.
Qed.

Lemma forallb_negb_bits n x : forallb negb (bits_of n x) = (x mod 2 ^ Z.of_nat n =? 0).
Proof.
  revert x. induction n as [|n IH]; intros x; [by rewrite Z.mod_1_r|].
  rewrite bits_of_S. cbn [forallb]. rewrite IH, Nat2Z.inj_succ, Z.pow_succ_r by lia.
  rewrite Z.rem_mul_r by (try apply Z.pow_nonzero; lia). rewrite Zmod_odd.
  pose proof (Z.mod_pos_bound (x / 2) (2 ^ Z.of_nat n) ltac:(lia)).
  destruct (Z.odd x); cbn [negb andb]; [symmetry; apply Z.eqb_neq; lia|].
  destruct (_ =? 0) eqn:E; bool_cases; symmetry; [apply Z.eqb_eq | apply Z.eqb_neq]; lia.
Qed.

Lemma pow_window k x :
  (172 <= k)%nat ->
  take POW_DIFFICULTY (drop ADDRESS_BIT_LENGTH (bits_of k x)) = bits_of 12 (x / 2 ^ 160).
Proof.
  intros Hk. replace k with (160 + (k - 160))%nat by lia. unfold ADDRESS_BIT_LENGTH.
  rewrite drop_bits_of. apply take_bits_of. unfold POW_DIFFICULTY. lia.
Qed.

Lemma existsb_id_negb (l : list bool) : existsb id l = negb (forallb negb l).
Proof. induction l as [|b l IH]; cbn; [done|]. rewrite IH. by destruct b. Qed.

Lemma forallb_constrained (l : list bool) (c : bool) :
  forallb (fun bit => fr_mul (Z.b2z bit) (Z.b2z c) =? 0) l = (negb c || forallb negb l).
Proof.
  induction l as [|b l IH]; cbn [forallb]; [by destruct c|]. rewrite IH. by destruct b, c.
Qed.

Lemma fr_sub_eqb a b : is_fr a -> is_fr b -> (fr_sub a b =? 0) = (a =? b).
Proof.
  unfold is_fr, fr_sub. intros Ha Hb. destruct (a =? b) eqn:E; bool_cases.
  - subst. by rewrite Z.sub_diag.
  - apply Z.eqb_neq. intros H. apply Z.mod_divide in H; [|done]. destruct H as [q Hq].
    generalize dependent fr_modulus. intros m Ha Hb Hq.
    destruct (Z.lt_trichotomy q 0) as [|[->|]]; [nia | lia | nia].
Qed.

Lemma fr_sub_range a b n :
  n <= 252 -> 0 <= a < 2 ^ n -> 0 <= b < 2 ^ n -> (fr_sub a b <? 2 ^ n) = (b <=? a).
Proof.
  intros Hn Ha Hb. assert (0 <= n).
  { destruct (decide (0 <= n)); [done|]. rewrite Z.pow_neg_r in Ha; lia. }
  pose proof (Z.pow_le_mono_r 2 n 252 ltac:(lia) Hn). pose proof fr_modulus_bounds as Hm.
  change (2 ^ 253) with (2 * 2 ^ 252) in Hm. unfold fr_sub.
  destruct (b <=? a) eqn:E; bool_cases.
  - rewrite Z.mod_small by lia. apply Z.ltb_lt. lia.
  - apply Z.ltb_ge. assert ((a - b) mod fr_modulus = a - b + fr_modulus) as ->; [|lia].
    symmetry. apply (Z.mod_unique_pos _ _ (-1)); lia.
Qed.

Lemma fr_mul_1_r a : is_fr a -> fr_mul a 1 = a.
Proof. intros. unfold fr_mul. rewrite Z.mul_1_r. by apply Z.mod_small. Qed.

(** The signed update of the running total. *)
Lemma signed_total prev value (is_dummy : bool) :
  fr_add prev (fr_mul value (fr_sub 1 (fr_mul (Z.b2z is_dummy) 2)))
  = (if is_dummy then fr_sub prev value else fr_add prev value).
Proof.
  unfold fr_add, fr_mul, fr_sub. destruct is_dummy; cbn [Z.b2z].
  - replace ((1 - (1 * 2) mod fr_modulus) mod fr_modulus) with (fr_modulus - 1) by by vm_compute.
    rewrite Z.add_mod_idemp_r by done.
    replace (prev + value * (fr_modulus - 1)) with (prev - value + value * fr_modulus) by ring.
    by apply Z.mod_add.
  - replace ((1 - (0 * 2) mod fr_modulus) mod fr_modulus) with 1 by by vm_compute.
    by rewrite Z.mul_1_r, Z.add_mod_idemp_r.
Qed.

Lemma fr_add_small a b n : n <= 253 -> 0 <= a + b < 2 ^ n -> fr_add a b = a + b.
Proof.
  intros Hn H. unfold fr_add. apply Z.mod_small. pose proof fr_modulus_bounds.
  pose proof (Z.pow_le_mono_r 2 n 253 ltac:(lia) Hn). lia.
Qed.

(** The range check on the new total is what forbids both overflow and a
    dummy that takes more than there is. *)
Lemma withdraw_total_spec prev value (is_dummy : bool) :
  0 <= prev < 2 ^ 248 -> 0 <= value < 2 ^ 248 ->
  let t := if is_dummy then fr_sub prev value else fr_add prev value in
  let t' := if is_dummy then prev - value else prev + value in
  t < 2 ^ 248 <-> t = t' /\ 0 <= t' < 2 ^ 248.
Proof.
  intros Hp Hv. destruct is_dummy; cbn.
  - rewrite <- Z.ltb_lt, fr_sub_range, Z.leb_le by lia. split; [|lia]. intros. split; [|lia].
    unfold fr_sub. apply Z.mod_small. pose proof fr_modulus_bounds. lia.
  - rewrite (fr_add_small _ _ 249); lia.
Qed.

(** ** Specifications of the circuits *)

Section circuit_specs.
Context {C : Crypto} {HC : CryptoLaws C} {R : R1CS} {HR : R1CSLaws C R}.

(** The burn address of a recipient and a secret, when the secret is admissible. *)
Definition burn_address_of (recipient secret : Z) : Z := poseidon2 recipient secret mod 2 ^ 160.

Lemma burn_address_of_range recipient secret : 0 <= burn_address_of recipient secret < 2 ^ 160.
Proof. apply Z.mod_pos_bound. lia. Qed.

Lemma compute_burn_address_spec recipient secret :
  compute_burn_address_from_secret recipient secret
  = if pow_ok (poseidon2 recipient secret) then Ok (burn_address_of recipient secret)
    else Err (PowDifficultyUnsatisfied POW_DIFFICULTY).
Proof.
  unfold compute_burn_address_from_secret, burn_address_of. set (h := poseidon2 _ _).
  rewrite pow_window, existsb_id_negb, forallb_negb_bits by lia. unfold pow_ok.
  change (Z.of_nat 12) with 12. destruct (_ =? 0); cbn [negb]; [|done]. f_equal.
  replace (Z.shiftl 1 (Z.of_nat ADDRESS_BIT_LENGTH) - 1) with (Z.ones 160) by by vm_compute.
  rewrite Z.land_ones by lia. apply fr_of_biguint_id. apply (fr_small _ 160); [|lia].
  apply Z.mod_pos_bound. lia.
Qed.

Lemma burn_address_var_spec cfg recipient secret c :
  circom_poseidon_config = Some cfg ->
  burn_address_var cfg recipient secret c
  = Some (burn_address_of recipient secret, negb c || pow_ok (poseidon2 recipient secret)).
Proof.
  intros Hcfg. unfold burn_address_var. rewrite CRH_evaluate_spec by done. synth_simpl.
  rewrite fp_to_bits_le_spec by auto with zerc20.
  rewrite pow_window, enforce_all_spec, forallb_constrained, forallb_negb_bits by lia. synth_simpl.
  rewrite take_bits_of, le_bits_to_fp_spec, bits_val_bits_of
    by (rewrite ?length_bits_of; unfold ADDRESS_BIT_LENGTH; lia).
  unfold pow_ok, burn_address_of. by rewrite andb_true_r, andb_true_l.
Qed.

Lemma single_withdraw_spec DEPTH cfg root recipient value delta secret leaf_index sibs :
  circom_poseidon_config = Some cfg -> (DEPTH <= 252)%nat -> length sibs = DEPTH ->
  is_fr root -> is_fr value -> is_fr delta -> is_fr leaf_index -> Forall is_fr sibs ->
  exists b, single_withdraw DEPTH cfg root recipient value delta secret leaf_index sibs
              = Some (fr_sub value delta, b)
    /\ (b = true <-> leaf_index < 2 ^ Z.of_nat DEPTH /\ value < 2 ^ 248 /\ delta <= value
          /\ pow_ok (poseidon2 recipient secret) = true
          /\ root = path_root (compute_leaf_hash (burn_address_of recipient secret) value) leaf_index sibs).
Proof.
  intros Hcfg HD Hlen Hroot Hv Hd Hi Hs. unfold single_withdraw, leaf_hash_var.
  rewrite Hlen, Nat.eqb_refl. unfold BYTES31_BIT_LENGTH.
  rewrite !enforce_bit_length_spec by (try done; try apply is_fr_mod; lia).
  rewrite !to_bits_le_limited_spec by (try done; lia). synth_simpl.
  rewrite burn_address_var_spec by done. synth_simpl. rewrite CRH_evaluate_spec by done. synth_simpl.
  rewrite merkle_root_from_leaf_spec by auto with zerc20. synth_simpl.
  eexists; split; [done|]. change (Z.of_nat 248) with 248. unfold compute_leaf_hash.
  cbn [andb orb negb]. rewrite !andb_true_r, !andb_true_iff, !Z.ltb_lt, !Z.eqb_eq.
  assert (value < 2 ^ 248 -> delta < 2 ^ 248 -> (fr_sub value delta < 2 ^ 248 <-> delta <= value)) as Hsub.
  { intros. unfold is_fr in *. rewrite <- Z.ltb_lt, fr_sub_range by lia. apply Z.leb_le. }
  split; [intros H; destruct_and! H; split_and!; try done; by apply Hsub|].
  intros H; destruct_and! H. assert (delta < 2 ^ 248) by lia. split_and!; try done. by apply Hsub.
Qed.

Lemma withdraw_step_spec DEPTH cfg root recipient prev_index prev_total (is_dummy : bool) value secret leaf_index sibs :
  circom_poseidon_config = Some cfg -> (DEPTH <= 251)%nat -> length sibs = DEPTH ->
  is_fr root -> is_fr prev_index -> 0 <= prev_total < 2 ^ 248 -> is_fr value -> is_fr leaf_index ->
  Forall is_fr sibs ->
  exists st b,
    withdraw_step DEPTH cfg root recipient prev_index prev_total is_dummy value secret leaf_index sibs = Some (st, b)
    /\ (b = true <->
         st = mkWithdrawState root recipient (leaf_index + 1)
                (if is_dummy then prev_total - value else prev_total + value)
         /\ leaf_index < 2 ^ Z.of_nat DEPTH /\ prev_index <= leaf_index /\ value < 2 ^ 248
         /\ 0 <= ws_total st < 2 ^ 248
         /\ (is_dummy = false -> pow_ok (poseidon2 recipient secret) = true
              /\ root = path_root (compute_leaf_hash (burn_address_of recipient secret) value) leaf_index sibs))
    /\ (let total := if is_dummy then prev_total - value else prev_total + value in
        leaf_index < 2 ^ Z.of_nat DEPTH -> value < 2 ^ 248 -> 0 <= total < 2 ^ 248 ->
        st = mkWithdrawState root recipient (leaf_index + 1) total).
Proof.
  intros Hcfg HD Hlen Hroot Hp Ht Hv Hi Hs. unfold withdraw_step, leaf_hash_var.
  rewrite Hlen, Nat.eqb_refl. unfold BYTES31_BIT_LENGTH.
  rewrite !enforce_bit_length_spec by (try done; try apply is_fr_mod; lia).
  rewrite strict_less_than_spec by (try done; try apply is_fr_mod; lia).
  rewrite !to_bits_le_limited_spec by (try done; lia). synth_simpl.
  rewrite burn_address_var_spec by done. synth_simpl. rewrite CRH_evaluate_spec by done. synth_simpl.
  rewrite merkle_root_from_leaf_spec by auto with zerc20. synth_simpl.
  rewrite signed_total.
  do 2 eexists; split; [done|]. change (Z.of_nat 248) with 248. unfold compute_leaf_hash.
  set (pr := path_root _ _ _). assert (is_fr pr) as Hpr.
  { apply path_root_fr; auto with zerc20. }
  assert ((fr_mul (fr_sub root pr) (fr_sub 1 (Z.b2z is_dummy)) =? 0) = (is_dummy || (root =? pr))) as ->.
  { destruct is_dummy; cbn [Z.b2z orb].
    - unfold fr_mul. by rewrite Z.mul_0_r.
    - rewrite fr_mul_1_r by apply is_fr_mod. by apply fr_sub_eqb. }
  rewrite negb_involutive. cbn [andb ws_total].
  rewrite !andb_true_r, !andb_true_iff, !Z.ltb_lt. unfold is_fr in Hp, Hv, Hi.
  assert (leaf_index < 2 ^ Z.of_nat DEPTH -> fr_add leaf_index 1 = leaf_index + 1) as Hsucc.
  { intros. apply fr_add_small with (n := 252); [lia|]. split; [lia|].
    pose proof (Z.pow_le_mono_r 2 (Z.of_nat DEPTH) 251). change (2 ^ 252) with (2 * 2 ^ 251). lia. }
  replace (Z.of_nat (DEPTH + 1)) with (Z.of_nat DEPTH + 1) by lia.
  rewrite Z.pow_add_r, Z.pow_1_r by lia. pose proof (withdraw_total_spec prev_total value is_dummy Ht) as Htot.
  split; [split|].
  - intros H; destruct_and! H. rewrite Hsucc in * by done. destruct Htot as [Htot _]; [lia|].
    destruct Htot as [Htot Hlt]; [done|]. rewrite Htot in *. split_and!; try done; try lia.
    intros ->. cbn [orb] in *. by split; [|apply Z.eqb_eq].
  - intros H; destruct H as (Hst & ? & ? & ? & ? & Hreal). injection Hst as _ Htt.
    rewrite Hsucc in * by done. split_and!; try done; try lia;
    (destruct is_dummy; cbn [orb]; [done|]; destruct Hreal as [Hpow Hroot']; [done|]);
    [done | by apply Z.eqb_eq].
  - cbv zeta. intros Hlt Hv2 Ht'. rewrite (Hsucc Hlt). f_equal.
    assert (is_dummy = true /\ 0 <= prev_total - value < 2 ^ 248 \/ is_dummy = false /\ 0 <= prev_total + value < 2 ^ 248) as [[-> Hr]|[-> Hr]]
      by (destruct is_dummy; auto).
    + unfold fr_sub. apply Z.mod_small. pose proof fr_modulus_bounds. lia.
    + apply (fr_add_small _ _ 248); lia.
Qed.

Lemma root_transition_spec DEPTH cfg index prev_chain prev_root address value sibs (is_dummy : bool) :
  circom_poseidon_config = Some cfg -> (DEPTH <= 252)%nat -> length sibs = DEPTH ->
  is_fr index -> is_fr prev_chain -> is_fr address -> is_fr value -> Forall is_fr sibs ->
  exists b,
    root_transition_step DEPTH cfg index prev_chain prev_root address value sibs is_dummy
    = Some (if is_dummy then mkRootState index prev_chain prev_root
            else mkRootState (fr_add index 1) (hash_chain prev_chain address value)
                   (path_root (compute_leaf_hash address value) index sibs), b)
    /\ (b = true <-> address < 2 ^ 160 /\ value < 2 ^ 248 /\ index < 2 ^ Z.of_nat DEPTH
         /\ prev_chain < 2 ^ 248 /\ (is_dummy = false -> prev_root = path_root 0 index sibs)).
Proof.
  intros Hcfg HD Hlen Hi Hc Ha Hv Hs. unfold root_transition_step, leaf_hash_var.
  rewrite Hlen, Nat.eqb_refl. unfold BYTES31_BIT_LENGTH, ADDRESS_BIT_LENGTH.
  rewrite !enforce_bit_length_spec by (try done; lia).
  rewrite !to_bits_le_limited_spec by (try done; lia). synth_simpl.
  rewrite merkle_root_from_leaf_spec by (try done; by vm_compute). synth_simpl.
  rewrite CRH_evaluate_spec by done. synth_simpl.
  rewrite merkle_root_from_leaf_spec by auto with zerc20. synth_simpl.
  rewrite hash_chain_var_spec by done. synth_simpl. unfold compute_leaf_hash.
  eexists; split; [by destruct is_dummy|].
  change (Z.of_nat 248) with 248. change (Z.of_nat 160) with 160. cbn [andb].
  rewrite !andb_true_r, !andb_true_iff, !Z.ltb_lt.
  destruct is_dummy; cbn [negb]; rewrite ?Z.eqb_eq; intuition done.
Qed.
End circuit_specs.

(** ** Proof-of-work nonces *)

Section pow_nonce.
Context {C : Crypto}.

(** The search visits the nonces in order and stops at the first admissible
    one, so [n + 1] units of fuel find the least solution [n]. *)
Lemma find_pow_nonce_from_least recipient seed n : forall fuel start,
  (n < fuel)%nat ->
  is_ok (compute_burn_address_for_nonce recipient seed (start + Z.of_nat n)) = true ->
  (forall m : nat, (m < n)%nat ->
     is_ok (compute_burn_address_for_nonce recipient seed (start + Z.of_nat m)) = false) ->
  find_pow_nonce_from fuel start recipient seed = Some (start + Z.of_nat n).
Proof.
  induction n as [|n IH]; intros fuel start Hf Hok Hmin; (destruct fuel as [|fuel]; [lia|]);
    cbn [find_pow_nonce_from].
  - rewrite Z.add_0_r in *. unfold compute_burn_address_for_nonce, secret_from_nonce in Hok. by rewrite Hok.
  - pose proof (Hmin 0%nat ltac:(lia)) as H0. rewrite Z.add_0_r in H0.
    unfold compute_burn_address_for_nonce, secret_from_nonce in H0. rewrite H0.
    rewrite (IH fuel (start + 1)).
    + f_equal. lia.
    + lia.
    + rewrite <- Hok. do 2 f_equal. lia.
    + intros m Hm. rewrite <- (Hmin (S m)) by lia. do 2 f_equal. lia.
Qed.

Lemma find_pow_nonce_from_sound recipient seed : forall fuel start r,
  find_pow_nonce_from fuel start recipient seed = Some r ->
  start <= r /\ is_ok (compute_burn_address_for_nonce recipient seed r) = true
  /\ forall m, start <= m < r -> is_ok (compute_burn_address_for_nonce recipient seed m) = false.
Proof.
  induction fuel as [|fuel IH]; intros start r; cbn [find_pow_nonce_from]; [done|].
  unfold compute_burn_address_for_nonce, secret_from_nonce. destruct (is_ok _) eqn:E.
  - intros [= <-]. split_and!; [lia | done | lia].
  - intros H. apply IH in H as (H1 & H2 & H3). split_and!; [lia | done |].
    intros m Hm. destruct (decide (m = start)) as [->|]; [done|]. apply H3. lia.
Qed.
Lemma find_pow_nonce_from_total recipient seed n : forall fuel start,
  (n < fuel)%nat ->
  is_ok (compute_burn_address_for_nonce recipient seed (start + Z.of_nat n)) = true ->
  exists r, find_pow_nonce_from fuel start recipient seed = Some r.
Proof.
  induction n as [|n IH]; intros [|fuel] start Hf Hok; try lia; cbn [find_pow_nonce_from].
  - rewrite Z.add_0_r in Hok. unfold compute_burn_address_for_nonce, secret_from_nonce in Hok. rewrite Hok. eauto.
  - if_case E; [eauto|]. apply IH; [lia|]. rewrite <- Hok. do 2 f_equal. lia.
Qed.
End pow_nonce.
