(* ===== verification/Folding.v ===== *)
(** What a folded run of the circuits proves: soundness and completeness of the
    root-transition folding against a history of transfers, and soundness of the
    withdraw folding against the leaves of the tree, with the properties of the
    single circuits ([zkp/src/circuits], [zkp/src/nova]).

    Hash binding is never assumed: where the code relies on it, the theorem
    offers an explicit extractor that outputs the Poseidon collision (or the
    preimage of the zero leaf) that an untrue statement would contain. *)

From S2P Require Import Prelude Words Crypto BitPaths MerkleTrees Gadgets Circuits.
Local Open Scope Z_scope.

(** ** Vocabulary *)

(** Field ranges and the fixed array length of the Rust types. *)
Definition rx_wf (x : RootExternalInputs) : Prop :=
  is_fr (rx_address x) /\ is_fr (rx_value x) /\ length (rx_siblings x) = TRANSFER_TREE_HEIGHT
  /\ Forall is_fr (rx_siblings x).

Definition wx_wf (DEPTH : nat) (x : WithdrawExternalInputs) : Prop :=
  is_fr (wx_value x) /\ is_fr (wx_leaf_index x) /\ length (wx_siblings x) = DEPTH
  /\ Forall is_fr (wx_siblings x).

Global Instance rx_wf_dec x : Decision (rx_wf x).
Proof. unfold rx_wf. apply _. Defined.
Global Instance wx_wf_dec n x : Decision (wx_wf n x).
Proof. unfold wx_wf. apply _. Defined.

(** The transfers a list of root inputs claims, dummies skipped. *)
Definition real_leaves (xs : list RootExternalInputs) : list Leaf :=
  (fun x => mkLeaf (rx_address x) (rx_value x)) <$> filter (fun x => rx_is_dummy x = false) xs.

(** What the contract emits: a 160-bit address and a 248-bit value. *)
Definition leaf_in_range (l : Leaf) : Prop :=
  0 <= leaf_address l < 2 ^ 160 /\ 0 <= leaf_value l < 2 ^ 248.

Section vocabulary.
Context {C : Crypto}.

(** The hash chain of transfers, from any previous value. *)
Definition chain_from (c : Z) (ls : list Leaf) : Z :=
  foldl (fun c l => hash_chain c (leaf_address l) (leaf_value l)) c ls.

(** The Nova state with the index and root of a history and hash chain [c]; the
    state that describes the history itself. *)
Definition history_state (c : Z) (ls : list Leaf) : list Z :=
  [Z.of_nat (length ls); c; history_root TRANSFER_TREE_HEIGHT ls].
Definition root_state (ls : list Leaf) : list Z := history_state (history_chain ls) ls.

(** The collision contained in a run that leaves the honest history. *)
Fixpoint root_collision (ls : list Leaf) (xs : list RootExternalInputs) : option ((Z * Z) * (Z * Z)) :=
  match xs with
  | [] => None
  | x :: xs' =>
    if rx_is_dummy x then root_collision ls xs'
    else match find_collision (history_leaves ls) 0 0 (Z.of_nat (length ls)) (rx_siblings x) with
         | Some c => Some c
         | None => root_collision (ls ++ [mkLeaf (rx_address x) (rx_value x)]) xs'
         end
  end.

(** Honest inputs for appending [new] to [ls]. *)
Fixpoint honest_inputs (ls new : list Leaf) : list RootExternalInputs :=
  match new with
  | [] => []
  | l :: new' =>
    mkRootExternalInputs false (leaf_address l) (leaf_value l)
      (spec_path (history_leaves ls) 0 TRANSFER_TREE_HEIGHT (Z.of_nat (length ls)))
    :: honest_inputs (ls ++ [l]) new'
  end.

(** A tree whose leaf [i] is [T i] (empty leaves hash to zero): a transfer tree
    or the tree of trees that the hub aggregates. *)
Definition tree_leaves (T : Z -> option Leaf) (i : Z) : Z :=
  match T i with Some l => Leaf_hash l | None => 0 end.

Inductive attack :=
| Collision (c : (Z * Z) * (Z * Z))
| ZeroPreimage (p : Z * Z).

Definition is_attack (a : attack) : Prop :=
  match a with
  | Collision c => is_collision c
  | ZeroPreimage p => poseidon2 p.1 p.2 = 0
  end.

Definition wx_real (x : WithdrawExternalInputs) : bool := wx_is_dummy x =? 0.

(** The leaf that input [x] claims really is a burn for [recipient]. *)
Definition claims_leaf (T : Z -> option Leaf) (recipient : Z) (x : WithdrawExternalInputs) : Prop :=
  pow_ok (poseidon2 recipient (wx_secret x)) = true
  /\ T (wx_leaf_index x) = Some (mkLeaf (burn_address_of recipient (wx_secret x)) (wx_value x)).

(** The input's leaf and path recompute the root. *)
Definition opens (DEPTH : nat) (root recipient : Z) (x : WithdrawExternalInputs) : Prop :=
  wx_leaf_index x < 2 ^ Z.of_nat DEPTH /\ pow_ok (poseidon2 recipient (wx_secret x)) = true
  /\ root = path_root (compute_leaf_hash (burn_address_of recipient (wx_secret x)) (wx_value x)) (wx_leaf_index x) (wx_siblings x).

(** What a satisfied input that claims no such leaf gives away. *)
Definition input_attack (T : Z -> option Leaf) (recipient : Z) (x : WithdrawExternalInputs) : attack :=
  let claimed := (burn_address_of recipient (wx_secret x), wx_value x) in
  match find_collision (tree_leaves T) 0 (poseidon2 claimed.1 claimed.2) (wx_leaf_index x) (wx_siblings x) with
  | Some c => Collision c
  | None =>
    match T (wx_leaf_index x) with
    | Some l => Collision (claimed, (leaf_address l, leaf_value l))
    | None => ZeroPreimage claimed
    end
  end.

Definition signed_value (x : WithdrawExternalInputs) : Z := if wx_real x then wx_value x else - wx_value x.
Definition sum_Z (l : list Z) : Z := foldr Z.add 0 l.

(** The value of the leaf at the index of each real input. *)
Definition claimed_value (T : Z -> option Leaf) (x : WithdrawExternalInputs) : Z :=
  if wx_real x then match T (wx_leaf_index x) with Some l => leaf_value l | None => 0 end else 0.
End vocabulary.

(** ** Lemmas *)

Section root_folding.
Context {C : Crypto} {HC : CryptoLaws C} {R : R1CS} {HR : R1CSLaws C R}.

Lemma Leaf_hash_in_range l : leaf_in_range l -> Leaf_hash l = compute_leaf_hash (leaf_address l) (leaf_value l).
Proof.
  intros [Ha Hv]. unfold Leaf_hash. rewrite address_to_fr_id, u256_to_fr_id; [done | | done].
  by apply (fr_small _ 248).
Qed.

(** The path of a leaf does not depend on the leaf, nor on leaves at negative indices. *)
Lemma spec_path_upd_self f i x h : 0 <= i -> spec_path (upd f i x) 0 h i = spec_path f 0 h i.
Proof.
  intros Hi.
  assert (forall k m, spec_path (upd f i x) k m (i / 2 ^ Z.of_nat k) = spec_path f k m (i / 2 ^ Z.of_nat k)) as Hpath.
  { intros k m. revert k. induction m as [|m IH]; intros k; cbn [spec_path]; [done|]. f_equal.
    - apply spec_node_upd_ne; [done|]. pose proof (lxor_1_half (i / 2 ^ Z.of_nat k)) as Hx.
      pose proof (half_split (i / 2 ^ Z.of_nat k)) as Hh. destruct (Z.odd _); lia.
    - rewrite div_pow_succ by done. apply IH. }
  specialize (Hpath 0%nat h). by rewrite Z.pow_0_r, Z.div_1_r in Hpath.
Qed.

Lemma spec_path_ext f g n : forall k i,
  0 <= i -> (forall j, 0 <= j -> f j = g j) -> spec_path f k n i = spec_path g k n i.
Proof.
  induction n as [|n IH]; intros k i Hi Hfg; cbn [spec_path]; [done|]. f_equal; [|apply IH; [|done]].
  - apply spec_node_ext. intros j Hj. apply Hfg. pose proof (Z.pow_nonneg 2 (Z.of_nat k)).
    assert (0 <= Z.lxor i 1) by (apply Z.lxor_nonneg; lia). nia.
  - apply Z.div_pos; lia.
Qed.

Lemma history_root_snoc h ls l :
  Z.of_nat (length ls) < 2 ^ Z.of_nat h ->
  history_root h (ls ++ [l])
  = path_root (Leaf_hash l) (Z.of_nat (length ls))
      (spec_path (history_leaves ls) 0 h (Z.of_nat (length ls))).
Proof.
  intros Hl. set (n := Z.of_nat (length ls)) in *.
  rewrite <- (spec_path_upd_self (history_leaves ls) n (Leaf_hash l)) by lia.
  pose proof (path_root_spec_path (upd (history_leaves ls) n (Leaf_hash l)) h 0 n ltac:(lia)) as Hr.
  cbn [spec_node] in Hr. unfold upd at 1 in Hr. rewrite Z.eqb_refl in Hr. rewrite Hr.
  rewrite Z.div_small by lia. unfold history_root, spec_root. apply spec_node_ext.
  intros j Hj. apply history_leaves_snoc. lia.
Qed.

Lemma history_empty_path h ls :
  Z.of_nat (length ls) < 2 ^ Z.of_nat h ->
  path_root 0 (Z.of_nat (length ls)) (spec_path (history_leaves ls) 0 h (Z.of_nat (length ls)))
  = history_root h ls.
Proof.
  intros Hl. rewrite <- (history_leaves_ge ls (Z.of_nat (length ls))) at 1 by lia.
  change (history_leaves ls (Z.of_nat (length ls))) with (spec_node (history_leaves ls) 0 (Z.of_nat (length ls))).
  rewrite path_root_spec_path by lia. by rewrite Z.div_small by lia.
Qed.

(** One folded step, on a state with the index and root of a history. *)
Lemma root_step_on_history cfg c ls x :
  circom_poseidon_config = Some cfg -> is_fr c -> Z.of_nat (length ls) <= 2 ^ 40 -> rx_wf x ->
  exists z b, root_generate_step_constraints cfg (history_state c ls) x = Some (z, b)
    /\ (b = true <-> rx_address x < 2 ^ 160 /\ rx_value x < 2 ^ 248 /\ Z.of_nat (length ls) < 2 ^ 40 /\ c < 2 ^ 248
         /\ (rx_is_dummy x = false ->
             history_root TRANSFER_TREE_HEIGHT ls = path_root 0 (Z.of_nat (length ls)) (rx_siblings x)))
    /\ (b = true -> z = if rx_is_dummy x then history_state c ls else
          [Z.of_nat (length ls) + 1; hash_chain c (rx_address x) (rx_value x);
           path_root (compute_leaf_hash (rx_address x) (rx_value x)) (Z.of_nat (length ls)) (rx_siblings x)]).
Proof.
  intros Hcfg Hc Hlen (Ha & Hv & Hl & Hs). unfold root_generate_step_constraints, history_state.
  destruct (root_transition_spec TRANSFER_TREE_HEIGHT cfg (Z.of_nat (length ls)) c
    (history_root TRANSFER_TREE_HEIGHT ls) (rx_address x) (rx_value x) (rx_siblings x) (rx_is_dummy x))
    as (b & -> & Hb); try done.
  { unfold TRANSFER_TREE_HEIGHT. lia. }
  { apply (fr_small _ 41); lia. }
  synth_simpl. do 2 eexists; split; [done|]. rewrite andb_true_r.
  split; [rewrite Hb; change (Z.of_nat TRANSFER_TREE_HEIGHT) with 40; tauto|].
  intros Ht. apply Hb in Ht as (_ & _ & Hi & _). destruct (rx_is_dummy x); cbn [rs_index rs_hash_chain rs_root]; [done|].
  rewrite (fr_add_small _ _ 42) by lia. done.
Qed.

(** The state after appending a leaf along the path of its empty slot. *)
Lemma history_state_snoc c ls l :
  leaf_in_range l -> Z.of_nat (length ls) < 2 ^ 40 ->
  history_state (hash_chain c (leaf_address l) (leaf_value l)) (ls ++ [l])
  = [Z.of_nat (length ls) + 1; hash_chain c (leaf_address l) (leaf_value l);
     path_root (compute_leaf_hash (leaf_address l) (leaf_value l)) (Z.of_nat (length ls))
       (spec_path (history_leaves ls) 0 TRANSFER_TREE_HEIGHT (Z.of_nat (length ls)))].
Proof.
  intros Hl Hlen. unfold history_state. rewrite history_root_snoc, length_app, Leaf_hash_in_range
    by (try done; change (Z.of_nat TRANSFER_TREE_HEIGHT) with 40; lia).
  cbn [length]. by rewrite Nat2Z.inj_add.
Qed.

Lemma root_fold_run cfg xs : forall c ls z,
  circom_poseidon_config = Some cfg -> is_fr c -> Z.of_nat (length ls) <= 2 ^ 40 -> Forall rx_wf xs ->
  fold_steps (root_generate_step_constraints cfg) (history_state c ls) xs = Some (z, true) ->
  (z = history_state (chain_from c (real_leaves xs)) (ls ++ real_leaves xs) /\ Forall leaf_in_range (real_leaves xs)
   /\ Z.of_nat (length (ls ++ real_leaves xs)) <= 2 ^ 40)
  \/ exists k, root_collision ls xs = Some k /\ is_collision k.
Proof.
  induction xs as [|x xs IH]; intros c ls z Hcfg Hc Hlen Hwf Hrun; cbn [fold_steps root_collision] in *.
  - injection Hrun as <-. left. unfold real_leaves. cbn. by rewrite app_nil_r.
  - apply Forall_cons in Hwf as [Hx Hxs]. apply Synth_bind_inv in Hrun as (z1 & Hstep & Hrun).
    destruct (root_step_on_history cfg c ls x) as (z' & b & Hs & Hb & Hz); [done..|].
    rewrite Hs in Hstep. injection Hstep as -> ->. destruct Hb as [Hb _].
    destruct (Hb eq_refl) as (Ha & Hv & Hi & _ & Hroot). specialize (Hz eq_refl).
    destruct Hx as (Hfa & Hfv & Hl & Hsib). unfold real_leaves. rewrite filter_cons.
    destruct (rx_is_dummy x) eqn:Ed.
    + rewrite decide_False by done. subst z1. by apply IH.
    + rewrite decide_True by done. specialize (Hroot eq_refl). cbn [fmap list_fmap].
      destruct (find_collision _ _ _ _ _) as [k|] eqn:Ec.
      { right. exists k. split; [done|]. by eapply find_collision_sound. }
      assert (leaf_in_range (mkLeaf (rx_address x) (rx_value x))) as Hr.
      { unfold is_fr in *. split; cbn; lia. }
      apply path_binding in Ec as [_ Hpath]; [| |lia].
      2:{ rewrite Hl, Z.div_small by (change (Z.of_nat TRANSFER_TREE_HEIGHT) with 40; lia). by rewrite <- Hroot. }
      rewrite Hl in Hpath. rewrite Hpath in Hz. pose proof (history_state_snoc c ls _ Hr Hi) as Hst.
      cbn [leaf_address leaf_value] in Hst. rewrite <- Hst in Hz. subst z1.
      apply IH in Hrun as [(-> & Hf & Hl')|Hcol]; [|right; done|done|auto with zerc20| |done].
      * left. rewrite <- app_assoc in *. split_and!; [done | by constructor | done].
      * rewrite length_app. cbn. lia.
Qed.

Lemma honest_inputs_wf ls new : Forall leaf_in_range new -> Forall rx_wf (honest_inputs ls new).
Proof.
  revert ls. induction new as [|l new IH]; intros ls Hr; cbn [honest_inputs]; [constructor|].
  apply Forall_cons in Hr as [[Ha Hv] Hr]. constructor; [|by apply IH]. unfold rx_wf. cbn [rx_address rx_value rx_siblings]. split_and!.
  - by apply (fr_small _ 160).
  - by apply (fr_small _ 248).
  - apply length_spec_path.
  - generalize (Z.of_nat (length ls)). generalize 0%nat. generalize TRANSFER_TREE_HEIGHT.
    intros n. induction n as [|n IHn]; intros k i; cbn [spec_path]; constructor; [apply history_node_fr | apply IHn].
Qed.

Lemma history_chain_small ls : 0 <= history_chain ls < 2 ^ 248.
Proof. destruct ls as [|l ls _] using rev_ind; [done|]. rewrite history_chain_snoc. apply hash_chain_range. Qed.

(** The honest step for one transfer is satisfied and extends the history. *)
Lemma root_step_honest cfg ls l :
  circom_poseidon_config = Some cfg -> leaf_in_range l -> Z.of_nat (length ls) < 2 ^ 40 ->
  root_generate_step_constraints cfg (root_state ls)
    (mkRootExternalInputs false (leaf_address l) (leaf_value l)
       (spec_path (history_leaves ls) 0 TRANSFER_TREE_HEIGHT (Z.of_nat (length ls))))
  = Some (root_state (ls ++ [l]), true).
Proof.
  intros Hcfg Hl Hlen. pose proof (honest_inputs_wf ls [l] ltac:(by constructor)) as Hwf.
  cbn [honest_inputs] in Hwf. apply Forall_cons in Hwf as [Hwf _].
  edestruct (root_step_on_history cfg (history_chain ls) ls) as (z & b & Hst & Hb & Hz);
    [done | apply history_chain_fr | lia | exact Hwf |].
  fold (root_state ls) in Hst. rewrite Hst. cbn [rx_address rx_value rx_siblings rx_is_dummy] in *.
  assert (b = true) as ->.
  { apply Hb. destruct Hl as [[? ?] [? ?]]. pose proof (history_chain_small ls). split_and!; [done..|lia|lia|]. intros _. symmetry.
    apply history_empty_path. change (Z.of_nat TRANSFER_TREE_HEIGHT) with 40. lia. }
  rewrite Hz by done. unfold root_state. by rewrite history_chain_snoc, history_state_snoc.
Qed.

Lemma root_fold_honest cfg new : forall ls,
  circom_poseidon_config = Some cfg -> Forall leaf_in_range new ->
  Z.of_nat (length (ls ++ new)) <= 2 ^ 40 ->
  fold_steps (root_generate_step_constraints cfg) (root_state ls) (honest_inputs ls new)
  = Some (root_state (ls ++ new), true).
Proof.
  induction new as [|l new IH]; intros ls Hcfg Hr Hlen; cbn [honest_inputs fold_steps].
  - by rewrite app_nil_r.
  - rewrite length_app in Hlen. cbn in Hlen. apply Forall_cons in Hr as [Hl Hr].
    rewrite (root_step_honest cfg ls l) by (try done; lia). synth_simpl.
    rewrite IH; rewrite <- ?app_assoc; try done. rewrite length_app. cbn. lia.
Qed.
End root_folding.

Section withdraw_folding.
Context {C : Crypto} {HC : CryptoLaws C} {R : R1CS} {HR : R1CSLaws C R}.

Lemma tree_leaves_fr T i : is_fr (tree_leaves T i).
Proof. unfold tree_leaves. destruct (T i); [apply poseidon2_fr | by vm_compute]. Qed.

(** An opened leaf is the claimed leaf, or the input contains an attack. *)
Lemma opened_leaf DEPTH T recipient x :
  (forall i l, T i = Some l -> leaf_in_range l) -> wx_wf DEPTH x ->
  wx_leaf_index x < 2 ^ Z.of_nat DEPTH ->
  pow_ok (poseidon2 recipient (wx_secret x)) = true ->
  spec_root DEPTH (tree_leaves T)
  = path_root (compute_leaf_hash (burn_address_of recipient (wx_secret x)) (wx_value x))
      (wx_leaf_index x) (wx_siblings x) ->
  claims_leaf T recipient x \/ is_attack (input_attack T recipient x).
Proof.
  intros HT (Hv & Hi & Hl & Hs) Hlt Hpow Hroot. unfold input_attack, claims_leaf. cbn [fst snd].
  destruct (find_collision _ _ _ _ _) as [c|] eqn:Ec; [right; by eapply find_collision_sound|].
  apply path_binding in Ec as [Hleaf _]; [| |apply Hi].
  2:{ rewrite Hl, Z.div_small by (unfold is_fr in Hi; lia). symmetry. exact Hroot. }
  cbn [spec_node] in Hleaf. unfold tree_leaves in Hleaf.
  destruct (T (wx_leaf_index x)) as [l|] eqn:ET; [|by right].
  rewrite Leaf_hash_in_range in Hleaf by by eapply HT. destruct l as [a v]. cbn [leaf_address leaf_value] in *.
  destruct (decide ((burn_address_of recipient (wx_secret x), wx_value x) = (a, v))) as [[= -> ->]|Hne].
  - by left.
  - right. by split.
Qed.

Lemma alloc_is_dummy_ok y d : alloc_is_dummy y = Some d -> d = negb (y =? 0).
Proof. unfold alloc_is_dummy. destruct (y =? 0); [by intros [= <-]|]. destruct (y =? 1); by intros [= <-]. Qed.

Lemma withdraw_fold_run DEPTH cfg root recipient xs : forall i0 t0 z,
  circom_poseidon_config = Some cfg -> (DEPTH <= 251)%nat -> is_fr root -> Forall (wx_wf DEPTH) xs ->
  is_fr i0 -> 0 <= t0 < 2 ^ 248 ->
  fold_steps (withdraw_generate_step_constraints DEPTH cfg) [root; recipient; i0; t0] xs = Some (z, true) ->
  exists i1 t1, z = [root; recipient; i1; t1]
    /\ t1 = t0 + sum_Z (signed_value <$> xs) /\ 0 <= t1 < 2 ^ 248
    /\ StronglySorted Z.lt (wx_leaf_index <$> xs) /\ Forall (fun x => i0 <= wx_leaf_index x) xs
    /\ Forall (fun x => wx_real x = true -> opens DEPTH root recipient x) xs.
Proof.
  induction xs as [|x xs IH]; intros i0 t0 z Hcfg HD Hrt Hwf Hi0 Ht0 Hrun; cbn [fold_steps] in Hrun.
  - injection Hrun as <-. exists i0, t0. cbn. split_and!; try done; try lia; constructor.
  - apply Forall_cons in Hwf as [Hx Hxs]. apply Synth_bind_inv in Hrun as (z1 & Hstep & Hrun).
    unfold withdraw_generate_step_constraints in Hstep.
    destruct (alloc_is_dummy (wx_is_dummy x)) as [d|] eqn:Ed; [|done].
    apply Synth_bind_inv in Hstep as (st & Hstep & [= <-]). pose proof Hx as (Hv & Hi & Hl & Hs).
    destruct (withdraw_step_spec DEPTH cfg root recipient i0 t0 d
      (wx_value x) (wx_secret x) (wx_leaf_index x) (wx_siblings x)) as (st' & b & Heq & Hb); try done.
    rewrite Heq in Hstep. injection Hstep as -> ->. destruct Hb as [[Hb _] _].
    destruct (Hb eq_refl) as (-> & Hlt & Hle & Hv2 & Htot & Hreal). cbn [ws_root ws_recipient ws_index ws_total] in *.
    apply alloc_is_dummy_ok in Ed as ->. fold (wx_real x) in *.
    assert (t0 + signed_value x = if negb (wx_real x) then t0 - wx_value x else t0 + wx_value x) as Hsv.
    { unfold signed_value. destruct (wx_real x); cbn; lia. }
    rewrite <- Hsv in *. unfold is_fr in Hi.
    apply IH in Hrun as (i1 & t1 & -> & Ht1 & Hr & Hsort & Hge & Hcl); try done.
    2:{ apply (fr_small _ 252); [|lia]. pose proof (Z.pow_le_mono_r 2 (Z.of_nat DEPTH) 251).
        change (2 ^ 252) with (2 * 2 ^ 251). lia. }
    exists i1, t1. cbn [fmap list_fmap sum_Z foldr]. fold (sum_Z (signed_value <$> xs)).
    split_and!; try done; try lia.
    + constructor; [done|]. apply Forall_fmap. eapply Forall_impl; [exact Hge|]. cbn. lia.
    + constructor; [lia|]. eapply Forall_impl; [exact Hge|]. cbn. lia.
    + constructor; [|done]. intros Hre. rewrite Hre in Hreal. destruct Hreal as [Hpow Hroot]; [done|]. done.
Qed.

Lemma sum_signed_bound T recipient xs :
  Forall (fun x => 0 <= wx_value x) xs -> Forall (fun x => wx_real x = true -> claims_leaf T recipient x) xs ->
  sum_Z (signed_value <$> xs) <= sum_Z (claimed_value T <$> xs).
Proof.
  induction xs as [|x xs IH]; intros Hv Hc; [done|].
  apply Forall_cons in Hv as [Hx Hv]. apply Forall_cons in Hc as [Hc Hcs]. cbn.
  specialize (IH Hv Hcs). unfold sum_Z in IH. unfold signed_value at 1, claimed_value at 1.
  destruct (wx_real x); [|lia]. destruct Hc as [_ ->]; [done|]. cbn. lia.
Qed.

(** The run claims distinct leaves and its total is covered by them, whenever an
    opening of the root is the claim of a leaf or an attack [A]. *)
Lemma withdraw_fold_covered DEPTH cfg root T recipient (A : WithdrawExternalInputs -> Prop) xs z :
  circom_poseidon_config = Some cfg -> (DEPTH <= 251)%nat -> is_fr root -> Forall (wx_wf DEPTH) xs ->
  (forall x, wx_wf DEPTH x -> opens DEPTH root recipient x -> claims_leaf T recipient x \/ A x) ->
  fold_steps (withdraw_generate_step_constraints DEPTH cfg) [root; recipient; 0; 0] xs = Some (z, true) ->
  exists i1 total, z = [root; recipient; i1; total] /\ 0 <= total < 2 ^ 248
    /\ StronglySorted Z.lt (wx_leaf_index <$> xs)
    /\ ((Forall (fun x => wx_real x = true -> claims_leaf T recipient x) xs
         /\ total <= sum_Z (claimed_value T <$> xs))
        \/ Exists (fun x => wx_real x = true /\ A x) xs).
Proof.
  intros Hcfg HD Hrt Hwf HA Hrun. assert (is_fr 0) as H0 by by vm_compute.
  destruct (withdraw_fold_run DEPTH cfg root recipient xs 0 0 z) as (i1 & t1 & -> & Ht & Hr & Hs & _ & Hc);
    [assumption.. | lia | assumption |].
  exists i1, t1. split_and!; try done; try lia.
  assert (Forall (fun x => wx_real x = true -> claims_leaf T recipient x) xs
          \/ Exists (fun x => wx_real x = true /\ A x) xs) as [Hall|He].
  { clear -Hc HA Hwf. induction Hc as [|x xs Hx _ IH]; [by left|]. apply Forall_cons in Hwf as [Hw Hwf].
    destruct (IH Hwf) as [IH'|IH']; [|right; by constructor].
    destruct (wx_real x) eqn:E; [|left; constructor; [by rewrite E | done]].
    destruct (HA x Hw (Hx eq_refl)) as [Hcl|Ha]; [left | right]; by constructor. }
  - left. split; [done|]. rewrite Ht, Z.add_0_l. eapply sum_signed_bound; [|done].
    eapply Forall_impl; [exact Hwf|]. intros x (Hv & _). apply Hv.
  - by right.
Qed.

Lemma withdraw_fold_bound DEPTH cfg T recipient xs z :
  circom_poseidon_config = Some cfg -> (DEPTH <= 251)%nat ->
  (forall i l, T i = Some l -> leaf_in_range l) -> Forall (wx_wf DEPTH) xs ->
  fold_steps (withdraw_generate_step_constraints DEPTH cfg)
    [spec_root DEPTH (tree_leaves T); recipient; 0; 0] xs = Some (z, true) ->
  exists i1 total, z = [spec_root DEPTH (tree_leaves T); recipient; i1; total] /\ 0 <= total < 2 ^ 248
    /\ StronglySorted Z.lt (wx_leaf_index <$> xs)
    /\ ((Forall (fun x => wx_real x = true -> claims_leaf T recipient x) xs
         /\ total <= sum_Z (claimed_value T <$> xs))
        \/ Exists (fun x => wx_real x = true /\ is_attack (input_attack T recipient x)) xs).
Proof.
  intros Hcfg HD HT Hwf. apply (withdraw_fold_covered DEPTH cfg _ T recipient (fun x => is_attack (input_attack T recipient x))); try done.
  { apply spec_node_fr, tree_leaves_fr. }
  intros x Hx (Hlt & Hpow & Hroot). by eapply opened_leaf.
Qed.
End withdraw_folding.

(** ** Properties *)

Section properties.
Context {C : Crypto} {HC : CryptoLaws C} {R : R1CS} {HR : R1CSLaws C R}.

(** C19: Soundness of the root proof: if a folded run of [RootCircuit], started on
    the state (index, hash chain, root) of a history of transfers, satisfies every
    constraint, then it ends in exactly the state of that history extended with the
    transfers of the non-dummy inputs, all of them within 160 and 248 bits, and
    the history still fits the tree; otherwise [root_collision] outputs two
    distinct Poseidon inputs with the same hash taken from the run. *)
Theorem root_folding_sound cfg ls xs z :
  circom_poseidon_config = Some cfg -> Z.of_nat (length ls) <= 2 ^ 40 -> Forall rx_wf xs ->
  fold_steps (root_generate_step_constraints cfg) (root_state ls) xs = Some (z, true) ->
  (z = root_state (ls ++ real_leaves xs) /\ Forall leaf_in_range (real_leaves xs)
   /\ Z.of_nat (length (ls ++ real_leaves xs)) <= 2 ^ 40)
  \/ exists c, root_collision ls xs = Some c /\ is_collision c.
Proof.
  intros Hcfg Hl Hwf Hrun. apply root_fold_run in Hrun as [(-> & H)|H]; try done; [left|by right|apply history_chain_fr].
  split; [|done]. unfold root_state, history_chain. by rewrite foldl_app.
Qed.

(** Completeness of the root proof: for every history and every batch of
    transfers that fits the tree and the 160/248-bit ranges, the inputs built from
    the authentication paths of the tree before each insertion satisfy every
    constraint of every step, and the run ends in the state of the extended history. *)
Theorem root_folding_complete cfg ls new :
  circom_poseidon_config = Some cfg -> Forall leaf_in_range new ->
  Z.of_nat (length (ls ++ new)) <= 2 ^ 40 ->
  fold_steps (root_generate_step_constraints cfg) (root_state ls) (honest_inputs ls new)
  = Some (root_state (ls ++ new), true) /\ Forall rx_wf (honest_inputs ls new).
Proof. intros Hcfg Hr Hl. split; [by apply root_fold_honest | by apply honest_inputs_wf]. Qed.

(** C18: Soundness of the withdraw proof: if a folded run of [WithdrawCircuit] from
    index 0 and total 0 satisfies every constraint against the root of a tree of
    transfers, then either every non-dummy input names a leaf that pays a
    proof-of-work burn address of the recipient, the leaf indices are strictly
    increasing (no leaf is counted twice), and the total does not exceed the sum
    of the values of those distinct leaves, or some non-dummy input yields a
    Poseidon collision or a preimage of the empty leaf. *)
Theorem withdraw_folding_sound DEPTH cfg T recipient xs z :
  circom_poseidon_config = Some cfg -> (DEPTH <= 251)%nat ->
  (forall i l, T i = Some l -> leaf_in_range l) -> Forall (wx_wf DEPTH) xs ->
  fold_steps (withdraw_generate_step_constraints DEPTH cfg)
    [spec_root DEPTH (tree_leaves T); recipient; 0; 0] xs = Some (z, true) ->
  exists i1 total, z = [spec_root DEPTH (tree_leaves T); recipient; i1; total] /\ 0 <= total < 2 ^ 248
    /\ StronglySorted Z.lt (wx_leaf_index <$> xs)
    /\ ((Forall (fun x => wx_real x = true -> claims_leaf T recipient x) xs
         /\ total <= sum_Z (claimed_value T <$> xs))
        \/ Exists (fun x => wx_real x = true /\ is_attack (input_attack T recipient x)) xs).
Proof. apply withdraw_fold_bound. Qed.

(** The single-withdraw circuit is exact: on field inputs its constraints hold
    if and only if the leaf index and value are in range, the fee [delta] does not
    exceed the value, the secret satisfies the proof of work and the leaf of
    the burn address opens the root; the public output is then [value - delta]. *)
Theorem single_withdraw_exact DEPTH cfg root recipient value delta secret leaf_index sibs :
  circom_poseidon_config = Some cfg -> (DEPTH <= 252)%nat -> length sibs = DEPTH ->
  is_fr root -> is_fr value -> is_fr delta -> is_fr leaf_index -> Forall is_fr sibs ->
  forall w, single_withdraw DEPTH cfg root recipient value delta secret leaf_index sibs = Some (w, true)
    <-> w = value - delta /\ leaf_index < 2 ^ Z.of_nat DEPTH /\ value < 2 ^ 248 /\ delta <= value
        /\ compute_burn_address_from_secret recipient secret = Ok (burn_address_of recipient secret)
        /\ root = path_root (compute_leaf_hash (burn_address_of recipient secret) value) leaf_index sibs.
Proof.
  intros Hcfg HD Hl Hr Hv Hd Hi Hs w.
  destruct (single_withdraw_spec DEPTH cfg root recipient value delta secret leaf_index sibs)
    as (b & -> & Hb); try done.
  rewrite compute_burn_address_spec.
  assert (delta <= value -> fr_sub value delta = value - delta) as Hsub.
  { intros. apply Z.mod_small. unfold is_fr in *. lia. }
  split.
  - intros [= <- ->]. destruct Hb as [Hb _]. destruct (Hb eq_refl) as (? & ? & ? & Hpow & ?).
    rewrite Hpow. split_and!; try done. by apply Hsub.
  - intros (-> & ? & ? & ? & Hpow & ?). rewrite Hsub by done. do 2 f_equal. apply Hb.
    split_and!; try done. by destruct (pow_ok _).
Qed.

(** The burn-address gadget agrees with the host: its output is always the
    truncated Poseidon hash, an unconstrained (dummy) call is always satisfied, and
    a constrained call is satisfied exactly when the host function succeeds, with
    the same address. *)
Theorem burn_address_gadget_matches_host cfg recipient secret addr :
  circom_poseidon_config = Some cfg ->
  (burn_address_var cfg recipient secret true = Some (addr, true)
     <-> compute_burn_address_from_secret recipient secret = Ok addr)
  /\ burn_address_var cfg recipient secret false = Some (burn_address_of recipient secret, true)
  /\ 0 <= burn_address_of recipient secret < 2 ^ 160.
Proof.
  intros Hcfg. rewrite !burn_address_var_spec, compute_burn_address_spec by done. cbn [negb orb].
  split_and!; [| done | apply burn_address_of_range..].
  destruct (pow_ok _); [|done]. split; [intros [= <-] | intros [= <-]]; done.
Qed.

(** [find_pow_nonce] returns the least admissible nonce [n] (given one more unit
    of fuel than [n]), and [compute_burn_address_for_nonce] succeeds on it. *)
Theorem find_pow_nonce_least recipient seed (n fuel : nat) :
  (n < fuel)%nat ->
  is_ok (compute_burn_address_for_nonce recipient seed (Z.of_nat n)) = true ->
  (forall m : nat, (m < n)%nat -> is_ok (compute_burn_address_for_nonce recipient seed (Z.of_nat m)) = false) ->
  find_pow_nonce fuel recipient seed = Some (Z.of_nat n)
  /\ forall r fuel', find_pow_nonce fuel' recipient seed = Some r -> r = Z.of_nat n.
Proof.
  intros Hf Hok Hmin.
  split; [by apply (find_pow_nonce_from_least recipient seed n fuel 0)|].
  intros r fuel' Hr. apply find_pow_nonce_from_sound in Hr as (Hr0 & Hrok & Hrmin).
  destruct (Z.lt_trichotomy r (Z.of_nat n)) as [Hlt|[->|Hgt]]; [|done|].
  - specialize (Hmin (Z.to_nat r) ltac:(lia)). rewrite Z2Nat.id in Hmin by lia. congruence.
  - rewrite Hrmin in Hok by lia. done.
Qed.

(** The hash-chain gadget agrees with the host hash chain: on field inputs it
    outputs [hash_chain] and its constraints hold exactly when the previous chain
    and the value are below 2^248 and the address below 2^160. *)
Theorem hash_chain_gadget_matches_host prev address value :
  is_fr prev -> is_fr address -> is_fr value ->
  forall h, hash_chain_var prev address value = Some (h, true)
    <-> h = hash_chain prev address value /\ prev < 2 ^ 248 /\ address < 2 ^ 160 /\ value < 2 ^ 248.
Proof.
  intros Hp Ha Hv h. rewrite hash_chain_var_spec by done. rewrite <- !Z.ltb_lt.
  destruct (prev <? _), (address <? _), (value <? _); cbn; intuition congruence.
Qed.

(** [enforce_strict_less_than] is exact: for any two field elements and a width of
    at most 252 bits its constraints hold iff both fit the width and left < right. *)
Theorem strict_less_than_exact l r n :
  is_fr l -> is_fr r -> (n <= 252)%nat ->
  enforce_strict_less_than l r n = Some (tt, true)
  <-> l < 2 ^ Z.of_nat n /\ r < 2 ^ Z.of_nat n /\ l < r.
Proof.
  intros Hl Hr Hn. rewrite strict_less_than_spec by done. rewrite <- !Z.ltb_lt.
  destruct (l <? 2 ^ _), (r <? 2 ^ _), (l <? r); cbn; intuition congruence.
Qed.
End properties.

(** ** Witnesses *)

Section witnesses.
#[local] Existing Instance toy_crypto.
#[local] Existing Instance toy_crypto_laws.
#[local] Existing Instance toy_r1cs.
#[local] Existing Instance toy_r1cs_laws.

Definition toy_cfg : PoseidonConfig := default (mkPoseidonConfig 0 0 0 [] [] 0 0) circom_poseidon_config.
Definition toy_leaves : list Leaf := [mkLeaf 5 7; mkLeaf 6 8].

Lemma toy_leaves_in_range : Forall leaf_in_range toy_leaves.
Proof. repeat constructor; cbn; lia. Qed.

Lemma root_folding_sound_witness :
  (root_state toy_leaves = root_state ([] ++ real_leaves (honest_inputs [] toy_leaves))
   /\ Forall leaf_in_range (real_leaves (honest_inputs [] toy_leaves))
   /\ Z.of_nat (length ([] ++ real_leaves (honest_inputs [] toy_leaves))) <= 2 ^ 40)
  \/ exists c, root_collision [] (honest_inputs [] toy_leaves) = Some c /\ is_collision c.
Proof.
  apply (root_folding_sound toy_cfg [] (honest_inputs [] toy_leaves)).
  - reflexivity.
  - cbn; lia.
  - apply honest_inputs_wf, toy_leaves_in_range.
  - apply (root_fold_honest toy_cfg toy_leaves []); [reflexivity | apply toy_leaves_in_range | cbn; lia].
Defined.

Lemma root_folding_complete_witness :
  fold_steps (root_generate_step_constraints toy_cfg) (root_state []) (honest_inputs [] toy_leaves)
  = Some (root_state toy_leaves, true) /\ Forall rx_wf (honest_inputs [] toy_leaves).
Proof.
  apply (root_folding_complete toy_cfg [] toy_leaves); [reflexivity | apply toy_leaves_in_range | cbn; lia].
Defined.

(** Leaves 1 and 3 of a tree of height 2 burn for recipient 4 with secrets 9
    and 10; the third input is a dummy that spends 5. *)
Definition toy_tree (i : Z) : option Leaf :=
  if i =? 1 then Some (mkLeaf (burn_address_of 4 9) 30)
  else if i =? 3 then Some (mkLeaf (burn_address_of 4 10) 12) else None.

Definition toy_inputs : list WithdrawExternalInputs :=
  [mkWithdrawExternalInputs 0 30 9 1 (spec_path (tree_leaves toy_tree) 0 2 1);
   mkWithdrawExternalInputs 1 5 0 2 [0; 0];
   mkWithdrawExternalInputs 0 12 10 3 (spec_path (tree_leaves toy_tree) 0 2 3)].

Lemma withdraw_folding_sound_witness :
  exists i1 total, [spec_root 2 (tree_leaves toy_tree); 4; 4; 37]
                   = [spec_root 2 (tree_leaves toy_tree); 4; i1; total] /\ 0 <= total < 2 ^ 248
    /\ StronglySorted Z.lt (wx_leaf_index <$> toy_inputs)
    /\ ((Forall (fun x => wx_real x = true -> claims_leaf toy_tree 4 x) toy_inputs
         /\ total <= sum_Z (claimed_value toy_tree <$> toy_inputs))
        \/ Exists (fun x => wx_real x = true /\ is_attack (input_attack toy_tree 4 x)) toy_inputs).
Proof.
  apply (withdraw_folding_sound 2 toy_cfg toy_tree 4 toy_inputs).
  - reflexivity.
  - lia.
  - intros i l. unfold toy_tree. destruct (i =? 1); [|destruct (i =? 3)]; intros H; try discriminate;
      injection H as <-; (split; [apply burn_address_of_range | cbn; lia]).
  - apply (bool_decide_unpack _). by vm_compute.
  - by vm_compute.
Defined.

Lemma single_withdraw_exact_witness :
  single_withdraw 2 toy_cfg (spec_root 2 (tree_leaves toy_tree)) 4 30 2 9 1
    (spec_path (tree_leaves toy_tree) 0 2 1) = Some (28, true)
  <-> 28 = 30 - 2 /\ 1 < 2 ^ Z.of_nat 2 /\ 30 < 2 ^ 248 /\ 2 <= 30
      /\ compute_burn_address_from_secret 4 9 = Ok (burn_address_of 4 9)
      /\ spec_root 2 (tree_leaves toy_tree)
         = path_root (compute_leaf_hash (burn_address_of 4 9) 30) 1 (spec_path (tree_leaves toy_tree) 0 2 1).
Proof.
  apply single_withdraw_exact; [reflexivity | lia | reflexivity | by vm_compute .. | ].
  repeat constructor; by vm_compute.
Defined.

Lemma burn_address_gadget_witness :
  (burn_address_var toy_cfg 4 9 true = Some (burn_address_of 4 9, true)
     <-> compute_burn_address_from_secret 4 9 = Ok (burn_address_of 4 9))
  /\ burn_address_var toy_cfg 4 9 false = Some (burn_address_of 4 9, true)
  /\ 0 <= burn_address_of 4 9 < 2 ^ 160.
Proof. apply (burn_address_gadget_matches_host toy_cfg 4 9). reflexivity. Defined.

Lemma find_pow_nonce_least_witness :
  find_pow_nonce 1 4 9 = Some 0 /\ forall r fuel', find_pow_nonce fuel' 4 9 = Some r -> r = 0.
Proof. apply (find_pow_nonce_least 4 9 0 1); [lia | by vm_compute | lia]. Defined.

Lemma hash_chain_gadget_witness :
  hash_chain_var 3 4 5 = Some (hash_chain 3 4 5, true)
  <-> hash_chain 3 4 5 = hash_chain 3 4 5 /\ 3 < 2 ^ 248 /\ 4 < 2 ^ 160 /\ 5 < 2 ^ 248.
Proof. apply hash_chain_gadget_matches_host; by vm_compute. Defined.

Lemma strict_less_than_exact_witness :
  enforce_strict_less_than 3 4 40 = Some (tt, true)
  <-> 3 < 2 ^ Z.of_nat 40 /\ 4 < 2 ^ Z.of_nat 40 /\ 3 < 4.
Proof. apply strict_less_than_exact; [by vm_compute .. | lia]. Defined.
End witnesses.
