(* ===== verification/Database.v ===== *)
(** The PostgreSQL schema of [indexer/migrations] and the shapes of SQL
    statement the services execute.

    A table is a finite map from its primary key to the other columns; [BYTEA]
    columns are byte lists and [BIGINT] columns are integers in the range of
    [i64].  A list-partitioned table accepts a row only when the partition of
    its [token_id] has been created.  Transport failures of the database are
    not modelled: a statement either succeeds or violates a constraint. *)

From S2P Require Import Prelude Words.
Local Open Scope Z_scope.

Abbreviation bytes := (list Z).

(** ** Rows *)

Record TokenRow := mkTokenRow {
  tk_address : bytes;
  tk_verifier : bytes;
  tk_chain_id : Z;
}.

Record EventRow := mkEventRow {
  ev_from : bytes;
  ev_to : bytes;
  ev_value : bytes;
  ev_block : Z;
}.

Record EventStateRow := mkEventStateRow {
  es_contiguous_index : Z;
  es_contiguous_block : option Z;
  es_last_synced_block : Z;
  es_last_seen_contract_index : option Z;
}.

Record NodeRow := mkNodeRow { nr_hash : bytes; nr_updated_at_index : Z }.
Record UpdateRow := mkUpdateRow { ur_old_hash : bytes; ur_new_hash : bytes }.
Record SnapshotRow := mkSnapshotRow { sr_root_hash : bytes; sr_hash_chain : bytes }.
Record LeaseRow := mkLeaseRow { lr_holder : Z; lr_expires_at : Z }.

Record IvcRow := mkIvcRow {
  ir_start_index : Z;
  ir_ivc_proof : bytes;
  ir_state_index : Z;
  ir_state_hash_chain : bytes;
  ir_state_root : bytes;
}.

Record ProverRow := mkProverRow {
  pr_base_index : Z;
  pr_last_compiled_index : Z;
  pr_last_submitted_index : Z;
  pr_pending_reserved_index : option Z;
  pr_pending_reserved_hash_chain : option bytes;
}.

(** ** The database *)

(** Names of the partitioned tables. *)
Inductive table := EventsTable | EventStateTable | NodesTable | UpdatesTable | SnapshotsTable.

Global Instance table_eq_dec : EqDecision table.
Proof. solve_decision. Defined.
Global Instance table_countable : Countable table.
Proof.
  refine (inj_countable' (fun t => match t with EventsTable => 0 | EventStateTable => 1 | NodesTable => 2
                                   | UpdatesTable => 3 | SnapshotsTable => 4 end)
            (fun n => if n =? 0 then EventsTable else if n =? 1 then EventStateTable else
                      if n =? 2 then NodesTable else if n =? 3 then UpdatesTable else SnapshotsTable) _).
  by intros [].
Defined.

Record Db := mkDb {
  tokens : gmap Z TokenRow;
  next_token_id : Z;
  partitions : gset (table * Z);
  indexed_transfer_events : gmap (Z * Z) EventRow;
  event_indexer_state : gmap Z EventStateRow;
  merkle_nodes_current : gmap (Z * bytes) NodeRow;
  merkle_node_updates : gmap (Z * Z * bytes) UpdateRow;
  merkle_snapshots : gmap (Z * Z) SnapshotRow;
  leases : gmap Z LeaseRow;
  root_ivc_proofs : gmap (Z * Z) IvcRow;
  root_prover_state : gmap Z ProverRow;
}.

Definition empty_db : Db := mkDb ∅ 1 ∅ ∅ ∅ ∅ ∅ ∅ ∅ ∅ ∅.

Definition set_tokens (x : gmap Z TokenRow) (n : Z) (d : Db) : Db :=
  mkDb x n (partitions d) (indexed_transfer_events d) (event_indexer_state d) (merkle_nodes_current d)
    (merkle_node_updates d) (merkle_snapshots d) (leases d) (root_ivc_proofs d) (root_prover_state d).
Definition set_partitions (x : gset (table * Z)) (d : Db) : Db :=
  mkDb (tokens d) (next_token_id d) x (indexed_transfer_events d) (event_indexer_state d) (merkle_nodes_current d)
    (merkle_node_updates d) (merkle_snapshots d) (leases d) (root_ivc_proofs d) (root_prover_state d).
Definition set_events (x : gmap (Z * Z) EventRow) (d : Db) : Db :=
  mkDb (tokens d) (next_token_id d) (partitions d) x (event_indexer_state d) (merkle_nodes_current d)
    (merkle_node_updates d) (merkle_snapshots d) (leases d) (root_ivc_proofs d) (root_prover_state d).
Definition set_event_state (x : gmap Z EventStateRow) (d : Db) : Db :=
  mkDb (tokens d) (next_token_id d) (partitions d) (indexed_transfer_events d) x (merkle_nodes_current d)
    (merkle_node_updates d) (merkle_snapshots d) (leases d) (root_ivc_proofs d) (root_prover_state d).
Definition set_nodes (x : gmap (Z * bytes) NodeRow) (d : Db) : Db :=
  mkDb (tokens d) (next_token_id d) (partitions d) (indexed_transfer_events d) (event_indexer_state d) x
    (merkle_node_updates d) (merkle_snapshots d) (leases d) (root_ivc_proofs d) (root_prover_state d).
Definition set_updates (x : gmap (Z * Z * bytes) UpdateRow) (d : Db) : Db :=
  mkDb (tokens d) (next_token_id d) (partitions d) (indexed_transfer_events d) (event_indexer_state d)
    (merkle_nodes_current d) x (merkle_snapshots d) (leases d) (root_ivc_proofs d) (root_prover_state d).
Definition set_snapshots (x : gmap (Z * Z) SnapshotRow) (d : Db) : Db :=
  mkDb (tokens d) (next_token_id d) (partitions d) (indexed_transfer_events d) (event_indexer_state d)
    (merkle_nodes_current d) (merkle_node_updates d) x (leases d) (root_ivc_proofs d) (root_prover_state d).
Definition set_leases (x : gmap Z LeaseRow) (d : Db) : Db :=
  mkDb (tokens d) (next_token_id d) (partitions d) (indexed_transfer_events d) (event_indexer_state d)
    (merkle_nodes_current d) (merkle_node_updates d) (merkle_snapshots d) x (root_ivc_proofs d) (root_prover_state d).
Definition set_ivc (x : gmap (Z * Z) IvcRow) (d : Db) : Db :=
  mkDb (tokens d) (next_token_id d) (partitions d) (indexed_transfer_events d) (event_indexer_state d)
    (merkle_nodes_current d) (merkle_node_updates d) (merkle_snapshots d) (leases d) x (root_prover_state d).
Definition set_prover (x : gmap Z ProverRow) (d : Db) : Db :=
  mkDb (tokens d) (next_token_id d) (partitions d) (indexed_transfer_events d) (event_indexer_state d)
    (merkle_nodes_current d) (merkle_node_updates d) (merkle_snapshots d) (leases d) (root_ivc_proofs d) x.

(** ** SQL *)

(** [SELECT .. WHERE p]: the matching rows, in no particular order. *)
Definition select `{Countable K} {V} (p : K * V -> bool) (m : gmap K V) : list (K * V) :=
  filter (fun kv => p kv = true) (map_to_list m).

(** [SELECT .. WHERE p ORDER BY f ASC]. *)
Definition by_key {A} (f : A -> Z) (a b : A) : Prop := f a <= f b.
Global Instance by_key_dec {A} (f : A -> Z) a b : Decision (by_key f a b).
Proof. unfold by_key. apply _. Defined.
Definition select_asc `{Countable K} {V} (f : K * V -> Z) (p : K * V -> bool) (m : gmap K V) : list (K * V) :=
  merge_sort (by_key f) (select p m).

(** [DELETE .. WHERE p]. *)
Definition delete_where `{Countable K} {V} (p : K * V -> bool) (m : gmap K V) : gmap K V :=
  filter (fun kv => p kv = false) m.

(** ** Lemmas *)

Lemma elem_of_select `{Countable K} {V} (p : K * V -> bool) (m : gmap K V) k v :
  (k, v) ∈ select p m <-> m !! k = Some v /\ p (k, v) = true.
Proof. unfold select. rewrite list_elem_of_filter, elem_of_map_to_list. tauto. Qed.

Lemma NoDup_select `{Countable K} {V} (p : K * V -> bool) (m : gmap K V) : NoDup (select p m).*1.
Proof.
  unfold select. eapply sublist_NoDup; [apply (NoDup_fst_map_to_list m)|].
  apply (fmap_sublist fst), sublist_filter.
Qed.

Global Instance by_key_total {A} (f : A -> Z) : Total (by_key f).
Proof. intros a b. unfold by_key. lia. Qed.
Global Instance by_key_trans {A} (f : A -> Z) : Transitive (by_key f).
Proof. intros a b c. unfold by_key. lia. Qed.

Lemma select_asc_perm `{Countable K} {V} f (p : K * V -> bool) (m : gmap K V) :
  select_asc f p m ≡ₚ select p m.
Proof. apply merge_sort_Permutation. Qed.

Lemma select_asc_sorted `{Countable K} {V} f (p : K * V -> bool) (m : gmap K V) :
  StronglySorted (by_key f) (select_asc f p m).
Proof. apply (StronglySorted_merge_sort (by_key f)). Qed.

Lemma elem_of_select_asc `{Countable K} {V} f (p : K * V -> bool) (m : gmap K V) k v :
  (k, v) ∈ select_asc f p m <-> m !! k = Some v /\ p (k, v) = true.
Proof. rewrite select_asc_perm. apply elem_of_select. Qed.

Lemma NoDup_select_asc `{Countable K} {V} f (p : K * V -> bool) (m : gmap K V) : NoDup (select_asc f p m).*1.
Proof. rewrite select_asc_perm. apply NoDup_select. Qed.

Lemma lookup_delete_where `{Countable K} {V} (p : K * V -> bool) (m : gmap K V) k v :
  delete_where p m !! k = Some v <-> m !! k = Some v /\ p (k, v) = false.
Proof. unfold delete_where. by rewrite map_lookup_filter_Some. Qed.

Lemma lookup_delete_where_eq `{Countable K} {V} (p : K * V -> bool) (m : gmap K V) k :
  delete_where p m !! k = match m !! k with Some v => if p (k, v) then None else Some v | None => None end.
Proof.
  apply option_eq. intros v. rewrite lookup_delete_where. destruct (m !! k) as [v'|]; [|by split; [intros []|]].
  destruct (p (k, v')) eqn:E; split; try done; [intros [[= ->] ?]; congruence | intros [[= ->] ?]; done | intros [= ->]; done].
Qed.

(** The row with the least key, when the selection is not empty. *)
Lemma select_asc_head `{Countable K} {V} f (p : K * V -> bool) (m : gmap K V) k v :
  m !! k = Some v -> p (k, v) = true ->
  (forall k' v', m !! k' = Some v' -> p (k', v') = true -> k' <> k -> f (k, v) < f (k', v')) ->
  head (select_asc f p m) = Some (k, v).
Proof.
  intros Hk Hp Hmin. pose proof (select_asc_sorted f p m) as Hs.
  assert ((k, v) ∈ select_asc f p m) as Hin by by apply elem_of_select_asc.
  destruct (select_asc f p m) as [|[k' v'] l] eqn:E; [by apply not_elem_of_nil in Hin|]. cbn. f_equal.
  assert ((k', v') ∈ select_asc f p m) as Hin' by (rewrite E; left).
  apply elem_of_select_asc in Hin' as [Hk' Hp'].
  destruct (decide (k' = k)) as [->|Hne]; [congruence|]. specialize (Hmin _ _ Hk' Hp' Hne).
  apply elem_of_cons in Hin as [[= -> ->]|Hin]; [done|].
  inversion Hs as [|? ? _ Hall]; subst. rewrite Forall_forall in Hall. specialize (Hall _ Hin).
  unfold by_key in Hall. lia.
Qed.

Lemma select_asc_nil `{Countable K} {V} f (p : K * V -> bool) (m : gmap K V) :
  (forall k v, m !! k = Some v -> p (k, v) = false) -> select_asc f p m = [].
Proof.
  intros Hn. destruct (select_asc f p m) as [|[k v] l] eqn:E; [done|].
  assert ((k, v) ∈ select_asc f p m) as Hin by (rewrite E; left).
  apply elem_of_select_asc in Hin as [Hk Hp]. rewrite (Hn _ _ Hk) in Hp. done.
Qed.

(** A selection is determined by its elements when the sort key is injective. *)
Lemma select_asc_eq `{Countable K} {V} f (p : K * V -> bool) (m : gmap K V) l :
  StronglySorted (by_key f) l -> NoDup l ->
  (forall k v, (k, v) ∈ l <-> m !! k = Some v /\ p (k, v) = true) ->
  (forall a b, a ∈ l -> b ∈ l -> f a = f b -> a = b) ->
  select_asc f p m = l.
Proof.
  intros Hs Hnd Hl Hinj. assert (forall kv, kv ∈ select_asc f p m <-> kv ∈ l) as Hin.
  { intros [k v]. by rewrite elem_of_select_asc, Hl. }
  apply (StronglySorted_unique_strong (by_key f)).
  - intros a b Ha Hb Hab Hba. unfold by_key in *. apply Hinj; [by apply Hin|done|lia].
  - apply select_asc_sorted.
  - done.
  - apply NoDup_Permutation; [|done|done]. eapply NoDup_fmap_1, NoDup_select_asc.
Qed.

(** Rows numbered from [p]. *)
Fixpoint indexed {A} (p : nat) (l : list A) : list (Z * A) :=
  match l with
  | [] => []
  | a :: l' => (Z.of_nat p, a) :: indexed (S p) l'
  end.

Lemma elem_of_indexed {A} (l : list A) : forall p i a,
  (i, a) ∈ indexed p l <-> exists k : nat, i = Z.of_nat (p + k) /\ l !! k = Some a.
Proof.
  induction l as [|b l IH]; intros p i a; cbn [indexed].
  - split; [intros Hin; by apply not_elem_of_nil in Hin | by intros (k & _ & ?)].
  - rewrite elem_of_cons, IH. split.
    + intros [[= -> ->]|(k & -> & Hk)]; [exists 0%nat; split; [lia|done]|]. exists (S k). split; [lia|done].
    + intros ([|k] & -> & Hk); [left; injection Hk as ->; f_equal; lia|]. right. exists k. split; [lia|done].
Qed.

Lemma take_indexed {A} (l : list A) : forall n p, take n (indexed p l) = indexed p (take n l).
Proof. induction l as [|a l IH]; intros [|n] p; cbn; [done..|]. by rewrite IH. Qed.

Lemma indexed_inj {A} (l : list A) p i a b : (i, a) ∈ indexed p l -> (i, b) ∈ indexed p l -> a = b.
Proof. rewrite !elem_of_indexed. intros (k & -> & Hk) (k' & Hk' & Hk''). replace k' with k in * by lia. congruence. Qed.

Lemma indexed_sorted {A B} (g : Z * A -> B) (f : B -> Z) (l : list A) : (forall x, f (g x) = x.1) ->
  forall p, StronglySorted (by_key f) (g <$> indexed p l) /\ NoDup (indexed p l).
Proof.
  intros Hf. induction l as [|a l IH]; intros p; cbn; [split; constructor|]. destruct (IH (S p)) as [H1 H2]. split.
  - constructor; [done|]. apply Forall_fmap, Forall_forall. intros [i b] Hin. unfold by_key, compose. rewrite !Hf. cbn.
    apply elem_of_indexed in Hin as (k & -> & _). lia.
  - constructor; [|done]. intros Hin. apply elem_of_indexed in Hin as (k & Hk & _). lia.
Qed.
