(* ===== verification/OnChain.v ===== *)
(** The contracts the services talk to: the hash chain of [contracts/src/zERC20.sol]
    (with [utils/ShaHashChainLib.sol] and [utils/GeneralRecipientLib.sol]) and the
    transfer-root and teleport functions of [contracts/src/Verifier.sol], with the
    receipts that [client-common/src/contracts/verifier.rs] parses.

    Storage is a record, a mapping is a finite map whose missing keys read 0, and a
    function returns its new storage with the events it emitted or reverts.  The
    generated proof verifiers are the fields of [Deciders].  ERC-20 balances and
    allowances, LayerZero messaging and access control of the admin functions are
    not part of the storage modelled. *)

From S2P Require Import Prelude Words Crypto BitPaths MerkleTrees Gadgets Circuits Database.
Local Open Scope Z_scope.

Class Deciders := {
  (** [verifyOpaqueNovaProof] of the root and the withdraw deciders and
      [verifyProof] of the single-withdraw verifiers, selected by [isGlobal] *)
  rootDecider : list Z -> bool;
  withdrawDecider : bool -> list Z -> bool;
  singleWithdrawVerifier : bool -> list Z -> list Z -> bool;
}.

(** The LayerZero endpoint behind [_quote] and [_lzSend] (destination, payload,
    options, native fee): the quote (native fee, token fee) or a revert, and the
    id of the sent message or a revert. *)
Class Endpoint := {
  lz_quote : Z -> bytes -> bytes -> option (Z * Z);
  lz_send : Z -> bytes -> bytes -> Z -> option bytes;
}.

(** Why a call reverts. *)
Inductive Revert :=
| ValueTooLarge
| OnlyVerifier
| Overflow
| AbiDecode
| Paused
| NotPaused
| InvalidProof
| OldRootZero (index : Z)
| OldRootMismatch (index expected actual : Z)
| ReserveHashChainNotFound (index : Z)
| NewHashChainMismatch (index expected actual : Z)
| InvalidInitialLastLeafIndex (value : Z)
| InvalidInitialTotalValue (value : Z)
| FinalTransferRootMismatch (expected actual : Z)
| FinalRecipientMismatch (expected actual : Z)
| ExpectedRootZero (rootHint : Z)
| TransferRootMismatch (expected actual : Z)
| RecipientMismatch (expected actual : Z)
| InvalidRecipientChainId (provided expected : Z)
| NothingToWithdraw (currentTotal totalValue : Z)
| InvalidHubSource (srcEid : Z)
| NoProvedRoot
| InsufficientMsgValue (required provided : Z)
| LzReverted.

Definition require (c : bool) (e : Revert) : result Revert unit := if c then Ok tt else Err e.

(** ** zERC20 *)

Record Token := mkToken {
  index : Z;
  hashChain : Z;
  tok_verifier : Z;
}.

(** [abi.decode(bytes, (uint256[n]))]: [n] big-endian words; short data reverts. *)
Fixpoint abi_words (n : nat) (bs : bytes) : list Z :=
  match n with
  | O => []
  | S n' => be_val (take 32 bs) :: abi_words n' (drop 32 bs)
  end.
Definition abi_decode_words (n : nat) (bs : bytes) : result Revert (list Z) :=
  if (length bs <? 32 * n)%nat then Err AbiDecode else Ok (abi_words n bs).
Definition abi_encode_words (ws : list Z) : bytes := concat (u256_to_be_bytes <$> ws).

Definition word (ws : list Z) (i : nat) : Z := default 0 (ws !! i).

(** The low 248 bits. *)
Definition MASK248 : Z := 2 ^ 248 - 1.

Section contracts.
Context {C : Crypto} {D : Deciders}.

Definition ShaHashChainLib_compute (prev addr value : Z) : Z :=
  Z.land (be_val (sha256 (u256_to_be_bytes prev ++ address_bytes addr ++ u256_to_be_bytes value))) MASK248.

Definition GeneralRecipientLib_hash (gr : GeneralRecipient) : Z :=
  let digest := sha256 (u64_to_be_bytes (gr_chain_id gr) ++ b256_bytes (gr_address gr) ++ b256_bytes (gr_tweak gr)) in
  Z.lor (Z.land (be_val digest) MASK248) (Z.shiftl 1 248).

(** [_afterTokenTransfer]: the hook of every transfer, mint and burn. *)
Definition afterTokenTransfer (to value : Z) (t : Token) : result Revert Token :=
  _ ← require (value <=? MASK248) ValueTooLarge;
  let chain := ShaHashChainLib_compute (hashChain t) to value in
  if index t =? u256_max then Err Overflow
  else Ok (mkToken (index t + 1) chain (tok_verifier t)).

(** [zERC20.teleport], as called by the contract at address [sender]. *)
Definition zERC20_teleport (sender to value : Z) (t : Token) : result Revert Token :=
  _ ← require (sender =? tok_verifier t) OnlyVerifier;
  afterTokenTransfer to value t.

(** ** Verifier *)

Record Verifier := mkVerifier {
  v_hubEid : Z;
  latestReservedIndex : Z;
  latestProvedIndex : Z;
  latestAggSeq : Z;
  latestRelayedIndex : Z;
  reservedHashChains : gmap Z Z;
  provedTransferRoots : gmap Z Z;
  globalTransferRoots : gmap Z Z;
  totalTeleported : gmap Z Z;
  paused : bool;
}.

Inductive VerifierEvent :=
| HashChainReserved (index hashChain : Z)
| TransferRootProved (index root : Z)
| EmergencyTriggered (index root1 root2 : Z)
| DeactivateEmergency
| GlobalRootSaved (aggSeq root : Z)
| TransferRootRelayed (index root : Z) (lzMsgId : bytes)
| Teleport (to value : Z).

(** Reading a mapping. *)
Definition slot (m : gmap Z Z) (k : Z) : Z := default 0 (m !! k).

(** [__Verifier_init]; [initial_root] is the constant [INITIAL_TRANSFER_ROOT]. *)
Definition Verifier_init (hubEid initial_root : Z) : Verifier :=
  mkVerifier hubEid 0 0 0 0 ∅ {[0 := initial_root]} ∅ ∅ false.

Definition reserveHashChain (t : Token) (v : Verifier) : Verifier * list VerifierEvent :=
  let index_ := as_u64 (index t) in
  let hashChain_ := hashChain t in
  (mkVerifier (v_hubEid v) index_ (latestProvedIndex v) (latestAggSeq v) (latestRelayedIndex v) (<[index_ := hashChain_]> (reservedHashChains v))
     (provedTransferRoots v) (globalTransferRoots v) (totalTeleported v) (paused v),
   [HashChainReserved index_ hashChain_]).

Definition set_paused (b : bool) (v : Verifier) : Verifier :=
  mkVerifier (v_hubEid v) (latestReservedIndex v) (latestProvedIndex v) (latestAggSeq v) (latestRelayedIndex v) (reservedHashChains v)
    (provedTransferRoots v) (globalTransferRoots v) (totalTeleported v) b.
Definition set_proved (latest : Z) (roots : gmap Z Z) (v : Verifier) : Verifier :=
  mkVerifier (v_hubEid v) (latestReservedIndex v) latest (latestAggSeq v) (latestRelayedIndex v) (reservedHashChains v)
    roots (globalTransferRoots v) (totalTeleported v) (paused v).
Definition set_teleported (x : gmap Z Z) (v : Verifier) : Verifier :=
  mkVerifier (v_hubEid v) (latestReservedIndex v) (latestProvedIndex v) (latestAggSeq v) (latestRelayedIndex v) (reservedHashChains v)
    (provedTransferRoots v) (globalTransferRoots v) x (paused v).
Definition set_global (latest : Z) (roots : gmap Z Z) (v : Verifier) : Verifier :=
  mkVerifier (v_hubEid v) (latestReservedIndex v) (latestProvedIndex v) latest (latestRelayedIndex v) (reservedHashChains v)
    (provedTransferRoots v) roots (totalTeleported v) (paused v).

Definition set_relayed (latest : Z) (v : Verifier) : Verifier :=
  mkVerifier (v_hubEid v) (latestReservedIndex v) (latestProvedIndex v) (latestAggSeq v) latest (reservedHashChains v)
    (provedTransferRoots v) (globalTransferRoots v) (totalTeleported v) (paused v).

(** The checks after the proof is decoded into words. *)
Definition prove_decoded (proof_ : list Z) (v : Verifier) : result Revert (Verifier * list VerifierEvent) :=
  let oldIndex := as_u64 (word proof_ 1) in
  let oldRoot := word proof_ 3 in
  let newIndex := as_u64 (word proof_ 4) in
  let newHashChain := word proof_ 5 in
  let newRoot := word proof_ 6 in
  _ ← require (rootDecider proof_) InvalidProof;
  _ ← require (negb (oldRoot =? 0)) (OldRootZero oldIndex);
  let expectedOldRoot := slot (provedTransferRoots v) oldIndex in
  _ ← require (expectedOldRoot =? oldRoot) (OldRootMismatch oldIndex expectedOldRoot oldRoot);
  let expectedHashChain := slot (reservedHashChains v) newIndex in
  _ ← require (negb (expectedHashChain =? 0)) (ReserveHashChainNotFound newIndex);
  _ ← require (expectedHashChain =? newHashChain) (NewHashChainMismatch newIndex expectedHashChain newHashChain);
  let existingRoot := slot (provedTransferRoots v) newIndex in
  if negb (existingRoot =? 0) && negb (existingRoot =? newRoot) then
    Ok (set_paused true v, [EmergencyTriggered newIndex existingRoot newRoot])
  else
    Ok (set_proved (if latestProvedIndex v <? newIndex then newIndex else latestProvedIndex v)
          (<[newIndex := newRoot]> (provedTransferRoots v)) v,
        [TransferRootProved newIndex newRoot]).

Definition proveTransferRoot (proof : bytes) (v : Verifier) : result Revert (Verifier * list VerifierEvent) :=
  _ ← require (negb (paused v)) Paused;
  proof_ ← abi_decode_words 32 proof;
  prove_decoded proof_ v.

(** [_teleport]: [self] is the address of the verifier, [chainid] the chain's id. *)
Definition teleport_common (self chainid : Z) (isGlobal : bool) (rootHint transferRoot recipient : Z) (gr : GeneralRecipient)
  (value : Z) (t : Token) (v : Verifier) : result Revert (Token * Verifier * list VerifierEvent) :=
  let expectedRoot := slot (if isGlobal then globalTransferRoots v else provedTransferRoots v) rootHint in
  _ ← require (negb (expectedRoot =? 0)) (ExpectedRootZero rootHint);
  _ ← require (expectedRoot =? transferRoot) (TransferRootMismatch expectedRoot transferRoot);
  let expectedRecipient := GeneralRecipientLib_hash gr in
  _ ← require (recipient =? expectedRecipient) (RecipientMismatch expectedRecipient recipient);
  let localChainId := as_u64 chainid in
  _ ← require (gr_chain_id gr =? localChainId) (InvalidRecipientChainId (gr_chain_id gr) localChainId);
  let currentTotal := slot (totalTeleported v) recipient in
  _ ← require (currentTotal <? value) (NothingToWithdraw currentTotal value);
  let diff := value - currentTotal in
  let v' := set_teleported (<[recipient := currentTotal + diff]> (totalTeleported v)) v in
  let recipientAddr := gr_address gr mod 2 ^ 160 in
  t' ← zERC20_teleport self recipientAddr diff t;
  Ok (t', v', [Teleport recipientAddr diff]).

Definition teleport (self chainid : Z) (isGlobal : bool) (rootHint : Z) (gr : GeneralRecipient) (proof : bytes)
  (t : Token) (v : Verifier) : result Revert (Token * Verifier * list VerifierEvent) :=
  _ ← require (negb (paused v)) Paused;
  proof_ ← abi_decode_words 34 proof;
  let transferRoot := word proof_ 1 in
  let recipient := word proof_ 2 in
  _ ← require (word proof_ 3 =? 0) (InvalidInitialLastLeafIndex (word proof_ 3));
  _ ← require (word proof_ 4 =? 0) (InvalidInitialTotalValue (word proof_ 4));
  _ ← require (word proof_ 5 =? transferRoot) (FinalTransferRootMismatch (word proof_ 5) transferRoot);
  _ ← require (word proof_ 6 =? recipient) (FinalRecipientMismatch (word proof_ 6) recipient);
  let totalValue := word proof_ 8 in
  _ ← require (withdrawDecider isGlobal proof_) InvalidProof;
  teleport_common self chainid isGlobal rootHint transferRoot recipient gr totalValue t v.

(** The proof decodes to [pA], [pB], [pC] (8 words) and the 3 public signals. *)
Definition singleTeleport (self chainid : Z) (isGlobal : bool) (rootHint : Z) (gr : GeneralRecipient) (proof : bytes)
  (t : Token) (v : Verifier) : result Revert (Token * Verifier * list VerifierEvent) :=
  _ ← require (negb (paused v)) Paused;
  proof_ ← abi_decode_words 11 proof;
  let pubSignals := drop 8 proof_ in
  let transferRoot := word pubSignals 0 in
  let recipient := word pubSignals 1 in
  let value := word pubSignals 2 in
  _ ← require (singleWithdrawVerifier isGlobal (take 8 proof_) pubSignals) InvalidProof;
  teleport_common self chainid isGlobal rootHint transferRoot recipient gr value t v.

(** [relayTransferRoot]: the message for the hub is returned next to the event. *)
Definition relayTransferRoot {L : Endpoint} (options : bytes) (msg_value : Z) (v : Verifier)
  : result Revert (Verifier * list VerifierEvent * bytes) :=
  _ ← require (negb (paused v)) Paused;
  let index := latestProvedIndex v in
  let root := slot (provedTransferRoots v) index in
  _ ← require (negb (root =? 0)) NoProvedRoot;
  let payload := abi_encode_words [root; index] in
  quotedFee ← ok_or LzReverted (lz_quote (v_hubEid v) payload options);
  _ ← require (negb (msg_value <? quotedFee.1)) (InsufficientMsgValue quotedFee.1 msg_value);
  guid ← ok_or LzReverted (lz_send (v_hubEid v) payload options msg_value);
  Ok (set_relayed index v, [TransferRootRelayed index root guid], payload).

Definition quoteRelay {L : Endpoint} (options : bytes) (v : Verifier) : result Revert (Z * Z) :=
  ok_or LzReverted (lz_quote (v_hubEid v) (abi_encode_words [0; 0]) options).

Definition verifier_isUpToDate (v : Verifier) : bool := latestProvedIndex v =? latestRelayedIndex v.

(** [_lzReceive] of the decoded payload. *)
Definition lzReceive (srcEid globalRoot aggSeq : Z) (v : Verifier) : result Revert (Verifier * list VerifierEvent) :=
  _ ← require (srcEid =? v_hubEid v) (InvalidHubSource srcEid);
  let fresh := slot (globalTransferRoots v) aggSeq =? 0 in
  Ok (set_global (if latestAggSeq v <? aggSeq then aggSeq else latestAggSeq v)
        (if fresh then <[aggSeq := globalRoot]> (globalTransferRoots v) else globalTransferRoots v) v,
      if fresh then [GlobalRootSaved aggSeq globalRoot] else []).

(** [_lzReceive]: the payload is [abi.encode(globalRoot, aggSeq)]. *)
Definition verifier_lzReceive (srcEid : Z) (payload : bytes) (v : Verifier) : result Revert (Verifier * list VerifierEvent) :=
  _ ← require (srcEid =? v_hubEid v) (InvalidHubSource srcEid);
  ws ← abi_decode_words 2 payload;
  _ ← require (word ws 1 <=? u64_max) AbiDecode;
  lzReceive srcEid (word ws 0) (word ws 1) v.

Definition activateEmergency (v : Verifier) : result Revert (Verifier * list VerifierEvent) :=
  if paused v then Err Paused else Ok (set_paused true v, []).
Definition deactivateEmergency (v : Verifier) : result Revert (Verifier * list VerifierEvent) :=
  if paused v then Ok (set_paused false v, [DeactivateEmergency]) else Err NotPaused.

(** ** The binding [contracts/verifier.rs] *)

Record Receipt := mkReceipt { receipt_status : bool; receipt_logs : list VerifierEvent }.

(** A mined transaction: a revert leaves the storage and emits nothing. *)
Definition execute {S} (f : S -> result Revert (S * list VerifierEvent)) (s : S) : S * Receipt :=
  match f s with
  | Ok (s', logs) => (s', mkReceipt true logs)
  | Err _ => (s, mkReceipt false [])
  end.

(** The first log that decodes as the event; [None] is [MissingEvent]. *)
Fixpoint parse_hash_chain_reserved (logs : list VerifierEvent) : option (Z * Z) :=
  match logs with
  | [] => None
  | HashChainReserved index hash_chain :: _ => Some (index, hash_chain)
  | _ :: rest => parse_hash_chain_reserved rest
  end.
Fixpoint parse_transfer_root_proved (logs : list VerifierEvent) : option (Z * Z) :=
  match logs with
  | [] => None
  | TransferRootProved index root :: _ => Some (index, root)
  | _ :: rest => parse_transfer_root_proved rest
  end.
Fixpoint parse_transfer_root_relayed (logs : list VerifierEvent) : option (Z * Z * bytes) :=
  match logs with
  | [] => None
  | TransferRootRelayed index root guid :: _ => Some (index, root, guid)
  | _ :: rest => parse_transfer_root_relayed rest
  end.
Fixpoint parse_global_root_saved (logs : list VerifierEvent) : option (Z * Z) :=
  match logs with
  | [] => None
  | GlobalRootSaved agg_seq root :: _ => Some (agg_seq, root)
  | _ :: rest => parse_global_root_saved rest
  end.
Fixpoint parse_emergency_triggered (logs : list VerifierEvent) : option (Z * Z * Z) :=
  match logs with
  | [] => None
  | EmergencyTriggered index root1 root2 :: _ => Some (index, root1, root2)
  | _ :: rest => parse_emergency_triggered rest
  end.
Fixpoint parse_deactivate_emergency (logs : list VerifierEvent) : option unit :=
  match logs with
  | [] => None
  | DeactivateEmergency :: _ => Some tt
  | _ :: rest => parse_deactivate_emergency rest
  end.
Fixpoint parse_teleport (logs : list VerifierEvent) : option (Z * Z) :=
  match logs with
  | [] => None
  | Teleport to value :: _ => Some (to, value)
  | _ :: rest => parse_teleport rest
  end.
End contracts.
