(* ===== verification/OnChainSpec.v ===== *)
(** Safety of the contracts on their own, whatever proofs are submitted: every
    proved transfer root is the root of the token's log, and a teleport never mints
    more than the burns it proves ([contracts/src/Verifier.sol], [zERC20.sol]).

    The proof verifiers are assumed sound: what they accept is a satisfied run
    of the circuits.  Collision resistance is not assumed; the theorems exhibit the
    collision that a wrong root or an overpaid teleport would contain. *)

From S2P Require Import Prelude Words Crypto BitPaths MerkleTrees Gadgets Circuits Folding Database OnChain.
Local Open Scope Z_scope.

Global Instance Leaf_eq_dec : EqDecision Leaf.
Proof. solve_decision. Defined.

(** ** Vocabulary *)

Section vocabulary.
Context {C : Crypto} {R : R1CS} {D : Deciders}.

(** [xs] explains the public inputs [w] of a root proof. *)
Definition root_witness (w : list Z) (xs : list RootExternalInputs) : Prop :=
  Forall rx_wf xs /\ is_fr (word w 1) /\ is_fr (word w 2) /\ is_fr (word w 3)
  /\ exists cfg, circom_poseidon_config = Some cfg
     /\ fold_steps (root_generate_step_constraints cfg) [word w 1; word w 2; word w 3] xs
        = Some ([word w 4; word w 5; word w 6], true).

(** The same for a withdraw proof and a single-withdraw proof. *)
Definition withdraw_height (isGlobal : bool) : nat :=
  if isGlobal then GLOBAL_TRANSFER_TREE_HEIGHT else TRANSFER_TREE_HEIGHT.
Definition withdraw_witness (g : bool) (w : list Z) (xs : list WithdrawExternalInputs) : Prop :=
  Forall (wx_wf (withdraw_height g)) xs
  /\ exists cfg, circom_poseidon_config = Some cfg
     /\ fold_steps (withdraw_generate_step_constraints (withdraw_height g) cfg)
          [word w 1; word w 2; word w 3; word w 4] xs = Some ([word w 5; word w 6; word w 7; word w 8], true).
Definition single_witness (g : bool) (signals : list Z) (x : WithdrawExternalInputs) (delta : Z) : Prop :=
  wx_wf (withdraw_height g) x /\ is_fr delta /\ is_fr (word signals 0)
  /\ exists cfg, circom_poseidon_config = Some cfg
     /\ single_withdraw (withdraw_height g) cfg (word signals 0) (word signals 1) (wx_value x) delta (wx_secret x)
          (wx_leaf_index x) (wx_siblings x) = Some (word signals 2, true).

Class DecidersSound : Prop := {
  root_decider_sound : forall w, rootDecider w = true -> exists xs, root_witness w xs;
  withdraw_decider_sound : forall g w, withdrawDecider g w = true -> exists xs, withdraw_witness g w xs;
  single_verifier_sound : forall g p s, singleWithdrawVerifier g p s = true -> exists x delta, single_witness g s x delta;
}.

(** The message hashed for one transfer, and two messages with one truncated digest. *)
Definition chain_message (prev : Z) (l : Leaf) : list Z :=
  u256_to_be_bytes prev ++ address_bytes (leaf_address l) ++ u256_to_be_bytes (leaf_value l).
Definition truncated_sha (m : list Z) : Z := be_val (<[0%nat := 0]> (sha256 m)).
Definition is_sha_collision (p : list Z * list Z) : Prop := p.1 <> p.2 /\ truncated_sha p.1 = truncated_sha p.2.

(** Walks two chains back from their ends ([r1] and [r2] are reversed) to the
    first place where they differ. *)
Fixpoint chain_collision (c1 c2 : Z) (r1 r2 : list Leaf) : option (list Z * list Z) :=
  match r1, r2 with
  | l1 :: t1, l2 :: t2 =>
    let m1 := chain_message (chain_from c1 (rev t1)) l1 in
    let m2 := chain_message (chain_from c2 (rev t2)) l2 in
    if decide (m1 = m2) then chain_collision c1 c2 t1 t2 else Some (m1, m2)
  | _, _ => None
  end.

(** What an accepted root proof contains when it does not describe the log. *)
Definition root_attack (log : list Leaf) (w : list Z) (xs : list RootExternalInputs) : Prop :=
  let old := Z.to_nat (word w 1) in
  (exists k, root_collision (take old log) xs = Some k /\ is_collision k)
  \/ (exists k, chain_collision (word w 2) (history_chain (take old log)) (rev (real_leaves xs))
                  (rev (take (length (real_leaves xs)) (drop old log))) = Some k /\ is_sha_collision k).

(** ** The chain as a state machine *)

(** Contract storage, the emitted [IndexedTransfer] logs, and the accepted root
    proofs together with the log at that time. *)
Record Chain := mkChain {
  ch_token : Token;
  ch_verifier : Verifier;
  ch_log : list Leaf;
  ch_proofs : list (list Leaf * list Z);
}.

Inductive chain_step (self chainid : Z) : Chain -> Chain -> Prop :=
| step_transfer c to value t' :
    0 <= to < 2 ^ 160 -> 0 <= value ->
    afterTokenTransfer to value (ch_token c) = Ok t' ->
    chain_step self chainid c (mkChain t' (ch_verifier c) (ch_log c ++ [mkLeaf to value]) (ch_proofs c))
| step_reserve c :
    chain_step self chainid c
      (mkChain (ch_token c) (reserveHashChain (ch_token c) (ch_verifier c)).1 (ch_log c) (ch_proofs c))
| step_prove c proof v' logs :
    proveTransferRoot proof (ch_verifier c) = Ok (v', logs) ->
    chain_step self chainid c
      (mkChain (ch_token c) v' (ch_log c) (ch_proofs c ++ [(ch_log c, abi_words 32 proof)]))
| step_teleport c g hint gr proof t' v' to value :
    teleport self chainid g hint gr proof (ch_token c) (ch_verifier c) = Ok (t', v', [Teleport to value])
    \/ singleTeleport self chainid g hint gr proof (ch_token c) (ch_verifier c) = Ok (t', v', [Teleport to value]) ->
    chain_step self chainid c (mkChain t' v' (ch_log c ++ [mkLeaf to value]) (ch_proofs c))
| step_lzReceive c src root seq v' logs :
    lzReceive src root seq (ch_verifier c) = Ok (v', logs) ->
    chain_step self chainid c (mkChain (ch_token c) v' (ch_log c) (ch_proofs c))
| step_admin c v' logs :
    activateEmergency (ch_verifier c) = Ok (v', logs) \/ deactivateEmergency (ch_verifier c) = Ok (v', logs) ->
    chain_step self chainid c (mkChain (ch_token c) v' (ch_log c) (ch_proofs c)).

(** Deployment: an empty token and a verifier initialised with the root of the
    empty tree. *)
Definition genesis (self hubEid : Z) : Chain :=
  mkChain (mkToken 0 0 self) (Verifier_init hubEid (history_root TRANSFER_TREE_HEIGHT [])) [] [].

Inductive chain_reachable (self chainid hubEid : Z) : Chain -> Prop :=
| cr_genesis : chain_reachable self chainid hubEid (genesis self hubEid)
| cr_step c c' : chain_reachable self chainid hubEid c -> chain_step self chainid c c' -> chain_reachable self chainid hubEid c'.

(** The storage describes the log. *)
Record chain_inv (c : Chain) : Prop := {
  ci_index : index (ch_token c) = Z.of_nat (length (ch_log c));
  ci_chain : hashChain (ch_token c) = history_chain (ch_log c);
  ci_range : Forall leaf_in_range (ch_log c);
  ci_reserved : forall i h, reservedHashChains (ch_verifier c) !! i = Some h ->
    exists k, (k <= length (ch_log c))%nat /\ i = Z.of_nat k /\ h = history_chain (take k (ch_log c));
  ci_proved : forall i r, provedTransferRoots (ch_verifier c) !! i = Some r -> r <> 0 ->
    exists k, (k <= length (ch_log c))%nat /\ i = Z.of_nat k /\ r = history_root TRANSFER_TREE_HEIGHT (take k (ch_log c));
  ci_latest : exists k, (k <= length (ch_log c))%nat /\ latestProvedIndex (ch_verifier c) = Z.of_nat k;
}.
End vocabulary.
Global Arguments DecidersSound : clear implicits.

(** ** ABI encoding *)

Lemma length_abi_encode ws : length (abi_encode_words ws) = (32 * length ws)%nat.
Proof.
  unfold abi_encode_words. induction ws as [|x ws IH]; [done|]. cbn [fmap list_fmap concat].
  rewrite length_app, IH. unfold u256_to_be_bytes. rewrite length_be_bytes. cbn [length]. lia.
Qed.

Lemma abi_encode_bytes ws : Forall in_u8 (abi_encode_words ws).
Proof.
  unfold abi_encode_words. induction ws as [|x ws IH]; cbn [fmap list_fmap concat]; [done|].
  apply Forall_app. split; [apply be_bytes_bytes | exact IH].
Qed.

Lemma abi_words_encode ws : Forall in_u256 ws -> abi_words (length ws) (abi_encode_words ws) = ws.
Proof.
  induction 1 as [|x ws Hx Hws IH]; [done|].
  unfold abi_encode_words. cbn [fmap list_fmap concat length abi_words].
  assert (length (u256_to_be_bytes x) = 32%nat) as Hlx by apply length_be_bytes.
  rewrite <- Hlx at 1 2. rewrite take_app_length, drop_app_length, u256_bytes_roundtrip by done. f_equal. exact IH.
Qed.

Lemma abi_roundtrip ws : Forall in_u256 ws -> abi_decode_words (length ws) (abi_encode_words ws) = Ok ws.
Proof.
  intros H. unfold abi_decode_words. rewrite length_abi_encode, Nat.ltb_irrefl. f_equal. by apply abi_words_encode.
Qed.

(** ** The contract hashes are the hashes of the Rust code *)

Section hashes.
Context {C : Crypto} {HC : CryptoLaws C}.

Lemma digest_low m : be_val (sha256 m) mod 2 ^ 248 = be_val (<[0%nat := 0]> (sha256 m)).
Proof.
  destruct (be_val_set_head (sha256 m) 0 31) as [-> Hr]; [apply sha256_length | apply sha256_bytes | unfold in_u8; lia |].
  pose proof (sha256_length m) as Hl. pose proof (sha256_bytes m) as Hb.
  destruct (sha256 m) as [|b l]; [done|]. cbn [drop] in *. injection Hl as Hl. rewrite be_val_cons, Hl.
  change (256 ^ Z.of_nat 31) with (2 ^ 248) in *. rewrite Z.add_comm, Z.mod_add by lia. by rewrite Z.mod_small.
Qed.

Lemma land_MASK248 x : Z.land x MASK248 = x mod 2 ^ 248.
Proof. rewrite <- Z.land_ones by lia. done. Qed.

Lemma ShaHashChainLib_compute_eq prev addr value : ShaHashChainLib_compute prev addr value = hash_chain prev addr value.
Proof. unfold ShaHashChainLib_compute, hash_chain. by rewrite land_MASK248, digest_low. Qed.

Lemma GeneralRecipientLib_hash_eq gr : GeneralRecipientLib_hash gr = to_u256 gr.
Proof.
  unfold GeneralRecipientLib_hash, to_u256. set (m := _ ++ _). rewrite land_MASK248, Z.shiftl_1_l.
  pose proof (Z.add_lor_land (be_val (sha256 m) mod 2 ^ 248) (2 ^ 248)) as Hs.
  assert (Z.land (be_val (sha256 m) mod 2 ^ 248) (2 ^ 248) = 0) as Hz.
  { apply Z.bits_inj_0. intros n. rewrite Z.land_spec, Z.pow2_bits_eqb by lia. destruct (248 =? n) eqn:E; bool_cases.
    - subst n. by rewrite Z.mod_pow2_bits_high by lia.
    - apply andb_false_r. }
  rewrite Hz, Z.add_0_r, digest_low in Hs. rewrite digest_low, Hs.
  destruct (be_val_set_head (sha256 m) 0 31) as [-> _]; [apply sha256_length | apply sha256_bytes | unfold in_u8; lia |].
  destruct (be_val_set_head (sha256 m) gr_version 31) as [-> _];
    [apply sha256_length | apply sha256_bytes | unfold in_u8, gr_version; lia |].
  unfold gr_version. change (256 ^ Z.of_nat 31) with (2 ^ 248). lia.
Qed.

(** ** Chains of transfers *)

Lemma hash_chain_message c l : hash_chain c (leaf_address l) (leaf_value l) = truncated_sha (chain_message c l).
Proof. done. Qed.

Lemma chain_from_snoc c ls l : chain_from c (ls ++ [l]) = hash_chain (chain_from c ls) (leaf_address l) (leaf_value l).
Proof. unfold chain_from. by rewrite foldl_app. Qed.

Lemma chain_from_app ls new : history_chain (ls ++ new) = chain_from (history_chain ls) new.
Proof. unfold chain_from, history_chain. by rewrite foldl_app. Qed.

Lemma chain_from_u256 c ls : in_u256 c -> in_u256 (chain_from c ls).
Proof.
  intros Hc. destruct ls as [|l ls _] using rev_ind; [done|]. rewrite chain_from_snoc.
  pose proof (hash_chain_range (chain_from c ls) (leaf_address l) (leaf_value l)). unfold in_u256. lia.
Qed.

Lemma chain_message_inj c1 c2 l1 l2 :
  in_u256 c1 -> in_u256 c2 -> leaf_in_range l1 -> leaf_in_range l2 ->
  chain_message c1 l1 = chain_message c2 l2 -> c1 = c2 /\ l1 = l2.
Proof.
  intros H1 H2 [Ha1 Hv1] [Ha2 Hv2]. unfold chain_message. intros H.
  apply app_inj_1 in H as [Hc H]; [|unfold u256_to_be_bytes; by rewrite !length_be_bytes].
  apply app_inj_1 in H as [Ha Hv]; [|unfold address_bytes; by rewrite !length_be_bytes].
  apply (f_equal be_val) in Hc, Ha, Hv. rewrite !u256_bytes_roundtrip in Hc, Hv by (unfold in_u256 in *; lia).
  rewrite !address_bytes_roundtrip in Ha by (unfold in_u160 in *; lia).
  split; [done|]. destruct l1, l2. cbn in *. congruence.
Qed.

(** Chains with equal ends are equal or contain a collision. *)
Lemma chain_collision_spec c1 c2 : forall r1 r2,
  length r1 = length r2 -> in_u256 c1 -> in_u256 c2 -> Forall leaf_in_range r1 -> Forall leaf_in_range r2 ->
  chain_from c1 (rev r1) = chain_from c2 (rev r2) ->
  match chain_collision c1 c2 r1 r2 with
  | Some k => is_sha_collision k
  | None => c1 = c2 /\ r1 = r2
  end.
Proof.
  induction r1 as [|l1 t1 IH]; intros [|l2 t2] Hl H1 H2 Hr1 Hr2 Heq; cbn [chain_collision]; try done.
  cbn [rev] in Heq. rewrite !chain_from_snoc, !hash_chain_message in Heq.
  apply Forall_cons in Hr1 as [Hl1 Hr1]. apply Forall_cons in Hr2 as [Hl2 Hr2].
  case_decide as E; [|by split]. apply chain_message_inj in E as [Ec ->]; try done; [|by apply chain_from_u256..].
  specialize (IH t2 ltac:(by injection Hl) H1 H2 Hr1 Hr2 Ec). destruct (chain_collision _ _ _ _); [done|].
  destruct IH as [-> ->]. done.
Qed.
End hashes.

(** ** Proved roots *)

Section roots.
Context {C : Crypto} {HC : CryptoLaws C} {R : R1CS} {HR : R1CSLaws C R} {D : Deciders} {HD : DecidersSound C R D}.

Lemma slot_Some m k x : slot m k = x -> x <> 0 -> m !! k = Some x.
Proof. unfold slot. destruct (m !! k); cbn; congruence. Qed.

Lemma require_ok b e u : require b e = Ok u <-> b = true.
Proof. destruct b, u; cbn; split; congruence. Qed.

(** The first step of a satisfied run bounds the index. *)
Lemma root_step_index cfg i c r x xs z :
  circom_poseidon_config = Some cfg -> is_fr i -> is_fr c -> rx_wf x ->
  fold_steps (root_generate_step_constraints cfg) [i; c; r] (x :: xs) = Some (z, true) -> i < 2 ^ 40.
Proof.
  intros Hcfg Hi Hc (Ha & Hv & Hl & Hs) Hrun. cbn [fold_steps] in Hrun.
  apply Synth_bind_inv in Hrun as (z1 & Hstep & _). unfold root_generate_step_constraints in Hstep.
  apply Synth_bind_inv in Hstep as (st & Hstep & _).
  destruct (root_transition_spec TRANSFER_TREE_HEIGHT cfg i c r (rx_address x) (rx_value x) (rx_siblings x) (rx_is_dummy x))
    as (b & Heq & Hb); try done.
  { unfold TRANSFER_TREE_HEIGHT. lia. }
  rewrite Heq in Hstep. injection Hstep as _ ->. apply Hb. done.
Qed.

(** An accepted proof that links a proved root to a reserved chain of the same
    log yields the next root of the log. *)
Lemma root_witness_links w xs log :
  Forall leaf_in_range log -> root_witness w xs -> xs <> [] ->
  word w 3 = history_root TRANSFER_TREE_HEIGHT (take (Z.to_nat (word w 1)) log) ->
  (Z.to_nat (word w 1) <= length log)%nat -> as_u64 (word w 4) <= Z.of_nat (length log) ->
  word w 5 = history_chain (take (Z.to_nat (as_u64 (word w 4))) log) ->
  (as_u64 (word w 4) = word w 4
   /\ word w 6 = history_root TRANSFER_TREE_HEIGHT (take (Z.to_nat (word w 4)) log))
  \/ root_attack log w xs.
Proof.
  intros Hlog (Hwf & H1 & H2 & H3 & cfg & Hcfg & Hrun) Hne Hold Hk Hnew Hch.
  destruct xs as [|x xs']; [done|]. pose proof Hwf as Hx. apply Forall_cons in Hx as [Hx _].
  pose proof (root_step_index cfg _ _ _ x xs' _ Hcfg H1 H2 Hx Hrun) as Hi. set (xs := x :: xs') in *.
  set (k := Z.to_nat (word w 1)) in *. assert (word w 1 = Z.of_nat (length (take k log))) as Hw1.
  { rewrite length_take. unfold is_fr in H1. lia. }
  rewrite Hold, Hw1 in Hrun. fold (history_state (word w 2) (take k log)) in Hrun.
  apply root_fold_run in Hrun as [(Hz & Hrl & Hcap)|Hcol]; [|by right; left|done..|lia|done].
  unfold history_state in Hz. injection Hz as Hz4 Hz5 Hz6. set (L := real_leaves xs) in *.
  rewrite length_app in Hz4, Hcap. assert (as_u64 (word w 4) = word w 4) as Hu.
  { apply as_u64_id. unfold in_u64. lia. }
  rewrite Hu in *. rewrite length_take in Hz4. set (seg := take (length L) (drop k log)).
  assert (length seg = length L) as Hseg. { unfold seg. rewrite length_take, length_drop. lia. }
  assert (take (Z.to_nat (word w 4)) log = take k log ++ seg) as Htake.
  { unfold seg. replace (Z.to_nat (word w 4)) with (k + length L)%nat by lia. by rewrite <- take_take_drop. }
  rewrite Htake, chain_from_app, Hz5 in Hch.
  assert (Forall leaf_in_range seg) as Hsr by by apply Forall_take, Forall_drop.
  pose proof (chain_collision_spec (word w 2) (history_chain (take k log)) (rev L) (rev seg)) as Hcc.
  rewrite !rev_involutive, !length_rev in Hcc.
  specialize (Hcc ltac:(done) (is_fr_u256 _ H2) (is_fr_u256 _ (history_chain_fr _))).
  specialize (Hcc (Forall_rev Hrl) (Forall_rev Hsr) Hch).
  destruct (chain_collision _ _ _ _) as [col|] eqn:Ecol.
  - right. right. exists col. split; [exact Ecol | exact Hcc].
  - left. split; [done|]. destruct Hcc as [_ Hcc]. apply (f_equal (@rev Leaf)) in Hcc. rewrite !rev_involutive in Hcc.
    rewrite Htake, <- Hcc. exact Hz6.
Qed.

(** One accepted proof keeps the invariant, or contains an attack. *)
Lemma prove_step_inv t v log ps w v' logs ps' :
  chain_inv (mkChain t v log ps) -> Z.of_nat (length log) < 2 ^ 64 ->
  prove_decoded w v = Ok (v', logs) ->
  chain_inv (mkChain t v' log ps') \/ exists xs, root_witness w xs /\ root_attack log w xs.
Proof.
  intros [Hi Hc Hr Hres Hpr Hla] Hlen. cbn [ch_token ch_verifier ch_log] in *. unfold prove_decoded. intros H.
  apply result_bind_ok in H as ([] & Hd & H). apply result_bind_ok in H as ([] & Ho & H).
  apply result_bind_ok in H as ([] & He & H). apply result_bind_ok in H as ([] & Hz & H).
  apply result_bind_ok in H as ([] & Hh & H). apply require_ok in Hd, Ho, He, Hz, Hh. bool_cases.
  if_case_in H Ex; [injection H as <- <-; left; by split|]. injection H as <- <-.
  destruct (root_decider_sound w Hd) as (xs & Hw).
  destruct (Hpr (as_u64 (word w 1)) (word w 3)) as (k & Hk & Hk1 & Hk3); [by apply slot_Some|done|].
  destruct (Hres (as_u64 (word w 4)) (word w 5)) as (n & Hn & Hn4 & Hn5); [apply slot_Some; congruence|].
  assert ((exists m, (m <= length log)%nat /\ as_u64 (word w 4) = Z.of_nat m
            /\ word w 6 = history_root TRANSFER_TREE_HEIGHT (take m log))
          \/ root_attack log w xs) as [(m & Hm & Hm4 & Hm6)|Ha]; [| |by right; exists xs].
  { destruct (decide (xs = [])) as [->|Hne].
    - destruct Hw as (_ & _ & _ & _ & cfg & _ & [= H1 H2 H3]). left. exists k. by rewrite <- H1, <- H3.
    - assert (word w 1 < 2 ^ 40) as H40.
      { destruct xs as [|y ys]; [done|]. destruct Hw as (Hwf & H1 & H2 & _ & cfg & Hcfg & Hrun).
        apply Forall_cons in Hwf as [Hx _]. by eapply root_step_index. }
      assert (word w 1 = Z.of_nat k) as Hw1.
      { destruct Hw as (_ & H1 & _). rewrite as_u64_id in Hk1; [done|]. unfold is_fr in H1. unfold in_u64. lia. }
      destruct (root_witness_links w xs log Hr Hw Hne) as [[Hu H6]|Ha]; rewrite ?Hw1, ?Hn4, ?Nat2Z.id; try done; try lia.
      + left. exists n. rewrite <- Hu, Hn4, Nat2Z.id in H6. done.
      + by right. }
  left. split; cbn [ch_token ch_verifier ch_log set_proved reservedHashChains provedTransferRoots latestProvedIndex]; try done.
  - intros i r. rewrite lookup_insert. case_decide as E; [|apply Hpr]. intros [= <-] _. subst i. by exists m.
  - if_case El; [|done]. by exists m.
Qed.

(** The invariant only depends on these parts of the storage. *)
Lemma chain_inv_same t v v' log ps ps' :
  chain_inv (mkChain t v log ps) -> reservedHashChains v' = reservedHashChains v ->
  provedTransferRoots v' = provedTransferRoots v -> latestProvedIndex v' = latestProvedIndex v ->
  chain_inv (mkChain t v' log ps').
Proof. intros [] H1 H2 H3. split; cbn in *; rewrite ?H1, ?H2, ?H3; done. Qed.

Lemma chain_inv_transfer t v log ps to value t' :
  chain_inv (mkChain t v log ps) -> 0 <= to < 2 ^ 160 -> 0 <= value -> afterTokenTransfer to value t = Ok t' ->
  chain_inv (mkChain t' v (log ++ [mkLeaf to value]) ps).
Proof.
  intros [Hi Hc Hr Hres Hpr Hla] Hto Hv H. cbn [ch_token ch_verifier ch_log] in *. unfold afterTokenTransfer in H.
  apply result_bind_ok in H as (? & Hm & H). apply require_ok in Hm. bool_cases. unfold MASK248 in Hm.
  if_case_in H E; [done|]. injection H as <-.
  assert (forall k, (k <= length log)%nat ->
    (k <= length (log ++ [mkLeaf to value]))%nat /\ take k (log ++ [mkLeaf to value]) = take k log) as Hpre.
  { intros k Hk. rewrite length_app. split; [cbn; lia|]. by apply take_app_le. }
  split; cbn [ch_token ch_verifier ch_log index hashChain].
  - rewrite Hi, length_app. cbn. lia.
  - by rewrite ShaHashChainLib_compute_eq, Hc, history_chain_snoc.
  - apply Forall_app. split; [done|]. constructor; [|done]. split; cbn; lia.
  - intros i h Hl. destruct (Hres i h Hl) as (k & Hk & -> & ->). exists k. destruct (Hpre k Hk) as [? ->]. done.
  - intros i r Hl Hnz. destruct (Hpr i r Hl Hnz) as (k & Hk & -> & ->). exists k. destruct (Hpre k Hk) as [? ->]. done.
  - destruct Hla as (k & Hk & ->). exists k. split; [|done]. by apply Hpre.
Qed.

Lemma chain_inv_reserve t v log ps :
  chain_inv (mkChain t v log ps) -> Z.of_nat (length log) < 2 ^ 64 ->
  chain_inv (mkChain t (reserveHashChain t v).1 log ps).
Proof.
  intros [Hi Hc Hr Hres Hpr Hla] Hlen. split; cbn in *; try done.
  rewrite Hi, as_u64_id by (unfold in_u64; lia). intros i h. rewrite lookup_insert.
  case_decide as E; [|apply Hres]. intros [= <-]. subst i. exists (length log). rewrite firstn_all. done.
Qed.
End roots.

(** ** Teleports *)

Section teleports.
Context {C : Crypto} {HC : CryptoLaws C} {R : R1CS} {HR : R1CSLaws C R} {D : Deciders} {HD : DecidersSound C R D}.

(** The leaf map of a log. *)
Definition log_tree (ls : list Leaf) (i : Z) : option Leaf := if i <? 0 then None else ls !! Z.to_nat i.

Lemma log_tree_root h ls : spec_root h (tree_leaves (log_tree ls)) = history_root h ls.
Proof.
  apply spec_node_ext. intros j _. unfold tree_leaves, log_tree, history_leaves, leaf_fun.
  destruct (j <? 0); [done|]. rewrite list_lookup_fmap. by destruct (ls !! _).
Qed.

Lemma log_tree_range ls i l : Forall leaf_in_range ls -> log_tree ls i = Some l -> leaf_in_range l.
Proof. intros Hr. unfold log_tree. destruct (i <? 0); [done|]. by apply Forall_lookup_1. Qed.

(** What a successful [_teleport] checked and did. *)
Lemma teleport_common_ok self chainid g hint root recipient gr value t v t' v' logs :
  teleport_common self chainid g hint root recipient gr value t v = Ok (t', v', logs) ->
  slot (if g then globalTransferRoots v else provedTransferRoots v) hint = root /\ root <> 0
  /\ recipient = to_u256 gr /\ gr_chain_id gr = as_u64 chainid /\ slot (totalTeleported v) recipient < value
  /\ v' = set_teleported (<[recipient := value]> (totalTeleported v)) v
  /\ logs = [Teleport (gr_address gr mod 2 ^ 160) (value - slot (totalTeleported v) recipient)]
  /\ self = tok_verifier t
  /\ afterTokenTransfer (gr_address gr mod 2 ^ 160) (value - slot (totalTeleported v) recipient) t = Ok t'.
Proof.
  unfold teleport_common. intros H.
  apply result_bind_ok in H as ([] & Hz & H). apply result_bind_ok in H as ([] & Hroot & H).
  apply result_bind_ok in H as ([] & Hrec & H). apply result_bind_ok in H as ([] & Hid & H).
  apply result_bind_ok in H as ([] & Hlt & H). apply result_bind_ok in H as (t1 & Ht & H). injection H as <- <- <-.
  apply require_ok in Hz, Hroot, Hrec, Hid, Hlt. bool_cases. unfold zERC20_teleport in Ht.
  apply result_bind_ok in Ht as ([] & Hs & Ht). apply require_ok in Hs. bool_cases.
  rewrite GeneralRecipientLib_hash_eq in Hrec. subst root. split_and!; try done.
  by replace (slot (totalTeleported v) recipient + (value - slot (totalTeleported v) recipient)) with value by lia.
Qed.

Lemma teleport_ok self chainid g hint gr proof t v t' v' logs :
  teleport self chainid g hint gr proof t v = Ok (t', v', logs) ->
  let w := abi_words 34 proof in
  word w 3 = 0 /\ word w 4 = 0 /\ word w 5 = word w 1 /\ word w 6 = word w 2 /\ withdrawDecider g w = true
  /\ teleport_common self chainid g hint (word w 1) (word w 2) gr (word w 8) t v = Ok (t', v', logs).
Proof.
  unfold teleport. intros H. apply result_bind_ok in H as ([] & _ & H). apply result_bind_ok in H as (w & Hw & H).
  unfold abi_decode_words in Hw. if_case_in Hw E; [done|]. injection Hw as <-.
  apply result_bind_ok in H as ([] & H3 & H). apply result_bind_ok in H as ([] & H4 & H).
  apply result_bind_ok in H as ([] & H5 & H). apply result_bind_ok in H as ([] & H6 & H).
  apply result_bind_ok in H as ([] & Hd & H). apply require_ok in H3, H4, H5, H6, Hd. bool_cases. done.
Qed.

Lemma singleTeleport_ok self chainid g hint gr proof t v t' v' logs :
  singleTeleport self chainid g hint gr proof t v = Ok (t', v', logs) ->
  let s := drop 8 (abi_words 11 proof) in
  (exists p, singleWithdrawVerifier g p s = true)
  /\ teleport_common self chainid g hint (word s 0) (word s 1) gr (word s 2) t v = Ok (t', v', logs).
Proof.
  unfold singleTeleport. intros H. apply result_bind_ok in H as ([] & _ & H). apply result_bind_ok in H as (w & Hw & H).
  unfold abi_decode_words in Hw. if_case_in Hw E; [done|]. injection Hw as <-.
  apply result_bind_ok in H as ([] & Hd & H). apply require_ok in Hd. by split; [eexists|].
Qed.

(** A mint by a teleport is a transfer of the log. *)
Lemma chain_inv_teleport self chainid g hint root recipient gr value t v log ps t' v' to x :
  chain_inv (mkChain t v log ps) ->
  teleport_common self chainid g hint root recipient gr value t v = Ok (t', v', [Teleport to x]) ->
  chain_inv (mkChain t' v' (log ++ [mkLeaf to x]) ps).
Proof.
  intros Hinv H. apply teleport_common_ok in H as (_ & _ & _ & _ & Hlt & -> & Hlogs & _ & Ht). injection Hlogs as -> ->.
  eapply chain_inv_same; [eapply chain_inv_transfer|..]; [exact Hinv | apply Z.mod_pos_bound; lia | lia | exact Ht | done..].
Qed.

Lemma chain_step_inv self chainid c c' :
  chain_inv c -> Z.of_nat (length (ch_log c)) < 2 ^ 64 -> chain_step self chainid c c' ->
  chain_inv c' \/ Exists (fun p => exists xs, root_witness p.2 xs /\ root_attack p.1 p.2 xs) (ch_proofs c').
Proof.
  intros Hinv Hlen Hstep. destruct Hstep as [c to value t' Hto Hv Ht|c|c proof v' logs Hp|c g hint gr proof t' v' to x Ht
    |c src root seq v' logs Hl|c v' logs Ha]; destruct c as [t v log ps]; cbn [ch_token ch_verifier ch_log ch_proofs] in *.
  - left. by eapply chain_inv_transfer.
  - left. by apply chain_inv_reserve.
  - unfold proveTransferRoot in Hp. apply result_bind_ok in Hp as ([] & _ & Hp). apply result_bind_ok in Hp as (w & Hw & Hp).
    unfold abi_decode_words in Hw. if_case_in Hw E; [done|]. injection Hw as <-.
    destruct (prove_step_inv t v log ps (abi_words 32 proof) v' logs (ps ++ [(log, abi_words 32 proof)])) as [H|H]; try done.
    + by left.
    + right. apply Exists_app. right. by constructor.
  - left. destruct Ht as [Ht|Ht].
    + apply teleport_ok in Ht as (_ & _ & _ & _ & _ & Ht). by eapply chain_inv_teleport.
    + apply singleTeleport_ok in Ht as (_ & Ht). by eapply chain_inv_teleport.
  - left. unfold lzReceive in Hl. apply result_bind_ok in Hl as ([] & _ & Hl). injection Hl as <- <-.
    by eapply chain_inv_same.
  - left. unfold activateEmergency, deactivateEmergency in Ha.
    destruct (paused v), Ha as [Ha|Ha]; try done; injection Ha as <- <-; by eapply chain_inv_same.
Qed.

Lemma chain_step_grows self chainid c c' :
  chain_step self chainid c c' ->
  (length (ch_log c) <= length (ch_log c'))%nat /\ exists ps, ch_proofs c' = ch_proofs c ++ ps.
Proof.
  intros Hs. destruct Hs; cbn [ch_log ch_proofs]; rewrite ?length_app; cbn [length];
    (split; [lia|]); solve [by exists []; rewrite app_nil_r | by eexists].
Qed.

Lemma chain_step_prefix self chainid c c' : chain_step self chainid c c' -> ch_log c `prefix_of` ch_log c'.
Proof. intros Hs. destruct Hs; cbn [ch_log]; by (reflexivity || apply prefix_app_r). Qed.

Lemma genesis_inv self hubEid : chain_inv (genesis self hubEid).
Proof.
  split; cbn [genesis ch_token ch_verifier ch_log Verifier_init reservedHashChains provedTransferRoots latestProvedIndex].
  - done.
  - done.
  - constructor.
  - intros i h H. by rewrite lookup_empty in H.
  - intros i r H _. apply lookup_singleton_Some in H as [<- <-]. by exists 0%nat.
  - by exists 0%nat.
Qed.

Lemma reachable_inv_or_attack self chainid hubEid c :
  chain_reachable self chainid hubEid c -> Z.of_nat (length (ch_log c)) < 2 ^ 64 ->
  chain_inv c \/ Exists (fun p => exists xs, root_witness p.2 xs /\ root_attack p.1 p.2 xs) (ch_proofs c).
Proof.
  induction 1 as [|c c' Hreach IH Hstep]; intros Hlen; [left; apply genesis_inv|].
  destruct (chain_step_grows _ _ _ _ Hstep) as [Hg [ps Hps]].
  destruct IH as [Hinv|Ha]; [lia| |].
  - eapply chain_step_inv; [exact Hinv | lia | exact Hstep].
  - right. rewrite Hps. apply Exists_app. by left.
Qed.
End teleports.

(** ** Properties *)

Section properties.
Context {C : Crypto} {HC : CryptoLaws C} {R : R1CS} {HR : R1CSLaws C R} {D : Deciders} {HD : DecidersSound C R D}.

(** C9: Every proved transfer root is genuine: in every state the contracts can reach
    from deployment by transfers, reservations, root proofs from anybody, teleports,
    messages of the hub and pauses, each non-zero entry of [provedTransferRoots] is the
    Merkle root of the first [index] transfers of the token's log, even though the
    contract ignores the old hash chain of a proof; otherwise one of the accepted
    proofs contains a Poseidon collision or a collision of the truncated SHA-256. *)
Theorem proved_roots_genuine self chainid hubEid c :
  chain_reachable self chainid hubEid c -> Z.of_nat (length (ch_log c)) < 2 ^ 64 ->
  (forall i, slot (provedTransferRoots (ch_verifier c)) i <> 0 ->
     exists k, (k <= length (ch_log c))%nat /\ i = Z.of_nat k
       /\ slot (provedTransferRoots (ch_verifier c)) i = history_root TRANSFER_TREE_HEIGHT (take k (ch_log c)))
  \/ Exists (fun p => exists xs, root_witness p.2 xs /\ root_attack p.1 p.2 xs) (ch_proofs c).
Proof.
  intros Hr Hl. destruct (reachable_inv_or_attack _ _ _ _ Hr Hl) as [Hinv|Ha]; [left|by right].
  intros i Hi. apply (ci_proved _ Hinv); [by apply slot_Some | done].
Qed.

(** C11: A teleport never mints more than was burned: when the contract accepts a local
    Nova teleport in a state that describes its log, the recipient's cumulative total
    becomes the proved total, exactly the difference is minted to the recipient's
    address as the next transfer of the log, and the total is covered by transfers of
    the proved prefix of the log at strictly increasing positions (none counted twice),
    each paying a proof-of-work burn address of this recipient; otherwise an input of
    the proof yields a Poseidon collision or a preimage of the empty leaf. *)
Theorem teleport_covered_by_burns self chainid hint gr proof c t' v' logs :
  chain_inv c ->
  teleport self chainid false hint gr proof (ch_token c) (ch_verifier c) = Ok (t', v', logs) ->
  let recipient := to_u256 gr in
  let before := slot (totalTeleported (ch_verifier c)) recipient in
  let total := slot (totalTeleported v') recipient in
  before < total /\ logs = [Teleport (gr_address gr mod 2 ^ 160) (total - before)]
  /\ (forall r, r <> recipient -> slot (totalTeleported v') r = slot (totalTeleported (ch_verifier c)) r)
  /\ hashChain t' = history_chain (ch_log c ++ [mkLeaf (gr_address gr mod 2 ^ 160) (total - before)])
  /\ exists k xs, (k <= length (ch_log c))%nat /\ hint = Z.of_nat k
       /\ withdraw_witness false (abi_words 34 proof) xs /\ StronglySorted Z.lt (wx_leaf_index <$> xs)
       /\ let T := log_tree (take k (ch_log c)) in
          (Forall (fun x => wx_real x = true -> claims_leaf T recipient x) xs
           /\ total <= sum_Z (claimed_value T <$> xs))
          \/ Exists (fun x => wx_real x = true /\ is_attack (input_attack T recipient x)) xs.
Proof.
  intros Hinv Ht. pose proof Hinv as [_ Hch Hrange _ Hpr _]. apply teleport_ok in Ht as (H3 & H4 & H5 & H6 & Hd & Ht).
  pose proof (teleport_common_ok _ _ _ _ _ _ _ _ _ _ _ _ _ Ht) as (Hroot & Hnz & Hrec & _ & Hlt & -> & -> & _ & Ha).
  rewrite Hrec in *. cbv zeta. cbn [set_teleported totalTeleported]. set (total := word (abi_words 34 proof) 8) in *.
  assert (slot (<[to_u256 gr := total]> (totalTeleported (ch_verifier c))) (to_u256 gr) = total) as ->.
  { unfold slot at 1. by rewrite lookup_insert_eq. }
  split_and!; [done | done | | |].
  - intros r Hr. unfold slot. by rewrite lookup_insert_ne by done.
  - destruct c as [t v log ps]. cbn [ch_token ch_verifier ch_log] in *.
    apply (ci_chain (mkChain t' v (log ++ [_]) ps)).
    eapply chain_inv_transfer; [exact Hinv | apply Z.mod_pos_bound; lia | lia | exact Ha].
  - destruct (Hpr hint _ (slot_Some _ _ _ Hroot Hnz) Hnz) as (k & Hk & -> & Hkr).
    destruct (withdraw_decider_sound false _ Hd) as (xs & Hw). exists k, xs. split; [exact Hk|]. split; [done|]. split; [exact Hw|].
    destruct Hw as (Hwf & cfg & Hcfg & Hrun). rewrite H3, H4, H5, H6, Hkr, Hrec, <- log_tree_root in Hrun.
    edestruct (withdraw_fold_bound TRANSFER_TREE_HEIGHT cfg (log_tree (take k (ch_log c))) (to_u256 gr) xs) as
      (i1 & tot & Hz & _ & Hs & Hb); [exact Hcfg | unfold TRANSFER_TREE_HEIGHT; lia | | exact Hwf | exact Hrun |].
    { intros i l. apply log_tree_range. by apply Forall_take. }
    injection Hz as _ Hz. rewrite <- Hz in Hb. done.
Qed.

(** The contracts and the Rust code compute the same hashes: the transfer hash
    chain of [ShaHashChainLib] and the recipient hash of [GeneralRecipientLib], written
    with masks and shifts, equal [hash_chain] and [GeneralRecipient::to_u256], written on
    digest bytes, for all inputs. *)
Theorem contract_hashes_match prev addr value gr :
  ShaHashChainLib_compute prev addr value = hash_chain prev addr value
  /\ GeneralRecipientLib_hash gr = to_u256 gr.
Proof. split; [apply ShaHashChainLib_compute_eq | apply GeneralRecipientLib_hash_eq]. Qed.
End properties.

(** ** Witnesses *)

Section witnesses.
#[local] Existing Instance toy_crypto.
#[local] Existing Instance toy_crypto_laws.
#[local] Existing Instance toy_r1cs.
#[local] Existing Instance toy_r1cs_laws.

Definition toy_gr : GeneralRecipient := mkGeneralRecipient 1 77 3.
Definition toy_recipient : Z := Eval vm_compute in to_u256 toy_gr.
Definition toy_secret : Z := 970023185356834809321739825992471571461988212015104.
Definition toy_burn : Leaf := Eval vm_compute in mkLeaf (burn_address_of toy_recipient toy_secret) 30.
Definition toy_root (ls : list Leaf) : Z := default 0 (IMT_insert_all (IMT_new 40) ls ≫= IMT_get_root).
Definition toy_r0 : Z := Eval vm_compute in toy_root [].
Definition toy_r1 : Z := Eval vm_compute in toy_root [toy_burn].
Definition toy_c1 : Z := Eval vm_compute in history_chain [toy_burn].
Definition toy_path : list Z :=
  Eval vm_compute in default [] (siblings <$> (IMT_insert_all (IMT_new 40) [toy_burn] ≫= fun t => IMT_prove t 0)).

(** A root proof for the first transfer, and a withdraw proof for it. *)
Definition toy_root_words : list Z := [1; 0; 0; toy_r0; 1; toy_c1; toy_r1] ++ replicate 25 0.
Definition toy_withdraw_words : list Z :=
  [1; toy_r1; toy_recipient; 0; 0; toy_r1; toy_recipient; 1; 30] ++ replicate 25 0.

(** Verifiers that accept these two proofs only. *)
Definition toy_deciders : Deciders := {|
  rootDecider := fun w => bool_decide (w = toy_root_words);
  withdrawDecider := fun g w => negb g && bool_decide (w = toy_withdraw_words);
  singleWithdrawVerifier := fun _ _ _ => false;
|}.
#[local] Existing Instance toy_deciders.

Lemma toy_deciders_sound : DecidersSound toy_crypto toy_r1cs toy_deciders.
Proof.
  split; cbn [rootDecider withdrawDecider singleWithdrawVerifier toy_deciders].
  - intros w Hw. apply bool_decide_eq_true in Hw as ->.
    exists [mkRootExternalInputs false (leaf_address toy_burn) 30 toy_path]. split_and!; [|by vm_compute..|].
    + apply (bool_decide_unpack _). by vm_compute.
    + exists toy_cfg. by split; vm_compute.
  - intros [] w Hw; [done|]. apply bool_decide_eq_true in Hw as ->.
    exists [mkWithdrawExternalInputs 0 30 toy_secret 0 toy_path]. split.
    + apply (bool_decide_unpack _). by vm_compute.
    + exists toy_cfg. by split; vm_compute.
  - done.
Qed.
#[local] Existing Instance toy_deciders_sound.

Lemma toy_root_0 : history_root TRANSFER_TREE_HEIGHT [] = toy_r0.
Proof. apply history_root_eval; [unfold TRANSFER_TREE_HEIGHT; lia | by vm_compute..]. Qed.
Lemma toy_root_1 : history_root TRANSFER_TREE_HEIGHT [toy_burn] = toy_r1.
Proof. apply history_root_eval; [unfold TRANSFER_TREE_HEIGHT; lia | by vm_compute..]. Qed.

(** One burn, its reservation and its root proof, at verifier address 9. *)
Definition toy_chain : Chain :=
  mkChain (mkToken 1 toy_c1 9)
    (mkVerifier 0 1 1 0 0 {[1 := toy_c1]} (<[1 := toy_r1]> {[0 := toy_r0]}) ∅ ∅ false)
    [toy_burn] [([toy_burn], toy_root_words)].

Lemma toy_chain_reachable : chain_reachable 9 1 0 toy_chain.
Proof.
  pose proof (cr_genesis 9 1 0) as H0. unfold genesis, Verifier_init in H0. rewrite toy_root_0 in H0.
  eapply cr_step in H0; [|apply (step_transfer 9 1 _ (leaf_address toy_burn) 30 (mkToken 1 toy_c1 9));
    [cbn; lia | lia | by vm_compute]].
  eapply cr_step in H0; [|apply step_reserve].
  eapply cr_step in H0; [|eapply (step_prove 9 1 _ (abi_encode_words toy_root_words)); vm_compute; reflexivity].
  exact H0.
Qed.

Lemma proved_roots_genuine_witness :
  (forall i, slot (provedTransferRoots (ch_verifier toy_chain)) i <> 0 ->
     exists k, (k <= length (ch_log toy_chain))%nat /\ i = Z.of_nat k
       /\ slot (provedTransferRoots (ch_verifier toy_chain)) i = history_root TRANSFER_TREE_HEIGHT (take k (ch_log toy_chain)))
  \/ Exists (fun p => exists xs, root_witness p.2 xs /\ root_attack p.1 p.2 xs) (ch_proofs toy_chain).
Proof. apply (proved_roots_genuine 9 1 0 toy_chain); [apply toy_chain_reachable | cbn; lia]. Defined.

Lemma toy_chain_inv : chain_inv toy_chain.
Proof.
  split; cbn [toy_chain ch_token ch_verifier ch_log index hashChain reservedHashChains provedTransferRoots latestProvedIndex].
  - done.
  - by vm_compute.
  - apply Forall_singleton. split; cbn; lia.
  - intros i h H. apply lookup_singleton_Some in H as [<- <-]. exists 1%nat. by vm_compute.
  - intros i r H _. apply lookup_insert_Some in H as [[<- <-]|[_ H]].
    + exists 1%nat. split; [cbn; lia|]. split; [done|]. symmetry. apply toy_root_1.
    + apply lookup_singleton_Some in H as [<- <-]. exists 0%nat. split; [lia|]. split; [done|]. symmetry. apply toy_root_0.
  - exists 1%nat. by vm_compute.
Qed.

Definition toy_teleported : result Revert (Token * Verifier * list VerifierEvent) :=
  Eval vm_compute in teleport 9 1 false 1 toy_gr (abi_encode_words toy_withdraw_words) (ch_token toy_chain) (ch_verifier toy_chain).

Lemma teleport_covered_by_burns_witness :
  match toy_teleported with
  | Ok (t', v', logs) =>
    0 < 30 /\ logs = [Teleport 77 30]
    /\ exists k xs, (k <= 1)%nat /\ 1 = Z.of_nat k /\ withdraw_witness false (abi_words 34 (abi_encode_words toy_withdraw_words)) xs
       /\ StronglySorted Z.lt (wx_leaf_index <$> xs)
       /\ ((Forall (fun x => wx_real x = true -> claims_leaf (log_tree (take k [toy_burn])) (to_u256 toy_gr) x) xs
           /\ 30 <= sum_Z (claimed_value (log_tree (take k [toy_burn])) <$> xs))
          \/ Exists (fun x => wx_real x = true /\ is_attack (input_attack (log_tree (take k [toy_burn])) (to_u256 toy_gr) x)) xs)
  | Err _ => False
  end.
Proof.
  unfold toy_teleported.
  edestruct (teleport_covered_by_burns 9 1 1 toy_gr (abi_encode_words toy_withdraw_words) toy_chain) as (H1 & H2 & _ & _ & H5);
    [apply toy_chain_inv | by vm_compute |].
  split; [lia|]. split; [by vm_compute|]. exact H5.
Defined.

Lemma contract_hashes_match_witness :
  ShaHashChainLib_compute 5 6 7 = hash_chain 5 6 7 /\ GeneralRecipientLib_hash toy_gr = to_u256 toy_gr.
Proof. apply (contract_hashes_match 5 6 7 toy_gr). Defined.
End witnesses.
