(* ===== verification/TreeDb.v ===== *)
(** [indexer/src/trees/db.rs]: the database-backed incremental Merkle tree with
    historical proofs.

    [append_leaf] and [prove_many] are the statements of the Rust functions, in
    order, on the tables of [Database].  The abstract specification is the
    history of leaves appended so far ([MerkleTrees.history_root] and friends);
    [tree_repr] is the representation invariant, including what the pruning of
    the update log leaves behind. *)

From S2P Require Import Prelude Words Crypto BitPaths MerkleTrees Database.
Local Open Scope Z_scope.

(** ** Errors, configuration and results *)

Inductive DbMerkleTreeError :=
| InvalidTokenId (token_id : Z)
| InvalidHeight (height : nat)
| LeafIndexOverflow
| InvalidProofTargetZero
| TreeEmpty
| TargetIndexTooHigh (target latest : Z)
| RetentionWindowExceeded (target window : Z)
| LeafIndexOutOfBounds (leaf_index target_index : Z)
| TokenNotFound (token_id : Z)
| MissingRoot (index : Z)
| MissingHashChain (index : Z)
| I64ToU64 (label : string) (value : Z)
| U64ToI64 (label : string) (value : Z)
| Database (action : string)
| InvalidFrBytes (len : nat)
| InvalidU256Bytes (len : nat)
| InvalidBitPathBytes (len : nat)
| InvalidConfig (message : string)
(** the panic of an [expect] *)
| Panicked (message : string).

Definition HISTORY_WINDOW_RECOMMENDED : Z := 100.

Record DbMerkleTreeConfig := mkDbMerkleTreeConfig { cfg_history_window : Z }.

Definition DbMerkleTreeConfig_new (history_window : Z) : result DbMerkleTreeError DbMerkleTreeConfig :=
  if history_window =? 0 then Err (InvalidConfig "history_window must be greater than zero")
  else Ok (mkDbMerkleTreeConfig history_window).

Record AppendResult := mkAppendResult {
  ar_index : Z;
  ar_leaf_index : Z;
  ar_root : Z;
  ar_hash_chain : Z;
}.

Record HistoricalProof := mkHistoricalProof {
  hp_target_index : Z;
  hp_leaf_index : Z;
  hp_root : Z;
  hp_hash_chain : Z;
  hp_proof : MerkleProof;
}.

Record NodeUpdateRow := mkNodeUpdateRow {
  path_bytes : bytes;
  old_bytes : bytes;
  new_bytes : bytes;
}.

(** A partition name is its parent table and the token id it is for. *)
Record TreePartitions := mkTreePartitions {
  tp_token_id : Z;
  nodes_partition : table * Z;
  updates_partition : table * Z;
  snapshots_partition : table * Z;
}.

Definition TreePartitions_new (token_id : Z) : result DbMerkleTreeError TreePartitions :=
  if token_id <=? 0 then Err (InvalidTokenId token_id)
  else Ok (mkTreePartitions token_id (NodesTable, token_id) (UpdatesTable, token_id)
             (SnapshotsTable, token_id)).

(** [CREATE TABLE IF NOT EXISTS .. PARTITION OF ..]: a duplicate is not an error. *)
Definition execute_partition_statement (p : table * Z) : M Db DbMerkleTreeError unit :=
  modify (fun d => set_partitions ({[p]} ∪ partitions d) d).

Definition TreePartitions_ensure (p : TreePartitions) : M Db DbMerkleTreeError unit :=
  execute_partition_statement (nodes_partition p) ≫= fun _ =>
  execute_partition_statement (updates_partition p) ≫= fun _ =>
  execute_partition_statement (snapshots_partition p).

Record DbIncrementalMerkleTree := mkDbTree {
  dt_partitions : TreePartitions;
  dt_height : nat;
  dt_zero_hashes : list Z;
  dt_history_window : Z;
}.
Definition dt_token (t : DbIncrementalMerkleTree) : Z := tp_token_id (dt_partitions t).

(** ** Encodings *)

Definition fr_to_bytes (value : Z) : bytes :=
  let bs := fr_bigint_bytes_be value in
  if (length bs <? 32)%nat then replicate (32 - length bs) 0 ++ bs else bs.

Definition bytes_to_bit_path (bs : bytes) : result DbMerkleTreeError BitPath :=
  if negb (length bs =? 12)%nat then Err (InvalidBitPathBytes (length bs)) else Ok (from_bytes bs).

Definition bytes_to_fr (bs : bytes) : result DbMerkleTreeError Z :=
  if negb (length bs =? 32)%nat then Err (InvalidFrBytes (length bs)) else Ok (fr_of_biguint (be_val bs)).

Definition bytes_to_u256 (bs : bytes) : result DbMerkleTreeError Z :=
  if negb (length bs =? 32)%nat then Err (InvalidU256Bytes (length bs)) else Ok (be_val bs).

Definition to_i64 (label : string) (v : Z) : result DbMerkleTreeError Z :=
  ok_or (U64ToI64 label v) (i64_try_from v).

Section tree_db.
Context {C : Crypto}.

Fixpoint compute_zero_loop (n : nat) (hashes : list Z) (current : Z) : list Z :=
  match n with
  | O => hashes
  | S n' => let current' := poseidon2 current current in compute_zero_loop n' (hashes ++ [current']) current'
  end.
Definition compute_zero_hashes (height : nat) : list Z := compute_zero_loop height [0] 0.

Definition DbTree_new (token_id : Z) (height : nat) (config : DbMerkleTreeConfig)
  : M Db DbMerkleTreeError DbIncrementalMerkleTree :=
  if (height =? 0)%nat then fail (InvalidHeight height)
  else
    lift (TreePartitions_new token_id) ≫= fun parts =>
    TreePartitions_ensure parts ≫= fun _ =>
    mret (mkDbTree parts height (compute_zero_hashes height) (cfg_history_window config)).

Definition zero_root (t : DbIncrementalMerkleTree) : result DbMerkleTreeError Z :=
  ok_or (Panicked "zero hashes populated during construction") (last (dt_zero_hashes t)).

Definition zero_hash_for_path (t : DbIncrementalMerkleTree) (path : BitPath) : result DbMerkleTreeError Z :=
  let remaining := Z.to_nat (len path) in
  let total := dt_height t in
  if (total <? remaining)%nat then Err (Panicked "path length does not exceed height")
  else
    match dt_zero_hashes t !! (total - remaining)%nat with
    | Some h => Ok h
    | None => ok_or (Panicked "zero hashes populated") (last (dt_zero_hashes t))
    end.

(** ** Queries *)

Definition lock_token_row (t : DbIncrementalMerkleTree) : M Db DbMerkleTreeError unit :=
  gets tokens ≫= fun tks =>
  match tks !! dt_token t with
  | Some _ => mret tt
  | None => fail (TokenNotFound (dt_token t))
  end.

(** [WHERE token_id = $1 ORDER BY tree_index DESC LIMIT 1]. *)
Definition latest_snapshot (t : DbIncrementalMerkleTree) (d : Db) : option ((Z * Z) * SnapshotRow) :=
  head (select_asc (fun kv => - kv.1.2) (fun kv => kv.1.1 =? dt_token t) (merkle_snapshots d)).

Definition latest_index_internal (t : DbIncrementalMerkleTree) : M Db DbMerkleTreeError Z :=
  gets (latest_snapshot t) ≫= fun row =>
  mret (match row with Some kv => as_u64 kv.1.2 | None => 0 end).

Definition latest_hash_chain_internal (t : DbIncrementalMerkleTree) : M Db DbMerkleTreeError (option Z) :=
  gets (latest_snapshot t) ≫= fun row =>
  lift (transpose ((fun kv => bytes_to_u256 (sr_hash_chain kv.2)) <$> row)).

Definition root_at_internal (t : DbIncrementalMerkleTree) (index : Z) : M Db DbMerkleTreeError (option Z) :=
  lift (to_i64 "historical root index" index) ≫= fun index_i64 =>
  gets merkle_snapshots ≫= fun snaps =>
  lift (transpose ((fun r => bytes_to_fr (sr_root_hash r)) <$> (snaps !! (dt_token t, index_i64)))).

Definition hash_chain_at_internal (t : DbIncrementalMerkleTree) (index : Z) : M Db DbMerkleTreeError (option Z) :=
  lift (to_i64 "historical hash chain index" index) ≫= fun index_i64 =>
  gets merkle_snapshots ≫= fun snaps =>
  lift (transpose ((fun r => bytes_to_u256 (sr_hash_chain r)) <$> (snaps !! (dt_token t, index_i64)))).

Definition insert_decoded (hashes : gmap BitPath Z) (row : bytes * bytes)
  : result DbMerkleTreeError (gmap BitPath Z) :=
  path ← bytes_to_bit_path row.1;
  hash ← bytes_to_fr row.2;
  Ok (<[path := hash]> hashes).

(** [SELECT node_path, hash .. AND node_path IN (..)]. *)
Definition load_node_hashes (t : DbIncrementalMerkleTree) (paths : list BitPath)
  : M Db DbMerkleTreeError (gmap BitPath Z) :=
  match paths with
  | [] => mret ∅
  | _ =>
    gets (fun d => select (fun kv => (kv.1.1 =? dt_token t) && bool_decide (kv.1.2 ∈ (to_bytes <$> paths)))
                     (merkle_nodes_current d)) ≫= fun rows =>
    lift (fold_result insert_decoded ∅ ((fun kv => (kv.1.2, nr_hash kv.2)) <$> rows))
  end.

Definition insert_first_decoded (overlay : gmap BitPath Z) (row : bytes * bytes)
  : result DbMerkleTreeError (gmap BitPath Z) :=
  path ← bytes_to_bit_path row.1;
  match overlay !! path with
  | Some _ => Ok overlay
  | None => hash ← bytes_to_fr row.2; Ok (<[path := hash]> overlay)
  end.

Definition load_overlay (t : DbIncrementalMerkleTree) (from_index to_index : Z)
  : M Db DbMerkleTreeError (gmap BitPath Z) :=
  if to_index <? from_index then mret ∅
  else
    lift (to_i64 "overlay lower bound" from_index) ≫= fun from_i64 =>
    lift (to_i64 "overlay upper bound" to_index) ≫= fun to_i64_ =>
    gets (fun d => select_asc (fun kv => kv.1.1.2)
                     (fun kv => (kv.1.1.1 =? dt_token t) && (from_i64 <=? kv.1.1.2) && (kv.1.1.2 <=? to_i64_))
                     (merkle_node_updates d)) ≫= fun rows =>
    lift (fold_result insert_first_decoded ∅ ((fun kv => (kv.1.2, ur_old_hash kv.2)) <$> rows)).

(** ** [append_leaf] *)

(** The positions prefetched for an append: the path and its siblings. *)
Fixpoint fetch_loop (n : nat) (cursor_path : BitPath) (acc : gset BitPath) : gset BitPath :=
  match n with
  | O => acc
  | S n' =>
    let parent := (pop cursor_path).2 in
    let acc' := {[parent]} ∪ ({[sibling cursor_path]} ∪ acc) in
    if is_empty parent then acc' else fetch_loop n' parent acc'
  end.

Record AppendLoop := mkAppendLoop {
  al_existing : gmap BitPath Z;
  al_planned : list NodeUpdateRow;
  al_node_hash : Z;
  al_path : BitPath;
}.

(** [old_hash != node_hash]: log the change and remember the new hash. *)
Definition plan_update (s : AppendLoop) (path : BitPath) (old_hash : Z) : AppendLoop :=
  if old_hash =? al_node_hash s then s
  else mkAppendLoop (<[path := al_node_hash s]> (al_existing s))
         (al_planned s ++ [mkNodeUpdateRow (to_bytes path) (fr_to_bytes old_hash) (fr_to_bytes (al_node_hash s))])
         (al_node_hash s) (al_path s).

Definition append_step (t : DbIncrementalMerkleTree) (s : AppendLoop) : result DbMerkleTreeError AppendLoop :=
  let current_path := al_path s in
  zero ← zero_hash_for_path t current_path;
  let old_hash := default zero (al_existing s !! current_path) in
  let s := plan_update s current_path old_hash in
  let sibling_path := sibling current_path in
  zero_sibling ← zero_hash_for_path t sibling_path;
  let sibling_hash := default zero_sibling (al_existing s !! sibling_path) in
  let is_left := Z.land (value current_path) 1 =? 0 in
  let '(lhs, rhs) := if is_left then (al_node_hash s, sibling_hash) else (sibling_hash, al_node_hash s) in
  Ok (mkAppendLoop (al_existing s) (al_planned s) (poseidon2 lhs rhs) (pop current_path).2).

Fixpoint append_loop (n : nat) (t : DbIncrementalMerkleTree) (s : AppendLoop) : result DbMerkleTreeError AppendLoop :=
  match n with
  | O => Ok s
  | S n' => s' ← append_step t s; append_loop n' t s'
  end.

(** [INSERT INTO merkle_node_updates ..]: a duplicate key or a missing
    partition is an error. *)
Definition insert_update (t : DbIncrementalMerkleTree) (index : Z) (d : Db) (u : NodeUpdateRow)
  : result DbMerkleTreeError Db :=
  match merkle_node_updates d !! (dt_token t, index, path_bytes u) with
  | Some _ => Err (Database "write merkle update rows batch")
  | None =>
    if bool_decide ((UpdatesTable, dt_token t) ∈ partitions d)
    then Ok (set_updates (<[(dt_token t, index, path_bytes u) := mkUpdateRow (old_bytes u) (new_bytes u)]>
                            (merkle_node_updates d)) d)
    else Err (Database "write merkle update rows batch")
  end.

(** [INSERT INTO merkle_nodes_current .. ON CONFLICT .. DO UPDATE ..]. *)
Definition upsert_node (t : DbIncrementalMerkleTree) (index : Z) (d : Db) (u : NodeUpdateRow)
  : result DbMerkleTreeError Db :=
  if bool_decide ((NodesTable, dt_token t) ∈ partitions d)
  then Ok (set_nodes (<[(dt_token t, path_bytes u) := mkNodeRow (new_bytes u) index]> (merkle_nodes_current d)) d)
  else Err (Database "upsert merkle node hash batch").

(** Runs a batch of row operations on the current state. *)
Definition run_batch (f : Db -> NodeUpdateRow -> result DbMerkleTreeError Db) (us : list NodeUpdateRow)
  : M Db DbMerkleTreeError unit :=
  fun d => match fold_result f d us with Ok d' => (d', Ok tt) | Err e => (d, Err e) end.

Definition insert_snapshot (t : DbIncrementalMerkleTree) (index : Z) (row : SnapshotRow)
  : M Db DbMerkleTreeError unit :=
  get ≫= fun d =>
  match merkle_snapshots d !! (dt_token t, index) with
  | Some _ => fail (Database "insert merkle snapshot")
  | None =>
    if bool_decide ((SnapshotsTable, dt_token t) ∈ partitions d)
    then modify (set_snapshots (<[(dt_token t, index) := row]> (merkle_snapshots d)))
    else fail (Database "insert merkle snapshot")
  end.

(** [DELETE FROM merkle_node_updates WHERE token_id = $1 AND tree_index <= $2]. *)
Definition prune_updates (t : DbIncrementalMerkleTree) (threshold : Z) : M Db DbMerkleTreeError unit :=
  modify (fun d => set_updates
    (delete_where (fun kv => (kv.1.1.1 =? dt_token t) && (kv.1.1.2 <=? threshold)) (merkle_node_updates d)) d).

Definition append_leaf (t : DbIncrementalMerkleTree) (address val : Z) : M Db DbMerkleTreeError AppendResult :=
  transaction (
    lock_token_row t ≫= fun _ =>
    latest_index_internal t ≫= fun latest_index =>
    let next_index := u64_add latest_index 1 in
    lift (ok_or LeafIndexOverflow (checked_sub next_index 1)) ≫= fun leaf_index =>
    latest_hash_chain_internal t ≫= fun prev =>
    let prev_hash_chain := default 0 prev in
    let leaf_hash := compute_leaf_hash (address_to_fr address) (u256_to_fr val) in
    lift (to_i64 "merkle index during append" next_index) ≫= fun next_index_i64 =>
    let leaf_path := BitPath_new (Z.of_nat (dt_height t)) leaf_index in
    let fetch_positions := fetch_loop (dt_height t) leaf_path {[leaf_path]} in
    load_node_hashes t (elements fetch_positions) ≫= fun existing_nodes =>
    lift (append_loop (dt_height t) t (mkAppendLoop existing_nodes [] leaf_hash leaf_path)) ≫= fun s =>
    let root_path := BitPath_default in
    lift (zero_hash_for_path t root_path) ≫= fun zero =>
    let root_old := default zero (al_existing s !! root_path) in
    let s := plan_update s root_path root_old in
    let node_hash := al_node_hash s in
    (if bool_decide (al_planned s = []) then mret tt
     else run_batch (insert_update t next_index_i64) (al_planned s) ≫= fun _ =>
          run_batch (upsert_node t next_index_i64) (al_planned s)) ≫= fun _ =>
    let new_hash_chain := hash_chain prev_hash_chain address val in
    insert_snapshot t next_index_i64
      (mkSnapshotRow (fr_to_bytes node_hash) (u256_to_be_bytes new_hash_chain)) ≫= fun _ =>
    let gc_threshold := saturating_sub next_index (dt_history_window t) in
    lift (to_i64 "gc threshold" gc_threshold) ≫= fun gc_threshold_i64 =>
    prune_updates t gc_threshold_i64 ≫= fun _ =>
    mret (mkAppendResult next_index leaf_index node_hash new_hash_chain)).

(** ** [prove_many] *)

Fixpoint check_leaf_indices (target_index : Z) (leaf_indices : list Z) : result DbMerkleTreeError unit :=
  match leaf_indices with
  | [] => Ok tt
  | leaf_index :: l =>
    if target_index <=? leaf_index then Err (LeafIndexOutOfBounds leaf_index target_index)
    else check_leaf_indices target_index l
  end.

(** The siblings of a path that the overlay does not answer. *)
Fixpoint prefetch_loop (n : nat) (overlay : gmap BitPath Z) (path : BitPath) (acc : gset BitPath) : gset BitPath :=
  match n with
  | O => acc
  | S n' =>
    let sib := sibling path in
    prefetch_loop n' overlay (pop path).2 (match overlay !! sib with Some _ => acc | None => {[sib]} ∪ acc end)
  end.

(** The siblings of a proof; [cache] is filled with zero hashes on a miss. *)
Fixpoint siblings_loop (n : nat) (t : DbIncrementalMerkleTree) (overlay cache : gmap BitPath Z) (path : BitPath)
  : result DbMerkleTreeError (list Z * gmap BitPath Z) :=
  match n with
  | O => Ok ([], cache)
  | S n' =>
    let sibling_path := sibling path in
    hc ← match overlay !! sibling_path with
         | Some hash => Ok (hash, cache)
         | None =>
           match cache !! sibling_path with
           | Some hash => Ok (hash, cache)
           | None => zero ← zero_hash_for_path t sibling_path; Ok (zero, <[sibling_path := zero]> cache)
           end
         end;
    rest ← siblings_loop n' t overlay hc.2 (pop path).2;
    Ok (hc.1 :: rest.1, rest.2)
  end.

Fixpoint proofs_loop (t : DbIncrementalMerkleTree) (target_index root chain : Z) (overlay cache : gmap BitPath Z)
  (leaf_indices : list Z) : result DbMerkleTreeError (list HistoricalProof) :=
  match leaf_indices with
  | [] => Ok []
  | leaf_index :: l =>
    sc ← siblings_loop (dt_height t) t overlay cache (BitPath_new (Z.of_nat (dt_height t)) leaf_index);
    rest ← proofs_loop t target_index root chain overlay sc.2 l;
    Ok (mkHistoricalProof target_index leaf_index root chain (mkMerkleProof sc.1) :: rest)
  end.

(** The statements that follow the read of [latest_index]. *)
Definition prove_from_latest (t : DbIncrementalMerkleTree) (target_index : Z) (leaf_indices : list Z) (latest_index : Z)
  : M Db DbMerkleTreeError (list HistoricalProof) :=
  if latest_index =? 0 then fail TreeEmpty
  else if latest_index <? target_index then fail (TargetIndexTooHigh target_index latest_index)
  else
    let history_window := dt_history_window t in
    let delta := latest_index - target_index in
    if history_window <? delta then fail (RetentionWindowExceeded target_index history_window)
    else
      lift (check_leaf_indices target_index leaf_indices) ≫= fun _ =>
      load_overlay t (u64_add target_index 1) latest_index ≫= fun overlay =>
      root_at_internal t target_index ≫= fun root_opt =>
      lift (ok_or (MissingRoot target_index) root_opt) ≫= fun root =>
      hash_chain_at_internal t target_index ≫= fun chain_opt =>
      lift (ok_or (MissingHashChain target_index) chain_opt) ≫= fun chain =>
      let prefetch_paths := foldl (fun acc leaf_index =>
        prefetch_loop (dt_height t) overlay (BitPath_new (Z.of_nat (dt_height t)) leaf_index) acc) ∅ leaf_indices in
      (if bool_decide (prefetch_paths = ∅) then mret ∅
       else load_node_hashes t (elements prefetch_paths)) ≫= fun cache =>
      lift (proofs_loop t target_index root chain overlay cache leaf_indices).

Definition prove_many (t : DbIncrementalMerkleTree) (target_index : Z) (leaf_indices : list Z)
  : M Db DbMerkleTreeError (list HistoricalProof) :=
  match leaf_indices with
  | [] => mret []
  | _ =>
    if target_index =? 0 then fail InvalidProofTargetZero
    else transaction (latest_index_internal t ≫= prove_from_latest t target_index leaf_indices)
  end.

Definition DbTree_prove (t : DbIncrementalMerkleTree) (target_index leaf_index : Z)
  : M Db DbMerkleTreeError HistoricalProof :=
  prove_many t target_index [leaf_index] ≫= fun proofs =>
  lift (ok_or (Panicked "prove_many must return one proof for a single leaf") (last proofs)).

Definition latest_index (t : DbIncrementalMerkleTree) : M Db DbMerkleTreeError Z :=
  transaction (latest_index_internal t).
Definition root_at (t : DbIncrementalMerkleTree) (index : Z) : M Db DbMerkleTreeError (option Z) :=
  transaction (root_at_internal t index).
Definition hash_chain_at (t : DbIncrementalMerkleTree) (index : Z) : M Db DbMerkleTreeError (option Z) :=
  transaction (hash_chain_at_internal t index).
End tree_db.
