(* ===== verification/TreeDbSpec.v ===== *)
(** The database tree refines the history of appended leaves: representation
    invariant, preservation by [append_leaf], and correctness of historical
    proofs inside the retention window ([indexer/src/trees/db.rs]). *)

From S2P Require Import Prelude Words Crypto BitPaths MerkleTrees Database TreeDb.
Local Open Scope Z_scope.

(** ** The representation invariant *)

Section spec.
Context {C : Crypto}.

(** The hash of the node at position [p] of a tree of height [h] with leaves [f]. *)
Definition node_of (h : nat) (f : Z -> Z) (p : BitPath) : Z :=
  spec_node f (h - Z.to_nat (bp_length p)) (bp_value p).

(** The same node after the first [i] leaves of the history. *)
Definition node_at (h : nat) (ls : list Leaf) (i : nat) (p : BitPath) : Z :=
  node_of h (history_leaves (take i ls)) p.

Definition zero_node (h : nat) (p : BitPath) : Z := node_of h (fun _ => 0) p.

Definition snapshot_of (h : nat) (ls : list Leaf) (i : nat) : SnapshotRow :=
  mkSnapshotRow (fr_to_bytes (history_root h (take i ls))) (u256_to_be_bytes (history_chain (take i ls))).

Definition update_of (h : nat) (ls : list Leaf) (i : nat) (p : BitPath) : UpdateRow :=
  mkUpdateRow (fr_to_bytes (node_at h ls (i - 1) p)) (fr_to_bytes (node_at h ls i p)).

(** The shape of a tree handle returned by [new]. *)
Record handle_ok (t : DbIncrementalMerkleTree) : Prop := {
  ho_height : (1 <= dt_height t <= 62)%nat;
  ho_zeros : dt_zero_hashes t = compute_zero_hashes (dt_height t);
  ho_window : 0 < dt_history_window t < 2 ^ 64;
}.

(** The tables hold the history [ls] of token [dt_token t]. *)
Record tree_repr (t : DbIncrementalMerkleTree) (d : Db) (ls : list Leaf) : Prop := {
  tr_handle : handle_ok t;
  tr_cap : Z.of_nat (length ls) <= 2 ^ Z.of_nat (dt_height t);
  tr_token : is_Some (tokens d !! dt_token t);
  tr_parts : forall tb, tb = NodesTable \/ tb = UpdatesTable \/ tb = SnapshotsTable ->
    (tb, dt_token t) ∈ partitions d;
  tr_snaps : forall i row, merkle_snapshots d !! (dt_token t, i) = Some row <->
    exists k : nat, i = Z.of_nat k /\ (1 <= k <= length ls)%nat /\ row = snapshot_of (dt_height t) ls k;
  tr_nodes : forall p, bp_in (Z.of_nat (dt_height t)) p ->
    match merkle_nodes_current d !! (dt_token t, to_bytes p) with
    | Some r => nr_hash r = fr_to_bytes (node_at (dt_height t) ls (length ls) p)
    | None => node_at (dt_height t) ls (length ls) p = zero_node (dt_height t) p
    end;
  tr_updates : forall i k row, merkle_node_updates d !! (dt_token t, i, k) = Some row ->
    exists (j : nat) p, i = Z.of_nat j /\ (1 <= j <= length ls)%nat
      /\ Z.of_nat (length ls) - dt_history_window t < i
      /\ bp_in (Z.of_nat (dt_height t)) p /\ k = to_bytes p /\ row = update_of (dt_height t) ls j p;
  tr_complete : forall (j : nat) p, (1 <= j <= length ls)%nat ->
    Z.of_nat (length ls) - dt_history_window t < Z.of_nat j -> bp_in (Z.of_nat (dt_height t)) p ->
    node_at (dt_height t) ls (j - 1) p <> node_at (dt_height t) ls j p ->
    merkle_node_updates d !! (dt_token t, Z.of_nat j, to_bytes p) = Some (update_of (dt_height t) ls j p);
}.
End spec.

(** ** Encodings *)

Lemma fr_to_bytes_eq x : fr_to_bytes x = be_bytes 32 x.
Proof. unfold fr_to_bytes, fr_bigint_bytes_be. by rewrite length_be_bytes. Qed.

Lemma be_val_fr_to_bytes x : is_fr x -> be_val (fr_to_bytes x) = x.
Proof. intros Hx. rewrite fr_to_bytes_eq, be_val_be_bytes. apply Z.mod_small. by apply is_fr_u256. Qed.

Lemma bytes_to_fr_ok bs : length bs = 32%nat -> bytes_to_fr bs = Ok (fr_of_biguint (be_val bs)).
Proof. intros H. unfold bytes_to_fr. by rewrite H. Qed.

Lemma bytes_to_u256_ok bs : length bs = 32%nat -> bytes_to_u256 bs = Ok (be_val bs).
Proof. intros H. unfold bytes_to_u256. by rewrite H. Qed.

Lemma bytes_to_fr_roundtrip x : is_fr x -> bytes_to_fr (fr_to_bytes x) = Ok x.
Proof.
  intros Hx. rewrite fr_to_bytes_eq, bytes_to_fr_ok by apply length_be_bytes. f_equal.
  rewrite be_val_be_bytes, Z.mod_small by by apply is_fr_u256. by apply fr_of_biguint_id.
Qed.

Lemma bytes_to_u256_roundtrip x : in_u256 x -> bytes_to_u256 (u256_to_be_bytes x) = Ok x.
Proof.
  intros Hx. rewrite bytes_to_u256_ok by apply length_be_bytes. f_equal. exact (u256_bytes_roundtrip x Hx).
Qed.

Lemma bytes_to_bit_path_roundtrip p : bp_wf p -> bytes_to_bit_path (to_bytes p) = Ok p.
Proof. intros Hp. unfold bytes_to_bit_path. rewrite length_to_bytes, from_to_bytes by done. done. Qed.

Lemma to_i64_ok label v : v <= i64_max -> to_i64 label v = Ok v.
Proof. intros Hv. unfold to_i64, i64_try_from. by rewrite (proj2 (Z.leb_le _ _)). Qed.

(** ** Batches of rows *)

Lemma insert_decoded_ok m p x :
  bp_wf p -> is_fr x -> insert_decoded m (to_bytes p, fr_to_bytes x) = Ok (<[p := x]> m).
Proof.
  intros Hp Hx. unfold insert_decoded, fst, snd.
  by rewrite bytes_to_bit_path_roundtrip, bytes_to_fr_roundtrip.
Qed.

Lemma insert_first_decoded_ok m p x :
  bp_wf p -> is_fr x ->
  insert_first_decoded m (to_bytes p, fr_to_bytes x)
  = Ok (match m !! p with Some _ => m | None => <[p := x]> m end).
Proof.
  intros Hp Hx. unfold insert_first_decoded, fst, snd.
  rewrite bytes_to_bit_path_roundtrip, bytes_to_fr_roundtrip by done. cbn. by destruct (m !! p).
Qed.

(** Rows that all describe the same assignment [F] decode to its restriction. *)
Lemma decode_rows (F : BitPath -> Z) rows : forall m0,
  (forall r, r ∈ rows -> exists p, bp_wf p /\ is_fr (F p) /\ r = (to_bytes p, fr_to_bytes (F p))) ->
  exists m, fold_result insert_decoded m0 rows = Ok m
    /\ forall p, bp_wf p -> m !! p = if decide (to_bytes p ∈ rows.*1) then Some (F p) else m0 !! p.
Proof.
  induction rows as [|r rows IH]; intros m0 Hrows; cbn [fold_result].
  - exists m0. split; [done|]. intros p _. rewrite decide_False; [done|]. apply not_elem_of_nil.
  - destruct (Hrows r) as (p & Hp & Hfr & ->); [left|].
    rewrite insert_decoded_ok by done. cbn [mbind result_bind]. destruct (IH (<[p := F p]> m0)) as (m & Hm & Hl).
    { intros r Hr. apply Hrows. by right. }
    exists m. split; [exact Hm|]. intros q Hq. rewrite Hl by done.
    destruct (decide (to_bytes q ∈ rows.*1)) as [Hin|Hni].
    + rewrite decide_True; [done|]. by right.
    + rewrite lookup_insert. case_decide as E.
      * subst q. rewrite decide_True; [done|]. left.
      * rewrite decide_False; [done|]. rewrite fmap_cons, not_elem_of_cons. split; [|done]. cbn [fst].
        intros He. apply E. symmetry. by apply to_bytes_inj.
Qed.

(** The first row of each path wins. *)
Definition first_row (k : bytes) (rows : list (bytes * bytes)) : option bytes :=
  snd <$> head (filter (fun r => r.1 = k) rows).

Lemma decode_first_rows rows : forall m0,
  (forall r, r ∈ rows -> exists p x, bp_wf p /\ is_fr x /\ r = (to_bytes p, fr_to_bytes x)) ->
  exists m, fold_result insert_first_decoded m0 rows = Ok m
    /\ forall p, bp_wf p -> m !! p = match m0 !! p with
                                     | Some x => Some x
                                     | None => be_val <$> first_row (to_bytes p) rows
                                     end.
Proof.
  induction rows as [|r rows IH]; intros m0 Hrows; cbn [fold_result].
  - exists m0. split; [done|]. intros p _. unfold first_row. cbn. by destruct (m0 !! p).
  - destruct (Hrows r) as (p & x & Hp & Hfr & ->); [left|].
    assert (forall r, r ∈ rows -> exists p x, bp_wf p /\ is_fr x /\ r = (to_bytes p, fr_to_bytes x)) as Hrows'.
    { intros r Hr. apply Hrows. by right. }
    rewrite insert_first_decoded_ok by done. cbn [mbind result_bind].
    assert (forall q, bp_wf q -> q <> p ->
      first_row (to_bytes q) ((to_bytes p, fr_to_bytes x) :: rows) = first_row (to_bytes q) rows) as Hne.
    { intros q Hq Hqp. unfold first_row. rewrite filter_cons, decide_False; [done|]. cbn.
      intros He. apply Hqp. symmetry. by apply to_bytes_inj. }
    destruct (m0 !! p) as [y|] eqn:Em.
    + destruct (IH m0 Hrows') as (m & Hm & Hl). exists m. split; [exact Hm|]. intros q Hq. rewrite Hl by done.
      destruct (decide (q = p)) as [->|Hqp]; [by rewrite Em|]. by rewrite Hne.
    + destruct (IH (<[p := x]> m0) Hrows') as (m & Hm & Hl). exists m. split; [exact Hm|].
      intros q Hq. rewrite Hl by done. destruct (decide (q = p)) as [->|Hqp].
      * rewrite lookup_insert_eq, Em. unfold first_row. rewrite filter_cons, decide_True by done. cbn [head fmap option_fmap option_map snd].
        by rewrite be_val_fr_to_bytes.
      * by rewrite lookup_insert_ne, Hne.
Qed.

(** Looking up the first row in an ascending selection finds the least index. *)
Lemma first_row_sorted {V} (rows : list ((Z * Z * bytes) * V)) (g : V -> bytes) k :
  StronglySorted (by_key (fun kv : (Z * Z * bytes) * V => kv.1.1.2)) rows ->
  match first_row k ((fun kv => (kv.1.2, g kv.2)) <$> rows) with
  | Some b => exists t i v, ((t, i, k), v) ∈ rows /\ b = g v
      /\ forall t' i' v', ((t', i', k), v') ∈ rows -> i <= i'
  | None => forall t i v, ((t, i, k), v) ∈ rows -> False
  end.
Proof.
  unfold first_row. induction 1 as [|[[[t i] k'] v] rows Hs IH Hall]; cbn [fmap list_fmap].
  - cbn. intros t i v Hin. by apply not_elem_of_nil in Hin.
  - rewrite filter_cons. cbn [fst snd]. case_decide as E.
    + subst k'. cbn. exists t, i, v. split_and!; [left|done|]. intros t' i' v' [Heq|Hin]%elem_of_cons.
      * by injection Heq as -> -> ->.
      * rewrite Forall_forall in Hall. by apply (Hall _ Hin).
    + destruct (head _) as [[k1 b1]|]; cbn in *.
      * destruct IH as (t1 & i1 & v1 & Hin & -> & Hmin). exists t1, i1, v1. split_and!; [by right|done|].
        intros t' i' v' [Heq|Hin']%elem_of_cons; [by injection Heq|]. by eapply Hmin.
      * intros t' i' v' [Heq|Hin']%elem_of_cons; [by injection Heq|]. by eapply IH.
Qed.

(** ** Queries on a represented history *)

Section queries.
Context {C : Crypto} {HC : CryptoLaws C}.

Lemma compute_zero_loop_eq n : forall acc cur, compute_zero_loop n acc cur = zero_loop n acc cur.
Proof. induction n as [|n IH]; intros; cbn; [done|]. apply IH. Qed.

Lemma compute_zero_hashes_lookup h k :
  (k <= h)%nat -> compute_zero_hashes h !! k = Some (spec_node (fun _ => 0) k 0).
Proof.
  intros Hk. unfold compute_zero_hashes. rewrite compute_zero_loop_eq.
  apply (zero_loop_lookup h [0] 0 0); [done..| |lia]. intros j Hj. by replace j with 0%nat by lia.
Qed.

Lemma zero_hash_for_path_spec t p :
  handle_ok t -> bp_in (Z.of_nat (dt_height t)) p -> zero_hash_for_path t p = Ok (zero_node (dt_height t) p).
Proof.
  intros [Hh Hz Hw] [Hl Hv]. unfold zero_hash_for_path, zero_node, node_of, len.
  destruct (_ <? _)%nat eqn:E; [apply Nat.ltb_lt in E; lia|].
  by rewrite Hz, compute_zero_hashes_lookup, (spec_node_zero _ (bp_value p)) by lia.
Qed.

Lemma node_of_fr h ls p : is_fr (node_of h (history_leaves ls) p).
Proof. apply history_node_fr. Qed.

Lemma node_at_full h ls p : node_at h ls (length ls) p = node_of h (history_leaves ls) p.
Proof. unfold node_at. by rewrite take_ge by lia. Qed.

Lemma tree_path_wf t p : handle_ok t -> bp_in (Z.of_nat (dt_height t)) p -> bp_wf p.
Proof. intros [Hh _ _]. apply bp_in_wf. lia. Qed.

Lemma tree_len_bound t d ls : tree_repr t d ls -> Z.of_nat (length ls) <= 2 ^ 62.
Proof.
  intros [[Hh _ _] Hc _ _ _ _ _ _]. pose proof (Z.pow_le_mono_r 2 (Z.of_nat (dt_height t)) 62). lia.
Qed.

Lemma history_chain_u256 ls : in_u256 (history_chain ls).
Proof. apply is_fr_u256, history_chain_fr. Qed.

Lemma latest_snapshot_spec t d ls :
  tree_repr t d ls ->
  latest_snapshot t d
  = if decide (ls = []) then None
    else Some ((dt_token t, Z.of_nat (length ls)), snapshot_of (dt_height t) ls (length ls)).
Proof.
  intros Hr. unfold latest_snapshot. case_decide as E.
  - rewrite select_asc_nil; [done|]. intros [tok i] row Hrow. cbn. apply Z.eqb_neq. intros ->.
    apply Hr in Hrow as (k & _ & Hk & _). subst. cbn in Hk. lia.
  - apply select_asc_head; cbn.
    + apply Hr. exists (length ls). split_and!; try done. destruct ls; [done|]. cbn. lia.
    + apply Z.eqb_refl.
    + intros [tok i] row Hrow Htok%Z.eqb_eq Hne. cbn in *. subst tok.
      apply Hr in Hrow as (k & -> & Hk & _). destruct (decide (k = length ls)) as [->|]; [done|]. lia.
Qed.

Lemma latest_index_spec t d ls :
  tree_repr t d ls -> latest_index_internal t d = (d, Ok (Z.of_nat (length ls))).
Proof.
  intros Hr. pose proof (tree_len_bound _ _ _ Hr). unfold latest_index_internal, gets, mbind, M_bind.
  rewrite (latest_snapshot_spec _ _ _ Hr). unfold mret, M_ret. case_decide as E; [by subst|].
  cbn [fst snd]. by rewrite as_u64_of_i64 by (unfold i64_max; lia).
Qed.

Lemma latest_hash_chain_spec t d ls :
  tree_repr t d ls ->
  latest_hash_chain_internal t d = (d, Ok (if decide (ls = []) then None else Some (history_chain ls))).
Proof.
  intros Hr. unfold latest_hash_chain_internal, gets, mbind, M_bind.
  rewrite (latest_snapshot_spec _ _ _ Hr). unfold lift. case_decide as E; [done|].
  cbn [fmap option_fmap option_map snd snapshot_of sr_hash_chain]. rewrite take_ge by lia.
  by rewrite bytes_to_u256_roundtrip by apply history_chain_u256.
Qed.

Lemma root_at_spec t d ls (k : nat) :
  tree_repr t d ls -> (1 <= k <= length ls)%nat ->
  root_at_internal t (Z.of_nat k) d = (d, Ok (Some (history_root (dt_height t) (take k ls)))).
Proof.
  intros Hr Hk. pose proof (tree_len_bound _ _ _ Hr).
  unfold root_at_internal, gets, lift, mbind, M_bind. rewrite to_i64_ok by (unfold i64_max; lia).
  assert (merkle_snapshots d !! (dt_token t, Z.of_nat k) = Some (snapshot_of (dt_height t) ls k)) as ->.
  { apply Hr. by exists k. }
  cbn [fmap option_fmap option_map snapshot_of sr_root_hash].
  by rewrite bytes_to_fr_roundtrip by apply history_node_fr.
Qed.

Lemma hash_chain_at_spec t d ls (k : nat) :
  tree_repr t d ls -> (1 <= k <= length ls)%nat ->
  hash_chain_at_internal t (Z.of_nat k) d = (d, Ok (Some (history_chain (take k ls)))).
Proof.
  intros Hr Hk. pose proof (tree_len_bound _ _ _ Hr).
  unfold hash_chain_at_internal, gets, lift, mbind, M_bind. rewrite to_i64_ok by (unfold i64_max; lia).
  assert (merkle_snapshots d !! (dt_token t, Z.of_nat k) = Some (snapshot_of (dt_height t) ls k)) as ->.
  { apply Hr. by exists k. }
  cbn [fmap option_fmap option_map snapshot_of sr_hash_chain].
  by rewrite bytes_to_u256_roundtrip by apply history_chain_u256.
Qed.

(** A partial map that answers [F] on [P], zero hashes standing for misses. *)
Definition answers (h : nat) (m : gmap BitPath Z) (P : BitPath -> Prop) (F : BitPath -> Z) : Prop :=
  forall p, P p -> default (zero_node h p) (m !! p) = F p.

Lemma load_node_hashes_spec t d ls paths :
  tree_repr t d ls -> (forall p, p ∈ paths -> bp_in (Z.of_nat (dt_height t)) p) ->
  exists m, load_node_hashes t paths d = (d, Ok m)
    /\ answers (dt_height t) m (fun p => p ∈ paths) (node_of (dt_height t) (history_leaves ls)).
Proof.
  intros Hr Hin. pose proof (tr_handle _ _ _ Hr) as Hh.
  assert (forall p, p ∈ paths -> bp_wf p) as Hwf by (intros; eapply tree_path_wf; eauto).
  destruct paths as [|p0 ps].
  { exists ∅. split; [done|]. intros p Hp. by apply not_elem_of_nil in Hp. }
  unfold load_node_hashes, gets, mbind, M_bind, lift. set (paths := p0 :: ps) in *. clearbody paths.
  set (rows := select _ _).
  destruct (decode_rows (node_of (dt_height t) (history_leaves ls))
     ((fun kv : Z * bytes * NodeRow => (kv.1.2, nr_hash kv.2)) <$> rows) ∅) as (m & -> & Hm).
  { intros r Hrow. apply list_elem_of_fmap in Hrow as ([[tok k] row] & -> & Hrow).
    apply elem_of_select in Hrow as [Hrow Hp]. bool_cases. cbn in H, H0. bool_cases. subst tok.
    apply bool_decide_eq_true in H0. apply list_elem_of_fmap in H0 as (p & -> & Hp).
    pose proof (tr_nodes _ _ _ Hr p (Hin p Hp)) as Hn. rewrite Hrow, node_at_full in Hn.
    exists p. split_and!; [by apply Hwf | apply node_of_fr |]. cbn. by rewrite Hn. }
  exists m. split; [done|]. intros p Hp. rewrite Hm by by apply Hwf.
  pose proof (tr_nodes _ _ _ Hr p (Hin p Hp)) as Hn. rewrite node_at_full in Hn.
  case_decide as Hrow.
  - done.
  - rewrite lookup_empty. cbn. destruct (_ !! _) as [row|] eqn:E; [|done]. exfalso. apply Hrow.
    apply list_elem_of_fmap. exists (to_bytes p, nr_hash row). split; [done|].
    apply list_elem_of_fmap. exists ((dt_token t, to_bytes p), row). split; [done|].
    apply elem_of_select. split; [done|]. cbn. rewrite Z.eqb_refl. apply bool_decide_eq_true.
    apply list_elem_of_fmap. by exists p.
Qed.

(** Between two indices without a logged change a node keeps its hash. *)
Lemma node_at_const h ls p (a b : nat) :
  (a <= b)%nat -> (forall j, (a < j <= b)%nat -> node_at h ls (j - 1) p = node_at h ls j p) ->
  node_at h ls a p = node_at h ls b p.
Proof.
  intros Hab. induction Hab as [|b Hab IH]; intros Hj; [done|].
  rewrite IH by (intros; apply Hj; lia). rewrite <- (Hj (S b)) by lia. f_equal. lia.
Qed.

Lemma load_overlay_spec t d ls (k : nat) :
  tree_repr t d ls -> (1 <= k <= length ls)%nat -> Z.of_nat (length ls) - Z.of_nat k <= dt_history_window t ->
  exists m, load_overlay t (u64_add (Z.of_nat k) 1) (Z.of_nat (length ls)) d = (d, Ok m)
    /\ forall p, bp_in (Z.of_nat (dt_height t)) p ->
         match m !! p with
         | Some x => x = node_of (dt_height t) (history_leaves (take k ls)) p
         | None => node_of (dt_height t) (history_leaves (take k ls)) p
                   = node_of (dt_height t) (history_leaves ls) p
         end.
Proof.
  intros Hr Hk Hw. pose proof (tree_len_bound _ _ _ Hr) as Hlen. pose proof (tr_handle _ _ _ Hr) as Hh.
  unfold load_overlay. unfold u64_add. rewrite Z.mod_small by lia.
  assert (forall (j : nat) p, (k < j <= length ls)%nat -> bp_in (Z.of_nat (dt_height t)) p ->
    merkle_node_updates d !! (dt_token t, Z.of_nat j, to_bytes p) = None ->
    node_at (dt_height t) ls (j - 1) p = node_at (dt_height t) ls j p) as Hquiet.
  { intros j p Hj Hp Hnone. destruct (decide (node_at (dt_height t) ls (j - 1) p = node_at (dt_height t) ls j p)); [done|].
    exfalso. eapply tr_complete in Hr; [| |exact (ltac:(lia) : Z.of_nat (length ls) - dt_history_window t < Z.of_nat j)|done|done];
      [congruence | lia]. }
  if_case E.
  { exists ∅. split; [done|]. intros p _. rewrite lookup_empty. by rewrite take_ge by lia. }
  unfold gets, mbind, M_bind, lift. rewrite !to_i64_ok by (unfold i64_max; lia).
  set (rows := select_asc _ _ _).
  assert (forall tok i b row, ((tok, i, b), row) ∈ rows <->
     merkle_node_updates d !! (tok, i, b) = Some row /\ tok = dt_token t /\ Z.of_nat k + 1 <= i <= Z.of_nat (length ls)) as Hrows.
  { intros. unfold rows. rewrite elem_of_select_asc. cbn. rewrite !andb_true_iff, Z.eqb_eq, !Z.leb_le. tauto. }
  destruct (decode_first_rows ((fun kv : Z * Z * bytes * UpdateRow => (kv.1.2, ur_old_hash kv.2)) <$> rows) ∅) as (m & -> & Hm).
  { intros r Hin. apply list_elem_of_fmap in Hin as ([[[tok i] b] row] & -> & Hin).
    apply Hrows in Hin as (Hrow & -> & Hi). eapply tr_updates in Hrow as (j & p & -> & Hj & _ & Hp & -> & ->); [|done].
    exists p, (node_at (dt_height t) ls (j - 1) p). split_and!; [by eapply tree_path_wf | apply node_of_fr | done]. }
  exists m. split; [done|]. intros p Hp. rewrite Hm by by eapply tree_path_wf. rewrite lookup_empty.
  pose proof (first_row_sorted rows ur_old_hash (to_bytes p) (select_asc_sorted _ _ _)) as Hfirst.
  destruct (first_row _ _) as [b|]; cbn [fmap option_fmap option_map].
  - destruct Hfirst as (tok & i & row & Hin & -> & Hmin). apply Hrows in Hin as (Hrow & -> & Hi).
    eapply tr_updates in Hrow as (j & q & -> & Hj & _ & Hq & Heq & ->); [|done].
    apply to_bytes_inj in Heq as <-; [|by eapply tree_path_wf..]. cbn [update_of ur_old_hash].
    rewrite be_val_fr_to_bytes by apply node_of_fr. symmetry. apply (node_at_const _ _ _ k (j - 1)); [lia|].
    intros j' Hj'. apply Hquiet; [lia|done|]. destruct (_ !! _) as [row'|] eqn:E'; [|done]. exfalso.
    assert (Z.of_nat j <= Z.of_nat j'); [|lia]. eapply (Hmin (dt_token t)), Hrows. split_and!; [done..|lia|lia].
  - rewrite <- (node_at_full _ ls). apply (node_at_const _ _ _ k); [lia|].
    intros j' Hj'. apply Hquiet; [lia|done|]. destruct (_ !! _) as [row'|] eqn:E'; [|done]. exfalso.
    eapply (Hfirst (dt_token t)), Hrows. split_and!; [done..|lia|lia].
Qed.
End queries.

(** ** The ancestors of a leaf *)

Definition anc (h : nat) (idx : Z) (k : nat) : BitPath :=
  mkBitPath (Z.of_nat (h - k)) (idx / 2 ^ Z.of_nat k).

Lemma anc_0 h idx : anc h idx 0 = BitPath_new (Z.of_nat h) idx.
Proof. unfold anc, BitPath_new. by rewrite Nat.sub_0_r, Z.pow_0_r, Z.div_1_r. Qed.

Lemma anc_range h idx k :
  (k <= h)%nat -> 0 <= idx < 2 ^ Z.of_nat h -> 0 <= idx / 2 ^ Z.of_nat k < 2 ^ Z.of_nat (h - k).
Proof.
  intros Hk Hi. split; [apply Z.div_pos; lia|]. apply Z.div_lt_upper_bound; [lia|].
  rewrite <- Z.pow_add_r by lia. replace (Z.of_nat k + Z.of_nat (h - k)) with (Z.of_nat h) by lia. lia.
Qed.

Lemma anc_in h idx k : (k <= h)%nat -> 0 <= idx < 2 ^ Z.of_nat h -> bp_in (Z.of_nat h) (anc h idx k).
Proof. intros Hk Hi. split; cbn; [lia|]. by apply anc_range. Qed.

Lemma anc_top h idx : 0 <= idx < 2 ^ Z.of_nat h -> anc h idx h = BitPath_default.
Proof. intros Hi. unfold anc, BitPath_default. by rewrite Nat.sub_diag, Z.div_small. Qed.

Lemma anc_pop h idx k :
  (k < h)%nat -> 0 <= idx -> pop (anc h idx k) = (Some (Z.odd (idx / 2 ^ Z.of_nat k)), anc h idx (S k)).
Proof.
  intros Hk Hi. rewrite pop_nonempty by (cbn; lia). unfold anc. cbn [bp_length bp_value].
  rewrite div_pow_succ by done. do 2 f_equal. lia.
Qed.

Lemma anc_sibling_in h idx k :
  (k < h)%nat -> 0 <= idx < 2 ^ Z.of_nat h -> bp_in (Z.of_nat h) (sibling (anc h idx k)).
Proof. intros Hk Hi. apply sibling_in; [apply anc_in; [lia|done]|]. cbn. lia. Qed.

Lemma anc_inj h idx j k : (j <= h)%nat -> (k <= h)%nat -> anc h idx j = anc h idx k -> j = k.
Proof. intros Hj Hk H. injection H as H _. lia. Qed.

Lemma sibling_ne p : sibling p <> p.
Proof.
  destruct p as [l v]. intros H. injection H as H. pose proof (lxor_1_half v). pose proof (half_split v).
  destruct (Z.odd v); lia.
Qed.

(** The set prefetched by [append_leaf]: all ancestors and their siblings. *)
Lemma fetch_loop_spec h idx n : forall j acc,
  (j + S n = h)%nat -> 0 <= idx < 2 ^ Z.of_nat h ->
  forall p, p ∈ fetch_loop (S n) (anc h idx j) acc <->
    p ∈ acc \/ exists k, (j <= k < h)%nat /\ (p = sibling (anc h idx k) \/ p = anc h idx (S k)).
Proof.
  induction n as [|n IH]; intros j acc Hj Hi p.
  - cbn [fetch_loop]. rewrite anc_pop by lia. cbn [snd].
    assert (is_empty (anc h idx (S j)) = true) as -> by (unfold is_empty, anc; cbn [bp_length]; apply Z.eqb_eq; lia).
    rewrite !elem_of_union, !elem_of_singleton. split.
    + intros [->|[->|?]]; [right; exists j; (split; [lia|by auto])..|tauto].
    + intros [?|(k & Hk & [->| ->])]; [tauto|..]; replace k with j by lia; auto.
  - cbn [fetch_loop]. rewrite anc_pop by lia. cbn [snd].
    assert (is_empty (anc h idx (S j)) = false) as -> by (unfold is_empty, anc; cbn [bp_length]; apply Z.eqb_neq; lia).
    change (p ∈ fetch_loop (S n) (anc h idx (S j))
              ({[anc h idx (S j)]} ∪ ({[sibling (anc h idx j)]} ∪ acc)) <->
            p ∈ acc \/ exists k, (j <= k < h)%nat /\ (p = sibling (anc h idx k) \/ p = anc h idx (S k))).
    rewrite IH by (try done; lia). rewrite !elem_of_union, !elem_of_singleton. split.
    + intros [[-> |[-> |?]]|(k & Hk & Hp)]; [right; exists j; (split; [lia|by auto])..|tauto|].
      right. exists k. split; [lia|done].
    + intros [?|(k & Hk & Hp)]; [tauto|]. destruct (decide (k = j)) as [->|].
      * destruct Hp as [->| ->]; auto.
      * right. exists k. split; [lia|done].
Qed.

Section append.
Context {C : Crypto} {HC : CryptoLaws C}.

(** The row logged for node [q] when the leaves change from [f] to [g]. *)
Definition change_row (h : nat) (f g : Z -> Z) (q : BitPath) : NodeUpdateRow :=
  mkNodeUpdateRow (to_bytes q) (fr_to_bytes (node_of h f q)) (fr_to_bytes (node_of h g q)).

Definition changed (h : nat) (f g : Z -> Z) (q : BitPath) : Prop := node_of h f q <> node_of h g q.

(** The changed nodes among the ancestors of levels [a .. a + n - 1]. *)
Definition changed_anc (h : nat) (f g : Z -> Z) (idx : Z) (a n : nat) : list BitPath :=
  filter (changed h f g) (anc h idx <$> seq a n).

Lemma changed_anc_S h f g idx a n :
  changed_anc h f g idx a (S n)
  = (if decide (changed h f g (anc h idx a)) then [anc h idx a] else []) ++ changed_anc h f g idx (S a) n.
Proof. unfold changed_anc. cbn [seq fmap list_fmap]. rewrite filter_cons. by case_decide. Qed.

Lemma node_of_anc h f idx k : (k <= h)%nat -> node_of h f (anc h idx k) = spec_node f k (idx / 2 ^ Z.of_nat k).
Proof. intros Hk. unfold node_of, anc. cbn [bp_length bp_value]. f_equal. lia. Qed.

Lemma node_of_sibling h f idx k :
  (k <= h)%nat -> node_of h f (sibling (anc h idx k)) = spec_node f k (Z.lxor (idx / 2 ^ Z.of_nat k) 1).
Proof. intros Hk. unfold node_of, anc, sibling. cbn [bp_length bp_value]. f_equal. lia. Qed.

(** One level of the append loop. *)
Lemma append_step_spec t f idx x j ex pl :
  let h := dt_height t in let g := upd f idx x in
  handle_ok t -> (j < h)%nat -> 0 <= idx < 2 ^ Z.of_nat h ->
  answers h ex (fun p => p = anc h idx j \/ p = sibling (anc h idx j)) (node_of h f) ->
  append_step t (mkAppendLoop ex pl (spec_node g j (idx / 2 ^ Z.of_nat j)) (anc h idx j))
  = Ok (mkAppendLoop
      (if decide (changed h f g (anc h idx j)) then <[anc h idx j := node_of h g (anc h idx j)]> ex else ex)
      (pl ++ (change_row h f g <$> (if decide (changed h f g (anc h idx j)) then [anc h idx j] else [])))
      (spec_node g (S j) (idx / 2 ^ Z.of_nat (S j))) (anc h idx (S j))).
Proof.
  intros h g Hh Hj Hi Hans. unfold append_step. cbn [al_path].
  rewrite (zero_hash_for_path_spec t (anc h idx j)) by (try done; apply anc_in; lia).
  cbn [mbind result_bind al_existing]. fold h. rewrite (Hans (anc h idx j)) by by left.
  rewrite (zero_hash_for_path_spec t (sibling (anc h idx j))) by (try done; apply anc_sibling_in; lia).
  cbn [mbind result_bind]. fold h. rewrite anc_pop by lia. cbn [snd].
  rewrite <- (node_of_anc h g) by lia. unfold plan_update. cbn [al_node_hash al_existing al_planned al_path].
  assert (spec_node g (S j) (idx / 2 ^ Z.of_nat (S j))
    = if Z.odd (idx / 2 ^ Z.of_nat j) then poseidon2 (node_of h f (sibling (anc h idx j))) (node_of h g (anc h idx j))
      else poseidon2 (node_of h g (anc h idx j)) (node_of h f (sibling (anc h idx j)))) as Hpar.
  { rewrite <- div_pow_succ, spec_node_parent, node_of_anc, node_of_sibling by lia.
    assert (spec_node g j (Z.lxor (idx / 2 ^ Z.of_nat j) 1) = spec_node f j (Z.lxor (idx / 2 ^ Z.of_nat j) 1)) as ->; [|done].
    apply spec_node_upd_ne; [lia|]. pose proof (lxor_1_half (idx / 2 ^ Z.of_nat j)).
    pose proof (half_split (idx / 2 ^ Z.of_nat j)). destruct (Z.odd _); lia. }
  assert ((Z.land (value (anc h idx j)) 1 =? 0) = negb (Z.odd (idx / 2 ^ Z.of_nat j))) as Hodd.
  { unfold value, anc. cbn [bp_value]. rewrite land_1, Zmod_odd. by destruct (Z.odd _). }
  unfold changed. destruct (node_of h f (anc h idx j) =? node_of h g (anc h idx j)) eqn:E; bool_cases.
  - rewrite !decide_False by (intros Hn; by apply Hn). cbn [al_existing al_planned al_node_hash fmap list_fmap].
    rewrite (Hans (sibling (anc h idx j))) by by right. rewrite Hodd, Hpar, app_nil_r.
    by destruct (Z.odd _).
  - rewrite !decide_True by done. cbn [al_existing al_planned al_node_hash fmap list_fmap].
    rewrite lookup_insert_ne by (intros Hn; by apply (sibling_ne (anc h idx j))).
    rewrite (Hans (sibling (anc h idx j))) by by right. rewrite Hodd, Hpar. by destruct (Z.odd _).
Qed.

Lemma append_loop_spec t f idx x n : forall j ex pl,
  let h := dt_height t in let g := upd f idx x in
  handle_ok t -> (j + n = h)%nat -> 0 <= idx < 2 ^ Z.of_nat h ->
  answers h ex (fun p => exists k, (j <= k)%nat /\ ((k <= h)%nat /\ p = anc h idx k \/ (k < h)%nat /\ p = sibling (anc h idx k)))
    (node_of h f) ->
  exists ex', append_loop n t (mkAppendLoop ex pl (spec_node g j (idx / 2 ^ Z.of_nat j)) (anc h idx j))
    = Ok (mkAppendLoop ex' (pl ++ (change_row h f g <$> changed_anc h f g idx j n)) (spec_node g h 0) BitPath_default)
    /\ answers h ex' (fun p => p = BitPath_default) (node_of h f).
Proof.
  induction n as [|n IH]; intros j ex pl h g Hh Hj Hi Hans; cbn [append_loop].
  - replace j with h in * by lia. exists ex. rewrite anc_top, Z.div_small, app_nil_r by done. split; [done|].
    intros p ->. apply Hans. exists h. split; [lia|]. left. by rewrite anc_top.
  - subst h g. rewrite append_step_spec; [|done|lia|done|].
    2:{ intros p Hp. apply Hans. exists j. split; [lia|]. destruct Hp as [->| ->]; [left|right]; split; [lia|done|lia|done]. }
    cbn [mbind result_bind].
    match goal with |- context [append_loop n t (mkAppendLoop ?e ?p _ _)] => destruct (IH (S j) e p) as (ex' & -> & Ha) end;
      [done | lia | done | |].
    + intros p (k & Hk & Hp). assert (p <> anc (dt_height t) idx j) as Hne.
      { intros ->. destruct Hp as [[? Hp]|[? Hp]]; injection Hp as Hp _; lia. }
      case_decide; [rewrite lookup_insert_ne by done|]; apply Hans; exists k; (split; [lia|done]).
    + exists ex'. split; [|done]. do 2 f_equal. by rewrite changed_anc_S, fmap_app, app_assoc.
Qed.

Lemma insert_update_ok t i d u :
  merkle_node_updates d !! (dt_token t, i, path_bytes u) = None -> (UpdatesTable, dt_token t) ∈ partitions d ->
  insert_update t i d u
  = Ok (set_updates (<[(dt_token t, i, path_bytes u) := mkUpdateRow (old_bytes u) (new_bytes u)]>
                       (merkle_node_updates d)) d).
Proof. intros H1 H2. unfold insert_update. by rewrite H1, bool_decide_eq_true_2. Qed.

Lemma upsert_node_ok t i d u :
  (NodesTable, dt_token t) ∈ partitions d ->
  upsert_node t i d u
  = Ok (set_nodes (<[(dt_token t, path_bytes u) := mkNodeRow (new_bytes u) i]> (merkle_nodes_current d)) d).
Proof. intros H. unfold upsert_node. by rewrite bool_decide_eq_true_2. Qed.

(** Writing a batch of changed nodes. *)
Lemma insert_updates_spec t i h f g qs : forall d,
  NoDup qs -> (forall q, q ∈ qs -> bp_wf q) -> (UpdatesTable, dt_token t) ∈ partitions d ->
  (forall q, q ∈ qs -> merkle_node_updates d !! (dt_token t, i, to_bytes q) = None) ->
  exists m, fold_result (insert_update t i) d (change_row h f g <$> qs) = Ok (set_updates m d)
    /\ (forall q, q ∈ qs -> m !! (dt_token t, i, to_bytes q)
                            = Some (mkUpdateRow (fr_to_bytes (node_of h f q)) (fr_to_bytes (node_of h g q))))
    /\ forall key, (forall q, q ∈ qs -> key <> (dt_token t, i, to_bytes q)) -> m !! key = merkle_node_updates d !! key.
Proof.
  induction qs as [|q qs IH]; intros d Hnd Hwf Hpart Hfresh; cbn [fmap list_fmap fold_result].
  - exists (merkle_node_updates d). split_and!; [by destruct d | | done]. intros q Hq. by apply not_elem_of_nil in Hq.
  - apply NoDup_cons in Hnd as [Hq Hnd]. rewrite insert_update_ok by (try done; apply Hfresh; left).
    cbn [mbind result_bind path_bytes change_row old_bytes new_bytes].
    assert (forall q', q' ∈ qs -> (dt_token t, i, to_bytes q') <> (dt_token t, i, to_bytes q)) as Hne.
    { intros q' Hq' He. apply (f_equal snd) in He. apply to_bytes_inj in He as ->; [done | apply Hwf; by right | apply Hwf; left]. }
    match goal with |- context [fold_result _ ?d1 _] => destruct (IH d1) as (m & Hm & Hin & Hout) end.
    + done.
    + intros. apply Hwf. by right.
    + done.
    + intros q' Hq'. cbn. rewrite lookup_insert_ne by (intros He; by apply (Hne q')). apply Hfresh. by right.
    + exists m. split_and!; [exact Hm | |].
      * intros q' [->|Hq']%elem_of_cons; [|by apply Hin]. rewrite Hout by (intros q' Hq' He; by apply (Hne q')).
        cbn. by rewrite lookup_insert_eq.
      * intros key Hkey. rewrite Hout by (intros; apply Hkey; by right). cbn.
        rewrite lookup_insert_ne; [done|]. intros <-. by apply (Hkey q); [left|].
Qed.

Lemma upsert_nodes_spec t i h f g qs : forall d,
  NoDup qs -> (forall q, q ∈ qs -> bp_wf q) -> (NodesTable, dt_token t) ∈ partitions d ->
  exists m, fold_result (upsert_node t i) d (change_row h f g <$> qs) = Ok (set_nodes m d)
    /\ (forall q, q ∈ qs -> m !! (dt_token t, to_bytes q) = Some (mkNodeRow (fr_to_bytes (node_of h g q)) i))
    /\ forall key, (forall q, q ∈ qs -> key <> (dt_token t, to_bytes q)) -> m !! key = merkle_nodes_current d !! key.
Proof.
  induction qs as [|q qs IH]; intros d Hnd Hwf Hpart; cbn [fmap list_fmap fold_result].
  - exists (merkle_nodes_current d). split_and!; [by destruct d | | done]. intros q Hq. by apply not_elem_of_nil in Hq.
  - apply NoDup_cons in Hnd as [Hq Hnd]. rewrite upsert_node_ok by done.
    cbn [mbind result_bind path_bytes change_row new_bytes].
    match goal with |- context [fold_result _ ?d1 _] => destruct (IH d1) as (m & Hm & Hin & Hout) end; [done| |done|].
    { intros. apply Hwf. by right. }
    exists m. split_and!; [exact Hm | |].
    + intros q' [->|Hq']%elem_of_cons; [|by apply Hin]. rewrite Hout.
      * cbn. by rewrite lookup_insert_eq.
      * intros q' Hq' He. apply (f_equal snd) in He. apply to_bytes_inj in He as ->; [done | apply Hwf; left | apply Hwf; by right].
    + intros key Hkey. rewrite Hout by (intros; apply Hkey; by right). cbn.
      rewrite lookup_insert_ne; [done|]. intros <-. by apply (Hkey q); [left|].
Qed.
End append.

(** ** [append_leaf] on a represented history *)

Section append_refines.
Context {C : Crypto} {HC : CryptoLaws C}.

Lemma changed_anc_last h f g idx n :
  changed_anc h f g idx 0 (S n)
  = changed_anc h f g idx 0 n ++ (if decide (changed h f g (anc h idx n)) then [anc h idx n] else []).
Proof.
  unfold changed_anc. rewrite seq_S, fmap_app, filter_app. f_equal.
Qed.

Lemma NoDup_changed_anc h f g idx n : (n <= S h)%nat -> NoDup (changed_anc h f g idx 0 n).
Proof.
  intros Hn. apply NoDup_filter, NoDup_fmap_2_strong; [|apply NoDup_seq].
  intros j k Hj%elem_of_seq Hk%elem_of_seq. apply anc_inj; lia.
Qed.

Lemma elem_of_changed_anc h f g idx q :
  q ∈ changed_anc h f g idx 0 (S h) <-> changed h f g q /\ exists k, (k <= h)%nat /\ q = anc h idx k.
Proof.
  unfold changed_anc. rewrite list_elem_of_filter, list_elem_of_fmap. split.
  - intros (Hc & k & -> & Hk%elem_of_seq). split; [done|]. exists k. split; [lia|done].
  - intros (Hc & k & Hk & ->). split; [done|]. exists k. split; [done|]. apply elem_of_seq. lia.
Qed.

(** Only ancestors of the written leaf change. *)
Lemma changed_is_anc h f idx x q :
  0 <= idx -> bp_in (Z.of_nat h) q -> changed h f (upd f idx x) q -> exists k, (k <= h)%nat /\ q = anc h idx k.
Proof.
  intros Hi [Hl Hv] Hc. exists (h - Z.to_nat (bp_length q))%nat. split; [lia|].
  destruct (decide (bp_value q = idx / 2 ^ Z.of_nat (h - Z.to_nat (bp_length q)))) as [E|E].
  - unfold anc. rewrite <- E. destruct q as [l v]. cbn in *. f_equal. lia.
  - exfalso. apply Hc. symmetry. by apply spec_node_upd_ne.
Qed.

Definition run_plan (t : DbIncrementalMerkleTree) (i : Z) (planned : list NodeUpdateRow) : M Db DbMerkleTreeError unit :=
  if bool_decide (planned = []) then mret tt
  else run_batch (insert_update t i) planned ≫= fun _ => run_batch (upsert_node t i) planned.

(** What the two batch statements leave in the tables. *)
Lemma run_plan_spec t i h f g qs d :
  NoDup qs -> (forall q, q ∈ qs -> bp_wf q) ->
  (UpdatesTable, dt_token t) ∈ partitions d -> (NodesTable, dt_token t) ∈ partitions d ->
  (forall q, q ∈ qs -> merkle_node_updates d !! (dt_token t, i, to_bytes q) = None) ->
  exists mu mn, run_plan t i (change_row h f g <$> qs) d = (set_nodes mn (set_updates mu d), Ok tt)
    /\ (forall q, q ∈ qs -> mu !! (dt_token t, i, to_bytes q)
                            = Some (mkUpdateRow (fr_to_bytes (node_of h f q)) (fr_to_bytes (node_of h g q))))
    /\ (forall key, (forall q, q ∈ qs -> key <> (dt_token t, i, to_bytes q)) -> mu !! key = merkle_node_updates d !! key)
    /\ (forall q, q ∈ qs -> mn !! (dt_token t, to_bytes q) = Some (mkNodeRow (fr_to_bytes (node_of h g q)) i))
    /\ forall key, (forall q, q ∈ qs -> key <> (dt_token t, to_bytes q)) -> mn !! key = merkle_nodes_current d !! key.
Proof.
  intros Hnd Hwf Hpu Hpn Hfresh.
  destruct (insert_updates_spec t i h f g qs d) as (mu & Hmu & H1 & H2); [done..|].
  destruct (upsert_nodes_spec t i h f g qs (set_updates mu d)) as (mn & Hmn & H3 & H4); [done..|].
  exists mu, mn. split_and!; [|done..]. unfold run_plan. case_bool_decide as E.
  - apply fmap_nil_inv in E. subst qs. cbn [fmap list_fmap fold_result] in Hmu, Hmn.
    assert (set_updates mu d = d) as Hd by congruence.
    assert (set_nodes mn (set_updates mu d) = set_updates mu d) as Hd' by congruence. by rewrite Hd', Hd.
  - unfold run_batch, mbind, M_bind. by rewrite Hmu, Hmn.
Qed.

(** Tables and rows that an operation on one token leaves alone. *)
Record tree_frame (tok : Z) (d d' : Db) : Prop := {
  fr_tokens : tokens d' = tokens d;
  fr_next : next_token_id d' = next_token_id d;
  fr_partitions : partitions d' = partitions d;
  fr_events : indexed_transfer_events d' = indexed_transfer_events d;
  fr_event_state : event_indexer_state d' = event_indexer_state d;
  fr_leases : leases d' = leases d;
  fr_ivc : root_ivc_proofs d' = root_ivc_proofs d;
  fr_prover : root_prover_state d' = root_prover_state d;
  fr_nodes : forall o k, o <> tok -> merkle_nodes_current d' !! (o, k) = merkle_nodes_current d !! (o, k);
  fr_updates : forall o i k, o <> tok -> merkle_node_updates d' !! (o, i, k) = merkle_node_updates d !! (o, i, k);
  fr_snapshots : forall o i, o <> tok -> merkle_snapshots d' !! (o, i) = merkle_snapshots d !! (o, i);
}.

Global Instance tree_frame_preorder tok : PreOrder (tree_frame tok).
Proof.
  split; [by split|]. intros d1 d2 d3 [] []. split; [congruence..| | |]; intros.
  - rewrite fr_nodes1, fr_nodes0 by done. done.
  - rewrite fr_updates1, fr_updates0 by done. done.
  - rewrite fr_snapshots1, fr_snapshots0 by done. done.
Qed.

Lemma tree_repr_frame t tok d d' ls :
  tree_frame tok d d' -> dt_token t <> tok -> tree_repr t d ls -> tree_repr t d' ls.
Proof.
  intros [F1 _ F2 _ _ _ _ _ F8 F9 F10] Hne [H1 H2 H3 H4 H5 H6 H7 H8]. split; try done.
  - by rewrite F1.
  - by rewrite F2.
  - intros i row. by rewrite F10.
  - intros p Hp. rewrite F8 by done. by apply H6.
  - intros i k row. rewrite F9 by done. apply H7.
  - intros j p ? ? ? ?. rewrite F9 by done. by apply H8.
Qed.

(** The state after an append, table by table. *)
Record appended (t : DbIncrementalMerkleTree) (d d' : Db) (ls : list Leaf) (l : Leaf) : Prop := {
  ap_frame : tree_frame (dt_token t) d d';
  ap_snaps : merkle_snapshots d' = <[(dt_token t, Z.of_nat (S (length ls))) :=
    snapshot_of (dt_height t) (ls ++ [l]) (S (length ls))]> (merkle_snapshots d);
  ap_nodes_new : forall p, bp_in (Z.of_nat (dt_height t)) p ->
    changed (dt_height t) (history_leaves ls) (history_leaves (ls ++ [l])) p ->
    exists i, merkle_nodes_current d' !! (dt_token t, to_bytes p)
      = Some (mkNodeRow (fr_to_bytes (node_of (dt_height t) (history_leaves (ls ++ [l])) p)) i);
  ap_nodes_old : forall p, bp_in (Z.of_nat (dt_height t)) p ->
    ~ changed (dt_height t) (history_leaves ls) (history_leaves (ls ++ [l])) p ->
    merkle_nodes_current d' !! (dt_token t, to_bytes p) = merkle_nodes_current d !! (dt_token t, to_bytes p);
  ap_updates : forall i k row, merkle_node_updates d' !! (dt_token t, i, k) = Some row <->
    Z.max 0 (Z.of_nat (S (length ls)) - dt_history_window t) < i /\
    (merkle_node_updates d !! (dt_token t, i, k) = Some row
     \/ i = Z.of_nat (S (length ls)) /\ exists p, bp_in (Z.of_nat (dt_height t)) p /\ k = to_bytes p
        /\ changed (dt_height t) (history_leaves ls) (history_leaves (ls ++ [l])) p
        /\ row = mkUpdateRow (fr_to_bytes (node_of (dt_height t) (history_leaves ls) p))
                   (fr_to_bytes (node_of (dt_height t) (history_leaves (ls ++ [l])) p)));
}.

Lemma node_at_app h ls l (j : nat) p : (j <= length ls)%nat -> node_at h (ls ++ [l]) j p = node_at h ls j p.
Proof. intros Hj. unfold node_at. by rewrite take_app_le. Qed.

Lemma node_at_snoc h ls l p : node_at h (ls ++ [l]) (S (length ls)) p = node_of h (history_leaves (ls ++ [l])) p.
Proof. unfold node_at. rewrite take_ge; [done|]. rewrite length_app. cbn. lia. Qed.

Lemma snapshot_of_app h ls l (j : nat) : (j <= length ls)%nat -> snapshot_of h (ls ++ [l]) j = snapshot_of h ls j.
Proof. intros Hj. unfold snapshot_of. by rewrite take_app_le. Qed.

Lemma update_of_app h ls l (j : nat) p : (j <= length ls)%nat -> update_of h (ls ++ [l]) j p = update_of h ls j p.
Proof. intros Hj. unfold update_of. by rewrite !node_at_app by lia. Qed.

Lemma update_of_snoc h ls l p :
  update_of h (ls ++ [l]) (S (length ls)) p
  = mkUpdateRow (fr_to_bytes (node_of h (history_leaves ls) p)) (fr_to_bytes (node_of h (history_leaves (ls ++ [l])) p)).
Proof.
  unfold update_of. rewrite node_at_snoc. cbn [Nat.sub]. rewrite Nat.sub_0_r, node_at_app by lia.
  by rewrite node_at_full.
Qed.

Lemma tree_repr_updates t d d' ls l :
  tree_repr t d ls -> appended t d d' ls l ->
  forall i k row, merkle_node_updates d' !! (dt_token t, i, k) = Some row ->
  exists (j : nat) p, i = Z.of_nat j /\ (1 <= j <= length (ls ++ [l]))%nat
    /\ Z.of_nat (length (ls ++ [l])) - dt_history_window t < i
    /\ bp_in (Z.of_nat (dt_height t)) p /\ k = to_bytes p /\ row = update_of (dt_height t) (ls ++ [l]) j p.
Proof.
  intros Hr Ha i k row Hrow. apply (ap_updates _ _ _ _ _ Ha) in Hrow as [Hi Hrow]. rewrite length_app. cbn [length].
  destruct Hrow as [Hrow|(-> & p & Hp & -> & _ & ->)].
  - apply Hr in Hrow as (j & p & -> & Hj & _ & Hp & -> & ->). exists j, p.
    rewrite update_of_app by lia. split_and!; try done; lia.
  - exists (S (length ls)), p. rewrite update_of_snoc. split_and!; try done; lia.
Qed.

Lemma appended_repr t d d' ls l :
  tree_repr t d ls -> Z.of_nat (length ls) < 2 ^ Z.of_nat (dt_height t) ->
  appended t d d' ls l -> tree_repr t d' (ls ++ [l]).
Proof.
  intros Hr Hcap Ha. pose proof (ap_frame _ _ _ _ _ Ha) as F.
  split; [apply Hr| | | | | |by eapply tree_repr_updates|].
  - rewrite length_app. cbn. lia.
  - rewrite (fr_tokens _ _ _ F). apply Hr.
  - rewrite (fr_partitions _ _ _ F). apply Hr.
  - intros i row. rewrite (ap_snaps _ _ _ _ _ Ha), lookup_insert, length_app. cbn [length]. case_decide as E.
    + injection E as <-. split; [intros [= <-]; exists (S (length ls)); split_and!; done || lia|].
      intros (k & Hk & _ & ->). by replace k with (S (length ls)) by lia.
    + rewrite (tr_snaps _ _ _ Hr). split; intros (k & -> & Hk & ->); exists k.
      * rewrite snapshot_of_app by lia. split_and!; done || lia.
      * assert (k <> S (length ls)) by (intros ->; done). rewrite snapshot_of_app by lia. split_and!; done || lia.
  - intros p Hp. replace (length (ls ++ [l])) with (S (length ls)) by (rewrite length_app; cbn; lia).
    rewrite node_at_snoc.
    destruct (decide (changed (dt_height t) (history_leaves ls) (history_leaves (ls ++ [l])) p)) as [Hc|Hc].
    + destruct (ap_nodes_new _ _ _ _ _ Ha p Hp Hc) as [i ->]. done.
    + rewrite (ap_nodes_old _ _ _ _ _ Ha p Hp Hc). pose proof (tr_nodes _ _ _ Hr p Hp) as Hn.
      rewrite node_at_full in Hn. apply dec_stable in Hc. by rewrite <- Hc.
  - intros j p Hj Hw Hp Hne. rewrite length_app in Hj, Hw. cbn [length] in *. apply (ap_updates _ _ _ _ _ Ha).
    split; [lia|]. destruct (decide (j = S (length ls))) as [->|].
    + right. split; [done|]. exists p. rewrite update_of_snoc. split_and!; try done.
      rewrite node_at_snoc in Hne. cbn [Nat.sub] in Hne. rewrite Nat.sub_0_r, node_at_app, node_at_full in Hne by lia. done.
    + left. rewrite update_of_app by lia. rewrite !node_at_app in Hne by lia. apply Hr; done || lia.
Qed.
End append_refines.

Section append_run.
Context {C : Crypto} {HC : CryptoLaws C}.

Lemma fetched_answers t d ls (idx : Z) :
  tree_repr t d ls -> 0 <= idx < 2 ^ Z.of_nat (dt_height t) ->
  exists m, load_node_hashes t
      (elements (fetch_loop (dt_height t) (BitPath_new (Z.of_nat (dt_height t)) idx)
                   {[BitPath_new (Z.of_nat (dt_height t)) idx]})) d = (d, Ok m)
    /\ answers (dt_height t) m
         (fun p => exists k, (0 <= k)%nat /\ ((k <= dt_height t)%nat /\ p = anc (dt_height t) idx k
                             \/ (k < dt_height t)%nat /\ p = sibling (anc (dt_height t) idx k)))
         (node_of (dt_height t) (history_leaves ls)).
Proof.
  intros Hr Hi. pose proof (tr_handle _ _ _ Hr) as [Hh _ _]. rewrite <- anc_0.
  destruct (dt_height t) as [|h] eqn:Eh; [lia|]. pose proof (fetch_loop_spec (S h) idx h 0 {[anc (S h) idx 0]} eq_refl Hi) as Hf.
  assert (forall p, p ∈ fetch_loop (S h) (anc (S h) idx 0) {[anc (S h) idx 0]} <->
    exists k, (0 <= k)%nat /\ ((k <= S h)%nat /\ p = anc (S h) idx k \/ (k < S h)%nat /\ p = sibling (anc (S h) idx k))) as Hf'.
  { intros p. rewrite Hf, elem_of_singleton. split.
    - intros [->|(k & Hk & [->| ->])]; [exists 0%nat|exists k|exists (S k)]; (split; [lia|]);
        [left|right|left]; (split; [lia|done]).
    - intros (k & _ & [[Hk ->]|[Hk ->]]).
      + destruct k as [|k]; [by left|]. right. exists k. split; [lia|by right].
      + right. exists k. split; [lia|by left]. }
  destruct (load_node_hashes_spec t d ls (elements (fetch_loop (S h) (anc (S h) idx 0) {[anc (S h) idx 0]})))
    as (m & Hm & Hans); [done| |].
  - intros p Hp. rewrite elem_of_elements, Hf' in Hp. rewrite Eh.
    destruct Hp as (k & _ & [[Hk ->]|[Hk ->]]); [by apply anc_in | by apply anc_sibling_in].
  - exists m. split; [exact Hm|]. rewrite Eh in Hans. intros p Hp. apply Hans. by rewrite elem_of_elements, Hf'.
Qed.

(** The in-memory part of [append_leaf]: the planned rows and the new root. *)
Lemma append_plan t d ls l m :
  let h := dt_height t in let n := Z.of_nat (length ls) in
  let f := history_leaves ls in let g := upd f n (Leaf_hash l) in
  tree_repr t d ls -> n < 2 ^ Z.of_nat h ->
  answers h m (fun p => exists k, (0 <= k)%nat /\ ((k <= h)%nat /\ p = anc h n k
                             \/ (k < h)%nat /\ p = sibling (anc h n k))) (node_of h f) ->
  exists s, append_loop h t (mkAppendLoop m [] (Leaf_hash l) (BitPath_new (Z.of_nat h) n)) = Ok s
    /\ plan_update s BitPath_default (default (zero_node h BitPath_default) (al_existing s !! BitPath_default))
       = mkAppendLoop (al_existing (plan_update s BitPath_default
           (default (zero_node h BitPath_default) (al_existing s !! BitPath_default))))
           (change_row h f g <$> changed_anc h f g n 0 (S h)) (spec_node g h 0) BitPath_default.
Proof.
  intros h n f g Hr Hn Hans. assert (0 <= n < 2 ^ Z.of_nat h) as Hi by lia.
  destruct (append_loop_spec t f n (Leaf_hash l) h 0 m []) as (ex & Hloop & Hroot);
    [apply Hr | lia | done | done |].
  assert (spec_node g 0 (n / 2 ^ Z.of_nat 0) = Leaf_hash l) as Hleaf.
  { cbn [spec_node]. rewrite Z.pow_0_r, Z.div_1_r. unfold g, upd. by rewrite Z.eqb_refl. }
  fold h g in Hloop. fold h in Hroot. rewrite Hleaf, anc_0 in Hloop. eexists; split; [exact Hloop|].
  cbn [al_existing app]. rewrite (Hroot BitPath_default) by done.
  rewrite changed_anc_last, fmap_app, anc_top by done.
  assert (node_of h g BitPath_default = spec_node g h 0) as Hg.
  { unfold node_of, BitPath_default. cbn [bp_length bp_value]. f_equal. lia. }
  unfold plan_update. cbn [al_node_hash al_existing al_planned al_path].
  unfold changed. rewrite Hg. destruct (_ =? _) eqn:E; bool_cases.
  - rewrite decide_False by (intros Hne; by apply Hne). cbn [fmap list_fmap]. by rewrite app_nil_r.
  - rewrite decide_True by done. cbn [fmap list_fmap al_existing]. unfold change_row. by rewrite Hg.
Qed.

(** The statements of [append_leaf], once the plan is known. *)
Definition append_writes (t : DbIncrementalMerkleTree) (n : nat) (planned : list NodeUpdateRow) (root chain : Z)
  : M Db DbMerkleTreeError AppendResult :=
  run_plan t (Z.of_nat (S n)) planned ≫= fun _ =>
  insert_snapshot t (Z.of_nat (S n)) (mkSnapshotRow (fr_to_bytes root) (u256_to_be_bytes chain)) ≫= fun _ =>
  lift (to_i64 "gc threshold" (saturating_sub (Z.of_nat (S n)) (dt_history_window t))) ≫= fun gc =>
  prune_updates t gc ≫= fun _ =>
  mret (mkAppendResult (Z.of_nat (S n)) (Z.of_nat n) root chain).

Lemma append_leaf_writes t d ls a v :
  let l := mkLeaf a v in let h := dt_height t in let n := Z.of_nat (length ls) in
  let f := history_leaves ls in let g := upd f n (Leaf_hash l) in
  tree_repr t d ls -> n < 2 ^ Z.of_nat h ->
  append_leaf t a v d
  = transaction (append_writes t (length ls) (change_row h f g <$> changed_anc h f g n 0 (S h))
      (spec_node g h 0) (history_chain (ls ++ [l]))) d.
Proof.
  intros l h n f g Hr Hn. pose proof (tree_len_bound _ _ _ Hr) as Hlen.
  unfold append_leaf. unfold transaction at 1 2.
  assert (u64_add n 1 = Z.of_nat (S (length ls))) as Hnext by (unfold u64_add; rewrite Z.mod_small; lia).
  rewrite (M_bind_run _ _ d d tt).
  2:{ unfold lock_token_row, gets, mbind, M_bind. destruct (tr_token _ _ _ Hr) as [row ->]. done. }
  rewrite (M_bind_run _ _ d d n) by by apply latest_index_spec. cbv zeta. rewrite Hnext.
  rewrite (M_bind_run _ _ d d n).
  2:{ apply lift_run. unfold checked_sub. if_case E; [lia|]. cbn [ok_or]. f_equal. lia. }
  rewrite (M_bind_run _ _ d d _ (latest_hash_chain_spec t d ls Hr)).
  rewrite (M_bind_run _ _ d d (Z.of_nat (S (length ls)))) by (apply lift_run, to_i64_ok; unfold i64_max; lia).
  destruct (fetched_answers t d ls n Hr) as (m & Hm & Hans); [subst h n; lia|]. fold h in Hm, Hans |- *.
  rewrite (M_bind_run _ _ d d m Hm).
  destruct (append_plan t d ls l m Hr Hn Hans) as (s & Hs & Hplan). fold h n f g in Hs, Hplan.
  change (compute_leaf_hash (address_to_fr a) (u256_to_fr v)) with (Leaf_hash l).
  rewrite (M_bind_run _ _ d d s) by by apply lift_run.
  rewrite (M_bind_run _ _ d d (zero_node h BitPath_default)).
  2:{ apply lift_run, zero_hash_for_path_spec; [apply Hr|]. split; cbn; lia. }
  rewrite Hplan. cbn [al_planned al_node_hash].
  assert (default 0 (if decide (ls = []) then None else Some (history_chain ls)) = history_chain ls) as ->.
  { case_decide; [by subst|done]. }
  rewrite history_chain_snoc. reflexivity.
Qed.
End append_run.

Section append_done.
Context {C : Crypto} {HC : CryptoLaws C}.

Lemma node_of_snoc h ls l p :
  0 <= bp_value p ->
  node_of h (upd (history_leaves ls) (Z.of_nat (length ls)) (Leaf_hash l)) p = node_of h (history_leaves (ls ++ [l])) p.
Proof.
  intros Hp. symmetry. apply spec_node_ext. intros j Hj. apply history_leaves_snoc.
  assert (0 <= bp_value p * 2 ^ Z.of_nat (h - Z.to_nat (bp_length p))) by (apply Z.mul_nonneg_nonneg; lia). lia.
Qed.

Lemma changed_snoc h ls l p :
  0 <= bp_value p ->
  changed h (history_leaves ls) (upd (history_leaves ls) (Z.of_nat (length ls)) (Leaf_hash l)) p
  <-> changed h (history_leaves ls) (history_leaves (ls ++ [l])) p.
Proof. intros Hp. unfold changed. by rewrite node_of_snoc. Qed.

(** The nodes written by an append: exactly those whose hash changes. *)
Lemma written_nodes t ls l p :
  let h := dt_height t in let n := Z.of_nat (length ls) in
  let f := history_leaves ls in let g := upd f n (Leaf_hash l) in
  n < 2 ^ Z.of_nat h ->
  p ∈ changed_anc h f g n 0 (S h) <-> bp_in (Z.of_nat h) p /\ changed h f (history_leaves (ls ++ [l])) p.
Proof.
  intros h n f g Hn. rewrite elem_of_changed_anc. split.
  - intros (Hc & k & Hk & ->). assert (bp_in (Z.of_nat h) (anc h n k)) as Hin by (apply anc_in; lia).
    split; [done|]. apply changed_snoc; [apply Hin|done].
  - intros (Hp & Hc). assert (changed h f g p) as Hc' by (apply changed_snoc; [apply Hp|done]).
    split; [done|]. apply (changed_is_anc h f n (Leaf_hash l)); [lia|done|done].
Qed.

(** The rows of a batch insert, by key. *)
Lemma batch_lookup {V} (m m' : gmap (Z * Z * bytes) V) tok i (qs : list BitPath) (rowf : BitPath -> V) :
  (forall q, q ∈ qs -> m' !! (tok, i, to_bytes q) = Some (rowf q)) ->
  (forall key, (forall q, q ∈ qs -> key <> (tok, i, to_bytes q)) -> m' !! key = m !! key) ->
  (forall q, q ∈ qs -> m !! (tok, i, to_bytes q) = None) ->
  forall o j k row, m' !! (o, j, k) = Some row
    <-> m !! (o, j, k) = Some row \/ o = tok /\ j = i /\ exists q, q ∈ qs /\ k = to_bytes q /\ row = rowf q.
Proof.
  intros Hin Hout Hfresh o j k row.
  destruct (decide (o = tok /\ j = i /\ k ∈ (to_bytes <$> qs))) as [(-> & -> & Hk)|Hno].
  - apply list_elem_of_fmap in Hk as (q & -> & Hq). rewrite (Hin q Hq), (Hfresh q Hq). split.
    + intros [= <-]. right. split_and!; [done..|]. by exists q.
    + intros [?|(_ & _ & q' & Hq' & He & ->)]; [done|].
      rewrite <- (Hin q Hq), He. by apply Hin.
  - rewrite Hout.
    + split; [by left|]. intros [?|(-> & -> & q & Hq & -> & _)]; [done|]. exfalso. apply Hno.
      split_and!; [done..|]. apply list_elem_of_fmap. eauto.
    + intros q Hq He. apply Hno. injection He as -> -> ->. split_and!; [done..|]. apply list_elem_of_fmap. eauto.
Qed.

(** The state [append_writes] leaves, from the tables of its batch. *)
Lemma appended_intro t d ls l mu mn :
  let h := dt_height t in let i := Z.of_nat (S (length ls)) in
  let f := history_leaves ls in let g := history_leaves (ls ++ [l]) in
  (forall o j k row, mu !! (o, j, k) = Some row <-> merkle_node_updates d !! (o, j, k) = Some row
     \/ o = dt_token t /\ j = i /\ exists q, (bp_in (Z.of_nat h) q /\ changed h f g q) /\ k = to_bytes q
        /\ row = mkUpdateRow (fr_to_bytes (node_of h f q)) (fr_to_bytes (node_of h g q))) ->
  (forall q, bp_in (Z.of_nat h) q /\ changed h f g q ->
     mn !! (dt_token t, to_bytes q) = Some (mkNodeRow (fr_to_bytes (node_of h g q)) i)) ->
  (forall key, (forall q, bp_in (Z.of_nat h) q /\ changed h f g q -> key <> (dt_token t, to_bytes q)) ->
     mn !! key = merkle_nodes_current d !! key) ->
  (forall p, bp_in (Z.of_nat h) p -> bp_wf p) ->
  appended t d
    (set_updates (delete_where (fun kv => (kv.1.1.1 =? dt_token t)
        && (kv.1.1.2 <=? Z.max 0 (i - dt_history_window t))) mu)
      (set_snapshots (<[(dt_token t, i) := mkSnapshotRow (fr_to_bytes (history_root h (ls ++ [l])))
                          (u256_to_be_bytes (history_chain (ls ++ [l])))]> (merkle_snapshots d)) (set_nodes mn d))) ls l.
Proof.
  intros h i f g Hmu Hmn Hmn' Hwf.
  split; cbn [merkle_snapshots merkle_nodes_current merkle_node_updates set_updates set_snapshots set_nodes].
  - split; try done; cbn [merkle_snapshots merkle_nodes_current merkle_node_updates set_updates set_snapshots set_nodes].
    + intros o k Ho. apply Hmn'. intros q _ He. by apply (f_equal fst) in He.
    + intros o j k Ho. apply option_eq. intros row. rewrite lookup_delete_where, Hmu. cbn [fst snd].
      rewrite (proj2 (Z.eqb_neq _ _)) by done. cbn [andb].
      split; [intros [[?|(? & _)] _]; done | intros; split; [by left|done]].
    + intros o j Ho. rewrite lookup_insert_ne; [done|]. intros He. by apply (f_equal fst) in He.
  - unfold snapshot_of. rewrite !take_ge; [done|]. rewrite length_app. cbn. lia.
  - intros p Hp Hc. exists i. by apply Hmn.
  - intros p Hp Hc. apply Hmn'. intros q [Hq Hcq] He. apply (f_equal snd) in He. cbn [snd] in He.
    apply to_bytes_inj in He as ->; auto.
  - intros j k row. rewrite lookup_delete_where, Hmu. cbn [fst snd]. rewrite Z.eqb_refl. cbn [andb].
    rewrite Z.leb_gt. fold h i f g. split.
    + intros [[Hrow|(_ & -> & q & [Hq Hc] & -> & ->)] Hi]; (split; [exact Hi|]); [by left|].
      right. split; [done|]. exists q. done.
    + intros [Hi [Hrow|(-> & q & Hq & -> & Hc & ->)]]; (split; [|exact Hi]); [by left|].
      right. split_and!; [done..|]. exists q. done.
Qed.

Lemma append_writes_appended t d ls l :
  let h := dt_height t in let n := Z.of_nat (length ls) in
  let f := history_leaves ls in let g := upd f n (Leaf_hash l) in
  tree_repr t d ls -> n < 2 ^ Z.of_nat h ->
  exists d', append_writes t (length ls) (change_row h f g <$> changed_anc h f g n 0 (S h))
               (history_root h (ls ++ [l])) (history_chain (ls ++ [l])) d
             = (d', Ok (mkAppendResult (n + 1) n (history_root h (ls ++ [l])) (history_chain (ls ++ [l]))))
    /\ appended t d d' ls l.
Proof.
  intros h n f g Hr Hn. pose proof (tree_len_bound _ _ _ Hr) as Hlen.
  assert (forall p, p ∈ changed_anc h f g n 0 (S h)
     <-> bp_in (Z.of_nat h) p /\ changed h f (history_leaves (ls ++ [l])) p) as Hw
    by (intros p; exact (written_nodes t ls l p Hn)).
  assert (forall p, bp_in (Z.of_nat h) p -> bp_wf p) as Hwf by (intros p Hp; exact (tree_path_wf _ _ (tr_handle _ _ _ Hr) Hp)).
  assert (forall q, q ∈ changed_anc h f g n 0 (S h) -> node_of h g q = node_of h (history_leaves (ls ++ [l])) q) as Hg.
  { intros q [[_ [Hq _]] _]%Hw. by apply node_of_snoc. }
  assert (forall q, q ∈ changed_anc h f g n 0 (S h) ->
    merkle_node_updates d !! (dt_token t, Z.of_nat (S (length ls)), to_bytes q) = None) as Hfresh.
  { intros q _. destruct (_ !! _) as [row|] eqn:E; [|done]. apply Hr in E as (j & p & ? & ? & _). lia. }
  destruct (run_plan_spec t (Z.of_nat (S (length ls))) h f g (changed_anc h f g n 0 (S h)) d)
    as (mu & mn & Hrun & Hmu & Hmu' & Hmn & Hmn');
    [apply NoDup_changed_anc; lia | intros q [Hq _]%Hw; by apply Hwf | apply (tr_parts _ _ _ Hr); tauto.. | done |].
  unfold append_writes. rewrite (M_bind_run _ _ _ _ _ Hrun). clear Hrun.
  set (d1 := set_nodes mn (set_updates mu d)).
  assert (merkle_snapshots d1 !! (dt_token t, Z.of_nat (S (length ls))) = None) as Hsnap.
  { destruct (_ !! _) as [row|] eqn:E; [|done]. apply (tr_snaps _ _ _ Hr) in E as (k & ? & ? & _). lia. }
  erewrite (M_bind_run _ _ d1).
  2:{ unfold insert_snapshot, get, mbind, M_bind. rewrite Hsnap, bool_decide_eq_true_2; [reflexivity|].
      apply (tr_parts _ _ _ Hr). tauto. }
  assert (saturating_sub (Z.of_nat (S (length ls))) (dt_history_window t)
          = Z.max 0 (Z.of_nat (S (length ls)) - dt_history_window t)) as ->.
  { unfold saturating_sub. if_case E; lia. }
  pose proof (ho_window _ (tr_handle _ _ _ Hr)) as Hwin.
  erewrite M_bind_run by (apply lift_run, to_i64_ok; unfold i64_max; lia).
  unfold prune_updates, modify, mbind, M_bind, mret, M_ret.
  eexists; split; [do 3 f_equal; lia|].
  apply (appended_intro t d ls l mu mn); [|..|exact Hwf].
  - intros o j k row. rewrite (batch_lookup _ _ _ _ _ _ Hmu Hmu' Hfresh). setoid_rewrite Hw. fold h f. split.
    + intros [?|(-> & -> & q & Hq & -> & ->)]; [by left|]. right. rewrite Hg by by apply Hw. eauto 10.
    + intros [?|(-> & -> & q & Hq & -> & ->)]; [by left|]. right. rewrite <- Hg by by apply Hw. eauto 10.
  - intros q Hq. fold h f. rewrite <- Hg by by apply Hw. apply Hmn. by apply Hw.
  - intros key Hkey. apply Hmn'. intros q Hq. apply Hkey. by apply Hw.
Qed.

(** The spec-level summary of [append_leaf]. *)
Lemma append_leaf_spec t d ls a v :
  tree_repr t d ls -> Z.of_nat (length ls) < 2 ^ Z.of_nat (dt_height t) ->
  exists d', append_leaf t a v d
    = (d', Ok (mkAppendResult (Z.of_nat (length ls) + 1) (Z.of_nat (length ls))
                 (history_root (dt_height t) (ls ++ [mkLeaf a v])) (history_chain (ls ++ [mkLeaf a v]))))
    /\ tree_repr t d' (ls ++ [mkLeaf a v]) /\ tree_frame (dt_token t) d d'.
Proof.
  intros Hr Hn. rewrite (append_leaf_writes t d ls a v Hr Hn).
  destruct (append_writes_appended t d ls (mkLeaf a v) Hr Hn) as (d' & Hrun & Ha).
  assert (spec_node (upd (history_leaves ls) (Z.of_nat (length ls)) (Leaf_hash (mkLeaf a v))) (dt_height t) 0
          = history_root (dt_height t) (ls ++ [mkLeaf a v])) as ->.
  { symmetry. apply spec_node_ext. intros j Hj. apply history_leaves_snoc. lia. }
  exists d'. split; [|split; [by eapply appended_repr | apply Ha]].
  apply transaction_ok. exact Hrun.
Qed.
End append_done.

(** ** Historical proofs *)

Section proving.
Context {C : Crypto} {HC : CryptoLaws C}.

(** The overlay answers the nodes of the target state that differ from now. *)
Definition overlay_ok (h : nat) (overlay : gmap BitPath Z) (now target : Z -> Z) : Prop :=
  forall p, bp_in (Z.of_nat h) p ->
    match overlay !! p with Some x => x = node_of h target p | None => node_of h target p = node_of h now p end.

Lemma prefetch_loop_spec h overlay idx n : forall j acc p,
  (j + n = h)%nat -> 0 <= idx ->
  p ∈ prefetch_loop n overlay (anc h idx j) acc <->
  p ∈ acc \/ overlay !! p = None /\ exists k, (j <= k < h)%nat /\ p = sibling (anc h idx k).
Proof.
  induction n as [|n IH]; intros j acc p Hj Hi; cbn [prefetch_loop].
  - split; [by left|]. intros [?|(_ & k & Hk & _)]; [done|lia].
  - rewrite anc_pop by lia. cbn [snd]. rewrite IH by lia.
    assert (p ∈ (match overlay !! sibling (anc h idx j) with Some _ => acc | None => {[sibling (anc h idx j)]} ∪ acc end)
      <-> p ∈ acc \/ overlay !! p = None /\ p = sibling (anc h idx j)) as ->.
    { destruct (overlay !! sibling (anc h idx j)) eqn:E; [|rewrite elem_of_union, elem_of_singleton].
      - split; [by left|]. intros [?|[? ->]]; [done|congruence].
      - split; [intros [->|?]; [by right|by left]|]. intros [?|[? ->]]; [by right|by left]. }
    split.
    + intros [[?|[Ho ->]]|(Ho & k & Hk & ->)]; [by left|right; split; [done|]; exists j; split; [lia|done]|].
      right. split; [done|]. exists k. split; [lia|done].
    + intros [?|(Ho & k & Hk & ->)]; [by left; left|]. destruct (decide (k = j)) as [->|].
      * left. right. done.
      * right. split; [done|]. exists k. split; [lia|done].
Qed.

Lemma siblings_loop_spec t overlay now target idx n (P : BitPath -> Prop) : forall j cache,
  handle_ok t -> (j + n = dt_height t)%nat -> 0 <= idx < 2 ^ Z.of_nat (dt_height t) ->
  overlay_ok (dt_height t) overlay now target ->
  answers (dt_height t) cache P (node_of (dt_height t) now) ->
  (forall k, (j <= k < dt_height t)%nat -> overlay !! sibling (anc (dt_height t) idx k) = None ->
     P (sibling (anc (dt_height t) idx k))) ->
  exists cache', siblings_loop n t overlay cache (anc (dt_height t) idx j)
      = Ok (spec_path target j n (idx / 2 ^ Z.of_nat j), cache')
    /\ answers (dt_height t) cache' P (node_of (dt_height t) now).
Proof.
  induction n as [|n IH]; intros j cache Hh Hj Hi Hov Hans HP; cbn [siblings_loop spec_path].
  - by exists cache.
  - set (h := dt_height t) in *. rewrite anc_pop by lia. cbn [snd].
    assert (bp_in (Z.of_nat h) (sibling (anc h idx j))) as Hin by (apply anc_sibling_in; lia).
    pose proof (Hov _ Hin) as Hsib. rewrite !(node_of_sibling h target) in Hsib by lia.
    assert (forall cache1, answers h cache1 P (node_of h now) ->
      exists cache', (rest ← siblings_loop n t overlay cache1 (anc h idx (S j));
                      Ok (spec_node target j (Z.lxor (idx / 2 ^ Z.of_nat j) 1) :: rest.1, rest.2))
        = Ok (spec_node target j (Z.lxor (idx / 2 ^ Z.of_nat j) 1) :: spec_path target (S j) n (idx / 2 ^ Z.of_nat j / 2), cache')
      /\ answers h cache' P (node_of h now)) as Hrest.
    { intros cache1 H1. destruct (IH (S j) cache1) as (cache' & Hs & Ha); [done|lia|done|done|done| |].
      - intros k Hk. apply HP. lia.
      - exists cache'. fold h in Hs. rewrite Hs. cbn. by rewrite div_pow_succ by lia. }
    destruct (overlay !! sibling (anc h idx j)) as [x|] eqn:Eo; [subst x; cbn [mbind result_bind fst snd]; by apply Hrest|].
    pose proof (Hans _ (HP j ltac:(lia) Eo)) as Hc. rewrite <- Hsib in Hc.
    destruct (cache !! sibling (anc h idx j)) as [x|] eqn:Ec.
    + cbn in Hc. subst x. cbn [mbind result_bind fst snd]. by apply Hrest.
    + rewrite zero_hash_for_path_spec by done. fold h. change (zero_node h (sibling (anc h idx j)) = spec_node target j (Z.lxor (idx / 2 ^ Z.of_nat j) 1)) in Hc.
      cbn [mbind result_bind fst snd]. rewrite Hc. apply Hrest. intros p Hp. rewrite lookup_insert. case_decide as E.
      * subst p. exact Hsib.
      * by apply Hans.
Qed.

Lemma proofs_loop_spec t overlay now target tgt root chain (P : BitPath -> Prop) leafs : forall cache,
  handle_ok t -> overlay_ok (dt_height t) overlay now target ->
  answers (dt_height t) cache P (node_of (dt_height t) now) ->
  (forall i, i ∈ leafs -> 0 <= i < 2 ^ Z.of_nat (dt_height t) /\
     forall k, (k < dt_height t)%nat -> overlay !! sibling (anc (dt_height t) i k) = None ->
     P (sibling (anc (dt_height t) i k))) ->
  proofs_loop t tgt root chain overlay cache leafs
  = Ok ((fun i => mkHistoricalProof tgt i root chain (mkMerkleProof (spec_path target 0 (dt_height t) i))) <$> leafs).
Proof.
  induction leafs as [|i leafs IH]; intros cache Hh Hov Hans HP; cbn [proofs_loop]; [done|].
  destruct (HP i) as [Hi Hk]; [left|].
  destruct (siblings_loop_spec t overlay now target i (dt_height t) P 0 cache) as (cache' & Hs & Ha);
    [done|lia|done|done|done| |].
  - intros k Hk'. apply Hk. lia.
  - rewrite <- anc_0, Hs. cbn [mbind result_bind fst snd]. rewrite Z.pow_0_r, Z.div_1_r.
    rewrite IH; [done|done|done|done|]. intros i' Hi'. apply HP. by right.
Qed.

Lemma prefetch_all_spec h overlay leafs : forall acc p,
  (forall i, i ∈ leafs -> 0 <= i) ->
  p ∈ foldl (fun acc i => prefetch_loop h overlay (BitPath_new (Z.of_nat h) i) acc) acc leafs <->
  p ∈ acc \/ exists i k, i ∈ leafs /\ (k < h)%nat /\ overlay !! p = None /\ p = sibling (anc h i k).
Proof.
  induction leafs as [|i leafs IH]; intros acc p Hpos; cbn [foldl].
  - split; [by left|]. intros [?|(i & k & Hi & _)]; [done|]. by apply not_elem_of_nil in Hi.
  - rewrite IH by (intros; apply Hpos; by right). rewrite <- anc_0, prefetch_loop_spec by (try lia; apply Hpos; left).
    split.
    + intros [[?|(Ho & k & Hk & ->)]|(i' & k & Hi & ?)]; [by left| |].
      * right. exists i, k. split_and!; [left|lia|done|done].
      * right. exists i', k. split; [by right|done].
    + intros [?|(i' & k & Hi & Hk & Ho & ->)]; [by left; left|]. apply elem_of_cons in Hi as [->|Hi].
      * left. right. split; [done|]. exists k. split; [lia|done].
      * right. exists i', k. split_and!; done.
Qed.

Lemma check_leaf_indices_ok target leafs :
  (forall i, i ∈ leafs -> i < target) -> check_leaf_indices target leafs = Ok tt.
Proof.
  induction leafs as [|i leafs IH]; intros Hi; cbn; [done|].
  rewrite (proj2 (Z.leb_gt _ _)) by (apply Hi; left). apply IH. intros. apply Hi. by right.
Qed.

Lemma check_leaf_indices_err target leafs bad rest :
  filter (fun i => target <= i) leafs = bad :: rest ->
  check_leaf_indices target leafs = Err (LeafIndexOutOfBounds bad target).
Proof.
  induction leafs as [|i leafs IH]; [done|]. cbn [check_leaf_indices]. rewrite filter_cons.
  destruct (target <=? i) eqn:E; bool_cases; [rewrite decide_True by done; by intros [= -> _]|].
  rewrite decide_False by lia. apply IH.
Qed.

Lemma prove_many_spec t d ls (k : nat) leafs :
  tree_repr t d ls -> (1 <= k <= length ls)%nat -> Z.of_nat (length ls) - Z.of_nat k <= dt_history_window t ->
  (forall i, i ∈ leafs -> 0 <= i < Z.of_nat k) ->
  prove_many t (Z.of_nat k) leafs d
  = (d, Ok ((fun i => mkHistoricalProof (Z.of_nat k) i (history_root (dt_height t) (take k ls)) (history_chain (take k ls))
             (mkMerkleProof (spec_path (history_leaves (take k ls)) 0 (dt_height t) i))) <$> leafs)).
Proof.
  intros Hr Hk Hw Hi. pose proof (tr_cap _ _ _ Hr) as Hcap. unfold prove_many.
  destruct leafs as [|i0 l0]; [done|]. set (leafs := i0 :: l0) in *. clearbody leafs.
  if_case E; [lia|]. unfold transaction. rewrite (M_bind_run _ _ _ _ _ (latest_index_spec t d ls Hr)).
  unfold prove_from_latest. if_case E1; [lia|]. if_case E2; [lia|]. cbv zeta. if_case E3; [lia|].
  rewrite (M_bind_run _ _ d d tt) by (apply lift_run, check_leaf_indices_ok; intros; apply Hi; done).
  destruct (load_overlay_spec t d ls k Hr Hk Hw) as (overlay & Hov & Hovs).
  rewrite (M_bind_run _ _ _ _ _ Hov), (M_bind_run _ _ _ _ _ (root_at_spec t d ls k Hr Hk)).
  erewrite (M_bind_run _ _ d d) by by apply lift_run.
  rewrite (M_bind_run _ _ _ _ _ (hash_chain_at_spec t d ls k Hr Hk)).
  erewrite (M_bind_run _ _ d d) by by apply lift_run.
  set (pre := foldl _ _ _).
  assert (forall p, p ∈ pre <-> exists i k, i ∈ leafs /\ (k < dt_height t)%nat /\ overlay !! p = None
            /\ p = sibling (anc (dt_height t) i k)) as Hpre.
  { intros p. unfold pre. rewrite prefetch_all_spec by (intros; apply Hi; done). rewrite elem_of_empty. tauto. }
  assert (exists cache, (if bool_decide (pre = ∅) then mret ∅ else load_node_hashes t (elements pre)) d = (d, Ok cache)
    /\ answers (dt_height t) cache (fun p => p ∈ pre) (node_of (dt_height t) (history_leaves ls))) as (cache & Hc & Hans).
  { case_bool_decide as Ep.
    - exists ∅. split; [done|]. intros p Hp. rewrite Ep in Hp. by apply not_elem_of_empty in Hp.
    - destruct (load_node_hashes_spec t d ls (elements pre)) as (m & Hm & Ha); [done| |].
      + intros p. rewrite elem_of_elements, Hpre. intros (i & j & Hin & Hj & _ & ->).
        apply anc_sibling_in; [done|]. specialize (Hi i Hin). lia.
      + exists m. split; [done|]. intros p Hp. apply Ha. by rewrite elem_of_elements. }
  rewrite (M_bind_run _ _ _ _ _ Hc). unfold lift.
  rewrite (proofs_loop_spec t overlay (history_leaves ls) (history_leaves (take k ls)) _ _ _ (fun p => p ∈ pre));
    [done | apply Hr | done | done |].
  intros i Hin. split; [specialize (Hi i Hin); lia|]. intros j Hj Ho. apply Hpre. eauto 10.
Qed.
End proving.

(** ** Creation and sequences of appends *)

Section creation.
Context {C : Crypto} {HC : CryptoLaws C}.

(** No tree rows of the token exist yet. *)
Definition token_fresh (tok : Z) (d : Db) : Prop :=
  (forall k, merkle_nodes_current d !! (tok, k) = None)
  /\ (forall i k, merkle_node_updates d !! (tok, i, k) = None)
  /\ (forall i, merkle_snapshots d !! (tok, i) = None).

Lemma DbTree_new_spec tok h w d :
  0 < tok -> (1 <= h <= 62)%nat -> 0 < w < 2 ^ 64 -> is_Some (tokens d !! tok) -> token_fresh tok d ->
  exists t d', DbTree_new tok h (mkDbMerkleTreeConfig w) d = (d', Ok t)
    /\ dt_token t = tok /\ dt_height t = h /\ dt_history_window t = w /\ tree_repr t d' [].
Proof.
  intros Htok Hh Hw Hd (F1 & F2 & F3).
  unfold DbTree_new. destruct (h =? 0)%nat eqn:E; [apply Nat.eqb_eq in E; lia|].
  unfold TreePartitions_new, lift, TreePartitions_ensure, execute_partition_statement, modify, mbind, M_bind, mret, M_ret.
  if_case E'; [lia|]. do 2 eexists; split; [reflexivity|]. split_and!; [done..|].
  split; cbn [dt_height dt_token dt_partitions dt_history_window tp_token_id length]; [by split|lia|done|..].
  - intros tb Htb. cbn. rewrite !elem_of_union, !elem_of_singleton.
    destruct Htb as [->|[->| ->]]; auto.
  - intros i row. cbn. rewrite F3. split; [done|]. intros (k & _ & Hk & _). cbn in Hk. lia.
  - intros p Hp. cbn. rewrite F1. unfold node_at, zero_node, node_of. cbn [take].
    apply spec_node_ext. intros j _. apply history_leaves_nil.
  - intros i k row. cbn. by rewrite F2.
  - intros j p Hj. cbn in Hj. lia.
Qed.

(** The tree job's use of the tree: one append per transfer, in order. *)
Fixpoint append_all (t : DbIncrementalMerkleTree) (ls : list Leaf) : M Db DbMerkleTreeError unit :=
  match ls with
  | [] => mret tt
  | l :: ls' => append_leaf t (leaf_address l) (leaf_value l) ≫= fun _ => append_all t ls'
  end.

Lemma append_all_spec t new : forall d ls,
  tree_repr t d ls -> Z.of_nat (length (ls ++ new)) <= 2 ^ Z.of_nat (dt_height t) ->
  exists d', append_all t new d = (d', Ok tt) /\ tree_repr t d' (ls ++ new) /\ tree_frame (dt_token t) d d'.
Proof.
  induction new as [|l new IH]; intros d ls Hr Hcap; cbn [append_all].
  - exists d. by rewrite app_nil_r.
  - rewrite length_app in Hcap. cbn [length] in Hcap.
    destruct (append_leaf_spec t d ls (leaf_address l) (leaf_value l) Hr) as (d1 & Ha & Hr1 & F1); [lia|].
    rewrite (M_bind_run _ _ _ _ _ Ha). destruct (IH d1 (ls ++ [l])) as (d2 & Hb & Hr2 & F2).
    { by destruct l. }
    { rewrite !length_app. cbn. lia. }
    exists d2. rewrite <- app_assoc in Hr2. split_and!; [done..|]. by trans d1.
Qed.
End creation.

(** ** Properties *)

Section properties.
Context {C : Crypto} {HC : CryptoLaws C}.

(** C16: [append_leaf] refines appending to a history: on a database that represents
    a history [ls] with room left, it never fails, returns the next index, the leaf
    position, the Merkle root and the hash chain of [ls] extended with the leaf, and
    leaves a database that represents the extended history (update log pruned to
    the window) and in which every other table, and the tree of every other token,
    is untouched. *)
Theorem append_leaf_refines t d ls a v :
  tree_repr t d ls -> Z.of_nat (length ls) < 2 ^ Z.of_nat (dt_height t) ->
  exists d', append_leaf t a v d
    = (d', Ok (mkAppendResult (Z.of_nat (length ls) + 1) (Z.of_nat (length ls))
                 (history_root (dt_height t) (ls ++ [mkLeaf a v])) (history_chain (ls ++ [mkLeaf a v]))))
    /\ tree_repr t d' (ls ++ [mkLeaf a v]) /\ tree_frame (dt_token t) d d'
    /\ forall t' ls', dt_token t' <> dt_token t -> tree_repr t' d ls' -> tree_repr t' d' ls'.
Proof.
  intros Hr Hn. destruct (append_leaf_spec t d ls a v Hr Hn) as (d' & Ha & Hr' & F).
  exists d'. split_and!; [done..|]. intros t' ls' Hne. by apply (tree_repr_frame t' (dt_token t)).
Qed.

(** C17: Historical proofs verify: on a database that represents [ls], for any target
    index between 1 and the latest index that is at most [history_window] behind, and
    any leaf indices below the target, [prove_many] succeeds without changing the
    database, the stored root and hash chain are those of the first [target] leaves,
    and every returned proof has the tree's height and recomputes that root from the
    leaf's hash, so the pruning of old update rows never removes a row a permitted
    proof needs. *)
Theorem historical_proofs_verify t d ls (k : nat) leafs :
  tree_repr t d ls -> (1 <= k <= length ls)%nat -> Z.of_nat (length ls) - Z.of_nat k <= dt_history_window t ->
  (forall i, i ∈ leafs -> 0 <= i < Z.of_nat k) ->
  exists proofs, prove_many t (Z.of_nat k) leafs d = (d, Ok proofs)
    /\ (hp_leaf_index <$> proofs) = leafs
    /\ Forall (fun p => hp_target_index p = Z.of_nat k
         /\ hp_root p = history_root (dt_height t) (take k ls)
         /\ hp_hash_chain p = history_chain (take k ls)
         /\ proof_height (hp_proof p) = dt_height t
         /\ exists l, ls !! Z.to_nat (hp_leaf_index p) = Some l
              /\ proof_get_root (hp_proof p) (Leaf_hash l) (hp_leaf_index p) = Some (hp_root p)) proofs.
Proof.
  intros Hr Hk Hw Hi. eexists; split; [by apply prove_many_spec|]. split.
  - rewrite <- list_fmap_compose. apply list_fmap_id.
  - apply Forall_fmap, Forall_forall. intros i Hin. specialize (Hi i Hin).
    cbn [hp_target_index hp_root hp_hash_chain hp_proof hp_leaf_index].
    pose proof (tr_cap _ _ _ Hr) as Hcap. pose proof (ho_height _ (tr_handle _ _ _ Hr)) as Hh.
    split_and!; try done; [apply length_spec_path|].
    destruct (lookup_lt_is_Some_2 ls (Z.to_nat i)) as [l Hl]; [lia|]. exists l. split; [done|].
    rewrite proof_get_root_path by (cbn; rewrite length_spec_path; lia). cbn [siblings]. f_equal.
    rewrite <- (history_leaves_lookup (take k ls) (Z.to_nat i)) by (rewrite lookup_take_lt by lia; done).
    rewrite Z2Nat.id by lia. apply spec_path_opens. lia.
Qed.

(** [prove_many] rejects exactly what it should: with at least one leaf index on a
    represented database it never changes the database, and reports target 0, an empty tree, a
    target above the latest index, a target outside the retention window and the
    first leaf index not below the target, in that order of precedence, and
    succeeds otherwise. *)
Theorem prove_many_error_branches t d ls target leafs :
  tree_repr t d ls -> 0 <= target -> leafs <> [] -> (forall i, i ∈ leafs -> 0 <= i) ->
  let n := Z.of_nat (length ls) in
  match prove_many t target leafs d with
  | (d', r) => d' = d /\
    if target =? 0 then r = Err InvalidProofTargetZero
    else if n =? 0 then r = Err TreeEmpty
    else if n <? target then r = Err (TargetIndexTooHigh target n)
    else if dt_history_window t <? n - target then r = Err (RetentionWindowExceeded target (dt_history_window t))
    else match filter (fun i => target <= i) leafs with
         | bad :: _ => r = Err (LeafIndexOutOfBounds bad target)
         | [] => is_ok r = true
         end
  end.
Proof.
  intros Hr Ht Hne Hpos n. destruct (prove_many t target leafs d) as [d' r] eqn:Ep.
  destruct (filter (fun i => target <= i) leafs) as [|bad rest] eqn:Ef.
  - assert (forall i, i ∈ leafs -> 0 <= i < target) as Hlt.
    { intros i Hi. split; [by apply Hpos|]. destruct (decide (target <= i)); [|lia]. exfalso.
      assert (i ∈ filter (fun i => target <= i) leafs) as Hin by by apply list_elem_of_filter.
      rewrite Ef in Hin. by apply not_elem_of_nil in Hin. }
    unfold prove_many in Ep. destruct leafs as [|i0 l0] eqn:El; [done|]. rewrite <- El in *.
    if_case E0; [by injection Ep as <- <-|].
    destruct (decide (n <> 0 /\ ~ n < target /\ ~ dt_history_window t < n - target)) as [(H1 & H2 & H3)|Hbad].
    + rewrite (proj2 (Z.eqb_neq n 0)), (proj2 (Z.ltb_ge n target)), (proj2 (Z.ltb_ge _ (n - target))) by lia.
      pose proof (prove_many_spec t d ls (Z.to_nat target) leafs Hr ltac:(lia) ltac:(lia)) as Hok.
      rewrite Z2Nat.id in Hok by lia. specialize (Hok Hlt). unfold prove_many in Hok. rewrite El in Hok.
      rewrite (proj2 (Z.eqb_neq target 0)) in Hok by lia. rewrite <- El, Ep in Hok. by injection Hok as -> ->.
    + unfold transaction in Ep. rewrite (M_bind_run _ _ _ _ _ (latest_index_spec t d ls Hr)) in Ep. fold n in Ep.
      unfold prove_from_latest in Ep. destruct (n =? 0) eqn:E1; bool_cases; [by injection Ep as <- <-|].
      destruct (n <? target) eqn:E2; bool_cases; [by injection Ep as <- <-|].
      destruct (dt_history_window t <? n - target) eqn:E3; bool_cases; [by injection Ep as <- <-|]. lia.
  - pose proof (check_leaf_indices_err _ _ _ _ Ef) as Hc.
    unfold prove_many in Ep. destruct leafs as [|i0 l0] eqn:El; [done|]. rewrite <- El in *.
    if_case E0; [by injection Ep as <- <-|]. unfold transaction in Ep.
    rewrite (M_bind_run _ _ _ _ _ (latest_index_spec t d ls Hr)) in Ep. fold n in Ep.
    unfold prove_from_latest in Ep. destruct (n =? 0) eqn:E1; bool_cases; [by injection Ep as <- <-|].
    destruct (n <? target) eqn:E2; bool_cases; [by injection Ep as <- <-|].
    destruct (dt_history_window t <? n - target) eqn:E3; bool_cases; [by injection Ep as <- <-|].
    unfold lift, mbind, M_bind in Ep. rewrite Hc in Ep. by injection Ep as <- <-.
Qed.

(** Creating a tree and appending any history that fits always succeeds: for a
    registered token without tree rows, [new] creates the partitions and the appends
    that follow reach a database representing exactly that history, whose latest
    index, roots and hash chains at every index are those of the prefixes. *)
Theorem create_and_append_all tok h w d ls :
  0 < tok -> (1 <= h <= 62)%nat -> 0 < w < 2 ^ 64 -> is_Some (tokens d !! tok) -> token_fresh tok d ->
  Z.of_nat (length ls) <= 2 ^ Z.of_nat h ->
  exists t d1 d2, DbTree_new tok h (mkDbMerkleTreeConfig w) d = (d1, Ok t)
    /\ append_all t ls d1 = (d2, Ok tt)
    /\ latest_index t d2 = (d2, Ok (Z.of_nat (length ls)))
    /\ forall k : nat, (1 <= k <= length ls)%nat ->
         root_at t (Z.of_nat k) d2 = (d2, Ok (Some (history_root h (take k ls))))
         /\ hash_chain_at t (Z.of_nat k) d2 = (d2, Ok (Some (history_chain (take k ls)))).
Proof.
  intros H1 H2 H3 H4 H5 H6. destruct (DbTree_new_spec tok h w d) as (t & d1 & Hn & _ & Ht2 & _ & Hr); [done..|].
  destruct (append_all_spec t ls d1 [] Hr) as (d2 & Ha & Hr2 & _); [cbn; by rewrite Ht2|].
  exists t, d1, d2. unfold latest_index, root_at, hash_chain_at, transaction.
  rewrite (latest_index_spec _ _ _ Hr2). split_and!; [done..|].
  intros k Hk. rewrite (root_at_spec _ _ _ _ Hr2), (hash_chain_at_spec _ _ _ _ Hr2) by done.
  by rewrite Ht2.
Qed.
End properties.

(** ** Concrete trees *)

Section witnesses.
#[local] Existing Instance toy_crypto.
#[local] Existing Instance toy_crypto_laws.

Definition toy_db : Db := set_tokens {[1 := mkTokenRow (be_bytes 20 77) (be_bytes 20 78) 1]} 2 empty_db.
Definition toy_leaves3 : list Leaf := [mkLeaf 3 10; mkLeaf 4 11; mkLeaf 5 12].

Definition toy_created : Db * result DbMerkleTreeError DbIncrementalMerkleTree :=
  DbTree_new 1 2 (mkDbMerkleTreeConfig 1) toy_db.
Definition toy_handle : DbIncrementalMerkleTree :=
  match toy_created.2 with
  | Ok t => t
  | Err _ => mkDbTree (mkTreePartitions 0 (NodesTable, 0) (UpdatesTable, 0) (SnapshotsTable, 0)) 0 [] 0
  end.
Definition toy_db3 : Db := (append_all toy_handle toy_leaves3 toy_created.1).1.

Lemma toy_created_repr : tree_repr toy_handle toy_created.1 [].
Proof.
  destruct (DbTree_new_spec 1 2 1 toy_db) as (t & d & Hn & _ & _ & _ & Hr); [lia|lia|lia|by eexists|by repeat split|].
  unfold toy_handle, toy_created. by rewrite Hn.
Qed.

Lemma toy_repr3 : tree_repr toy_handle toy_db3 toy_leaves3.
Proof.
  destruct (append_all_spec toy_handle toy_leaves3 toy_created.1 []) as (d & Ha & Hr & _);
    [apply toy_created_repr | by vm_compute |].
  unfold toy_db3. by rewrite Ha.
Qed.


Lemma append_leaf_refines_witness :
  exists d', append_leaf toy_handle 6 13 toy_db3
    = (d', Ok (mkAppendResult (Z.of_nat (length toy_leaves3) + 1) (Z.of_nat (length toy_leaves3))
                 (history_root (dt_height toy_handle) (toy_leaves3 ++ [mkLeaf 6 13]))
                 (history_chain (toy_leaves3 ++ [mkLeaf 6 13]))))
    /\ tree_repr toy_handle d' (toy_leaves3 ++ [mkLeaf 6 13]) /\ tree_frame (dt_token toy_handle) toy_db3 d'
    /\ forall t' ls', dt_token t' <> dt_token toy_handle -> tree_repr t' toy_db3 ls' -> tree_repr t' d' ls'.
Proof. apply append_leaf_refines; [apply toy_repr3 | by vm_compute]. Defined.

Lemma historical_proofs_verify_witness :
  exists proofs, prove_many toy_handle 2 [1; 0] toy_db3 = (toy_db3, Ok proofs)
    /\ (hp_leaf_index <$> proofs) = [1; 0]
    /\ Forall (fun p => hp_target_index p = 2
         /\ hp_root p = history_root (dt_height toy_handle) (take 2 toy_leaves3)
         /\ hp_hash_chain p = history_chain (take 2 toy_leaves3)
         /\ proof_height (hp_proof p) = dt_height toy_handle
         /\ exists l, toy_leaves3 !! Z.to_nat (hp_leaf_index p) = Some l
              /\ proof_get_root (hp_proof p) (Leaf_hash l) (hp_leaf_index p) = Some (hp_root p)) proofs.
Proof.
  apply (historical_proofs_verify toy_handle toy_db3 toy_leaves3 2 [1; 0]);
    [apply toy_repr3 | cbn; lia | by vm_compute |].
  intros i Hi. apply elem_of_cons in Hi as [->|Hi]; [lia|]. apply list_elem_of_singleton in Hi. lia.
Defined.

Lemma prove_many_error_branches_witness :
  match prove_many toy_handle 1 [0] toy_db3 with
  | (d', r) => d' = toy_db3 /\
    if 1 =? 0 then r = Err InvalidProofTargetZero
    else if 3 =? 0 then r = Err TreeEmpty
    else if 3 <? 1 then r = Err (TargetIndexTooHigh 1 3)
    else if dt_history_window toy_handle <? 3 - 1 then r = Err (RetentionWindowExceeded 1 (dt_history_window toy_handle))
    else match filter (fun i => 1 <= i) [0] with
         | bad :: _ => r = Err (LeafIndexOutOfBounds bad 1)
         | [] => is_ok r = true
         end
  end.
Proof.
  apply (prove_many_error_branches toy_handle toy_db3 toy_leaves3 1 [0]); [apply toy_repr3 | lia | done |].
  intros i Hi. apply list_elem_of_singleton in Hi. lia.
Defined.

Lemma create_and_append_all_witness :
  exists t d1 d2, DbTree_new 1 2 (mkDbMerkleTreeConfig 1) toy_db = (d1, Ok t)
    /\ append_all t toy_leaves3 d1 = (d2, Ok tt)
    /\ latest_index t d2 = (d2, Ok (Z.of_nat (length toy_leaves3)))
    /\ forall k : nat, (1 <= k <= length toy_leaves3)%nat ->
         root_at t (Z.of_nat k) d2 = (d2, Ok (Some (history_root 2 (take k toy_leaves3))))
         /\ hash_chain_at t (Z.of_nat k) d2 = (d2, Ok (Some (history_chain (take k toy_leaves3)))).
Proof.
  apply create_and_append_all; [lia | lia | lia | by eexists | by repeat split | by vm_compute].
Defined.
End witnesses.
