(* ===== verification/Events.v ===== *)
(** [indexer/src/events/mod.rs]: the event indexer, which copies the
    [IndexedTransfer] log of a token contract into the database, and the parts
    of [client-common/src/contracts/z_erc20.rs] it calls.

    The Ethereum node is an external service: its answers during one run are the
    fields of [EthNode].  Loops carry fuel; running out of it is the error
    [OutOfFuel], and [EventsSpec] shows how much is enough. *)

From S2P Require Import Prelude Words Crypto Database.
Local Open Scope Z_scope.

(** ** The contract binding *)

(** An [IndexedTransfer] log as decoded by the contract bindings. *)
Record IndexedTransferLog := mkIndexedTransferLog {
  lg_index : Z;
  lg_from : Z;
  lg_to : Z;
  lg_value : Z;
  lg_block_number : option Z;
}.

Class EthNode := {
  (** [eth_blockNumber], [index()] and [eth_getLogs] on the token contract;
      [Err] is a transport failure *)
  eth_get_block_number : result string Z;
  eth_index : result string Z;
  eth_indexed_transfer_logs : Z -> Z -> result string (list IndexedTransferLog);
}.

Record IndexedEvent := mkIndexedEvent {
  ie_event_index : Z;
  ie_from : Z;
  ie_to : Z;
  ie_value : Z;
  ie_eth_block_number : Z;
}.

Definition uint256_as_u64 (value : Z) : Z := be_val (drop 24 (u256_to_be_bytes value)).

Definition log_to_event (l : IndexedTransferLog) : IndexedEvent :=
  mkIndexedEvent (uint256_as_u64 (lg_index l)) (lg_from l) (lg_to l) (lg_value l) (default 0 (lg_block_number l)).

Section contract.
Context {N : EthNode}.

Definition contract_index : result string Z := i ← eth_index; Ok (uint256_as_u64 i).

Definition get_indexed_transfer_events (from_block to_block : Z) : result string (list IndexedEvent) :=
  logs ← eth_indexed_transfer_logs from_block to_block;
  Ok (map log_to_event logs).

Definition contract_latest_block : result string Z := eth_get_block_number.
End contract.

(** ** Errors, configuration and state *)

Inductive EventIndexerError :=
| EInvalidTokenId (token_id : Z)
| NonPositiveConfig (label : string)
| EI64ToU64 (label : string) (value : Z)
| EU64ToI64 (label : string) (value : Z)
| EDatabase (action : string)
| EContract (action : string)
| InsertEvent (index : Z)
(** a loop that has not returned within its fuel *)
| OutOfFuel.

Definition BLOCK_SPAN_RECOMMENDED : Z := 5000.
Definition FORWARD_SCAN_OVERLAP_RECOMMENDED : Z := 10.

Record EventIndexerConfig := mkEventIndexerConfig {
  block_span : Z;
  forward_scan_overlap : Z;
}.

Definition EventIndexerConfig_new (span overlap : Z) : result EventIndexerError EventIndexerConfig :=
  if span =? 0 then Err (NonPositiveConfig "block_span") else Ok (mkEventIndexerConfig span overlap).

Record GapAnchor := mkGapAnchor { ga_from_block : Z; ga_to_block : Z }.

Record IndexerState := mkIndexerState {
  contiguous_index : Z;
  contiguous_block : option Z;
  last_synced_block : Z;
  last_seen_contract_index : option Z;
}.

Record TokenMetadata := mkTokenMetadata {
  tm_token_address : Z;
  tm_verifier_address : Z;
  tm_chain_id : Z;
}.

Record EventIndexerPartitions := mkEventIndexerPartitions {
  ep_token_id : Z;
  events_partition : table * Z;
  state_partition : table * Z;
}.

Definition EventIndexerPartitions_new (token_id : Z) : result EventIndexerError EventIndexerPartitions :=
  if token_id <=? 0 then Err (EInvalidTokenId token_id)
  else Ok (mkEventIndexerPartitions token_id (EventsTable, token_id) (EventStateTable, token_id)).

Definition EventIndexerPartitions_ensure (p : EventIndexerPartitions) : M Db EventIndexerError unit :=
  modify (fun d => set_partitions ({[events_partition p]} ∪ partitions d) d) ≫= fun _ =>
  modify (fun d => set_partitions ({[state_partition p]} ∪ partitions d) d).

Record EventIndexer := mkEventIndexer {
  ei_deployed_block_number : Z;
  ei_partitions : EventIndexerPartitions;
  ei_config : EventIndexerConfig;
}.
Definition ei_token_id (x : EventIndexer) : Z := ep_token_id (ei_partitions x).

(** ** Conversions *)

Definition ev_to_u64 (value : Z) (label : string) : result EventIndexerError Z :=
  ok_or (EI64ToU64 label value) (u64_try_from value).
Definition ev_to_i64 (value : Z) (label : string) : result EventIndexerError Z :=
  ok_or (EU64ToI64 label value) (i64_try_from value).
Definition opt_i64_to_u64 (value : option Z) (label : string) : result EventIndexerError (option Z) :=
  match value with
  | Some v => x ← ev_to_u64 v label; Ok (Some x)
  | None => Ok None
  end.

Definition indexer_state_from_row (row : EventStateRow) : result EventIndexerError IndexerState :=
  cb ← opt_i64_to_u64 (es_contiguous_block row) "contiguous_block";
  ls ← ev_to_u64 (es_last_synced_block row) "last_synced_block";
  lc ← opt_i64_to_u64 (es_last_seen_contract_index row) "last_seen_contract_index";
  Ok (mkIndexerState (es_contiguous_index row) cb ls lc).

(** ** Database operations *)

(** A row may reference a token only if it is registered and partitioned. *)
Definition can_insert (tb : table) (token_id : Z) (d : Db) : bool :=
  bool_decide ((tb, token_id) ∈ partitions d) && bool_decide (is_Some (tokens d !! token_id)).

(** The upsert draws an identity value even when the row exists. *)
Definition ensure_token_record (m : TokenMetadata) : M Db EventIndexerError Z :=
  lift (ev_to_i64 (tm_chain_id m) "chain_id") ≫= fun chain_id =>
  get ≫= fun d =>
  match select (fun kv => bool_decide (tk_address kv.2 = address_bytes (tm_token_address m))
                          && (tk_chain_id kv.2 =? chain_id)) (tokens d) with
  | (id, row) :: _ =>
    modify (set_tokens (<[id := mkTokenRow (tk_address row) (address_bytes (tm_verifier_address m)) (tk_chain_id row)]>
                          (tokens d)) (next_token_id d + 1)) ≫= fun _ => mret id
  | [] =>
    let id := next_token_id d in
    modify (set_tokens (<[id := mkTokenRow (address_bytes (tm_token_address m))
                                  (address_bytes (tm_verifier_address m)) chain_id]> (tokens d)) (id + 1))
      ≫= fun _ => mret id
  end.

Definition EventIndexer_new (deployed_block_number : Z) (metadata : TokenMetadata) (config : EventIndexerConfig)
  : M Db EventIndexerError EventIndexer :=
  ensure_token_record metadata ≫= fun token_id =>
  lift (EventIndexerPartitions_new token_id) ≫= fun parts =>
  mret (mkEventIndexer deployed_block_number parts config).

Definition ensure_state_row (token_id deployed_block_number : Z) : M Db EventIndexerError IndexerState :=
  lift (ev_to_i64 deployed_block_number "deployed_block_number for initial state") ≫= fun initial_block =>
  get ≫= fun d =>
  (match event_indexer_state d !! token_id with
   | Some _ => mret tt
   | None =>
     if can_insert EventStateTable token_id d
     then modify (set_event_state (<[token_id := mkEventStateRow (-1) None initial_block None]> (event_indexer_state d)))
     else fail (EDatabase "insert initial indexer state")
   end) ≫= fun _ =>
  gets event_indexer_state ≫= fun st =>
  match st !! token_id with
  | None => fail (EDatabase "load indexer state")
  | Some row =>
    if es_last_synced_block row <? initial_block then
      let row' := mkEventStateRow (es_contiguous_index row) (es_contiguous_block row) initial_block
                    (es_last_seen_contract_index row) in
      modify (set_event_state (<[token_id := row']> st)) ≫= fun _ => lift (indexer_state_from_row row')
    else lift (indexer_state_from_row row)
  end.

(** [UPDATE .. WHERE token_id = ..]: no row, no effect. *)
Definition update_state (token_id : Z) (f : EventStateRow -> EventStateRow) : M Db EventIndexerError unit :=
  modify (fun d => set_event_state (alter f token_id (event_indexer_state d)) d).

Definition persist_sync_watermark (token_id latest_block contract_next_index : Z) : M Db EventIndexerError unit :=
  lift (ev_to_i64 latest_block "last_synced_block") ≫= fun last_block =>
  lift (ev_to_i64 contract_next_index "last_seen_contract_index") ≫= fun next_index =>
  update_state token_id (fun r => mkEventStateRow (es_contiguous_index r) (es_contiguous_block r) last_block (Some next_index)).

(** The probe loop: every iteration visits a new row of the table, so the
    number of rows plus one is enough fuel. *)
Fixpoint advance_loop (fuel : nat) (token_id : Z) (events : gmap (Z * Z) EventRow) (index : Z) (block : option Z)
  (advanced : bool) : option (Z * option Z * bool) :=
  match fuel with
  | O => None
  | S fuel' =>
    let next_index := as_i64 (index + 1) in
    match events !! (token_id, next_index) with
    | Some row => advance_loop fuel' token_id events next_index (Some (ev_block row)) true
    | None => Some (index, block, advanced)
    end
  end.

Definition advance_contiguous_index (token_id : Z) : M Db EventIndexerError IndexerState :=
  transaction (
    get ≫= fun d =>
    match event_indexer_state d !! token_id with
    | None => fail (EDatabase "lock indexer state")
    | Some row =>
      match advance_loop (S (size (indexed_transfer_events d))) token_id (indexed_transfer_events d)
              (es_contiguous_index row) (es_contiguous_block row) false with
      | None => fail OutOfFuel
      | Some (index, block, advanced) =>
        let row' := mkEventStateRow index block (es_last_synced_block row) (es_last_seen_contract_index row) in
        (if advanced then update_state token_id (fun r => mkEventStateRow index block (es_last_synced_block r)
                                                            (es_last_seen_contract_index r))
         else mret tt) ≫= fun _ =>
        mret row'
      end
    end) ≫= fun row' => lift (indexer_state_from_row row').

Definition find_gap_anchor (token_id : Z) (state : IndexerState) (target_last_index latest_block deployed_block_number : Z)
  : M Db EventIndexerError (option GapAnchor) :=
  let current := contiguous_index state in
  let gap_start := as_u64 (Z.max (as_i64 (current + 1)) 0) in
  if target_last_index <? gap_start then mret None
  else
    lift (ev_to_i64 gap_start "gap start index") ≫= fun gap_i64 =>
    gets (fun d => head (select_asc (fun kv => kv.1.2)
                           (fun kv => (kv.1.1 =? token_id) && (gap_i64 <=? kv.1.2)) (indexed_transfer_events d)))
      ≫= fun next_known =>
    (match next_known with
     | Some (_, i, row) =>
       lift (ev_to_u64 i "next known event index") ≫= fun row_index =>
       if row_index <=? gap_start then mret None
       else lift (ev_to_u64 (ev_block row) "next known event block") ≫= fun b => mret (Some b)
     | None => mret (Some latest_block)
     end) ≫= fun to_block_opt =>
    match to_block_opt with
    | None => mret None
    | Some to_block =>
      let from_block := Z.max (default deployed_block_number (contiguous_block state)) deployed_block_number in
      if to_block <? from_block then mret None else mret (Some (mkGapAnchor from_block to_block))
    end.

Definition insert_event (token_id : Z) (event : IndexedEvent) : M Db EventIndexerError unit :=
  lift (ev_to_i64 (ie_event_index event) "event index") ≫= fun index =>
  lift (ev_to_i64 (ie_eth_block_number event) "event block number") ≫= fun block =>
  get ≫= fun d =>
  if can_insert EventsTable token_id d
  then modify (set_events (<[(token_id, index) :=
         mkEventRow (address_bytes (ie_from event)) (address_bytes (ie_to event))
           (u256_to_be_bytes (ie_value event)) block]> (indexed_transfer_events d)))
  else fail (InsertEvent (ie_event_index event)).

Fixpoint insert_loop (token_id : Z) (events : list IndexedEvent) : M Db EventIndexerError unit :=
  match events with
  | [] => mret tt
  | e :: es => insert_event token_id e ≫= fun _ => insert_loop token_id es
  end.

Definition insert_events (token_id : Z) (events : list IndexedEvent) : M Db EventIndexerError unit :=
  match events with
  | [] => mret tt
  | _ => transaction (insert_loop token_id events)
  end.

(** ** The indexer *)

Section indexer.
Context {N : EthNode}.

Definition contract_call {A} (action : string) (r : result string A) : result EventIndexerError A :=
  map_err (fun _ => EContract action) r.

(** The [while] loop of [scan_chunked]: one fetch and insert per chunk. *)
Fixpoint scan_loop (fuel : nat) (x : EventIndexer) (from to_block : Z) : M Db EventIndexerError unit :=
  match fuel with
  | O => fail OutOfFuel
  | S fuel' =>
    if to_block <? from then mret tt
    else
      let to := Z.min to_block (saturating_add_u64 from (block_span (ei_config x) - 1)) in
      lift (contract_call "get_indexed_transfer_events" (get_indexed_transfer_events from to)) ≫= fun fetched =>
      (if bool_decide (fetched = []) then mret tt else insert_events (ei_token_id x) fetched) ≫= fun _ =>
      if to =? to_block then mret tt
      else
        let next_from := saturating_add_u64 to 1 in
        scan_loop fuel' x (saturating_sub next_from (Z.min (forward_scan_overlap (ei_config x)) next_from)) to_block
  end.

Definition scan_chunked (fuel : nat) (x : EventIndexer) (from_block to_block : Z) : M Db EventIndexerError unit :=
  if to_block <? from_block then mret tt else scan_loop fuel x from_block to_block.

Fixpoint backfill_loop (fuel scan_fuel : nat) (x : EventIndexer) (state : IndexerState) (target_last_index latest_block : Z)
  : M Db EventIndexerError IndexerState :=
  match fuel with
  | O => fail OutOfFuel
  | S fuel' =>
    if (0 <=? contiguous_index state) && (target_last_index <=? as_u64 (contiguous_index state)) then mret state
    else
      find_gap_anchor (ei_token_id x) state target_last_index latest_block (ei_deployed_block_number x) ≫= fun anchor =>
      match anchor with
      | None => mret state
      | Some a =>
        let prior_contiguous := contiguous_index state in
        scan_chunked scan_fuel x (ga_from_block a) (ga_to_block a) ≫= fun _ =>
        advance_contiguous_index (ei_token_id x) ≫= fun next_state =>
        if contiguous_index next_state <=? prior_contiguous then mret next_state
        else backfill_loop fuel' scan_fuel x next_state target_last_index latest_block
      end
  end.

Definition backfill_missing_indices (fuel scan_fuel : nat) (x : EventIndexer) (state : IndexerState)
  (expected_last_index : option Z) (latest_block : Z) : M Db EventIndexerError IndexerState :=
  match expected_last_index with
  | None => mret state
  | Some target_last_index => backfill_loop fuel scan_fuel x state target_last_index latest_block
  end.

Definition sync (fuel scan_fuel : nat) (x : EventIndexer) : M Db EventIndexerError unit :=
  EventIndexerPartitions_ensure (ei_partitions x) ≫= fun _ =>
  ensure_state_row (ei_token_id x) (ei_deployed_block_number x) ≫= fun state =>
  lift (contract_call "latest_block" contract_latest_block) ≫= fun latest_block =>
  lift (contract_call "index" contract_index) ≫= fun contract_next_index =>
  let expected_last_index := checked_sub contract_next_index 1 in
  let forward_start := Z.max (saturating_sub (last_synced_block state) (forward_scan_overlap (ei_config x)))
                         (ei_deployed_block_number x) in
  (if forward_start <=? latest_block then scan_chunked scan_fuel x forward_start latest_block else mret tt) ≫= fun _ =>
  persist_sync_watermark (ei_token_id x) latest_block contract_next_index ≫= fun _ =>
  advance_contiguous_index (ei_token_id x) ≫= fun state =>
  backfill_missing_indices fuel scan_fuel x state expected_last_index latest_block ≫= fun _ =>
  mret tt.
End indexer.
