(* ===== verification/EventsSpec.v ===== *)
(** Correctness of the event indexer ([indexer/src/events/mod.rs]): the scan
    terminates and covers its range exactly when the overlap is smaller than the
    block span, the contiguous watermark is maximal, and a [sync] against a
    consistent node copies the whole log. *)

From S2P Require Import Prelude Words Crypto Database Events.
Local Open Scope Z_scope.

(** ** Vocabulary *)

Definition row_of_event (e : IndexedEvent) : EventRow :=
  mkEventRow (address_bytes (ie_from e)) (address_bytes (ie_to e)) (u256_to_be_bytes (ie_value e)) (ie_eth_block_number e).

Definition in_blocks (a b : Z) (e : IndexedEvent) : Prop := a <= ie_eth_block_number e <= b.
Global Instance in_blocks_dec a b e : Decision (in_blocks a b e).
Proof. unfold in_blocks. apply _. Defined.

Definition log_in_blocks (a b : Z) (l : IndexedTransferLog) : Prop := in_blocks a b (log_to_event l).
Global Instance log_in_blocks_dec a b l : Decision (log_in_blocks a b l).
Proof. unfold log_in_blocks. apply _. Defined.

(** What the indexer relies on: up to block [latest] the contract's log is
    [logs], with consecutive indices, [eth_getLogs] returns the logs of a block
    range, and the contract's counter is not behind the log. *)
Record node_view (N : EthNode) (logs : list IndexedTransferLog) (latest : Z) : Prop := {
  nv_latest : eth_get_block_number = Ok latest;
  nv_latest_range : 0 <= latest < i64_max;
  nv_index : exists n, eth_index = Ok n /\ Z.of_nat (length logs) <= n < i64_max;
  nv_logs : forall a b, 0 <= a -> b <= latest -> eth_indexed_transfer_logs a b = Ok (filter (log_in_blocks a b) logs);
  nv_wf : forall k l, logs !! k = Some l ->
    lg_index l = Z.of_nat k /\ exists b, lg_block_number l = Some b /\ 0 <= b <= latest;
}.

Definition events_of (logs : list IndexedTransferLog) : list IndexedEvent := log_to_event <$> logs.

(** Every stored event of the token is an event of the log. *)
Definition events_sound (tok : Z) (evs : list IndexedEvent) (d : Db) : Prop :=
  forall i row, indexed_transfer_events d !! (tok, i) = Some row ->
    exists (k : nat) e, i = Z.of_nat k /\ evs !! k = Some e /\ row = row_of_event e.

Definition event_stored (tok : Z) (k : nat) (e : IndexedEvent) (d : Db) : Prop :=
  indexed_transfer_events d !! (tok, Z.of_nat k) = Some (row_of_event e).

(** Only events of [tok] change, and none of the log's rows is lost. *)
Record events_grow (tok : Z) (evs : list IndexedEvent) (d d' : Db) : Prop := {
  eg_rest : d' = set_events (indexed_transfer_events d') d;
  eg_other : forall o i, o <> tok -> indexed_transfer_events d' !! (o, i) = indexed_transfer_events d !! (o, i);
  eg_sound : events_sound tok evs d -> events_sound tok evs d';
  eg_keep : forall k e, evs !! k = Some e -> event_stored tok k e d -> event_stored tok k e d';
}.

Lemma uint256_as_u64_mod x : uint256_as_u64 x = x mod 2 ^ 64.
Proof.
  unfold uint256_as_u64, u256_to_be_bytes. change 32%nat with (24 + 8)%nat.
  rewrite drop_be_bytes, be_val_be_bytes. done.
Qed.

Global Instance events_grow_preorder tok evs : PreOrder (events_grow tok evs).
Proof.
  split.
  - intros d. split; try done. by destruct d.
  - intros d1 d2 d3 [A1 A2 A3 A4] [B1 B2 B3 B4]. split; auto.
    + rewrite B1 at 1. rewrite A1. done.
    + intros o i Ho. by rewrite B2, A2.
Qed.

Lemma events_grow_can_insert tok evs d d' tb o :
  events_grow tok evs d d' -> can_insert tb o d' = can_insert tb o d.
Proof. intros [-> _ _ _]. done. Qed.

Section chain.
Context (tok : Z) (evs : list IndexedEvent).
Hypothesis evs_wf : forall k e, evs !! k = Some e ->
  ie_event_index e = Z.of_nat k /\ ie_event_index e < i64_max /\ 0 <= ie_eth_block_number e < i64_max.

(** ** Inserting *)

Lemma insert_event_spec d k e :
  can_insert EventsTable tok d = true -> evs !! k = Some e ->
  exists d', insert_event tok e d = (d', Ok tt) /\ events_grow tok evs d d' /\ event_stored tok k e d'.
Proof.
  intros Hc Hk. destruct (evs_wf k e Hk) as (Hi & Hlt & Hb).
  unfold insert_event, ev_to_i64, i64_try_from. rewrite !(proj2 (Z.leb_le _ _)) by lia.
  unfold ok_or, lift, get, mbind, M_bind. rewrite Hc. unfold modify. eexists; split; [reflexivity|].
  rewrite Hi. fold (row_of_event e).
  split; [|unfold event_stored; cbn [indexed_transfer_events set_events]; by rewrite lookup_insert_eq].
  split; cbn [indexed_transfer_events set_events]; [done|..].
  - intros o i Ho. rewrite lookup_insert_ne; [done|]. intros He. apply Ho. by injection He.
  - intros Hs i row. cbn [indexed_transfer_events set_events]. rewrite lookup_insert. case_decide as E; [|apply Hs].
    intros [= <-]. injection E as <-. by exists k, e.
  - intros k' e' Hk' Hst. unfold event_stored in *. cbn [indexed_transfer_events set_events]. rewrite lookup_insert. case_decide as E; [|done].
    injection E as E. apply Nat2Z.inj in E as <-. congruence.
Qed.

Lemma insert_loop_spec es : forall d,
  can_insert EventsTable tok d = true -> (forall e, e ∈ es -> exists k, evs !! k = Some e) ->
  exists d', insert_loop tok es d = (d', Ok tt) /\ events_grow tok evs d d'
    /\ forall k e, evs !! k = Some e -> e ∈ es -> event_stored tok k e d'.
Proof.
  induction es as [|e es IH]; intros d Hc Hes; cbn [insert_loop].
  - exists d. split_and!; [done..|]. intros k e _ He. by apply not_elem_of_nil in He.
  - destruct (Hes e) as [k Hk]; [left|]. destruct (insert_event_spec d k e Hc Hk) as (d1 & H1 & G1 & S1).
    rewrite (M_bind_run _ _ _ _ _ H1). destruct (IH d1) as (d2 & H2 & G2 & S2).
    { by rewrite (events_grow_can_insert _ _ _ _ _ _ G1). }
    { intros e' He'. apply Hes. by right. }
    exists d2. split_and!; [done|by trans d1|]. intros k' e' Hk' [->|He']%elem_of_cons; [|by apply S2].
    apply (eg_keep _ _ _ _ G2); [done|]. destruct (evs_wf _ _ Hk) as [E _]. destruct (evs_wf _ _ Hk') as [E' _].
    replace k' with k by lia. done.
Qed.

Lemma insert_events_spec es d :
  can_insert EventsTable tok d = true -> (forall e, e ∈ es -> exists k, evs !! k = Some e) ->
  exists d', insert_events tok es d = (d', Ok tt) /\ events_grow tok evs d d'
    /\ forall k e, evs !! k = Some e -> e ∈ es -> event_stored tok k e d'.
Proof.
  intros Hc Hes. destruct (insert_loop_spec es d Hc Hes) as (d' & H1 & H2 & H3). exists d'. split_and!; try done.
  unfold insert_events. destruct es; [done|]. by apply transaction_ok.
Qed.

(** ** Scanning *)

Context {N : EthNode} (latest : Z).
Hypothesis node_logs : forall a b, 0 <= a -> b <= latest ->
  get_indexed_transfer_events a b = Ok (filter (in_blocks a b) evs).
Hypothesis latest_range : 0 <= latest < i64_max.

Lemma scan_loop_spec x to_block : forall fuel from d,
  ei_token_id x = tok -> 0 < block_span (ei_config x) < 2 ^ 64 ->
  0 <= forward_scan_overlap (ei_config x) < block_span (ei_config x) ->
  0 <= from -> to_block <= latest -> Z.max 0 (to_block - from) < Z.of_nat fuel ->
  can_insert EventsTable tok d = true ->
  exists d', scan_loop fuel x from to_block d = (d', Ok tt) /\ events_grow tok evs d d'
    /\ forall k e, evs !! k = Some e -> in_blocks from to_block e -> event_stored tok k e d'.
Proof.
  induction fuel as [|fuel IH]; intros from d Hx Hspan Hov Hfrom Hto Hfuel Hc; cbn [scan_loop].
  - lia.
  - if_case E.
    { exists d. split_and!; [done..|]. intros k e _ He. unfold in_blocks in He. lia. }
    unfold saturating_add_u64. set (to := Z.min to_block _).
    assert (from <= to <= to_block) as Hrange by (unfold to, u64_max, i64_max in *; lia).
    erewrite M_bind_run by (apply lift_run; rewrite node_logs by lia; reflexivity).
    set (fetched := filter (in_blocks from to) evs).
    assert (exists d1, (if bool_decide (fetched = []) then mret tt else insert_events (ei_token_id x) fetched) d = (d1, Ok tt)
      /\ events_grow tok evs d d1 /\ forall k e, evs !! k = Some e -> e ∈ fetched -> event_stored tok k e d1) as (d1 & H1 & G1 & S1).
    { destruct (insert_events_spec fetched d Hc) as (d1 & H1 & G1 & S1).
      { intros e He. apply list_elem_of_filter in He as [_ He]. by apply list_elem_of_lookup in He. }
      case_bool_decide as Ef; [|exists d1; by rewrite Hx]. exists d. split_and!; [done..|].
      intros k e _ He. rewrite Ef in He. by apply not_elem_of_nil in He. }
    rewrite (M_bind_run _ _ _ _ _ H1). cbv zeta.
    assert (forall k e, evs !! k = Some e -> in_blocks from to e -> event_stored tok k e d1) as Hnow.
    { intros k e Hk He. apply (S1 k e Hk). apply list_elem_of_filter. split; [done|]. by eapply list_elem_of_lookup_2. }
    if_case E'.
    { exists d1. split_and!; [done..|]. intros k e Hk He. apply (Hnow k e Hk). by rewrite E'. }
    assert (to = from + block_span (ei_config x) - 1) as Hto' by (unfold to, u64_max, i64_max in *; lia).
    assert (saturating_add_u64 to 1 = to + 1) as Hnext by (unfold saturating_add_u64, u64_max, i64_max in *; lia).
    unfold saturating_add_u64 in Hnext. rewrite Hnext. set (from' := saturating_sub _ _).
    assert (from < from' <= to + 1) as Hfrom' by (unfold from', saturating_sub; if_case E''; lia).
    destruct (IH from' d1) as (d2 & H2 & G2 & S2); try done; try lia.
    { by rewrite (events_grow_can_insert _ _ _ _ _ _ G1). }
    exists d2. split_and!; [done|by trans d1|]. intros k e Hk He.
    destruct (decide (ie_eth_block_number e <= to)).
    + apply (eg_keep _ _ _ _ G2); [done|]. apply (Hnow k e Hk). unfold in_blocks in *. lia.
    + apply (S2 k e Hk). unfold in_blocks in *. lia.
Qed.

Lemma scan_chunked_spec x fuel from to_block d :
  ei_token_id x = tok -> 0 < block_span (ei_config x) < 2 ^ 64 ->
  0 <= forward_scan_overlap (ei_config x) < block_span (ei_config x) ->
  0 <= from -> to_block <= latest -> to_block - from < Z.of_nat fuel ->
  can_insert EventsTable tok d = true ->
  exists d', scan_chunked fuel x from to_block d = (d', Ok tt) /\ events_grow tok evs d d'
    /\ forall k e, evs !! k = Some e -> in_blocks from to_block e -> event_stored tok k e d'.
Proof.
  intros. unfold scan_chunked. if_case E; [|apply scan_loop_spec; try done; lia].
  exists d. split_and!; [done..|]. intros k e _ He. unfold in_blocks in He. lia.
Qed.
End chain.

(** ** The contiguous watermark *)

Section advance.
Context (tok : Z).

(** Event indices and blocks in the range of their columns. *)
Definition event_rows_ok (ev : gmap (Z * Z) EventRow) : Prop :=
  forall i row, ev !! (tok, i) = Some row -> 0 <= i < i64_max /\ 0 <= ev_block row.

(** [c] is the end of the run of consecutive indices that starts after [c0]. *)
Definition is_watermark (ev : gmap (Z * Z) EventRow) (c0 c : Z) : Prop :=
  c0 <= c /\ (forall i, c0 < i <= c -> is_Some (ev !! (tok, i))) /\ ev !! (tok, c + 1) = None.

Lemma watermark_unique ev c0 c c' : is_watermark ev c0 c -> is_watermark ev c0 c' -> c = c'.
Proof.
  intros (H1 & H2 & H3) (H1' & H2' & H3'). destruct (Z.lt_trichotomy c c') as [|[|]]; [|done|].
  - destruct (H2' (c + 1)) as [? ?]; [lia|]. congruence.
  - destruct (H2 (c' + 1)) as [? ?]; [lia|]. congruence.
Qed.

(** A run of [n] present keys needs [n] rows. *)
Lemma run_size (ev : gmap (Z * Z) EventRow) c (n : nat) :
  (forall i, c < i <= c + Z.of_nat n -> is_Some (ev !! (tok, i))) -> (n <= size ev)%nat.
Proof.
  intros Hrun.
  assert (length ((fun j : nat => (tok, c + Z.of_nat (S j))) <$> seq 0 n) = n) as Hlen by by rewrite length_fmap, length_seq.
  rewrite <- Hlen, <- (size_list_to_set (C := gset (Z * Z))), <- size_dom.
  - apply subseteq_size. intros key Hk.
    apply elem_of_list_to_set, list_elem_of_fmap in Hk as (j & -> & Hj%elem_of_seq).
    apply elem_of_dom, Hrun. lia.
  - apply NoDup_fmap_2_strong; [|apply NoDup_seq]. intros j k _ _ He. injection He as He. lia.
Qed.

Lemma advance_loop_spec ev : event_rows_ok ev -> forall fuel c b adv,
  -1 <= c < i64_max ->
  match advance_loop fuel tok ev c b adv with
  | Some (c', b', adv') => is_watermark ev c c'
      /\ (c' = c /\ b' = b /\ adv' = adv
          \/ c < c' /\ adv' = true /\ exists row, ev !! (tok, c') = Some row /\ b' = Some (ev_block row))
  | None => forall i, c < i <= c + Z.of_nat fuel -> is_Some (ev !! (tok, i))
  end.
Proof.
  intros Hok. induction fuel as [|fuel IH]; intros c b adv Hc; cbn [advance_loop]; [lia|].
  rewrite as_i64_id by (unfold in_i64, i64_max in *; lia).
  destruct (ev !! (tok, c + 1)) as [row|] eqn:E.
  - pose proof (Hok _ _ E) as [Hr _]. specialize (IH (c + 1) (Some (ev_block row)) true ltac:(lia)).
    destruct (advance_loop _ _ _ _ _ _) as [[[c' b'] adv']|].
    + destruct IH as ((H1 & H2 & H3) & Hcase). split.
      { split_and!; [lia| |done]. intros i Hi. destruct (decide (i = c + 1)) as [->|]; [by rewrite E|]. apply H2. lia. }
      right. destruct Hcase as [(-> & -> & ->)|(? & -> & Hrow)]; (split_and!; [lia|done|]); [by exists row|done].
    + intros i Hi. destruct (decide (i = c + 1)) as [->|]; [by rewrite E|]. apply IH. lia.
  - split; [|by left]. split_and!; [lia| |done]. intros i Hi. lia.
Qed.

(** The fuel of [advance_contiguous_index] always suffices. *)
Lemma advance_loop_total ev c b adv :
  event_rows_ok ev -> -1 <= c < i64_max -> is_Some (advance_loop (S (size ev)) tok ev c b adv).
Proof.
  intros Hok Hc. pose proof (advance_loop_spec ev Hok (S (size ev)) c b adv Hc) as H.
  destruct (advance_loop _ _ _ _ _ _); [done|]. apply run_size in H. lia.
Qed.

Definition state_row_ok (r : EventStateRow) : Prop :=
  -1 <= es_contiguous_index r < i64_max /\ 0 <= default 0 (es_contiguous_block r)
  /\ 0 <= es_last_synced_block r /\ 0 <= default 0 (es_last_seen_contract_index r).

Lemma indexer_state_from_row_ok r :
  state_row_ok r ->
  indexer_state_from_row r = Ok (mkIndexerState (es_contiguous_index r) (es_contiguous_block r)
                                   (es_last_synced_block r) (es_last_seen_contract_index r)).
Proof.
  intros (_ & Hb & Hs & Hc). destruct r as [ci cb ls lc]. cbn in *.
  unfold indexer_state_from_row, opt_i64_to_u64, ev_to_u64, u64_try_from. cbn.
  rewrite (proj2 (Z.leb_le 0 ls)) by done.
  destruct cb, lc; cbn in *; rewrite ?(proj2 (Z.leb_le _ _)) by done; done.
Qed.

Lemma advance_spec d r :
  event_rows_ok (indexed_transfer_events d) -> event_indexer_state d !! tok = Some r -> state_row_ok r ->
  exists c b, advance_contiguous_index tok d
      = (set_event_state (<[tok := mkEventStateRow c b (es_last_synced_block r) (es_last_seen_contract_index r)]>
           (event_indexer_state d)) d,
         Ok (mkIndexerState c b (es_last_synced_block r) (es_last_seen_contract_index r)))
    /\ is_watermark (indexed_transfer_events d) (es_contiguous_index r) c
    /\ state_row_ok (mkEventStateRow c b (es_last_synced_block r) (es_last_seen_contract_index r))
    /\ (c = es_contiguous_index r /\ b = es_contiguous_block r
        \/ es_contiguous_index r < c
           /\ exists row, indexed_transfer_events d !! (tok, c) = Some row /\ b = Some (ev_block row)).
Proof.
  intros Hok Hr Hrow. pose proof Hrow as (Hc & Hb & Hs & Hl). unfold advance_contiguous_index.
  destruct (advance_loop_total (indexed_transfer_events d) (es_contiguous_index r) (es_contiguous_block r) false Hok Hc)
    as [[[c b] adv] Hloop].
  pose proof (advance_loop_spec _ Hok (S (size (indexed_transfer_events d))) _ (es_contiguous_block r) false Hc) as Hspec.
  rewrite Hloop in Hspec. destruct Hspec as [Hw Hcase].
  assert (state_row_ok (mkEventStateRow c b (es_last_synced_block r) (es_last_seen_contract_index r))) as Hst.
  { destruct Hcase as [(-> & -> & _)|(Hlt & _ & row & Hrow' & ->)]; [done|].
    apply Hok in Hrow' as [? ?]. split_and!; cbn; try done; lia. }
  exists c, b. split_and!; try done; [|tauto].
  rewrite (M_bind_run _ _ d (set_event_state (<[tok := mkEventStateRow c b (es_last_synced_block r)
    (es_last_seen_contract_index r)]> (event_indexer_state d)) d) (mkEventStateRow c b (es_last_synced_block r) (es_last_seen_contract_index r))).
  - unfold lift. by rewrite indexer_state_from_row_ok.
  - apply transaction_ok. unfold get, mbind, M_bind. rewrite Hr, Hloop.
    destruct Hcase as [(-> & -> & ->)|(Hlt & -> & _)].
    + unfold mret, M_ret. rewrite insert_id; [by destruct d|]. rewrite Hr. by destruct r.
    + unfold update_state, modify, mret, M_ret. do 2 f_equal. apply map_eq. intros o.
      destruct (decide (o = tok)) as [->|]; [by rewrite lookup_alter_eq, lookup_insert_eq, Hr|].
      by rewrite lookup_alter_ne, lookup_insert_ne.
Qed.
End advance.

(** ** [sync] against a consistent node *)

(** What a token's rows satisfy between two runs: the stored events come from the
    log, everything up to the contiguous index and everything below the last
    synced block is stored. *)
Record indexer_inv (tok : Z) (evs : list IndexedEvent) (d : Db) : Prop := {
  ii_token : is_Some (tokens d !! tok);
  ii_sound : events_sound tok evs d;
  ii_state : forall r, event_indexer_state d !! tok = Some r ->
    state_row_ok r
    /\ (forall k : nat, Z.of_nat k <= es_contiguous_index r -> is_Some (indexed_transfer_events d !! (tok, Z.of_nat k)))
    /\ forall k e, evs !! k = Some e -> ie_eth_block_number e < es_last_synced_block r -> event_stored tok k e d;
}.

(** Without a known event past the gap the whole tail is rescanned. *)
Lemma find_gap_anchor_tail tok st target latest deployed d :
  let from := Z.max (default deployed (contiguous_block st)) deployed in
  -1 <= contiguous_index st < i64_max -> contiguous_index st < target ->
  (forall i, contiguous_index st < i -> indexed_transfer_events d !! (tok, i) = None) ->
  find_gap_anchor tok st target latest deployed d
  = (d, Ok (if latest <? from then None else Some (mkGapAnchor from latest))).
Proof.
  intros from Hc Ht Hnone. unfold find_gap_anchor, i64_max in *.
  rewrite as_i64_id by (unfold in_i64; lia). rewrite as_u64_id by (unfold in_u64; lia).
  rewrite Z.max_l by lia. if_case E; [lia|].
  rewrite (M_bind_run _ _ d d (contiguous_index st + 1)).
  2:{ apply lift_run. unfold ev_to_i64, i64_try_from, i64_max. by rewrite (proj2 (Z.leb_le _ _)) by lia. }
  rewrite (M_bind_run _ _ d d None).
  2:{ unfold gets. rewrite select_asc_nil; [done|]. intros [o i] row Hrow. cbn.
      destruct (o =? tok) eqn:Eo; bool_cases; [|done]. subst o. cbn. apply Z.leb_gt.
      destruct (decide (contiguous_index st < i)); [|lia]. rewrite (Hnone i) in Hrow by done. done. }
  rewrite (M_bind_run _ _ d d (Some latest)) by done. fold from. by destruct (latest <? from).
Qed.

Lemma map_filter_logs a b ls :
  map log_to_event (filter (log_in_blocks a b) ls) = filter (in_blocks a b) (events_of ls).
Proof.
  unfold events_of. induction ls as [|l ls IH]; [done|]. rewrite fmap_cons, !filter_cons.
  destruct (decide (log_in_blocks a b l)) as [H|H], (decide (in_blocks a b (log_to_event l))) as [H'|H'];
    [|exfalso; auto..|]; cbn [map]; by rewrite IH.
Qed.

Section sync.
Context {N : EthNode} (logs : list IndexedTransferLog) (latest : Z) (view : node_view N logs latest).
Context (x : EventIndexer).
Let tok := ei_token_id x.
Let evs := events_of logs.
Let deployed := ei_deployed_block_number x.
Hypothesis x_parts : ei_partitions x = mkEventIndexerPartitions tok (EventsTable, tok) (EventStateTable, tok).
Hypothesis span_ok : 0 < block_span (ei_config x) < 2 ^ 64.
Hypothesis overlap_ok : 0 <= forward_scan_overlap (ei_config x) < block_span (ei_config x).
Hypothesis deployed_ok : 0 <= deployed < i64_max.
Hypothesis deployed_first : forall k e, evs !! k = Some e -> deployed <= ie_eth_block_number e.

Lemma events_of_wf k e :
  evs !! k = Some e ->
  ie_event_index e = Z.of_nat k /\ ie_event_index e < i64_max /\ 0 <= ie_eth_block_number e < i64_max.
Proof.
  unfold evs, events_of. rewrite list_lookup_fmap. destruct (logs !! k) as [l|] eqn:E; [|done].
  intros He. apply (inj Some) in He. subst e.
  destruct (nv_wf _ _ _ view k l E) as (Hi & b & Hb & Hr). destruct (nv_index _ _ _ view) as (n & _ & Hn).
  pose proof (nv_latest_range _ _ _ view). apply lookup_lt_Some in E.
  cbn [log_to_event ie_event_index ie_eth_block_number]. rewrite Hb, uint256_as_u64_mod, Hi. cbn [default].
  unfold i64_max in *. rewrite Z.mod_small by lia. cbn. lia.
Qed.

Lemma events_of_logs a b :
  0 <= a -> b <= latest -> get_indexed_transfer_events a b = Ok (filter (in_blocks a b) evs).
Proof.
  intros Ha Hb. unfold get_indexed_transfer_events. rewrite (nv_logs _ _ _ view) by done.
  cbn [mbind result_bind]. f_equal. apply map_filter_logs.
Qed.

Lemma event_block_latest k e : evs !! k = Some e -> ie_eth_block_number e <= latest.
Proof.
  unfold evs, events_of. rewrite list_lookup_fmap. destruct (logs !! k) as [l|] eqn:E; [|done].
  intros He. apply (inj Some) in He. subst e.
  destruct (nv_wf _ _ _ view k l E) as (_ & b & Hb & Hr). cbn. rewrite Hb. cbn. lia.
Qed.

Lemma sound_rows_ok d : events_sound tok evs d -> event_rows_ok tok (indexed_transfer_events d).
Proof.
  intros Hs i row Hrow. apply Hs in Hrow as (k & e & -> & Hk & ->).
  destruct (events_of_wf k e Hk) as (Hi & Hlt & Hb). split; [lia|]. cbn. lia.
Qed.

(** The state row after [ensure_state_row]. *)
Lemma ensure_state_row_spec d :
  indexer_inv tok evs d -> can_insert EventStateTable tok d = true ->
  exists r, ensure_state_row tok deployed d
      = (set_event_state (<[tok := r]> (event_indexer_state d)) d,
         Ok (mkIndexerState (es_contiguous_index r) (es_contiguous_block r) (es_last_synced_block r) (es_last_seen_contract_index r)))
    /\ state_row_ok r
    /\ (forall k : nat, Z.of_nat k <= es_contiguous_index r -> is_Some (indexed_transfer_events d !! (tok, Z.of_nat k)))
    /\ forall k e, evs !! k = Some e -> ie_eth_block_number e < es_last_synced_block r -> event_stored tok k e d.
Proof.
  intros [Ht Hs Hst] Hc. unfold ensure_state_row, ev_to_i64, i64_try_from.
  rewrite (proj2 (Z.leb_le deployed _)) by lia. unfold lift, ok_or, get, gets, mbind, M_bind.
  destruct (event_indexer_state d !! tok) as [r|] eqn:Er.
  - destruct (Hst r eq_refl) as (Hr & Hcont & Hsync). unfold mret, M_ret. rewrite Er.
    destruct (es_last_synced_block r <? deployed) eqn:E; bool_cases.
    + exists (mkEventStateRow (es_contiguous_index r) (es_contiguous_block r) deployed (es_last_seen_contract_index r)).
      assert (state_row_ok (mkEventStateRow (es_contiguous_index r) (es_contiguous_block r) deployed (es_last_seen_contract_index r))) as Hr'.
      { destruct Hr as (? & ? & ? & ?). split_and!; cbn; try done; lia. }
      unfold modify. rewrite indexer_state_from_row_ok by done. split_and!; try done.
      cbn. intros k e Hk He. specialize (deployed_first k e Hk). lia.
    + exists r. rewrite indexer_state_from_row_ok by done. split_and!; try done.
      rewrite insert_id by done. by destruct d.
  - rewrite Hc. unfold modify. cbn [event_indexer_state set_event_state]. rewrite lookup_insert_eq. cbn [es_last_synced_block].
    rewrite Z.ltb_irrefl. exists (mkEventStateRow (-1) None deployed None).
    assert (state_row_ok (mkEventStateRow (-1) None deployed None)) as Hr' by (split_and!; cbn; unfold i64_max in *; lia).
    rewrite indexer_state_from_row_ok by done. split_and!; try done; cbn; [lia|].
    intros k e Hk He. specialize (deployed_first k e Hk). lia.
Qed.

(** With every event stored the watermark is the last index of the log. *)
Lemma watermark_complete d c0 c :
  events_sound tok evs d -> (forall k e, evs !! k = Some e -> event_stored tok k e d) ->
  -1 <= c0 < Z.of_nat (length evs) -> is_watermark tok (indexed_transfer_events d) c0 c -> c = Z.of_nat (length evs) - 1.
Proof.
  intros Hs Hall Hc0 Hw. eapply watermark_unique; [exact Hw|]. split_and!; [lia| |].
  - intros i Hi. destruct (lookup_lt_is_Some_2 evs (Z.to_nat i)) as [e He]; [lia|].
    specialize (Hall _ _ He). unfold event_stored in Hall. rewrite Z2Nat.id in Hall by lia. by rewrite Hall.
  - destruct (_ !! _) as [row|] eqn:E; [|done]. apply Hs in E as (k & e & Hk & He & _). apply lookup_lt_Some in He. lia.
Qed.

Lemma contiguous_bound d r :
  events_sound tok evs d -> state_row_ok r ->
  (forall k : nat, Z.of_nat k <= es_contiguous_index r -> is_Some (indexed_transfer_events d !! (tok, Z.of_nat k))) ->
  -1 <= es_contiguous_index r < Z.of_nat (length evs).
Proof.
  intros Hs (Hc & _) Hcont. split; [lia|]. destruct (decide (es_contiguous_index r < 0)); [lia|].
  destruct (Hcont (Z.to_nat (es_contiguous_index r))) as [row Hrow]; [lia|].
  apply Hs in Hrow as (k & e & Hk & He & _). apply lookup_lt_Some in He. lia.
Qed.

(** Backfilling a complete copy changes nothing. *)
Lemma backfill_complete fuel scan_fuel d r n :
  (0 < fuel)%nat -> latest < Z.of_nat scan_fuel -> can_insert EventsTable tok d = true ->
  events_sound tok evs d -> (forall k e, evs !! k = Some e -> event_stored tok k e d) ->
  event_indexer_state d !! tok = Some r -> state_row_ok r ->
  es_contiguous_index r = Z.of_nat (length evs) - 1 -> Z.of_nat (length evs) <= n < i64_max ->
  exists st, backfill_missing_indices fuel scan_fuel x
      (mkIndexerState (es_contiguous_index r) (es_contiguous_block r) (es_last_synced_block r) (es_last_seen_contract_index r))
      (checked_sub n 1) latest d = (d, Ok st).
Proof.
  intros Hf Hsf Hc Hs Hall Hr Hrow Hci Hn. unfold backfill_missing_indices, checked_sub. if_case E; [by eexists|].
  destruct fuel as [|fuel]; [lia|]. cbn [backfill_loop contiguous_index]. unfold i64_max in *.
  assert (0 <= es_contiguous_index r -> as_u64 (es_contiguous_index r) = es_contiguous_index r) as Hu
    by (intros; apply as_u64_id; unfold in_u64; lia).
  destruct ((0 <=? _) && _) eqn:E1; [by eexists|].
  assert (Z.of_nat (length evs) <= n - 1) as Htgt.
  { destruct (0 <=? es_contiguous_index r) eqn:E2; bool_cases; [|lia]. cbn in E1. rewrite Hu in E1 by lia. bool_cases. lia. }
  erewrite M_bind_run.
  2:{ apply find_gap_anchor_tail; cbn [contiguous_index]; [unfold i64_max; lia | lia |].
      intros i Hi. destruct (indexed_transfer_events d !! (tok, i)) as [row'|] eqn:E'; [|done].
      apply Hs in E' as (k & e & -> & He & _). apply lookup_lt_Some in He. lia. }
  cbv zeta. cbn [contiguous_block]. if_case E4; [by eexists|]. cbn [ga_from_block ga_to_block].
  destruct (scan_chunked_spec tok evs events_of_wf latest events_of_logs (nv_latest_range _ _ _ view)
    x scan_fuel (Z.max (default deployed (es_contiguous_block r)) deployed) latest d) as (d' & Hscan & G & _);
    [done|done|done|lia|done|lia|done|].
  rewrite (M_bind_run _ _ _ _ _ Hscan).
  assert (d' = d) as ->.
  { rewrite (eg_rest _ _ _ _ G). destruct d. cbn. unfold set_events. cbn. f_equal. apply map_eq. intros [o i].
    destruct (decide (o = tok)) as [->|Ho]; [|by rewrite (eg_other _ _ _ _ G)].
    apply option_eq. intros row. split; intros Hrow'.
    - apply (eg_sound _ _ _ _ G Hs) in Hrow' as (k & e & -> & He & ->). by apply Hall.
    - apply Hs in Hrow' as (k & e & -> & He & ->). apply (eg_keep _ _ _ _ G k e He). by apply Hall. }
  destruct (advance_spec tok d r (sound_rows_ok d Hs) Hr Hrow) as (c & b & Hadv & Hw & _ & Hcase).
  rewrite (M_bind_run _ _ _ _ _ Hadv). cbn [contiguous_index].
  assert (c = es_contiguous_index r) as ->.
  { rewrite Hci. eapply watermark_complete; [done..| |exact Hw]. lia. }
  rewrite (proj2 (Z.leb_le _ _)) by lia. unfold mret, M_ret.
  destruct Hcase as [(_ & ->)|(Hlt & _)]; [|lia]. rewrite insert_id by (rewrite Hr; by destruct r).
  eexists. by destruct d.
Qed.

(** The rows of other tokens and the other tables. *)
Record sync_frame (d d' : Db) : Prop := {
  sf_rest : d' = set_partitions (partitions d') (set_events (indexed_transfer_events d') (set_event_state (event_indexer_state d') d));
  sf_events : forall o i, o <> tok -> indexed_transfer_events d' !! (o, i) = indexed_transfer_events d !! (o, i);
  sf_state : forall o, o <> tok -> event_indexer_state d' !! o = event_indexer_state d !! o;
}.

(** The scan of [sync]: after it every event of the log is stored. *)
Lemma forward_scan_complete scan_fuel d r :
  latest < Z.of_nat scan_fuel -> can_insert EventsTable tok d = true -> 0 <= es_last_synced_block r ->
  (forall k e, evs !! k = Some e -> ie_eth_block_number e < es_last_synced_block r -> event_stored tok k e d) ->
  let forward_start := Z.max (saturating_sub (es_last_synced_block r) (forward_scan_overlap (ei_config x))) deployed in
  exists d', (if forward_start <=? latest then scan_chunked scan_fuel x forward_start latest else mret tt) d = (d', Ok tt)
    /\ events_grow tok evs d d' /\ forall k e, evs !! k = Some e -> event_stored tok k e d'.
Proof.
  intros Hsf Hc Hls Hsync fs. assert (0 <= fs) as Hfs by lia.
  assert (forall k e, evs !! k = Some e -> ~ in_blocks fs latest e -> event_stored tok k e d) as Hold.
  { intros k e Hk Hout. apply (Hsync k e Hk). pose proof (event_block_latest k e Hk). pose proof (deployed_first k e Hk).
    unfold in_blocks, fs, saturating_sub in Hout. destruct (_ <? _) eqn:E; bool_cases; lia. }
  if_case E.
  - destruct (scan_chunked_spec tok evs events_of_wf latest events_of_logs (nv_latest_range _ _ _ view)
      x scan_fuel fs latest d) as (d' & Hscan & G & Hin); [done|done|done|done|done|lia|done|].
    exists d'. split_and!; [done..|]. intros k e Hk. destruct (decide (in_blocks fs latest e)); [by apply Hin|].
    apply (eg_keep _ _ _ _ G k e Hk). by apply Hold.
  - exists d. split_and!; [done..|]. intros k e Hk. apply (Hold k e Hk). unfold in_blocks. lia.
Qed.

Lemma persist_watermark_spec d r n :
  event_indexer_state d !! tok = Some r -> 0 <= n < i64_max ->
  persist_sync_watermark tok latest n d
  = (set_event_state (<[tok := mkEventStateRow (es_contiguous_index r) (es_contiguous_block r) latest (Some n)]>
       (event_indexer_state d)) d, Ok tt).
Proof.
  intros Hr Hn. pose proof (nv_latest_range _ _ _ view).
  unfold persist_sync_watermark, ev_to_i64, i64_try_from. rewrite !(proj2 (Z.leb_le _ _)) by lia.
  unfold ok_or, lift, mbind, M_bind, update_state, modify. do 2 f_equal. apply map_eq. intros o.
  destruct (decide (o = tok)) as [->|]; [by rewrite lookup_alter_eq, lookup_insert_eq, Hr|].
  by rewrite lookup_alter_ne, lookup_insert_ne.
Qed.

Lemma sync_spec fuel scan_fuel d :
  (0 < fuel)%nat -> latest < Z.of_nat scan_fuel -> indexer_inv tok evs d ->
  exists d' r, sync fuel scan_fuel x d = (d', Ok tt) /\ sync_frame d d'
    /\ (forall k e, evs !! k = Some e -> event_stored tok k e d')
    /\ event_indexer_state d' !! tok = Some r
    /\ es_contiguous_index r = Z.of_nat (length evs) - 1 /\ es_last_synced_block r = latest
    /\ indexer_inv tok evs d'.
Proof.
  intros Hf Hsf Hinv. destruct (nv_index _ _ _ view) as (n & Hidx & Hn).
  assert (Z.of_nat (length evs) <= n < i64_max) as Hn' by (unfold evs, events_of; by rewrite length_fmap).
  pose proof (nv_latest_range _ _ _ view) as Hlr. unfold sync.
  set (d0 := set_partitions ({[(EventStateTable, tok)]} ∪ ({[(EventsTable, tok)]} ∪ partitions d)) d).
  rewrite (M_bind_run _ _ d d0 tt) by (by rewrite x_parts). fold tok deployed.
  assert (forall tb, tb = EventsTable \/ tb = EventStateTable -> can_insert tb tok d0 = true) as Hc0.
  { intros tb Htb. unfold can_insert. rewrite !bool_decide_eq_true_2; [done | apply Hinv |].
    cbn. rewrite !elem_of_union, !elem_of_singleton. destruct Htb as [->| ->]; auto. }
  assert (indexer_inv tok evs d0) as Hinv0 by (destruct Hinv; by split).
  destruct (ensure_state_row_spec d0 Hinv0 (Hc0 _ (or_intror eq_refl))) as (r & Hens & Hr & Hcont & Hsync).
  rewrite (M_bind_run _ _ _ _ _ Hens). set (d1 := set_event_state _ d0).
  erewrite (M_bind_run _ _ d1) by (apply lift_run; unfold contract_latest_block; by rewrite (nv_latest _ _ _ view)).
  assert (uint256_as_u64 n = n) as Hun by (rewrite uint256_as_u64_mod; apply Z.mod_small; unfold i64_max in *; lia).
  rewrite (M_bind_run _ _ d1 d1 n) by (apply lift_run; unfold contract_index; rewrite Hidx; cbn [mbind result_bind]; by rewrite Hun).
  cbv zeta. cbn [last_synced_block].
  destruct (forward_scan_complete scan_fuel d1 r) as (d2 & Hscan & G & Hall);
    [done | by apply (Hc0 EventsTable); left | apply Hr | done |].
  rewrite (M_bind_run _ _ _ _ _ Hscan).
  assert (event_indexer_state d2 !! tok = Some r) as Hr2 by (rewrite (eg_rest _ _ _ _ G); apply lookup_insert_eq).
  rewrite (M_bind_run _ _ _ _ _ (persist_watermark_spec d2 r n Hr2 ltac:(lia))).
  set (r3 := mkEventStateRow (es_contiguous_index r) (es_contiguous_block r) latest (Some n)). set (d3 := set_event_state _ d2).
  assert (events_sound tok evs d3) as Hs3 by (apply (eg_sound _ _ _ _ G); apply Hinv).
  assert (state_row_ok r3) as Hr3 by (destruct Hr as (? & ? & ? & ?); split_and!; cbn; try done; lia).
  destruct (advance_spec tok d3 r3 (sound_rows_ok d3 Hs3)) as (c & b & Hadv & Hw & Hr4 & _); [apply lookup_insert_eq|done|].
  rewrite (M_bind_run _ _ _ _ _ Hadv). set (r4 := mkEventStateRow c b _ _) in *. set (d4 := set_event_state _ d3).
  assert (c = Z.of_nat (length evs) - 1) as Hceq.
  { eapply watermark_complete; [exact Hs3|exact Hall| |exact Hw]. apply (contiguous_bound d0 r); [apply Hinv|done|done]. }
  destruct (backfill_complete fuel scan_fuel d4 r4 n) as (st & Hback); try done;
    [|apply lookup_insert_eq|].
  { change (can_insert EventsTable tok d2 = true). rewrite (events_grow_can_insert _ _ _ _ _ _ G). by apply (Hc0 EventsTable); left. }
  rewrite (M_bind_run _ _ _ _ _ Hback). exists d4, r4. split_and!; [reflexivity| |done|apply lookup_insert_eq|done|done|].
  - split; [|exact (eg_other _ _ _ _ G)|].
    + unfold d4, d3. rewrite (eg_rest _ _ _ _ G). by destruct d.
    + intros o Ho. unfold d4, d3. rewrite (eg_rest _ _ _ _ G). cbn. by rewrite !lookup_insert_ne.
  - split; [|exact Hs3|].
    + unfold d4, d3. rewrite (eg_rest _ _ _ _ G). apply Hinv.
    + intros r' Hr'. assert (r' = r4) as -> by (unfold d4 in Hr'; cbn in Hr'; rewrite lookup_insert_eq in Hr'; congruence).
      split_and!; [done| |intros; by apply Hall]. intros k Hk. cbn in Hk.
      destruct (lookup_lt_is_Some_2 evs k) as [e He]; [lia|]. exists (row_of_event e). exact (Hall k e He).
Qed.
End sync.

(** ** A scan whose overlap is not smaller than its span *)

Lemma scan_loop_stuck {N : EthNode} x to_block bound : forall fuel from d,
  0 < block_span (ei_config x) <= forward_scan_overlap (ei_config x) ->
  0 <= from <= bound -> bound + block_span (ei_config x) - 1 < to_block < u64_max ->
  (scan_loop fuel x from to_block d).2 <> Ok tt.
Proof.
  induction fuel as [|fuel IH]; intros from d Hs Hf Hb; cbn [scan_loop]; [done|]. if_case E; [lia|].
  unfold saturating_add_u64. rewrite Z.min_r by lia. rewrite Z.min_l by lia.
  set (to := from + _). unfold mbind at 1, M_bind at 1, lift. destruct (contract_call _ _) as [fetched|e]; [|done].
  unfold mbind, M_bind. destruct ((if bool_decide (fetched = []) then mret tt else insert_events (ei_token_id x) fetched) d) as [d1 [u|e]]; [|done].
  cbv zeta. if_case E'; [lia|]. apply IH; [done| |done].
  unfold saturating_sub. if_case E''; lia.
Qed.

(** ** Token registration *)

(** The primary key and the unique constraint of [tokens]. *)
Definition tokens_ok (d : Db) : Prop :=
  (forall i r, tokens d !! i = Some r -> 0 < i < next_token_id d) /\ 0 < next_token_id d
  /\ forall i j r s, tokens d !! i = Some r -> tokens d !! j = Some s ->
       tk_address r = tk_address s -> tk_chain_id r = tk_chain_id s -> i = j.

(** The registered row of a token, whatever its verifier. *)
Definition registered (m : TokenMetadata) (i : Z) (d : Db) : Prop :=
  exists r, tokens d !! i = Some r /\ tk_address r = address_bytes (tm_token_address m) /\ tk_chain_id r = tm_chain_id m.

Lemma ensure_token_record_spec m d :
  tokens_ok d -> tm_chain_id m <= i64_max ->
  exists d' i, ensure_token_record m d = (d', Ok i) /\ tokens_ok d' /\ registered m i d'
    /\ (forall j, registered m j d -> i = j)
    /\ (forall j r, tokens d !! j = Some r -> j <> i -> tokens d' !! j = Some r)
    /\ (forall m' j, registered m' j d -> registered m' j d').
Proof.
  intros (Hid & Hnext & Huniq) Hc. unfold ensure_token_record, ev_to_i64, i64_try_from.
  rewrite (proj2 (Z.leb_le _ _)) by done. unfold ok_or, lift, get, mbind, M_bind.
  destruct (select _ _) as [|[i r] rows] eqn:Es.
  - assert (forall j s, tokens d !! j = Some s -> tk_address s = address_bytes (tm_token_address m) -> tk_chain_id s <> tm_chain_id m) as Hnew.
    { intros j s Hj Ha Hch. assert ((j, s) ∈ select (fun kv : Z * TokenRow => bool_decide (tk_address kv.2 = address_bytes (tm_token_address m))
        && (tk_chain_id kv.2 =? tm_chain_id m)) (tokens d)) as Hin.
      { apply elem_of_select. split; [done|]. cbn [snd]. rewrite Ha, Hch, Z.eqb_refl, bool_decide_eq_true_2 by done. done. }
      rewrite Es in Hin. by apply not_elem_of_nil in Hin. }
    assert (tokens d !! next_token_id d = None) as Hfresh.
    { destruct (_ !! _) as [r|] eqn:E; [|done]. apply Hid in E. lia. }
    unfold modify, mret, M_ret. do 2 eexists; split; [reflexivity|]. unfold registered.
    cbn [tokens set_tokens next_token_id tokens_ok]. split_and!.
    + split_and!; cbn [tokens set_tokens next_token_id]; [|lia|].
      * intros i r. rewrite lookup_insert. case_decide; [intros _; lia|]. intros Hi. apply Hid in Hi. lia.
      * intros i j r s. rewrite !lookup_insert. repeat case_decide; subst; [done|..].
        -- intros [= <-] Hj. cbn. intros Ha Hch. by destruct (Hnew j s Hj).
        -- intros Hi [= <-]. cbn. intros Ha Hch. by destruct (Hnew i r Hi).
        -- apply Huniq.
    + eexists. by rewrite lookup_insert_eq.
    + intros j (r & Hj & Ha & Hch). by destruct (Hnew j r Hj).
    + intros j r Hj Hne. by rewrite lookup_insert_ne.
    + intros m' j (r & Hj & ?). exists r. rewrite lookup_insert_ne; [done|]. intros <-. congruence.
  - assert ((i, r) ∈ select (fun kv : Z * TokenRow => bool_decide (tk_address kv.2 = address_bytes (tm_token_address m))
        && (tk_chain_id kv.2 =? tm_chain_id m)) (tokens d)) as Hin by (rewrite Es; left).
    apply elem_of_select in Hin as [Hi Hp]. cbn [snd] in Hp. bool_cases. apply bool_decide_eq_true in H. rename H into Ha, H0 into Hch.
    unfold modify, mret, M_ret. do 2 eexists; split; [reflexivity|]. unfold registered.
    cbn [tokens set_tokens next_token_id]. split_and!.
    + split_and!; cbn [tokens set_tokens next_token_id]; [|lia|].
      * intros j s. rewrite lookup_insert. case_decide; [intros _; subst; apply Hid in Hi; lia|]. intros Hj. apply Hid in Hj. lia.
      * intros j k s s'. rewrite !lookup_insert. repeat case_decide; subst; [done|..].
        -- intros [= <-] Hk. cbn. intros. by apply (Huniq j k r s').
        -- intros Hj [= <-]. cbn. intros. by apply (Huniq j k s r).
        -- apply Huniq.
    + eexists. by rewrite lookup_insert_eq.
    + intros j (s & Hj & Ha' & Hch'). eapply Huniq; [exact Hi|exact Hj|congruence|congruence].
    + intros j s Hj Hne. by rewrite lookup_insert_ne.
    + intros m' j (s & Hj & Ha' & Hch'). destruct (decide (i = j)) as [->|].
      * rewrite lookup_insert_eq. eexists. split; [done|]. cbn. by replace r with s by congruence.
      * exists s. by rewrite lookup_insert_ne.
Qed.

(** ** Properties *)

(** C22: A [sync] against a consistent node copies the whole log: when the overlap is
    smaller than the block span (and the fuels exceed the block height), [sync]
    returns successfully, every event of the contract's log up to the latest block
    is stored with its exact data, the contiguous index is the last index of the
    log, the last synced block is the latest block, the invariant under which
    the next run starts holds again, and no row of another token is touched. *)
Theorem sync_copies_log {N : EthNode} logs latest x fuel scan_fuel d :
  node_view N logs latest ->
  ei_partitions x = mkEventIndexerPartitions (ei_token_id x) (EventsTable, ei_token_id x) (EventStateTable, ei_token_id x) ->
  0 < block_span (ei_config x) < 2 ^ 64 ->
  0 <= forward_scan_overlap (ei_config x) < block_span (ei_config x) ->
  0 <= ei_deployed_block_number x < i64_max ->
  (forall k e, events_of logs !! k = Some e -> ei_deployed_block_number x <= ie_eth_block_number e) ->
  (0 < fuel)%nat -> latest < Z.of_nat scan_fuel -> indexer_inv (ei_token_id x) (events_of logs) d ->
  exists d' r, sync fuel scan_fuel x d = (d', Ok tt) /\ sync_frame x d d'
    /\ (forall k e, events_of logs !! k = Some e -> event_stored (ei_token_id x) k e d')
    /\ event_indexer_state d' !! ei_token_id x = Some r
    /\ es_contiguous_index r = Z.of_nat (length (events_of logs)) - 1 /\ es_last_synced_block r = latest
    /\ indexer_inv (ei_token_id x) (events_of logs) d'.
Proof. intros. by eapply sync_spec. Qed.

(** A scan never completes when the overlap is not smaller than the block span:
    for any node and any number of iterations, [scan_chunked] over a range longer
    than one span has not returned successfully, because the start of the next
    chunk never moves past the start of the first one. *)
Theorem scan_never_completes {N : EthNode} x from to_block fuel d :
  0 < block_span (ei_config x) <= forward_scan_overlap (ei_config x) ->
  0 <= from -> from + block_span (ei_config x) - 1 < to_block < u64_max ->
  (scan_chunked fuel x from to_block d).2 <> Ok tt.
Proof. intros Hs Hf Hb. unfold scan_chunked. if_case E; [lia|]. by apply (scan_loop_stuck x to_block from). Qed.

(** [advance_contiguous_index] moves the watermark exactly to the end of the run of
    consecutive stored indices: every index up to it is stored, the next one is not,
    it records the block of the event it stops at, changes no other row, and its
    loop always terminates. *)
Theorem advance_is_maximal tok d r :
  event_rows_ok tok (indexed_transfer_events d) -> event_indexer_state d !! tok = Some r -> state_row_ok r ->
  exists c b, advance_contiguous_index tok d
      = (set_event_state (<[tok := mkEventStateRow c b (es_last_synced_block r) (es_last_seen_contract_index r)]>
           (event_indexer_state d)) d,
         Ok (mkIndexerState c b (es_last_synced_block r) (es_last_seen_contract_index r)))
    /\ is_watermark tok (indexed_transfer_events d) (es_contiguous_index r) c
    /\ (c = es_contiguous_index r /\ b = es_contiguous_block r
        \/ es_contiguous_index r < c
           /\ exists row, indexed_transfer_events d !! (tok, c) = Some row /\ b = Some (ev_block row)).
Proof.
  intros H1 H2 H3. destruct (advance_spec tok d r H1 H2 H3) as (c & b & Ha & Hw & _ & Hc). by exists c, b.
Qed.

(** Registering a token is idempotent and collision free: on a database that
    respects the keys of [tokens], [ensure_token_record] always returns an id, the
    id under which that (address, chain) pair was already registered if it was, keeps
    every other registration, and preserves the keys. *)
Theorem ensure_token_record_stable m d :
  tokens_ok d -> tm_chain_id m <= i64_max ->
  exists d' i, ensure_token_record m d = (d', Ok i) /\ tokens_ok d' /\ registered m i d'
    /\ (forall j, registered m j d -> i = j)
    /\ (forall m' j, registered m' j d -> registered m' j d')
    /\ exists d'', ensure_token_record m d' = (d'', Ok i).
Proof.
  intros Hok Hc. destruct (ensure_token_record_spec m d Hok Hc) as (d' & i & H1 & H2 & H3 & H4 & _ & H6).
  exists d', i. split_and!; try done.
  destruct (ensure_token_record_spec m d' H2 Hc) as (d'' & i' & E1 & _ & _ & E4 & _).
  exists d''. rewrite E1. by rewrite (E4 i H3).
Qed.

(** ** Witnesses *)

Definition toy_logs : list IndexedTransferLog :=
  [mkIndexedTransferLog 0 1 2 100 (Some 7); mkIndexedTransferLog 1 2 3 50 (Some 9); mkIndexedTransferLog 2 3 1 25 (Some 30)].

Definition toy_node : EthNode := {|
  eth_get_block_number := Ok 31;
  eth_index := Ok 4;
  eth_indexed_transfer_logs := fun a b => Ok (filter (log_in_blocks a b) toy_logs);
|}.

Definition toy_indexer (span overlap : Z) : EventIndexer :=
  mkEventIndexer 5 (mkEventIndexerPartitions 1 (EventsTable, 1) (EventStateTable, 1)) (mkEventIndexerConfig span overlap).

Definition toy_event_db : Db := set_tokens {[1 := mkTokenRow (be_bytes 20 77) (be_bytes 20 78) 1]} 2 empty_db.

Lemma toy_logs_cases (P : nat -> IndexedTransferLog -> Prop) :
  P 0%nat (mkIndexedTransferLog 0 1 2 100 (Some 7)) -> P 1%nat (mkIndexedTransferLog 1 2 3 50 (Some 9)) ->
  P 2%nat (mkIndexedTransferLog 2 3 1 25 (Some 30)) -> forall k l, toy_logs !! k = Some l -> P k l.
Proof. intros H0 H1 H2 [|[|[|k]]] l H; cbn in H; try (apply (inj Some) in H; by subst l). done. Qed.

Lemma toy_node_view : node_view toy_node toy_logs 31.
Proof.
  split; [done|by vm_compute|by exists 4|done|].
  apply toy_logs_cases; (split; [done|]); eexists; (split; [done|]); lia.
Qed.

Lemma sync_copies_log_witness :
  exists d' r, @sync toy_node 1 32 (toy_indexer 10 3) toy_event_db = (d', Ok tt) /\ sync_frame (toy_indexer 10 3) toy_event_db d'
    /\ (forall k e, events_of toy_logs !! k = Some e -> event_stored 1 k e d')
    /\ event_indexer_state d' !! 1 = Some r
    /\ es_contiguous_index r = Z.of_nat (length (events_of toy_logs)) - 1 /\ es_last_synced_block r = 31
    /\ indexer_inv 1 (events_of toy_logs) d'.
Proof.
  apply (@sync_copies_log toy_node toy_logs 31 (toy_indexer 10 3) 1 32 toy_event_db).
  - exact toy_node_view.
  - reflexivity.
  - cbn; lia.
  - cbn; lia.
  - by vm_compute.
  - intros k e. unfold events_of. rewrite list_lookup_fmap. destruct (toy_logs !! k) as [l|] eqn:E; [|done].
    intros He. apply (inj Some) in He. subst e. revert k l E. apply (toy_logs_cases (fun _ l => 5 <= ie_eth_block_number (log_to_event l))); cbn; lia.
  - lia.
  - lia.
  - split; [by eexists|done|done].
Defined.

Lemma scan_never_completes_witness : (@scan_chunked toy_node 100 (toy_indexer 10 10) 5 31 toy_event_db).2 <> Ok tt.
Proof. apply (@scan_never_completes toy_node); cbn; unfold u64_max; lia. Defined.

Definition toy_gap_db : Db :=
  set_event_state {[1 := mkEventStateRow (-1) None 5 None]}
    (set_events {[(1, 0) := mkEventRow [] [] [] 7; (1, 1) := mkEventRow [] [] [] 9; (1, 3) := mkEventRow [] [] [] 11]} toy_event_db).

Lemma advance_is_maximal_witness :
  exists c b, advance_contiguous_index 1 toy_gap_db
      = (set_event_state (<[1 := mkEventStateRow c b 5 None]> (event_indexer_state toy_gap_db)) toy_gap_db,
         Ok (mkIndexerState c b 5 None))
    /\ is_watermark 1 (indexed_transfer_events toy_gap_db) (-1) c
    /\ (c = -1 /\ b = None \/ -1 < c /\ exists row, indexed_transfer_events toy_gap_db !! (1, c) = Some row /\ b = Some (ev_block row)).
Proof.
  apply (advance_is_maximal 1 toy_gap_db (mkEventStateRow (-1) None 5 None)).
  - intros i row Hrow. cbn [toy_gap_db indexed_transfer_events set_events set_event_state] in Hrow.
    rewrite !lookup_insert, lookup_singleton in Hrow.
    repeat case_decide; simplify_eq; cbn; unfold i64_max; lia.
  - by vm_compute.
  - by vm_compute.
Defined.

Lemma ensure_token_record_stable_witness :
  exists d' i, ensure_token_record (mkTokenMetadata 77 90 1) toy_event_db = (d', Ok i) /\ tokens_ok d'
    /\ registered (mkTokenMetadata 77 90 1) i d'
    /\ (forall j, registered (mkTokenMetadata 77 90 1) j toy_event_db -> i = j)
    /\ (forall m' j, registered m' j toy_event_db -> registered m' j d')
    /\ exists d'', ensure_token_record (mkTokenMetadata 77 90 1) d' = (d'', Ok i).
Proof.
  apply ensure_token_record_stable; [|by vm_compute]. split_and!; cbn.
  - intros i r Hi. apply lookup_singleton_Some in Hi as [<- _]. lia.
  - lia.
  - intros i j r s Hi Hj _ _. apply lookup_singleton_Some in Hi as [<- _]. by apply lookup_singleton_Some in Hj as [<- _].
Defined.
