(* ===== verification/Leases.v ===== *)
(** [indexer/src/jobs/lock.rs]: database leases that keep two processes from
    working on the same token.

    Every statement is a function of the database, of the database clock at the
    time it runs and of the process's session id ([holder]).  The concurrent
    behaviour (several processes, renewal tasks, the passing of time) is the step
    relation [step]; mutual exclusion is proved by induction on its runs. *)

From S2P Require Import Prelude Words Database.
Local Open Scope Z_scope.

(** Milliseconds. *)
Definition LEASE_TTL : Z := 30000.
Definition RENEW_FRACTION : Z := 3.

(** ** The statements *)

(** [INSERT .. ON CONFLICT DO UPDATE .. WHERE holder = EXCLUDED.holder OR
    expires_at < now() RETURNING TRUE]. *)
Definition try_acquire_lock (now holder key : Z) (d : Db) : Db * bool :=
  let row := mkLeaseRow holder (now + LEASE_TTL) in
  match leases d !! key with
  | None => (set_leases (<[key := row]> (leases d)) d, true)
  | Some r =>
    if (lr_holder r =? holder) || (lr_expires_at r <? now)
    then (set_leases (<[key := row]> (leases d)) d, true)
    else (d, false)
  end.

(** [UPDATE .. WHERE lease_key = $1 AND holder = $2 RETURNING TRUE]; [false] is
    the error "lease no longer held", which stops the renewal task. *)
Definition renew_lease (now holder key : Z) (d : Db) : Db * bool :=
  match leases d !! key with
  | Some r =>
    if lr_holder r =? holder
    then (set_leases (<[key := mkLeaseRow holder (now + LEASE_TTL)]> (leases d)) d, true)
    else (d, false)
  | None => (d, false)
  end.

(** [DELETE .. WHERE lease_key = $1 AND holder = $2]; [false] is
    [rows_affected() == 0], the error "lease was not held". *)
Definition release_lease (holder key : Z) (d : Db) : Db * bool :=
  match leases d !! key with
  | Some r => if lr_holder r =? holder then (set_leases (delete key (leases d)) d, true) else (d, false)
  | None => (d, false)
  end.

(** [ttl / RENEW_FRACTION], or 100 ms when that is zero. *)
Definition renew_every (ttl : Z) : Z :=
  let r := ttl / RENEW_FRACTION in if r =? 0 then 100 else r.

(** ** Processes *)

(** A guard records when its lease was last confirmed. *)
Record world := mkWorld {
  w_now : Z;
  w_db : Db;
  w_guards : gmap (Z * Z) Z;
}.

Inductive step : world -> world -> Prop :=
| step_tick now' d g now : now <= now' -> step (mkWorld now d g) (mkWorld now' d g)
(** a process acquires a key it holds no guard for: each job walks its tokens
    one at a time, under keys salted per job *)
| step_acquire now d g h k d' :
    g !! (h, k) = None -> try_acquire_lock now h k d = (d', true) ->
    step (mkWorld now d g) (mkWorld now d' (<[(h, k) := now]> g))
| step_acquire_fail now d g h k d' :
    try_acquire_lock now h k d = (d', false) -> step (mkWorld now d g) (mkWorld now d' g)
| step_renew now d g h k last d' :
    g !! (h, k) = Some last -> renew_lease now h k d = (d', true) ->
    step (mkWorld now d g) (mkWorld now d' (<[(h, k) := now]> g))
| step_renew_fail now d g h k last d' :
    g !! (h, k) = Some last -> renew_lease now h k d = (d', false) -> step (mkWorld now d g) (mkWorld now d' g)
| step_release now d g h k last d' b :
    g !! (h, k) = Some last -> release_lease h k d = (d', b) ->
    step (mkWorld now d g) (mkWorld now d' (delete (h, k) g))
(** a crashed process loses its guard without touching the table *)
| step_crash now d g h k : step (mkWorld now d g) (mkWorld now d (delete (h, k) g)).

Inductive reachable : world -> Prop :=
| reach_init now d : leases d = ∅ -> reachable (mkWorld now d ∅)
| reach_step w w' : reachable w -> step w w' -> reachable w'.

(** A guard is fresh while its last confirmation is at most a TTL old. *)
Definition fresh (w : world) (h k : Z) : Prop :=
  exists last, w_guards w !! (h, k) = Some last /\ w_now w <= last + LEASE_TTL.

(** A fresh guard owns the row, until its last confirmation plus the TTL. *)
Definition lease_inv (w : world) : Prop :=
  forall h k last, w_guards w !! (h, k) = Some last ->
    last <= w_now w /\ (w_now w <= last + LEASE_TTL -> leases (w_db w) !! k = Some (mkLeaseRow h (last + LEASE_TTL))).

Lemma acquire_some_row now h k d d' :
  try_acquire_lock now h k d = (d', true) ->
  d' = set_leases (<[k := mkLeaseRow h (now + LEASE_TTL)]> (leases d)) d
  /\ forall r, leases d !! k = Some r -> lr_holder r = h \/ lr_expires_at r < now.
Proof.
  unfold try_acquire_lock. destruct (leases d !! k) as [r|] eqn:E.
  - destruct (lr_holder r =? h) eqn:E1, (lr_expires_at r <? now) eqn:E2; bool_cases; cbn; intros [= <-];
      (split; [done|]); intros r' [= <-]; auto.
  - by intros [= <-].
Qed.

Lemma renew_row now h k d d' :
  renew_lease now h k d = (d', true) ->
  d' = set_leases (<[k := mkLeaseRow h (now + LEASE_TTL)]> (leases d)) d
  /\ exists r, leases d !! k = Some r /\ lr_holder r = h.
Proof.
  unfold renew_lease. destruct (leases d !! k) as [r|] eqn:E; [|done].
  destruct (_ =? _) eqn:E1; bool_cases; [|done]. intros [= <-]. split; [done|]. by exists r.
Qed.

Lemma failed_unchanged :
  (forall now h k d d', try_acquire_lock now h k d = (d', false) -> d' = d)
  /\ (forall now h k d d', renew_lease now h k d = (d', false) -> d' = d).
Proof.
  split; intros now h k d d'; [unfold try_acquire_lock | unfold renew_lease];
    destruct (leases d !! k); repeat case_match; congruence.
Qed.

(** Writing [(h, now)] under a key no other fresh guard owns keeps the invariant. *)
Lemma lease_inv_write now d g h k :
  lease_inv (mkWorld now d g) ->
  (forall h' last, g !! (h', k) = Some last -> h' <> h -> last + LEASE_TTL < now) ->
  lease_inv (mkWorld now (set_leases (<[k := mkLeaseRow h (now + LEASE_TTL)]> (leases d)) d) (<[(h, k) := now]> g)).
Proof.
  intros Hinv Hstale h' k' last. cbn. rewrite lookup_insert. case_decide as E.
  - injection E as <- <-. intros [= <-]. split; [lia|]. intros _. by rewrite lookup_insert_eq.
  - intros Hg. destruct (Hinv h' k' last Hg) as [Hle Hrow]. cbn in *. split; [done|]. intros Hf.
    destruct (decide (k' = k)) as [->|]; [|rewrite lookup_insert_ne by done; auto].
    assert (h' <> h) as Hne by (intros ->; done). specialize (Hstale h' last Hg Hne). lia.
Qed.

Lemma lease_inv_step w w' : lease_inv w -> step w w' -> lease_inv w'.
Proof.
  intros Hinv Hs. destruct Hs as [now' d g now Ht|now d g h k d' Hno Ha|now d g h k d' Ha|now d g h k last d' Hg Hr
    |now d g h k last d' Hg Hr|now d g h k last d' b Hg Hrel|now d g h k].
  - intros h k last Hg. destruct (Hinv h k last Hg) as [H1 H2]. cbn in *. split; [lia|]. intros. apply H2. lia.
  - apply acquire_some_row in Ha as [-> Ha]. apply lease_inv_write; [done|].
    intros h' last Hg Hne. destruct (Hinv h' k last Hg) as [H1 H2]. cbn in *.
    destruct (decide (now <= last + LEASE_TTL)) as [Hf|]; [|lia].
    destruct (Ha _ (H2 Hf)) as [He|He]; cbn in He; [done|lia].
  - apply failed_unchanged in Ha as ->. done.
  - apply renew_row in Hr as [-> (r & Hr & Hh)]. apply lease_inv_write; [done|].
    intros h' last' Hg' Hne. destruct (Hinv h' k last' Hg') as [H1 H2]. cbn in *.
    destruct (decide (now <= last' + LEASE_TTL)) as [Hf|]; [|lia].
    rewrite (H2 Hf) in Hr. injection Hr as <-. done.
  - apply failed_unchanged in Hr as ->. done.
  - intros h' k' last'. cbn. intros [Hne Hg']%lookup_delete_Some. destruct (Hinv h' k' last' Hg') as [H1 H2]. cbn in *.
    split; [done|]. intros Hf. specialize (H2 Hf). unfold release_lease in Hrel.
    destruct (leases d !! k) as [r|] eqn:Er; [|by injection Hrel as <- _].
    destruct (_ =? _) eqn:Eh; bool_cases; [|by injection Hrel as <- _]. injection Hrel as <- _. cbn.
    destruct (decide (k' = k)) as [->|]; [|by rewrite lookup_delete_ne].
    rewrite H2 in Er. injection Er as <-. cbn in Eh. congruence.
  - intros h' k' last'. cbn. intros [_ Hg']%lookup_delete_Some. by apply (Hinv h' k' last').
Qed.

Lemma reachable_inv w : reachable w -> lease_inv w.
Proof.
  induction 1 as [now d _|w w' _ IH Hs]; [|by eapply lease_inv_step].
  intros h k last Hg. cbn in Hg. by rewrite lookup_empty in Hg.
Qed.

(** C23: Leases exclude each other: in every reachable state of any number of
    processes that acquire, renew, release, crash and let time pass in any order,
    two processes whose leases on the same key were both confirmed within the last
    TTL are the same process, and while such a lease exists an attempt by any other
    process to acquire the key fails and changes nothing. *)
Theorem lease_mutual_exclusion w h k :
  reachable w -> fresh w h k ->
  (forall h', fresh w h' k -> h' = h)
  /\ forall h', h' <> h -> try_acquire_lock (w_now w) h' k (w_db w) = (w_db w, false).
Proof.
  intros Hw%reachable_inv (last & Hg & Hf). destruct (Hw h k last Hg) as [_ Hrow]. specialize (Hrow Hf). split.
  - intros h' (last' & Hg' & Hf'). destruct (Hw h' k last' Hg') as [_ Hrow']. rewrite (Hrow' Hf') in Hrow.
    by injection Hrow as ->.
  - intros h' Hne. unfold try_acquire_lock. rewrite Hrow. cbn.
    rewrite (proj2 (Z.eqb_neq _ _)) by done. by rewrite (proj2 (Z.ltb_ge _ _)) by lia.
Qed.

(** A crashed holder does not block a key for ever: once the stored expiry of a key
    has passed (or no row exists) an attempt by any process succeeds and makes it the
    owner for a full TTL; a renewal interval is a third of the TTL, so a live holder
    has two more chances to confirm its lease before it expires. *)
Theorem lease_expires now h k d :
  (forall r, leases d !! k = Some r -> lr_expires_at r < now) ->
  exists d', try_acquire_lock now h k d = (d', true)
    /\ leases d' !! k = Some (mkLeaseRow h (now + LEASE_TTL))
    /\ 0 < renew_every LEASE_TTL /\ RENEW_FRACTION * renew_every LEASE_TTL <= LEASE_TTL.
Proof.
  intros Hexp. unfold try_acquire_lock. destruct (leases d !! k) as [r|] eqn:E.
  - specialize (Hexp r eq_refl). rewrite (proj2 (Z.ltb_lt _ _)) by done. rewrite orb_true_r.
    eexists; split_and!; [done|apply lookup_insert_eq|by vm_compute..].
  - eexists; split_and!; [done|apply lookup_insert_eq|by vm_compute..].
Qed.

(** ** Witnesses *)

Definition toy_world : world :=
  mkWorld 7 (set_leases {[5 := mkLeaseRow 1 (7 + LEASE_TTL)]} empty_db) {[(1, 5) := 7]}.

Lemma toy_world_reachable : reachable toy_world.
Proof.
  eapply reach_step; [apply (reach_init 7 empty_db); done|]. unfold toy_world. rewrite <- !insert_empty.
  by apply (step_acquire 7 empty_db ∅ 1 5).
Qed.

Lemma lease_mutual_exclusion_witness :
  (forall h', fresh toy_world h' 5 -> h' = 1)
  /\ forall h', h' <> 1 -> try_acquire_lock (w_now toy_world) h' 5 (w_db toy_world) = (w_db toy_world, false).
Proof. apply lease_mutual_exclusion; [apply toy_world_reachable | by exists 7]. Defined.

Lemma lease_expires_witness :
  exists d', try_acquire_lock 40000 2 5 (w_db toy_world) = (d', true)
    /\ leases d' !! 5 = Some (mkLeaseRow 2 (40000 + LEASE_TTL))
    /\ 0 < renew_every LEASE_TTL /\ RENEW_FRACTION * renew_every LEASE_TTL <= LEASE_TTL.
Proof.
  apply lease_expires. intros r Hr. cbn in Hr. apply lookup_singleton_Some in Hr as [_ <-]. cbn. unfold LEASE_TTL. lia.
Defined.
