(* ===== verification/Jobs.v ===== *)
(** The token configuration ([client-common/src/tokens.rs]), the job
    configuration ([indexer/src/config.rs]) and the two indexing jobs:
    [indexer/src/jobs/event.rs] and [indexer/src/jobs/tree.rs].

    The environment of a run is explicit: the Ethereum node of each token, the
    session id of the process, the database clock when the lease is requested, and
    the fuel of the loops. *)

From S2P Require Import Prelude Words Text Crypto BitPaths MerkleTrees Circuits Database TreeDb Events Leases.
Local Open Scope Z_scope.

(** Errors are [anyhow] chains: a message, or the error of a component. *)
Inductive JobError :=
| Msg (m : string)
| TreeError (context : string) (e : DbMerkleTreeError)
| EventError (context : string) (e : EventIndexerError)
| LoopFuel.

(** ** Tokens and configuration *)

Record TokenEntry := mkTokenEntry {
  te_label : string;
  te_token_address : Z;
  te_verifier_address : Z;
  te_minter_address : option Z;
  te_chain_id : Z;
  te_deployed_block_number : Z;
  te_rpc_urls : list string;
  te_legacy_tx : bool;
}.

Record HubEntry := mkHubEntry {
  he_hub_address : Z;
  he_chain_id : Z;
  he_rpc_urls : list string;
}.

Record TokensFile := mkTokensFile { tf_hub : option HubEntry; tf_tokens : list TokenEntry }.

Definition TokenEntry_normalize (t : TokenEntry) : result JobError TokenEntry :=
  if is_blank (te_label t) then Err (Msg "token label must be non-empty")
  else match te_rpc_urls t with
       | [] => Err (Msg "must configure at least one rpc url")
       | _ => Ok t
       end.

Definition HubEntry_normalize (h : HubEntry) : result JobError HubEntry :=
  match he_rpc_urls h with
  | [] => Err (Msg "hub must configure at least one rpc url")
  | _ => Ok h
  end.

Definition TokensFile_normalize (f : TokensFile) : result JobError TokensFile :=
  match tf_hub f with
  | Some h => h' ← HubEntry_normalize h; Ok (mkTokensFile (Some h') (tf_tokens f))
  | None => Ok f
  end.

Definition metadata (t : TokenEntry) : TokenMetadata :=
  mkTokenMetadata (te_token_address t) (te_verifier_address t) (te_chain_id t).

(** [DefaultHasher] is a standard-library hasher without a specified algorithm:
    a function of the five values hashed, to a [u64]. *)
Definition lock_key_with_salt (default_hasher : string -> Z -> Z -> Z -> Z -> Z) (t : TokenEntry) (salt : Z) : Z :=
  as_i64 (default_hasher (te_label t) (te_chain_id t) (te_token_address t) (te_verifier_address t) salt).

Record EventJobConfig := mkEventJobConfig {
  ejc_interval_ms : Z;
  ejc_block_span : Z;
  ejc_forward_scan_overlap : Z;
}.

Definition EventJobConfig_build (c : EventJobConfig) : result JobError EventIndexerConfig :=
  map_err (EventError "failed to construct EventIndexerConfig")
    (EventIndexerConfig_new (ejc_block_span c) (ejc_forward_scan_overlap c)).

Definition EventJobConfig_ensure_valid (c : EventJobConfig) : result JobError unit :=
  if ejc_interval_ms c =? 0 then Err (Msg "event job interval must be positive")
  else _ ← map_err (EventError "invalid event indexer configuration")
             (EventIndexerConfig_new (ejc_block_span c) (ejc_forward_scan_overlap c));
       Ok tt.

Definition EventJobConfig_default : EventJobConfig :=
  mkEventJobConfig 5000 BLOCK_SPAN_RECOMMENDED FORWARD_SCAN_OVERLAP_RECOMMENDED.

Record TreeJobConfig := mkTreeJobConfig {
  tjc_interval_ms : Z;
  tjc_height : nat;
  tjc_history_window : Z;
  tjc_batch_size : Z;
}.

Definition TreeJobConfig_build (c : TreeJobConfig) : result JobError DbMerkleTreeConfig :=
  map_err (TreeError "failed to construct DbMerkleTreeConfig") (DbMerkleTreeConfig_new (tjc_history_window c)).

Definition TreeJobConfig_ensure_valid (c : TreeJobConfig) : result JobError unit :=
  if tjc_interval_ms c =? 0 then Err (Msg "tree job interval must be positive")
  else if (tjc_height c =? 0)%nat then Err (Msg "tree height must be positive")
  else if tjc_batch_size c =? 0 then Err (Msg "tree job batch_size must be positive")
  else _ ← map_err (TreeError "invalid merkle tree configuration") (DbMerkleTreeConfig_new (tjc_history_window c));
       Ok tt.

Definition TreeJobConfig_default : TreeJobConfig :=
  mkTreeJobConfig 2000 TRANSFER_TREE_HEIGHT HISTORY_WINDOW_RECOMMENDED 128.

(** ** Running under a lease *)

(** Runs [m] and hands its result on, whatever it is. *)
Definition attempt {S E E' A} (m : M S E A) : M S E' (result E A) :=
  fun s => let '(s', r) := m s in (s', Ok r).
Definition map_err_M {S E E' A} (f : E -> E') (m : M S E A) : M S E' A :=
  fun s => let '(s', r) := m s in (s', map_err f r).

(** [process_token]: skip on contention; otherwise work, release, and return
    the work's result (a failed release is only logged). *)
Definition with_lease (now holder key : Z) (work : M Db JobError unit) : M Db JobError unit :=
  (fun d => let '(d', b) := try_acquire_lock now holder key d in (d', Ok b)) ≫= fun acquired =>
  if (acquired : bool) then
    attempt work ≫= fun r =>
    modify (fun d => (release_lease holder key d).1) ≫= fun _ =>
    lift r
  else mret tt.

(** ** [jobs/event.rs] *)

Definition EVENT_LOCK_SALT : Z := 1163284052.

Record EventTokenContext := mkEventTokenContext {
  etc_label : string;
  etc_metadata : TokenMetadata;
  etc_deployed_block_number : Z;
  etc_contract : EthNode;
  etc_lock_key : Z;
}.

Record EventSyncJob := mkEventSyncJob {
  esj_tokens : list EventTokenContext;
  esj_interval_ms : Z;
  esj_indexer_config : EventIndexerConfig;
}.

(** [into_job]; building a provider from the RPC urls is transport code, the
    node it yields is the argument [connect]. *)
Definition EventSyncJob_build (default_hasher : string -> Z -> Z -> Z -> Z -> Z) (connect : list string -> result JobError EthNode)
  (c : EventJobConfig) (tokens : list TokenEntry) : result JobError EventSyncJob :=
  indexer_config ← EventJobConfig_build c;
  contexts ← map_result (fun t =>
      node ← connect (te_rpc_urls t);
      Ok (mkEventTokenContext (te_label t) (metadata t) (te_deployed_block_number t) node
            (lock_key_with_salt default_hasher t EVENT_LOCK_SALT))) tokens;
  Ok (mkEventSyncJob contexts (ejc_interval_ms c) indexer_config).

Definition sync_token (fuel scan_fuel : nat) (job : EventSyncJob) (token : EventTokenContext) : M Db JobError unit :=
  map_err_M (EventError "failed to initialise event indexer")
    (EventIndexer_new (etc_deployed_block_number token) (etc_metadata token) (esj_indexer_config job)) ≫= fun indexer =>
  map_err_M (EventError "event sync failed") (@sync (etc_contract token) fuel scan_fuel indexer).

Definition event_process_token (fuel scan_fuel : nat) (now holder : Z) (job : EventSyncJob) (token : EventTokenContext)
  : M Db JobError unit :=
  with_lease now holder (etc_lock_key token) (sync_token fuel scan_fuel job token).

(** [run_once]: a token's failure is logged and the next token is processed. *)
Fixpoint run_tokens {T} (process : T -> M Db JobError unit) (tokens : list T) (d : Db) : Db :=
  match tokens with
  | [] => d
  | t :: ts => run_tokens process ts (process t d).1
  end.

Definition event_run_once (fuel scan_fuel : nat) (now holder : Z) (job : EventSyncJob) : Db -> Db :=
  run_tokens (event_process_token fuel scan_fuel now holder job) (esj_tokens job).

(** ** [jobs/tree.rs] *)

Definition TREE_LOCK_SALT : Z := 1414677829.

Record TreeTokenContext := mkTreeTokenContext {
  ttc_label : string;
  ttc_metadata : TokenMetadata;
  ttc_lock_key : Z;
}.

Record TreeIngestionJob := mkTreeIngestionJob {
  tij_tokens : list TreeTokenContext;
  tij_interval_ms : Z;
  tij_tree_height : nat;
  tij_batch_size : Z;
  tij_tree_config : DbMerkleTreeConfig;
}.

Definition TreeIngestionJob_build (default_hasher : string -> Z -> Z -> Z -> Z -> Z) (c : TreeJobConfig)
  (tokens : list TokenEntry) : result JobError TreeIngestionJob :=
  tree_config ← TreeJobConfig_build c;
  Ok (mkTreeIngestionJob
        ((fun t => mkTreeTokenContext (te_label t) (metadata t) (lock_key_with_salt default_hasher t TREE_LOCK_SALT)) <$> tokens)
        (tjc_interval_ms c) (tjc_height c) (tjc_batch_size c) tree_config).

Definition parse_address (bs : bytes) : result JobError Z :=
  if negb (length bs =? 20)%nat then Err (Msg "address bytes must be 20") else Ok (be_val bs).
Definition parse_u256 (bs : bytes) : result JobError Z :=
  if negb (length bs =? 32)%nat then Err (Msg "value bytes must be 32") else Ok (be_val bs).

(** [SELECT COALESCE(MAX(tree_index), 0)]. *)
Definition latest_tree_index (token_id : Z) : M Db JobError Z :=
  gets (fun d => head (select_asc (fun kv => - kv.1.2) (fun kv => kv.1.1 =? token_id) (merkle_snapshots d))) ≫= fun row =>
  mret (Z.max (match row with Some kv => kv.1.2 | None => 0 end) 0).

Definition contiguous_event_index (token_id : Z) : M Db JobError (option Z) :=
  gets (fun d => event_indexer_state d !! token_id) ≫= fun row =>
  mret (match row with
        | Some r => if 0 <=? es_contiguous_index r then Some (es_contiguous_index r) else None
        | None => None
        end).

Section tree_job.
Context {C : Crypto}.

(** The [for event in events] loop: [inl] is the early [return Ok(())]. *)
Fixpoint ingest_batch (tree : DbIncrementalMerkleTree) (events : list (Z * EventRow)) (processed : Z)
  : M Db JobError (unit + Z) :=
  match events with
  | [] => mret (inr processed)
  | (event_index, row) :: rest =>
    lift (ok_or (Msg "event index negative") (u64_try_from event_index)) ≫= fun event_index_u64 =>
    if event_index_u64 <? processed then ingest_batch tree rest processed
    else if negb (event_index_u64 =? processed) then mret (inl tt)
    else
      lift (map_err (fun _ => Msg "invalid to_address bytes") (parse_address (ev_to row))) ≫= fun to_address =>
      lift (map_err (fun _ => Msg "invalid value bytes") (parse_u256 (ev_value row))) ≫= fun value =>
      map_err_M (TreeError "failed to append leaf") (append_leaf tree to_address value) ≫= fun append =>
      ingest_batch tree rest (ar_index append)
  end.

(** [WHERE token_id = $1 AND event_index >= $2 AND event_index <= $3 ORDER BY
    event_index LIMIT $4]. *)
Definition fetch_events (token_id start_index upper_index limit : Z) (d : Db) : list (Z * EventRow) :=
  take (Z.to_nat limit)
    ((fun kv => (kv.1.2, kv.2)) <$> select_asc (fun kv => kv.1.2)
       (fun kv => (kv.1.1 =? token_id) && (start_index <=? kv.1.2) && (kv.1.2 <=? upper_index)) (indexed_transfer_events d)).

Definition job_i64 (v : Z) (m : string) : result JobError Z := ok_or (Msg m) (i64_try_from v).

(** One batch per iteration; [target - processed + 1] iterations are enough. *)
Fixpoint ingest_events (fuel : nat) (tree : DbIncrementalMerkleTree) (token_id processed target_event_count batch_size : Z)
  : M Db JobError unit :=
  match fuel with
  | O => fail LoopFuel
  | S fuel' =>
    if target_event_count <=? processed then mret tt
    else
      let remaining := target_event_count - processed in
      let batch := Z.min remaining batch_size in
      lift (job_i64 processed "processed index exceeds i64 for event ingestion") ≫= fun start_index =>
      lift (job_i64 (target_event_count - 1) "target index exceeds i64 for event ingestion") ≫= fun upper_index =>
      let limit := default i64_max (i64_try_from batch) in
      gets (fetch_events token_id start_index upper_index limit) ≫= fun events =>
      match events with
      | [] => mret tt
      | _ =>
        ingest_batch tree events processed ≫= fun r =>
        match r with
        | inl _ => mret tt
        | inr processed' => ingest_events fuel' tree token_id processed' target_event_count batch_size
        end
      end
  end.

(** [SELECT id FROM tokens WHERE token_address = $1 AND chain_id = $2]. *)
Definition find_token_id (m : TokenMetadata) (chain_id : Z) (d : Db) : option Z :=
  fst <$> head (select (fun kv => bool_decide (tk_address kv.2 = address_bytes (tm_token_address m))
                                  && (tk_chain_id kv.2 =? chain_id)) (tokens d)).

Definition ingest_token (fuel : nat) (job : TreeIngestionJob) (token : TreeTokenContext) : M Db JobError unit :=
  lift (job_i64 (tm_chain_id (ttc_metadata token)) "chain_id exceeds i64 range for tree ingestion") ≫= fun chain_id_i64 =>
  gets (find_token_id (ttc_metadata token) chain_id_i64) ≫= fun token_id_opt =>
  match token_id_opt with
  | None => mret tt
  | Some token_id =>
    map_err_M (TreeError "failed to initialise merkle tree")
      (DbTree_new token_id (tij_tree_height job) (tij_tree_config job)) ≫= fun tree =>
    latest_tree_index token_id ≫= fun processed =>
    contiguous_event_index token_id ≫= fun contiguous_index =>
    let target_event_count := match contiguous_index with None => 0 | Some idx => idx + 1 end in
    if target_event_count <? processed then mret tt
    else if processed =? target_event_count then mret tt
    else ingest_events fuel tree token_id processed target_event_count (tij_batch_size job)
  end.

Definition tree_process_token (fuel : nat) (now holder : Z) (job : TreeIngestionJob) (token : TreeTokenContext)
  : M Db JobError unit :=
  with_lease now holder (ttc_lock_key token) (ingest_token fuel job token).

Definition tree_run_once (fuel : nat) (now holder : Z) (job : TreeIngestionJob) : Db -> Db :=
  run_tokens (tree_process_token fuel now holder job) (tij_tokens job).
End tree_job.
