(* ===== verification/JobsSpec.v ===== *)
(** The indexing jobs ([indexer/src/jobs/tree.rs], [event.rs]) on top of the
    components they drive: ingestion appends exactly the contiguous events, in
    order, and the two jobs together turn a contract's log into its Merkle tree. *)

From S2P Require Import Prelude Words Crypto BitPaths MerkleTrees Circuits Database TreeDb TreeDbSpec Events EventsSpec Leases Jobs.
Local Open Scope Z_scope.

(** ** Vocabulary *)

(** The leaf an event row becomes. *)
Definition ev_leaf (row : EventRow) : Leaf := mkLeaf (be_val (ev_to row)) (be_val (ev_value row)).

Definition row_parses (row : EventRow) : Prop := length (ev_to row) = 20%nat /\ length (ev_value row) = 32%nat.

(** The first [length rows] events of the token are [rows]. *)
Definition events_are (tok : Z) (rows : list EventRow) (d : Db) : Prop :=
  forall k row, rows !! k = Some row -> indexed_transfer_events d !! (tok, Z.of_nat k) = Some row.

Section ingest.
Context {C : Crypto} {HC : CryptoLaws C}.

(** The database after [DbIncrementalMerkleTree::new] and the handle it returns. *)
Definition tree_parts_db (tok : Z) (d : Db) : Db :=
  set_partitions ({[(SnapshotsTable, tok)]} ∪ ({[(UpdatesTable, tok)]} ∪ ({[(NodesTable, tok)]} ∪ partitions d))) d.
Definition tree_handle (tok : Z) (h : nat) (w : Z) : DbIncrementalMerkleTree :=
  mkDbTree (mkTreePartitions tok (NodesTable, tok) (UpdatesTable, tok) (SnapshotsTable, tok)) h (compute_zero_hashes h) w.

(** The tree of the token holds the history [ls] (its partitions may be missing). *)
Definition has_history (tok : Z) (h : nat) (w : Z) (d : Db) (ls : list Leaf) : Prop :=
  tree_repr (tree_handle tok h w) (tree_parts_db tok d) ls.

Lemma DbTree_new_run tok h w d :
  0 < tok -> h <> 0%nat ->
  DbTree_new tok h (mkDbMerkleTreeConfig w) d = (tree_parts_db tok d, Ok (tree_handle tok h w)).
Proof.
  intros Htok Hh. unfold DbTree_new. destruct (h =? 0)%nat eqn:E; [by apply Nat.eqb_eq in E|].
  unfold TreePartitions_new, lift, TreePartitions_ensure, execute_partition_statement, modify, mbind, M_bind, mret, M_ret.
  by rewrite (proj2 (Z.leb_gt _ _)).
Qed.

(** ** Batches *)

(** The query of a batch returns the consecutive rows it asks for, in order. *)
Lemma fetch_events_spec tok rows d (p : nat) limit :
  events_are tok rows d -> (p <= length rows)%nat -> 0 <= limit ->
  fetch_events tok (Z.of_nat p) (Z.of_nat (length rows) - 1) limit d = indexed p (take (Z.to_nat limit) (drop p rows)).
Proof.
  intros He Hp Hl. unfold fetch_events. rewrite <- take_indexed. f_equal.
  set (g := fun x : Z * EventRow => ((tok, x.1), x.2)).
  rewrite (select_asc_eq _ _ _ (g <$> indexed p (drop p rows))).
  - rewrite <- list_fmap_compose. transitivity (id <$> indexed p (drop p rows)); [|apply list_fmap_id].
    apply list_fmap_ext. by intros _ [] _.
  - apply indexed_sorted. done.
  - apply NoDup_fmap; [intros [] [] He'; by injection He' as -> ->|]. by apply (indexed_sorted g (fun kv => kv.1.2)).
  - intros [o i] row. rewrite list_elem_of_fmap. split.
    + intros ([i' row'] & [= -> -> ->] & Hin). apply elem_of_indexed in Hin as (k & -> & Hk).
      rewrite lookup_drop in Hk. split; [by apply He|]. cbn. apply lookup_lt_Some in Hk.
      rewrite Z.eqb_refl. cbn. apply andb_true_intro. split; apply Z.leb_le; lia.
    + cbn. intros [Hrow Hb]. bool_cases. subst o. exists (i, row). split; [done|]. apply elem_of_indexed.
      exists (Z.to_nat i - p)%nat. split; [lia|]. rewrite lookup_drop. replace (p + (Z.to_nat i - p))%nat with (Z.to_nat i) by lia.
      destruct (lookup_lt_is_Some_2 rows (Z.to_nat i)) as [row' Hr]; [lia|]. specialize (He _ _ Hr).
      rewrite Z2Nat.id in He by lia. congruence.
  - intros a b Ha Hb Hf. apply list_elem_of_fmap in Ha as ([i ra] & -> & Ha). apply list_elem_of_fmap in Hb as ([j rb] & -> & Hb).
    cbn in Hf. subst j. by rewrite (indexed_inj _ _ _ _ _ Ha Hb).
Qed.

(** A batch of consecutive events is appended one by one. *)
Lemma ingest_batch_spec t rows : forall d ls,
  tree_repr t d ls -> Forall row_parses rows ->
  Z.of_nat (length ls + length rows) <= 2 ^ Z.of_nat (dt_height t) ->
  exists d', ingest_batch t (indexed (length ls) rows) (Z.of_nat (length ls)) d
             = (d', Ok (inr (Z.of_nat (length ls + length rows))))
    /\ tree_repr t d' (ls ++ (ev_leaf <$> rows)) /\ tree_frame (dt_token t) d d'.
Proof.
  induction rows as [|row rows IH]; intros d ls Hr Hp Hcap; cbn [indexed ingest_batch length] in *.
  - exists d. rewrite Nat.add_0_r, app_nil_r. done.
  - apply Forall_cons in Hp as [[Ha Hv] Hp].
    rewrite (M_bind_run _ _ d d (Z.of_nat (length ls))).
    2:{ apply lift_run. unfold u64_try_from. by rewrite (proj2 (Z.leb_le _ _)) by lia. }
    rewrite Z.ltb_irrefl, Z.eqb_refl. cbn [negb].
    rewrite (M_bind_run _ _ d d (be_val (ev_to row))) by (apply lift_run; unfold parse_address; by rewrite Ha).
    rewrite (M_bind_run _ _ d d (be_val (ev_value row))) by (apply lift_run; unfold parse_u256; by rewrite Hv).
    destruct (append_leaf_spec t d ls (be_val (ev_to row)) (be_val (ev_value row)) Hr) as (d1 & Happ & Hr1 & F1); [lia|].
    erewrite (M_bind_run _ _ d) by (unfold map_err_M; rewrite Happ; reflexivity). cbn [ar_index].
    destruct (IH d1 (ls ++ [ev_leaf row]) Hr1 Hp) as (d2 & Hrun & Hr2 & F2).
    { rewrite length_app. cbn. lia. }
    rewrite length_app in Hrun. cbn [length] in Hrun.
    replace (S (length ls)) with (length ls + 1)%nat by lia.
    replace (Z.of_nat (length ls) + 1) with (Z.of_nat (length ls + 1)) by lia.
    exists d2. rewrite Hrun. split_and!; [do 3 f_equal; lia| |by trans d1].
    rewrite fmap_cons. by rewrite <- app_assoc in Hr2.
Qed.

Lemma tree_frame_events_are tok o rows d d' : tree_frame o d d' -> events_are tok rows d -> events_are tok rows d'.
Proof. intros F He k row Hk. rewrite (fr_events _ _ _ F). by apply He. Qed.

Lemma ingest_events_spec t rows batch : forall fuel d (p : nat),
  tree_repr t d (ev_leaf <$> take p rows) -> events_are (dt_token t) rows d -> Forall row_parses rows ->
  (p <= length rows)%nat -> Z.of_nat (length rows) <= 2 ^ Z.of_nat (dt_height t) -> 0 < batch ->
  (length rows - p < fuel)%nat ->
  exists d', ingest_events fuel t (dt_token t) (Z.of_nat p) (Z.of_nat (length rows)) batch d = (d', Ok tt)
    /\ tree_repr t d' (ev_leaf <$> rows) /\ tree_frame (dt_token t) d d'.
Proof.
  induction fuel as [|fuel IH]; intros d p Hr He Hp Hle Hcap Hb Hf; [lia|]. cbn [ingest_events]. if_case E.
  { exists d. replace p with (length rows) in Hr by lia. rewrite firstn_all in Hr. done. }
  pose proof (ho_height _ (tr_handle _ _ _ Hr)) as Hh. pose proof (Z.pow_le_mono_r 2 (Z.of_nat (dt_height t)) 62) as Hpow.
  rewrite (M_bind_run _ _ d d (Z.of_nat p)).
  2:{ apply lift_run. unfold job_i64, i64_try_from. by rewrite (proj2 (Z.leb_le _ _)) by (unfold i64_max; lia). }
  rewrite (M_bind_run _ _ d d (Z.of_nat (length rows) - 1)).
  2:{ apply lift_run. unfold job_i64, i64_try_from. by rewrite (proj2 (Z.leb_le _ _)) by (unfold i64_max; lia). }
  unfold i64_try_from. rewrite (proj2 (Z.leb_le _ _)) by (unfold i64_max; lia). cbn [default].
  set (limit := Z.min (Z.of_nat (length rows) - Z.of_nat p) batch). change (from_option id i64_max (Some limit)) with limit.
  pose proof (fetch_events_spec (dt_token t) rows d p limit He Hle ltac:(lia)) as Hfetch.
  set (b := take (Z.to_nat limit) (drop p rows)) in *.
  rewrite (M_bind_run _ _ d d (indexed p b)) by (unfold gets; rewrite <- Hfetch; reflexivity).
  assert (length b = Z.to_nat limit) as Hlen by (unfold b; rewrite length_take, length_drop; lia).
  assert (length (ev_leaf <$> take p rows) = p) as Hpl by (rewrite length_fmap, length_take; lia).
  destruct (ingest_batch_spec t b d (ev_leaf <$> take p rows) Hr) as (d1 & Hrun & Hr1 & F1).
  { by apply Forall_take, Forall_drop. }
  { rewrite Hpl. lia. }
  rewrite Hpl in Hrun. destruct (indexed p b) as [|x0 xs] eqn:Eb; [destruct b; [cbn in Hlen; lia|done]|]. rewrite <- Eb in *.
  clear x0 xs Eb. rewrite (M_bind_run _ _ _ _ _ Hrun).
  rewrite <- fmap_app in Hr1. unfold b in Hr1. rewrite take_take_drop in Hr1.
  destruct (IH d1 (p + length b)%nat) as (d2 & H2 & Hr2 & F2); try done; try lia.
  { by rewrite Hlen. }
  { by eapply tree_frame_events_are. }
  exists d2. split_and!; [done..|by trans d1].
Qed.
End ingest.

(** ** One ingestion run *)

Section ingest_token.
Context {C : Crypto} {HC : CryptoLaws C}.

(** The history of a tree depends only on the tree's own tables. *)
Lemma has_history_ext tok h w d d' ls :
  tokens d' = tokens d -> merkle_nodes_current d' = merkle_nodes_current d ->
  merkle_node_updates d' = merkle_node_updates d -> merkle_snapshots d' = merkle_snapshots d ->
  has_history tok h w d ls -> has_history tok h w d' ls.
Proof.
  intros E1 E2 E3 E4 [H1 H2 H3 H4 H5 H6 H7 H8]. split; cbn in *; rewrite ?E1, ?E2, ?E3, ?E4; try done.
  intros tb Htb. rewrite !elem_of_union, !elem_of_singleton. destruct Htb as [->|[->| ->]]; auto.
Qed.

Lemma tree_repr_has_history tok h w d ls : tree_repr (tree_handle tok h w) d ls -> has_history tok h w d ls.
Proof.
  intros [H1 H2 H3 H4 H5 H6 H7 H8]. split; cbn in *; try done.
  intros tb Htb. rewrite !elem_of_union, !elem_of_singleton. destruct Htb as [->|[->| ->]]; auto.
Qed.

Lemma latest_tree_index_spec tok h w d ls :
  tree_repr (tree_handle tok h w) d ls -> latest_tree_index tok d = (d, Ok (Z.of_nat (length ls))).
Proof.
  intros Hr. pose proof (latest_snapshot_spec _ _ _ Hr) as Hs. unfold latest_snapshot in Hs. cbn [dt_token tree_handle dt_partitions tp_token_id] in Hs.
  unfold latest_tree_index, gets, mbind, M_bind, mret, M_ret. rewrite Hs. case_decide as E; [by subst|].
  cbn [fst snd]. do 2 f_equal. lia.
Qed.

Lemma contiguous_event_index_spec tok d r :
  event_indexer_state d !! tok = Some r ->
  contiguous_event_index tok d = (d, Ok (if 0 <=? es_contiguous_index r then Some (es_contiguous_index r) else None)).
Proof. intros Hr. unfold contiguous_event_index, gets, mbind, M_bind, mret, M_ret. by rewrite Hr. Qed.

Lemma ingest_token_spec fuel job token tok rows (n : nat) d r :
  let w := cfg_history_window (tij_tree_config job) in
  tm_chain_id (ttc_metadata token) <= i64_max ->
  find_token_id (ttc_metadata token) (tm_chain_id (ttc_metadata token)) d = Some tok -> 0 < tok -> 0 < tij_batch_size job ->
  has_history tok (tij_tree_height job) w d (ev_leaf <$> take n rows) -> (n <= length rows)%nat ->
  events_are tok rows d -> Forall row_parses rows -> Z.of_nat (length rows) <= 2 ^ Z.of_nat (tij_tree_height job) ->
  event_indexer_state d !! tok = Some r -> es_contiguous_index r = Z.of_nat (length rows) - 1 -> (length rows < fuel)%nat ->
  exists d', ingest_token fuel job token d = (d', Ok tt)
    /\ has_history tok (tij_tree_height job) w d' (ev_leaf <$> rows) /\ tree_frame tok (tree_parts_db tok d) d'.
Proof.
  intros w Hchain Hfind Htok Hbatch Hh Hn He Hp Hcap Hr Hci Hfuel. unfold ingest_token.
  assert (length (ev_leaf <$> take n rows) = n) as Hlen by (rewrite length_fmap, length_take; lia).
  rewrite (M_bind_run _ _ d d (tm_chain_id (ttc_metadata token))).
  2:{ apply lift_run. unfold job_i64, i64_try_from. by rewrite (proj2 (Z.leb_le _ _)). }
  rewrite (M_bind_run _ _ d d (Some tok)) by (unfold gets; by rewrite Hfind).
  assert (DbTree_new tok (tij_tree_height job) (tij_tree_config job) d
          = (tree_parts_db tok d, Ok (tree_handle tok (tij_tree_height job) w))) as Hnew.
  { subst w. destruct (tij_tree_config job) as [w]. apply DbTree_new_run; [done|].
    pose proof (ho_height _ (tr_handle _ _ _ Hh)) as Hpos. cbn in Hpos. lia. }
  set (t := tree_handle tok (tij_tree_height job) w) in *. set (d0 := tree_parts_db tok d) in *.
  rewrite (M_bind_run _ _ d d0 t) by (unfold map_err_M; by rewrite Hnew).
  pose proof (latest_tree_index_spec tok _ _ d0 _ Hh) as Hlat. rewrite Hlen in Hlat. rewrite (M_bind_run _ _ _ _ _ Hlat).
  rewrite (M_bind_run _ _ _ _ _ (contiguous_event_index_spec tok d0 r Hr)).
  assert (match (if 0 <=? es_contiguous_index r then Some (es_contiguous_index r) else None) with
          | Some idx => idx + 1 | None => 0 end = Z.of_nat (length rows)) as ->.
  { if_case E; lia. }
  cbv zeta. if_case E1; [lia|]. if_case E2.
  - exists d0. split_and!; [done| |done]. apply tree_repr_has_history. replace n with (length rows) in Hh by lia.
    by rewrite firstn_all in Hh.
  - destruct (ingest_events_spec t rows (tij_batch_size job) fuel d0 n Hh) as (d' & Hrun & Hr' & F); try done; try lia.
    exists d'. split_and!; [done| |done]. by apply tree_repr_has_history.
Qed.
End ingest_token.

(** ** The pipeline *)

Section pipeline.
Context {C : Crypto} {HC : CryptoLaws C}.

(** The leaves of the contract's log: one per transfer, to the recipient. *)
Definition log_leaves (logs : list IndexedTransferLog) : list Leaf :=
  (fun l => mkLeaf (lg_to l) (lg_value l)) <$> logs.

Definition log_in_range (l : IndexedTransferLog) : Prop := in_u160 (lg_to l) /\ in_u256 (lg_value l).

Definition log_rows (logs : list IndexedTransferLog) : list EventRow := row_of_event <$> events_of logs.

Lemma log_rows_leaves logs : Forall log_in_range logs -> (ev_leaf <$> log_rows logs) = log_leaves logs.
Proof.
  intros Hl. unfold log_rows, events_of, log_leaves. rewrite <- !list_fmap_compose. apply list_fmap_ext.
  intros k l Hk. rewrite Forall_lookup in Hl. destruct (Hl k l Hk) as [Ha Hv].
  unfold compose, ev_leaf. cbn [row_of_event log_to_event ev_to ev_value ie_to ie_value].
  by rewrite address_bytes_roundtrip, u256_bytes_roundtrip.
Qed.

Lemma log_rows_parse logs : Forall row_parses (log_rows logs).
Proof. apply Forall_fmap, Forall_forall. intros e _. split; apply length_be_bytes. Qed.

Lemma find_token_id_registered m tok d :
  tokens_ok d -> registered m tok d -> find_token_id m (tm_chain_id m) d = Some tok.
Proof.
  intros (_ & _ & Huniq) (row & Hrow & Ha & Hc). unfold find_token_id.
  destruct (select _ _) as [|[i s] rest] eqn:E.
  - exfalso. assert ((tok, row) ∈ select (fun kv : Z * TokenRow => bool_decide (tk_address kv.2 = address_bytes (tm_token_address m))
      && (tk_chain_id kv.2 =? tm_chain_id m)) (tokens d)) as Hin.
    { apply elem_of_select. split; [done|]. cbn [snd]. by rewrite bool_decide_eq_true_2, Hc, Z.eqb_refl. }
    rewrite E in Hin. by apply not_elem_of_nil in Hin.
  - assert ((i, s) ∈ select (fun kv : Z * TokenRow => bool_decide (tk_address kv.2 = address_bytes (tm_token_address m))
      && (tk_chain_id kv.2 =? tm_chain_id m)) (tokens d)) as Hin by (rewrite E; left).
    apply elem_of_select in Hin as [Hs Hp]. cbn [snd] in Hp. apply andb_true_iff in Hp as [Hp1 Hp2].
    apply bool_decide_eq_true in Hp1. apply Z.eqb_eq in Hp2. cbn. f_equal. eapply Huniq; [exact Hs|exact Hrow|congruence|congruence].
Qed.

(** The indexing pipeline is correct end to end: starting from a database whose
    events and tree are any consistent earlier state of a token's contract, one
    event sync followed by one tree ingestion succeeds and leaves a tree that
    represents exactly the contract's log: its latest index is the number of
    transfers and its root and hash chain are those of the log's (recipient, value)
    leaves in order, for every log that fits the tree. *)
Theorem indexing_pipeline_correct {N : EthNode} logs latest x fuel scan_fuel job token (n : nat) d :
  node_view N logs latest -> Forall log_in_range logs ->
  ei_partitions x = mkEventIndexerPartitions (ei_token_id x) (EventsTable, ei_token_id x) (EventStateTable, ei_token_id x) ->
  0 < block_span (ei_config x) < 2 ^ 64 ->
  0 <= forward_scan_overlap (ei_config x) < block_span (ei_config x) ->
  0 <= ei_deployed_block_number x < i64_max ->
  (forall k e, events_of logs !! k = Some e -> ei_deployed_block_number x <= ie_eth_block_number e) ->
  latest < Z.of_nat scan_fuel -> (length logs < fuel)%nat ->
  tokens_ok d -> registered (ttc_metadata token) (ei_token_id x) d -> tm_chain_id (ttc_metadata token) <= i64_max ->
  0 < tij_batch_size job -> Z.of_nat (length logs) <= 2 ^ Z.of_nat (tij_tree_height job) ->
  indexer_inv (ei_token_id x) (events_of logs) d -> (n <= length logs)%nat ->
  has_history (ei_token_id x) (tij_tree_height job) (cfg_history_window (tij_tree_config job)) d (log_leaves (take n logs)) ->
  exists d1 d2, sync fuel scan_fuel x d = (d1, Ok tt) /\ ingest_token fuel job token d1 = (d2, Ok tt)
    /\ has_history (ei_token_id x) (tij_tree_height job) (cfg_history_window (tij_tree_config job)) d2 (log_leaves logs)
    /\ indexer_inv (ei_token_id x) (events_of logs) d2.
Proof.
  intros Hv Hlr Hx Hs Ho Hd Hdf Hsf Hf Hok Hreg Hch Hb Hcap Hinv Hn Hh. set (tok := ei_token_id x) in *.
  destruct (sync_spec logs latest Hv x Hx Hs Ho Hd Hdf fuel scan_fuel d) as (d1 & r & Hsync & SF & Hall & Hr & Hci & _ & Hinv1);
    [lia|done|done|]. fold tok in Hall, Hr, Hinv1.
  assert (tokens d1 = tokens d /\ next_token_id d1 = next_token_id d /\ merkle_nodes_current d1 = merkle_nodes_current d
    /\ merkle_node_updates d1 = merkle_node_updates d /\ merkle_snapshots d1 = merkle_snapshots d) as (E1 & E0 & E2 & E3 & E4)
    by (rewrite (sf_rest _ _ _ SF); done).
  assert (length (log_rows logs) = length logs) as Hlen by (unfold log_rows, events_of; by rewrite !length_fmap).
  assert (tokens_ok d1) as Hok1 by (unfold tokens_ok; rewrite E1, E0; done).
  assert (registered (ttc_metadata token) tok d1) as Hreg1 by (unfold registered; rewrite E1; done).
  assert (0 < tok) as Htok by (destruct Hreg as (row & Hrow & _); apply Hok in Hrow; lia).
  destruct (ingest_token_spec fuel job token tok (log_rows logs) n d1 r) as (d2 & Hing & Hh2 & F); try done; try lia.
  - by apply find_token_id_registered.
  - eapply has_history_ext; [exact E1|exact E2|exact E3|exact E4|].
    unfold log_rows, events_of. rewrite <- !fmap_take. fold (events_of (take n logs)). fold (log_rows (take n logs)).
    rewrite log_rows_leaves by (by apply Forall_take). done.
  - intros k row Hk. unfold log_rows in Hk. rewrite list_lookup_fmap in Hk.
    destruct (events_of logs !! k) as [e|] eqn:Ee; [|done]. apply (inj Some) in Hk. subst row. by apply Hall.
  - apply log_rows_parse.
  - rewrite Hci. unfold log_rows. by rewrite length_fmap.
  - rewrite log_rows_leaves in Hh2 by done. exists d1, d2. split_and!; try done.
    destruct Hinv1 as [I1 I2 I3]. split.
    + rewrite (fr_tokens _ _ _ F). exact I1.
    + intros i row. rewrite (fr_events _ _ _ F). apply I2.
    + intros r'. rewrite (fr_event_state _ _ _ F), (fr_events _ _ _ F). intros Hr'. unfold event_stored. rewrite (fr_events _ _ _ F). by apply I3.
Qed.
End pipeline.

(** ** Work under a lease *)

(** A job never works without its lease and never keeps it: when the key is held by
    a live lease of another process, processing a token changes nothing and reports
    success; otherwise the work runs exactly once on the database that records the
    lease, its result (success or error) is returned, and the lease row of this
    process is gone afterwards, also when the work failed. *)
Theorem with_lease_releases now holder key (work : M Db JobError unit) d :
  (forall d0, leases (work d0).1 = leases d0) ->
  let '(d', r) := with_lease now holder key work d in
  match try_acquire_lock now holder key d with
  | (_, false) => d' = d /\ r = Ok tt
  | (d1, true) => r = (work d1).2 /\ d' = set_leases (delete key (leases d1)) (work d1).1
      /\ leases d' !! key = None
  end.
Proof.
  intros Hw. unfold with_lease, mbind at 1, M_bind at 1.
  destruct (try_acquire_lock now holder key d) as [d1 [|]] eqn:Ea.
  - apply acquire_some_row in Ea as [-> _]. set (d1 := set_leases _ d). unfold attempt, mbind, M_bind, modify, lift.
    pose proof (Hw d1) as Hl. destruct (work d1) as [d2 r] eqn:Ew. cbn [fst snd] in *.
    assert (leases d1 !! key = Some (mkLeaseRow holder (now + LEASE_TTL))) as Hrow by apply lookup_insert_eq.
    unfold release_lease. rewrite Hl, Hrow. cbn [lr_holder]. rewrite Z.eqb_refl.
    split_and!; [done..|]. apply lookup_delete_eq.
  - apply failed_unchanged in Ea as ->. done.
Qed.

(** ** Witnesses *)

Section witnesses.
#[local] Existing Instance toy_crypto.
#[local] Existing Instance toy_crypto_laws.
#[local] Existing Instance toy_node.

Definition toy_job : TreeIngestionJob := mkTreeIngestionJob [] 1 2 2 (mkDbMerkleTreeConfig 4).
Definition toy_token : TreeTokenContext := mkTreeTokenContext "t" (mkTokenMetadata 77 78 1) 9.

Lemma toy_fresh_history : has_history 1 2 4 toy_event_db (log_leaves (take 0 toy_logs)).
Proof.
  destruct (DbTree_new_spec 1 2 4 toy_event_db) as (t & d' & Hn & _ & _ & _ & Hr); [lia|lia|lia|by eexists|by repeat split|].
  rewrite DbTree_new_run in Hn by lia. injection Hn as <- <-. exact Hr.
Qed.

Lemma indexing_pipeline_correct_witness :
  exists d1 d2, sync 4 32 (toy_indexer 10 3) toy_event_db = (d1, Ok tt) /\ ingest_token 4 toy_job toy_token d1 = (d2, Ok tt)
    /\ has_history 1 2 4 d2 (log_leaves toy_logs) /\ indexer_inv 1 (events_of toy_logs) d2.
Proof.
  apply (indexing_pipeline_correct toy_logs 31 (toy_indexer 10 3) 4 32 toy_job toy_token 0 toy_event_db).
  - exact toy_node_view.
  - repeat constructor; cbn; lia.
  - reflexivity.
  - cbn; lia.
  - cbn; lia.
  - by vm_compute.
  - intros k e. unfold events_of. rewrite list_lookup_fmap. destruct (toy_logs !! k) as [l|] eqn:E; [|done].
    intros He. apply (inj Some) in He. subst e. revert k l E.
    apply (toy_logs_cases (fun _ l => 5 <= ie_eth_block_number (log_to_event l))); cbn; lia.
  - lia.
  - cbn; lia.
  - split_and!; cbn.
    + intros i r Hi. apply lookup_singleton_Some in Hi as [<- _]. lia.
    + lia.
    + intros i j r s Hi Hj _ _. apply lookup_singleton_Some in Hi as [<- _]. by apply lookup_singleton_Some in Hj as [<- _].
  - by eexists.
  - by vm_compute.
  - cbn; lia.
  - by vm_compute.
  - split; [by eexists|done|done].
  - cbn; lia.
  - exact toy_fresh_history.
Defined.

Lemma with_lease_releases_witness :
  let '(d', r) := with_lease 0 1 5 (fail (Msg "boom")) toy_event_db in
  match try_acquire_lock 0 1 5 toy_event_db with
  | (_, false) => d' = toy_event_db /\ r = Ok tt
  | (d1, true) => r = Err (Msg "boom") /\ d' = set_leases (delete 5 (leases d1)) d1 /\ leases d' !! 5 = None
  end.
Proof. apply (with_lease_releases 0 1 5 (fail (Msg "boom")) toy_event_db). done. Defined.
End witnesses.
