(* ===== verification/RootJob.v ===== *)
(** [indexer/src/jobs/root.rs]: the root prover job, which folds the indexed
    transfers into a Nova proof, checkpoints the folding in the database, and
    submits the transfer root to the verifier contract.

    The folding library, the decider service and the Ethereum node are external:
    [NovaScheme], [DeciderClient] and [Rpc].  The world of a run is the database
    and the contracts.  Randomness of the prover is not modelled: a step returns
    one of the proofs the library may return. *)

From S2P Require Import Prelude Words Crypto BitPaths MerkleTrees Gadgets Circuits Database OnChain TreeDb Events Leases Jobs.
Local Open Scope Z_scope.

(** ** External components *)

(** [N<RootCircuit<Fr>>], [IVCProof] and [NovaParams] of the Sonobe library. *)
Class NovaScheme := {
  RootNovaInstance : Type;
  RootIvcProof : Type;
  initial_nova : list Z -> result string RootNovaInstance;
  prove_step : RootNovaInstance -> RootExternalInputs -> result string RootNovaInstance;
  nova_state : RootNovaInstance -> list Z;
  nova_ivc_proof : RootNovaInstance -> RootIvcProof;
  nova_verify : RootIvcProof -> result string unit;
  nova_from_ivc_proof : RootIvcProof -> result string RootNovaInstance;
  serialize_uncompressed : RootIvcProof -> result string bytes;
  deserialize_uncompressed : bytes -> result string RootIvcProof;
}.

Inductive CircuitKind := Root | WithdrawLocal | WithdrawGlobal.

Class DeciderClient := { produce_decider_proof : CircuitKind -> bytes -> result string bytes }.

Record World := mkWorld {
  w_db : Db;
  w_token : Z -> Token;
  w_verifier : Z -> Verifier;
  (** the [_token] slot of each verifier *)
  w_token_of : Z -> Z;
}.

Class Rpc := {
  (** transport of a call, of a transaction and of its receipt, by name; a
      transaction whose receipt is not delivered has been mined all the same *)
  rpc_call : string -> result string unit;
  rpc_send : string -> result string unit;
  rpc_receipt : string -> result string unit;
  (** what other users' transactions do to the tokens before ours is mined *)
  rpc_others : (Z -> Token) -> Z -> Token;
}.

Definition set_db (d : Db) (w : World) : World := mkWorld d (w_token w) (w_verifier w) (w_token_of w).
Definition set_chain (tok : Z -> Token) (ver : Z -> Verifier) (w : World) : World :=
  mkWorld (w_db w) tok ver (w_token_of w).

(** A database computation, and a fallible external call with its context. *)
Definition on_db {E A} (m : M Db E A) : M World E A :=
  fun w => let '(d, r) := m (w_db w) in (set_db d w, r).
Definition ext {A} (context : string) (r : result string A) : M World JobError A :=
  lift (map_err (fun _ => Msg context) r).

(** ** State *)

Definition ROOT_LOCK_SALT : Z := 1380929364.

Record RootTokenContext := mkRootTokenContext {
  rtc_label : string;
  rtc_metadata : TokenMetadata;
  rtc_token_contract : Z;
  rtc_verifier_contract : Z;
  rtc_lock_key : Z;
}.

Record RootProverJob := mkRootProverJob {
  rpj_tokens : list RootTokenContext;
  rpj_tree_config : DbMerkleTreeConfig;
  rpj_tree_height : nat;
  rpj_history_window : Z;
  rpj_submit_enabled : bool;
}.

(** [into_job]: one context per token; building the providers and loading the
    Nova parameters is transport and file code. *)
Definition RootProverJob_build (default_hasher : string -> Z -> Z -> Z -> Z -> Z) (tree_config : DbMerkleTreeConfig)
  (tree_height : nat) (history_window : Z) (submission_enabled : bool) (tokens : list TokenEntry) : RootProverJob :=
  mkRootProverJob
    ((fun t => mkRootTokenContext (te_label t) (metadata t) (te_token_address t) (te_verifier_address t)
                 (lock_key_with_salt default_hasher t ROOT_LOCK_SALT)) <$> tokens)
    tree_config tree_height history_window submission_enabled.

Record RootProverState := mkRootProverState {
  base_index : Z;
  last_compiled_index : Z;
  last_submitted_index : Z;
  pending_reserved_index : option Z;
  pending_reserved_hash_chain : option Z;
}.

Record RootEvent := mkRootEvent { re_event_index : Z; re_address : Z; re_value : Z }.

Record IvcRecord := mkIvcRecord {
  rec_ivc_proof : bytes;
  rec_state_hash_chain : Z;
  rec_state_root : Z;
}.

(** ** The database of the job *)

Definition u64_to_i64 (label : string) (value : Z) : result JobError Z := ok_or (Msg label) (i64_try_from value).

Definition lookup_token_id (m : TokenMetadata) : M Db JobError (option Z) :=
  lift (u64_to_i64 "chain id exceeds i64 range" (tm_chain_id m)) ≫= fun chain_id_i64 =>
  gets (find_token_id m chain_id_i64).

Definition load_prover_state (token_id : Z) : M Db JobError (option RootProverState) :=
  gets (fun d => root_prover_state d !! token_id) ≫= fun row =>
  mret ((fun r => mkRootProverState (as_u64 (pr_base_index r)) (as_u64 (pr_last_compiled_index r))
                    (as_u64 (pr_last_submitted_index r)) (as_u64 <$> pr_pending_reserved_index r)
                    (be_val <$> pr_pending_reserved_hash_chain r)) <$> row).

(** The foreign key: the token is registered. *)
Definition check_token (token_id : Z) (context : string) : M Db JobError unit :=
  gets (fun d => tokens d !! token_id) ≫= fun row =>
  match row with Some _ => mret tt | None => fail (Msg context) end.

Definition upsert_prover_state (token_id base compiled submitted : Z) (pending_index pending_hash : option Z) : M Db JobError unit :=
  lift (u64_to_i64 "base_index" base) ≫= fun base_i64 =>
  lift (u64_to_i64 "last_compiled_index" compiled) ≫= fun compiled_i64 =>
  lift (u64_to_i64 "last_submitted_index" submitted) ≫= fun submitted_i64 =>
  lift (transpose (u64_to_i64 "pending_reserved_index" <$> pending_index)) ≫= fun pending_index_i64 =>
  let hash_chain_bytes := u256_to_be_bytes <$> pending_hash in
  check_token token_id "failed to upsert root prover state" ≫= fun _ =>
  modify (fun d => set_prover
    (<[token_id := mkProverRow base_i64 compiled_i64 submitted_i64 pending_index_i64 hash_chain_bytes]> (root_prover_state d)) d).

Definition update_last_compiled_index (token_id idx : Z) : M Db JobError unit :=
  lift (u64_to_i64 "last_compiled_index" idx) ≫= fun index_i64 =>
  modify (fun d => set_prover
    (alter (fun r => mkProverRow (pr_base_index r) index_i64 (pr_last_submitted_index r) (pr_pending_reserved_index r)
                       (pr_pending_reserved_hash_chain r)) token_id (root_prover_state d)) d).

Definition reset_state_after_submission (token_id new_base : Z) : M Db JobError unit :=
  upsert_prover_state token_id new_base new_base new_base None None.

Definition persist_pending_reservation (token_id idx hash_chain : Z) : M Db JobError unit :=
  load_prover_state token_id ≫= fun snapshot =>
  let base := default idx (base_index <$> snapshot) in
  let compiled := default idx (last_compiled_index <$> snapshot) in
  let submitted := default idx (last_submitted_index <$> snapshot) in
  upsert_prover_state token_id base compiled submitted (Some idx) (Some hash_chain).

Definition delete_ivc_proofs (token_id : Z) : M Db JobError unit :=
  modify (fun d => set_ivc (delete_where (fun kv => kv.1.1 =? token_id) (root_ivc_proofs d)) d).

Definition ensure_state_alignment (token_id base : Z) : M Db JobError RootProverState :=
  load_prover_state token_id ≫= fun existing =>
  let reset :=
    delete_ivc_proofs token_id ≫= fun _ =>
    upsert_prover_state token_id base base base None None ≫= fun _ =>
    mret (mkRootProverState base base base None None) in
  match existing with
  | Some state => if base_index state =? base then mret state else reset
  | None => reset
  end.

(** [ON CONFLICT (token_id, end_index)] keeps the [start_index] of the row. *)
Definition upsert_ivc_proof (token_id start_index end_index : Z) (proof_bytes : bytes) (state_hash_chain state_root : Z)
  : M Db JobError unit :=
  let hash_chain_bytes := fr_to_bytes state_hash_chain in
  let root_bytes := fr_to_bytes state_root in
  lift (u64_to_i64 "start_index" start_index) ≫= fun start_i64 =>
  lift (u64_to_i64 "end_index" end_index) ≫= fun end_i64 =>
  check_token token_id "failed to upsert root IVC proof" ≫= fun _ =>
  modify (fun d =>
    let start := match root_ivc_proofs d !! (token_id, end_i64) with Some r => ir_start_index r | None => start_i64 end in
    set_ivc (<[(token_id, end_i64) := mkIvcRow start proof_bytes end_i64 hash_chain_bytes root_bytes]> (root_ivc_proofs d)) d).

Definition load_ivc_record (token_id end_index : Z) : M Db JobError (option IvcRecord) :=
  lift (u64_to_i64 "end_index" end_index) ≫= fun end_i64 =>
  gets (fun d => root_ivc_proofs d !! (token_id, end_i64)) ≫= fun row =>
  mret ((fun r => mkIvcRecord (ir_ivc_proof r) (fr_of_biguint (be_val (ir_state_hash_chain r)))
                    (fr_of_biguint (be_val (ir_state_root r)))) <$> row).

(** [polls] is the number of queries that fit before the deadline. *)
Fixpoint wait_for_ivc_record (polls : nat) (token_id end_index : Z) : M Db JobError IvcRecord :=
  match polls with
  | O => fail (Msg "timed out waiting for ivc proof")
  | S polls' =>
    load_ivc_record token_id end_index ≫= fun r =>
    match r with Some record => mret record | None => wait_for_ivc_record polls' token_id end_index end
  end.

Definition event_of_row (row : Z * EventRow) : result JobError RootEvent :=
  address ← parse_address (ev_to row.2);
  value ← parse_u256 (ev_value row.2);
  Ok (mkRootEvent (as_u64 row.1) address value).

Definition fetch_event_batch (token_id start_index end_index : Z) : M Db JobError (list RootEvent) :=
  if end_index <=? start_index then mret []
  else
    lift (u64_to_i64 "event_index_start" start_index) ≫= fun start_i64 =>
    lift (u64_to_i64 "event_index_end" (u64_sub end_index 1)) ≫= fun end_i64 =>
    gets (fun d => (fun kv => (kv.1.2, kv.2)) <$> select_asc (fun kv => kv.1.2)
       (fun kv => (kv.1.1 =? token_id) && (start_i64 <=? kv.1.2) && (kv.1.2 <=? end_i64)) (indexed_transfer_events d)) ≫= fun rows =>
    lift (map_result event_of_row rows).

(** ** Transactions *)

Section job.
Context {C : Crypto} {D : Deciders} {NS : NovaScheme} {DC : DeciderClient} {RPC : Rpc}.

(** [contract.f(..).send()] and [wait_for_receipt]. *)
Definition send_tx (name : string) (verifier : Z) (f : Token -> Verifier -> result Revert (Verifier * list VerifierEvent))
  : M World JobError Receipt :=
  ext name (rpc_send name) ≫= fun _ =>
  (fun w =>
     let tok := rpc_others (w_token w) in
     let '(v, receipt) := execute (f (tok (w_token_of w verifier))) (w_verifier w verifier) in
     (set_chain tok (fun a => if a =? verifier then v else w_verifier w a) w, Ok receipt)) ≫= fun receipt =>
  ext "failed to fetch transaction receipt" (rpc_receipt name) ≫= fun _ =>
  if receipt_status receipt then mret receipt else fail (Msg "transaction reverted").

Definition reserve_hash_chain (token : RootTokenContext) : M World JobError (Z * Z) :=
  send_tx "reserveHashChain" (rtc_verifier_contract token) (fun t v => Ok (reserveHashChain t v)) ≫= fun receipt =>
  lift (ok_or (Msg "failed to parse HashChainReserved event") (parse_hash_chain_reserved (receipt_logs receipt))).

Definition submit_transfer_root (token : RootTokenContext) (decider_proof : bytes) : M World JobError Receipt :=
  send_tx "proveTransferRoot" (rtc_verifier_contract token) (fun _ v => proveTransferRoot decider_proof v).

(** ** Folding *)

Definition to_external_inputs (address value : Z) (proof : HistoricalProof) : result JobError RootExternalInputs :=
  let siblings_vec := siblings (hp_proof proof) in
  if negb (length siblings_vec =? TRANSFER_TREE_HEIGHT)%nat then Err (Msg "unexpected sibling path length")
  else Ok (mkRootExternalInputs false (address_to_fr address) (u256_to_fr value) siblings_vec).

Definition load_state_vector (tree : DbIncrementalMerkleTree) (idx : Z) : M Db JobError (list Z) :=
  map_err_M (TreeError "failed to fetch hash chain for base index") (hash_chain_at tree idx) ≫= fun hash_chain =>
  map_err_M (TreeError "failed to fetch root for base index") (root_at tree idx) ≫= fun root =>
  lift (match root with
        | Some r => Ok r
        | None => map_err (TreeError "zero_root") (zero_root tree)
        end) ≫= fun root =>
  mret [fr_of_biguint idx; u256_to_fr (default 0 hash_chain); root].

Definition serialize_ivc_proof (p : RootIvcProof) : M World JobError bytes :=
  ext "failed to serialize ivc proof" (serialize_uncompressed p).
Definition deserialize_ivc_proof (bs : bytes) : M World JobError RootIvcProof :=
  ext "failed to deserialize ivc proof" (deserialize_uncompressed bs).

Definition load_nova_from_ivc (bs : bytes) : M World JobError RootNovaInstance :=
  deserialize_ivc_proof bs ≫= fun ivc =>
  ext "failed to load nova instance from ivc proof" (nova_from_ivc_proof ivc).

(** A mismatch of the reconstructed state with the stored columns is only logged. *)
Definition initialise_nova (token_id : Z) (tree : DbIncrementalMerkleTree) (base compiled : Z)
  : M World JobError RootNovaInstance :=
  on_db (load_state_vector tree base) ≫= fun z0 =>
  if compiled =? base then ext "failed to initialise nova instance" (initial_nova z0)
  else
    on_db (load_ivc_record token_id compiled) ≫= fun record =>
    lift (ok_or (Msg "missing IVC proof for compiled index") record) ≫= fun ivc_record =>
    deserialize_ivc_proof (rec_ivc_proof ivc_record) ≫= fun ivc =>
    ext "failed to reconstruct nova from ivc proof" (nova_from_ivc_proof ivc).

(** One event: historical proof, folding step, verification of the IVC proof and
    its row.  The statements that only collect data for a log line on a failed
    verification are left out; they do not write. *)
Definition compile_event (tree : DbIncrementalMerkleTree) (token_id base : Z) (nova : RootNovaInstance) (event : RootEvent)
  (current_index : Z) : M World JobError (RootNovaInstance * Z) :=
  on_db (map_err_M (TreeError "failed to build merkle proof")
           (DbTree_prove tree (u64_add (re_event_index event) 1) (re_event_index event))) ≫= fun proof =>
  lift (to_external_inputs (re_address event) (re_value event) proof) ≫= fun external_inputs =>
  ext "failed to extend nova proof" (prove_step nova external_inputs) ≫= fun nova' =>
  let current_index' := u64_add current_index 1 in
  let state_snapshot := nova_state nova' in
  let ivc_proof := nova_ivc_proof nova' in
  ext "failed to verify IVC proof" (nova_verify ivc_proof) ≫= fun _ =>
  serialize_ivc_proof ivc_proof ≫= fun proof_bytes =>
  lift (ok_or (Msg "nova state missing hash chain component") (state_snapshot !! 1%nat)) ≫= fun state_hash_chain =>
  lift (ok_or (Msg "nova state missing root component") (state_snapshot !! 2%nat)) ≫= fun state_root =>
  on_db (upsert_ivc_proof token_id base current_index' proof_bytes state_hash_chain state_root) ≫= fun _ =>
  mret (nova', current_index').

(** The [for event in events] loop; a gap in the events ends it. *)
Fixpoint compile_loop (tree : DbIncrementalMerkleTree) (token_id base : Z) (nova : RootNovaInstance) (events : list RootEvent)
  (current_index : Z) : M World JobError Z :=
  match events with
  | [] => mret current_index
  | event :: rest =>
    if negb (re_event_index event =? current_index) then mret current_index
    else compile_event tree token_id base nova event current_index ≫= fun r =>
         compile_loop tree token_id base r.1 rest r.2
  end.

Definition with_compiled (idx : Z) (s : RootProverState) : RootProverState :=
  mkRootProverState (base_index s) idx (last_submitted_index s) (pending_reserved_index s) (pending_reserved_hash_chain s).

Definition sync_ivc_proofs (token_id : Z) (tree : DbIncrementalMerkleTree) (state : RootProverState) (contract_index : Z)
  : M World JobError RootProverState :=
  on_db (map_err_M (TreeError "failed to load latest tree index") (latest_index tree)) ≫= fun tree_index =>
  let target_index := Z.min tree_index contract_index in
  if target_index <=? last_compiled_index state then mret state
  else
    on_db (fetch_event_batch token_id (last_compiled_index state) target_index) ≫= fun events =>
    match events with
    | [] => mret state
    | _ =>
      initialise_nova token_id tree (base_index state) (last_compiled_index state) ≫= fun nova =>
      compile_loop tree token_id (base_index state) nova events (last_compiled_index state) ≫= fun current_index =>
      if last_compiled_index state <? current_index then
        on_db (update_last_compiled_index token_id current_index) ≫= fun _ =>
        mret (with_compiled current_index state)
      else mret state
    end.

(** ** Submission *)

Definition dummy_inputs : RootExternalInputs :=
  mkRootExternalInputs true 0 0 (replicate TRANSFER_TREE_HEIGHT 0).

Definition with_pending (idx hash : Z) (s : RootProverState) : RootProverState :=
  mkRootProverState (base_index s) (last_compiled_index s) (last_submitted_index s) (Some idx) (Some hash).

(** The proof handed to the decider: a single step is padded with a dummy step. *)
Definition decider_input (state : RootProverState) (record : IvcRecord) : M World JobError bytes :=
  if u64_sub (last_compiled_index state) (base_index state) =? 1 then
    load_nova_from_ivc (rec_ivc_proof record) ≫= fun nova =>
    ext "failed to append dummy step before submission" (prove_step nova dummy_inputs) ≫= fun nova' =>
    serialize_ivc_proof (nova_ivc_proof nova')
  else mret (rec_ivc_proof record).

(** The pending reservation for the target, or a new one. *)
Definition reservation (token : RootTokenContext) (token_id : Z) (state : RootProverState)
  : M World JobError (RootProverState * (Z * Z)) :=
  let target_index := last_compiled_index state in
  match (if bool_decide (pending_reserved_index state = Some target_index) then pending_reserved_hash_chain state else None) with
  | Some hash => mret (state, (target_index, hash))
  | None =>
    reserve_hash_chain token ≫= fun '(idx, hash_chain) =>
    on_db (persist_pending_reservation token_id idx hash_chain) ≫= fun _ =>
    mret (with_pending idx hash_chain state, (idx, hash_chain))
  end.

Definition submit_if_ready (polls : nat) (submit_enabled : bool) (token : RootTokenContext) (token_id : Z) (state : RootProverState)
  (contract_index : Z) : M World JobError RootProverState :=
  if last_compiled_index state <=? last_submitted_index state then mret state
  else if contract_index <? last_compiled_index state then mret state
  else
    let target_index := last_compiled_index state in
    on_db (wait_for_ivc_record polls token_id target_index) ≫= fun proof_record =>
    decider_input state proof_record ≫= fun ivc_bytes =>
    if negb submit_enabled then
      ext "root prover decider generation failed" (produce_decider_proof Root ivc_bytes) ≫= fun _ => mret state
    else
      reservation token token_id state ≫= fun '(state', (reserved_index, reserved_hash_chain)) =>
      if negb (reserved_index =? target_index) then mret state'
      else if negb (fr_to_u256 (rec_state_hash_chain proof_record) =? reserved_hash_chain) then mret state'
      else
        ext "root prover decider generation failed" (produce_decider_proof Root ivc_bytes) ≫= fun decider =>
        submit_transfer_root token decider ≫= fun _ =>
        on_db (reset_state_after_submission token_id target_index) ≫= fun _ =>
        let state'' := mkRootProverState target_index target_index target_index None None in
        on_db (delete_ivc_proofs token_id) ≫= fun _ =>
        on_db (ensure_state_alignment token_id target_index) ≫= fun _ =>
        mret state''.

(** ** The job *)

Definition process_token_inner (polls : nat) (job : RootProverJob) (token : RootTokenContext) (do_compile do_submit : bool)
  : M World JobError unit :=
  if negb do_compile && negb do_submit then mret tt
  else
    on_db (lookup_token_id (rtc_metadata token)) ≫= fun token_id_opt =>
    match token_id_opt with
    | None => mret tt
    | Some token_id =>
      on_db (map_err_M (TreeError "failed to initialise merkle tree")
               (DbTree_new token_id (rpj_tree_height job) (rpj_tree_config job))) ≫= fun tree =>
      ext "failed to query token index" (rpc_call "index") ≫= fun _ =>
      gets (fun w => uint256_as_u64 (index (w_token w (rtc_token_contract token)))) ≫= fun current_index =>
      (if rpj_submit_enabled job then
         ext "failed to query verifier state" (rpc_call "latestProvedIndex") ≫= fun _ =>
         gets (fun w => latestProvedIndex (w_verifier w (rtc_verifier_contract token)))
       else mret 0) ≫= fun latest_proved_index =>
      if u64_add latest_proved_index (rpj_history_window job) <? current_index then fail (Msg "history window exhausted")
      else
        on_db (ensure_state_alignment token_id latest_proved_index) ≫= fun state =>
        (if do_compile then sync_ivc_proofs token_id tree state current_index else mret state) ≫= fun state =>
        (if do_submit then submit_if_ready polls (rpj_submit_enabled job) token token_id state current_index else mret state)
          ≫= fun _ => mret tt
    end.

(** [process_token]: under the lease of the token. *)
Definition root_process_token (polls : nat) (now holder : Z) (job : RootProverJob) (token : RootTokenContext)
  (do_compile do_submit : bool) : M World JobError unit :=
  on_db (fun d => let '(d', b) := try_acquire_lock now holder (rtc_lock_key token) d in (d', Ok b)) ≫= fun acquired =>
  if (acquired : bool) then
    attempt (process_token_inner polls job token do_compile do_submit) ≫= fun outcome =>
    on_db (modify (fun d => (release_lease holder (rtc_lock_key token) d).1)) ≫= fun _ =>
    lift outcome
  else mret tt.

Fixpoint run_cycle (polls : nat) (now holder : Z) (job : RootProverJob) (do_compile do_submit : bool)
  (tokens : list RootTokenContext) (w : World) : World :=
  match tokens with
  | [] => w
  | t :: ts => run_cycle polls now holder job do_compile do_submit ts
                 (root_process_token polls now holder job t do_compile do_submit w).1
  end.

Definition root_run_once (polls : nat) (now holder : Z) (job : RootProverJob) : World -> World :=
  run_cycle polls now holder job true true (rpj_tokens job).
End job.
