(* ===== verification/RootJobSpec.v ===== *)
(** The root prover job ([indexer/src/jobs/root.rs]) on top of the database tree, the
    circuits and the contracts: folding an indexed token never fails inside the
    history window, every checkpoint attests the history it claims, and a completed
    cycle leaves the root of the whole log proved on chain.

    The external prover is described by [ProverLaws]: a satisfied step can be
    folded, folding can be resumed from a stored proof, and the decider turns
    a folding of at least two steps into a proof the contract accepts. *)

From S2P Require Import Prelude Words Crypto BitPaths MerkleTrees Gadgets Circuits Folding Database OnChain OnChainSpec TreeDb TreeDbSpec Events EventsSpec Leases Jobs JobsSpec RootJob.
Local Open Scope Z_scope.

(** ** Vocabulary *)

Section laws.
Context {C : Crypto} {R : R1CS} {D : Deciders} {NS : NovaScheme} {DC : DeciderClient}.

(** [attests n i z0 z]: the instance [n] has folded [i] steps from [z0] to [z]. *)
Class ProverLaws (attests : RootNovaInstance -> Z -> list Z -> list Z -> Prop) : Prop := {
  pl_init : forall z0, length z0 = 3%nat -> exists n, initial_nova z0 = Ok n /\ attests n 0 z0 z0;
  pl_step : forall cfg n i z0 z x z',
    circom_poseidon_config = Some cfg -> attests n i z0 z -> rx_wf x ->
    root_generate_step_constraints cfg z x = Some (z', true) ->
    exists n', prove_step n x = Ok n' /\ attests n' (i + 1) z0 z';
  pl_state : forall n i z0 z, attests n i z0 z -> nova_state n = z;
  pl_verify : forall n i z0 z, attests n i z0 z -> 0 < i -> nova_verify (nova_ivc_proof n) = Ok tt;
  pl_serialize : forall p, exists bs, serialize_uncompressed p = Ok bs /\ deserialize_uncompressed bs = Ok p;
  pl_resume : forall n i z0 z, attests n i z0 z -> 0 < i ->
    exists n', nova_from_ivc_proof (nova_ivc_proof n) = Ok n' /\ attests n' i z0 z;
  pl_decider : forall n i z0 z bs, attests n i z0 z -> 2 <= i < 2 ^ 64 -> length z0 = 3%nat -> length z = 3%nat ->
    Forall is_fr (z0 ++ z) -> serialize_uncompressed (nova_ivc_proof n) = Ok bs ->
    exists pf rest, produce_decider_proof Root bs = Ok pf
      /\ abi_decode_words 32 pf = Ok ([i] ++ z0 ++ z ++ rest) /\ rootDecider ([i] ++ z0 ++ z ++ rest) = true;
}.

Context (attests : RootNovaInstance -> Z -> list Z -> list Z -> Prop).

(** The row at [end_index] holds a folding of the transfers [b .. c - 1] of [ls]. *)
Definition ivc_row_ok (ls : list Leaf) (b c : nat) (row : IvcRow) : Prop :=
  ir_state_hash_chain row = fr_to_bytes (history_chain (take c ls))
  /\ ir_state_root row = fr_to_bytes (history_root TRANSFER_TREE_HEIGHT (take c ls))
  /\ exists n, serialize_uncompressed (nova_ivc_proof n) = Ok (ir_ivc_proof row)
       /\ attests n (Z.of_nat c - Z.of_nat b) (root_state (take b ls)) (root_state (take c ls)).

Definition ivc_at (tok : Z) (ls : list Leaf) (b c : nat) (d : Db) : Prop :=
  exists row, root_ivc_proofs d !! (tok, Z.of_nat c) = Some row /\ ivc_row_ok ls b c row.
End laws.

(** The events the job reads for the transfers [ls] starting at index [i]. *)
Fixpoint events_from (i : nat) (ls : list Leaf) : list RootEvent :=
  match ls with
  | [] => []
  | l :: ls' => mkRootEvent (Z.of_nat i) (leaf_address l) (leaf_value l) :: events_from (S i) ls'
  end.

(** ** Running the monad over the world *)

Lemma on_db_run {E A} (m : M Db E A) w d r : m (w_db w) = (d, r) -> on_db m w = (set_db d w, r).
Proof. unfold on_db. by intros ->. Qed.

Lemma on_db_same {E A} (m : M Db E A) w a : m (w_db w) = (w_db w, Ok a) -> on_db m w = (w, Ok a).
Proof. intros H. rewrite (on_db_run _ _ _ _ H). by destruct w. Qed.

Lemma map_err_M_run {S E E' A} (f : E -> E') (m : M S E A) s s' a :
  m s = (s', Ok a) -> map_err_M f m s = (s', Ok a).
Proof. unfold map_err_M. by intros ->. Qed.

Lemma ext_run {A} ctx (r : result string A) w a : r = Ok a -> ext ctx r w = (w, Ok a).
Proof. by intros ->. Qed.

Lemma u64_to_i64_ok label v : v <= i64_max -> u64_to_i64 label v = Ok v.
Proof. intros Hv. unfold u64_to_i64, i64_try_from. by rewrite (proj2 (Z.leb_le _ _)). Qed.

Lemma set_db_db w d : w_db (set_db d w) = d.
Proof. done. Qed.

(** Runs the leading computation of a sequence with the lemma [H]. *)
Ltac run H := rewrite (M_bind_run _ _ _ _ _ H).

Section tree_facts.
Context {C : Crypto} {HC : CryptoLaws C}.

Lemma tree_repr_set_ivc t d ls x : tree_repr t d ls -> tree_repr t (set_ivc x d) ls.
Proof. intros []. by split. Qed.
Lemma tree_repr_set_prover t d ls x : tree_repr t d ls -> tree_repr t (set_prover x d) ls.
Proof. intros []. by split. Qed.

(** The path of the last leaf does not see the leaf itself. *)
Lemma spec_path_last ls l h :
  spec_path (history_leaves (ls ++ [l])) 0 h (Z.of_nat (length ls))
  = spec_path (history_leaves ls) 0 h (Z.of_nat (length ls)).
Proof.
  rewrite <- (spec_path_upd_self (history_leaves ls) _ (Leaf_hash l)) by lia.
  apply spec_path_ext; [lia|]. intros j Hj. by apply history_leaves_snoc.
Qed.
End tree_facts.

(** ** Compiling *)

Section compile.
Context {C : Crypto} {HC : CryptoLaws C} {R : R1CS} {HR : R1CSLaws C R}.
Context {D : Deciders} {NS : NovaScheme} {DC : DeciderClient} {RPC : Rpc}.
Context (attests : RootNovaInstance -> Z -> list Z -> list Z -> Prop) {PL : ProverLaws attests}.

(** The inputs built from a historical proof are the honest inputs of the step. *)
Lemma external_inputs_honest ls l (i : nat) :
  ls !! i = Some l -> leaf_in_range l ->
  to_external_inputs (leaf_address l) (leaf_value l)
    (mkHistoricalProof (Z.of_nat (S i)) (Z.of_nat i) (history_root TRANSFER_TREE_HEIGHT (take (S i) ls)) (history_chain (take (S i) ls))
       (mkMerkleProof (spec_path (history_leaves (take (S i) ls)) 0 TRANSFER_TREE_HEIGHT (Z.of_nat i))))
  = Ok (mkRootExternalInputs false (leaf_address l) (leaf_value l)
          (spec_path (history_leaves (take i ls)) 0 TRANSFER_TREE_HEIGHT (Z.of_nat (length (take i ls))))).
Proof.
  intros Hl [Ha Hv]. unfold to_external_inputs. cbn [hp_proof siblings]. rewrite length_spec_path, Nat.eqb_refl. cbn [negb].
  rewrite address_to_fr_id, u256_to_fr_id by (first [by apply (fr_small _ 248) | done]).
  pose proof (lookup_lt_Some _ _ _ Hl). rewrite (take_S_r _ _ _ Hl).
  assert (length (take i ls) = i) as Hti by (rewrite length_take; lia).
  replace (Z.of_nat i) with (Z.of_nat (length (take i ls))) at 1 by (by rewrite Hti). by rewrite spec_path_last.
Qed.

(** One event is folded, verified and stored. *)
Lemma compile_event_spec t w ls l (i b : nat) n k z0 :
  tree_repr t (w_db w) ls -> dt_height t = TRANSFER_TREE_HEIGHT -> Z.of_nat (length ls) < 2 ^ 40 ->
  ls !! i = Some l -> leaf_in_range l -> Z.of_nat (length ls) - Z.of_nat (S i) <= dt_history_window t ->
  0 <= k -> (b <= i)%nat -> attests n k z0 (root_state (take i ls)) ->
  exists n' bs row,
    compile_event t (dt_token t) (Z.of_nat b) n (mkRootEvent (Z.of_nat i) (leaf_address l) (leaf_value l)) (Z.of_nat i) w
    = (set_db (set_ivc (<[(dt_token t, Z.of_nat (S i)) := row]> (root_ivc_proofs (w_db w))) (w_db w)) w, Ok (n', Z.of_nat (S i)))
    /\ attests n' (k + 1) z0 (root_state (take (S i) ls))
    /\ serialize_uncompressed (nova_ivc_proof n') = Ok bs /\ ir_ivc_proof row = bs
    /\ ir_state_hash_chain row = fr_to_bytes (history_chain (take (S i) ls))
    /\ ir_state_root row = fr_to_bytes (history_root TRANSFER_TREE_HEIGHT (take (S i) ls)).
Proof.
  intros Hr Hh Hlen Hl Hlr Hwin Hk Hb Hat. pose proof (lookup_lt_Some _ _ _ Hl) as Hi.
  pose proof (take_S_r _ _ _ Hl) as Htk. assert (length (take i ls) = i) as Hti by (rewrite length_take; lia).
  unfold compile_event. cbn [re_event_index re_address re_value].
  assert (u64_add (Z.of_nat i) 1 = Z.of_nat (S i)) as -> by (unfold u64_add; rewrite Z.mod_small; lia).
  pose proof (prove_many_spec t (w_db w) ls (S i) [Z.of_nat i] Hr ltac:(lia) Hwin) as Hpm.
  rewrite Hh in Hpm.
  rewrite (M_bind_run _ _ w w (mkHistoricalProof (Z.of_nat (S i)) (Z.of_nat i)
     (history_root TRANSFER_TREE_HEIGHT (take (S i) ls)) (history_chain (take (S i) ls))
     (mkMerkleProof (spec_path (history_leaves (take (S i) ls)) 0 TRANSFER_TREE_HEIGHT (Z.of_nat i))))).
  2:{ apply on_db_same, map_err_M_run. unfold DbTree_prove. erewrite M_bind_run; [|apply Hpm].
      - done.
      - intros j Hj. apply list_elem_of_singleton in Hj as ->. lia. }
  rewrite (M_bind_run _ _ w w _ (lift_run _ _ _ (external_inputs_honest ls l i Hl Hlr))).
  destruct circom_config_ok as (cfg & Hcfg & _).
  destruct (pl_step cfg n k z0 _ _ _ Hcfg Hat (Forall_inv (honest_inputs_wf (take i ls) [l] ltac:(by constructor)))
    (root_step_honest cfg (take i ls) l Hcfg Hlr ltac:(lia))) as (n' & Hn' & Hat').
  rewrite <- Htk in Hat'. run (ext_run "failed to extend nova proof" _ w _ Hn').
  rewrite (pl_state _ _ _ _ Hat'). run (ext_run "failed to verify IVC proof" _ w _ (pl_verify _ _ _ _ Hat' ltac:(lia))).
  destruct (pl_serialize (nova_ivc_proof n')) as (bs & Hbs & _).
  run (ext_run "failed to serialize ivc proof" _ w _ Hbs).
  assert (root_state (take (S i) ls) !! 1%nat = Some (history_chain (take (S i) ls))) as -> by reflexivity.
  assert (root_state (take (S i) ls) !! 2%nat = Some (history_root TRANSFER_TREE_HEIGHT (take (S i) ls))) as -> by reflexivity.
  cbn [ok_or]. run (lift_run (E := JobError) (Ok (history_chain (take (S i) ls))) _ w eq_refl).
  run (lift_run (E := JobError) (Ok (history_root TRANSFER_TREE_HEIGHT (take (S i) ls))) _ w eq_refl).
  destruct (tr_token _ _ _ Hr) as [trow Htok].
  unfold upsert_ivc_proof.
  erewrite (M_bind_run _ _ w); [do 3 eexists; split; [reflexivity|]|].
  2:{ apply on_db_run. rewrite !u64_to_i64_ok by (unfold i64_max; lia). run (lift_run (E := JobError) (Ok (Z.of_nat b)) _ (w_db w) eq_refl).
      run (lift_run (E := JobError) (Ok (Z.of_nat (S i))) _ (w_db w) eq_refl). unfold check_token, gets, modify, mbind, M_bind.
      rewrite Htok. reflexivity. }
  done.
Qed.

(** The rows the loop writes: one good row per index in [(i, j]], nothing else. *)
Definition ivc_written (tok : Z) (ls : list Leaf) (b i j : nat) (old new : gmap (Z * Z) IvcRow) : Prop :=
  (forall k : nat, (i < k <= j)%nat -> exists row, new !! (tok, Z.of_nat k) = Some row /\ ivc_row_ok attests ls b k row)
  /\ (forall o e, (o <> tok \/ e <= Z.of_nat i \/ Z.of_nat j < e) -> new !! (o, e) = old !! (o, e)).

Lemma ivc_written_step tok ls b i j old row new :
  (i < j)%nat -> ivc_row_ok attests ls b (S i) row ->
  ivc_written tok ls b (S i) j (<[(tok, Z.of_nat (S i)) := row]> old) new -> ivc_written tok ls b i j old new.
Proof.
  intros Hij Hrow [H1 H2]. split.
  - intros k Hk. destruct (decide (k = S i)) as [->|]; [|apply H1; lia].
    exists row. split; [|done]. rewrite H2 by lia. by rewrite lookup_insert_eq.
  - intros o e He. rewrite H2 by lia. apply lookup_insert_ne. intros [= <- <-]. lia.
Qed.

Lemma compile_loop_spec t ls (b : nat) new : forall w (i : nat) n,
  tree_repr t (w_db w) ls -> dt_height t = TRANSFER_TREE_HEIGHT -> Z.of_nat (length ls) < 2 ^ 40 ->
  Forall leaf_in_range ls -> Z.of_nat (length ls) - Z.of_nat (S i) <= dt_history_window t ->
  (b <= i)%nat -> new `prefix_of` drop i ls ->
  attests n (Z.of_nat i - Z.of_nat b) (root_state (take b ls)) (root_state (take i ls)) ->
  exists x, compile_loop t (dt_token t) (Z.of_nat b) n (events_from i new) (Z.of_nat i) w
            = (set_db (set_ivc x (w_db w)) w, Ok (Z.of_nat (i + length new)))
    /\ ivc_written (dt_token t) ls b i (i + length new) (root_ivc_proofs (w_db w)) x.
Proof.
  induction new as [|l new IH]; intros w i n Hr Hh Hlen Hlr Hwin Hb Hpre Hat; cbn [events_from compile_loop length].
  - exists (root_ivc_proofs (w_db w)). rewrite Nat.add_0_r. split; [by destruct w as [[]]|]. split; [lia|done].
  - assert (ls !! i = Some l) as Hl.
    { destruct Hpre as [rest Hpre]. rewrite <- (Nat.add_0_r i), <- lookup_drop, Hpre. done. }
    cbn [re_event_index]. rewrite Z.eqb_refl. cbn [negb].
    destruct (compile_event_spec t w ls l i b n (Z.of_nat i - Z.of_nat b) (root_state (take b ls)) Hr Hh Hlen Hl (Forall_lookup_1 _ _ _ _ Hlr Hl) Hwin ltac:(lia) Hb Hat)
      as (n' & bs & row & Hrun & Hat' & Hbs & Hrb & Hrc & Hrr).
    run Hrun. cbn [fst snd].
    assert (ivc_row_ok attests ls b (S i) row) as Hrow.
    { split; [done|]. split; [done|]. exists n'. rewrite Hrb. split; [done|].
      replace (Z.of_nat (S i) - Z.of_nat b) with (Z.of_nat i - Z.of_nat b + 1) by lia. exact Hat'. }
    set (w1 := set_db _ w) in *.
    destruct (IH w1 (S i) n') as (x & Hx & Hw); [|exact Hh|exact Hlen|exact Hlr|lia|lia| | |].
    + unfold w1. rewrite set_db_db. by apply tree_repr_set_ivc.
    + destruct Hpre as [rest Hpre]. exists rest. rewrite (drop_S _ _ _ Hl) in Hpre. by injection Hpre.
    + replace (Z.of_nat (S i) - Z.of_nat b) with (Z.of_nat i - Z.of_nat b + 1) by lia. exact Hat'.
    + exists x. rewrite Hx. replace (S i + length new)%nat with (i + S (length new))%nat in * by lia.
      split; [reflexivity|]. eapply ivc_written_step; [lia | exact Hrow | exact Hw].
Qed.

(** ** The inputs of a compile run *)

Lemma event_of_row_ok (p : nat) row :
  row_parses row -> Z.of_nat p < 2 ^ 64 ->
  event_of_row (Z.of_nat p, row) = Ok (mkRootEvent (Z.of_nat p) (leaf_address (ev_leaf row)) (leaf_value (ev_leaf row))).
Proof.
  intros [Ha Hv] Hp. unfold event_of_row, parse_address, parse_u256. cbn [fst snd]. rewrite Ha, Hv. cbn.
  by rewrite as_u64_id by (unfold in_u64; lia).
Qed.

Lemma fetch_event_batch_spec tok rows d (p q : nat) :
  events_are tok rows d -> Forall row_parses rows -> (p < q <= length rows)%nat -> Z.of_nat (length rows) < 2 ^ 40 ->
  fetch_event_batch tok (Z.of_nat p) (Z.of_nat q) d = (d, Ok (events_from p (ev_leaf <$> drop p (take q rows)))).
Proof.
  intros He Hp Hq Hlen. unfold fetch_event_batch. if_case E; [lia|].
  assert (u64_sub (Z.of_nat q) 1 = Z.of_nat q - 1) as -> by (unfold u64_sub; rewrite Z.mod_small; lia).
  rewrite !u64_to_i64_ok by (unfold i64_max; lia).
  run (lift_run (E := JobError) (Ok (Z.of_nat p)) _ d eq_refl). run (lift_run (E := JobError) (Ok (Z.of_nat q - 1)) _ d eq_refl).
  unfold gets, lift, mbind, M_bind. f_equal. set (sel := _ <$> _).
  assert (sel = indexed p (drop p (take q rows))) as ->.
  { pose proof (fetch_events_spec tok (take q rows) d p (Z.of_nat (length sel + length rows))) as Hf.
    unfold fetch_events in Hf. rewrite length_take, Nat.min_l in Hf by lia. fold sel in Hf. rewrite Nat2Z.id in Hf.
    rewrite (take_ge sel), (take_ge (drop p (take q rows))) in Hf by (rewrite ?length_drop, ?length_take; lia).
    apply Hf; [|lia..].
    intros k row Hk. apply He. apply lookup_take_Some in Hk as [Hk _]. done. }
  assert (Forall row_parses (drop p (take q rows))) as Hp' by by apply Forall_drop, Forall_take.
  assert (Z.of_nat (p + length (drop p (take q rows))) < 2 ^ 40) as Hb by (rewrite length_drop, length_take; lia).
  generalize dependent (drop p (take q rows)). intros l Hp' Hb. clear -Hp' Hb. revert p Hp' Hb. induction l as [|row l IH]; intros p Hp Hb; [done|].
  apply Forall_cons in Hp as [Hrow Hp]. cbn [length] in Hb. cbn [indexed map_result fmap list_fmap events_from].
  rewrite event_of_row_ok by (done || lia). unfold mbind, result_bind. by rewrite (IH (S p)) by (done || lia).
Qed.

(** ** Resuming the folding *)

Lemma zero_root_spec t : handle_ok t -> zero_root t = Ok (history_root (dt_height t) []).
Proof.
  intros [_ Hz _]. unfold zero_root. rewrite last_lookup, Hz.
  assert (length (compute_zero_hashes (dt_height t)) = S (dt_height t)) as ->.
  { unfold compute_zero_hashes. rewrite compute_zero_loop_eq.
    assert (forall n acc c, length (zero_loop n acc c) = (n + length acc)%nat) as H.
    { induction n as [|n IH]; intros acc c; cbn [zero_loop]; [done|]. rewrite IH, length_app. cbn. lia. }
    rewrite H. cbn. lia. }
  cbn [pred]. rewrite compute_zero_hashes_lookup by done. cbn [ok_or]. f_equal. apply spec_node_ext.
  intros j _. by rewrite history_leaves_nil.
Qed.

Lemma snapshot_zero t d ls : tree_repr t d ls -> merkle_snapshots d !! (dt_token t, 0) = None.
Proof.
  intros Hr. destruct (merkle_snapshots d !! _) as [row|] eqn:E; [|done].
  apply (tr_snaps _ _ _ Hr) in E as (k & Hk & Hk' & _). lia.
Qed.

Lemma load_state_vector_spec t d ls (b : nat) :
  tree_repr t d ls -> dt_height t = TRANSFER_TREE_HEIGHT -> (b <= length ls)%nat -> Z.of_nat (length ls) < 2 ^ 40 ->
  load_state_vector t (Z.of_nat b) d = (d, Ok (root_state (take b ls))).
Proof.
  intros Hr Hh Hb Hlen. unfold load_state_vector.
  assert (map_err_M (TreeError "failed to fetch hash chain for base index") (hash_chain_at t (Z.of_nat b)) d
    = (d, Ok (if decide (b = 0%nat) then None else Some (history_chain (take b ls))))) as H1.
  { apply map_err_M_run. unfold hash_chain_at. apply transaction_ok. case_decide; [subst b|apply hash_chain_at_spec; [done|lia]].
    unfold hash_chain_at_internal, gets, lift, mbind, M_bind. rewrite to_i64_ok by done. change (Z.of_nat 0) with 0. by rewrite (snapshot_zero t d ls). }
  run H1.
  assert (map_err_M (TreeError "failed to fetch root for base index") (root_at t (Z.of_nat b)) d
    = (d, Ok (if decide (b = 0%nat) then None else Some (history_root (dt_height t) (take b ls))))) as H2.
  { apply map_err_M_run. unfold root_at. apply transaction_ok. case_decide; [subst b|apply root_at_spec; [done|lia]].
    unfold root_at_internal, gets, lift, mbind, M_bind. rewrite to_i64_ok by done. change (Z.of_nat 0) with 0. by rewrite (snapshot_zero t d ls). }
  run H2. rewrite Hh.
  rewrite (M_bind_run _ _ d d (history_root TRANSFER_TREE_HEIGHT (take b ls))).
  2:{ apply lift_run. case_decide; [|done]. subst b. rewrite zero_root_spec by apply Hr. by rewrite Hh. }
  unfold mret, M_ret. do 2 f_equal. unfold root_state, history_state. rewrite length_take, Nat.min_l by lia.
  rewrite fr_of_biguint_id by (apply (fr_small _ 41); lia). do 2 f_equal.
  case_decide; [by subst b|]. cbn [default]. apply u256_to_fr_id, history_chain_fr.
Qed.

(** The state the job keeps for a token whose first [b] transfers are proved. *)
Definition state_row (s : RootProverState) : ProverRow :=
  mkProverRow (base_index s) (last_compiled_index s) (last_submitted_index s) (pending_reserved_index s)
    (u256_to_be_bytes <$> pending_reserved_hash_chain s).

Record prover_ok (tok : Z) (ls : list Leaf) (b c : nat) (s : RootProverState) (d : Db) : Prop := {
  po_row : root_prover_state d !! tok = Some (state_row s);
  po_base : base_index s = Z.of_nat b;
  po_compiled : last_compiled_index s = Z.of_nat c;
  po_submitted : last_submitted_index s = Z.of_nat b;
  po_range : (b <= c <= length ls)%nat;
  po_ivc : (b < c)%nat -> ivc_at attests tok ls b c d;
}.

Lemma initialise_nova_spec t w ls (b c : nat) s :
  tree_repr t (w_db w) ls -> dt_height t = TRANSFER_TREE_HEIGHT -> Z.of_nat (length ls) < 2 ^ 40 ->
  prover_ok (dt_token t) ls b c s (w_db w) ->
  exists n, initialise_nova (dt_token t) t (Z.of_nat b) (Z.of_nat c) w = (w, Ok n)
    /\ attests n (Z.of_nat c - Z.of_nat b) (root_state (take b ls)) (root_state (take c ls)).
Proof.
  intros Hr Hh Hlen Hs. pose proof (po_range _ _ _ _ _ _ Hs) as Hbc. unfold initialise_nova.
  rewrite (M_bind_run _ _ w w _ (on_db_same _ _ _ (load_state_vector_spec t _ ls b Hr Hh ltac:(lia) Hlen))).
  if_case E.
  - assert (c = b) as -> by lia. destruct (pl_init (root_state (take b ls))) as (n & Hn & Hat); [done|].
    exists n. rewrite Hn, Z.sub_diag. done.
  - destruct (po_ivc _ _ _ _ _ _ Hs ltac:(lia)) as (row & Hrow & _ & _ & n & Hser & Hat).
    rewrite (M_bind_run _ _ w w (Some (mkIvcRecord (ir_ivc_proof row) (fr_of_biguint (be_val (ir_state_hash_chain row)))
       (fr_of_biguint (be_val (ir_state_root row)))))).
    2:{ apply on_db_same. unfold load_ivc_record, gets, lift, mret, mbind, M_bind, M_ret.
        rewrite u64_to_i64_ok by (unfold i64_max; lia). by rewrite Hrow. }
    cbn [ok_or]. rewrite (M_bind_run _ _ w w _ (lift_run _ _ _ eq_refl)). cbn [rec_ivc_proof].
    destruct (pl_serialize (nova_ivc_proof n)) as (bs & Hbs & Hde). rewrite Hser in Hbs. injection Hbs as <-.
    run (ext_run "failed to deserialize ivc proof" _ w _ Hde).
    destruct (pl_resume _ _ _ _ Hat ltac:(lia)) as (n' & Hn' & Hat'). exists n'. by rewrite Hn'.
Qed.

(** ** A compile run *)

(** The database after a compile run: only the job's two tables changed, and
    only rows of this token. *)
Definition job_tables_changed (tok : Z) (d d' : Db) : Prop :=
  exists x p, d' = set_prover p (set_ivc x d)
    /\ (forall o e, o <> tok -> x !! (o, e) = root_ivc_proofs d !! (o, e))
    /\ (forall o, o <> tok -> p !! o = root_prover_state d !! o).

Lemma job_tables_refl tok d : job_tables_changed tok d d.
Proof. exists (root_ivc_proofs d), (root_prover_state d). by destruct d. Qed.

Lemma job_tables_tree tok t d d' ls : job_tables_changed tok d d' -> tree_repr t d ls -> tree_repr t d' ls.
Proof. intros (x & p & -> & _) Hr. by apply tree_repr_set_prover, tree_repr_set_ivc. Qed.

Lemma update_last_compiled_run tok idx d :
  idx <= i64_max ->
  update_last_compiled_index tok idx d
  = (set_prover (alter (fun r => mkProverRow (pr_base_index r) idx (pr_last_submitted_index r) (pr_pending_reserved_index r)
                      (pr_pending_reserved_hash_chain r)) tok (root_prover_state d)) d, Ok tt).
Proof. intros H. unfold update_last_compiled_index. by rewrite u64_to_i64_ok. Qed.

Lemma sync_ivc_proofs_spec t w rows (b c : nat) s ci :
  let ls := ev_leaf <$> rows in
  let q := Z.to_nat (Z.min (Z.of_nat (length ls)) ci) in
  tree_repr t (w_db w) ls -> dt_height t = TRANSFER_TREE_HEIGHT -> Z.of_nat (length ls) < 2 ^ 40 ->
  Forall leaf_in_range ls -> Forall row_parses rows -> events_are (dt_token t) rows (w_db w) ->
  Z.of_nat (length ls) - Z.of_nat (S c) <= dt_history_window t -> 0 <= ci ->
  prover_ok (dt_token t) ls b c s (w_db w) ->
  exists d', sync_ivc_proofs (dt_token t) t s ci w = (set_db d' w, Ok (with_compiled (Z.of_nat (Nat.max c q)) s))
    /\ prover_ok (dt_token t) ls b (Nat.max c q) (with_compiled (Z.of_nat (Nat.max c q)) s) d'
    /\ job_tables_changed (dt_token t) (w_db w) d'
    /\ forall k : nat, (c < k <= q)%nat -> ivc_at attests (dt_token t) ls b k d'.
Proof.
  intros ls q Hr Hh Hlen Hlr Hrp Hev Hwin Hci Hs. pose proof (po_range _ _ _ _ _ _ Hs) as Hbc.
  assert (q <= length ls)%nat as Hq by (unfold q; lia). assert (length rows = length ls) as Hlrows by (unfold ls; by rewrite length_fmap).
  unfold sync_ivc_proofs.
  rewrite (M_bind_run _ _ w w (Z.of_nat (length ls))).
  2:{ apply on_db_same, map_err_M_run. unfold latest_index. apply transaction_ok. by apply latest_index_spec. }
  rewrite (po_compiled _ _ _ _ _ _ Hs), (po_base _ _ _ _ _ _ Hs).
  if_case E.
  { assert (Nat.max c q = c) as -> by (unfold q; lia). exists (w_db w).
    assert (with_compiled (Z.of_nat c) s = s) as -> by (rewrite <- (po_compiled _ _ _ _ _ _ Hs); by destruct s).
    split; [by destruct w|]. split; [done|]. split; [apply job_tables_refl|]. unfold q. lia. }
  assert (Z.min (Z.of_nat (length ls)) ci = Z.of_nat q) as -> by (unfold q; lia).
  assert (c < q)%nat as Hcq by lia. rewrite Nat.max_r by lia.
  rewrite (M_bind_run _ _ w w _ (on_db_same _ _ _ (fetch_event_batch_spec (dt_token t) rows (w_db w) c q Hev Hrp ltac:(lia) ltac:(lia)))).
  assert (ev_leaf <$> drop c (take q rows) = drop c (take q ls)) as -> by (unfold ls; by rewrite fmap_drop, fmap_take).
  set (new := drop c (take q ls)). assert (length new = (q - c)%nat) as Hnew by (unfold new; rewrite length_drop, length_take; lia).
  destruct (initialise_nova_spec t w ls b c s Hr Hh Hlen Hs) as (n & Hn & Hat).
  destruct (compile_loop_spec t ls b new w c n) as (x & Hx & Hw1 & Hw2); [done..|lia| |done|].
  { exists (drop q ls). unfold new. rewrite <- drop_app_le by (rewrite length_take; lia). by rewrite take_drop. }
  destruct (events_from c new) as [|e es] eqn:Ee; [destruct new; [cbn in Hnew; lia|done]|].
  run Hn. run Hx. rewrite Hnew. replace (c + (q - c))%nat with q in * by lia.
  if_case E2; [|lia].
  erewrite (M_bind_run _ _ (set_db _ w)).
  2:{ apply on_db_run, update_last_compiled_run. unfold i64_max. lia. }
  unfold mret, M_ret. rewrite set_db_db. eexists; split; [reflexivity|].
  set (p := alter _ _ _). set (d' := set_prover p _).
  assert (forall k : nat, (c < k <= q)%nat -> ivc_at attests (dt_token t) ls b k d') as Hat'.
  { intros k Hk. destruct (Hw1 k ltac:(lia)) as (row & Hrow & Hok). by exists row. }
  split; [|split; [|exact Hat']].
  - destruct Hs as [H1 H2 H3 H4 H5 H6]. split; try done; [|lia|by intros; apply Hat'; lia].
    unfold d', p. cbn [set_prover root_prover_state set_ivc]. rewrite lookup_alter_eq, H1. done.
  - exists x, p. split; [done|]. split.
    + intros o e0 Ho. apply Hw2. by left.
    + intros o Ho. unfold p. by rewrite lookup_alter_ne.
Qed.
End compile.

(** ** Submitting *)

Section submit.
Context {C : Crypto} {HC : CryptoLaws C} {R : R1CS} {HR : R1CSLaws C R}.
Context {D : Deciders} {NS : NovaScheme} {DC : DeciderClient} {RPC : Rpc}.
Context (attests : RootNovaInstance -> Z -> list Z -> list Z -> Prop) {PL : ProverLaws attests}.

Lemma job_tables_trans tok d1 d2 d3 :
  job_tables_changed tok d1 d2 -> job_tables_changed tok d2 d3 -> job_tables_changed tok d1 d3.
Proof.
  intros (x & p & -> & Hx & Hp) (x' & p' & -> & Hx' & Hp'). exists x', p'. split; [done|]. split.
  - intros o e Ho. rewrite Hx' by done. by apply Hx.
  - intros o Ho. rewrite Hp' by done. by apply Hp.
Qed.

Lemma job_tables_tokens tok d d' : job_tables_changed tok d d' -> tokens d' = tokens d.
Proof. by intros (x & p & -> & _). Qed.

Lemma upsert_prover_run tok s d :
  is_Some (tokens d !! tok) -> base_index s <= i64_max -> last_compiled_index s <= i64_max -> last_submitted_index s <= i64_max ->
  (forall i, pending_reserved_index s = Some i -> i <= i64_max) ->
  upsert_prover_state tok (base_index s) (last_compiled_index s) (last_submitted_index s) (pending_reserved_index s)
    (pending_reserved_hash_chain s) d
  = (set_prover (<[tok := state_row s]> (root_prover_state d)) d, Ok tt).
Proof.
  intros [row Hrow] H1 H2 H3 H4. unfold upsert_prover_state, check_token, gets, modify, lift, mbind, M_bind.
  rewrite !u64_to_i64_ok by done.
  assert (transpose (u64_to_i64 "pending_reserved_index" <$> pending_reserved_index s) = Ok (pending_reserved_index s)) as ->.
  { destruct (pending_reserved_index s) as [i|] eqn:E; [|done]. cbn. by rewrite u64_to_i64_ok by by apply H4. }
  by rewrite Hrow.
Qed.

Lemma set_prover_changed tok s d : job_tables_changed tok d (set_prover (<[tok := s]> (root_prover_state d)) d).
Proof.
  exists (root_ivc_proofs d), (<[tok := s]> (root_prover_state d)). split; [by destruct d|]. split; [done|].
  intros o Ho. by apply lookup_insert_ne.
Qed.

Lemma load_prover_state_run tok s d :
  root_prover_state d !! tok = Some (state_row s) ->
  in_u64 (base_index s) -> in_u64 (last_compiled_index s) -> in_u64 (last_submitted_index s) ->
  (forall i, pending_reserved_index s = Some i -> in_u64 i) ->
  (forall h, pending_reserved_hash_chain s = Some h -> in_u256 h) ->
  load_prover_state tok d = (d, Ok (Some s)).
Proof.
  intros Hrow H1 H2 H3 H4 H5. unfold load_prover_state, gets, mret, mbind, M_bind, M_ret. rewrite Hrow. cbn [fmap option_fmap option_map].
  unfold state_row. cbn [pr_base_index pr_last_compiled_index pr_last_submitted_index pr_pending_reserved_index pr_pending_reserved_hash_chain].
  rewrite !as_u64_id by done. destruct s as [b c u pi ph]. cbn [base_index last_compiled_index last_submitted_index
    pending_reserved_index pending_reserved_hash_chain] in *.
  assert (as_u64 <$> pi = pi) as ->. { destruct pi as [i|]; [|done]. cbn. by rewrite as_u64_id by by apply H4. }
  assert (be_val <$> (u256_to_be_bytes <$> ph) = ph) as ->; [|done].
  destruct ph as [h|]; [|done]. cbn -[be_val u256_to_be_bytes]. by rewrite u256_bytes_roundtrip by by apply H5.
Qed.

(** Purging the checkpoints and aligning the state with a base. *)
Definition aligned (base : Z) : RootProverState := mkRootProverState base base base None None.

Lemma delete_ivc_changed tok d : job_tables_changed tok d (set_ivc (delete_where (fun kv => kv.1.1 =? tok) (root_ivc_proofs d)) d).
Proof.
  exists (delete_where (fun kv => kv.1.1 =? tok) (root_ivc_proofs d)), (root_prover_state d). split; [by destruct d|]. split; [|done].
  intros o e Ho. rewrite lookup_delete_where_eq. destruct (root_ivc_proofs d !! (o, e)) as [v|]; [|done].
  cbn [fst]. by rewrite (proj2 (Z.eqb_neq _ _)).
Qed.

(** [ensure_state_alignment] keeps a state with the right base and resets any other. *)
Lemma ensure_state_alignment_spec tok base d :
  is_Some (tokens d !! tok) -> 0 <= base <= i64_max ->
  (exists s, load_prover_state tok d = (d, Ok (Some s)) /\ base_index s = base
     /\ ensure_state_alignment tok base d = (d, Ok s))
  \/ exists d', ensure_state_alignment tok base d = (d', Ok (aligned base)) /\ job_tables_changed tok d d'
       /\ root_prover_state d' !! tok = Some (state_row (aligned base))
       /\ forall e, root_ivc_proofs d' !! (tok, e) = None.
Proof.
  intros Htok Hb. unfold ensure_state_alignment.
  assert (load_prover_state tok d = (d, (load_prover_state tok d).2)) as Hl by done.
  destruct (load_prover_state tok d).2 as [o|e] eqn:El; [|by unfold load_prover_state in El].
  run Hl.
  set (reset := _ ≫= _). assert (exists d', reset d = (d', Ok (aligned base)) /\ job_tables_changed tok d d'
       /\ root_prover_state d' !! tok = Some (state_row (aligned base))
       /\ forall e, root_ivc_proofs d' !! (tok, e) = None) as Hreset.
  { set (d1 := set_ivc (delete_where (fun kv => kv.1.1 =? tok) (root_ivc_proofs d)) d).
    unfold reset. rewrite (M_bind_run (delete_ivc_proofs tok) _ d d1 tt) by done.
    pose proof (upsert_prover_run tok (aligned base) d1) as Hu. cbn [aligned base_index last_compiled_index last_submitted_index
      pending_reserved_index pending_reserved_hash_chain] in Hu.
    exists (set_prover (<[tok := state_row (aligned base)]> (root_prover_state d1)) d1). split_and!.
    - rewrite (M_bind_run _ _ _ _ _ (Hu Htok ltac:(lia) ltac:(lia) ltac:(lia) ltac:(done))). done.
    - eapply job_tables_trans; [apply delete_ivc_changed | apply set_prover_changed].
    - cbn. apply lookup_insert_eq.
    - intros e. cbn [set_prover root_ivc_proofs set_ivc d1]. rewrite lookup_delete_where_eq.
      destruct (root_ivc_proofs d !! (tok, e)) as [v|]; [|done]. cbn [fst]. by rewrite Z.eqb_refl. }
  destruct o as [s|]; [|by right]. if_case E; [|by right]. left. exists s. done.
Qed.

Lemma root_states_fr (b : nat) ls : Z.of_nat (length ls) < 2 ^ 40 -> Forall is_fr (root_state (take b ls) ++ root_state ls).
Proof.
  intros Hl. assert (forall ls', Z.of_nat (length ls') < 2 ^ 40 -> Forall is_fr (root_state ls')) as H.
  { intros ls' Hl'. apply Forall_cons; split; [apply (fr_small _ 41); lia|]. apply Forall_cons; split; [apply history_chain_fr|].
    apply Forall_singleton, history_node_fr. }
  apply Forall_app. split; apply H; rewrite ?length_take; lia.
Qed.

(** A dummy step keeps the state. *)
Lemma root_step_dummy cfg ls :
  circom_poseidon_config = Some cfg -> Z.of_nat (length ls) < 2 ^ 40 ->
  rx_wf dummy_inputs /\ root_generate_step_constraints cfg (root_state ls) dummy_inputs = Some (root_state ls, true).
Proof.
  intros Hcfg Hl. assert (rx_wf dummy_inputs) as Hwf.
  { unfold rx_wf, dummy_inputs. cbn [rx_address rx_value rx_siblings]. rewrite length_replicate.
    split_and!; try done; [by vm_compute..|]. apply Forall_replicate. by vm_compute. }
  split; [done|]. pose proof (history_chain_small ls).
  destruct (root_step_on_history cfg (history_chain ls) ls dummy_inputs) as (z & b & Hst & Hb & Hz);
    [done | apply history_chain_fr | lia | done |].
  assert (b = true) as ->. { apply Hb. cbn [dummy_inputs rx_address rx_value rx_is_dummy]. split_and!; done || lia. }
  unfold root_state. rewrite Hst, Hz by done. done.
Qed.

(** What is handed to the decider has at least two steps. *)
Lemma decider_input_spec w ls (b : nat) s tok rec :
  (b < length ls)%nat -> Z.of_nat (length ls) < 2 ^ 40 ->
  prover_ok attests tok ls b (length ls) s (w_db w) ->
  (exists n, serialize_uncompressed (nova_ivc_proof n) = Ok (rec_ivc_proof rec)
     /\ attests n (Z.of_nat (length ls) - Z.of_nat b) (root_state (take b ls)) (root_state ls)) ->
  exists n i bs, decider_input s rec w = (w, Ok bs) /\ serialize_uncompressed (nova_ivc_proof n) = Ok bs /\ 2 <= i < 2 ^ 64
    /\ attests n i (root_state (take b ls)) (root_state ls).
Proof.
  intros Hb Hlen Hs (n & Hser & Hat). unfold decider_input. rewrite (po_compiled _ _ _ _ _ _ _ Hs), (po_base _ _ _ _ _ _ _ Hs).
  assert (u64_sub (Z.of_nat (length ls)) (Z.of_nat b) = Z.of_nat (length ls) - Z.of_nat b) as -> by (unfold u64_sub; rewrite Z.mod_small; lia).
  if_case E.
  - destruct (pl_serialize (nova_ivc_proof n)) as (bs & Hbs & Hde). rewrite Hser in Hbs. injection Hbs as <-.
    destruct (pl_resume _ _ _ _ Hat ltac:(lia)) as (n1 & Hn1 & Hat1).
    destruct circom_config_ok as (cfg & Hcfg & _). destruct (root_step_dummy cfg ls Hcfg Hlen) as [Hwf Hst].
    destruct (pl_step cfg n1 _ _ _ _ _ Hcfg Hat1 Hwf Hst) as (n2 & Hn2 & Hat2).
    destruct (pl_serialize (nova_ivc_proof n2)) as (bs2 & Hbs2 & _).
    exists n2, (Z.of_nat (length ls) - Z.of_nat b + 1), bs2. split; [|split; [done|split; [lia|done]]].
    unfold load_nova_from_ivc, deserialize_ivc_proof. rewrite (M_bind_run _ _ w w n1).
    2:{ run (ext_run "failed to deserialize ivc proof" _ w _ Hde). by rewrite Hn1. }
    run (ext_run "failed to append dummy step before submission" _ w _ Hn2). unfold serialize_ivc_proof. by rewrite Hbs2.
  - exists n, (Z.of_nat (length ls) - Z.of_nat b), (rec_ivc_proof rec). split; [done|]. split; [done|]. split; [lia|done].
Qed.

(** Transactions on a network that delivers and without other traffic. *)
Definition quiet : Prop :=
  (forall n, rpc_call n = Ok tt) /\ (forall n, rpc_send n = Ok tt) /\ (forall n, rpc_receipt n = Ok tt)
  /\ (forall f, rpc_others f = f).

Definition set_verifier (a : Z) (v : Verifier) (w : World) : World :=
  set_chain (w_token w) (fun a' => if a' =? a then v else w_verifier w a') w.

(** Only the verifier at [a] may differ. *)
Definition same_chain_but (a : Z) (w w' : World) : Prop :=
  w_token w' = w_token w /\ w_token_of w' = w_token_of w /\ forall a', a' <> a -> w_verifier w' a' = w_verifier w a'.

Lemma set_verifier_others a v d w : same_chain_but a w (set_db d (set_verifier a v w)).
Proof.
  split; [done|]. split; [done|]. intros a' Ha. cbn. by rewrite (proj2 (Z.eqb_neq _ _)).
Qed.

Lemma send_tx_ok name a f w v logs :
  quiet -> f (w_token w (w_token_of w a)) (w_verifier w a) = Ok (v, logs) ->
  send_tx name a f w = (set_verifier a v w, Ok (mkReceipt true logs)).
Proof.
  intros (_ & Hsend & Hrec & Hoth) Hf. unfold send_tx. rewrite (M_bind_run _ _ w w tt) by by rewrite Hsend.
  rewrite (M_bind_run _ _ w (set_verifier a v w) (mkReceipt true logs)).
  2:{ unfold execute. rewrite Hoth, Hf. done. }
  rewrite (M_bind_run _ _ _ (set_verifier a v w) tt) by by rewrite Hrec. done.
Qed.

(** The reservation for the compiled index: the pending one or a fresh one. *)
Lemma reservation_spec token tok ls (b : nat) s w :
  quiet -> is_Some (tokens (w_db w) !! tok) -> Z.of_nat (length ls) < 2 ^ 40 ->
  prover_ok attests tok ls b (length ls) s (w_db w) ->
  (forall i, pending_reserved_index s = Some i -> 0 <= i <= i64_max) -> (forall h, pending_reserved_hash_chain s = Some h -> in_u256 h) ->
  index (w_token w (w_token_of w (rtc_verifier_contract token))) = Z.of_nat (length ls) ->
  hashChain (w_token w (w_token_of w (rtc_verifier_contract token))) = history_chain ls ->
  (forall h, pending_reserved_index s = Some (Z.of_nat (length ls)) -> pending_reserved_hash_chain s = Some h ->
     h = history_chain ls /\ slot (reservedHashChains (w_verifier w (rtc_verifier_contract token))) (Z.of_nat (length ls)) = h) ->
  exists s' w1, reservation token tok s w = (w1, Ok (s', (Z.of_nat (length ls), history_chain ls)))
    /\ job_tables_changed tok (w_db w) (w_db w1) /\ same_chain_but (rtc_verifier_contract token) w w1
    /\ let v' := w_verifier w1 (rtc_verifier_contract token) in
       slot (reservedHashChains v') (Z.of_nat (length ls)) = history_chain ls
       /\ provedTransferRoots v' = provedTransferRoots (w_verifier w (rtc_verifier_contract token))
       /\ latestProvedIndex v' = latestProvedIndex (w_verifier w (rtc_verifier_contract token))
       /\ paused v' = paused (w_verifier w (rtc_verifier_contract token)).
Proof.
  intros Hq Htok Hlen Hs Hpi Hph Hidx Hch Hpend. set (a := rtc_verifier_contract token) in *.
  unfold reservation. rewrite (po_compiled _ _ _ _ _ _ _ Hs).
  destruct (if bool_decide _ then _ else _) as [h|] eqn:E.
  - case_bool_decide as Ep; [|done]. destruct (Hpend h Ep E) as [-> Hres].
    exists s, w. split; [done|]. split; [apply job_tables_refl|]. by split.
  - clear E. assert (as_u64 (Z.of_nat (length ls)) = Z.of_nat (length ls)) as Hu by (apply as_u64_id; unfold in_u64; lia).
    set (v' := (reserveHashChain (w_token w (w_token_of w a)) (w_verifier w a)).1).
    rewrite (M_bind_run _ _ w (set_verifier a v' w) (Z.of_nat (length ls), history_chain ls)).
    2:{ unfold reserve_hash_chain. fold a. erewrite M_bind_run; [|apply send_tx_ok; [done|reflexivity]].
        unfold v', reserveHashChain. cbn [fst snd receipt_logs parse_hash_chain_reserved ok_or]. rewrite Hidx, Hch, Hu. reflexivity. }
    pose proof Hs as [H1 H2 H3 H4 H5 H6].
    assert (load_prover_state tok (w_db w) = (w_db w, Ok (Some s))) as Hload.
    { apply load_prover_state_run; [done|..]; rewrite ?H2, ?H3, ?H4; try (unfold in_u64; lia); [|done].
      intros i Hi. apply Hpi in Hi. unfold in_u64, i64_max in *. lia. }
    set (s' := with_pending (Z.of_nat (length ls)) (history_chain ls) s).
    pose proof (upsert_prover_run tok s' (w_db w)) as Hup. cbn [s' with_pending base_index last_compiled_index last_submitted_index
      pending_reserved_index pending_reserved_hash_chain] in Hup.
    exists s', (set_db (set_prover (<[tok := state_row s']> (root_prover_state (w_db w))) (w_db w)) (set_verifier a v' w)).
    split; [|split; [|split]].
    + erewrite (M_bind_run _ _ (set_verifier a v' w)); [reflexivity|]. apply on_db_run. cbn [w_db set_verifier set_chain].
      unfold persist_pending_reservation. run Hload. cbn [fmap option_fmap option_map default].
      apply Hup; [done|rewrite ?H2, ?H3, ?H4; unfold i64_max; lia..|]. intros i [= <-]. unfold i64_max. lia.
    + apply set_prover_changed.
    + apply set_verifier_others.
    + cbn [set_db set_verifier set_chain w_verifier]. rewrite Z.eqb_refl. split; [|done].
      unfold v', slot. cbn [reserveHashChain fst reservedHashChains]. by rewrite Hidx, Hu, Hch, lookup_insert_eq.
Qed.

(** The contract accepts a proof from a proved prefix to a reserved history. *)
Lemma proveTransferRoot_ok pf i (b : nat) ls rest v :
  abi_decode_words 32 pf = Ok ([i] ++ root_state (take b ls) ++ root_state ls ++ rest) ->
  rootDecider ([i] ++ root_state (take b ls) ++ root_state ls ++ rest) = true ->
  (b <= length ls)%nat -> Z.of_nat (length ls) < 2 ^ 40 -> paused v = false ->
  slot (provedTransferRoots v) (Z.of_nat b) = history_root TRANSFER_TREE_HEIGHT (take b ls) ->
  history_root TRANSFER_TREE_HEIGHT (take b ls) <> 0 ->
  slot (reservedHashChains v) (Z.of_nat (length ls)) = history_chain ls -> history_chain ls <> 0 ->
  (slot (provedTransferRoots v) (Z.of_nat (length ls)) = 0
   \/ slot (provedTransferRoots v) (Z.of_nat (length ls)) = history_root TRANSFER_TREE_HEIGHT ls) ->
  proveTransferRoot pf v
  = Ok (set_proved (if latestProvedIndex v <? Z.of_nat (length ls) then Z.of_nat (length ls) else latestProvedIndex v)
          (<[Z.of_nat (length ls) := history_root TRANSFER_TREE_HEIGHT ls]> (provedTransferRoots v)) v,
        [TransferRootProved (Z.of_nat (length ls)) (history_root TRANSFER_TREE_HEIGHT ls)]).
Proof.
  intros Hdec Hver Hb Hlen Hp Hold Hnz Hres Hcnz Hex. unfold proveTransferRoot. rewrite Hp, Hdec.
  unfold require at 1. cbn [negb]. unfold mbind, result_bind. unfold prove_decoded.
  set (w := [i] ++ root_state (take b ls) ++ root_state ls ++ rest) in *.
  assert (word w 1 = Z.of_nat b) as ->.
  { transitivity (Z.of_nat (length (take b ls))); [reflexivity|]. rewrite length_take. lia. }
  assert (word w 3 = history_root TRANSFER_TREE_HEIGHT (take b ls)) as -> by reflexivity.
  assert (word w 4 = Z.of_nat (length ls)) as -> by reflexivity.
  assert (word w 5 = history_chain ls) as -> by reflexivity.
  assert (word w 6 = history_root TRANSFER_TREE_HEIGHT ls) as -> by reflexivity.
  rewrite !as_u64_id by (unfold in_u64; lia). rewrite Hver, Hold, Hres, !Z.eqb_refl.
  rewrite (proj2 (Z.eqb_neq _ _) Hnz), (proj2 (Z.eqb_neq _ _) Hcnz). cbn [negb require mbind result_bind].
  destruct Hex as [->| ->]; [done|]. rewrite Z.eqb_refl. cbn [negb]. by rewrite andb_false_r.
Qed.

(** Everything was compiled: the reservation, the decider and the submission
    succeed and the job starts over from the new base. *)
Lemma submit_spec polls token tok ls (b : nat) s ci w :
  let L := Z.of_nat (length ls) in
  let a := rtc_verifier_contract token in
  quiet -> is_Some (tokens (w_db w) !! tok) -> (b < length ls)%nat -> L < 2 ^ 40 -> L <= ci ->
  prover_ok attests tok ls b (length ls) s (w_db w) ->
  (forall i, pending_reserved_index s = Some i -> 0 <= i <= i64_max) -> (forall h, pending_reserved_hash_chain s = Some h -> in_u256 h) ->
  index (w_token w (w_token_of w a)) = L -> hashChain (w_token w (w_token_of w a)) = history_chain ls ->
  (forall h, pending_reserved_index s = Some L -> pending_reserved_hash_chain s = Some h ->
     h = history_chain ls /\ slot (reservedHashChains (w_verifier w a)) L = h) ->
  paused (w_verifier w a) = false ->
  slot (provedTransferRoots (w_verifier w a)) (Z.of_nat b) = history_root TRANSFER_TREE_HEIGHT (take b ls) ->
  history_root TRANSFER_TREE_HEIGHT (take b ls) <> 0 -> history_chain ls <> 0 ->
  (slot (provedTransferRoots (w_verifier w a)) L = 0
   \/ slot (provedTransferRoots (w_verifier w a)) L = history_root TRANSFER_TREE_HEIGHT ls) ->
  latestProvedIndex (w_verifier w a) = Z.of_nat b ->
  exists w', submit_if_ready (S polls) true token tok s ci w = (w', Ok (aligned L))
    /\ slot (provedTransferRoots (w_verifier w' a)) L = history_root TRANSFER_TREE_HEIGHT ls
    /\ latestProvedIndex (w_verifier w' a) = L
    /\ root_prover_state (w_db w') !! tok = Some (state_row (aligned L))
    /\ (forall e, root_ivc_proofs (w_db w') !! (tok, e) = None)
    /\ job_tables_changed tok (w_db w) (w_db w') /\ same_chain_but a w w'.
Proof.
  intros L a Hq Htok Hb Hlen Hci Hs Hpi Hph Hidx Hch Hpend Hpause Hold Hnz Hcnz Hex Hlat.
  pose proof Hs as [H1 H2 H3 H4 H5 H6]. unfold submit_if_ready. rewrite H3, H4. fold L.
  if_case E1; [lia|]. if_case E2; [lia|]. clear E1 E2.
  destruct (H6 Hb) as (row & Hrow & Hrc & Hrr & n & Hser & Hat). rewrite firstn_all in *.
  set (rec := mkIvcRecord (ir_ivc_proof row) (fr_of_biguint (be_val (ir_state_hash_chain row))) (fr_of_biguint (be_val (ir_state_root row)))).
  rewrite (M_bind_run _ _ w w rec).
  2:{ apply on_db_same. cbn [wait_for_ivc_record]. rewrite (M_bind_run _ _ _ (w_db w) (Some rec)); [done|].
      unfold load_ivc_record, gets, lift, mret, mbind, M_bind, M_ret. rewrite u64_to_i64_ok by (unfold i64_max; lia).
      fold L in Hrow. by rewrite Hrow. }
  destruct (decider_input_spec w ls b s tok rec Hb Hlen Hs) as (n2 & i & bs & Hdi & Hbs & Hi & Hat2); [by exists n|].
  run Hdi. cbn [negb].
  destruct (reservation_spec token tok ls b s w Hq Htok Hlen Hs Hpi Hph Hidx Hch Hpend) as
    (s' & w1 & Hrun1 & Hj1 & (Ht1 & Hto1 & Hv1) & Hres1 & Hpr1 & Hla1 & Hpa1). fold a L in Hres1, Hpr1, Hla1, Hpa1.
  run Hrun1. rewrite Z.eqb_refl. cbn [negb].
  assert (fr_to_u256 (rec_state_hash_chain rec) = history_chain ls) as ->.
  { cbn [rec rec_state_hash_chain]. rewrite Hrc, be_val_fr_to_bytes, fr_of_biguint_id, fr_to_u256_id; [done|..]; apply history_chain_fr. }
  rewrite Z.eqb_refl. cbn [negb].
  destruct (pl_decider n2 i (root_state (take b ls)) (root_state ls) bs Hat2 Hi eq_refl eq_refl (root_states_fr b ls ltac:(lia)) Hbs) as (pf & rest & Hpf & Hdec & Hver).
  run (ext_run "root prover decider generation failed" _ w1 _ Hpf).
  rewrite <- Hpr1 in Hold, Hex. rewrite <- Hpa1 in Hpause.
  pose proof (proveTransferRoot_ok pf i b ls rest (w_verifier w1 a) Hdec Hver ltac:(lia) Hlen Hpause Hold Hnz Hres1 Hcnz Hex) as Hprove.
  fold L in Hprove. rewrite Hla1, Hlat, (proj2 (Z.ltb_lt _ _)) in Hprove by lia.
  set (v2 := set_proved L _ _) in Hprove.
  rewrite (M_bind_run _ _ w1 (set_verifier a v2 w1) (mkReceipt true [TransferRootProved L (history_root TRANSFER_TREE_HEIGHT ls)])).
  2:{ unfold submit_transfer_root. by apply send_tx_ok. }
  assert (is_Some (tokens (w_db w1) !! tok)) as Htok1 by by rewrite (job_tables_tokens _ _ _ Hj1).
  set (w2 := set_verifier a v2 w1). assert (L <= i64_max) as Hi64 by (unfold i64_max; lia).
  pose proof (upsert_prover_run tok (aligned L) (w_db w1) Htok1 Hi64 Hi64 Hi64 ltac:(done)) as Hup.
  set (d2 := set_prover _ _) in Hup. rewrite (M_bind_run _ _ w2 (set_db d2 w2) tt) by by apply on_db_run.
  set (d3 := set_ivc (delete_where (fun kv => kv.1.1 =? tok) (root_ivc_proofs d2)) d2).
  rewrite (M_bind_run _ _ _ (set_db d3 w2) tt) by exact (on_db_run (delete_ivc_proofs tok) (set_db d2 w2) d3 (Ok tt) eq_refl).
  assert (root_prover_state d3 !! tok = Some (state_row (aligned L))) as Hrow3 by apply lookup_insert_eq.
  assert (load_prover_state tok d3 = (d3, Ok (Some (aligned L)))) as Hload3.
  { apply load_prover_state_run; try done; cbn; unfold in_u64, i64_max in *; lia. }
  rewrite (M_bind_run _ _ _ (set_db d3 w2) (aligned L)).
  2:{ apply (on_db_run (ensure_state_alignment tok L) (set_db d3 w2) d3). rewrite set_db_db. unfold ensure_state_alignment.
      run Hload3. cbn [aligned base_index]. by rewrite Z.eqb_refl. }
  exists (set_db d3 w2). split; [done|]. cbn [set_db w_verifier w_db w2 set_verifier set_chain]. rewrite Z.eqb_refl.
  split_and!; [|done|done| | |].
  - unfold slot, v2. cbn [set_proved provedTransferRoots]. rewrite lookup_insert_eq. reflexivity.
  - intros e. cbn [d3 set_ivc root_ivc_proofs]. rewrite lookup_delete_where_eq.
    destruct (root_ivc_proofs d2 !! (tok, e)) as [x|]; [|done]. cbn [fst]. by rewrite Z.eqb_refl.
  - eapply job_tables_trans; [exact Hj1|]. eapply job_tables_trans; [apply set_prover_changed | apply delete_ivc_changed].
  - destruct (set_verifier_others a v2 d3 w1) as (G1 & G2 & G3). split; [by rewrite <- Ht1 | split; [by rewrite <- Hto1 |]].
    intros a' Ha. etransitivity; [exact (G3 a' Ha) | exact (Hv1 a' Ha)].
Qed.
End submit.

(** ** A whole cycle *)

Section cycle.
Context {C : Crypto} {HC : CryptoLaws C} {R : R1CS} {HR : R1CSLaws C R}.
Context {D : Deciders} {NS : NovaScheme} {DC : DeciderClient} {RPC : Rpc}.
Context (attests : RootNovaInstance -> Z -> list Z -> list Z -> Prop) {PL : ProverLaws attests}.

(** Reservations the state remembers are in range, and one for the end of the
    log is the one the contract stores. *)
Definition pending_ok (ls : list Leaf) (s : RootProverState) (v : Verifier) : Prop :=
  (forall i, pending_reserved_index s = Some i -> 0 <= i <= i64_max)
  /\ (forall h, pending_reserved_hash_chain s = Some h -> in_u256 h)
  /\ (forall h, pending_reserved_index s = Some (Z.of_nat (length ls)) -> pending_reserved_hash_chain s = Some h ->
       h = history_chain ls /\ slot (reservedHashChains v) (Z.of_nat (length ls)) = h).

(** Any state whose base is the proved index is a checkpoint of the job; states
    with another base are arbitrary. *)
Definition checkpoint_ok (tok : Z) (ls : list Leaf) (b : nat) (v : Verifier) (d : Db) : Prop :=
  forall row, root_prover_state d !! tok = Some row -> as_u64 (pr_base_index row) = Z.of_nat b ->
  exists c s, row = state_row s /\ prover_ok attests tok ls b c s d /\ pending_ok ls s v.

Lemma align_checkpoint tok ls (b : nat) v d :
  is_Some (tokens d !! tok) -> (b <= length ls)%nat -> Z.of_nat (length ls) < 2 ^ 40 -> checkpoint_ok tok ls b v d ->
  exists c s d', ensure_state_alignment tok (Z.of_nat b) d = (d', Ok s) /\ job_tables_changed tok d d'
    /\ prover_ok attests tok ls b c s d' /\ pending_ok ls s v.
Proof.
  intros Htok Hb Hlen Hc. destruct (ensure_state_alignment_spec tok (Z.of_nat b) d Htok) as
    [(s & Hload & Hbase & Hrun)|(d' & Hrun & Hj & Hrow & _)]; [unfold i64_max; lia|..].
  - unfold load_prover_state, gets, mret, mbind, M_bind, M_ret in Hload.
    destruct (root_prover_state d !! tok) as [row|] eqn:Erow; [|done].
    destruct (Hc row Erow) as (c & s0 & -> & Hs0 & Hpi & Hph & Hpend).
    { injection Hload as <-. exact Hbase. }
    pose proof Hs0 as [H1 H2 H3 H4 H5 H6].
    assert (load_prover_state tok d = (d, Ok (Some s0))) as Hload0.
    { apply load_prover_state_run; [done|..|done]; rewrite ?H2, ?H3, ?H4; try (unfold in_u64; lia).
      intros i Hi. apply Hpi in Hi. unfold in_u64, i64_max in *. lia. }
    assert (s = s0) as ->.
    { unfold load_prover_state, gets, mret, mbind, M_bind, M_ret in Hload0. rewrite Erow in Hload0. congruence. }
    exists c, s0, d. split; [done|]. split; [apply job_tables_refl|]. done.
  - exists b, (aligned (Z.of_nat b)), d'. split; [done|]. split; [done|]. split; [|by split_and!].
    split; try done; lia.
Qed.

Lemma lookup_token_id_run m tok d :
  tm_chain_id m <= i64_max -> find_token_id m (tm_chain_id m) d = Some tok -> lookup_token_id m d = (d, Ok (Some tok)).
Proof. intros Hc Hf. unfold lookup_token_id. rewrite u64_to_i64_ok by done. unfold gets, lift, mbind, M_bind. by rewrite Hf. Qed.

(** The handler up to its window check. *)
Lemma process_token_start polls job token tok win w proved current dc ds :
  quiet -> rpj_submit_enabled job = true -> rpj_tree_height job = TRANSFER_TREE_HEIGHT ->
  rpj_tree_config job = mkDbMerkleTreeConfig win -> dc || ds = true ->
  0 < tok -> tm_chain_id (rtc_metadata token) <= i64_max ->
  find_token_id (rtc_metadata token) (tm_chain_id (rtc_metadata token)) (w_db w) = Some tok ->
  0 <= current < 2 ^ 64 -> index (w_token w (rtc_token_contract token)) = current ->
  latestProvedIndex (w_verifier w (rtc_verifier_contract token)) = proved ->
  process_token_inner polls job token dc ds w
  = (if u64_add proved (rpj_history_window job) <? current then fail (Msg "history window exhausted")
     else
       on_db (ensure_state_alignment tok proved) ≫= fun state =>
       (if dc then sync_ivc_proofs tok (tree_handle tok TRANSFER_TREE_HEIGHT win) state current else mret state) ≫= fun state =>
       (if ds then submit_if_ready polls (rpj_submit_enabled job) token tok state current else mret state) ≫= fun _ => mret tt)
      (set_db (tree_parts_db tok (w_db w)) w).
Proof.
  intros (Hcall & _) Hen Hh Hcfg Hd Htok Hcid Hfind Hcur Hidx Hlat. unfold process_token_inner.
  assert (negb dc && negb ds = false) as -> by by destruct dc, ds.
  rewrite (M_bind_run _ _ w w (Some tok)) by by apply on_db_same, lookup_token_id_run.
  set (w0 := set_db (tree_parts_db tok (w_db w)) w).
  rewrite (M_bind_run _ _ w w0 (tree_handle tok TRANSFER_TREE_HEIGHT win)).
  2:{ apply on_db_run, map_err_M_run. rewrite Hh, Hcfg. by apply DbTree_new_run. }
  rewrite (M_bind_run _ _ w0 w0 tt) by by rewrite Hcall.
  rewrite (M_bind_run _ _ w0 w0 current).
  2:{ unfold gets. change (w_token w0) with (w_token w). rewrite Hidx, uint256_as_u64_mod, Z.mod_small by lia. reflexivity. }
  rewrite (M_bind_run _ _ w0 w0 proved); [reflexivity|].
  rewrite Hen. rewrite (M_bind_run _ _ w0 w0 tt) by by rewrite Hcall. unfold gets. change (w_verifier w0) with (w_verifier w).
  by rewrite Hlat.
Qed.

Lemma checkpoint_ok_parts tok ls b v d : checkpoint_ok tok ls b v d -> checkpoint_ok tok ls b v (tree_parts_db tok d).
Proof.
  intros H row Hrow Hb. destruct (H row Hrow Hb) as (c & s & -> & [] & Hp). exists c, s. split; [done|]. split; [by split|done].
Qed.
End cycle.

(** ** Effects on the verifier *)

Section guard.
Context {C : Crypto} {D : Deciders} {NS : NovaScheme} {DC : DeciderClient} {RPC : Rpc}.

Lemma M_bind_inv {S E A B} (m : M S E A) (f : A -> M S E B) s s' r :
  (m ≫= f) s = (s', r) ->
  (exists e, m s = (s', Err e) /\ r = Err e) \/ exists s1 a, m s = (s1, Ok a) /\ f a s1 = (s', r).
Proof. unfold mbind, M_bind. destruct (m s) as [s1 [a|e]]; [right; by exists s1, a | intros [= -> <-]; left; by exists e]. Qed.

Lemma on_db_verifier {E A} (m : M Db E A) w : w_verifier (on_db m w).1 = w_verifier w.
Proof. unfold on_db. by destruct (m (w_db w)). Qed.

Lemma reserve_hash_chain_inv token w :
  let a := rtc_verifier_contract token in
  let t := rpc_others (w_token w) (w_token_of w a) in
  provedTransferRoots (w_verifier (reserve_hash_chain token w).1 a) = provedTransferRoots (w_verifier w a)
  /\ forall idx h, (reserve_hash_chain token w).2 = Ok (idx, h) -> idx = as_u64 (index t) /\ h = hashChain t.
Proof.
  intros a t. unfold reserve_hash_chain, send_tx, ext, lift, mbind, M_bind. fold a.
  destruct (rpc_send _) as [[]|e]; cbn; [|done]. destruct (rpc_receipt _) as [[]|e]; cbn; rewrite Z.eqb_refl; (split; [done|]).
  - by intros idx h [= <- <-].
  - done.
Qed.

(** A reservation changes no proved root, and a fresh one reports the token. *)
Lemma reservation_inv token tok s w w1 r :
  reservation token tok s w = (w1, r) ->
  let a := rtc_verifier_contract token in
  provedTransferRoots (w_verifier w1 a) = provedTransferRoots (w_verifier w a)
  /\ forall s' idx h, r = Ok (s', (idx, h)) ->
     (idx = last_compiled_index s /\ pending_reserved_index s = Some idx /\ pending_reserved_hash_chain s = Some h)
     \/ (idx = as_u64 (index (rpc_others (w_token w) (w_token_of w a)))
         /\ h = hashChain (rpc_others (w_token w) (w_token_of w a))).
Proof.
  intros H a. unfold reservation in H. destruct (if bool_decide _ then _ else _) as [hp|] eqn:E.
  { case_bool_decide as Ep; [|done]. injection H as <- <-. split; [done|]. intros s' idx h [= <- <- <-]. by left. }
  clear E. destruct (reserve_hash_chain_inv token w) as [Hp Hr]. fold a in Hp, Hr.
  apply M_bind_inv in H as [(e & H & ->)|(w2 & [idx0 h0] & H & H2)]; rewrite H in Hp, Hr; cbn [fst snd] in Hp, Hr; [done|].
  apply M_bind_inv in H2 as [(e & H2 & ->)|(w3 & [] & H2 & H3)].
  - pose proof (on_db_verifier (persist_pending_reservation tok idx0 h0) w2) as Hs. rewrite H2 in Hs. cbn in Hs. by rewrite Hs.
  - pose proof (on_db_verifier (persist_pending_reservation tok idx0 h0) w2) as Hs. rewrite H2 in Hs. cbn in Hs.
    injection H3 as <- <-. rewrite Hs. split; [done|]. intros s' idx h [= <- <- <-]. right. by apply Hr.
Qed.

(** Steps after the record is loaded. *)
Lemma submit_if_ready_inv polls en token tok s ci w w' r :
  let a := rtc_verifier_contract token in
  submit_if_ready polls en token tok s ci w = (w', r) ->
  provedTransferRoots (w_verifier w' a) = provedTransferRoots (w_verifier w a)
  \/ (en = true /\ last_submitted_index s < last_compiled_index s <= ci
      /\ exists d rec, wait_for_ivc_record polls tok (last_compiled_index s) (w_db w) = (d, Ok rec)
         /\ let h := fr_to_u256 (rec_state_hash_chain rec) in
            (pending_reserved_index s = Some (last_compiled_index s) /\ pending_reserved_hash_chain s = Some h)
            \/ (last_compiled_index s = as_u64 (index (rpc_others (w_token w) (w_token_of w a)))
                /\ h = hashChain (rpc_others (w_token w) (w_token_of w a)))).
Proof.
  intros a. unfold submit_if_ready. if_case E1; [intros [= <- <-]; by left|]. if_case E2; [intros [= <- <-]; by left|].
  intros H. apply M_bind_inv in H as [(e & H & ->)|(w1 & rec & H1 & H)].
  { left. pose proof (on_db_verifier (wait_for_ivc_record polls tok (last_compiled_index s)) w) as Hs. rewrite H in Hs. cbn in Hs. by rewrite Hs. }
  assert (exists d, wait_for_ivc_record polls tok (last_compiled_index s) (w_db w) = (d, Ok rec) /\ w1 = set_db d w) as (d & Hwait & ->).
  { unfold on_db in H1. destruct (wait_for_ivc_record _ _ _ _) as [d x]. injection H1 as <- ->. by exists d. }
  clear H1. assert (forall w2 x, decider_input s rec (set_db d w) = (w2, x) -> w2 = set_db d w) as Hdi.
  { intros w2 x. unfold decider_input, load_nova_from_ivc, deserialize_ivc_proof, serialize_ivc_proof, ext, lift, mret, mbind, M_bind, M_ret.
    destruct (_ =? 1); [|by intros [= <- _]]. destruct (deserialize_uncompressed _) as [p|]; cbn; [|by intros [= <- _]].
    destruct (nova_from_ivc_proof p) as [n|]; cbn; [|by intros [= <- _]].
    destruct (prove_step n dummy_inputs) as [n'|]; cbn; [|by intros [= <- _]]. by intros [= <- _]. }
  apply M_bind_inv in H as [(e & H & ->)|(w2 & bs & H2 & H)]; [apply Hdi in H as ->; by left|]. apply Hdi in H2 as ->.
  destruct en; cbn [negb] in H.
  2:{ left. unfold ext, lift, mret, mbind, M_bind, M_ret in H. destruct (produce_decider_proof _ _); cbn in H; by injection H as <- <-. }
  apply M_bind_inv in H as [(e & H & ->)|(w3 & [s' [idx h]] & H3 & H)].
  { apply reservation_inv in H as [Hp _]. left. exact Hp. }
  apply reservation_inv in H3 as [Hp Hr]. specialize (Hr s' idx h eq_refl). fold a in Hp, Hr.
  if_case_in H E3; [injection H as <- <-; left; exact Hp|]. if_case_in H E4; [injection H as <- <-; left; exact Hp|].
  right. split; [done|]. split; [lia|]. exists d, rec. split; [done|]. cbv zeta. rewrite E4. subst idx.
  destruct Hr as [(_ & H1 & H2)|[H1 H2]]; [by left|by right].
Qed.
End guard.

(** ** Properties *)

Section properties.
Context {C : Crypto} {HC : CryptoLaws C} {R : R1CS} {HR : R1CSLaws C R}.
Context {D : Deciders} {NS : NovaScheme} {DC : DeciderClient} {RPC : Rpc}.
Context (attests : RootNovaInstance -> Z -> list Z -> list Z -> Prop) {PL : ProverLaws attests}.

(** Compiling is sound and never fails inside the history window: from any
    checkpoint that attests the first [c] transfers, [sync_ivc_proofs] folds every
    indexed transfer up to the smaller of the tree's and the contract's index (proofs
    left beyond the checkpoint by an interrupted run are overwritten), stores for
    each new index a proof that attests exactly the history from the base to that
    index together with its hash chain and root, advances the checkpoint, and touches
    nothing else in the database. *)
Theorem compile_extends_checkpoint t w rows (b c : nat) s ci :
  let ls := ev_leaf <$> rows in
  let q := Z.to_nat (Z.min (Z.of_nat (length ls)) ci) in
  tree_repr t (w_db w) ls -> dt_height t = TRANSFER_TREE_HEIGHT -> Z.of_nat (length ls) < 2 ^ 40 ->
  Forall leaf_in_range ls -> Forall row_parses rows -> events_are (dt_token t) rows (w_db w) ->
  Z.of_nat (length ls) - Z.of_nat (S c) <= dt_history_window t -> 0 <= ci ->
  prover_ok attests (dt_token t) ls b c s (w_db w) ->
  exists d', sync_ivc_proofs (dt_token t) t s ci w = (set_db d' w, Ok (with_compiled (Z.of_nat (Nat.max c q)) s))
    /\ prover_ok attests (dt_token t) ls b (Nat.max c q) (with_compiled (Z.of_nat (Nat.max c q)) s) d'
    /\ job_tables_changed (dt_token t) (w_db w) d'
    /\ forall k : nat, (c < k <= q)%nat -> ivc_at attests (dt_token t) ls b k d'.
Proof. exact (sync_ivc_proofs_spec attests t w rows b c s ci). Qed.

(** A transfer root is only ever submitted against a matching reservation, whatever
    the node, the prover, other users and the database do: when [submit_if_ready]
    changes a proved root, submission is enabled, the compiled index is new and not
    ahead of the contract, and the stored proof's hash chain at that index equals the
    hash chain reserved for exactly that index, either remembered from an earlier
    cycle or reported by the token when the reservation was mined. *)
Theorem submission_needs_reservation polls en token tok s ci w w' r :
  let a := rtc_verifier_contract token in
  submit_if_ready polls en token tok s ci w = (w', r) ->
  provedTransferRoots (w_verifier w' a) <> provedTransferRoots (w_verifier w a) ->
  en = true /\ last_submitted_index s < last_compiled_index s <= ci
  /\ exists d rec, wait_for_ivc_record polls tok (last_compiled_index s) (w_db w) = (d, Ok rec)
     /\ let h := fr_to_u256 (rec_state_hash_chain rec) in
        (pending_reserved_index s = Some (last_compiled_index s) /\ pending_reserved_hash_chain s = Some h)
        \/ (last_compiled_index s = as_u64 (index (rpc_others (w_token w) (w_token_of w a)))
            /\ h = hashChain (rpc_others (w_token w) (w_token_of w a))).
Proof. intros a H Hne. apply submit_if_ready_inv in H as [H|H]; [done|exact H]. Qed.

(** A job that has fallen out of its history window stops before it changes
    anything: when the token is more than [history_window] transfers ahead of the
    latest proved index, processing the token reports the exhausted window, and the
    contracts, the checkpoints and the job's state are exactly as before. *)
Theorem exhausted_window_is_reported polls job token tok win w dc ds :
  let a := rtc_verifier_contract token in
  dc || ds = true -> quiet -> rpj_submit_enabled job = true ->
  rpj_tree_height job = TRANSFER_TREE_HEIGHT -> rpj_tree_config job = mkDbMerkleTreeConfig win ->
  0 < tok -> tm_chain_id (rtc_metadata token) <= i64_max ->
  find_token_id (rtc_metadata token) (tm_chain_id (rtc_metadata token)) (w_db w) = Some tok ->
  0 <= index (w_token w (rtc_token_contract token)) < 2 ^ 64 -> 0 <= latestProvedIndex (w_verifier w a) ->
  0 <= rpj_history_window job ->
  latestProvedIndex (w_verifier w a) + rpj_history_window job < index (w_token w (rtc_token_contract token)) ->
  exists w', process_token_inner polls job token dc ds w = (w', Err (Msg "history window exhausted"))
    /\ w_verifier w' = w_verifier w /\ w_token w' = w_token w
    /\ root_ivc_proofs (w_db w') = root_ivc_proofs (w_db w) /\ root_prover_state (w_db w') = root_prover_state (w_db w).
Proof.
  intros a Hd Hq Hen Hh Hcfg Htok Hcid Hfind Hidx Hlat Hw Hex.
  rewrite (process_token_start polls job token tok win w (latestProvedIndex (w_verifier w a))
    (index (w_token w (rtc_token_contract token)))) by done.
  assert (u64_add (latestProvedIndex (w_verifier w a)) (rpj_history_window job)
          = latestProvedIndex (w_verifier w a) + rpj_history_window job) as -> by (unfold u64_add; rewrite Z.mod_small; lia).
  if_case E; [|lia]. by eexists.
Qed.

(** A cycle, with what it leaves of the database. *)
Lemma root_cycle_spec polls job token tok rows (b : nat) win w :
  let ls := ev_leaf <$> rows in
  let L := Z.of_nat (length ls) in
  let a := rtc_verifier_contract token in
  let v := w_verifier w a in
  quiet -> rpj_submit_enabled job = true -> rpj_tree_height job = TRANSFER_TREE_HEIGHT ->
  rpj_tree_config job = mkDbMerkleTreeConfig win -> 0 <= rpj_history_window job <= win -> win < 2 ^ 63 ->
  0 < tok -> tm_chain_id (rtc_metadata token) <= i64_max ->
  find_token_id (rtc_metadata token) (tm_chain_id (rtc_metadata token)) (w_db w) = Some tok ->
  has_history tok TRANSFER_TREE_HEIGHT win (w_db w) ls -> events_are tok rows (w_db w) -> Forall row_parses rows ->
  Forall leaf_in_range ls -> L < 2 ^ 40 -> (b < length ls)%nat -> L <= Z.of_nat b + rpj_history_window job ->
  w_token_of w a = rtc_token_contract token ->
  index (w_token w (rtc_token_contract token)) = L -> hashChain (w_token w (rtc_token_contract token)) = history_chain ls ->
  paused v = false -> latestProvedIndex v = Z.of_nat b ->
  slot (provedTransferRoots v) (Z.of_nat b) = history_root TRANSFER_TREE_HEIGHT (take b ls) ->
  history_root TRANSFER_TREE_HEIGHT (take b ls) <> 0 -> history_chain ls <> 0 ->
  (slot (provedTransferRoots v) L = 0 \/ slot (provedTransferRoots v) L = history_root TRANSFER_TREE_HEIGHT ls) ->
  checkpoint_ok attests tok ls b v (w_db w) ->
  exists w', process_token_inner (S polls) job token true true w = (w', Ok tt)
    /\ slot (provedTransferRoots (w_verifier w' a)) L = history_root TRANSFER_TREE_HEIGHT ls
    /\ latestProvedIndex (w_verifier w' a) = L
    /\ root_prover_state (w_db w') !! tok = Some (state_row (aligned L))
    /\ (forall e, root_ivc_proofs (w_db w') !! (tok, e) = None)
    /\ job_tables_changed tok (tree_parts_db tok (w_db w)) (w_db w') /\ same_chain_but a w w'.
Proof.
  intros ls L a v Hq Hen Hh Hcfg Hwin Hwin2 Htok Hcid Hfind Hhist Hev Hrp Hlr Hlen Hb Hin Hto Hidx Hch Hpause Hlat Hold Hnz Hcnz Hex Hck.
  set (t := tree_handle tok TRANSFER_TREE_HEIGHT win). set (d0 := tree_parts_db tok (w_db w)). set (w0 := set_db d0 w).
  rewrite (process_token_start (S polls) job token tok win w (Z.of_nat b) L) by (done || lia). fold d0 w0.
  assert (u64_add (Z.of_nat b) (rpj_history_window job) = Z.of_nat b + rpj_history_window job) as ->.
  { unfold u64_add. rewrite Z.mod_small; lia. }
  if_case E; [lia|]. clear E. assert (tree_repr t d0 ls) as Hrep by exact Hhist.
  destruct (align_checkpoint attests tok ls b v d0) as (c & s & d1 & Hal & Hj1 & Hs1 & Hp1 & Hp2 & Hp3);
    [apply (tr_token _ _ _ Hrep) | lia | done | by apply checkpoint_ok_parts |].
  set (w1 := set_db d1 w). rewrite (M_bind_run _ _ w0 w1 s) by exact (on_db_run _ w0 d1 _ Hal).
  pose proof (po_range _ _ _ _ _ _ _ Hs1) as Hbc. pose proof (job_tables_tree _ t _ _ _ Hj1 Hrep) as Hrep1.
  destruct (sync_ivc_proofs_spec attests t w1 rows b c s L) as (d2 & Hsync & Hs2 & Hj2 & _);
    [exact Hrep1 | reflexivity | exact Hlen | exact Hlr | exact Hrp | | | lia | exact Hs1 |].
  { destruct Hj1 as (x & p & -> & _). exact Hev. }
  { change (dt_history_window t) with win. fold ls L. lia. }
  fold ls L in Hsync, Hs2. rewrite Z.min_id in Hsync, Hs2. unfold L in Hsync, Hs2. rewrite Nat2Z.id, Nat.max_r in Hsync, Hs2 by lia.
  fold L in Hsync, Hs2. set (w2 := set_db d2 w). set (s2 := with_compiled L s) in *.
  rewrite (M_bind_run _ _ w1 w2 s2) by exact Hsync.
  pose proof (job_tables_trans _ _ _ _ Hj1 Hj2) as Hj.
  destruct (submit_spec attests polls token tok ls b s2 L w2) as (w3 & Hsub & F1 & F2 & F3 & F4 & F5 & F6);
    [exact Hq | | exact Hb | exact Hlen | lia | exact Hs2 | exact Hp1 | exact Hp2 | | | exact Hp3 | exact Hpause | exact Hold
    | exact Hnz | exact Hcnz | exact Hex | exact Hlat |].
  { cbn. rewrite (job_tables_tokens _ _ _ Hj). apply (tr_token _ _ _ Hrep). }
  { change (index (w_token w (w_token_of w a)) = L). by rewrite Hto. }
  { change (hashChain (w_token w (w_token_of w a)) = history_chain ls). by rewrite Hto. }
  exists w3. split; [rewrite Hen; by run Hsub | exact (conj F1 (conj F2 (conj F3 (conj F4 (conj (job_tables_trans _ _ _ _ Hj F5) F6)))))].
Qed.

End properties.

(** ** Witnesses *)

Section witnesses.
#[local] Existing Instance toy_crypto.
#[local] Existing Instance toy_crypto_laws.
#[local] Existing Instance toy_r1cs.
#[local] Existing Instance toy_r1cs_laws.

(** A transparent folding scheme: the proof is the statement it attests. *)
Definition toy_nova : NovaScheme := {|
  RootNovaInstance := Z * list Z * list Z;
  RootIvcProof := Z * list Z * list Z;
  initial_nova := fun z0 => Ok (0, z0, z0);
  prove_step := fun n x =>
    match root_generate_step_constraints toy_cfg n.2 x with
    | Some (z, true) => Ok (n.1.1 + 1, n.1.2, z)
    | _ => Err "unsatisfied"
    end;
  nova_state := fun n => n.2;
  nova_ivc_proof := fun n => n;
  nova_verify := fun _ => Ok tt;
  nova_from_ivc_proof := fun p => Ok p;
  serialize_uncompressed := fun p => Ok ([p.1.1; Z.of_nat (length p.1.2)] ++ p.1.2 ++ p.2);
  deserialize_uncompressed := fun bs =>
    match bs with
    | i :: n :: rest => Ok (i, take (Z.to_nat n) rest, drop (Z.to_nat n) rest)
    | _ => Err "short"
    end;
|}.
#[local] Existing Instance toy_nova.
Definition toy_attests (n : RootNovaInstance) (i : Z) (z0 z : list Z) : Prop := n = (i, z0, z).

Definition toy_decider : DeciderClient := {|
  produce_decider_proof := fun _ bs =>
    match bs with
    | i :: _ :: rest => Ok (abi_encode_words ([i] ++ rest ++ replicate 25 0))
    | _ => Err "short"
    end
|}.
#[local] Existing Instance toy_decider.
Definition accept_all : Deciders := {|
  rootDecider := fun _ => true; withdrawDecider := fun _ _ => true; singleWithdrawVerifier := fun _ _ _ => true;
|}.
#[local] Existing Instance accept_all.
Definition toy_rpc : Rpc := {|
  rpc_call := fun _ => Ok tt; rpc_send := fun _ => Ok tt; rpc_receipt := fun _ => Ok tt; rpc_others := fun f => f;
|}.
#[local] Existing Instance toy_rpc.

Lemma toy_prover_laws : ProverLaws toy_attests.
Proof.
  unfold toy_attests. split; cbn [initial_nova prove_step nova_state nova_ivc_proof nova_verify nova_from_ivc_proof
    serialize_uncompressed deserialize_uncompressed toy_nova].
  - intros z0 _. by exists (0, z0, z0).
  - intros cfg n i z0 z x z' Hcfg -> _ Hst. assert (cfg = toy_cfg) as -> by (unfold toy_cfg; by rewrite Hcfg).
    cbn [fst snd]. rewrite Hst. by eexists.
  - by intros n i z0 z ->.
  - done.
  - intros [[i z0] z]. eexists; split; [reflexivity|]. cbn [fst snd app]. by rewrite Nat2Z.id, take_app_length, drop_app_length.
  - intros n i z0 z -> _. by eexists.
  - intros n i z0 z bs -> Hi H0 Hz Hfr [= <-]. cbn [fst snd].
    exists (abi_encode_words ([i] ++ z0 ++ z ++ replicate 25 0)), (replicate 25 0). split; [|split; [|done]].
    + cbn [produce_decider_proof toy_decider app]. by rewrite <- app_assoc.
    + assert (length ([i] ++ z0 ++ z ++ replicate 25 0) = 32%nat) as Hl by (rewrite !length_app, H0, Hz; done).
      rewrite <- Hl. apply abi_roundtrip. constructor; [unfold in_u256; lia|]. apply Forall_app in Hfr as [Hf0 Hfz].
      apply Forall_app. split; [eapply Forall_impl; [exact Hf0|]; intros; by apply is_fr_u256|].
      apply Forall_app. split; [eapply Forall_impl; [exact Hfz|]; intros; by apply is_fr_u256|].
      apply Forall_replicate. unfold in_u256. lia.
Qed.
#[local] Existing Instance toy_prover_laws.

Lemma toy_quiet : quiet.
Proof. done. Qed.

(** Token 1 at address 77 with verifier 78, and one transfer of 7 to address 5. *)
Definition toy_event_row : EventRow := mkEventRow (be_bytes 20 3) (be_bytes 20 5) (be_bytes 32 7) 12.
Definition toy_root_db : Db :=
  mkDb {[1 := mkTokenRow (address_bytes 77) (address_bytes 78) 1]} 2 ∅ {[(1, 0) := toy_event_row]} ∅ ∅ ∅ ∅ ∅ ∅ ∅.
Definition toy_context : RootTokenContext := mkRootTokenContext "t" (mkTokenMetadata 77 78 1) 77 78 5.
Definition toy_root_job : RootProverJob := mkRootProverJob [toy_context] (mkDbMerkleTreeConfig 8) TRANSFER_TREE_HEIGHT 4 true.
Definition toy_verifier : Verifier := mkVerifier 0 0 0 0 0 ∅ {[0 := toy_r0]} ∅ ∅ false.
Definition toy_root_world (d : Db) : World :=
  mkWorld d (fun _ => mkToken 1 (history_chain [mkLeaf 5 7]) 78) (fun _ => toy_verifier) (fun _ => 77).

Lemma toy_leaf : ev_leaf <$> [toy_event_row] = [mkLeaf 5 7].
Proof. by vm_compute. Qed.

(** A database whose tree holds the transfer. *)
Lemma toy_indexed : exists d, has_history 1 TRANSFER_TREE_HEIGHT 8 d [mkLeaf 5 7]
  /\ tokens d = tokens toy_root_db /\ indexed_transfer_events d = indexed_transfer_events toy_root_db
  /\ root_prover_state d = ∅ /\ root_ivc_proofs d = ∅.
Proof.
  destruct (DbTree_new_spec 1 TRANSFER_TREE_HEIGHT 8 toy_root_db) as (t & d0 & Hn & _ & _ & _ & Hr);
    [lia | unfold TRANSFER_TREE_HEIGHT; lia | lia | by eexists | by repeat split |].
  rewrite DbTree_new_run in Hn by (lia || by unfold TRANSFER_TREE_HEIGHT). injection Hn as <- <-.
  destruct (append_leaf_spec _ _ [] 5 7 Hr) as (d' & _ & Hr' & Hf); [by vm_compute|].
  exists d'. destruct Hf. split; [by apply tree_repr_has_history|]. by split_and!.
Qed.

Lemma toy_events d : indexed_transfer_events d = indexed_transfer_events toy_root_db -> events_are 1 [toy_event_row] d.
Proof. intros H k row Hk. rewrite H. destruct k as [|k]; [|done]. injection Hk as <-. done. Qed.

Lemma toy_root_range : Forall leaf_in_range (ev_leaf <$> [toy_event_row]).
Proof. rewrite toy_leaf. apply Forall_singleton. split; cbn; lia. Qed.


Lemma compile_extends_checkpoint_witness :
  exists w d', sync_ivc_proofs 1 (tree_handle 1 TRANSFER_TREE_HEIGHT 8) (aligned 0) 1 w = (set_db d' w, Ok (with_compiled 1 (aligned 0)))
    /\ ivc_at toy_attests 1 (ev_leaf <$> [toy_event_row]) 0 1 d'.
Proof.
  destruct toy_indexed as (d & Hh & Ht & He & Hp & Hi). pose (d1 := set_prover {[1 := state_row (aligned 0)]} (tree_parts_db 1 d)).
  exists (toy_root_world d1).
  destruct (compile_extends_checkpoint toy_attests (tree_handle 1 TRANSFER_TREE_HEIGHT 8) (toy_root_world d1) [toy_event_row] 0 0 (aligned 0) 1)
    as (d' & Hrun & _ & _ & Hat).
  - apply tree_repr_set_prover. rewrite toy_leaf. exact Hh.
  - reflexivity.
  - cbn; lia.
  - apply toy_root_range.
  - by repeat constructor.
  - by apply toy_events.
  - cbn; lia.
  - lia.
  - split; try reflexivity; [cbn; lia | lia].
  - exists d'. split; [exact Hrun|]. apply Hat. cbn. lia.
Defined.

(** Two compiled transfers with chain 5 that the token reserves at index 2. *)
Definition toy_state : RootProverState := mkRootProverState 0 2 0 None None.
Definition toy_submit_world : World :=
  mkWorld (mkDb {[1 := mkTokenRow (address_bytes 77) (address_bytes 78) 1]} 2 ∅ ∅ ∅ ∅ ∅ ∅ ∅
             {[(1, 2) := mkIvcRow 0 [2; 3; 0; 0; 9; 2; 5; 6] 2 (be_bytes 32 5) (be_bytes 32 6)]} {[1 := state_row toy_state]})
    (fun _ => mkToken 2 5 78) (fun _ => mkVerifier 0 0 0 0 0 ∅ {[0 := 9]} ∅ ∅ false) (fun _ => 77).

Lemma submission_needs_reservation_witness :
  true = true /\ 0 < 2 <= 2
  /\ exists d rec, wait_for_ivc_record 1 1 2 (w_db toy_submit_world) = (d, Ok rec)
     /\ let h := fr_to_u256 (rec_state_hash_chain rec) in
        (None = Some 2 /\ None = Some h) \/ (2 = 2 /\ h = 5).
Proof.
  refine (submission_needs_reservation 1 true toy_context 1 toy_state 2 toy_submit_world
    (submit_if_ready 1 true toy_context 1 toy_state 2 toy_submit_world).1
    (submit_if_ready 1 true toy_context 1 toy_state 2 toy_submit_world).2 _ _).
  - apply surjective_pairing.
  - vm_compute. discriminate.
Defined.

Lemma exhausted_window_is_reported_witness :
  let w := mkWorld toy_root_db (fun _ => mkToken 10 5 78) (fun _ => toy_verifier) (fun _ => 77) in
  exists w', process_token_inner 1 toy_root_job toy_context true false w = (w', Err (Msg "history window exhausted"))
    /\ w_verifier w' = w_verifier w /\ w_token w' = w_token w
    /\ root_ivc_proofs (w_db w') = root_ivc_proofs (w_db w) /\ root_prover_state (w_db w') = root_prover_state (w_db w).
Proof.
  intros w. apply (exhausted_window_is_reported 1 toy_root_job toy_context 1 8 w true false);
    [done | exact toy_quiet | done | done | done | lia | by vm_compute | by vm_compute | cbn; lia | cbn; lia | cbn; lia | cbn; lia].
Defined.
End witnesses.
