(* ===== verification/Teleport.v ===== *)
(** [client-common/src/teleport]: how a client finds the hub's aggregation tree,
    collects the burns it can withdraw and builds their Merkle proofs, with the
    server's encoding of a historical proof ([indexer/src/server/mod.rs]).

    The hub contract's node, the verifier's views and the indexer's HTTP API are
    external ([HubNode], [VerifierView], [IndexerClient]); errors are [anyhow]
    messages.  A [HashMap] is an association list in its iteration order, which
    is unspecified.  [sort_by_key] is the stable sort of the standard library. *)

From S2P Require Import Prelude Words Crypto BitPaths MerkleTrees Gadgets Circuits Database TreeDb Events Leases Jobs.
Local Open Scope Z_scope.

(** ** External services *)

Record AggregationRootUpdatedEvent := mkAggEvent {
  ag_root : Z;
  ag_agg_seq : Z;
  ag_snapshot : list Z;
  ag_transfer_tree_indices : list Z;
}.

Class HubNode := {
  hub_latest_block : result string Z;
  hub_aggregation_root_events : Z -> Z -> result string (list AggregationRootUpdatedEvent);
  hub_chain_ids : result string (list Z);
}.

Class VerifierView := {
  view_latest_agg_seq : result string Z;
  view_global_transfer_root : Z -> result string Z;
}.

(** [api_types::indexer::HistoricalProof]. *)
Record ApiProof := mkApiProof {
  ap_target_index : Z;
  ap_leaf_index : Z;
  ap_root : Z;
  ap_hash_chain : Z;
  ap_siblings : list Z;
}.

Class IndexerClient := {
  client_events_by_recipient : Z -> Z -> Z -> option Z -> result string (list IndexedEvent);
  client_prove_many : Z -> Z -> Z -> list Z -> result string (list ApiProof);
}.

(** The response of the server's prove-many handler. *)
Definition api_proof (p : HistoricalProof) : ApiProof :=
  mkApiProof (hp_target_index p) (hp_leaf_index p) (fr_to_u256 (hp_root p)) (hp_hash_chain p)
    (fr_to_u256 <$> siblings (hp_proof p)).

(** ** The standard library's stable sort *)

Fixpoint insert_by {A} (key : A -> Z) (x : A) (l : list A) : list A :=
  match l with
  | [] => [x]
  | y :: l' => if key x <=? key y then x :: y :: l' else y :: insert_by key x l'
  end.
Definition sort_by_key {A} (key : A -> Z) (l : list A) : list A := foldr (insert_by key) [] l.

(** ** [aggregation_tree.rs] *)

Record AggregationTreeState := mkAggregationTreeState {
  latest_agg_seq : Z;
  aggregation_root : Z;
  aggregation_tree : MerkleTree;
  tree_root_indices : list Z;
  chain_ids : list Z;
}.

(** [iter().position(|&id| id == x)]. *)
Fixpoint position (x : Z) (l : list Z) : option nat :=
  match l with
  | [] => None
  | y :: l' => if y =? x then Some 0%nat else S <$> position x l'
  end.

(** Indexing past the end of [tree_root_indices] panics. *)
Definition get_tree_id_for_chain_id (s : AggregationTreeState) (chain_id : Z) : result string (option Z) :=
  match position chain_id (chain_ids s) with
  | None => Ok None
  | Some idx => Some <$> ok_or "index out of bounds" (tree_root_indices s !! idx)
  end.

Section client.
Context {C : Crypto}.

Section hub.
Context {H : HubNode} {V : VerifierView}.

(** The [loop] of [find_aggregation_event]: [latest_block / span + 1] iterations. *)
Fixpoint find_aggregation_loop (fuel : nat) (target_seq block_span to_block : Z) : result string AggregationRootUpdatedEvent :=
  match fuel with
  | O => Err "out of fuel"
  | S fuel' =>
    let from_block := if block_span <? u64_add to_block 1 then u64_sub (u64_add to_block 1) block_span else 0 in
    events ← map_err (fun _ => "Failed to fetch aggregation root events from hub contract")
               (hub_aggregation_root_events from_block to_block);
    match head (filter (fun e => ag_agg_seq e = target_seq) (rev events)) with
    | Some event => Ok event
    | None =>
      if from_block =? 0 then Err "Aggregation event not found"
      else find_aggregation_loop fuel' target_seq block_span (saturating_sub from_block 1)
    end
  end.

Definition find_aggregation_event (fuel : nat) (target_seq block_span : Z) : result string AggregationRootUpdatedEvent :=
  if block_span =? 0 then Err "event_block_span must be greater than zero"
  else
    latest_block ← map_err (fun _ => "Failed to fetch latest block from hub contract") hub_latest_block;
    find_aggregation_loop fuel target_seq block_span latest_block.

(** The loop over the snapshot; [None] of the tree is a panic. *)
Fixpoint fill_tree (t : MerkleTree) (idx : Z) (snapshot : list Z) : option MerkleTree :=
  match snapshot with
  | [] => Some t
  | root :: rest =>
    t' ← (if negb (root =? 0) then update_leaf t idx (u256_to_fr root) else Some t);
    fill_tree t' (idx + 1) rest
  end.

Definition fetch_aggregation_tree_state (fuel : nat) (event_block_span : Z) : result string AggregationTreeState :=
  seq ← map_err (fun _ => "Failed to fetch latest aggregation sequence from verifier") view_latest_agg_seq;
  if seq =? 0 then Err "No aggregation reached yet"
  else
    onchain_global_root ← map_err (fun _ => "Failed to fetch global transfer root from verifier") (view_global_transfer_root seq);
    event ← find_aggregation_event fuel seq event_block_span;
    if negb (ag_root event =? onchain_global_root) then Err "Mismatch in global transfer root"
    else
      tree ← ok_or "panicked" (fill_tree (MerkleTree_new AGGREGATION_TREE_HEIGHT) 0 (ag_snapshot event));
      root ← ok_or "panicked" (get_root tree);
      if negb (root =? u256_to_fr (ag_root event)) then Err "Aggregation tree root mismatch"
      else
        ids ← map_err (fun _ => "Failed to fetch token infos from hub contract") hub_chain_ids;
        Ok (mkAggregationTreeState seq (ag_root event) tree (ag_transfer_tree_indices event) ids).
End hub.

(** ** [events.rs] *)

(** [entry(chain_id).or_default().push(address)]. *)
Fixpoint push_entry (chain_id address : Z) (m : list (Z * list Z)) : list (Z * list Z) :=
  match m with
  | [] => [(chain_id, [address])]
  | (k, l) :: m' => if k =? chain_id then (k, l ++ [address]) :: m' else (k, l) :: push_entry chain_id address m'
  end.

(** The inner loop: [token_clients] are the clients' [balance_of]. *)
Definition filter_address (tokens : list (TokenEntry * (Z -> result string Z))) (address : Z) (acc : list (Z * list Z))
  : result string (list (Z * list Z)) :=
  fold_result (fun acc tc =>
    balance ← map_err (fun _ => "failed to fetch balance") (tc.2 address);
    Ok (if negb (balance =? 0) then push_entry (te_chain_id tc.1) address acc else acc)) acc tokens.

Definition nonzero_balance_addresses (tokens : list (TokenEntry * (Z -> result string Z))) (burn_addresses : list Z)
  : result string (list (Z * list Z)) :=
  fold_result (fun acc address => filter_address tokens address acc) [] burn_addresses.

Definition events_of_chain {I : IndexerClient} (limit : option Z) (token_entries : list TokenEntry) (c : Z * list Z)
  : result string (Z * list IndexedEvent) :=
  entry ← ok_or "token entry not found for chain_id" (head (filter (fun e => te_chain_id e = c.1) token_entries));
  events ← map_result (fun address => client_events_by_recipient (te_chain_id entry) (te_token_address entry) address limit) c.2;
  Ok (c.1, concat events).

Definition fetch_transfer_events {I : IndexerClient} (limit : option Z) (token_entries : list TokenEntry)
  (token_clients : list (Z -> result string Z)) (burn_addresses : list Z) : result string (list (Z * list IndexedEvent)) :=
  if negb (length token_entries =? length token_clients)%nat then Err "token entries length does not match token clients length"
  else
    addresses ← nonzero_balance_addresses (zip token_entries token_clients) burn_addresses;
    map_result (events_of_chain limit token_entries) addresses.

Record EventsWithEligibility := mkEventsWithEligibility {
  eligible : list IndexedEvent;
  ineligible : list IndexedEvent;
}.

(** [U256] addition wraps. *)
Definition total_value (l : list IndexedEvent) : Z :=
  foldl (fun acc e => (acc + ie_value e) mod 2 ^ 256) 0 l.
Definition eligible_total_value (x : EventsWithEligibility) : Z := total_value (eligible x).
Definition ineligible_total_value (x : EventsWithEligibility) : Z := total_value (ineligible x).

Definition separate_chain (s : AggregationTreeState) (c : Z * list IndexedEvent) : result string (Z * EventsWithEligibility) :=
  tree_root_index ← (id ← get_tree_id_for_chain_id s c.1; ok_or "no tree root index for chain id" id);
  Ok (c.1, mkEventsWithEligibility (filter (fun e => ie_event_index e < tree_root_index) c.2)
             (filter (fun e => ~ ie_event_index e < tree_root_index) c.2)).

Definition separate_events_by_eligibility (s : AggregationTreeState) (events : list (Z * list IndexedEvent))
  : result string (list (Z * EventsWithEligibility)) := map_result (separate_chain s) events.

(** ** [merkle_proofs.rs] *)

Definition event_leaf_hash (e : IndexedEvent) : Z := compute_leaf_hash (address_to_fr (ie_to e)) (u256_to_fr (ie_value e)).

Record LocalTeleportMerkleProof := mkLocalProof {
  lp_tree_index : Z;
  lp_event : IndexedEvent;
  lp_proof : MerkleProof;
}.

(** The body of the loop over [events.zip(proofs)]. *)
Definition check_local_proof (tree_index : Z) (ep : IndexedEvent * ApiProof) : result string LocalTeleportMerkleProof :=
  let '(event, proof) := ep in
  if negb (ap_leaf_index proof =? ie_event_index event) || negb (ap_target_index proof =? tree_index)
  then Err "Mismatch in proof indices"
  else
    let merkle_proof := mkMerkleProof (u256_to_fr <$> ap_siblings proof) in
    root ← ok_or "panicked" (proof_get_root merkle_proof (event_leaf_hash event) (ie_event_index event));
    if negb (root =? u256_to_fr (ap_root proof)) then Err "Invalid Merkle proof"
    else Ok (mkLocalProof tree_index event merkle_proof).

Definition fetch_local_teleport_merkle_proofs {I : IndexerClient} (token : TokenEntry) (tree_index : Z) (events : list IndexedEvent)
  : result string (list LocalTeleportMerkleProof) :=
  proofs ← map_err (fun _ => "Failed to fetch Merkle proofs from indexer")
             (client_prove_many (te_chain_id token) (te_token_address token) tree_index (ie_event_index <$> events));
  if negb (length proofs =? length events)%nat then Err "Indexer returned another number of proofs"
  else
    local_proofs ← map_result (check_local_proof tree_index) (zip events proofs);
    Ok (sort_by_key (fun w => ie_event_index (lp_event w)) local_proofs).

Record GlobalTeleportMerkleProof := mkGlobalProof {
  gp_event : IndexedEvent;
  gp_proof : MerkleProof;
  gp_leaf_index : Z;
}.

Definition global_proof (s : AggregationTreeState) (aggregation_index : Z) (aggregation_proof : MerkleProof) (w : LocalTeleportMerkleProof)
  : result string GlobalTeleportMerkleProof :=
  let proof := extend (lp_proof w) aggregation_proof in
  let global_leaf_index :=
    u64_add (as_u64 (Z.shiftl aggregation_index (Z.of_nat TRANSFER_TREE_HEIGHT))) (ie_event_index (lp_event w)) in
  expected_root ← ok_or "panicked" (proof_get_root proof (event_leaf_hash (lp_event w)) global_leaf_index);
  if negb (expected_root =? u256_to_fr (aggregation_root s)) then Err "Invalid global Merkle proof"
  else Ok (mkGlobalProof (lp_event w) proof global_leaf_index).

Definition global_proofs_of_chain (s : AggregationTreeState) (c : Z * list LocalTeleportMerkleProof)
  : result string (list GlobalTeleportMerkleProof) :=
  idx ← ok_or "Chain ID not found in aggregation state" (position c.1 (chain_ids s));
  aggregation_proof ← ok_or "panicked" (prove (aggregation_tree s) (Z.of_nat idx));
  map_result (global_proof s (Z.of_nat idx) aggregation_proof) c.2.

Definition generate_global_teleport_merkle_proofs (s : AggregationTreeState) (local_proofs : list (Z * list LocalTeleportMerkleProof))
  : result string (list GlobalTeleportMerkleProof) :=
  per_chain ← map_result (global_proofs_of_chain s) local_proofs;
  Ok (sort_by_key gp_leaf_index (concat per_chain)).
End client.
