(* ===== verification/TeleportSpec.v ===== *)
(** The client's view of a teleport: the aggregation event is found whenever it
    exists, the proofs it builds open the aggregation root, and on the honest
    services every eligible burn gets the proof the withdraw circuit accepts
    ([client-common/src/teleport]). *)

From S2P Require Import Prelude Words Crypto BitPaths MerkleTrees Gadgets Circuits Database TreeDb TreeDbSpec Events Leases Jobs Teleport.
From Stdlib Require Import Sorting.
Local Open Scope Z_scope.

(** ** The stable sort *)

Section sort.
Context {A : Type} (key : A -> Z).

Lemma insert_by_perm x l : insert_by key x l ≡ₚ x :: l.
Proof.
  induction l as [|y l IH]; cbn; [done|]. if_case E; [done|]. rewrite IH. apply Permutation_swap.
Qed.

Lemma sort_by_key_perm l : sort_by_key key l ≡ₚ l.
Proof. induction l as [|x l IH]; cbn; [done|]. by rewrite insert_by_perm, IH. Qed.

Lemma insert_by_sorted x l :
  StronglySorted (fun a b => key a <= key b) l -> StronglySorted (fun a b => key a <= key b) (insert_by key x l).
Proof.
  induction 1 as [|y l Hl IH Hy]; cbn; [by repeat constructor|]. if_case E.
  - constructor; [by constructor|]. constructor; [done|]. eapply Forall_impl; [exact Hy|]. cbn. lia.
  - constructor; [done|]. rewrite insert_by_perm. constructor; [lia | done].
Qed.

Lemma insert_by_fmap {B} (f : B -> A) x l : insert_by key (f x) (f <$> l) = f <$> insert_by (fun y => key (f y)) x l.
Proof. induction l as [|y l IH]; cbn; [done|]. if_case E; [done|]. cbn. by rewrite <- IH. Qed.

Lemma sort_by_key_fmap {B} (f : B -> A) l : sort_by_key key (f <$> l) = f <$> sort_by_key (fun y => key (f y)) l.
Proof. induction l as [|x l IH]; [done|]. cbn. rewrite <- insert_by_fmap. by f_equal. Qed.

Lemma sorted_strict l :
  StronglySorted (fun a b => key a <= key b) l -> NoDup (key <$> l) -> StronglySorted Z.lt (key <$> l).
Proof.
  induction 1 as [|x l Hl IH Hx]; cbn; [constructor|]. intros [Hn Hd]%NoDup_cons. constructor; [by apply IH|].
  apply Forall_fmap, Forall_forall. intros y Hy. rewrite Forall_forall in Hx. specialize (Hx y Hy). cbn.
  assert (key x <> key y); [|lia]. intros E. apply Hn. rewrite E. by apply list_elem_of_fmap_2.
Qed.

Lemma sort_by_key_sorted l : StronglySorted (fun a b => key a <= key b) (sort_by_key key l).
Proof. induction l as [|x l IH]; cbn; [constructor|]. by apply insert_by_sorted. Qed.
End sort.

Section lists.
Context {A B : Type}.

Lemma head_filter_app (P : A -> Prop) `{forall x, Decision (P x)} l1 l2 :
  head (filter P (l1 ++ l2)) = match head (filter P l1) with Some x => Some x | None => head (filter P l2) end.
Proof. rewrite filter_app. by destruct (filter P l1). Qed.

Lemma filter_all (P : A -> Prop) `{forall x, Decision (P x)} l : Forall P l -> filter P l = l.
Proof. induction 1 as [|x l Hx _ IH]; [done|]. by rewrite filter_cons, decide_True, IH. Qed.

Lemma filter_none (P : A -> Prop) `{forall x, Decision (P x)} l : Forall (fun x => ~ P x) l -> filter P l = [].
Proof. induction 1 as [|x l Hx _ IH]; [done|]. by rewrite filter_cons, decide_False, IH. Qed.

(** A list sorted by a key splits at any bound. *)
Lemma filter_le_split (key : A -> Z) l a b :
  StronglySorted (fun x y => key x <= key y) l -> a <= b + 1 ->
  filter (fun x => key x <= b) l = filter (fun x => key x <= a - 1) l ++ filter (fun x => a <= key x <= b) l.
Proof.
  intros Hs Hab. induction Hs as [|x l Hl IH Hx]; [done|]. rewrite !filter_cons.
  destruct (decide (key x <= a - 1)).
  - rewrite decide_True by lia. rewrite (decide_False (P := a <= key x <= b)) by lia. by rewrite IH.
  - assert (filter (fun y => key y <= a - 1) l = []) as Hnil.
    { apply filter_none. eapply Forall_impl; [exact Hx|]. cbn. lia. }
    rewrite Hnil in *. cbn [app] in *. destruct (decide (key x <= b)).
    + rewrite decide_True by lia. by rewrite IH.
    + rewrite decide_False by lia. by rewrite IH.
Qed.
End lists.

(** ** The search for the aggregation event *)

(** The hub's node serves the events [log] (with their blocks, in order) up to block [latest]. *)
Record serves_log (H : HubNode) (latest : Z) (log : list (Z * AggregationRootUpdatedEvent)) : Prop := {
  sl_latest : hub_latest_block = Ok latest;
  sl_range : 0 <= latest < 2 ^ 63;
  sl_sorted : StronglySorted (fun x y => x.1 <= y.1) log;
  sl_blocks : Forall (fun x => 0 <= x.1 <= latest) log;
  sl_events : forall from_block to_block, 0 <= from_block <= to_block ->
    hub_aggregation_root_events from_block to_block = Ok (filter (fun x => from_block <= x.1 <= to_block) log).*2;
}.

(** The last event of the log with the sequence. *)
Definition latest_with_seq (seq : Z) (log : list (Z * AggregationRootUpdatedEvent)) : option AggregationRootUpdatedEvent :=
  head (filter (fun e => ag_agg_seq e = seq) (rev log.*2)).

Section search.
Context {H : HubNode} {V : VerifierView}.

Lemma find_aggregation_loop_spec latest log seq span fuel : forall to_block,
  serves_log H latest log -> 0 < span < 2 ^ 64 -> 0 <= to_block <= latest -> to_block / span < Z.of_nat fuel ->
  find_aggregation_loop fuel seq span to_block
  = ok_or "Aggregation event not found" (latest_with_seq seq (filter (fun x => x.1 <= to_block) log)).
Proof.
  intros to_block Hl Hs. revert to_block. induction fuel as [|fuel IH]; intros to_block Ht Hf.
  { pose proof (Z.div_pos to_block span). lia. }
  pose proof (sl_range _ _ _ Hl). cbn [find_aggregation_loop].
  assert (u64_add to_block 1 = to_block + 1) as -> by (apply Z.mod_small; lia).
  set (from := if span <? to_block + 1 then u64_sub (to_block + 1) span else 0).
  assert (from = Z.max 0 (to_block + 1 - span)) as Hfrom.
  { unfold from. if_case E; [unfold u64_sub; rewrite Z.mod_small by lia|]; lia. }
  clearbody from. rewrite (sl_events _ _ _ Hl) by lia. cbn [map_err mbind result_bind].
  unfold latest_with_seq. rewrite (filter_le_split fst log from to_block) by (try apply (sl_sorted _ _ _ Hl); lia).
  rewrite fmap_app, rev_app_distr, head_filter_app.
  destruct (head (filter _ (rev _))) as [e|]; [done|]. if_case E.
  - assert (filter (fun x => x.1 <= from - 1) log = []) as ->; [|done].
    apply filter_none. eapply Forall_impl; [apply (sl_blocks _ _ _ Hl)|]. cbn. lia.
  - unfold saturating_sub. if_case E1; [lia|]. apply IH; [lia|].
    replace (from - 1) with (to_block + (-1) * span) by lia. rewrite Z.div_add by lia. lia.
Qed.

Lemma find_aggregation_event_spec latest log seq span fuel :
  serves_log H latest log -> 0 < span < 2 ^ 64 -> latest / span < Z.of_nat fuel ->
  find_aggregation_event fuel seq span = ok_or "Aggregation event not found" (latest_with_seq seq log).
Proof.
  intros Hl Hs Hf. unfold find_aggregation_event. if_case E; [lia|].
  rewrite (sl_latest _ _ _ Hl). cbn [map_err mbind result_bind]. pose proof (sl_range _ _ _ Hl).
  rewrite (find_aggregation_loop_spec latest log) by (try done; lia). do 2 f_equal.
  apply filter_all. eapply Forall_impl; [apply (sl_blocks _ _ _ Hl)|]. cbn. lia.
Qed.

(** C36: The search for an aggregation event is complete and terminates: against a node
    that serves the hub's log, for every positive block span the loop ends within
    [latest_block / span + 1] queries and returns the last event of the log with the
    wanted sequence number wherever it lies, and reports that there is none exactly
    when the log has none. *)
Theorem find_aggregation_event_complete latest log seq span :
  serves_log H latest log -> 0 < span < 2 ^ 64 ->
  forall fuel, latest / span + 1 <= Z.of_nat fuel ->
  match find_aggregation_event fuel seq span with
  | Ok e => exists b before after, log = before ++ (b, e) :: after /\ ag_agg_seq e = seq
            /\ Forall (fun x => ag_agg_seq x.2 <> seq) after
  | Err msg => msg = "Aggregation event not found"%string /\ Forall (fun x => ag_agg_seq x.2 <> seq) log
  end.
Proof.
  intros Hl Hs fuel Hf. rewrite (find_aggregation_event_spec latest log) by (try done; lia). clear.
  unfold latest_with_seq. induction log as [|[b e] log IH] using rev_ind; [by split|].
  rewrite fmap_app, rev_app_distr. cbn [fmap list_fmap rev app snd]. rewrite filter_cons. case_decide as Hd.
  - cbn. exists b, log, []. by split_and!.
  - destruct (head _) as [e'|]; cbn in *.
    + destruct IH as (b' & before & after & -> & He & Ha). exists b', before, (after ++ [(b, e)]).
      rewrite <- app_assoc. split_and!; [done..|]. apply Forall_app. by repeat constructor.
    + destruct IH as [_ IH]. split; [done|]. apply Forall_app. by repeat constructor.
Qed.
End search.

(** ** The aggregation tree *)

Section trees.
Context {C : Crypto}.

Lemma leaf_fun_snoc l x j : 0 <= j -> leaf_fun (l ++ [x]) j = upd (leaf_fun l) (Z.of_nat (length l)) x j.
Proof.
  intros Hj. unfold leaf_fun, upd. if_case E; [lia|]. destruct (decide (j = Z.of_nat (length l))) as [->|].
  - by rewrite Z.eqb_refl, Nat2Z.id, list_lookup_middle.
  - rewrite (proj2 (Z.eqb_neq _ _)) by done. f_equal. destruct (decide (Z.to_nat j < length l)%nat).
    + by rewrite lookup_app_l.
    + rewrite !lookup_ge_None_2; rewrite ?length_app; cbn; try done; lia.
Qed.

Lemma leaf_fun_snoc_zero l j : 0 <= j -> leaf_fun (l ++ [0]) j = leaf_fun l j.
Proof.
  intros Hj. rewrite leaf_fun_snoc by done. unfold upd. if_case E; [|done]. subst j.
  unfold leaf_fun. if_case E; [done|]. by rewrite Nat2Z.id, lookup_ge_None_2.
Qed.

Lemma u256_to_fr_0 : u256_to_fr 0 = 0.
Proof. done. Qed.

(** The leaves of the aggregation tree of a snapshot. *)
Definition snapshot_leaves (snapshot : list Z) : Z -> Z := leaf_fun (u256_to_fr <$> snapshot).

Lemma fill_tree_spec rest : forall t pre,
  repr t (snapshot_leaves pre) -> Z.of_nat (length (pre ++ rest)) <= 2 ^ Z.of_nat (mt_height t) ->
  exists t', fill_tree t (Z.of_nat (length pre)) rest = Some t' /\ mt_height t' = mt_height t
    /\ repr t' (snapshot_leaves (pre ++ rest)).
Proof.
  unfold snapshot_leaves. induction rest as [|r rest IH]; intros t pre Ht Hl; cbn [fill_tree].
  { exists t. by rewrite app_nil_r. }
  rewrite length_app in Hl. cbn [length] in Hl.
  assert (exists t1, (if negb (r =? 0) then update_leaf t (Z.of_nat (length pre)) (u256_to_fr r) else Some t) = Some t1
    /\ mt_height t1 = mt_height t /\ repr t1 (leaf_fun (u256_to_fr <$> pre ++ [r]))) as (t1 & -> & Hh & Ht1).
  { rewrite fmap_app. cbn [fmap list_fmap]. destruct (r =? 0) eqn:E; bool_cases; cbn [negb].
    - exists t. subst r. rewrite u256_to_fr_0. split_and!; [done..|].
      eapply repr_ext; [|exact Ht]. intros j Hj. by rewrite leaf_fun_snoc_zero.
    - destruct (update_leaf_repr t _ (Z.of_nat (length pre)) (u256_to_fr r) Ht) as (t1 & H1 & H2 & H3); [lia|].
      exists t1. split_and!; [done..|]. eapply repr_ext; [|exact H3]. intros j Hj.
      by rewrite leaf_fun_snoc, length_fmap by done. }
  cbn [mbind option_bind].
  destruct (IH t1 (pre ++ [r]) Ht1) as (t' & Hf & Hh' & Ht'); [rewrite Hh, <- app_assoc, length_app; cbn; lia|].
  rewrite length_app in Hf. cbn [length] in Hf. replace (Z.of_nat (length pre + 1)) with (Z.of_nat (length pre) + 1) in Hf by lia.
  exists t'. rewrite <- app_assoc in Ht'. split_and!; [done | congruence | done].
Qed.

Lemma aggregation_tree_spec snapshot :
  (length snapshot <= 64)%nat ->
  exists t, fill_tree (MerkleTree_new AGGREGATION_TREE_HEIGHT) 0 snapshot = Some t
    /\ mt_height t = AGGREGATION_TREE_HEIGHT /\ repr t (snapshot_leaves snapshot).
Proof.
  intros Hl. apply (fill_tree_spec snapshot (MerkleTree_new AGGREGATION_TREE_HEIGHT) []);
    [|change (2 ^ Z.of_nat _) with 64; cbn [app]; lia].
  eapply repr_ext; [|apply MerkleTree_new_repr; unfold AGGREGATION_TREE_HEIGHT; lia]. intros j Hj. unfold snapshot_leaves, leaf_fun. by if_case E.
Qed.

(** The state describes the snapshot of the event. *)
Record state_of_snapshot (s : AggregationTreeState) (snapshot : list Z) : Prop := {
  ss_height : mt_height (aggregation_tree s) = AGGREGATION_TREE_HEIGHT;
  ss_tree : repr (aggregation_tree s) (snapshot_leaves snapshot);
  ss_root : u256_to_fr (aggregation_root s) = spec_root AGGREGATION_TREE_HEIGHT (snapshot_leaves snapshot);
}.

Lemma fetch_aggregation_tree_state_ok {H : HubNode} {V : VerifierView} latest log seq span fuel e ids :
  serves_log H latest log -> 0 < span < 2 ^ 64 -> latest / span < Z.of_nat fuel ->
  view_latest_agg_seq = Ok seq -> seq <> 0 -> view_global_transfer_root seq = Ok (ag_root e) ->
  latest_with_seq seq log = Some e -> (length (ag_snapshot e) <= 64)%nat ->
  u256_to_fr (ag_root e) = spec_root AGGREGATION_TREE_HEIGHT (snapshot_leaves (ag_snapshot e)) ->
  hub_chain_ids = Ok ids ->
  exists s, fetch_aggregation_tree_state fuel span = Ok s /\ state_of_snapshot s (ag_snapshot e)
    /\ latest_agg_seq s = seq /\ aggregation_root s = ag_root e /\ tree_root_indices s = ag_transfer_tree_indices e
    /\ chain_ids s = ids.
Proof.
  intros Hl Hs Hf Hseq Hne Hroot He Hlen Heq Hids. unfold fetch_aggregation_tree_state.
  rewrite Hseq. cbn [map_err mbind result_bind]. if_case E; [done|]. rewrite Hroot. cbn [map_err mbind result_bind].
  rewrite (find_aggregation_event_spec latest log) by done. rewrite He. cbn [ok_or mbind result_bind].
  rewrite Z.eqb_refl. cbn [negb]. destruct (aggregation_tree_spec (ag_snapshot e) Hlen) as (t & -> & Hh & Ht).
  cbn [ok_or mbind result_bind]. rewrite (repr_root _ _ Ht), Hh. cbn [ok_or mbind result_bind].
  rewrite Heq, Z.eqb_refl. cbn [negb]. rewrite Hids. cbn [map_err mbind result_bind].
  eexists. split; [done|]. by split_and!.
Qed.

(** What the client accepts: whatever the hub's node answers, the tree it works with
    has the root that the verifier contract stores. *)
Lemma fetch_aggregation_tree_state_sound {H : HubNode} {V : VerifierView} fuel span s :
  fetch_aggregation_tree_state fuel span = Ok s ->
  view_latest_agg_seq = Ok (latest_agg_seq s) /\ latest_agg_seq s <> 0
  /\ view_global_transfer_root (latest_agg_seq s) = Ok (aggregation_root s)
  /\ get_root (aggregation_tree s) = Some (u256_to_fr (aggregation_root s)).
Proof.
  unfold fetch_aggregation_tree_state. intros Hr.
  apply result_bind_ok in Hr as (seq & Hseq & Hr). if_case_in Hr E; [done|].
  apply result_bind_ok in Hr as (root & Hroot & Hr). apply result_bind_ok in Hr as (e & He & Hr).
  if_case_in Hr E1; [done|]. apply result_bind_ok in Hr as (t & Ht & Hr). apply result_bind_ok in Hr as (r & Hgr & Hr).
  if_case_in Hr E2; [done|]. apply result_bind_ok in Hr as (ids & Hids & Hr). injection Hr as <-.
  cbn [latest_agg_seq aggregation_root aggregation_tree]. bool_cases. subst root r.
  destruct view_latest_agg_seq; [|done]. injection Hseq as ->.
  destruct (view_global_transfer_root seq); [|done]. injection Hroot as ->. destruct (get_root t); [|done].
  injection Hgr as ->. done.
Qed.
End trees.

(** ** Global proofs *)

Section proofs.
Context {C : Crypto}.

Lemma global_proof_ok s idx agg w g :
  global_proof s idx agg w = Ok g ->
  gp_event g = lp_event w /\ gp_proof g = extend (lp_proof w) agg
  /\ gp_leaf_index g = u64_add (as_u64 (Z.shiftl idx 40)) (ie_event_index (lp_event w))
  /\ proof_get_root (gp_proof g) (event_leaf_hash (gp_event g)) (gp_leaf_index g) = Some (u256_to_fr (aggregation_root s)).
Proof.
  unfold global_proof. intros H. apply result_bind_ok in H as (r & Hr & H). if_case_in H E; [done|]. injection H as <-.
  bool_cases. subst r. cbn [gp_event gp_proof gp_leaf_index]. destruct (proof_get_root _ _ _); [|done]. by injection Hr as ->.
Qed.

Lemma global_proofs_of_chain_ok s c gs :
  global_proofs_of_chain s c = Ok gs ->
  (gp_event <$> gs) = (lp_event <$> c.2)
  /\ Forall (fun g => proof_get_root (gp_proof g) (event_leaf_hash (gp_event g)) (gp_leaf_index g)
                      = Some (u256_to_fr (aggregation_root s))) gs.
Proof.
  unfold global_proofs_of_chain. intros H. apply result_bind_ok in H as (idx & _ & H).
  apply result_bind_ok in H as (agg & _ & H). apply map_result_ok in H. induction H as [|w g ws gs Hg _ [IH1 IH2]]; [done|].
  apply global_proof_ok in Hg as (He & _ & _ & Hr). split; [by cbn; rewrite He, IH1 | by constructor].
Qed.

(** The client never works with a proof that does not open the aggregation root:
    whatever proofs the indexer delivered, whenever
    [generate_global_teleport_merkle_proofs] succeeds its result holds one proof per
    local proof and nothing else, in increasing order of the global leaf index (the
    order the withdraw circuit requires), and every one recomputes the aggregation
    root from the leaf hash of its event at that index. *)
Theorem global_proofs_sound s locals gs :
  generate_global_teleport_merkle_proofs s locals = Ok gs ->
  StronglySorted (fun a b => gp_leaf_index a <= gp_leaf_index b) gs
  /\ (gp_event <$> gs) ≡ₚ (lp_event <$> concat locals.*2)
  /\ Forall (fun g => proof_get_root (gp_proof g) (event_leaf_hash (gp_event g)) (gp_leaf_index g)
                      = Some (u256_to_fr (aggregation_root s))) gs.
Proof.
  unfold generate_global_teleport_merkle_proofs. intros H. apply result_bind_ok in H as (per & Hper & H). injection H as <-.
  apply map_result_ok in Hper. split; [apply sort_by_key_sorted|]. rewrite !sort_by_key_perm.
  induction Hper as [|c gs locals per Hc _ [IH1 IH2]]; [done|]. apply global_proofs_of_chain_ok in Hc as [Hc1 Hc2].
  cbn. rewrite !fmap_app, Hc1, IH1. split; [done|]. by apply Forall_app.
Qed.
End proofs.

(** ** Honest services *)

(** One chain as the client sees it: its token, the indexer's tree and database, the
    transfers, the tree index of the aggregation, its position in the hub's list and
    the burns to withdraw. *)
Record ChainView := mkChainView {
  cv_token : TokenEntry;
  cv_tree : DbIncrementalMerkleTree;
  cv_db : Db;
  cv_leaves : list Leaf;
  cv_index : nat;
  cv_position : nat;
  cv_events : list IndexedEvent;
}.

Section honest.
Context {C : Crypto} {HC : CryptoLaws C} {I : IndexerClient}.

Record honest_chain (s : AggregationTreeState) (snapshot : list Z) (c : ChainView) : Prop := {
  hc_repr : tree_repr (cv_tree c) (cv_db c) (cv_leaves c);
  hc_height : dt_height (cv_tree c) = TRANSFER_TREE_HEIGHT;
  hc_index : (1 <= cv_index c <= length (cv_leaves c))%nat;
  hc_window : Z.of_nat (length (cv_leaves c)) - Z.of_nat (cv_index c) <= dt_history_window (cv_tree c);
  hc_served : forall leafs proofs,
    prove_many (cv_tree c) (Z.of_nat (cv_index c)) leafs (cv_db c) = (cv_db c, Ok proofs) ->
    client_prove_many (te_chain_id (cv_token c)) (te_token_address (cv_token c)) (Z.of_nat (cv_index c)) leafs
    = Ok (api_proof <$> proofs);
  hc_position : position (te_chain_id (cv_token c)) (chain_ids s) = Some (cv_position c);
  hc_slot : snapshot !! cv_position c = Some (history_root TRANSFER_TREE_HEIGHT (take (cv_index c) (cv_leaves c)));
  hc_events : Forall (fun e => 0 <= ie_event_index e < Z.of_nat (cv_index c)
    /\ cv_leaves c !! Z.to_nat (ie_event_index e) = Some (mkLeaf (ie_to e) (ie_value e))) (cv_events c);
}.

(** The proofs of one chain, fetched and tagged with its id. *)
Definition fetch_chain (c : ChainView) : result string (Z * list LocalTeleportMerkleProof) :=
  l ← fetch_local_teleport_merkle_proofs (cv_token c) (Z.of_nat (cv_index c)) (cv_events c);
  Ok (te_chain_id (cv_token c), l).

Definition honest_local (c : ChainView) (e : IndexedEvent) : LocalTeleportMerkleProof :=
  mkLocalProof (Z.of_nat (cv_index c)) e
    (mkMerkleProof (spec_path (history_leaves (take (cv_index c) (cv_leaves c))) 0 TRANSFER_TREE_HEIGHT (ie_event_index e))).

Definition global_index (c : ChainView) (e : IndexedEvent) : Z := Z.of_nat (cv_position c) * 2 ^ 40 + ie_event_index e.

Definition honest_global (snapshot : list Z) (c : ChainView) (e : IndexedEvent) : GlobalTeleportMerkleProof :=
  mkGlobalProof e (extend (lp_proof (honest_local c e))
    (mkMerkleProof (spec_path (snapshot_leaves snapshot) 0 AGGREGATION_TREE_HEIGHT (Z.of_nat (cv_position c))))) (global_index c e).

Lemma spec_path_fr f k n i : (forall j, is_fr (f j)) -> Forall is_fr (spec_path f k n i).
Proof.
  intros Hf. revert k i. induction n as [|n IH]; intros k i; cbn [spec_path]; constructor; [|apply IH]. by apply spec_node_fr.
Qed.

Lemma u256_fr_fmap l : Forall is_fr l -> u256_to_fr <$> (fr_to_u256 <$> l) = l.
Proof.
  induction 1 as [|x l Hx _ IH]; [done|]. cbn [fmap list_fmap]. rewrite fr_to_u256_id, u256_to_fr_id by done.
  f_equal. exact IH.
Qed.

Lemma event_leaf s snapshot c e :
  honest_chain s snapshot c -> e ∈ cv_events c ->
  event_leaf_hash e = history_leaves (take (cv_index c) (cv_leaves c)) (ie_event_index e)
  /\ 0 <= ie_event_index e < 2 ^ 40.
Proof.
  intros Hc He. pose proof (hc_events _ _ _ Hc) as Hev. rewrite Forall_forall in Hev. destruct (Hev e He) as [Hr Hl].
  pose proof (tr_cap _ _ _ (hc_repr _ _ _ Hc)) as Hcap. rewrite (hc_height _ _ _ Hc) in Hcap.
  change (2 ^ Z.of_nat TRANSFER_TREE_HEIGHT) with (2 ^ 40) in Hcap. pose proof (hc_index _ _ _ Hc). split; [|lia].
  rewrite <- (Z2Nat.id (ie_event_index e)) by lia.
  erewrite history_leaves_lookup by (rewrite lookup_take_lt by lia; exact Hl). done.
Qed.

Lemma local_opens s snapshot c e :
  honest_chain s snapshot c -> e ∈ cv_events c ->
  proof_get_root (lp_proof (honest_local c e)) (event_leaf_hash e) (ie_event_index e)
  = Some (history_root TRANSFER_TREE_HEIGHT (take (cv_index c) (cv_leaves c))).
Proof.
  intros Hc He. destruct (event_leaf _ _ _ _ Hc He) as [-> Hr]. cbn [honest_local lp_proof].
  rewrite proof_get_root_path by (cbn [siblings]; rewrite length_spec_path; unfold TRANSFER_TREE_HEIGHT; lia).
  cbn [siblings]. apply f_equal. apply spec_path_opens. exact Hr.
Qed.

Lemma check_local_ok s snapshot c e r chain :
  honest_chain s snapshot c -> e ∈ cv_events c -> r = history_root TRANSFER_TREE_HEIGHT (take (cv_index c) (cv_leaves c)) ->
  check_local_proof (Z.of_nat (cv_index c))
    (e, api_proof (mkHistoricalProof (Z.of_nat (cv_index c)) (ie_event_index e) r chain (lp_proof (honest_local c e))))
  = Ok (honest_local c e).
Proof.
  intros Hc He Hr. unfold check_local_proof, api_proof.
  cbn [ap_leaf_index ap_target_index ap_siblings ap_root hp_target_index hp_leaf_index hp_root hp_proof hp_hash_chain].
  rewrite !Z.eqb_refl. cbn [negb orb]. rewrite u256_fr_fmap by apply spec_path_fr, history_leaves_fr.
  change (mkMerkleProof (siblings (lp_proof (honest_local c e)))) with (lp_proof (honest_local c e)).
  rewrite (local_opens s snapshot) by done. cbn [ok_or mbind result_bind]. rewrite <- Hr.
  assert (is_fr r) as Hf by (subst r; apply history_node_fr).
  rewrite fr_to_u256_id, u256_to_fr_id, Z.eqb_refl by done. reflexivity.
Qed.

Lemma map_result_fmap {E A A' B} (f : A' -> result E B) (h : A -> A') (g : A -> B) l :
  (forall a, a ∈ l -> f (h a) = Ok (g a)) -> map_result f (h <$> l) = Ok (g <$> l).
Proof.
  intros H. apply map_result_ok. induction l as [|a l IH]; constructor; [apply H; left|]. apply IH. intros b Hb. apply H. by right.
Qed.

Lemma zip_fmap_self {A B} (h : A -> B) l : zip l (h <$> l) = (fun e => (e, h e)) <$> l.
Proof. induction l as [|e l IH]; [done|]. cbn [fmap list_fmap zip_with]. f_equal. exact IH. Qed.

Lemma fetch_chain_ok s snapshot c :
  honest_chain s snapshot c ->
  fetch_chain c = Ok (te_chain_id (cv_token c), sort_by_key (fun w => ie_event_index (lp_event w)) (honest_local c <$> cv_events c)).
Proof.
  intros Hc. unfold fetch_chain, fetch_local_teleport_merkle_proofs.
  erewrite (hc_served _ _ _ Hc); [|apply prove_many_spec].
  2:{ apply (hc_repr _ _ _ Hc). }
  2:{ apply (hc_index _ _ _ Hc). }
  2:{ apply (hc_window _ _ _ Hc). }
  2:{ intros i Hi. apply list_elem_of_fmap in Hi as (e & -> & He). pose proof (hc_events _ _ _ Hc) as Hev.
      rewrite Forall_forall in Hev. by apply Hev. }
  cbn [map_err mbind result_bind]. rewrite !length_fmap, Nat.eqb_refl. cbn [negb].
  rewrite <- !list_fmap_compose, zip_fmap_self, (hc_height _ _ _ Hc).
  rewrite (map_result_fmap _ _ (honest_local c)); [reflexivity|]. intros e He. by apply (check_local_ok s snapshot).
Qed.

Lemma snapshot_leaves_fr snapshot j : is_fr (snapshot_leaves snapshot j).
Proof.
  unfold snapshot_leaves, leaf_fun. assert (is_fr 0) by by vm_compute. if_case E; [done|].
  rewrite list_lookup_fmap. destruct (snapshot !! _); cbn; auto with zerc20.
Qed.

Lemma position_slot s snapshot c :
  honest_chain s snapshot c ->
  snapshot_leaves snapshot (Z.of_nat (cv_position c)) = history_root TRANSFER_TREE_HEIGHT (take (cv_index c) (cv_leaves c)).
Proof.
  intros Hc. unfold snapshot_leaves, leaf_fun. if_case E; [lia|].
  rewrite Nat2Z.id, list_lookup_fmap, (hc_slot _ _ _ Hc). cbn [fmap option_fmap option_map default].
  apply u256_to_fr_id, history_node_fr.
Qed.

Lemma honest_global_opens s snapshot c e :
  honest_chain s snapshot c -> e ∈ cv_events c -> (cv_position c < 64)%nat ->
  proof_get_root (gp_proof (honest_global snapshot c e)) (event_leaf_hash e) (global_index c e)
  = Some (spec_root AGGREGATION_TREE_HEIGHT (snapshot_leaves snapshot)).
Proof.
  intros Hc He Hp. destruct (event_leaf _ _ _ _ Hc He) as [_ Hr]. unfold honest_global, global_index. cbn [gp_proof].
  replace (Z.of_nat (cv_position c) * 2 ^ 40) with (Z.shiftl (Z.of_nat (cv_position c)) (Z.of_nat (proof_height (lp_proof (honest_local c e))))).
  2:{ rewrite Z.shiftl_mul_pow2 by lia. unfold proof_height, honest_local. cbn [lp_proof siblings]. rewrite length_spec_path. reflexivity. }
  assert (proof_height (lp_proof (honest_local c e)) = 40%nat) as Hh by apply length_spec_path.
  rewrite extend_get_root; rewrite ?Hh; [|unfold proof_height; cbn [siblings]; rewrite length_spec_path; unfold AGGREGATION_TREE_HEIGHT; lia
    | exact Hr | lia].
  rewrite (local_opens s snapshot) by done. cbn [mbind option_bind]. rewrite <- (position_slot s snapshot) by done.
  rewrite proof_get_root_path by (cbn [siblings]; rewrite length_spec_path; unfold AGGREGATION_TREE_HEIGHT; lia).
  cbn [siblings]. apply f_equal, spec_path_opens. change (2 ^ Z.of_nat AGGREGATION_TREE_HEIGHT) with 64. lia.
Qed.

Lemma global_proof_honest s snapshot c e :
  honest_chain s snapshot c -> e ∈ cv_events c -> (cv_position c < 64)%nat ->
  u256_to_fr (aggregation_root s) = spec_root AGGREGATION_TREE_HEIGHT (snapshot_leaves snapshot) ->
  global_proof s (Z.of_nat (cv_position c))
    (mkMerkleProof (spec_path (snapshot_leaves snapshot) 0 AGGREGATION_TREE_HEIGHT (Z.of_nat (cv_position c)))) (honest_local c e)
  = Ok (honest_global snapshot c e).
Proof.
  intros Hc He Hp Hroot. destruct (event_leaf _ _ _ _ Hc He) as [_ Hr]. unfold global_proof.
  assert (u64_add (as_u64 (Z.shiftl (Z.of_nat (cv_position c)) (Z.of_nat TRANSFER_TREE_HEIGHT)))
            (ie_event_index (lp_event (honest_local c e))) = global_index c e) as ->.
  { unfold global_index, u64_add. cbn [honest_local lp_event]. rewrite Z.shiftl_mul_pow2 by lia.
    change (Z.of_nat TRANSFER_TREE_HEIGHT) with 40. rewrite as_u64_id by (unfold in_u64; lia). apply Z.mod_small. lia. }
  change (lp_event (honest_local c e)) with e.
  pose proof (honest_global_opens s snapshot c e Hc He Hp) as Ho. unfold honest_global in Ho. cbn [gp_proof] in Ho.
  rewrite Ho. cbn [ok_or mbind result_bind]. rewrite Hroot, Z.eqb_refl. reflexivity.
Qed.

Lemma global_proofs_of_chain_honest s snapshot c :
  state_of_snapshot s snapshot -> (length snapshot <= 64)%nat -> honest_chain s snapshot c ->
  global_proofs_of_chain s
    (te_chain_id (cv_token c), sort_by_key (fun w => ie_event_index (lp_event w)) (honest_local c <$> cv_events c))
  = Ok (honest_global snapshot c <$> sort_by_key ie_event_index (cv_events c)).
Proof.
  intros Hs Hl Hc. assert (cv_position c < 64)%nat as Hp.
  { pose proof (lookup_lt_Some _ _ _ (hc_slot _ _ _ Hc)). lia. }
  unfold global_proofs_of_chain. cbn [fst snd]. rewrite (hc_position _ _ _ Hc). cbn [ok_or mbind result_bind].
  rewrite (prove_spec _ _ _ (ss_tree _ _ Hs)); rewrite (ss_height _ _ Hs);
    [|change (2 ^ Z.of_nat AGGREGATION_TREE_HEIGHT) with 64; lia].
  cbn [ok_or mbind result_bind]. rewrite sort_by_key_fmap. apply map_result_fmap. intros e He.
  apply global_proof_honest; [done| |done|apply (ss_root _ _ Hs)].
  rewrite sort_by_key_perm in He. exact He.
Qed.

Lemma honest_pipeline s snapshot cs :
  state_of_snapshot s snapshot -> (length snapshot <= 64)%nat -> Forall (honest_chain s snapshot) cs ->
  exists locals, map_result fetch_chain cs = Ok locals
    /\ generate_global_teleport_merkle_proofs s locals
       = Ok (sort_by_key gp_leaf_index (concat ((fun c => honest_global snapshot c <$> sort_by_key ie_event_index (cv_events c)) <$> cs))).
Proof.
  intros Hs Hl Hcs. rewrite Forall_forall in Hcs.
  exists ((fun c => (te_chain_id (cv_token c), sort_by_key (fun w => ie_event_index (lp_event w)) (honest_local c <$> cv_events c))) <$> cs).
  split.
  - rewrite <- (list_fmap_id cs) at 1. apply map_result_fmap. intros c Hc. by apply (fetch_chain_ok s snapshot), Hcs.
  - unfold generate_global_teleport_merkle_proofs.
    rewrite (map_result_fmap _ _ (fun c => honest_global snapshot c <$> sort_by_key ie_event_index (cv_events c))); [reflexivity|].
    intros c Hc. apply global_proofs_of_chain_honest; [done..|]. by apply Hcs.
Qed.

Lemma honest_globals_perm snapshot cs {B} (f : GlobalTeleportMerkleProof -> B) :
  f <$> sort_by_key gp_leaf_index (concat ((fun c => honest_global snapshot c <$> sort_by_key ie_event_index (cv_events c)) <$> cs))
  ≡ₚ concat ((fun c => (fun e => f (honest_global snapshot c e)) <$> cv_events c) <$> cs).
Proof.
  rewrite sort_by_key_perm. induction cs as [|c cs IH]; [done|]. cbn [fmap list_fmap concat].
  rewrite fmap_app, <- list_fmap_compose. apply Permutation_app; [|exact IH]. by rewrite sort_by_key_perm.
Qed.

(** On honest services every eligible burn gets a proof the withdraw circuit
    accepts: when the aggregation state describes the hub's snapshot and each chain's
    indexer serves proofs from a database that represents the chain's transfers, the
    client's whole pipeline succeeds for any number of chains, returns exactly one
    proof per event, at the index [position * 2^40 + event_index] below 2^46, of 46
    siblings that recompute the aggregation root from the event's leaf, and when no
    event is listed twice the indices are strictly increasing, as the circuit demands. *)
Theorem honest_teleport_complete s snapshot cs :
  state_of_snapshot s snapshot -> (length snapshot <= 64)%nat -> Forall (honest_chain s snapshot) cs ->
  exists locals gs, map_result fetch_chain cs = Ok locals
    /\ generate_global_teleport_merkle_proofs s locals = Ok gs
    /\ ((fun g => (gp_event g, gp_leaf_index g)) <$> gs)
       ≡ₚ concat ((fun c => (fun e => (e, global_index c e)) <$> cv_events c) <$> cs)
    /\ Forall (fun g => length (siblings (gp_proof g)) = GLOBAL_TRANSFER_TREE_HEIGHT /\ 0 <= gp_leaf_index g < 2 ^ 46
         /\ path_root (event_leaf_hash (gp_event g)) (gp_leaf_index g) (siblings (gp_proof g))
            = u256_to_fr (aggregation_root s)) gs
    /\ (NoDup (concat ((fun c => global_index c <$> cv_events c) <$> cs)) -> StronglySorted Z.lt (gp_leaf_index <$> gs)).
Proof.
  intros Hs Hl Hcs. destruct (honest_pipeline s snapshot cs Hs Hl Hcs) as (locals & H1 & H2).
  eexists locals, _. split_and!; [exact H1 | exact H2 | | |].
  - apply (honest_globals_perm snapshot cs (fun g => (gp_event g, gp_leaf_index g))).
  - rewrite sort_by_key_perm. apply Forall_concat, Forall_fmap, Forall_forall. intros c Hc. cbn.
    rewrite sort_by_key_perm. apply Forall_fmap, Forall_forall. intros e He. rewrite Forall_forall in Hcs. specialize (Hcs c Hc).
    assert (cv_position c < 64)%nat as Hp by (pose proof (lookup_lt_Some _ _ _ (hc_slot _ _ _ Hcs)); lia).
    pose proof (honest_global_opens s snapshot c e Hcs He Hp) as Ho. destruct (event_leaf _ _ _ _ Hcs He) as [_ Hr].
    assert (length (siblings (gp_proof (honest_global snapshot c e))) = GLOBAL_TRANSFER_TREE_HEIGHT) as Hlen.
    { unfold honest_global, honest_local. cbn [gp_proof extend lp_proof siblings]. rewrite length_app, !length_spec_path. reflexivity. }
    rewrite proof_get_root_path in Ho by (rewrite Hlen; unfold GLOBAL_TRANSFER_TREE_HEIGHT, TRANSFER_TREE_HEIGHT, AGGREGATION_TREE_HEIGHT; lia).
    cbn [compose]. split_and!; [exact Hlen | unfold honest_global, global_index; cbn [gp_leaf_index]; lia.. |].
    rewrite (ss_root _ _ Hs). apply (inj Some). exact Ho.
  - intros Hnd. apply sorted_strict; [apply sort_by_key_sorted|]. rewrite honest_globals_perm. exact Hnd.
Qed.
End honest.

(** ** Witnesses *)

Section witnesses.
#[local] Existing Instance toy_crypto.
#[local] Existing Instance toy_crypto_laws.

(** A hub with broadcasts in blocks 3 and 12, searched two blocks at a time. *)
Definition toy_agg_log : list (Z * AggregationRootUpdatedEvent) := [(3, mkAggEvent 70 1 [] []); (12, mkAggEvent 71 2 [] [])].
Definition toy_hub_node : HubNode := {|
  hub_latest_block := Ok 20;
  hub_aggregation_root_events := fun a b => Ok (filter (fun x => a <= x.1 <= b) toy_agg_log).*2;
  hub_chain_ids := Ok [1];
|}.
#[local] Existing Instance toy_hub_node.

Lemma toy_serves_log : serves_log toy_hub_node 20 toy_agg_log.
Proof. split; cbn; try done; try lia; repeat constructor; cbn; lia. Qed.

Lemma find_aggregation_event_complete_witness :
  match find_aggregation_event 11 1 2 with
  | Ok e => exists b before after, toy_agg_log = before ++ (b, e) :: after /\ ag_agg_seq e = 1
            /\ Forall (fun x => ag_agg_seq x.2 <> 1) after
  | Err msg => msg = "Aggregation event not found"%string /\ Forall (fun x => ag_agg_seq x.2 <> 1) toy_agg_log
  end /\ find_aggregation_event 11 1 2 = Ok (mkAggEvent 70 1 [] []).
Proof. split; [apply (find_aggregation_event_complete 20); [apply toy_serves_log | lia | by vm_compute] | by vm_compute]. Defined.

(** One burn, its tree in the indexer's database, and the aggregation of its root. *)
Definition toy_cv_event : IndexedEvent := mkIndexedEvent 0 1 3 10 5.
Definition toy_cv_created : Db * result DbMerkleTreeError DbIncrementalMerkleTree :=
  DbTree_new 1 40 (mkDbMerkleTreeConfig 1) toy_db.
Definition toy_cv_tree : DbIncrementalMerkleTree :=
  match toy_cv_created.2 with Ok t => t | Err _ => toy_handle end.
Definition toy_cv_db : Db := (append_leaf toy_cv_tree 3 10 toy_cv_created.1).1.
Definition toy_cv : ChainView :=
  mkChainView (mkTokenEntry "z" 77 78 None 1 0 [] false) toy_cv_tree toy_cv_db [mkLeaf 3 10] 1 0 [toy_cv_event].
Definition toy_cv_indexer : IndexerClient := {|
  client_events_by_recipient := fun _ _ _ _ => Ok [toy_cv_event];
  client_prove_many := fun _ _ target leafs =>
    match (prove_many toy_cv_tree target leafs toy_cv_db).2 with
    | Ok ps => Ok (api_proof <$> ps)
    | Err _ => Err "proof endpoint failed"%string
    end;
|}.
#[local] Existing Instance toy_cv_indexer.
Definition toy_cv_root : Z := history_root TRANSFER_TREE_HEIGHT [mkLeaf 3 10].
Definition toy_cv_state : AggregationTreeState :=
  mkAggregationTreeState 1 (spec_root AGGREGATION_TREE_HEIGHT (snapshot_leaves [toy_cv_root]))
    (default (MerkleTree_new 0) (fill_tree (MerkleTree_new AGGREGATION_TREE_HEIGHT) 0 [toy_cv_root])) [1] [1].

Lemma toy_cv_facts :
  tree_repr toy_cv_tree toy_cv_db [mkLeaf 3 10] /\ dt_height toy_cv_tree = TRANSFER_TREE_HEIGHT /\ dt_history_window toy_cv_tree = 1.
Proof.
  destruct (DbTree_new_spec 1 40 1 toy_db) as (t & d & Hn & _ & Hh & Hw & Hr); [lia|lia|lia|by eexists|by repeat split|].
  unfold toy_cv_db, toy_cv_tree, toy_cv_created. rewrite Hn. cbn [fst snd].
  destruct (append_leaf_spec t d [] 3 10 Hr) as (d' & Ha & Hr' & _); [rewrite Hh; by vm_compute|].
  rewrite Ha. split; [exact Hr'|]. by split.
Qed.

Lemma toy_cv_state_ok : state_of_snapshot toy_cv_state [toy_cv_root].
Proof.
  destruct (aggregation_tree_spec [toy_cv_root]) as (t & Ht & Hh & Hr); [cbn; lia|].
  split; cbn [toy_cv_state aggregation_tree aggregation_root]; [by rewrite Ht | by rewrite Ht|].
  apply u256_to_fr_id, spec_node_fr, snapshot_leaves_fr.
Qed.

Lemma toy_cv_honest : honest_chain toy_cv_state [toy_cv_root] toy_cv.
Proof.
  destruct toy_cv_facts as (H1 & H2 & H3).
  split; cbn [toy_cv cv_tree cv_db cv_leaves cv_index cv_position cv_token cv_events te_chain_id te_token_address].
  - exact H1.
  - exact H2.
  - cbn. lia.
  - rewrite H3. cbn. lia.
  - intros leafs proofs Hp. unfold client_prove_many, toy_cv_indexer. by rewrite Hp.
  - reflexivity.
  - reflexivity.
  - constructor; [|constructor]. cbn. split; [lia | reflexivity].
Qed.

Lemma honest_teleport_complete_witness :
  exists locals gs, map_result fetch_chain [toy_cv] = Ok locals
    /\ generate_global_teleport_merkle_proofs toy_cv_state locals = Ok gs
    /\ ((fun g => (gp_event g, gp_leaf_index g)) <$> gs) ≡ₚ [(toy_cv_event, 0)]
    /\ Forall (fun g => length (siblings (gp_proof g)) = GLOBAL_TRANSFER_TREE_HEIGHT /\ 0 <= gp_leaf_index g < 2 ^ 46
         /\ path_root (event_leaf_hash (gp_event g)) (gp_leaf_index g) (siblings (gp_proof g))
            = u256_to_fr (aggregation_root toy_cv_state)) gs
    /\ (NoDup [0] -> StronglySorted Z.lt (gp_leaf_index <$> gs)).
Proof.
  apply (honest_teleport_complete toy_cv_state [toy_cv_root] [toy_cv]); [apply toy_cv_state_ok | cbn; lia |].
  constructor; [apply toy_cv_honest | constructor].
Defined.

(** A leaf directly under an aggregation tree whose root it is. *)
Definition toy_local : LocalTeleportMerkleProof := mkLocalProof 1 toy_cv_event (mkMerkleProof []).
Definition toy_small_state : AggregationTreeState :=
  mkAggregationTreeState 1 (event_leaf_hash toy_cv_event) (MerkleTree_new 0) [1] [1].

Lemma global_proofs_sound_witness :
  let gs := [mkGlobalProof toy_cv_event (mkMerkleProof []) 0] in
  generate_global_teleport_merkle_proofs toy_small_state [(1, [toy_local])] = Ok gs
  /\ StronglySorted (fun a b => gp_leaf_index a <= gp_leaf_index b) gs
  /\ (gp_event <$> gs) ≡ₚ (lp_event <$> concat [(1, [toy_local])].*2)
  /\ Forall (fun g => proof_get_root (gp_proof g) (event_leaf_hash (gp_event g)) (gp_leaf_index g)
                      = Some (u256_to_fr (aggregation_root toy_small_state))) gs.
Proof.
  split; [by vm_compute|]. apply (global_proofs_sound toy_small_state [(1, [toy_local])]). by vm_compute.
Defined.
End witnesses.
