(* ===== verification/Hub.v ===== *)
(** The aggregation hub: [contracts/src/Hub.sol] with
    [utils/PoseidonAggregationLib.sol], and the event types and receipt parsers of
    [client-common/src/contracts/hub.rs].

    The Poseidon library of the contracts ([PoseidonT3]) and the LayerZero endpoint
    are external.  Arrays are lists, an index out of range reverts ([HubPanic]), and
    the library's loops work in place as the source does. *)

From S2P Require Import Prelude Words Crypto BitPaths MerkleTrees Gadgets Circuits Database OnChain Events Leases Jobs Teleport.
Local Open Scope Z_scope.

Class PoseidonT3 := { PoseidonT3_hash : Z -> Z -> Z }.

(** ** [PoseidonAggregationLib.sol] *)

Definition POSEIDON_TREE_HEIGHT : nat := 6.
Definition POSEIDON_MAX_LEAVES : Z := 2 ^ Z.of_nat POSEIDON_TREE_HEIGHT.

Section aggregation.
Context {P : PoseidonT3}.

Definition hashPair (left right : Z) : Z := PoseidonT3_hash left right.

(** The loop of [generateZeroHashes], from the last entry written. *)
Fixpoint zero_hashes_loop (n : nat) (acc : list Z) (last : Z) : list Z :=
  match n with
  | O => acc
  | S n' => let h := hashPair last last in zero_hashes_loop n' (acc ++ [h]) h
  end.
Definition generateZeroHashes : list Z := zero_hashes_loop POSEIDON_TREE_HEIGHT [0] 0.

(** The inner [for] loop: [n] iterations from [i]. *)
Fixpoint hash_level (n : nat) (i count depth : nat) (leaves zeroHash : list Z) : option (list Z) :=
  match n with
  | O => Some leaves
  | S n' =>
    left ← leaves !! (2 * i)%nat;
    right ← (if (2 * i + 1 <? count)%nat then leaves !! (2 * i + 1)%nat else zeroHash !! depth);
    hash_level n' (S i) count depth (<[i := hashPair left right]> leaves) zeroHash
  end.

(** The [while] loop; [count] halves, so [length leaves] rounds are enough. *)
Fixpoint reduce_levels (fuel : nat) (count depth : nat) (leaves zeroHash : list Z) : option (nat * list Z) :=
  match fuel with
  | O => if (1 <? count)%nat then None else Some (depth, leaves)
  | S fuel' =>
    if (1 <? count)%nat then
      let nextCount := ((count + 1) / 2)%nat in
      leaves' ← hash_level nextCount 0 count depth leaves zeroHash;
      reduce_levels fuel' nextCount (S depth) leaves' zeroHash
    else Some (depth, leaves)
  end.

(** The last loop: [d] from [depth] below the tree height. *)
Fixpoint pad_root (n d : nat) (root : Z) (zeroHash : list Z) : option Z :=
  match n with
  | O => Some root
  | S n' => z ← zeroHash !! d; pad_root n' (S d) (hashPair root z) zeroHash
  end.

Definition computeAggregationRoot (leaves zeroHash : list Z) : option Z :=
  let count := length leaves in
  if (count =? 0)%nat then zeroHash !! POSEIDON_TREE_HEIGHT
  else
    '(depth, leaves') ← reduce_levels count count 0 leaves zeroHash;
    root ← leaves' !! 0%nat;
    pad_root (POSEIDON_TREE_HEIGHT - depth) depth root zeroHash.
End aggregation.

(** ** [Hub.sol] *)

Record TokenInfo := mkTokenInfo {
  ti_chainId : Z;
  ti_eid : Z;
  ti_verifier : Z;
  ti_token : Z;
}.

Record Hub := mkHub {
  transferRoots : list Z;
  transferTreeIndices : list Z;
  tokenInfos : list TokenInfo;
  eidToPosition : gmap Z Z;
  zeroHash : list Z;
  aggSeq : Z;
  hub_isUpToDate : bool;
}.

Inductive HubRevert :=
| HubCapacityReached
| TokenAlreadyRegistered (eid : Z)
| TokenNotRegistered (eid : Z)
| ZeroVerifier
| ZeroToken
| InvalidChainId
| InvalidPayloadLength (length : Z)
| NativeFeeMismatch (provided required : Z)
| LayerZeroTokenFeeUnsupported (eid lzTokenFee : Z)
| FeeRefundFailed (amount : Z)
| HubLzReverted
| HubPanic.

Inductive HubEvent :=
| TokenRegistered (eid index chainId token verifier : Z)
| TokenUpdated (eid index chainId token verifier : Z)
| TransferRootUpdated (eid index newRoot : Z)
| AggregationRootUpdated (root aggSeq : Z) (snapshot indices : list Z).

Definition hub_require (c : bool) (e : HubRevert) : result HubRevert unit := if c then Ok tt else Err e.

Section hub.
Context {P : PoseidonT3}.

(** [__Hub_init]. *)
Definition Hub_init : Hub := mkHub [] [] [] ∅ generateZeroHashes 0 true.

Definition registerToken (info : TokenInfo) (h : Hub) : result HubRevert (Hub * list HubEvent) :=
  _ ← hub_require (negb (ti_verifier info =? 0)) ZeroVerifier;
  _ ← hub_require (negb (ti_token info =? 0)) ZeroToken;
  _ ← hub_require (negb (ti_chainId info =? 0)) InvalidChainId;
  _ ← hub_require (slot (eidToPosition h) (ti_eid info) =? 0) (TokenAlreadyRegistered (ti_eid info));
  _ ← hub_require (Z.of_nat (length (transferRoots h)) <? POSEIDON_MAX_LEAVES) HubCapacityReached;
  let index := Z.of_nat (length (transferRoots h)) in
  Ok (mkHub (transferRoots h ++ [0]) (transferTreeIndices h ++ [0]) (tokenInfos h ++ [info])
        (<[ti_eid info := index + 1]> (eidToPosition h)) (zeroHash h) (aggSeq h) false,
      [TokenRegistered (ti_eid info) index (ti_chainId info) (ti_token info) (ti_verifier info)]).

Definition updateToken (info : TokenInfo) (h : Hub) : result HubRevert (Hub * list HubEvent) :=
  _ ← hub_require (negb (ti_verifier info =? 0)) ZeroVerifier;
  _ ← hub_require (negb (ti_token info =? 0)) ZeroToken;
  _ ← hub_require (negb (ti_chainId info =? 0)) InvalidChainId;
  let pos := slot (eidToPosition h) (ti_eid info) in
  _ ← hub_require (negb (pos =? 0)) (TokenNotRegistered (ti_eid info));
  let index := pos - 1 in
  _ ← hub_require (index <? Z.of_nat (length (tokenInfos h))) HubPanic;
  Ok (mkHub (transferRoots h) (transferTreeIndices h) (<[Z.to_nat index := info]> (tokenInfos h))
        (eidToPosition h) (zeroHash h) (aggSeq h) (hub_isUpToDate h),
      [TokenUpdated (ti_eid info) index (ti_chainId info) (ti_token info) (ti_verifier info)]).

Record BroadcastContext := mkBroadcastContext {
  bc_snapshot : list Z;
  bc_indices : list Z;
  bc_aggregationRoot : Z;
  bc_nextAggSeq : Z;
  bc_payload : bytes;
}.

(** The loop reads [transferTreeIndices] at every position of [transferRoots]. *)
Definition computeBroadcastContext (h : Hub) : result HubRevert BroadcastContext :=
  _ ← hub_require (length (transferRoots h) <=? length (transferTreeIndices h))%nat HubPanic;
  root ← ok_or HubPanic (computeAggregationRoot (transferRoots h) (zeroHash h));
  _ ← hub_require (aggSeq h <? u64_max) HubPanic;
  let next := aggSeq h + 1 in
  Ok (mkBroadcastContext (transferRoots h) (take (length (transferRoots h)) (transferTreeIndices h)) root next
        (abi_encode_words [root; next])).

(** [_quoteBroadcast]: the fees per target and their sum. *)
Fixpoint quote_targets {L : Endpoint} (h : Hub) (payload options : bytes) (targetEids : list Z) (total : Z)
  : result HubRevert (list Z * Z) :=
  match targetEids with
  | [] => Ok ([], total)
  | eid :: rest =>
    _ ← hub_require (negb (slot (eidToPosition h) eid =? 0)) (TokenNotRegistered eid);
    fee ← ok_or HubLzReverted (lz_quote eid payload options);
    _ ← hub_require (fee.2 =? 0) (LayerZeroTokenFeeUnsupported eid fee.2);
    _ ← hub_require (total + fee.1 <=? u256_max) HubPanic;
    '(fees, sum) ← quote_targets h payload options rest (total + fee.1);
    Ok (fee.1 :: fees, sum)
  end.

Definition quoteBroadcast {L : Endpoint} (targetEids : list Z) (lzOptions : bytes) (h : Hub) : result HubRevert Z :=
  '(_, total) ← quote_targets h (abi_encode_words [0; 1]) lzOptions targetEids 0;
  Ok total.

(** The sends, each with its quoted fee; the messages leave in order. *)
Fixpoint send_targets {L : Endpoint} (payload options : bytes) (targets : list (Z * Z)) : result HubRevert (list (Z * bytes)) :=
  match targets with
  | [] => Ok []
  | (eid, fee) :: rest =>
    _ ← ok_or HubLzReverted (lz_send eid payload options fee);
    sent ← send_targets payload options rest;
    Ok ((eid, payload) :: sent)
  end.

(** [broadcast]: [refund_ok] says whether the caller accepts the refund. *)
Definition broadcast {L : Endpoint} (targetEids : list Z) (lzOptions : bytes) (msg_value : Z) (refund_ok : bool) (h : Hub)
  : result HubRevert (Hub * list HubEvent * list (Z * bytes)) :=
  ctx ← computeBroadcastContext h;
  '(fees, totalNativeFee) ← quote_targets h (bc_payload ctx) lzOptions targetEids 0;
  _ ← hub_require (negb (msg_value <? totalNativeFee)) (NativeFeeMismatch msg_value totalNativeFee);
  let refund := msg_value - totalNativeFee in
  sent ← send_targets (bc_payload ctx) lzOptions (zip targetEids fees);
  _ ← hub_require ((refund =? 0) || refund_ok) (FeeRefundFailed refund);
  Ok (mkHub (transferRoots h) (transferTreeIndices h) (tokenInfos h) (eidToPosition h) (zeroHash h) (bc_nextAggSeq ctx) true,
      [AggregationRootUpdated (bc_aggregationRoot ctx) (bc_nextAggSeq ctx) (bc_snapshot ctx) (bc_indices ctx)],
      sent).

Definition getTokenInfos (h : Hub) : list TokenInfo := tokenInfos h.
Definition getTransferRootsAndIndices (h : Hub) : result HubRevert (list Z * list Z) :=
  _ ← hub_require (length (transferRoots h) <=? length (transferTreeIndices h))%nat HubPanic;
  Ok (transferRoots h, take (length (transferRoots h)) (transferTreeIndices h)).

(** [_lzReceive] of the hub. *)
Definition hub_lzReceive (srcEid : Z) (payload : bytes) (h : Hub) : result HubRevert (Hub * list HubEvent) :=
  let pos := slot (eidToPosition h) srcEid in
  _ ← hub_require (negb (pos =? 0)) (TokenNotRegistered srcEid);
  _ ← hub_require (length payload =? 64)%nat (InvalidPayloadLength (Z.of_nat (length payload)));
  let transferRoot := word (abi_words 2 payload) 0 in
  let transferTreeIndex := word (abi_words 2 payload) 1 in
  _ ← hub_require (transferTreeIndex <=? u64_max) HubPanic;
  let index := Z.to_nat (pos - 1) in
  currentTreeIndex ← ok_or HubPanic (transferTreeIndices h !! index);
  if transferTreeIndex <=? currentTreeIndex then Ok (h, [])
  else
    _ ← hub_require (index <? length (transferRoots h))%nat HubPanic;
    Ok (mkHub (<[index := transferRoot]> (transferRoots h)) (<[index := transferTreeIndex]> (transferTreeIndices h))
          (tokenInfos h) (eidToPosition h) (zeroHash h) (aggSeq h) false,
        [TransferRootUpdated srcEid (pos - 1) transferRoot]).
End hub.

(** ** [contracts/hub.rs]: the first log that decodes as the event *)

Fixpoint parse_aggregation_root_updated (logs : list HubEvent) : option AggregationRootUpdatedEvent :=
  match logs with
  | [] => None
  | AggregationRootUpdated root seq snapshot indices :: _ => Some (mkAggEvent root seq snapshot indices)
  | _ :: rest => parse_aggregation_root_updated rest
  end.
Fixpoint parse_transfer_root_updated (logs : list HubEvent) : option (Z * Z * Z) :=
  match logs with
  | [] => None
  | TransferRootUpdated eid index newRoot :: _ => Some (eid, uint256_as_u64 index, newRoot)
  | _ :: rest => parse_transfer_root_updated rest
  end.
Fixpoint parse_token_registered (logs : list HubEvent) : option (Z * Z * Z * Z * Z) :=
  match logs with
  | [] => None
  | TokenRegistered eid index chainId token verifier :: _ => Some (eid, uint256_as_u64 index, chainId, token, verifier)
  | _ :: rest => parse_token_registered rest
  end.
Fixpoint parse_token_updated (logs : list HubEvent) : option (Z * Z * Z * Z * Z) :=
  match logs with
  | [] => None
  | TokenUpdated eid index chainId token verifier :: _ => Some (eid, uint256_as_u64 index, chainId, token, verifier)
  | _ :: rest => parse_token_updated rest
  end.
