(* ===== verification/HubSpec.v ===== *)
(** The hub contract is correct: its in-place aggregation computes the Merkle root of
    the transfer roots, and its storage stays consistent ([contracts/src/Hub.sol],
    [utils/PoseidonAggregationLib.sol]). *)

From S2P Require Import Prelude Words Crypto BitPaths MerkleTrees Gadgets Circuits Database OnChain Events Leases Jobs Teleport Hub.
Local Open Scope Z_scope.

(** The contracts' Poseidon is the circuits' Poseidon on field elements. *)
Class PoseidonT3Laws (C : Crypto) (P : PoseidonT3) : Prop :=
  { PoseidonT3_spec : forall a b, is_fr a -> is_fr b -> PoseidonT3_hash a b = poseidon2 a b }.

Section aggregation.
Context {C : Crypto} {HC : CryptoLaws C} {P : PoseidonT3} {HP : PoseidonT3Laws C P}.

Lemma hashPair_eq a b : is_fr a -> is_fr b -> hashPair a b = poseidon2 a b.
Proof. apply PoseidonT3_spec. Qed.

Definition zero_node_at (k : nat) : Z := spec_node (fun _ => 0) k 0.

Lemma zero_node_fr k : is_fr (zero_node_at k).
Proof. apply spec_node_fr. intros j. by vm_compute. Qed.

Lemma zero_node_succ k : zero_node_at (S k) = poseidon2 (zero_node_at k) (zero_node_at k).
Proof.
  unfold zero_node_at. cbn [spec_node]. by rewrite (spec_node_zero k (2 * 0)), (spec_node_zero k (2 * 0 + 1)).
Qed.

Lemma zero_hashes_loop_lookup n : forall k acc,
  length acc = S k -> (forall j, (j <= k)%nat -> acc !! j = Some (zero_node_at j)) ->
  forall j, (j <= k + n)%nat -> zero_hashes_loop n acc (zero_node_at k) !! j = Some (zero_node_at j).
Proof.
  induction n as [|n IH]; intros k acc Hl Hacc j Hj; cbn [zero_hashes_loop]; [apply Hacc; lia|].
  rewrite hashPair_eq, <- zero_node_succ by apply zero_node_fr.
  apply (IH (S k)); [rewrite length_app; cbn; lia | | lia].
  intros i Hi. destruct (decide (i = S k)) as [->|].
  - by rewrite <- Hl, list_lookup_middle.
  - rewrite lookup_app_l by lia. apply Hacc. lia.
Qed.

Lemma generateZeroHashes_lookup j : (j <= POSEIDON_TREE_HEIGHT)%nat -> generateZeroHashes !! j = Some (zero_node_at j).
Proof.
  intros Hj. unfold generateZeroHashes. change 0 with (zero_node_at 0) at 2.
  apply (zero_hashes_loop_lookup _ 0); [done| |lia]. intros i Hi. by replace i with 0%nat by lia.
Qed.

(** Nodes above the leaves only are zero nodes. *)
Lemma leaf_fun_node_beyond l k i :
  Z.of_nat (length l) <= i * 2 ^ Z.of_nat k -> 0 <= i -> spec_node (leaf_fun l) k i = zero_node_at k.
Proof.
  intros Hl Hi. unfold zero_node_at. rewrite <- (spec_node_zero k i). apply spec_node_ext. intros j Hj.
  unfold leaf_fun. if_case E; [done|]. by rewrite lookup_ge_None_2 by lia.
Qed.

Context (l : list Z) (zs : list Z).
Hypothesis l_fr : Forall is_fr l.
Hypothesis zs_ok : forall j, (j <= POSEIDON_TREE_HEIGHT)%nat -> zs !! j = Some (zero_node_at j).

Let node (k : nat) (i : nat) : Z := spec_node (leaf_fun l) k (Z.of_nat i).

Lemma node_fr k i : is_fr (node k i).
Proof.
  unfold node. apply spec_node_fr. intros j. unfold leaf_fun. assert (is_fr 0) by by vm_compute. if_case E; [done|].
  destruct (l !! _) as [x|] eqn:Ex; cbn; [|done]. by eapply Forall_lookup_1.
Qed.

Lemma node_succ k i : node (S k) i = poseidon2 (node k (2 * i)) (node k (2 * i + 1)).
Proof. unfold node. cbn [spec_node]. do 2 f_equal; lia. Qed.

(** The inner loop: entries before [i] hold the next level, the others the current one. *)
Lemma hash_level_spec n : forall i count depth a,
  (depth <= POSEIDON_TREE_HEIGHT)%nat -> (count <= length a)%nat -> (2 * (i + n) <= count + 1)%nat ->
  Z.of_nat (length l) <= Z.of_nat count * 2 ^ Z.of_nat depth ->
  (forall j, (j < i)%nat -> a !! j = Some (node (S depth) j)) ->
  (forall j, (i <= j < count)%nat -> a !! j = Some (node depth j)) ->
  exists a', hash_level n i count depth a zs = Some a' /\ length a' = length a
    /\ forall j, (j < i + n)%nat -> a' !! j = Some (node (S depth) j).
Proof.
  induction n as [|n IH]; intros i count depth a Hd Hc Hn Hl Hlow Hhigh; cbn [hash_level].
  { exists a. split_and!; [done..|]. intros j Hj. apply Hlow. lia. }
  rewrite (Hhigh (2 * i)%nat) by lia. cbn [mbind option_bind].
  assert ((if (2 * i + 1 <? count)%nat then a !! (2 * i + 1)%nat else zs !! depth) = Some (node depth (2 * i + 1))) as ->.
  { destruct (Nat.ltb_spec (2 * i + 1) count); [apply Hhigh; lia|]. rewrite zs_ok by done. f_equal. symmetry.
    apply leaf_fun_node_beyond; [|lia]. nia. }
  cbn [mbind option_bind]. rewrite hashPair_eq, <- node_succ by apply node_fr.
  destruct (IH (S i) count depth (<[i := node (S depth) i]> a)) as (a' & Ha & Hla & Hj); try done.
  - by rewrite length_insert.
  - lia.
  - intros j Hj. destruct (decide (j = i)) as [->|].
    + apply list_lookup_insert_eq. lia.
    + rewrite list_lookup_insert_ne by done. apply Hlow. lia.
  - intros j Hj. rewrite list_lookup_insert_ne by lia. apply Hhigh. lia.
  - exists a'. rewrite length_insert in Hla. split_and!; [done..|]. intros j Hlt. apply Hj. lia.
Qed.

Lemma pow_succ_nat k : 2 ^ Z.of_nat (S k) = 2 * 2 ^ Z.of_nat k.
Proof. rewrite Nat2Z.inj_succ, Z.pow_succ_r by lia. done. Qed.

Lemma reduce_levels_spec fuel : forall count depth a,
  (1 <= count <= S fuel)%nat -> (count <= length a)%nat -> (length l <= 64)%nat -> (depth <= POSEIDON_TREE_HEIGHT)%nat ->
  (Z.of_nat count - 1) * 2 ^ Z.of_nat depth < Z.of_nat (length l) <= Z.of_nat count * 2 ^ Z.of_nat depth ->
  (forall j, (j < count)%nat -> a !! j = Some (node depth j)) ->
  exists d a', reduce_levels fuel count depth a zs = Some (d, a') /\ (d <= POSEIDON_TREE_HEIGHT)%nat
    /\ Z.of_nat (length l) <= 2 ^ Z.of_nat d /\ a' !! 0%nat = Some (node d 0).
Proof.
  induction fuel as [|fuel IH]; intros count depth a Hf Hc Hl Hd Hb Ha; cbn [reduce_levels].
  { replace count with 1%nat in * by lia. cbn. exists depth, a. split_and!; [done | done | lia | apply Ha; lia]. }
  destruct (Nat.ltb_spec 1 count) as [Hlt|Hge].
  2:{ replace count with 1%nat in * by lia. exists depth, a. split_and!; [done | done | lia | apply Ha; lia]. }
  pose proof (Nat.div_mod_eq (count + 1) 2). pose proof (Nat.mod_upper_bound (count + 1) 2 ltac:(lia)).
  set (next := ((count + 1) / 2)%nat) in *. cbv zeta.
  destruct (hash_level_spec next 0 count depth a) as (a' & -> & Hla & Ha'); try done; try lia.
  { intros j Hj. apply Ha. lia. }
  cbn [mbind option_bind]. assert (2 ^ Z.of_nat depth < 64) as Hp by nia.
  assert (S depth <= POSEIDON_TREE_HEIGHT)%nat as Hd'.
  { unfold POSEIDON_TREE_HEIGHT in *. change 64 with (2 ^ 6) in Hp. apply Z.pow_lt_mono_r_iff in Hp; lia. }
  apply IH; try done; try lia. rewrite pow_succ_nat. nia.
Qed.

Lemma pad_root_spec n : forall d,
  (d + n <= POSEIDON_TREE_HEIGHT)%nat -> Z.of_nat (length l) <= 2 ^ Z.of_nat d ->
  pad_root n d (node d 0) zs = Some (node (d + n) 0).
Proof.
  induction n as [|n IH]; intros d Hd Hl; cbn [pad_root]; [by rewrite Nat.add_0_r|].
  rewrite zs_ok by lia. cbn [mbind option_bind].
  assert (zero_node_at d = node d 1) as ->.
  { symmetry. apply leaf_fun_node_beyond; lia. }
  rewrite hashPair_eq by apply node_fr.
  replace (poseidon2 (node d 0) (node d 1)) with (node (S d) 0) by apply (node_succ d 0).
  rewrite IH; [by replace (S d + n)%nat with (d + S n)%nat by lia | lia|].
  rewrite pow_succ_nat. lia.
Qed.

Lemma computeAggregationRoot_spec :
  (length l <= 64)%nat -> computeAggregationRoot l zs = Some (spec_root POSEIDON_TREE_HEIGHT (leaf_fun l)).
Proof.
  intros Hl. unfold computeAggregationRoot. destruct (Nat.eqb_spec (length l) 0) as [Hz|Hz].
  - rewrite zs_ok by lia. f_equal. symmetry. apply leaf_fun_node_beyond; lia.
  - destruct (reduce_levels_spec (length l) (length l) 0 l) as (d & a' & -> & Hd & Hn & Ha); try lia.
    { intros j Hj. unfold node. cbn [spec_node]. unfold leaf_fun. if_case E; [lia|].
      rewrite Nat2Z.id. destruct (lookup_lt_is_Some_2 l j Hj) as [x ->]. done. }
    cbn [mbind option_bind]. rewrite Ha. cbn [mbind option_bind]. rewrite pad_root_spec by lia.
    replace (d + (POSEIDON_TREE_HEIGHT - d))%nat with POSEIDON_TREE_HEIGHT by lia. reflexivity.
Qed.
End aggregation.

(** ** The storage of the hub *)

Section storage.
Context {P : PoseidonT3} {L : Endpoint}.

(** The arrays are parallel, hold at most 64 entries, and [eidToPosition] is the
    1-based inverse of the list of registered endpoints. *)
Record hub_inv (h : Hub) : Prop := {
  hi_indices : length (transferTreeIndices h) = length (transferRoots h);
  hi_infos : length (tokenInfos h) = length (transferRoots h);
  hi_cap : (length (transferRoots h) <= 64)%nat;
  hi_zero : zeroHash h = generateZeroHashes;
  hi_seq : 0 <= aggSeq h <= u64_max;
  hi_trees : Forall in_u64 (transferTreeIndices h);
  hi_position : forall (i : nat) info, tokenInfos h !! i = Some info -> slot (eidToPosition h) (ti_eid info) = Z.of_nat i + 1;
  hi_registered : forall eid, slot (eidToPosition h) eid <> 0 ->
    exists i info, tokenInfos h !! i = Some info /\ ti_eid info = eid;
}.

Inductive hub_step : Hub -> list HubEvent -> Hub -> Prop :=
| hub_register h info h' logs : registerToken info h = Ok (h', logs) -> hub_step h logs h'
| hub_update h info h' logs : updateToken info h = Ok (h', logs) -> hub_step h logs h'
| hub_broadcast h targets options value refund h' logs sent :
    broadcast targets options value refund h = Ok (h', logs, sent) -> hub_step h logs h'
| hub_receive h src payload h' logs :
    Forall in_u8 payload -> hub_lzReceive src payload h = Ok (h', logs) -> hub_step h logs h'.

Lemma hub_require_ok b e u : hub_require b e = Ok u <-> b = true.
Proof. destruct b, u; cbn; split; congruence. Qed.

(** The position of a registered endpoint. *)
Lemma hub_position h eid :
  hub_inv h -> slot (eidToPosition h) eid <> 0 ->
  exists i info, slot (eidToPosition h) eid = Z.of_nat i + 1 /\ tokenInfos h !! i = Some info /\ ti_eid info = eid
    /\ (i < length (transferRoots h))%nat.
Proof.
  intros Hi Hs. destruct (hi_registered _ Hi eid Hs) as (i & info & Hl & <-). exists i, info.
  split_and!; [by apply (hi_position _ Hi) | done..|]. rewrite <- (hi_infos _ Hi). by eapply lookup_lt_Some.
Qed.

Ltac run_requires H :=
  repeat match type of H with
  | (hub_require _ _ ≫= _) = Ok _ => let R := fresh "R" in apply result_bind_ok in H as ([] & R & H); apply hub_require_ok in R; bool_cases
  end.

Lemma registerToken_ok info h h' logs :
  registerToken info h = Ok (h', logs) ->
  slot (eidToPosition h) (ti_eid info) = 0 /\ (length (transferRoots h) < 64)%nat
  /\ h' = mkHub (transferRoots h ++ [0]) (transferTreeIndices h ++ [0]) (tokenInfos h ++ [info])
        (<[ti_eid info := Z.of_nat (length (transferRoots h)) + 1]> (eidToPosition h)) (zeroHash h) (aggSeq h) false.
Proof.
  unfold registerToken. intros H. run_requires H. injection H as <- <-. unfold POSEIDON_MAX_LEAVES in *.
  split_and!; [done | | done]. change (2 ^ Z.of_nat POSEIDON_TREE_HEIGHT) with 64 in *. lia.
Qed.

Lemma registerToken_inv info h h' logs : hub_inv h -> registerToken info h = Ok (h', logs) -> hub_inv h'.
Proof.
  intros Hi H. apply registerToken_ok in H as (Hfree & Hc & ->).
  pose proof (hi_infos _ Hi). pose proof (hi_indices _ Hi).
  split; cbn [transferRoots transferTreeIndices tokenInfos eidToPosition zeroHash aggSeq]; rewrite ?length_app; cbn [length];
    try lia; try apply Hi.
  - apply Forall_app. split; [apply Hi|]. constructor; [by vm_compute | done].
  - intros i x Hx. unfold slot. rewrite lookup_insert. case_decide as E.
    + cbn. destruct (decide (i = length (tokenInfos h))) as [->|Hne]; [lia|].
      rewrite lookup_app_l in Hx by (apply lookup_lt_Some in Hx; rewrite length_app in Hx; cbn in Hx; lia).
      apply (hi_position _ Hi) in Hx. rewrite <- E in Hx. lia.
    + apply lookup_app_Some in Hx as [Hx|[Hl Hx]]; [by apply (hi_position _ Hi)|].
      apply list_lookup_singleton_Some in Hx as [_ <-]. done.
  - intros eid. unfold slot. rewrite lookup_insert. case_decide as E.
    + intros _. exists (length (tokenInfos h)), info. by rewrite list_lookup_middle.
    + intros Hs. destruct (hi_registered _ Hi eid Hs) as (i & x & Hx & Hxe). exists i, x. split; [|done].
      by apply lookup_app_l_Some.
Qed.

Lemma updateToken_ok info h h' logs :
  hub_inv h -> updateToken info h = Ok (h', logs) ->
  exists i old, slot (eidToPosition h) (ti_eid info) = Z.of_nat i + 1 /\ tokenInfos h !! i = Some old /\ ti_eid old = ti_eid info
    /\ h' = mkHub (transferRoots h) (transferTreeIndices h) (<[i := info]> (tokenInfos h))
              (eidToPosition h) (zeroHash h) (aggSeq h) (hub_isUpToDate h).
Proof.
  unfold updateToken. intros Hi H. run_requires H. injection H as <- <-.
  destruct (hub_position h (ti_eid info) Hi) as (i & old & Hs & Hl & He & _); [done|]. exists i, old.
  rewrite Hs. replace (Z.to_nat (Z.of_nat i + 1 - 1)) with i by lia. done.
Qed.

Lemma updateToken_inv info h h' logs : hub_inv h -> updateToken info h = Ok (h', logs) -> hub_inv h'.
Proof.
  intros Hi H. destruct (updateToken_ok _ _ _ _ Hi H) as (i & old & Hs & Hl & He & ->).
  pose proof (lookup_lt_Some _ _ _ Hl) as Hlt.
  split; cbn [transferRoots transferTreeIndices tokenInfos eidToPosition zeroHash aggSeq]; try apply Hi.
  - rewrite length_insert. apply Hi.
  - intros j x Hx. apply list_lookup_insert_Some in Hx as [(-> & <- & _)|[_ Hx]]; [done | by apply (hi_position _ Hi)].
  - intros eid Hs'. destruct (hi_registered _ Hi eid Hs') as (j & x & Hx & Hxe). destruct (decide (i = j)) as [->|Hne].
    + exists j, info. rewrite list_lookup_insert_eq by done. split; [done|]. congruence.
    + exists j, x. by rewrite list_lookup_insert_ne.
Qed.

Lemma broadcast_ok targets options value refund h h' logs sent :
  broadcast targets options value refund h = Ok (h', logs, sent) ->
  exists root, computeAggregationRoot (transferRoots h) (zeroHash h) = Some root
    /\ (length (transferRoots h) <= length (transferTreeIndices h))%nat
    /\ aggSeq h < u64_max
    /\ h' = mkHub (transferRoots h) (transferTreeIndices h) (tokenInfos h) (eidToPosition h) (zeroHash h) (aggSeq h + 1) true
    /\ logs = [AggregationRootUpdated root (aggSeq h + 1) (transferRoots h) (take (length (transferRoots h)) (transferTreeIndices h))]
    /\ exists fees total, quote_targets h (abi_encode_words [root; aggSeq h + 1]) options targets 0 = Ok (fees, total) /\ total <= value
       /\ send_targets (abi_encode_words [root; aggSeq h + 1]) options (zip targets fees) = Ok sent.
Proof.
  unfold broadcast, computeBroadcastContext. intros H. apply result_bind_ok in H as (ctx & Hctx & H). run_requires Hctx.
  apply result_bind_ok in Hctx as (root & Hroot & Hctx). run_requires Hctx. injection Hctx as <-.
  cbn [bc_payload bc_snapshot bc_indices bc_aggregationRoot bc_nextAggSeq] in H.
  apply result_bind_ok in H as ([fees total] & Hq & H). run_requires H.
  apply result_bind_ok in H as (sent' & Hsent & H). run_requires H. injection H as <- <- <-.
  exists root. destruct (computeAggregationRoot _ _); [|done]. injection Hroot as ->.
  apply Nat.leb_le in R. split_and!; try done. exists fees, total. split_and!; [exact Hq | lia | exact Hsent].
Qed.

Lemma broadcast_inv targets options value refund h h' logs sent :
  hub_inv h -> broadcast targets options value refund h = Ok (h', logs, sent) -> hub_inv h'.
Proof.
  intros Hi H. apply broadcast_ok in H as (root & _ & _ & Hs & -> & _). pose proof (hi_seq _ Hi).
  split; cbn [transferRoots transferTreeIndices tokenInfos eidToPosition zeroHash aggSeq]; try apply Hi. lia.
Qed.

(** A received root is stored at the sender's position exactly when it is newer. *)
Lemma hub_lzReceive_ok src payload h h' logs :
  hub_inv h -> Forall in_u8 payload -> hub_lzReceive src payload h = Ok (h', logs) ->
  exists i info cur, tokenInfos h !! i = Some info /\ ti_eid info = src /\ transferTreeIndices h !! i = Some cur
    /\ let root := word (abi_words 2 payload) 0 in let index := word (abi_words 2 payload) 1 in
       in_u64 index
       /\ ((index <= cur /\ h' = h /\ logs = [])
           \/ (cur < index /\ logs = [TransferRootUpdated src (Z.of_nat i) root]
               /\ h' = mkHub (<[i := root]> (transferRoots h)) (<[i := index]> (transferTreeIndices h)) (tokenInfos h)
                         (eidToPosition h) (zeroHash h) (aggSeq h) false)).
Proof.
  intros Hi Hb. unfold hub_lzReceive. intros H. run_requires H.
  destruct (hub_position h src Hi) as (i & info & Hs & Hl & He & Hlt); [done|].
  rewrite Hs in H. replace (Z.to_nat (Z.of_nat i + 1 - 1)) with i in H by lia.
  apply result_bind_ok in H as (cur & Hcur & H). destruct (transferTreeIndices h !! i) as [c|] eqn:Ec; [|done]. injection Hcur as ->.
  exists i, info, cur. do 3 (split; [done|]). cbv zeta. split.
  { unfold in_u64, u64_max in *. split; [|lia]. apply (be_val_range (take 32 (drop 32 payload))). by apply Forall_take, Forall_drop. }
  if_case_in H E; [left; injection H as <- <-; done|]. right. run_requires H. injection H as <- <-.
  by replace (Z.of_nat i + 1 - 1) with (Z.of_nat i) by lia.
Qed.

Lemma hub_lzReceive_inv src payload h h' logs :
  hub_inv h -> Forall in_u8 payload -> hub_lzReceive src payload h = Ok (h', logs) -> hub_inv h'.
Proof.
  intros Hi Hb H. apply hub_lzReceive_ok in H as (i & info & cur & Hl & He & Hc & Hu & [(_ & -> & _)|(Hlt & _ & ->)]); try done.
  split; cbn [transferRoots transferTreeIndices tokenInfos eidToPosition zeroHash aggSeq]; rewrite ?length_insert; try apply Hi.
  by apply Forall_insert; [apply Hi|].
Qed.

Lemma hub_step_inv h logs h' : hub_inv h -> hub_step h logs h' -> hub_inv h'.
Proof.
  intros Hi Hs. destruct Hs; eauto using registerToken_inv, updateToken_inv, broadcast_inv, hub_lzReceive_inv.
Qed.

Lemma Hub_init_inv : hub_inv Hub_init.
Proof.
  split; cbn; try done; lia.
Qed.

(** What no step of the hub undoes: a position keeps its endpoint, its tree index never
    decreases and its root only changes with it, and sequence numbers only grow. *)
Record hub_le (h h' : Hub) : Prop := {
  hl_infos : forall (i : nat) info, tokenInfos h !! i = Some info ->
    exists info', tokenInfos h' !! i = Some info' /\ ti_eid info' = ti_eid info;
  hl_indices : forall (i : nat) k, transferTreeIndices h !! i = Some k ->
    exists k', transferTreeIndices h' !! i = Some k' /\ k <= k'
      /\ (k' = k -> transferRoots h' !! i = transferRoots h !! i);
  hl_seq : aggSeq h <= aggSeq h';
}.

Lemma hub_step_le h logs h' : hub_inv h -> hub_step h logs h' -> hub_le h h'.
Proof.
  intros Hi Hs. destruct Hs as [h info h' logs H|h info h' logs H|h ts o v r h' logs s H|h src p h' logs Hp H].
  - apply registerToken_ok in H as (_ & _ & ->). split; cbn [tokenInfos transferTreeIndices transferRoots aggSeq]; [| |lia].
    + intros i x Hx. exists x. by rewrite lookup_app_l by by eapply lookup_lt_Some.
    + intros i k Hk. pose proof (lookup_lt_Some _ _ _ Hk). exists k. rewrite !lookup_app_l by (rewrite <- ?(hi_indices _ Hi); lia).
      split_and!; [done | lia | done].
  - destruct (updateToken_ok _ _ _ _ Hi H) as (i & old & _ & Hl & He & ->).
    split; cbn [tokenInfos transferTreeIndices transferRoots aggSeq]; [| |lia].
    + intros j x Hx. destruct (decide (i = j)) as [->|]; [|exists x; by rewrite list_lookup_insert_ne].
      exists info. rewrite list_lookup_insert_eq by by eapply lookup_lt_Some. split; [done|]. congruence.
    + intros j k Hk. exists k. split_and!; [done | lia | done].
  - apply broadcast_ok in H as (root & _ & _ & _ & -> & _).
    split; cbn [tokenInfos transferTreeIndices transferRoots aggSeq]; [by eauto | |lia].
    intros j k Hk. exists k. split_and!; [done | lia | done].
  - apply hub_lzReceive_ok in H as (i & info & cur & Hl & He & Hc & Hu & [(_ & -> & _)|(Hlt & _ & ->)]); try done;
      split; cbn [tokenInfos transferTreeIndices transferRoots aggSeq]; try lia; try by eauto.
    + intros j k Hk. exists k. split_and!; [done | lia | done].
    + intros j k Hk. destruct (decide (i = j)) as [->|].
      * exists (word (abi_words 2 p) 1). rewrite list_lookup_insert_eq by by eapply lookup_lt_Some.
        assert (k = cur) as -> by congruence. split_and!; [done | lia | lia].
      * exists k. rewrite !list_lookup_insert_ne by done. split_and!; [done | lia | done].
Qed.

Inductive hub_reachable : Hub -> Prop :=
| hr_init : hub_reachable Hub_init
| hr_step h logs h' : hub_reachable h -> hub_step h logs h' -> hub_reachable h'.

Lemma hub_reachable_inv h : hub_reachable h -> hub_inv h.
Proof. induction 1 as [|h logs h' _ IH Hs]; [apply Hub_init_inv | by eapply hub_step_inv]. Qed.

(** C24: The hub's storage stays consistent: in every state reachable by registrations,
    updates, messages and broadcasts the three arrays are parallel with at most 64
    entries and [eidToPosition] is exactly the inverse of the registered endpoints (so
    no two positions share one), and no step moves an endpoint to another position,
    lowers a tree index, replaces a root without raising its index, or lowers the
    aggregation sequence, whatever order the messages arrive in. *)
Theorem hub_storage_invariant h logs h' :
  hub_reachable h -> hub_step h logs h' ->
  hub_inv h' /\ hub_le h h'
  /\ (forall i j x y, tokenInfos h' !! i = Some x -> tokenInfos h' !! j = Some y -> ti_eid x = ti_eid y -> i = j).
Proof.
  intros Hr Hs. apply hub_reachable_inv in Hr. pose proof (hub_step_inv _ _ _ Hr Hs) as Hi.
  split; [done|]. split; [by eapply hub_step_le|]. intros i j x y Hx Hy He.
  apply (hi_position _ Hi) in Hx, Hy. rewrite He in Hx. lia.
Qed.
End storage.
