(* ===== verification/CrossChain.v ===== *)
(** The cross-chain system: verifiers relay proved roots to the hub, the hub
    aggregates and broadcasts, verifiers store the global roots and teleport
    against them ([contracts/src/Verifier.sol], [Hub.sol]).

    A world is the hub, the chains by endpoint id and every message sent so far.
    LayerZero is assumed authentic only: a message that arrives was sent, from
    the endpoint it names; messages may be lost, reordered and delivered again. *)

From S2P Require Import Prelude Words Crypto BitPaths MerkleTrees Gadgets Circuits Folding Database OnChain OnChainSpec Events Leases Jobs Teleport Hub HubSpec.
Local Open Scope Z_scope.

Record World := mkWorld {
  wo_hub : Hub;
  wo_chains : gmap Z Chain;
  wo_log : list AggregationRootUpdatedEvent;
  wo_to_hub : list (Z * bytes);
  wo_to_chain : list (Z * bytes);
}.

Definition with_verifier (v : Verifier) (c : Chain) : Chain := mkChain (ch_token c) v (ch_log c) (ch_proofs c).

Section system.
Context {C : Crypto} {R : R1CS} {D : Deciders} {P : PoseidonT3} {L : Endpoint}.
(** The verifier address and chain id at each endpoint, and the hub's endpoint. *)
Context (self chainid : Z -> Z) (hubEid : Z).

Inductive world_step : World -> World -> Prop :=
| ws_local h cs log th tc eid c c' :
    (** any call on a chain other than the delivery of a message *)
    cs !! eid = Some c -> chain_step (self eid) (chainid eid) c c' ->
    globalTransferRoots (ch_verifier c') = globalTransferRoots (ch_verifier c) ->
    world_step (mkWorld h cs log th tc) (mkWorld h (<[eid := c']> cs) log th tc)
| ws_relay h cs log th tc eid c options value v' logs payload :
    cs !! eid = Some c -> relayTransferRoot options value (ch_verifier c) = Ok (v', logs, payload) ->
    world_step (mkWorld h cs log th tc) (mkWorld h (<[eid := with_verifier v' c]> cs) log (th ++ [(eid, payload)]) tc)
| ws_admin h cs log th tc info h' logs :
    registerToken info h = Ok (h', logs) \/ updateToken info h = Ok (h', logs) ->
    world_step (mkWorld h cs log th tc) (mkWorld h' cs log th tc)
| ws_hub_receive h cs log th tc src payload h' logs :
    (src, payload) ∈ th -> hub_lzReceive src payload h = Ok (h', logs) ->
    world_step (mkWorld h cs log th tc) (mkWorld h' cs log th tc)
| ws_broadcast h cs log th tc targets options value refund h' logs e sent :
    broadcast targets options value refund h = Ok (h', logs, sent) -> parse_aggregation_root_updated logs = Some e ->
    world_step (mkWorld h cs log th tc) (mkWorld h' cs (log ++ [e]) th (tc ++ sent))
| ws_chain_receive h cs log th tc eid payload c v' logs :
    cs !! eid = Some c -> (eid, payload) ∈ tc -> verifier_lzReceive hubEid payload (ch_verifier c) = Ok (v', logs) ->
    world_step (mkWorld h cs log th tc) (mkWorld h (<[eid := with_verifier v' c]> cs) log th tc).

(** Deployment on the endpoints [eids]. *)
Definition world_genesis (eids : list Z) : World :=
  mkWorld Hub_init (list_to_map ((fun e => (e, genesis (self e) hubEid)) <$> eids)) [] [] [].

Inductive world_reachable (eids : list Z) : World -> Prop :=
| wr_genesis : world_reachable eids (world_genesis eids)
| wr_step w w' : world_reachable eids w -> world_step w w' -> world_reachable eids w'.

(** ** What the stored values mean *)

(** Slot [(eid, k)] of the aggregation holds the root of the first [k] transfers of
    that chain, or nothing yet. *)
Definition slot_genuine (cs : gmap Z Chain) (eid k root : Z) : Prop :=
  (k = 0 /\ root = 0)
  \/ exists c n, cs !! eid = Some c /\ k = Z.of_nat n /\ (1 <= n <= length (ch_log c))%nat
       /\ root = history_root TRANSFER_TREE_HEIGHT (take n (ch_log c)).

Record event_genuine (cs : gmap Z Chain) (eids : list Z) (e : AggregationRootUpdatedEvent) : Prop := {
  eg_indices : length (ag_transfer_tree_indices e) = length (ag_snapshot e);
  eg_cap : (length (ag_snapshot e) <= 64)%nat;
  eg_slots : forall (i : nat) k r, ag_transfer_tree_indices e !! i = Some k -> ag_snapshot e !! i = Some r ->
    exists eid, eids !! i = Some eid /\ slot_genuine cs eid k r;
  eg_root : ag_root e = spec_root AGGREGATION_TREE_HEIGHT (leaf_fun (ag_snapshot e));
}.

(** The endpoints by position. *)
Definition hub_eids (h : Hub) : list Z := ti_eid <$> tokenInfos h.

Record world_inv (w : World) : Prop := {
  wi_hub : hub_inv (wo_hub w);
  wi_chains : forall eid c, wo_chains w !! eid = Some c -> chain_inv c;
  wi_to_hub : forall src p, (src, p) ∈ wo_to_hub w ->
    exists c (n : nat), wo_chains w !! src = Some c /\ (n <= length (ch_log c))%nat
      /\ p = abi_encode_words [history_root TRANSFER_TREE_HEIGHT (take n (ch_log c)); Z.of_nat n];
  wi_slots : forall (i : nat) info k r, tokenInfos (wo_hub w) !! i = Some info ->
    transferTreeIndices (wo_hub w) !! i = Some k -> transferRoots (wo_hub w) !! i = Some r ->
    slot_genuine (wo_chains w) (ti_eid info) k r;
  wi_log : forall e, e ∈ wo_log w -> event_genuine (wo_chains w) (hub_eids (wo_hub w)) e;
  wi_seqs : forall (i : nat) e, wo_log w !! i = Some e -> ag_agg_seq e = Z.of_nat i + 1;
  wi_count : aggSeq (wo_hub w) = Z.of_nat (length (wo_log w));
  wi_to_chain : forall eid p, (eid, p) ∈ wo_to_chain w ->
    exists e, e ∈ wo_log w /\ p = abi_encode_words [ag_root e; ag_agg_seq e];
  wi_global : forall eid c seq, wo_chains w !! eid = Some c -> slot (globalTransferRoots (ch_verifier c)) seq <> 0 ->
    exists e, e ∈ wo_log w /\ ag_agg_seq e = seq /\ ag_root e = slot (globalTransferRoots (ch_verifier c)) seq;
}.

(** The leaves of the tree of trees that an event aggregates: leaf [i] is transfer
    [i mod 2^40] of the chain at position [i / 2^40], if it is below that chain's
    tree index. *)
Definition global_tree (cs : gmap Z Chain) (eids : list Z) (e : AggregationRootUpdatedEvent) (i : Z) : option Leaf :=
  let p := Z.to_nat (i / 2 ^ 40) in
  eid ← eids !! p;
  k ← ag_transfer_tree_indices e !! p;
  c ← cs !! eid;
  log_tree (take (Z.to_nat k) (ch_log c)) (i mod 2 ^ 40).

(** The last two hash inputs along a path. *)
Fixpoint path_last (leaf i : Z) (sibs : list Z) : Z * Z :=
  match sibs with
  | [] => (leaf, leaf)
  | s :: ss =>
    let pair := if Z.odd i then (s, leaf) else (leaf, s) in
    match ss with [] => pair | _ => path_last (poseidon2 pair.1 pair.2) (i / 2) ss end
  end.

(** What an input that opens the aggregation root without claiming a leaf of the tree
    of trees gives away: a collision above or below the transfer roots, or a preimage of
    the empty slot. *)
Definition global_attack (cs : gmap Z Chain) (eids : list Z) (e : AggregationRootUpdatedEvent) (recipient : Z)
  (x : WithdrawExternalInputs) : attack :=
  let leaf := compute_leaf_hash (burn_address_of recipient (wx_secret x)) (wx_value x) in
  let position := wx_leaf_index x / 2 ^ 40 in
  let low := take TRANSFER_TREE_HEIGHT (wx_siblings x) in
  match find_collision (leaf_fun (ag_snapshot e)) 0 (path_root leaf (wx_leaf_index x) low) position
          (drop TRANSFER_TREE_HEIGHT (wx_siblings x)) with
  | Some c => Collision c
  | None =>
    if leaf_fun (ag_snapshot e) position =? 0 then ZeroPreimage (path_last leaf (wx_leaf_index x) low)
    else input_attack (fun j => global_tree cs eids e (position * 2 ^ 40 + j)) recipient
           (mkWithdrawExternalInputs (wx_is_dummy x) (wx_value x) (wx_secret x) (wx_leaf_index x mod 2 ^ 40) low)
  end.

(** An accepted root proof contains a collision. *)
Definition root_forged (c : Chain) : Prop := Exists (fun p => exists xs, root_witness p.2 xs /\ root_attack p.1 p.2 xs) (ch_proofs c).
Definition logs_small (w : World) : Prop := forall eid c, wo_chains w !! eid = Some c -> Z.of_nat (length (ch_log c)) < 2 ^ 64.

(** Chains only grow. *)
Definition chains_le (cs cs' : gmap Z Chain) : Prop :=
  forall eid c, cs !! eid = Some c -> exists c', cs' !! eid = Some c' /\ ch_log c `prefix_of` ch_log c'
    /\ exists ps, ch_proofs c' = ch_proofs c ++ ps.
End system.
