(* ===== verification/CrossChainSpec.v ===== *)
(** Global roots are genuine and global teleports are covered by burns, in every
    reachable state of the cross-chain system. *)

From S2P Require Import Prelude Words Crypto BitPaths MerkleTrees Gadgets Circuits Folding Database OnChain OnChainSpec Events Leases Jobs Teleport TreeDb TreeDbSpec TeleportSpec Hub HubSpec CrossChain.
Local Open Scope Z_scope.

Ltac world_simpl := cbn [wo_hub wo_chains wo_log wo_to_hub wo_to_chain] in *.

Section invariant.
Context {C : Crypto} {HC : CryptoLaws C} {R : R1CS} {HR : R1CSLaws C R} {D : Deciders} {HD : DecidersSound C R D}.
Context {P : PoseidonT3} {HP : PoseidonT3Laws C P} {L : Endpoint}.
Context (self chainid : Z -> Z) (hubEid : Z).

Lemma take_prefix (n : nat) (l l' : list Leaf) : l `prefix_of` l' -> (n <= length l)%nat -> take n l' = take n l.
Proof. intros [k ->] Hn. by rewrite take_app_le. Qed.

Lemma chains_le_insert cs eid c c' :
  cs !! eid = Some c -> ch_log c `prefix_of` ch_log c' -> (exists ps, ch_proofs c' = ch_proofs c ++ ps) ->
  chains_le cs (<[eid := c']> cs).
Proof.
  intros Hc Hl Hp eid0 c0 H0. destruct (decide (eid = eid0)) as [->|].
  - rewrite H0 in Hc. injection Hc as ->. exists c'. by rewrite lookup_insert_eq.
  - exists c0. rewrite lookup_insert_ne by done. split_and!; [done | done | exists []; by rewrite app_nil_r].
Qed.

Lemma slot_genuine_mono cs cs' eid k r : chains_le cs cs' -> slot_genuine cs eid k r -> slot_genuine cs' eid k r.
Proof.
  intros Hle [H|(c & n & Hc & Hk & Hn & Hr)]; [by left|]. right. destruct (Hle _ _ Hc) as (c' & Hc' & Hp & _).
  exists c', n. pose proof (prefix_length _ _ Hp). rewrite (take_prefix n _ _ Hp) by lia.
  split; [exact Hc'|]. split; [exact Hk|]. split; [lia | exact Hr].
Qed.

Lemma event_genuine_mono cs cs' ids ids' e :
  chains_le cs cs' -> ids `prefix_of` ids' -> event_genuine cs ids e -> event_genuine cs' ids' e.
Proof.
  intros Hle Hp [H1 H2 H3 H4]. split; try done. intros i k r Hk Hr. destruct (H3 i k r Hk Hr) as (eid & He & Hs).
  exists eid. split; [by eapply prefix_lookup_Some | by eapply slot_genuine_mono].
Qed.

Lemma slot_genuine_fr cs eid k r : slot_genuine cs eid k r -> is_fr r.
Proof. intros [[_ ->]|(c & n & _ & _ & _ & ->)]; [by vm_compute | apply history_node_fr]. Qed.

Lemma hub_eids_le h logs h' : hub_inv h -> hub_step h logs h' -> hub_eids h `prefix_of` hub_eids h'.
Proof.
  intros Hi Hs. unfold hub_eids. destruct Hs as [h info h' logs H|h info h' logs H|h ts o v r h' logs s H|h src p h' logs Hp H].
  - apply registerToken_ok in H as (_ & _ & ->). cbn [tokenInfos]. rewrite fmap_app. by apply prefix_app_r.
  - destruct (updateToken_ok _ _ _ _ Hi H) as (i & old & _ & Hl & He & ->). cbn [tokenInfos].
    rewrite list_fmap_insert, <- He, list_insert_id; [done|]. by rewrite list_lookup_fmap, Hl.
  - apply broadcast_ok in H as (root & _ & _ & _ & -> & _). done.
  - apply hub_lzReceive_ok in H as (i & info & cur & Hl & He & Hc & Hu & [(_ & -> & _)|(Hlt & _ & ->)]); done.
Qed.

(** The part of the invariant about the chains survives their growth. *)
Lemma world_inv_chains h cs cs' log th tc th' :
  world_inv (mkWorld h cs log th tc) -> chains_le cs cs' ->
  (forall eid c, cs' !! eid = Some c -> chain_inv c) ->
  (forall src p, (src, p) ∈ th' -> (src, p) ∈ th \/ exists c (n : nat), cs' !! src = Some c /\ (n <= length (ch_log c))%nat
      /\ p = abi_encode_words [history_root TRANSFER_TREE_HEIGHT (take n (ch_log c)); Z.of_nat n]) ->
  (forall eid c seq, cs' !! eid = Some c -> slot (globalTransferRoots (ch_verifier c)) seq <> 0 ->
    exists e, e ∈ log /\ ag_agg_seq e = seq /\ ag_root e = slot (globalTransferRoots (ch_verifier c)) seq) ->
  world_inv (mkWorld h cs' log th' tc).
Proof.
  intros [H1 H2 H3 H4 H5 H6 H7 H8 H9] Hle Hc Hth Hg. world_simpl. split; world_simpl; try assumption.
  - intros src p Hin. destruct (Hth src p Hin) as [Ho|Hn]; [|exact Hn]. destruct (H3 src p Ho) as (c & n & Hl & Hn & ->).
    destruct (Hle _ _ Hl) as (c' & Hl' & Hp & _). exists c', n. pose proof (prefix_length _ _ Hp).
    rewrite (take_prefix n _ _ Hp) by done. split; [exact Hl'|]. split; [lia | reflexivity].
  - intros i info k r Hi Hk Hr. eapply slot_genuine_mono; [done|]. by eapply H4.
  - intros e He. eapply event_genuine_mono; [done..|]. by apply H5.
Qed.

(** The part about the hub survives a step that adds no event. *)
Lemma world_inv_hub h h' logs cs log th tc :
  world_inv (mkWorld h cs log th tc) -> hub_step h logs h' -> aggSeq h' = aggSeq h ->
  (forall (i : nat) info k r, tokenInfos h' !! i = Some info -> transferTreeIndices h' !! i = Some k ->
     transferRoots h' !! i = Some r -> slot_genuine cs (ti_eid info) k r) ->
  world_inv (mkWorld h' cs log th tc).
Proof.
  intros [H1 H2 H3 H4 H5 H6 H7 H8 H9] Hs Hseq Hslots. world_simpl. split; world_simpl; try assumption.
  - by eapply hub_step_inv.
  - intros e He. eapply event_genuine_mono; [|by eapply hub_eids_le|by apply H5].
    intros eid c Hc. exists c. split_and!; [done | done | exists []; by rewrite app_nil_r].
  - by rewrite Hseq.
Qed.

Lemma relayTransferRoot_ok options value v v' logs payload :
  relayTransferRoot options value v = Ok (v', logs, payload) ->
  slot (provedTransferRoots v) (latestProvedIndex v) <> 0 /\ v' = set_relayed (latestProvedIndex v) v
  /\ payload = abi_encode_words [slot (provedTransferRoots v) (latestProvedIndex v); latestProvedIndex v].
Proof.
  unfold relayTransferRoot. intros H. apply result_bind_ok in H as ([] & _ & H). apply result_bind_ok in H as ([] & Hz & H).
  apply result_bind_ok in H as (fee & _ & H). apply result_bind_ok in H as ([] & _ & H).
  apply result_bind_ok in H as (guid & _ & H). apply require_ok in Hz. bool_cases. injection H as <- _ <-. done.
Qed.

Lemma with_verifier_inv c v :
  chain_inv c -> reservedHashChains v = reservedHashChains (ch_verifier c) ->
  provedTransferRoots v = provedTransferRoots (ch_verifier c) -> latestProvedIndex v = latestProvedIndex (ch_verifier c) ->
  chain_inv (with_verifier v c).
Proof. destruct c as [t v0 log ps]. intros Hi H1 H2 H3. by eapply chain_inv_same. Qed.

Lemma insert_chain_inv (cs : gmap Z Chain) eid c' :
  (forall e c, cs !! e = Some c -> chain_inv c) -> chain_inv c' ->
  forall e c, <[eid := c']> cs !! e = Some c -> chain_inv c.
Proof. intros H Hc' e c. rewrite lookup_insert. case_decide; [by intros [= <-] | apply H]. Qed.

Lemma with_verifier_le (cs : gmap Z Chain) eid c v : cs !! eid = Some c -> chains_le cs (<[eid := with_verifier v c]> cs).
Proof. intros Hc. eapply chains_le_insert; [done | done | exists []; by rewrite app_nil_r]. Qed.

(** A chain whose global roots did not change. *)
Lemma global_same (Q : Z -> Z -> Prop) (cs : gmap Z Chain) eid c c' :
  cs !! eid = Some c -> globalTransferRoots (ch_verifier c') = globalTransferRoots (ch_verifier c) ->
  (forall e c seq, cs !! e = Some c -> slot (globalTransferRoots (ch_verifier c)) seq <> 0 ->
     Q seq (slot (globalTransferRoots (ch_verifier c)) seq)) ->
  forall e c0 seq, <[eid := c']> cs !! e = Some c0 -> slot (globalTransferRoots (ch_verifier c0)) seq <> 0 ->
     Q seq (slot (globalTransferRoots (ch_verifier c0)) seq).
Proof.
  intros Hc Hg HQ e c0 seq. rewrite lookup_insert. case_decide as E; [|apply HQ]. intros [= <-]. rewrite Hg. by apply (HQ eid).
Qed.

Lemma step_relay h cs log th tc eid c options value v' logs payload :
  world_inv (mkWorld h cs log th tc) -> cs !! eid = Some c ->
  relayTransferRoot options value (ch_verifier c) = Ok (v', logs, payload) ->
  world_inv (mkWorld h (<[eid := with_verifier v' c]> cs) log (th ++ [(eid, payload)]) tc).
Proof.
  intros Hw Hc H. apply relayTransferRoot_ok in H as (Hnz & -> & ->). pose proof (wi_chains _ Hw _ _ Hc) as Hi.
  eapply world_inv_chains; [exact Hw | by apply with_verifier_le | | |].
  - apply insert_chain_inv; [apply (wi_chains _ Hw) | by apply with_verifier_inv].
  - intros src p Hin. apply elem_of_app in Hin as [Hin|Hin]; [by left|]. right.
    apply list_elem_of_singleton in Hin. injection Hin as -> ->.
    destruct (ci_proved _ Hi (latestProvedIndex (ch_verifier c)) _ (slot_Some _ _ _ eq_refl Hnz) Hnz) as (n & Hn & Hl & Hr).
    exists (with_verifier (set_relayed (latestProvedIndex (ch_verifier c)) (ch_verifier c)) c), n.
    rewrite lookup_insert_eq. split; [reflexivity|]. split; [exact Hn|]. rewrite Hr, Hl. reflexivity.
  - eapply (global_same (fun seq r => exists e, e ∈ log /\ ag_agg_seq e = seq /\ ag_root e = r)); [exact Hc | reflexivity|].
    apply (wi_global _ Hw).
Qed.

Lemma step_local h cs log th tc eid c c' :
  world_inv (mkWorld h cs log th tc) -> cs !! eid = Some c -> chain_step (self eid) (chainid eid) c c' ->
  globalTransferRoots (ch_verifier c') = globalTransferRoots (ch_verifier c) -> Z.of_nat (length (ch_log c)) < 2 ^ 64 ->
  world_inv (mkWorld h (<[eid := c']> cs) log th tc) \/ root_forged c'.
Proof.
  intros Hw Hc Hs Hg Hlen. destruct (chain_step_inv _ _ _ _ (wi_chains _ Hw _ _ Hc) Hlen Hs) as [Hi|Ha]; [left|by right].
  eapply world_inv_chains; [exact Hw | | | |].
  - eapply chains_le_insert; [done | by eapply chain_step_prefix | by eapply chain_step_grows].
  - apply insert_chain_inv; [apply (wi_chains _ Hw) | done].
  - intros src p Hin. by left.
  - eapply (global_same (fun seq r => exists e, e ∈ log /\ ag_agg_seq e = seq /\ ag_root e = r)); [exact Hc | exact Hg|].
    apply (wi_global _ Hw).
Qed.

Lemma step_admin h cs log th tc info h' logs :
  world_inv (mkWorld h cs log th tc) -> registerToken info h = Ok (h', logs) \/ updateToken info h = Ok (h', logs) ->
  world_inv (mkWorld h' cs log th tc).
Proof.
  intros Hw H. pose proof (wi_hub _ Hw) as Hi. pose proof (wi_slots _ Hw) as Hsl. world_simpl. destruct H as [H|H].
  - eapply world_inv_hub; [exact Hw | by eapply hub_register | |]; apply registerToken_ok in H as (_ & _ & ->); [done|].
    cbn [tokenInfos transferTreeIndices transferRoots]. intros i x k r Hx Hk Hr.
    pose proof (hi_infos _ Hi). pose proof (hi_indices _ Hi).
    apply lookup_app_Some in Hx as [Hx|[Hl Hx]].
    + pose proof (lookup_lt_Some _ _ _ Hx). rewrite lookup_app_l in Hk, Hr by lia. by eapply Hsl.
    + apply list_lookup_singleton_Some in Hx as [Hx _].
      assert (i = length (transferRoots h)) as -> by lia.
      rewrite list_lookup_middle in Hr by done. rewrite list_lookup_middle in Hk by lia. injection Hk as <-. injection Hr as <-. by left.
  - eapply world_inv_hub; [exact Hw | by eapply hub_update | |];
      destruct (updateToken_ok _ _ _ _ Hi H) as (i & old & _ & Hl & He & ->); [done|].
    cbn [tokenInfos transferTreeIndices transferRoots]. intros j x k r Hx Hk Hr.
    apply list_lookup_insert_Some in Hx as [(-> & <- & _)|[_ Hx]]; [rewrite <- He|]; by eapply Hsl.
Qed.

Lemma encoded_words a b : in_u256 a -> in_u256 b -> abi_words 2 (abi_encode_words [a; b]) = [a; b].
Proof. intros Ha Hb. apply (abi_words_encode [a; b]). by repeat apply Forall_cons_2. Qed.

Lemma step_hub_receive h cs log th tc src payload h' logs :
  world_inv (mkWorld h cs log th tc) -> logs_small (mkWorld h cs log th tc) -> (src, payload) ∈ th ->
  hub_lzReceive src payload h = Ok (h', logs) -> world_inv (mkWorld h' cs log th tc).
Proof.
  intros Hw Hsm Hin H. pose proof (wi_hub _ Hw) as Hi. pose proof (wi_slots _ Hw) as Hsl.
  destruct (wi_to_hub _ Hw _ _ Hin) as (c & n & Hc & Hn & ->). world_simpl.
  pose proof (Hsm _ _ Hc) as Hlen. set (r0 := history_root _ _) in *.
  assert (is_fr r0) as Hfr by apply history_node_fr.
  assert (abi_words 2 (abi_encode_words [r0; Z.of_nat n]) = [r0; Z.of_nat n]) as Hwords.
  { apply encoded_words; [by apply is_fr_u256 | unfold in_u256; lia]. }
  eapply world_inv_hub; [exact Hw | eapply hub_receive; [apply abi_encode_bytes | exact H] | |];
    apply hub_lzReceive_ok in H as (i & info & cur & Hl & He & Hcur & Hu & Hcase); try done; try apply abi_encode_bytes;
    rewrite Hwords in Hcase; change (word [r0; Z.of_nat n] 1) with (Z.of_nat n) in Hcase;
    change (word [r0; Z.of_nat n] 0) with r0 in Hcase.
  - destruct Hcase as [(_ & -> & _)|(_ & _ & ->)]; done.
  - destruct Hcase as [(_ & -> & _)|(Hlt & _ & ->)]; [exact Hsl|].
    cbn [tokenInfos transferTreeIndices transferRoots]. intros j x k r Hx Hk Hr.
    destruct (decide (i = j)) as [->|Hne]; [|rewrite list_lookup_insert_ne in Hk, Hr by done; by eapply Hsl].
    assert (j < length (transferTreeIndices h))%nat as Hj by by eapply lookup_lt_Some.
    rewrite list_lookup_insert_eq in Hk by done. rewrite list_lookup_insert_eq in Hr by (rewrite <- (hi_indices _ Hi); done).
    injection Hk as <-. injection Hr as <-. rewrite Hl in Hx. injection Hx as <-. rewrite He. right. exists c, n.
    pose proof (hi_trees _ Hi) as Ht. rewrite Forall_forall in Ht.
    assert (0 <= cur) by (apply (Ht cur), list_elem_of_lookup; eauto).
    split; [exact Hc|]. split; [reflexivity|]. split; [lia | reflexivity].
Qed.

Lemma send_targets_payload payload options ts : forall sent,
  send_targets payload options ts = Ok sent -> forall eid p, (eid, p) ∈ sent -> p = payload.
Proof.
  induction ts as [|[t fee] ts IH]; intros sent H eid p Hin; cbn [send_targets] in H.
  - injection H as <-. by apply elem_of_nil in Hin.
  - apply result_bind_ok in H as (g & _ & H). apply result_bind_ok in H as (rest & Hr & H). injection H as <-.
    apply elem_of_cons in Hin as [[= _ ->]|Hin]; [done|]. by eapply IH.
Qed.

Lemma step_broadcast h cs log th tc targets options value refund h' logs e sent :
  world_inv (mkWorld h cs log th tc) -> broadcast targets options value refund h = Ok (h', logs, sent) ->
  parse_aggregation_root_updated logs = Some e ->
  world_inv (mkWorld h' cs (log ++ [e]) th (tc ++ sent)).
Proof.
  intros Hw H He. pose proof (wi_hub _ Hw) as Hi. pose proof (broadcast_inv _ _ _ _ _ _ _ _ Hi H) as Hi'.
  apply broadcast_ok in H as (root & Hroot & _ & Hlt & -> & -> & fees & total & _ & _ & Hsent).
  cbn [parse_aggregation_root_updated] in He. injection He as <-.
  pose proof (wi_slots _ Hw) as Hsl. pose proof (wi_count _ Hw) as Hcount. world_simpl.
  pose proof (hi_indices _ Hi) as Hidx. pose proof (hi_infos _ Hi) as Hinf.
  assert (forall (i : nat) k r, transferTreeIndices h !! i = Some k -> transferRoots h !! i = Some r ->
    exists eid, hub_eids h !! i = Some eid /\ slot_genuine cs eid k r) as Hsl'.
  { intros i k r Hk Hr. destruct (lookup_lt_is_Some_2 (tokenInfos h) i) as [info Hinfo].
    { rewrite Hinf. by eapply lookup_lt_Some. }
    exists (ti_eid info). split; [unfold hub_eids; by rewrite list_lookup_fmap, Hinfo | by eapply Hsl]. }
  assert (Forall is_fr (transferRoots h)) as Hfr.
  { apply Forall_lookup. intros i r Hr. destruct (lookup_lt_is_Some_2 (transferTreeIndices h) i) as [k Hk].
    { rewrite Hidx. by eapply lookup_lt_Some. }
    destruct (Hsl' i k r Hk Hr) as (eid & _ & Hg). by eapply slot_genuine_fr. }
  rewrite (hi_zero _ Hi), computeAggregationRoot_spec in Hroot;
    [|exact Hfr | intros j Hj; by apply generateZeroHashes_lookup | apply (hi_cap _ Hi)].
  apply (inj Some) in Hroot. rewrite <- Hidx, firstn_all.
  split; world_simpl; [exact Hi' | apply (wi_chains _ Hw) | apply (wi_to_hub _ Hw) | exact Hsl | | | | |].
  - intros e He. apply elem_of_app in He as [He|He]; [by apply (wi_log _ Hw)|].
    apply list_elem_of_singleton in He as ->. split; cbn [ag_transfer_tree_indices ag_snapshot ag_root];
      [exact Hidx | apply (hi_cap _ Hi) | exact Hsl' | symmetry; exact Hroot].
  - intros i e He. apply lookup_app_Some in He as [He|[Hl He]]; [by apply (wi_seqs _ Hw)|].
    apply list_lookup_singleton_Some in He as [Hz <-]. cbn [ag_agg_seq]. lia.
  - cbn [aggSeq]. rewrite length_app. cbn [length]. lia.
  - intros eid p Hin. apply elem_of_app in Hin as [Hin|Hin].
    + destruct (wi_to_chain _ Hw _ _ Hin) as (e & He & ->). exists e. split; [|done]. apply elem_of_app. by left.
    + apply (send_targets_payload _ _ _ _ Hsent) in Hin as ->. eexists. split; [apply elem_of_app; right; by left | reflexivity].
  - intros eid c seq Hc Hnz. destruct (wi_global _ Hw _ _ _ Hc Hnz) as (e & He & H1 & H2). exists e.
    split; [apply elem_of_app; by left | done].
Qed.

Lemma event_leaf_fr w e j : world_inv w -> e ∈ wo_log w -> is_fr (leaf_fun (ag_snapshot e) j).
Proof.
  intros Hw He. pose proof (wi_log _ Hw e He) as Hg. assert (is_fr 0) by by vm_compute.
  unfold leaf_fun. if_case E; [done|].
  destruct (ag_snapshot e !! Z.to_nat j) as [r|] eqn:Er; cbn [default]; [|done].
  destruct (lookup_lt_is_Some_2 (ag_transfer_tree_indices e) (Z.to_nat j)) as [k Hk].
  { rewrite (eg_indices _ _ _ Hg). by eapply lookup_lt_Some. }
  destruct (eg_slots _ _ _ Hg _ _ _ Hk Er) as (eid & _ & Hsg). by eapply slot_genuine_fr.
Qed.

Lemma event_words w e :
  world_inv w -> e ∈ wo_log w ->
  in_u64 (ag_agg_seq e) /\ abi_words 2 (abi_encode_words [ag_root e; ag_agg_seq e]) = [ag_root e; ag_agg_seq e].
Proof.
  intros Hw He. assert (in_u64 (ag_agg_seq e)) as Hu.
  { apply list_elem_of_lookup in He as [i Hi]. pose proof (wi_seqs _ Hw i e Hi) as Hs. pose proof (lookup_lt_Some _ _ _ Hi) as Hlt.
    pose proof (hi_seq _ (wi_hub _ Hw)) as Hq. rewrite (wi_count _ Hw) in Hq. unfold u64_max in Hq. unfold in_u64. lia. }
  split; [exact Hu|]. apply encoded_words; [|unfold in_u64, in_u256 in *; lia].
  rewrite (eg_root _ _ _ (wi_log _ Hw e He)). apply is_fr_u256, spec_node_fr. intros j. by apply (event_leaf_fr w).
Qed.

Lemma slot_insert m k x j : slot (<[k := x]> m) j = if decide (k = j) then x else slot m j.
Proof. unfold slot. rewrite lookup_insert. by case_decide. Qed.

Lemma step_chain_receive h cs log th tc eid payload c v' logs :
  world_inv (mkWorld h cs log th tc) -> cs !! eid = Some c -> (eid, payload) ∈ tc ->
  verifier_lzReceive hubEid payload (ch_verifier c) = Ok (v', logs) ->
  world_inv (mkWorld h (<[eid := with_verifier v' c]> cs) log th tc).
Proof.
  intros Hw Hc Hin H. destruct (wi_to_chain _ Hw _ _ Hin) as (e & He & ->).
  destruct (event_words _ e Hw He) as [Hu Hwords]. world_simpl.
  unfold verifier_lzReceive, abi_decode_words in H. apply result_bind_ok in H as ([] & _ & H).
  rewrite length_abi_encode in H. cbn [length Nat.mul Nat.add Nat.ltb Nat.leb] in H. rewrite Hwords in H.
  apply result_bind_ok in H as (ws & [= <-] & H). apply result_bind_ok in H as ([] & _ & H).
  change (word [ag_root e; ag_agg_seq e] 0) with (ag_root e) in H.
  change (word [ag_root e; ag_agg_seq e] 1) with (ag_agg_seq e) in H.
  unfold lzReceive in H. apply result_bind_ok in H as ([] & _ & H). injection H as <- _.
  eapply world_inv_chains; [exact Hw | by apply with_verifier_le | | by intros src p Hp; left |].
  - apply insert_chain_inv; [apply (wi_chains _ Hw) | apply with_verifier_inv; [by apply (wi_chains _ Hw eid) | done..]].
  - intros e0 c0 seq. rewrite lookup_insert. case_decide as E; [|apply (wi_global _ Hw)]. intros [= <-].
    cbn [with_verifier ch_verifier set_global globalTransferRoots].
    destruct (slot _ (ag_agg_seq e) =? 0) eqn:Ef; [|by apply (wi_global _ Hw eid)].
    rewrite slot_insert. case_decide as Es; [|by apply (wi_global _ Hw eid)]. intros _. by exists e.
Qed.

Definition forged (w : World) : Prop := exists eid c, wo_chains w !! eid = Some c /\ root_forged c.

Lemma world_step_le w w' : world_step self chainid hubEid w w' -> chains_le (wo_chains w) (wo_chains w').
Proof.
  assert (forall cs : gmap Z Chain, chains_le cs cs) as Hrefl.
  { intros cs e c Hc. exists c. split_and!; [done | done | exists []; by rewrite app_nil_r]. }
  intros Hs. destruct Hs; world_simpl; try apply Hrefl; try by apply with_verifier_le.
  eapply chains_le_insert; [done | by eapply chain_step_prefix | by eapply chain_step_grows].
Qed.

Lemma world_step_inv w w' :
  world_inv w -> logs_small w -> world_step self chainid hubEid w w' -> world_inv w' \/ forged w'.
Proof.
  intros Hw Hsm Hs. destruct Hs as [h cs log th tc eid c c' Hc Hst Hg|h cs log th tc eid c o x v' logs p Hc Hr|h cs log th tc i h' logs Ha
    |h cs log th tc src p h' logs Hin Hr|h cs log th tc ts o x r h' logs e sent Hb He|h cs log th tc eid p c v' logs Hc Hin Hr].
  - destruct (step_local h cs log th tc eid c c' Hw Hc Hst Hg) as [H|H]; [by apply (Hsm eid) | by left |].
    right. exists eid, c'. world_simpl. by rewrite lookup_insert_eq.
  - left. by eapply step_relay.
  - left. by eapply step_admin.
  - left. by eapply step_hub_receive.
  - left. by eapply step_broadcast.
  - left. by eapply step_chain_receive.
Qed.

Lemma forged_mono cs cs' : chains_le cs cs' ->
  (exists eid c, cs !! eid = Some c /\ root_forged c) -> exists eid c, cs' !! eid = Some c /\ root_forged c.
Proof.
  intros Hle (eid & c & Hc & Hf). destruct (Hle _ _ Hc) as (c' & Hc' & _ & ps & Hps). exists eid, c'. split; [done|].
  unfold root_forged. rewrite Hps. apply Exists_app. by left.
Qed.

Lemma logs_small_mono w w' : chains_le (wo_chains w) (wo_chains w') -> logs_small w' -> logs_small w.
Proof.
  intros Hle Hs eid c Hc. destruct (Hle _ _ Hc) as (c' & Hc' & Hp & _). specialize (Hs _ _ Hc').
  apply prefix_length in Hp. lia.
Qed.

Lemma world_genesis_inv eids : world_inv (world_genesis self hubEid eids).
Proof.
  assert (forall eid c, wo_chains (world_genesis self hubEid eids) !! eid = Some c -> exists e, c = genesis (self e) hubEid) as Hg.
  { intros eid c H. world_simpl. cbn [wo_chains world_genesis] in H. apply elem_of_list_to_map_2 in H.
    apply list_elem_of_fmap in H as (e & [= -> ->] & _). by exists e. }
  split; cbn [wo_hub wo_log wo_to_hub wo_to_chain world_genesis].
  - apply Hub_init_inv.
  - intros eid c Hc. destruct (Hg _ _ Hc) as [e ->]. apply genesis_inv.
  - intros src p H. by apply elem_of_nil in H.
  - intros i info k r H. done.
  - intros e H. by apply elem_of_nil in H.
  - intros i e H. done.
  - done.
  - intros eid p H. by apply elem_of_nil in H.
  - intros eid c seq Hc Hnz. destruct (Hg _ _ Hc) as [e ->]. by destruct Hnz.
Qed.

Lemma world_reachable_inv eids w :
  world_reachable self chainid hubEid eids w -> logs_small w -> world_inv w \/ forged w.
Proof.
  induction 1 as [|w w' _ IH Hs]; intros Hsm; [left; apply world_genesis_inv|].
  pose proof (world_step_le _ _ Hs) as Hle. destruct (IH (logs_small_mono _ _ Hle Hsm)) as [Hw|Hf].
  - eapply world_step_inv; [exact Hw | by eapply logs_small_mono | exact Hs].
  - right. by eapply forged_mono.
Qed.
End invariant.

(** ** Teleports against global roots *)

Section global_teleports.
Context {C : Crypto} {HC : CryptoLaws C} {R : R1CS} {HR : R1CSLaws C R} {D : Deciders} {HD : DecidersSound C R D}.

Lemma path_last_root sibs : forall leaf i,
  sibs <> [] -> path_root leaf i sibs = poseidon2 (path_last leaf i sibs).1 (path_last leaf i sibs).2.
Proof.
  induction sibs as [|s ss IH]; intros leaf i Hne; [done|]. cbn [path_root path_last]. destruct ss as [|s' ss].
  - cbn [path_root]. by destruct (Z.odd i).
  - rewrite IH by done. by destruct (Z.odd i).
Qed.

Lemma global_tree_range cs eids e i l :
  (forall eid c, cs !! eid = Some c -> chain_inv c) -> global_tree cs eids e i = Some l -> leaf_in_range l.
Proof.
  intros Hcs. unfold global_tree. intros H. apply bind_Some in H as (eid & _ & H). apply bind_Some in H as (k & _ & H).
  apply bind_Some in H as (c & Hc & H). eapply log_tree_range; [|exact H]. apply Forall_take, (ci_range _ (Hcs _ _ Hc)).
Qed.

Lemma global_tree_part cs eids e (p : nat) eid k c j :
  eids !! p = Some eid -> ag_transfer_tree_indices e !! p = Some k -> cs !! eid = Some c -> 0 <= j < 2 ^ 40 ->
  global_tree cs eids e (Z.of_nat p * 2 ^ 40 + j) = log_tree (take (Z.to_nat k) (ch_log c)) j.
Proof.
  intros He Hk Hc Hj. unfold global_tree. rewrite Z.div_add_l, (Z.div_small j), Z.add_0_r, Nat2Z.id by lia.
  rewrite Z.add_comm, Z.mod_add, Z.mod_small by lia. rewrite He. cbn [mbind option_bind]. rewrite Hk. cbn [mbind option_bind].
  by rewrite Hc.
Qed.

Lemma opened_global cs eids e recipient x :
  (forall eid c, cs !! eid = Some c -> chain_inv c) -> event_genuine cs eids e ->
  wx_wf GLOBAL_TRANSFER_TREE_HEIGHT x -> opens GLOBAL_TRANSFER_TREE_HEIGHT (ag_root e) recipient x ->
  claims_leaf (global_tree cs eids e) recipient x \/ is_attack (global_attack cs eids e recipient x).
Proof.
  intros Hcs He (Hv & Hi & Hl & Hs) (Hlt & Hpow & Hroot). unfold global_attack.
  change (2 ^ Z.of_nat GLOBAL_TRANSFER_TREE_HEIGHT) with (2 ^ 46) in Hlt.
  set (leaf := compute_leaf_hash _ _) in *. set (i := wx_leaf_index x) in *.
  assert (0 <= i) as Hi0 by apply Hi.
  assert (0 <= i / 2 ^ 40 < 64) as Hp by (split; [apply Z.div_pos; lia | apply Z.div_lt_upper_bound; lia]).
  set (low := take TRANSFER_TREE_HEIGHT (wx_siblings x)). set (high := drop TRANSFER_TREE_HEIGHT (wx_siblings x)).
  assert (length low = TRANSFER_TREE_HEIGHT /\ length high = AGGREGATION_TREE_HEIGHT) as [Hlow Hhigh].
  { unfold low, high. rewrite length_take, length_drop, Hl. split; reflexivity. }
  rewrite <- (take_drop TRANSFER_TREE_HEIGHT (wx_siblings x)), path_root_app in Hroot by exact Hi0.
  fold low in Hroot. fold high in Hroot. rewrite Hlow in Hroot. change (2 ^ Z.of_nat TRANSFER_TREE_HEIGHT) with (2 ^ 40) in Hroot.
  destruct (find_collision _ _ _ _ high) as [col|] eqn:Ec; [right; by eapply find_collision_sound|].
  apply path_binding in Ec as [Hslot _]; [| |lia].
  2:{ rewrite Hhigh, (Z.div_small (i / 2 ^ 40)) by exact Hp. rewrite <- Hroot. apply (eg_root _ _ _ He). }
  cbn [spec_node] in Hslot. destruct (leaf_fun (ag_snapshot e) (i / 2 ^ 40) =? 0) eqn:Ez; bool_cases.
  { right. cbn [is_attack]. rewrite <- path_last_root; [by rewrite Hslot|].
    intros Hnil. rewrite Hnil in Hlow. unfold TRANSFER_TREE_HEIGHT in Hlow. discriminate Hlow. }
  unfold leaf_fun in Hslot, Ez. destruct (i / 2 ^ 40 <? 0) eqn:En; [done|].
  destruct (ag_snapshot e !! Z.to_nat (i / 2 ^ 40)) as [r|] eqn:Er; cbn [default] in Hslot, Ez; [|done].
  destruct (lookup_lt_is_Some_2 (ag_transfer_tree_indices e) (Z.to_nat (i / 2 ^ 40))) as [k Hk].
  { rewrite (eg_indices _ _ _ He). by eapply lookup_lt_Some. }
  destruct (eg_slots _ _ _ He _ _ _ Hk Er) as (eid & Heid & [[_ ?]|(c & n & Hc & Hkn & Hn & Hr)]); [done|].
  set (T := fun j => global_tree cs eids e (i / 2 ^ 40 * 2 ^ 40 + j)).
  assert (forall j, 0 <= j < 2 ^ 40 -> T j = log_tree (take n (ch_log c)) j) as HT.
  { intros j Hj. unfold T. rewrite <- (Z2Nat.id (i / 2 ^ 40)) by lia.
    rewrite (global_tree_part _ _ _ _ _ _ _ _ Heid Hk Hc Hj), Hkn, Nat2Z.id. reflexivity. }
  set (x' := mkWithdrawExternalInputs _ _ _ _ low).
  assert (claims_leaf T recipient x' \/ is_attack (input_attack T recipient x')) as [[_ Hcl]|Ha]; [| |by right].
  - apply (opened_leaf TRANSFER_TREE_HEIGHT).
    + intros j l. by apply global_tree_range.
    + split; [exact Hv|]. split; [|split; [exact Hlow | by apply Forall_take]]. apply (fr_small _ 40); [|lia].
      apply Z.mod_pos_bound. lia.
    + cbn [x' wx_leaf_index]. apply Z.mod_pos_bound. lia.
    + exact Hpow.
    + cbn [x' wx_leaf_index wx_siblings wx_secret wx_value]. fold leaf.
      change (2 ^ 40) with (2 ^ Z.of_nat TRANSFER_TREE_HEIGHT). rewrite path_root_mod by (rewrite Hlow; lia).
      rewrite Hslot, Hr, <- log_tree_root. apply spec_node_ext. intros j Hj. unfold tree_leaves. rewrite HT; [reflexivity|].
      change (2 ^ Z.of_nat TRANSFER_TREE_HEIGHT) with (2 ^ 40) in Hj. lia.
  - left. split; [exact Hpow|]. unfold T in Hcl. cbn [x' wx_leaf_index wx_secret wx_value] in Hcl.
    rewrite (Z.mul_comm (i / 2 ^ 40)), <- Z.div_mod in Hcl by lia. exact Hcl.
Qed.
End global_teleports.

(** ** Properties *)

Section properties.
Context {C : Crypto} {HC : CryptoLaws C} {R : R1CS} {HR : R1CSLaws C R} {D : Deciders} {HD : DecidersSound C R D}.
Context {P : PoseidonT3} {HP : PoseidonT3Laws C P} {L : Endpoint}.
Context (self chainid : Z -> Z) (hubEid : Z).

(** C14: Every global root is an aggregation of genuine transfer roots: in every
    reachable state of the cross-chain system (any calls and proofs on any chain,
    relays, registrations, broadcasts, and messages lost, reordered or repeated), each
    non-zero entry of a verifier's [globalTransferRoots] is the root of a broadcast of
    the hub with that sequence number, whose snapshot holds at each position the root
    of the first [transferTreeIndices] transfers of the chain registered there (or 0),
    and the root is their Merkle root of height 6; so two verifiers never store
    different roots for one sequence number.  Otherwise an accepted root proof contains
    a collision. *)
Theorem global_roots_genuine eids w :
  world_reachable self chainid hubEid eids w -> logs_small w ->
  (forall eid c seq, wo_chains w !! eid = Some c -> slot (globalTransferRoots (ch_verifier c)) seq <> 0 ->
     (exists e, e ∈ wo_log w /\ ag_agg_seq e = seq /\ ag_root e = slot (globalTransferRoots (ch_verifier c)) seq
        /\ event_genuine (wo_chains w) (hub_eids (wo_hub w)) e)
     /\ forall eid' c', wo_chains w !! eid' = Some c' -> slot (globalTransferRoots (ch_verifier c')) seq <> 0 ->
          slot (globalTransferRoots (ch_verifier c')) seq = slot (globalTransferRoots (ch_verifier c)) seq)
  \/ forged w.
Proof.
  intros Hr Hs. destruct (world_reachable_inv _ _ _ _ _ Hr Hs) as [Hw|Hf]; [left|by right].
  intros eid c seq Hc Hnz. destruct (wi_global _ Hw _ _ _ Hc Hnz) as (e & He & Hseq & Hroot). split.
  - exists e. split_and!; try assumption. by apply (wi_log _ Hw).
  - intros eid' c' Hc' Hnz'. destruct (wi_global _ Hw _ _ _ Hc' Hnz') as (e' & He' & Hseq' & Hroot').
    apply list_elem_of_lookup in He as [i Hi]. apply list_elem_of_lookup in He' as [j Hj].
    pose proof (wi_seqs _ Hw _ _ Hi). pose proof (wi_seqs _ Hw _ _ Hj). assert (i = j) as <- by lia. congruence.
Qed.

(** C10: A global teleport never mints more than was burned on the chains together: when
    a verifier of a reachable cross-chain system accepts a global Nova teleport, the
    cumulative total of the recipient becomes the proved total and only the difference
    is minted, and the total is covered by transfers at strictly increasing positions
    of the tree of trees of the broadcast it names (none counted twice), each of them
    a transfer that really happened on the chain at that position, before that chain's
    relayed index, to a proof-of-work burn address of this recipient; otherwise an
    accepted proof yields a Poseidon or SHA-256 collision or a preimage of zero. *)
Theorem global_teleport_covered_by_burns eids w eid c hint gr proof t' v' logs :
  world_reachable self chainid hubEid eids w -> logs_small w -> wo_chains w !! eid = Some c ->
  teleport (self eid) (chainid eid) true hint gr proof (ch_token c) (ch_verifier c) = Ok (t', v', logs) ->
  let recipient := to_u256 gr in
  let before := slot (totalTeleported (ch_verifier c)) recipient in
  let total := slot (totalTeleported v') recipient in
  (before < total /\ logs = [Teleport (gr_address gr mod 2 ^ 160) (total - before)]
   /\ exists e xs, e ∈ wo_log w /\ ag_agg_seq e = hint
        /\ withdraw_witness true (abi_words 34 proof) xs /\ StronglySorted Z.lt (wx_leaf_index <$> xs)
        /\ let T := global_tree (wo_chains w) (hub_eids (wo_hub w)) e in
           (Forall (fun x => wx_real x = true -> claims_leaf T recipient x) xs
            /\ total <= sum_Z (claimed_value T <$> xs))
           \/ Exists (fun x => wx_real x = true
                /\ is_attack (global_attack (wo_chains w) (hub_eids (wo_hub w)) e recipient x)) xs)
  \/ forged w.
Proof.
  intros Hr Hs Hc Ht. destruct (world_reachable_inv _ _ _ _ _ Hr Hs) as [Hw|Hf]; [left|by right].
  apply teleport_ok in Ht as (H3 & H4 & H5 & H6 & Hd & Ht).
  pose proof (teleport_common_ok _ _ _ _ _ _ _ _ _ _ _ _ _ Ht) as (Hroot & Hnz & Hrec & _ & Hlt & -> & -> & _ & _).
  rewrite Hrec in *. cbn [set_teleported totalTeleported]. set (total := word (abi_words 34 proof) 8) in *.
  rewrite slot_insert, decide_True by reflexivity. split; [exact Hlt|]. split; [reflexivity|].
  cbn iota in Hroot. rewrite <- Hroot in Hnz. destruct (wi_global _ Hw _ _ _ Hc Hnz) as (e & He & Hseq & Her).
  destruct (withdraw_decider_sound true _ Hd) as (xs & Hwit). exists e, xs.
  split; [exact He|]. split; [exact Hseq|]. split; [exact Hwit|].
  pose proof (wi_log _ Hw e He) as Hg. destruct Hwit as (Hwf & cfg & Hcfg & Hrun).
  rewrite H3, H4, H5, H6, <- Hroot, <- Her, Hrec in Hrun.
  edestruct (withdraw_fold_covered GLOBAL_TRANSFER_TREE_HEIGHT cfg (ag_root e)
    (global_tree (wo_chains w) (hub_eids (wo_hub w)) e) (to_u256 gr)
    (fun x => is_attack (global_attack (wo_chains w) (hub_eids (wo_hub w)) e (to_u256 gr) x)) xs)
    as (i1 & tot & Hz & _ & Hsort & Hb); [exact Hcfg | by vm_compute; lia | | exact Hwf | | exact Hrun |].
  - rewrite (eg_root _ _ _ Hg). apply spec_node_fr. intros j. apply (event_leaf_fr w e j Hw He).
  - intros x Hx Ho. apply opened_global; [apply (wi_chains _ Hw) | exact Hg | exact Hx | exact Ho].
  - injection Hz as _ Hz. rewrite <- Hz in Hb. split; [exact Hsort | exact Hb].
Qed.
End properties.

(** ** Witnesses: one burn, relayed to the hub, broadcast back and teleported *)

Section witnesses.
#[local] Existing Instance toy_crypto.
#[local] Existing Instance toy_crypto_laws.
#[local] Existing Instance toy_r1cs.
#[local] Existing Instance toy_r1cs_laws.

Definition toy_poseidonT3 : PoseidonT3 := {| PoseidonT3_hash := poseidon2 |}.
#[local] Existing Instance toy_poseidonT3.
Lemma toy_poseidonT3_laws : PoseidonT3Laws toy_crypto toy_poseidonT3.
Proof. by split. Qed.
#[local] Existing Instance toy_poseidonT3_laws.

Definition toy_endpoint : Endpoint := {| lz_quote := fun _ _ _ => Some (5, 0); lz_send := fun _ _ _ _ => Some [1] |}.
#[local] Existing Instance toy_endpoint.

Definition toy_agg_root : Z := Eval vm_compute in default 0 (computeAggregationRoot [toy_r1] generateZeroHashes).
Definition toy_global_path : list Z := Eval vm_compute in toy_path ++ take 6 generateZeroHashes.
Definition toy_global_words : list Z :=
  [1; toy_agg_root; toy_recipient; 0; 0; toy_agg_root; toy_recipient; 1; 30] ++ replicate 25 0.

(** Verifiers that accept the root proof of the burn and its global withdrawal only. *)
Definition toy_global_deciders : Deciders := {|
  rootDecider := fun w => bool_decide (w = toy_root_words);
  withdrawDecider := fun g w => g && bool_decide (w = toy_global_words);
  singleWithdrawVerifier := fun _ _ _ => false;
|}.
#[local] Existing Instance toy_global_deciders.

Lemma toy_global_deciders_sound : DecidersSound toy_crypto toy_r1cs toy_global_deciders.
Proof.
  split; cbn [rootDecider withdrawDecider singleWithdrawVerifier toy_global_deciders].
  - apply (@root_decider_sound _ _ _ toy_deciders_sound).
  - intros [] w Hw; [|done]. apply bool_decide_eq_true in Hw as ->.
    exists [mkWithdrawExternalInputs 0 30 toy_secret 0 toy_global_path]. split.
    + apply (bool_decide_unpack _). by vm_compute.
    + exists toy_cfg. by split; vm_compute.
  - done.
Qed.
#[local] Existing Instance toy_global_deciders_sound.

Definition toy_info : TokenInfo := mkTokenInfo 1 7 9 8.
Definition toy_hub : Hub := mkHub [toy_r1] [1] [toy_info] {[7 := 1]} generateZeroHashes 1 true.
Definition toy_event : AggregationRootUpdatedEvent := mkAggEvent toy_agg_root 1 [toy_r1] [1].
Definition toy_final : Chain :=
  mkChain (mkToken 1 toy_c1 9)
    (mkVerifier 0 1 1 1 1 {[1 := toy_c1]} (<[1 := toy_r1]> {[0 := toy_r0]}) {[1 := toy_agg_root]} ∅ false)
    [toy_burn] [([toy_burn], toy_root_words)].
Definition toy_world : World :=
  mkWorld toy_hub {[7 := toy_final]} [toy_event] [(7, abi_encode_words [toy_r1; 1])] [(7, abi_encode_words [toy_agg_root; 1])].

Lemma toy_crosschain_reachable : world_reachable (fun _ => 9) (fun _ => 1) 0 [7] toy_world.
Proof.
  pose proof (wr_genesis (fun _ => 9) (fun _ => 1) 0 [7]) as H. unfold world_genesis in H.
  change (list_to_map ((fun e => (e, genesis 9 0)) <$> [7])) with ({[7 := genesis 9 0]} : gmap Z Chain) in H.
  unfold genesis, Verifier_init in H. rewrite toy_root_0 in H.
  eapply wr_step in H; [|eapply ws_local; [apply lookup_singleton_eq |
    apply (step_transfer 9 1 _ (leaf_address toy_burn) 30 (mkToken 1 toy_c1 9)); [cbn; lia | lia | by vm_compute] | reflexivity]].
  eapply wr_step in H; [|eapply ws_local; [apply lookup_insert_eq | apply step_reserve | reflexivity]].
  eapply wr_step in H; [|eapply ws_local; [apply lookup_insert_eq |
    eapply (step_prove 9 1 _ (abi_encode_words toy_root_words)); vm_compute; reflexivity | reflexivity]].
  eapply wr_step in H; [|eapply (ws_relay _ _ _ _ _ _ _ _ 7 _ [] 5); [apply lookup_insert_eq | vm_compute; reflexivity]].
  eapply wr_step in H; [|eapply (ws_admin _ _ _ _ _ _ _ _ toy_info); left; vm_compute; reflexivity].
  eapply wr_step in H; [|eapply (ws_hub_receive _ _ _ _ _ _ _ _ 7); [by left | vm_compute; reflexivity]].
  eapply wr_step in H; [|eapply (ws_broadcast _ _ _ _ _ _ _ _ [7] [] 5 true); vm_compute; reflexivity].
  eapply wr_step in H; [|eapply (ws_chain_receive _ _ _ _ _ _ _ _ 7); [apply lookup_insert_eq | by left | vm_compute; reflexivity]].
  match type of H with world_reachable _ _ _ _ ?w => assert (w = toy_world) as <-; [|exact H] end.
  vm_compute. reflexivity.
Qed.

Lemma toy_world_small : logs_small toy_world.
Proof. intros eid c Hc. cbn [wo_chains toy_world] in Hc. apply lookup_singleton_Some in Hc as [_ <-]. cbn. lia. Qed.

Lemma global_roots_genuine_witness :
  (forall eid c seq, wo_chains toy_world !! eid = Some c -> slot (globalTransferRoots (ch_verifier c)) seq <> 0 ->
     (exists e, e ∈ wo_log toy_world /\ ag_agg_seq e = seq /\ ag_root e = slot (globalTransferRoots (ch_verifier c)) seq
        /\ event_genuine (wo_chains toy_world) (hub_eids (wo_hub toy_world)) e)
     /\ forall eid' c', wo_chains toy_world !! eid' = Some c' -> slot (globalTransferRoots (ch_verifier c')) seq <> 0 ->
          slot (globalTransferRoots (ch_verifier c')) seq = slot (globalTransferRoots (ch_verifier c)) seq)
  \/ forged toy_world.
Proof.
  apply (global_roots_genuine (fun _ => 9) (fun _ => 1) 0 [7] toy_world); [apply toy_crosschain_reachable | apply toy_world_small].
Defined.

Definition toy_global_teleported : result Revert (Token * Verifier * list VerifierEvent) :=
  Eval vm_compute in teleport 9 1 true 1 toy_gr (abi_encode_words toy_global_words) (ch_token toy_final) (ch_verifier toy_final).

Lemma global_teleport_covered_witness :
  match toy_global_teleported with
  | Ok (t', v', logs) =>
    (0 < 30 /\ logs = [Teleport 77 30]
     /\ exists e xs, e ∈ wo_log toy_world /\ ag_agg_seq e = 1
        /\ withdraw_witness true (abi_words 34 (abi_encode_words toy_global_words)) xs /\ StronglySorted Z.lt (wx_leaf_index <$> xs)
        /\ let T := global_tree (wo_chains toy_world) (hub_eids (wo_hub toy_world)) e in
           (Forall (fun x => wx_real x = true -> claims_leaf T (to_u256 toy_gr) x) xs
            /\ 30 <= sum_Z (claimed_value T <$> xs))
           \/ Exists (fun x => wx_real x = true
                /\ is_attack (global_attack (wo_chains toy_world) (hub_eids (wo_hub toy_world)) e (to_u256 toy_gr) x)) xs)
    \/ forged toy_world
  | Err _ => False
  end.
Proof.
  unfold toy_global_teleported.
  edestruct (global_teleport_covered_by_burns (fun _ => 9) (fun _ => 1) 0 [7] toy_world 7 toy_final 1 toy_gr
    (abi_encode_words toy_global_words)) as [(H1 & H2 & H3)|Hf];
    [apply toy_crosschain_reachable | apply toy_world_small | apply lookup_singleton_eq | by vm_compute | | by right].
  left. split; [lia|]. split; [by vm_compute | exact H3].
Defined.
End witnesses.
