(* ===== verification/TeleportFlow.v ===== *)
(** The client against the contracts: the aggregation tree it rebuilds is the hub's,
    and which burns it finds eligible ([client-common/src/teleport] on top of the
    cross-chain system). *)

From S2P Require Import Prelude Words Crypto BitPaths MerkleTrees Gadgets Circuits Folding Database OnChain OnChainSpec Events Leases Jobs Teleport TreeDb TreeDbSpec TeleportSpec Hub HubSpec CrossChain CrossChainSpec.
Local Open Scope Z_scope.

(** The views the client reads: the hub's node serves the hub's broadcasts and token
    list, and the verifier's getters read its storage. *)
Record client_views (w : World) (v : Verifier) (H : HubNode) (V : VerifierView) (latest : Z)
  (log : list (Z * AggregationRootUpdatedEvent)) : Prop := {
  vw_log : log.*2 = wo_log w;
  vw_serves : serves_log H latest log;
  vw_ids : hub_chain_ids = Ok (ti_chainId <$> tokenInfos (wo_hub w));
  vw_seq : view_latest_agg_seq = Ok (latestAggSeq v);
  vw_roots : forall seq, view_global_transfer_root seq = Ok (slot (globalTransferRoots v) seq);
}.

Section flow.
Context {C : Crypto} {HC : CryptoLaws C} {R : R1CS} {HR : R1CSLaws C R} {D : Deciders} {HD : DecidersSound C R D}.
Context {P : PoseidonT3} {HP : PoseidonT3Laws C P} {L : Endpoint}.
Context (self chainid : Z -> Z) (hubEid : Z).

Lemma snapshot_leaves_id snapshot : Forall is_fr snapshot -> snapshot_leaves snapshot = leaf_fun snapshot.
Proof.
  intros H. unfold snapshot_leaves. f_equal. induction H as [|x l Hx _ IH]; [done|]. cbn [fmap list_fmap].
  by rewrite u256_to_fr_id, IH.
Qed.

Lemma event_snapshot_fr cs ids e : event_genuine cs ids e -> Forall is_fr (ag_snapshot e).
Proof.
  intros Hg. apply Forall_lookup. intros i r Hr.
  destruct (lookup_lt_is_Some_2 (ag_transfer_tree_indices e) i) as [k Hk].
  { rewrite (eg_indices _ _ _ Hg). by eapply lookup_lt_Some. }
  destruct (eg_slots _ _ _ Hg _ _ _ Hk Hr) as (eid & _ & Hs). by eapply slot_genuine_fr.
Qed.

Lemma elem_of_rev {A} (x : A) l : x ∈ rev l <-> x ∈ l.
Proof. by rewrite !list_elem_of_In, <- in_rev. Qed.

(** Sequence numbers determine the event. *)
Lemma latest_with_seq_unique w log e :
  world_inv w -> log.*2 = wo_log w -> e ∈ wo_log w -> latest_with_seq (ag_agg_seq e) log = Some e.
Proof.
  intros Hw Hlog He. unfold latest_with_seq. rewrite Hlog.
  destruct (head (filter _ _)) as [e'|] eqn:Eh.
  - assert (e' ∈ filter (fun x => ag_agg_seq x = ag_agg_seq e) (rev (wo_log w))) as Hin.
    { destruct (filter _ _); [done|]. injection Eh as ->. by left. }
    apply list_elem_of_filter in Hin as [Hs Hin]. rewrite elem_of_rev in Hin.
    apply list_elem_of_lookup in He as [i Hi]. apply list_elem_of_lookup in Hin as [j Hj].
    pose proof (wi_seqs _ Hw _ _ Hi). pose proof (wi_seqs _ Hw _ _ Hj). assert (i = j) as <- by lia. congruence.
  - exfalso. assert (e ∈ filter (fun x => ag_agg_seq x = ag_agg_seq e) (rev (wo_log w))) as Hin.
    { apply list_elem_of_filter. split; [done|]. by rewrite elem_of_rev. }
    destruct (filter _ _); [by apply elem_of_nil in Hin | done].
Qed.

(** The client's state, for the broadcast [e] whose root the verifier stores. *)
Lemma client_state eids w eid c H V latest log span fuel :
  world_reachable self chainid hubEid eids w -> logs_small w -> wo_chains w !! eid = Some c ->
  client_views w (ch_verifier c) H V latest log -> 0 < span < 2 ^ 64 -> latest / span < Z.of_nat fuel ->
  slot (globalTransferRoots (ch_verifier c)) (latestAggSeq (ch_verifier c)) <> 0 ->
  (world_inv w /\ exists s e, fetch_aggregation_tree_state fuel span = Ok s
     /\ e ∈ wo_log w /\ event_genuine (wo_chains w) (hub_eids (wo_hub w)) e /\ ag_agg_seq e = latestAggSeq (ch_verifier c)
     /\ state_of_snapshot s (ag_snapshot e) /\ latest_agg_seq s = latestAggSeq (ch_verifier c) /\ is_fr (aggregation_root s)
     /\ aggregation_root s = slot (globalTransferRoots (ch_verifier c)) (latestAggSeq (ch_verifier c))
     /\ tree_root_indices s = ag_transfer_tree_indices e
     /\ chain_ids s = ti_chainId <$> tokenInfos (wo_hub w))
  \/ forged w.
Proof.
  intros Hr Hs Hc Hv Hspan Hf Hnz. destruct (world_reachable_inv _ _ _ _ _ Hr Hs) as [Hw|Hforged]; [left|by right].
  destruct (wi_global _ Hw _ _ _ Hc Hnz) as (e & He & Hseq & Hroot). pose proof (wi_log _ Hw e He) as Hg.
  pose proof (event_snapshot_fr _ _ _ Hg) as Hfr.
  assert (is_fr (ag_root e)) as Hrf.
  { rewrite (eg_root _ _ _ Hg). apply spec_node_fr. intros j. by apply (event_leaf_fr w). }
  destruct (fetch_aggregation_tree_state_ok (H := H) (V := V) latest log (latestAggSeq (ch_verifier c)) span fuel e
    (ti_chainId <$> tokenInfos (wo_hub w))) as (s & H1 & H2 & H3 & H4 & H5 & H6).
  - apply (vw_serves _ _ _ _ _ _ Hv).
  - exact Hspan.
  - exact Hf.
  - apply (vw_seq _ _ _ _ _ _ Hv).
  - apply list_elem_of_lookup in He as [i Hi]. pose proof (wi_seqs _ Hw _ _ Hi). lia.
  - rewrite (vw_roots _ _ _ _ _ _ Hv). by rewrite Hroot.
  - rewrite <- Hseq. apply (latest_with_seq_unique w); [exact Hw | apply (vw_log _ _ _ _ _ _ Hv) | exact He].
  - apply (eg_cap _ _ _ Hg).
  - rewrite u256_to_fr_id, snapshot_leaves_id by done. apply (eg_root _ _ _ Hg).
  - apply (vw_ids _ _ _ _ _ _ Hv).
  - split; [exact Hw|]. exists s, e. rewrite H4, Hroot. rewrite Hroot in Hrf. split_and!; assumption || reflexivity.
Qed.


(** ** Eligibility *)

Lemma position_lookup x l i : position x l = Some i -> l !! i = Some x.
Proof.
  revert i. induction l as [|y l IH]; intros i; cbn [position]; [done|]. destruct (y =? x) eqn:E; bool_cases.
  - intros [= <-]. by subst.
  - destruct (position x l) as [j|]; [|done]. intros [= <-]. by apply IH.
Qed.

Lemma position_notin x l rest : x ∉ l -> position x (l ++ x :: rest) = Some (length l).
Proof.
  induction l as [|y l IH]; intros Hn; cbn [app position length].
  - by rewrite Z.eqb_refl.
  - apply not_elem_of_cons in Hn as [Hne Hn]. destruct (y =? x) eqn:E; bool_cases; [congruence|]. by rewrite IH.
Qed.

Lemma separate_chain_ok s c x :
  separate_chain s c = Ok x ->
  x.1 = c.1 /\ eligible x.2 ++ ineligible x.2 ≡ₚ c.2
  /\ exists i k, chain_ids s !! i = Some c.1 /\ tree_root_indices s !! i = Some k
       /\ Forall (fun e => ie_event_index e < k) (eligible x.2) /\ Forall (fun e => k <= ie_event_index e) (ineligible x.2).
Proof.
  unfold separate_chain. intros H. apply result_bind_ok in H as (k & Hk & H). injection H as <-. cbn [fst snd eligible ineligible].
  split; [done|]. split; [apply filter_app_complement|].
  unfold get_tree_id_for_chain_id in Hk. destruct (position c.1 (chain_ids s)) as [i|] eqn:Ep; [|done].
  destruct (tree_root_indices s !! i) as [k'|] eqn:Et; [|done]. injection Hk as ->.
  exists i, k. split; [by apply position_lookup|]. split; [done|].
  split; apply Forall_forall; intros e He; apply list_elem_of_filter in He as [He _]; lia.
Qed.

End flow.

(** ** Witnesses *)

Section witnesses.
#[local] Existing Instance toy_crypto.
#[local] Existing Instance toy_crypto_laws.
#[local] Existing Instance toy_r1cs.
#[local] Existing Instance toy_r1cs_laws.
#[local] Existing Instance toy_poseidonT3.
#[local] Existing Instance toy_poseidonT3_laws.
#[local] Existing Instance toy_endpoint.
#[local] Existing Instance toy_global_deciders.
#[local] Existing Instance toy_global_deciders_sound.

Definition toy_flow_log : list (Z * AggregationRootUpdatedEvent) := [(4, toy_event)].
Definition toy_flow_hub : HubNode := {|
  hub_latest_block := Ok 9;
  hub_aggregation_root_events := fun a b => Ok (filter (fun x => a <= x.1 <= b) toy_flow_log).*2;
  hub_chain_ids := Ok [1];
|}.
Definition toy_flow_view : VerifierView := {|
  view_latest_agg_seq := Ok 1;
  view_global_transfer_root := fun seq => Ok (slot {[1 := toy_agg_root]} seq);
|}.

Lemma toy_client_views : client_views toy_world (ch_verifier toy_final) toy_flow_hub toy_flow_view 9 toy_flow_log.
Proof.
  split; try reflexivity. split; cbn [hub_latest_block hub_aggregation_root_events toy_flow_hub]; try done; try lia.
  - repeat constructor.
  - repeat constructor; cbn; lia.
Qed.


(** A hub that broadcast with one token and then registered another. *)
Definition toy_hub1 : Hub := mkHub [0] [0] [toy_info] {[7 := 1]} generateZeroHashes 0 false.
Lemma toy_hub1_reachable : hub_reachable toy_hub1.
Proof. eapply hr_step; [apply hr_init|]. apply (hub_register _ toy_info _ [TokenRegistered 7 0 1 8 9]). by vm_compute. Qed.


(** Registering a second endpoint on it. *)
Lemma hub_storage_invariant_witness :
  let h' := mkHub [0; 0] [0; 0] [toy_info; mkTokenInfo 2 8 9 8] (<[8 := 2]> {[7 := 1]}) generateZeroHashes 0 false in
  hub_inv h' /\ hub_le toy_hub1 h'
  /\ (forall i j x y, tokenInfos h' !! i = Some x -> tokenInfos h' !! j = Some y -> ti_eid x = ti_eid y -> i = j).
Proof.
  eapply (hub_storage_invariant toy_hub1); [apply toy_hub1_reachable|].
  apply (hub_register _ (mkTokenInfo 2 8 9 8) _ [TokenRegistered 8 1 2 8 9]). by vm_compute.
Defined.
End witnesses.
