(* ===== verification/Payment.v ===== *)
(** The payment helpers of [client-common/src/payment]: invoice identifiers and the
    derivation of secrets and tweaks ([invoice.rs]), the full burn address and its
    105-byte encoding ([burn_address.rs]), the seed of a wallet ([seed.rs]). *)

From S2P Require Import Prelude Words Crypto BitPaths MerkleTrees Gadgets Circuits.
Local Open Scope Z_scope.

(** ** [invoice.rs]: invoice identifiers *)

Definition INVOICE_SECRET_DOMAIN : list Z := [0x69; 0x73; 0x65; 0x63].          (* b"isec" *)
Definition INVOICE_TWEAK_DOMAIN : list Z := [0x69; 0x74; 0x77; 0x6b].           (* b"itwk" *)
Definition PAYMENT_ADVICE_SECRET_DOMAIN : list Z := [0x70; 0x73; 0x65; 0x63].   (* b"psec" *)
Definition PAYMENT_ADVICE_TWEAK_DOMAIN : list Z := [0x70; 0x74; 0x77; 0x6b].    (* b"ptwk" *)
Definition SINGLE_FLAG_MASK : Z := 0x80.

(** [bytes[start .. start + length src].copy_from_slice(&src)] on an array that is long enough. *)
Definition copy_from_slice (start : nat) (src bytes : list Z) : list Z :=
  take start bytes ++ src ++ drop (start + length src) bytes.

(** [random] is what [OsRng.fill_bytes] wrote into the array. *)
Definition random_invoice_id (random : list Z) (is_single : bool) (chain_id : Z) : Z :=
  let b0 := nth 0 random 0 in
  let flagged := if is_single then Z.lor b0 SINGLE_FLAG_MASK
                 else Z.land b0 (Z.lxor SINGLE_FLAG_MASK 0xff) in
  be_val (copy_from_slice 1 (u64_to_be_bytes chain_id) (<[0%nat := flagged]> random)).

Definition is_single (invoice_id : Z) : bool :=
  negb (Z.land (nth 0 (b256_bytes invoice_id) 0) SINGLE_FLAG_MASK =? 0).

Definition extract_chain_id (invoice_id : Z) : Z :=
  be_val (take 8 (drop 1 (b256_bytes invoice_id))).

Definition random_payment_advice_id (random : list Z) : Z := be_val random.

(** ** [invoice.rs]: secrets and tweaks *)

Record SecretAndTweak := mkSecretAndTweak { st_secret : Z; st_tweak : Z }.

Section derivation.
Context {C : Crypto}.

(** [None]: no admissible nonce among the first [fuel]. *)
Definition pow_adjusted_secret (fuel : nat) (base_secret tweak recipient_chain_id recipient_address : Z)
  : option Z :=
  let gr := new_evm recipient_chain_id recipient_address tweak in
  let recipient_fr := to_fr gr in
  let secret_seed_fr := b256_to_fr base_secret in
  nonce ← find_pow_nonce fuel recipient_fr secret_seed_fr;
  let secret_fr := secret_from_nonce secret_seed_fr nonce in
  Some (fr_to_b256 secret_fr).

Definition single_invoice (fuel : nat) (invoice_id seed recipient_chain_id recipient_address : Z)
  : option SecretAndTweak :=
  let base_secret := be_val (keccak256 (INVOICE_SECRET_DOMAIN ++ b256_bytes seed ++ b256_bytes invoice_id)) in
  let tweak := be_val (keccak256 (INVOICE_TWEAK_DOMAIN ++ b256_bytes seed ++ b256_bytes invoice_id)) in
  secret ← pow_adjusted_secret fuel base_secret tweak recipient_chain_id recipient_address;
  Some (mkSecretAndTweak secret tweak).

Definition batch_invoice (fuel : nat) (invoice_id sub_id seed recipient_chain_id recipient_address : Z)
  : option SecretAndTweak :=
  let sub_id_bytes := u32_to_be_bytes sub_id in
  let base_secret :=
    be_val (keccak256 (INVOICE_SECRET_DOMAIN ++ b256_bytes seed ++ b256_bytes invoice_id ++ sub_id_bytes)) in
  let tweak := be_val (keccak256 (INVOICE_TWEAK_DOMAIN ++ b256_bytes seed ++ b256_bytes invoice_id)) in
  secret ← pow_adjusted_secret fuel base_secret tweak recipient_chain_id recipient_address;
  Some (mkSecretAndTweak secret tweak).

Definition payment_advice (fuel : nat) (payment_advice_id seed recipient_chain_id recipient_address : Z)
  : option SecretAndTweak :=
  let base_secret :=
    be_val (keccak256 (PAYMENT_ADVICE_SECRET_DOMAIN ++ b256_bytes seed ++ b256_bytes payment_advice_id)) in
  let tweak :=
    be_val (keccak256 (PAYMENT_ADVICE_TWEAK_DOMAIN ++ b256_bytes seed ++ b256_bytes payment_advice_id)) in
  secret ← pow_adjusted_secret fuel base_secret tweak recipient_chain_id recipient_address;
  Some (mkSecretAndTweak secret tweak).
End derivation.

(** ** [burn_address.rs] *)

Record FullBurnAddress := mkFullBurnAddress { fb_gr : GeneralRecipient; fb_secret : Z }.

Definition FULL_BURN_ADDRESS_VERSION : Z := 1.
Definition FULL_BURN_ADDRESS_SERIALIZED_LEN : nat := 1 + 8 + 32 + 32 + 32.

Inductive BurnCodecError :=
| BurnPow (e : BurnAddressError)
| BurnLength (got : nat)
| BurnVersion (got : Z).

Definition FullBurnAddress_to_bytes (b : FullBurnAddress) : list Z :=
  [FULL_BURN_ADDRESS_VERSION] ++ u64_to_be_bytes (gr_chain_id (fb_gr b)) ++ b256_bytes (gr_address (fb_gr b))
  ++ b256_bytes (gr_tweak (fb_gr b)) ++ b256_bytes (fb_secret b).

(** [&bytes[first..last]]. *)
Definition slice (first last : nat) (bytes : list Z) : list Z := take (last - first) (drop first bytes).

Definition FullBurnAddress_from_bytes (bytes : list Z) : result BurnCodecError FullBurnAddress :=
  if negb (length bytes =? FULL_BURN_ADDRESS_SERIALIZED_LEN)%nat then Err (BurnLength (length bytes))
  else if negb (nth 0 bytes 0 =? FULL_BURN_ADDRESS_VERSION) then Err (BurnVersion (nth 0 bytes 0))
  else
    let chain_id := be_val (slice 1 9 bytes) in
    let address := be_val (slice 9 41 bytes) in
    let tweak := be_val (slice 41 73 bytes) in
    let secret := be_val (slice 73 105 bytes) in
    Ok (mkFullBurnAddress (mkGeneralRecipient chain_id address tweak) secret).

Section burn_address.
Context {C : Crypto}.

Definition FullBurnAddress_new (recipient_chain_id recipient_address : Z) (st : SecretAndTweak)
  : result BurnCodecError FullBurnAddress :=
  let gr := new_evm recipient_chain_id recipient_address (st_tweak st) in
  let recipient_fr := to_fr gr in
  let secret_fr := b256_to_fr (st_secret st) in
  _ ← map_err BurnPow (compute_burn_address_from_secret recipient_fr secret_fr);
  Ok (mkFullBurnAddress gr (st_secret st)).

Definition burn_address (b : FullBurnAddress) : result BurnCodecError Z :=
  let recipient_fr := to_fr (fb_gr b) in
  burn_address_fr ← map_err BurnPow (compute_burn_address_from_secret recipient_fr (b256_to_fr (fb_secret b)));
  Ok (fr_to_address burn_address_fr).
End burn_address.

(** ** [seed.rs] *)

(** The wallet's signer: [from_bytes] rejects keys that are not a scalar of the
    curve, [sign_message] gives the 65 bytes of a recoverable signature. *)
Class Signer := {
  signer_from_bytes : list Z -> option (list Z -> option (list Z));
}.

Inductive SeedError := InvalidPrivateKey | SigningFailed.

Definition compute_seed_from_signature {C : Crypto} {S : Signer} (SEED_MESSAGE : list Z) (private_key : Z)
  : result SeedError Z :=
  signer ← ok_or InvalidPrivateKey (signer_from_bytes (b256_bytes private_key));
  signature ← ok_or SigningFailed (signer SEED_MESSAGE);
  Ok (be_val (keccak256 signature)).

(** * Properties *)

(** ** Slices of concatenated fields *)

Lemma slice_app (a b c : list Z) first last :
  length a = first -> (first + length b)%nat = last -> slice first last (a ++ b ++ c) = b.
Proof.
  intros <- <-. unfold slice. rewrite drop_app_length.
  replace (length a + length b - length a)%nat with (length b) by lia. by rewrite take_app_length.
Qed.

Lemma slice_split (l : list Z) first last :
  (first <= last)%nat -> slice first last l ++ drop last l = drop first l.
Proof.
  intros H. unfold slice. rewrite <- (take_drop (last - first) (drop first l)) at 2.
  rewrite drop_drop. do 2 f_equal. lia.
Qed.

Lemma length_slice (l : list Z) first last :
  (first <= last <= length l)%nat -> length (slice first last l) = (last - first)%nat.
Proof. intros H. unfold slice. rewrite length_take, length_drop. lia. Qed.

Lemma slice_bytes (l : list Z) first last : Forall in_u8 l -> Forall in_u8 (slice first last l).
Proof. intros. unfold slice. by apply Forall_take, Forall_drop. Qed.

(** A field of [n] bytes decodes to an integer of [n] bytes and encodes back. *)
Lemma slice_field (l : list Z) first last n :
  Forall in_u8 l -> (first <= last <= length l)%nat -> (last - first)%nat = n ->
  be_bytes n (be_val (slice first last l)) = slice first last l
  /\ 0 <= be_val (slice first last l) < 256 ^ Z.of_nat n.
Proof.
  intros Hl Hr Hn. pose proof (slice_bytes l first last Hl) as Hs.
  pose proof (length_slice l first last Hr) as Hlen. rewrite Hn in Hlen.
  split; [rewrite <- Hlen; by apply be_bytes_be_val|]. rewrite <- Hlen. by apply be_val_range.
Qed.

(** ** The encoding of a full burn address *)

Definition full_burn_wf (b : FullBurnAddress) : Prop :=
  in_u64 (gr_chain_id (fb_gr b)) /\ in_u256 (gr_address (fb_gr b))
  /\ in_u256 (gr_tweak (fb_gr b)) /\ in_u256 (fb_secret b).

Lemma to_bytes_length b : length (FullBurnAddress_to_bytes b) = FULL_BURN_ADDRESS_SERIALIZED_LEN.
Proof.
  unfold FullBurnAddress_to_bytes, u64_to_be_bytes, b256_bytes.
  by rewrite !length_app, !length_be_bytes.
Qed.

Lemma burn_from_to_bytes b : full_burn_wf b -> FullBurnAddress_from_bytes (FullBurnAddress_to_bytes b) = Ok b.
Proof.
  destruct b as [[chain address tweak] secret]. intros (Hc & Ha & Ht & Hs).
  unfold FullBurnAddress_from_bytes. rewrite to_bytes_length, Nat.eqb_refl. cbn [negb].
  change (nth 0 (FullBurnAddress_to_bytes _) 0) with FULL_BURN_ADDRESS_VERSION. rewrite Z.eqb_refl. cbn [negb].
  unfold FullBurnAddress_to_bytes. cbn [fb_gr fb_secret gr_chain_id gr_address gr_tweak] in *.
  set (v := [FULL_BURN_ADDRESS_VERSION]). set (c := u64_to_be_bytes chain). set (a := b256_bytes address).
  set (t := b256_bytes tweak). set (s := b256_bytes secret).
  assert (length c = 8 /\ length a = 32 /\ length t = 32 /\ length s = 32)%nat as (Lc & La & Lt & Ls).
  { split_and!; apply length_be_bytes. }
  rewrite (slice_app v c) by (rewrite ?Lc; done).
  rewrite (app_assoc v c), (slice_app (v ++ c) a) by (rewrite ?length_app, ?Lc, ?La; done).
  rewrite (app_assoc (v ++ c) a), (slice_app ((v ++ c) ++ a) t)
    by (rewrite ?length_app, ?Lc, ?La, ?Lt; done).
  rewrite (app_assoc ((v ++ c) ++ a) t), <- (app_nil_r s), (slice_app (((v ++ c) ++ a) ++ t) s)
    by (rewrite ?length_app, ?Lc, ?La, ?Lt, ?Ls; done).
  unfold c, a, t, s. rewrite u64_bytes_roundtrip by done.
  fold (u256_to_be_bytes address) (u256_to_be_bytes tweak) (u256_to_be_bytes secret).
  unfold b256_bytes. fold (u256_to_be_bytes address) (u256_to_be_bytes tweak) (u256_to_be_bytes secret).
  by rewrite !u256_bytes_roundtrip.
Qed.

Lemma burn_to_from_bytes bs b :
  Forall in_u8 bs -> FullBurnAddress_from_bytes bs = Ok b ->
  FullBurnAddress_to_bytes b = bs /\ full_burn_wf b.
Proof.
  intros Hbs. unfold FullBurnAddress_from_bytes. if_case E1; [done|]. if_case E2; [done|].
  apply Nat.eqb_eq in E1. intros [= <-].
  unfold FULL_BURN_ADDRESS_SERIALIZED_LEN in E1. cbn in E1.
  destruct (slice_field bs 1 9 8) as [F1 R1]; [done | lia | done |].
  destruct (slice_field bs 9 41 32) as [F2 R2]; [done | lia | done |].
  destruct (slice_field bs 41 73 32) as [F3 R3]; [done | lia | done |].
  destruct (slice_field bs 73 105 32) as [F4 R4]; [done | lia | done |].
  split; [|done]. unfold FullBurnAddress_to_bytes, u64_to_be_bytes, b256_bytes.
  cbn [fb_gr fb_secret gr_chain_id gr_address gr_tweak]. rewrite F1, F2, F3, F4.
  assert (slice 73 105 bs = drop 73 bs) as -> by (apply take_ge; rewrite length_drop; lia).
  rewrite !slice_split by lia.
  destruct bs as [|v bs]; [discriminate E1|]. cbn [nth] in E2. rewrite E2. by cbn [drop app].
Qed.

(** The 105-byte encoding of a full burn address is exact: a well-formed address decodes from its encoding, every byte string that decodes
    is the encoding of the (well-formed) address it decodes to, and decoding fails exactly on a wrong
    length or, at the right length, on a version byte other than 1. *)
Theorem full_burn_address_roundtrip :
  (forall b, full_burn_wf b -> FullBurnAddress_from_bytes (FullBurnAddress_to_bytes b) = Ok b
     /\ Forall in_u8 (FullBurnAddress_to_bytes b))
  /\ (forall bs b, Forall in_u8 bs -> FullBurnAddress_from_bytes bs = Ok b ->
        FullBurnAddress_to_bytes b = bs /\ full_burn_wf b)
  /\ forall bs, is_ok (FullBurnAddress_from_bytes bs) = false
       <-> length bs <> 105%nat \/ (length bs = 105%nat /\ bs !! 0%nat <> Some 1).
Proof.
  split_and!; [| apply burn_to_from_bytes |].
  - intros b Hb. split; [by apply burn_from_to_bytes|]. unfold FullBurnAddress_to_bytes.
    repeat apply Forall_app_2; try apply be_bytes_bytes. repeat constructor; unfold in_u8, FULL_BURN_ADDRESS_VERSION; lia.
  - intros bs. unfold FullBurnAddress_from_bytes. destruct (Nat.eqb_spec (length bs) FULL_BURN_ADDRESS_SERIALIZED_LEN) as [E|E].
    + cbn [negb]. destruct bs as [|v bs]; [done|]. cbn [nth lookup list_lookup].
      unfold FULL_BURN_ADDRESS_VERSION. destruct (Z.eqb_spec v 1) as [->|Hv]; cbn; split.
      * done.
      * intros [?|[_ ?]]; done.
      * intros _. right. split; [exact E | congruence].
      * done.
    + split; [by left|done].
Qed.

(** ** Invoice identifiers *)

Lemma flag_set b : in_u8 b -> Z.land (Z.lor b SINGLE_FLAG_MASK) SINGLE_FLAG_MASK = SINGLE_FLAG_MASK.
Proof. intros _. apply Z.bits_inj'. intros n Hn. rewrite Z.land_spec, Z.lor_spec. by destruct (Z.testbit b n), (Z.testbit _ n). Qed.

Lemma flag_cleared b : Z.land (Z.land b (Z.lxor SINGLE_FLAG_MASK 0xff)) SINGLE_FLAG_MASK = 0.
Proof.
  rewrite <- Z.land_assoc. replace (Z.land _ SINGLE_FLAG_MASK) with 0 by by vm_compute. apply Z.land_0_r.
Qed.

Lemma u8_lor b m : in_u8 b -> in_u8 m -> in_u8 (Z.lor b m).
Proof.
  unfold in_u8. change 256 with (2 ^ 8). intros Hb Hm.
  rewrite <- (Z.mod_small b (2 ^ 8)), <- (Z.mod_small m (2 ^ 8)) by lia.
  rewrite <- !Z.land_ones, <- Z.land_lor_distr_l, Z.land_ones by lia. apply Z.mod_pos_bound. lia.
Qed.

Lemma u8_land b m : in_u8 b -> 0 <= m -> in_u8 (Z.land b m).
Proof.
  unfold in_u8. change 256 with (2 ^ 8). intros Hb Hm.
  rewrite <- (Z.mod_small b (2 ^ 8)) by lia. rewrite <- Z.land_ones, <- Z.land_assoc, (Z.land_comm (Z.ones 8)) by lia.
  rewrite Z.land_assoc, Z.land_ones by lia. apply Z.mod_pos_bound. lia.
Qed.

(** The array [random_invoice_id] wraps: the flagged byte, the chain, the rest of the random bytes. *)
Definition flag_byte (single : bool) (b0 : Z) : Z :=
  if single then Z.lor b0 SINGLE_FLAG_MASK else Z.land b0 (Z.lxor SINGLE_FLAG_MASK 0xff).

Lemma invoice_id_bytes random single chain_id :
  length random = 32%nat -> Forall in_u8 random -> in_u64 chain_id ->
  b256_bytes (random_invoice_id random single chain_id)
  = flag_byte single (nth 0 random 0) :: u64_to_be_bytes chain_id ++ drop 9 random.
Proof.
  intros Hl Hr Hc. destruct random as [|b0 random]; [done|]. inversion_clear Hr as [|?? Hb0 Hrest].
  unfold random_invoice_id. cbn [nth insert list_insert]. fold (flag_byte single b0). unfold copy_from_slice.
  unfold u64_to_be_bytes. rewrite length_be_bytes. cbn [take app Nat.add drop]. rewrite firstn_O. cbn [app]. fold (u64_to_be_bytes chain_id).
  match goal with |- b256_bytes (be_val ?l) = _ => set (bs := l) end.
  assert (length bs = 32%nat) as Hbs.
  { unfold bs, u64_to_be_bytes. cbn [length]. rewrite length_app, length_be_bytes, length_drop. cbn in Hl. lia. }
  unfold b256_bytes. rewrite <- Hbs at 1. apply be_bytes_be_val. unfold bs. constructor.
  - unfold flag_byte. destruct single; [apply u8_lor | apply u8_land]; try done; unfold in_u8; vm_compute; lia.
  - apply Forall_app_2; [apply be_bytes_bytes | by apply Forall_drop].
Qed.

(** An invoice identifier carries its kind and its chain: whatever the random bytes, the flag and the chain
    of a fresh identifier read back, and the 23 bytes after the chain are the random ones. *)
Theorem invoice_id_roundtrip random single chain_id :
  length random = 32%nat -> Forall in_u8 random -> in_u64 chain_id ->
  is_single (random_invoice_id random single chain_id) = single
  /\ extract_chain_id (random_invoice_id random single chain_id) = chain_id
  /\ drop 9 (b256_bytes (random_invoice_id random single chain_id)) = drop 9 random.
Proof.
  intros Hl Hr Hc. unfold is_single, extract_chain_id. rewrite invoice_id_bytes by done.
  cbn [nth drop]. rewrite ?skipn_cons, ?skipn_O, take_app_length', drop_app_length', u64_bytes_roundtrip by (done || apply length_be_bytes).
  split_and!; [|done..]. unfold flag_byte. destruct single; [|by rewrite flag_cleared].
  destruct random as [|b0 random]; [done|]. inversion_clear Hr. by rewrite flag_set.
Qed.

(** ** Derived secrets satisfy the proof of work *)

Section usable.
Context {C : Crypto} {HC : CryptoLaws C} {R : R1CS} {HR : R1CSLaws C R}.

Lemma keccak_u256 m : in_u256 (be_val (keccak256 m)).
Proof. apply be_val_32_range; [apply keccak256_bytes | apply keccak256_length]. Qed.

Lemma b256_fr_roundtrip x : is_fr x -> b256_to_fr (fr_to_b256 x) = x.
Proof.
  intros Hx. unfold b256_to_fr, fr_to_b256. rewrite fr_to_u256_id by done. unfold b256_bytes.
  fold (u256_to_be_bytes x). rewrite u256_bytes_roundtrip by auto with zerc20. by apply fr_of_biguint_id.
Qed.

(** The recipient a burn address pays, as the circuits see it. *)
Local Abbreviation recipient_of chain_id address tweak := (to_fr (new_evm chain_id address tweak)).

Lemma pow_adjusted_secret_ok fuel base tweak chain_id address secret :
  pow_adjusted_secret fuel base tweak chain_id address = Some secret ->
  in_u256 secret
  /\ compute_burn_address_from_secret (recipient_of chain_id address tweak) (b256_to_fr secret)
     = Ok (burn_address_of (recipient_of chain_id address tweak) (b256_to_fr secret)).
Proof.
  unfold pow_adjusted_secret. cbv zeta. set (r := recipient_of chain_id address tweak).
  intros (nonce & Hn & [= <-])%bind_Some.
  apply find_pow_nonce_from_sound in Hn as (_ & Hok & _).
  set (s := secret_from_nonce _ _) in *. assert (is_fr s) as Hs by (unfold s, secret_from_nonce, fr_add; apply is_fr_mod).
  rewrite b256_fr_roundtrip by done. split.
  - unfold fr_to_b256. rewrite fr_to_u256_id by done. by apply is_fr_u256.
  - unfold compute_burn_address_for_nonce in Hok. fold s in Hok. rewrite compute_burn_address_spec in *.
    by destruct (pow_ok _).
Qed.

(** A derivation of the module: which of the three, with its arguments. *)
Inductive derivation :=
| DSingle (invoice_id : Z)
| DBatch (invoice_id sub_id : Z)
| DAdvice (payment_advice_id : Z).

Definition derive (fuel : nat) (d : derivation) (seed chain_id address : Z) : option SecretAndTweak :=
  match d with
  | DSingle id => single_invoice fuel id seed chain_id address
  | DBatch id sub => batch_invoice fuel id sub seed chain_id address
  | DAdvice id => payment_advice fuel id seed chain_id address
  end.

Lemma derive_ok fuel d seed chain_id address st :
  derive fuel d seed chain_id address = Some st ->
  in_u256 (st_secret st) /\ in_u256 (st_tweak st)
  /\ compute_burn_address_from_secret (recipient_of chain_id address (st_tweak st)) (b256_to_fr (st_secret st))
     = Ok (burn_address_of (recipient_of chain_id address (st_tweak st)) (b256_to_fr (st_secret st))).
Proof.
  destruct d; cbn [derive]; unfold single_invoice, batch_invoice, payment_advice;
    intros (secret & Hs%pow_adjusted_secret_ok & [= <-])%bind_Some; cbn [st_secret st_tweak];
    destruct Hs; auto using keccak_u256.
Qed.

(** A burn address handed to a payer is spendable: whichever way its secret is derived, the derived secret
    passes the check of [FullBurnAddress::new], the address survives its encoding, [burn_address] yields the 160-bit
    address, and for that recipient and secret the withdraw circuits accept exactly the same
    address under the proof-of-work constraint. *)
Theorem derived_burn_address_spendable cfg fuel d seed chain_id address st :
  circom_poseidon_config = Some cfg -> in_u64 chain_id -> in_u160 address ->
  derive fuel d seed chain_id address = Some st ->
  exists b a, FullBurnAddress_new chain_id address st = Ok b
    /\ FullBurnAddress_from_bytes (FullBurnAddress_to_bytes b) = Ok b
    /\ burn_address b = Ok a /\ in_u160 a
    /\ burn_address_var cfg (to_fr (fb_gr b)) (b256_to_fr (fb_secret b)) true = Some (a, true).
Proof.
  intros Hcfg Hc Ha (Hs & Ht & Hok)%derive_ok. unfold FullBurnAddress_new, burn_address. cbv zeta.
 rewrite Hok. cbn [map_err mbind result_bind].
  set (b := mkFullBurnAddress _ _). set (a := burn_address_of _ _) in *.
  assert (in_u160 a) as Ha160 by apply burn_address_of_range.
  exists b, a. split; [done|]. split.
  { apply burn_from_to_bytes. split_and!; try done. revert Ha. unfold in_u160, in_u256. cbn. lia. }
  cbn [fb_gr fb_secret b].
  rewrite Hok. cbn [map_err mbind result_bind]. split_and!; [|done..|].
  - rewrite fr_to_address_mod by (apply (fr_small a 160); [done|lia]). by rewrite Z.mod_small.
  - rewrite burn_address_var_spec by done. cbn [negb orb].
    rewrite compute_burn_address_spec in Hok. by destruct (pow_ok _).
Qed.

(** The derivation itself succeeds as soon as an admissible nonce lies below the fuel. *)
Lemma pow_adjusted_secret_total fuel base tweak chain_id address (n : nat) :
  (n < fuel)%nat ->
  is_ok (compute_burn_address_for_nonce (recipient_of chain_id address tweak) (b256_to_fr base) (Z.of_nat n)) = true ->
  is_Some (pow_adjusted_secret fuel base tweak chain_id address).
Proof.
  intros Hn Hok. unfold pow_adjusted_secret. cbv zeta.
  destruct (find_pow_nonce_from_total (recipient_of chain_id address tweak) (b256_to_fr base) n fuel 0) as [nonce Hf];
    [done | done |]. unfold find_pow_nonce. rewrite Hf. by eexists.
Qed.
End usable.

(** * Witnesses *)

Lemma invoice_id_roundtrip_witness :
  is_single (random_invoice_id (replicate 32 0xff) false 1337) = false
  /\ extract_chain_id (random_invoice_id (replicate 32 0xff) false 1337) = 1337
  /\ drop 9 (b256_bytes (random_invoice_id (replicate 32 0xff) false 1337)) = drop 9 (replicate 32 0xff).
Proof.
  apply (invoice_id_roundtrip (replicate 32 0xff) false 1337);
    [reflexivity | apply Forall_replicate; unfold in_u8; lia | unfold in_u64; lia].
Defined.

(** An instance whose sponge always satisfies the proof of work, so that the search ends at once, and is never 0. *)
Definition easy_crypto : Crypto := {|
  poseidon_sponge := fun _ l => 1 + toy_mix 11 l mod (2 ^ 160 - 1);
  bn254_x5_params3 := @bn254_x5_params3 toy_crypto;
  sha256 := @sha256 toy_crypto;
  keccak256 := @keccak256 toy_crypto;
|}.

Definition easy_r1cs : R1CS := {|
  fp_to_bits_le := bits_of 254;
  fp_to_bytes_le := fun x => reverse (be_bytes 32 x);
  le_bits_to_fp := bits_val;
  sponge_var := @poseidon_sponge easy_crypto;
  sha256_var := @sha256 toy_crypto;
|}.

Lemma easy_crypto_laws : CryptoLaws easy_crypto.
Proof.
  split; intros; cbn -[be_bytes toy_mix Z.pow]; auto using length_be_bytes, be_bytes_bytes.
  apply (fr_small _ 160); [|lia].
  match goal with |- context [?a mod ?b] => pose proof (Z.mod_pos_bound a b ltac:(lia)) end. lia.
Qed.

Lemma easy_r1cs_laws : R1CSLaws easy_crypto easy_r1cs.
Proof. by split. Qed.

#[local] Existing Instance easy_crypto.
#[local] Existing Instance easy_crypto_laws.
#[local] Existing Instance easy_r1cs.
#[local] Existing Instance easy_r1cs_laws.

Definition easy_cfg : PoseidonConfig := default (mkPoseidonConfig 0 0 0 [] [] 0 0) circom_poseidon_config.
Definition easy_secret : SecretAndTweak :=
  default (mkSecretAndTweak 0 0) (derive 1 (DBatch 5 2) 9 10 77).

Lemma derived_burn_address_spendable_witness :
  exists b a, FullBurnAddress_new 10 77 easy_secret = Ok b
    /\ FullBurnAddress_from_bytes (FullBurnAddress_to_bytes b) = Ok b
    /\ burn_address b = Ok a /\ in_u160 a
    /\ burn_address_var easy_cfg (to_fr (fb_gr b)) (b256_to_fr (fb_secret b)) true = Some (a, true).
Proof.
  apply (derived_burn_address_spendable easy_cfg 1 (DBatch 5 2) 9 10 77 easy_secret).
  - reflexivity.
  - unfold in_u64. lia.
  - unfold in_u160. lia.
  - vm_compute. reflexivity.
Defined.

Lemma full_burn_address_roundtrip_witness :
  FullBurnAddress_from_bytes (FullBurnAddress_to_bytes (mkFullBurnAddress (mkGeneralRecipient 10 77 5) 6))
  = Ok (mkFullBurnAddress (mkGeneralRecipient 10 77 5) 6).
Proof.
  apply (proj1 full_burn_address_roundtrip). unfold full_burn_wf, in_u64, in_u256. cbn. lia.
Defined.
