(* ===== verification/Server.v ===== *)
(** The HTTP server of the indexer ([indexer/src/server/mod.rs]): the registry of
    tokens and the handlers of [/status], [/events], [/proofs] and [/tree-index].

    A handler is a computation over the database that returns a body or an
    HTTP error; routing, CORS and the JSON encoding are the framework's. *)

From S2P Require Import Prelude Words Crypto BitPaths MerkleTrees Gadgets Circuits Database TreeDb Events Leases Jobs Teleport.
Local Open Scope Z_scope.

(** ** Errors *)

Inductive ErrorBody := Text (message : string) | MerkleText (err : DbMerkleTreeError).

Inductive ApiError :=
| ErrorBadRequest (body : ErrorBody)
| ErrorNotFound (body : ErrorBody)
| ErrorInternalServerError (body : ErrorBody)
(** a panic unwinds the handler and drops the connection *)
| HandlerPanicked.

Definition map_merkle_error (err : DbMerkleTreeError) : ApiError :=
  match err with
  | Database _ => ErrorInternalServerError (Text "merkle tree database error")
  | TokenNotFound _ | MissingRoot _ | MissingHashChain _ | TreeEmpty => ErrorNotFound (MerkleText err)
  | InvalidTokenId _ | InvalidHeight _ | LeafIndexOverflow | InvalidProofTargetZero | TargetIndexTooHigh _ _
  | RetentionWindowExceeded _ _ | LeafIndexOutOfBounds _ _ | InvalidFrBytes _ | InvalidU256Bytes _
  | InvalidBitPathBytes _ | InvalidConfig _ => ErrorBadRequest (MerkleText err)
  | U64ToI64 _ _ | I64ToU64 _ _ =>
    ErrorInternalServerError (Text "integer conversion error during merkle operation")
  | Panicked _ => HandlerPanicked
  end.

(** ** The registry of tokens *)

Record TokenContext := mkTokenContext {
  tc_id : Z;
  tc_label : string;
  tc_chain_id : Z;
  tc_token_address : Z;
  tc_verifier_address : Z;
  tc_rpc_urls : list string;
  tc_legacy_tx : bool;
}.

(** [TokenKey] is the pair of the chain and the address. *)
Abbreviation TokenRegistry := (gmap (Z * Z) TokenContext).

Record AppState := mkAppState {
  as_tokens : TokenRegistry;
  as_tree_config : DbMerkleTreeConfig;
  as_tree_height : nat;
}.

(** [INSERT .. ON CONFLICT (token_address, chain_id) DO UPDATE .. RETURNING id];
    the upsert draws an identity value even when the row exists. *)
Definition server_ensure_token_record (m : TokenMetadata) : M Db string Z :=
  lift (ok_or "chain_id exceeds i64"%string (i64_try_from (tm_chain_id m))) ≫= fun chain_id =>
  get ≫= fun d =>
  match select (fun kv => bool_decide (tk_address kv.2 = address_bytes (tm_token_address m))
                          && (tk_chain_id kv.2 =? chain_id)) (tokens d) with
  | (id, row) :: _ =>
    modify (set_tokens (<[id := mkTokenRow (tk_address row) (address_bytes (tm_verifier_address m)) (tk_chain_id row)]>
                          (tokens d)) (next_token_id d + 1)) ≫= fun _ => mret id
  | [] =>
    let id := next_token_id d in
    modify (set_tokens (<[id := mkTokenRow (address_bytes (tm_token_address m))
                                  (address_bytes (tm_verifier_address m)) chain_id]> (tokens d)) (id + 1))
      ≫= fun _ => mret id
  end.

Fixpoint TokenRegistry_initialise (tokens : list TokenEntry) (registry : TokenRegistry) : M Db string TokenRegistry :=
  match tokens with
  | [] => mret registry
  | token :: rest =>
    let m := metadata token in
    server_ensure_token_record m ≫= fun token_id =>
    let key := (tm_chain_id m, tm_token_address m) in
    TokenRegistry_initialise rest
      (<[key := mkTokenContext token_id (te_label token) (tm_chain_id m) (tm_token_address m) (tm_verifier_address m)
                  (te_rpc_urls token) (te_legacy_tx token)]> registry)
  end.

Definition registry_get (registry : TokenRegistry) (chain_id token_address : Z) : option TokenContext :=
  registry !! (chain_id, token_address).

(** [by_key.values()]: in no particular order. *)
Definition registry_all (registry : TokenRegistry) : list TokenContext := (map_to_list registry).*2.

(** ** Decoding of rows *)

Definition address_from_bytes (bs : bytes) : result ApiError Z :=
  if negb (length bs =? 20)%nat then Err (ErrorInternalServerError (Text "address must be 20 bytes")) else Ok (be_val bs).

Definition bytes32_to_u256 (bs : bytes) : result unit Z :=
  if negb (length bs =? 32)%nat then Err tt else Ok (be_val bs).

(** ** [GET /events] *)

Record EventsQuery := mkEventsQuery {
  eq_chain_id : Z;
  eq_token_address : Z;
  eq_to : Z;
  eq_limit : option Z;
}.

Definition event_from_row (row : (Z * Z) * EventRow) : result ApiError IndexedEvent :=
  event_index ← ok_or (ErrorInternalServerError (Text "event_index does not fit into u64")) (u64_try_from row.1.2);
  block_number ← ok_or (ErrorInternalServerError (Text "block number does not fit into u64")) (u64_try_from (ev_block row.2));
  from ← address_from_bytes (ev_from row.2);
  to ← address_from_bytes (ev_to row.2);
  value ← map_err (fun _ => ErrorInternalServerError (Text "stored value must be 32 bytes")) (bytes32_to_u256 (ev_value row.2));
  Ok (mkIndexedEvent event_index from to value block_number).

Definition events_by_recipient (state : AppState) (params : EventsQuery) : M Db ApiError (list IndexedEvent) :=
  lift (ok_or (ErrorNotFound (Text "token not configured"))
          (registry_get (as_tokens state) (eq_chain_id params) (eq_token_address params))) ≫= fun token =>
  let limit := default 100 (eq_limit params) in
  let limit := Z.min limit 1000 in
  lift (ok_or (ErrorBadRequest (Text "limit is too large")) (i64_try_from limit)) ≫= fun limit_i64 =>
  gets (fun d => take (Z.to_nat limit_i64)
                   (select_asc (fun kv => kv.1.2)
                      (fun kv => (kv.1.1 =? tc_id token) && bool_decide (ev_to kv.2 = address_bytes (eq_to params)))
                      (indexed_transfer_events d))) ≫= fun rows =>
  lift (map_result event_from_row rows).

(** ** [POST /proofs] *)

Record ProveManyRequest := mkProveManyRequest {
  pm_chain_id : Z;
  pm_token_address : Z;
  pm_target_index : Z;
  pm_leaf_indices : list Z;
}.

Definition prove_many_handler {C : Crypto} (state : AppState) (request : ProveManyRequest) : M Db ApiError (list ApiProof) :=
  lift (ok_or (ErrorNotFound (Text "token not configured"))
          (registry_get (as_tokens state) (pm_chain_id request) (pm_token_address request))) ≫= fun token =>
  match pm_leaf_indices request with
  | [] => mret []
  | _ =>
    map_err_M map_merkle_error (DbTree_new (tc_id token) (as_tree_height state) (as_tree_config state)) ≫= fun tree =>
    map_err_M map_merkle_error (prove_many tree (pm_target_index request) (pm_leaf_indices request)) ≫= fun proofs =>
    mret (api_proof <$> proofs)
  end.

(** ** [GET /tree-index] *)

Record TreeIndexQuery := mkTreeIndexQuery {
  ti_chain_id : Z;
  ti_token_address : Z;
  ti_transfer_root : Z;
}.

Definition tree_index_by_root (state : AppState) (params : TreeIndexQuery) : M Db ApiError Z :=
  lift (ok_or (ErrorNotFound (Text "token not configured"))
          (registry_get (as_tokens state) (ti_chain_id params) (ti_token_address params))) ≫= fun token =>
  let root_bytes := u256_to_be_bytes (ti_transfer_root params) in
  gets (fun d => head (select_asc (fun kv => - kv.1.2)
                         (fun kv => (kv.1.1 =? tc_id token) && bool_decide (sr_root_hash kv.2 = root_bytes))
                         (merkle_snapshots d))) ≫= fun row =>
  match row with
  | None => fail (ErrorNotFound (Text "transfer root not found"))
  | Some row =>
    lift (ok_or (ErrorInternalServerError (Text "tree_index does not fit into u64")) (u64_try_from row.1.2))
  end.

(** ** [GET /status] *)

(** What a provider answers for a verifier contract. *)
Record VerifierStatus := mkVerifierStatus {
  vs_latest_reserved_index : result string Z;
  vs_latest_proved_index : result string Z;
}.

Record TokenStatusResponse := mkTokenStatus {
  ts_label : string;
  ts_chain_id : Z;
  ts_token_address : Z;
  ts_verifier_address : Z;
  ts_onchain_reserved_index : option Z;
  ts_onchain_proved_index : option Z;
  ts_events_synced_index : option Z;
  ts_tree_synced_index : option Z;
  ts_ivc_generated_index : option Z;
}.

(** [Result::ok]. *)
Definition result_ok {E A} (r : result E A) : option A := match r with Ok a => Some a | Err _ => None end.

Section status.
(** [get_provider_with_fallback] and the contract at an address behind the provider. *)
Variable connect : list string -> result string (Z -> VerifierStatus).

Definition fetch_onchain_indices (token : TokenContext) : option Z * option Z :=
  match tc_rpc_urls token with
  | [] => (None, None)
  | _ =>
    match connect (tc_rpc_urls token) with
    | Err _ => (None, None)
    | Ok provider =>
      let contract := provider (tc_verifier_address token) in
      (result_ok (vs_latest_reserved_index contract), result_ok (vs_latest_proved_index contract))
    end
  end.

Definition fetch_events_synced_index (token_id : Z) (d : Db) : option Z :=
  row ← event_indexer_state d !! token_id;
  if 0 <=? es_contiguous_index row then Some (as_u64 (es_contiguous_index row)) else None.

(** [SELECT MAX(tree_index)]: one row, [NULL] when no snapshot matches. *)
Definition fetch_tree_synced_index (token_id : Z) (d : Db) : option Z :=
  kv ← head (select_asc (fun kv => - kv.1.2) (fun kv => kv.1.1 =? token_id) (merkle_snapshots d));
  Some (as_u64 (Z.max kv.1.2 0)).

Definition fetch_ivc_generated_index (token_id : Z) (d : Db) : option Z :=
  kv ← head (select_asc (fun kv => - kv.1.2) (fun kv => kv.1.1 =? token_id) (root_ivc_proofs d));
  Some (as_u64 (Z.max kv.1.2 0)).

Definition token_status (d : Db) (token : TokenContext) : TokenStatusResponse :=
  let indices := fetch_onchain_indices token in
  mkTokenStatus (tc_label token) (tc_chain_id token) (tc_token_address token) (tc_verifier_address token)
    indices.1 indices.2 (fetch_events_synced_index (tc_id token) d) (fetch_tree_synced_index (tc_id token) d)
    (fetch_ivc_generated_index (tc_id token) d).

Definition tokens_status (state : AppState) : M Db ApiError (list TokenStatusResponse) :=
  gets (fun d => token_status d <$> registry_all (as_tokens state)).
End status.

(** ** The HTTP client ([client-common/src/indexer/mod.rs])

    [send] is the round trip of a request: the handler's body, or its error status. *)

Definition http_events_by_recipient (send : EventsQuery -> result ApiError (list IndexedEvent))
  (chain_id token_address to : Z) (limit : option Z) : result string (list IndexedEvent) :=
  let params := mkEventsQuery chain_id token_address to limit in
  map_err (fun _ => "indexer events endpoint returned error status"%string) (send params).

Definition http_prove_many (send : ProveManyRequest -> result ApiError (list ApiProof))
  (chain_id token_address target_index : Z) (leaf_indices : list Z) : result string (list ApiProof) :=
  let payload := mkProveManyRequest chain_id token_address target_index leaf_indices in
  map_err (fun _ => "indexer proof endpoint returned error status"%string) (send payload).

Definition http_tree_index_by_root (send : TreeIndexQuery -> result ApiError Z)
  (chain_id token_address transfer_root : Z) : result string Z :=
  let params := mkTreeIndexQuery chain_id token_address transfer_root in
  map_err (fun _ => "indexer tree index endpoint returned error status"%string) (send params).

(** The client connected to a server whose database is [d]: no handler changes a
    row another request reads ([DbIncrementalMerkleTree::new] only creates partitions). *)
Definition http_client {C : Crypto} (state : AppState) (d : Db) : IndexerClient := {|
  client_events_by_recipient := http_events_by_recipient (fun q => (events_by_recipient state q d).2);
  client_prove_many := http_prove_many (fun q => (prove_many_handler state q d).2);
|}.
