(* ===== verification/ServerSpec.v ===== *)
(** The server answers from the contract's log: what [/events], [/proofs],
    [/tree-index] and [/status] return on a database the indexer has filled, and a
    client connected to such a server. *)

From S2P Require Import Prelude Words Crypto BitPaths MerkleTrees Gadgets Circuits Database TreeDb TreeDbSpec Events EventsSpec Leases Jobs JobsSpec Teleport TeleportSpec Server.
Local Open Scope Z_scope.

(** ** Vocabulary *)

(** An event as the bindings decode it from the log, at position [k]. *)
Record event_in_log (k : nat) (e : IndexedEvent) : Prop := {
  el_index : ie_event_index e = Z.of_nat k;
  el_from : in_u160 (ie_from e);
  el_to : in_u160 (ie_to e);
  el_value : in_u256 (ie_value e);
  el_block : 0 <= ie_eth_block_number e;
}.

Definition event_leaves (evs : list IndexedEvent) : list Leaf := (fun e => mkLeaf (ie_to e) (ie_value e)) <$> evs.

(** The server's state knows the token, and the database holds the log [evs] of the
    token: its events, and a tree over (a prefix of) their leaves. *)
Record server_holds {C : Crypto} (state : AppState) (chain_id address : Z) (token : TokenContext) (evs : list IndexedEvent)
  (n : nat) (d : Db) : Prop := {
  sh_registered : registry_get (as_tokens state) chain_id address = Some token;
  sh_id : 0 < tc_id token;
  sh_log : forall k e, evs !! k = Some e -> event_in_log k e;
  sh_sound : events_sound (tc_id token) evs d;
  sh_stored : forall k e, evs !! k = Some e -> event_stored (tc_id token) k e d;
  sh_size : (n <= length evs)%nat;
  sh_tree : has_history (tc_id token) (as_tree_height state) (cfg_history_window (as_tree_config state)) d (event_leaves (take n evs));
}.

(** The page of a query: the first events to the recipient, at most 1000. *)
Definition page (limit : option Z) : nat := Z.to_nat (Z.min (default 100 limit) 1000).
Definition events_to (to : Z) (evs : list IndexedEvent) : list IndexedEvent := filter (fun e => ie_to e = to) evs.

Lemma sorted_filter_fmap {A B} (f : B -> Z) (g : A -> B) (P : A -> Prop) `{forall x, Decision (P x)} l :
  StronglySorted (by_key f) (g <$> l) -> StronglySorted (by_key f) (g <$> filter P l).
Proof.
  induction l as [|x l IH]; [done|]. cbn [fmap list_fmap]. inversion_clear 1 as [|?? Hl Hx].
  rewrite filter_cons. case_decide; [|by apply IH]. cbn [fmap list_fmap]. constructor; [by apply IH|].
  rewrite Forall_fmap, Forall_forall in *.
  intros y [_ Hy]%list_elem_of_filter. by apply Hx.
Qed.

(** ** Events *)

Lemma address_from_bytes_ok a : in_u160 a -> address_from_bytes (address_bytes a) = Ok a.
Proof.
  intros Ha. unfold address_from_bytes. rewrite (length_be_bytes 20 a : length (address_bytes a) = 20%nat).
  rewrite (address_bytes_roundtrip a Ha). reflexivity.
Qed.

Lemma bytes32_to_u256_ok v : in_u256 v -> bytes32_to_u256 (u256_to_be_bytes v) = Ok v.
Proof.
  intros Hv. unfold bytes32_to_u256. rewrite (length_be_bytes 32 v : length (u256_to_be_bytes v) = 32%nat).
  rewrite (u256_bytes_roundtrip v Hv). reflexivity.
Qed.

Lemma event_from_row_ok tok k e : event_in_log k e -> event_from_row ((tok, Z.of_nat k), row_of_event e) = Ok e.
Proof.
  intros [Hi Hf Ht Hv Hb]. destruct e as [idx from to value block].
  cbn [ie_event_index ie_from ie_to ie_value ie_eth_block_number] in *. unfold event_from_row, row_of_event.
  cbn [fst snd ev_block ev_from ev_to ev_value ie_from ie_to ie_value ie_eth_block_number].
  rewrite !address_from_bytes_ok, bytes32_to_u256_ok by done. rewrite Hi.
  unfold u64_try_from. rewrite (proj2 (Z.leb_le 0 (Z.of_nat k))), (proj2 (Z.leb_le 0 block)) by lia. reflexivity.
Qed.

Lemma address_bytes_inj a b : in_u160 a -> in_u160 b -> address_bytes a = address_bytes b -> a = b.
Proof. apply (be_bytes_inj 20). Qed.

(** The rows the query selects, before the limit. *)
Lemma select_events tok to (evs : list IndexedEvent) d :
  (forall k e, evs !! k = Some e -> event_in_log k e) -> events_sound tok evs d ->
  (forall k e, evs !! k = Some e -> event_stored tok k e d) -> in_u160 to ->
  select_asc (fun kv => kv.1.2)
    (fun kv => (kv.1.1 =? tok) && bool_decide (ev_to kv.2 = address_bytes to)) (indexed_transfer_events d)
  = (fun e => ((tok, ie_event_index e), row_of_event e)) <$> events_to to evs.
Proof.
  intros Hlog Hsound Hst Hto.
  set (g := fun x : Z * IndexedEvent => ((tok, x.1), row_of_event x.2)).
  assert ((fun e => ((tok, ie_event_index e), row_of_event e)) <$> events_to to evs
          = g <$> filter (fun x => ie_to x.2 = to) (indexed 0 evs)) as ->.
  { cut (forall p (l : list IndexedEvent), (forall k e, l !! k = Some e -> ie_event_index e = Z.of_nat (p + k)) ->
      (fun e => ((tok, ie_event_index e), row_of_event e)) <$> events_to to l = g <$> filter (fun x => ie_to x.2 = to) (indexed p l)).
    { intros Hc. apply Hc. intros k e He. apply (Hlog k e He). }
    intros p l. revert p. induction l as [|e l IH]; intros p Hl; [done|]. cbn [indexed].
    unfold events_to. rewrite !filter_cons. cbn [snd].
    assert (g <$> filter (fun x => ie_to x.2 = to) (indexed (S p) l) = (fun e => ((tok, ie_event_index e), row_of_event e)) <$> events_to to l) as E.
    { symmetry. apply IH. intros k e' He'. rewrite (Hl (S k) e' He'). f_equal. lia. }
    pose proof (Hl 0%nat e eq_refl) as H0. rewrite Nat.add_0_r in H0.
    case_decide; cbn [fmap list_fmap]; rewrite ?E; [|done]. unfold g. cbn [fst snd]. by rewrite H0. }
  destruct (indexed_sorted g (fun kv : (Z * Z) * EventRow => kv.1.2) evs ltac:(done) 0) as [Hs Hnd].
  assert (forall x y, g x = g y -> x ∈ indexed 0 evs -> y ∈ indexed 0 evs -> x = y) as Hg.
  { intros [i e] [j e'] Heq Hx Hy. assert (i = j) as <- by (unfold g in Heq; cbn in Heq; congruence). f_equal. by eapply indexed_inj. }
  apply select_asc_eq.
  - apply sorted_filter_fmap. exact Hs.
  - apply NoDup_fmap_2_strong; [|by apply NoDup_filter].
    intros x y [_ Hx]%list_elem_of_filter [_ Hy]%list_elem_of_filter Heq. by apply Hg.
  - intros [o i] row. rewrite list_elem_of_fmap. split.
    + intros ([i' e] & Heq & [Hto' Hin]%list_elem_of_filter). unfold g in Heq. cbn [fst snd] in *. injection Heq as -> -> ->.
      apply elem_of_indexed in Hin as (k & -> & Hk). split; [by apply Hst|].
      rewrite Z.eqb_refl, bool_decide_eq_true_2; [done|]. cbn. by rewrite Hto'.
    + cbn [fst snd]. intros [Hrow Hb]. apply andb_true_iff in Hb as [Ho%Z.eqb_eq Hb%bool_decide_eq_true]. subst o.
      destruct (Hsound _ _ Hrow) as (k & e & -> & Hk & ->). exists (Z.of_nat k, e). split; [done|].
      apply list_elem_of_filter. split; [|apply elem_of_indexed; exists k; done].
      cbn [snd]. apply address_bytes_inj; [apply (Hlog k e Hk)|done|]. exact Hb.
  - intros a b Ha Hb. apply list_elem_of_fmap in Ha as ([i e] & -> & [_ Ha]%list_elem_of_filter).
    apply list_elem_of_fmap in Hb as ([j e'] & -> & [_ Hb]%list_elem_of_filter). cbn. intros <-. f_equal. f_equal. by eapply indexed_inj.
Qed.

Section answers.
Context {C : Crypto} {HC : CryptoLaws C}.

Lemma registered_token {A} state chain_id address token evs n d (f : TokenContext -> M Db ApiError A) :
  server_holds state chain_id address token evs n d ->
  (lift (ok_or (ErrorNotFound (Text "token not configured")) (registry_get (as_tokens state) chain_id address)) ≫= f) d = f token d.
Proof. intros H. rewrite (sh_registered _ _ _ _ _ _ _ H). reflexivity. Qed.

Lemma events_by_recipient_ok state chain_id address token evs n d to limit :
  server_holds state chain_id address token evs n d -> in_u160 to ->
  events_by_recipient state (mkEventsQuery chain_id address to limit) d = (d, Ok (take (page limit) (events_to to evs))).
Proof.
  intros H Hto. unfold events_by_recipient. cbn [eq_chain_id eq_token_address eq_to eq_limit].
  rewrite (registered_token _ _ _ _ _ _ _ _ H). cbv zeta.
  unfold i64_try_from. rewrite (proj2 (Z.leb_le _ _)) by (unfold i64_max; lia).
  erewrite (M_bind_run _ _ d d) by (apply lift_run; reflexivity).
  erewrite (M_bind_run _ _ d d) by reflexivity. cbv beta. fold (page limit).
  rewrite (select_events (tc_id token) to evs d); [|apply H..|done].
  unfold lift. f_equal. rewrite <- fmap_take. rewrite <- (list_fmap_id (take (page limit) (events_to to evs))) at 2.
  apply map_result_fmap. intros e He. apply elem_of_take in He as (j & Hj & _).
  apply list_elem_of_lookup_2, list_elem_of_filter in Hj as [_ Hj].
  apply list_elem_of_lookup in Hj as [k Hk].
  pose proof (sh_log _ _ _ _ _ _ _ H k e Hk) as Hl. rewrite (el_index _ _ Hl). by apply event_from_row_ok.
Qed.

Lemma has_history_frame tok h w d ls : has_history tok h w d ls -> has_history tok h w (tree_parts_db tok d) ls.
Proof. intros H. apply (has_history_ext tok h w d); [done..|exact H]. Qed.

Lemma prove_many_handler_ok state chain_id address token evs n d (k : nat) leafs :
  server_holds state chain_id address token evs n d -> leafs <> [] ->
  (1 <= k <= n)%nat -> Z.of_nat n - Z.of_nat k <= cfg_history_window (as_tree_config state) ->
  (forall i, i ∈ leafs -> 0 <= i < Z.of_nat k) ->
  exists proofs,
    prove_many (tree_handle (tc_id token) (as_tree_height state) (cfg_history_window (as_tree_config state))) (Z.of_nat k) leafs
      (tree_parts_db (tc_id token) d) = (tree_parts_db (tc_id token) d, Ok proofs)
    /\ prove_many_handler state (mkProveManyRequest chain_id address (Z.of_nat k) leafs) d
       = (tree_parts_db (tc_id token) d, Ok (api_proof <$> proofs)).
Proof.
  intros H Hne Hk Hw Hi. unfold prove_many_handler. cbn [pm_chain_id pm_token_address pm_target_index pm_leaf_indices].
  pose proof (sh_tree _ _ _ _ _ _ _ H) as Ht. pose proof (ho_height _ (tr_handle _ _ _ Ht)) as Hh. cbn [tree_handle dt_height] in Hh.
  assert (length (event_leaves (take n evs)) = n) as Hlen.
  { unfold event_leaves. rewrite length_fmap, length_take. pose proof (sh_size _ _ _ _ _ _ _ H). lia. }
  eexists. split.
  - apply (prove_many_spec _ _ _ k leafs Ht); [rewrite Hlen; done | rewrite Hlen; exact Hw | exact Hi].
  - rewrite (registered_token _ _ _ _ _ _ _ _ H). destruct leafs as [|i l]; [done|].
    destruct (as_tree_config state) as [w] eqn:Ew. cbn [cfg_history_window] in *.
    erewrite M_bind_run; [|unfold map_err_M; rewrite DbTree_new_run; [reflexivity | apply H | lia]].
    erewrite M_bind_run; [reflexivity|]. unfold map_err_M.
    rewrite (prove_many_spec _ _ _ k (i :: l) Ht); [reflexivity | rewrite Hlen; done | rewrite Hlen; exact Hw | exact Hi].
Qed.

Lemma fr_to_bytes_inj x y : is_fr x -> is_fr y -> fr_to_bytes x = fr_to_bytes y -> x = y.
Proof. intros Hx Hy E. by rewrite <- (be_val_fr_to_bytes x Hx), <- (be_val_fr_to_bytes y Hy), E. Qed.

(** The server finds the last index with the root, and nothing for an unknown root. *)
Lemma tree_index_by_root_ok state chain_id address token evs n d root :
  server_holds state chain_id address token evs n d -> is_fr root ->
  let root_at k := history_root (as_tree_height state) (event_leaves (take k evs)) in
  match tree_index_by_root state (mkTreeIndexQuery chain_id address root) d with
  | (d', Ok j) => d' = d /\ exists k : nat, j = Z.of_nat k /\ (1 <= k <= n)%nat /\ root_at k = root
      /\ forall k', (1 <= k' <= n)%nat -> root_at k' = root -> (k' <= k)%nat
  | (d', Err e) => d' = d /\ e = ErrorNotFound (Text "transfer root not found")
      /\ forall k, (1 <= k <= n)%nat -> root_at k <> root
  end.
Proof.
  intros H Hroot root_at. pose proof (sh_size _ _ _ _ _ _ _ H) as Hsz. pose proof (sh_tree _ _ _ _ _ _ _ H) as Ht.
  assert (forall i row, merkle_snapshots d !! (tc_id token, i) = Some row <->
    exists k : nat, i = Z.of_nat k /\ (1 <= k <= n)%nat /\ row = snapshot_of (as_tree_height state) (event_leaves (take n evs)) k) as Hsn.
  { intros i row. etransitivity; [apply (tr_snaps _ _ _ Ht)|]. cbn [tree_handle dt_height].
    unfold event_leaves at 1. rewrite length_fmap, length_take, Nat.min_l by done. done. }
  assert (forall k, (k <= n)%nat -> sr_root_hash (snapshot_of (as_tree_height state) (event_leaves (take n evs)) k) = fr_to_bytes (root_at k)) as Hrk.
  { intros k Hk. cbn [snapshot_of sr_root_hash]. unfold root_at, event_leaves. rewrite <- fmap_take, take_take, Nat.min_l by done. reflexivity. }
  unfold tree_index_by_root. cbn [ti_chain_id ti_token_address ti_transfer_root].
  rewrite (registered_token _ _ _ _ _ _ _ _ H). cbv zeta. unfold gets at 1, mbind at 1, M_bind at 1.
  set (p := fun kv : (Z * Z) * SnapshotRow => (kv.1.1 =? tc_id token) && bool_decide (sr_root_hash kv.2 = u256_to_be_bytes root)).
  assert (forall k, (1 <= k <= n)%nat -> root_at k = root <->
    ((tc_id token, Z.of_nat k), snapshot_of (as_tree_height state) (event_leaves (take n evs)) k) ∈ select_asc (fun kv => - kv.1.2) p (merkle_snapshots d)) as Hin.
  { intros k Hk. rewrite elem_of_select_asc, Hsn. unfold p. cbn [fst snd]. rewrite Z.eqb_refl, Hrk, andb_true_l by lia.
    unfold u256_to_be_bytes. rewrite <- (fr_to_bytes_eq root). split.
    - intros ->. split; [eauto|]. by apply bool_decide_eq_true_2.
    - intros [_ E%bool_decide_eq_true]. apply fr_to_bytes_inj; [apply history_node_fr|done|done]. }
  destruct (select_asc _ p _) as [|[[o i] row] l] eqn:E; cbn [head].
  - split_and!; [done..|]. intros k Hk Hr. apply Hin in Hr; [|done]. by apply not_elem_of_nil in Hr.
  - assert (((o, i), row) ∈ select_asc (fun kv => - kv.1.2) p (merkle_snapshots d)) as Hhd by (rewrite E; left).
    apply elem_of_select_asc in Hhd as [Hrow Hp]. unfold p in Hp. cbn [fst snd] in Hp. apply andb_true_iff in Hp as [->%Z.eqb_eq _].
    apply Hsn in Hrow as (k & -> & Hk & ->). cbn [fst snd]. unfold u64_try_from. rewrite (proj2 (Z.leb_le _ _)) by lia.
    cbn [ok_or lift]. split; [done|]. exists k. split_and!; [done|lia|lia|apply Hin; [done|left]|].
    intros k' Hk' Hr. apply Hin in Hr; [|done]. apply elem_of_cons in Hr as [Hr|Hr]; [injection Hr as Hr _; lia|].
    pose proof (select_asc_sorted (fun kv : (Z * Z) * SnapshotRow => - kv.1.2) p (merkle_snapshots d)) as Hs. rewrite E in Hs.
    inversion_clear Hs as [|?? _ Hall]. rewrite Forall_forall in Hall. specialize (Hall _ Hr). unfold by_key in Hall. cbn in Hall. lia.
Qed.

(** ** Status *)

Lemma tree_synced_ok state chain_id address token evs n d :
  server_holds state chain_id address token evs n d ->
  fetch_tree_synced_index (tc_id token) d = if decide (n = 0%nat) then None else Some (Z.of_nat n).
Proof.
  intros H. pose proof (sh_tree _ _ _ _ _ _ _ H) as Ht. pose proof (latest_snapshot_spec _ _ _ Ht) as Hl.
  unfold latest_snapshot in Hl. unfold fetch_tree_synced_index.
  change (merkle_snapshots (tree_parts_db (tc_id token) d)) with (merkle_snapshots d) in Hl.
  change (dt_token (tree_handle _ _ _)) with (tc_id token) in Hl. rewrite Hl.
  assert (length (event_leaves (take n evs)) = n) as Hlen.
  { unfold event_leaves. rewrite length_fmap, length_take. pose proof (sh_size _ _ _ _ _ _ _ H). lia. }
  pose proof (tree_len_bound _ _ _ Ht) as Hb. rewrite Hlen in *.
  destruct (decide (event_leaves (take n evs) = [])) as [E|E].
  - rewrite E in Hlen. destruct (decide (n = 0%nat)); [done|]. cbn in Hlen. lia.
  - destruct (decide (n = 0%nat)) as [->|Hn]; [by destruct E|]. cbn [fst snd mbind option_bind].
    f_equal. rewrite Z.max_l by lia. apply as_u64_of_i64. unfold i64_max. lia.
Qed.

(** ** The properties *)

(** The server answers exactly from the log: on a database that holds a token's log,
    [/events] returns the first events to the recipient in index order, at most the requested limit (100 when absent)
    and never more than 1000, each with its exact data; [/tree-index] returns the last
    index of the tree with the given root and 404 for a root the tree never had;
    [/status] reports the size of the tree; none of them changes the database. *)
Theorem server_answers_log state chain_id address token evs n d :
  server_holds state chain_id address token evs n d ->
  (forall to limit, in_u160 to ->
     events_by_recipient state (mkEventsQuery chain_id address to limit) d
     = (d, Ok (take (Z.to_nat (Z.min (default 100 limit) 1000)) (filter (fun e => ie_to e = to) evs))))
  /\ (forall root, is_fr root ->
     let root_at k := history_root (as_tree_height state) (event_leaves (take k evs)) in
     match tree_index_by_root state (mkTreeIndexQuery chain_id address root) d with
     | (d', Ok j) => d' = d /\ exists k : nat, j = Z.of_nat k /\ (1 <= k <= n)%nat /\ root_at k = root
         /\ forall k', (1 <= k' <= n)%nat -> root_at k' = root -> (k' <= k)%nat
     | (d', Err e) => d' = d /\ e = ErrorNotFound (Text "transfer root not found")
         /\ forall k, (1 <= k <= n)%nat -> root_at k <> root
     end)
  /\ forall connect, exists statuses, tokens_status connect state d = (d, Ok statuses)
       /\ exists st, st ∈ statuses /\ ts_label st = tc_label token
         /\ ts_tree_synced_index st = (if decide (n = 0%nat) then None else Some (Z.of_nat n)).
Proof.
  intros H. split_and!.
  - intros to limit Hto. by apply (events_by_recipient_ok _ _ _ token _ n).
  - intros root Hr. by apply (tree_index_by_root_ok _ _ _ token).
  - intros connect. eexists. split; [reflexivity|]. exists (token_status connect d token). split_and!; [|done|].
    + apply list_elem_of_fmap_2, list_elem_of_fmap. exists ((chain_id, address), token). split; [done|].
      apply elem_of_map_to_list, (sh_registered _ _ _ _ _ _ _ H).
    + by eapply tree_synced_ok.
Qed.

(** A chain of the client whose token a server holds. *)
Record served_chain (state : AppState) (d : Db) (s : AggregationTreeState) (snapshot : list Z)
  (entry : TokenEntry) (token : TokenContext) (evs : list IndexedEvent) (n k pos : nat) (burns : list IndexedEvent) : Prop := {
  sc_holds : server_holds state (te_chain_id entry) (te_token_address entry) token evs n d;
  sc_height : as_tree_height state = TRANSFER_TREE_HEIGHT;
  sc_index : (1 <= k <= n)%nat;
  sc_window : Z.of_nat n - Z.of_nat k <= cfg_history_window (as_tree_config state);
  sc_position : position (te_chain_id entry) (chain_ids s) = Some pos;
  sc_slot : snapshot !! pos = Some (history_root TRANSFER_TREE_HEIGHT (event_leaves (take k evs)));
  sc_burns : forall e, e ∈ burns -> e ∈ take k evs;
}.

Definition served_view (state : AppState) (d : Db) (entry : TokenEntry) (token : TokenContext) (evs : list IndexedEvent)
  (n k pos : nat) (burns : list IndexedEvent) : ChainView :=
  mkChainView entry (tree_handle (tc_id token) (as_tree_height state) (cfg_history_window (as_tree_config state)))
    (tree_parts_db (tc_id token) d) (event_leaves (take n evs)) k pos burns.

(** The server discharges what the client relies on. *)
Lemma served_chain_honest state d s snapshot entry token evs n k pos burns :
  served_chain state d s snapshot entry token evs n k pos burns ->
  honest_chain (I := http_client state d) s snapshot (served_view state d entry token evs n k pos burns).
Proof.
  intros [H Hh Hk Hw Hp Hs Hb]. pose proof (sh_tree _ _ _ _ _ _ _ H) as Ht. pose proof (sh_size _ _ _ _ _ _ _ H) as Hsz.
  assert (take k (event_leaves (take n evs)) = event_leaves (take k evs)) as Htk.
  { unfold event_leaves. rewrite <- fmap_take, take_take, Nat.min_l by lia. done. }
  assert (length (event_leaves (take n evs)) = n) as Hlen.
  { unfold event_leaves. rewrite length_fmap, length_take. lia. }
  split; cbn [served_view cv_token cv_tree cv_db cv_leaves cv_index cv_position cv_events].
  - exact Ht.
  - exact Hh.
  - rewrite Hlen. exact Hk.
  - rewrite Hlen. exact Hw.
  - intros leafs proofs Hpr. cbn [http_client client_prove_many]. unfold http_prove_many, prove_many_handler.
    cbn [pm_chain_id pm_token_address pm_target_index pm_leaf_indices]. rewrite (registered_token _ _ _ _ _ _ _ _ H).
    destruct leafs as [|i l].
    { assert (proofs = []) as -> by (unfold prove_many in Hpr; cbv in Hpr; congruence). reflexivity. }
    pose proof (ho_height _ (tr_handle _ _ _ Ht)) as Hht. cbn [tree_handle dt_height] in Hht.
    destruct (as_tree_config state) as [w] eqn:Ew. cbn [cfg_history_window] in *.
    erewrite M_bind_run; [|unfold map_err_M; rewrite DbTree_new_run; [reflexivity | apply H | lia]].
    erewrite M_bind_run; [reflexivity|]. unfold map_err_M. rewrite Hpr. reflexivity.
  - exact Hp.
  - rewrite Htk. exact Hs.
  - apply Forall_forall. intros e He. apply Hb, elem_of_take in He as (j & Hj & Hjk).
    rewrite (el_index _ _ (sh_log _ _ _ _ _ _ _ H j e Hj)). split; [lia|]. rewrite Nat2Z.id. unfold event_leaves.
    rewrite list_lookup_fmap, lookup_take_lt, Hj by lia. reflexivity.
Qed.

(** The views a client has of several chains behind one server. *)
Definition served (state : AppState) (d : Db) (s : AggregationTreeState) (snapshot : list Z) (c : ChainView) : Prop :=
  exists entry token evs n k pos burns, served_chain state d s snapshot entry token evs n k pos burns
    /\ c = served_view state d entry token evs n k pos burns.

End answers.

(** ** The registry *)

Lemma server_ensure_eq m d :
  server_ensure_token_record m d
  = match ensure_token_record m d with
    | (d', Ok i) => (d', Ok i)
    | (d', Err _) => (d', Err "chain_id exceeds i64"%string)
    end.
Proof.
  unfold server_ensure_token_record, ensure_token_record, ev_to_i64, i64_try_from.
  destruct (tm_chain_id m <=? i64_max); [|reflexivity]. unfold ok_or, lift, get, mbind, M_bind.
  destruct (select _ _) as [|[i r] rows]; reflexivity.
Qed.

(** The context of a token agrees with the database row it was built from. *)
Definition context_ok (d : Db) (key : Z * Z) (tc : TokenContext) : Prop :=
  key = (tc_chain_id tc, tc_token_address tc) /\ 0 < tc_id tc
  /\ registered (mkTokenMetadata (tc_token_address tc) (tc_verifier_address tc) (tc_chain_id tc)) (tc_id tc) d.

Definition registry_wf (d : Db) (r : TokenRegistry) : Prop := forall key tc, r !! key = Some tc -> context_ok d key tc.

Lemma registry_wf_insert d r (key : Z * Z) tc : registry_wf d r -> context_ok d key tc -> registry_wf d (<[key := tc]> r).
Proof. intros Hr Hc k t. rewrite lookup_insert. case_decide; [|apply Hr]. intros [= <-]. by subst. Qed.

Lemma context_ok_mono d d' key tc :
  (forall m j, registered m j d -> registered m j d') -> context_ok d key tc -> context_ok d' key tc.
Proof. intros Hm (H1 & H2 & H3). split_and!; auto. Qed.

Lemma initialise_spec ts : forall r d,
  tokens_ok d -> registry_wf d r -> Forall (fun t => te_chain_id t <= i64_max) ts ->
  exists d' r', TokenRegistry_initialise ts r d = (d', Ok r') /\ tokens_ok d' /\ registry_wf d' r'
    /\ (forall m j, registered m j d -> registered m j d')
    /\ dom r' = dom r ∪ list_to_set ((fun t => (te_chain_id t, te_token_address t)) <$> ts)
    /\ (forall key, key ∉ (fun t => (te_chain_id t, te_token_address t)) <$> ts -> r' !! key = r !! key).
Proof.
  induction ts as [|t ts IH]; intros r d Hok Hr Hts.
  { exists d, r. split_and!; try done. cbn. by rewrite union_empty_r_L. }
  inversion_clear Hts as [|?? Ht Hts']. cbn [TokenRegistry_initialise]. cbv zeta.
  destruct (ensure_token_record_spec (metadata t) d Hok Ht) as (d1 & i & He & Hok1 & Hreg & _ & _ & Hmono).
  rewrite (M_bind_run _ _ d d1 i) by (by rewrite server_ensure_eq, He).
  set (tc := mkTokenContext i _ _ _ _ _ _). cbn [metadata tm_chain_id tm_token_address tm_verifier_address].
  assert (context_ok d1 (te_chain_id t, te_token_address t) tc) as Htc.
  { split_and!; [done| |exact Hreg]. destruct Hreg as (row & Hrow & _). apply Hok1 in Hrow. cbn. lia. }
  destruct (IH (<[(te_chain_id t, te_token_address t) := tc]> r) d1) as (d2 & r2 & Hi & Hok2 & Hr2 & Hm2 & Hdom & Hkeep).
  - done.
  - apply registry_wf_insert; [|done]. intros k c Hk. eapply context_ok_mono; [exact Hmono|]. by apply Hr.
  - done.
  - exists d2, r2. split_and!; [exact Hi|done|done|auto| |].
    + rewrite Hdom, dom_insert_L. cbn [fmap list_fmap list_to_set foldr]. by rewrite (union_comm_L {[_]} (dom r)), union_assoc_L.
    + intros key Hkey. apply not_elem_of_cons in Hkey as [Hne Hni]. rewrite Hkeep by done. by rewrite lookup_insert_ne.
Qed.

(** C39: Starting the server yields a well-formed registry: for any configured tokens (chain ids in the range of the
    database), [initialise] succeeds, keeps the token table's keys unique and every registration (hence the ids the indexer's rows
    use), its keys are exactly the configured (chain, address) pairs, and every context
    carries its own key and the id of the row registered for it. *)
Theorem registry_initialised ts d :
  tokens_ok d -> Forall (fun t => te_chain_id t <= i64_max) ts ->
  exists d' r, TokenRegistry_initialise ts ∅ d = (d', Ok r) /\ tokens_ok d'
    /\ (forall m j, registered m j d -> registered m j d')
    /\ (forall chain_id address, is_Some (registry_get r chain_id address)
         <-> exists t, t ∈ ts /\ te_chain_id t = chain_id /\ te_token_address t = address)
    /\ forall chain_id address tc, registry_get r chain_id address = Some tc ->
         tc_chain_id tc = chain_id /\ tc_token_address tc = address
         /\ registered (mkTokenMetadata address (tc_verifier_address tc) chain_id) (tc_id tc) d'.
Proof.
  intros Hok Hts. destruct (initialise_spec ts ∅ d Hok) as (d' & r & Hi & Hok' & Hr & Hm & Hdom & _); [done|done|].
  exists d', r. split_and!; [done..| |].
  - intros chain_id address. unfold registry_get. rewrite <- elem_of_dom, Hdom, dom_empty_L, union_empty_l_L, elem_of_list_to_set, list_elem_of_fmap.
    split; [intros (t & [= -> ->] & ?); eauto | intros (t & ? & <- & <-); eauto].
  - intros chain_id address tc Htc. destruct (Hr _ _ Htc) as ([= -> ->] & _ & ?). done.
Qed.

(** ** Witnesses *)

Section witnesses.
#[local] Existing Instance toy_crypto.
#[local] Existing Instance toy_crypto_laws.

(** A server that knows one token, whose log has one burn. *)
Definition toy_entry : TokenEntry := mkTokenEntry "z" 77 78 None 1 0 [] false.
Definition toy_context : TokenContext := mkTokenContext 1 "z" 1 77 78 [] false.
Definition toy_state : AppState := mkAppState {[(1, 77) := toy_context]} (mkDbMerkleTreeConfig 1) 40.
Definition toy_served_db : Db :=
  set_events {[(1, 0) := row_of_event toy_cv_event]} (append_leaf (tree_handle 1 40 1) 3 10 (tree_parts_db 1 toy_db)).1.

Lemma toy_server_holds : server_holds toy_state 1 77 toy_context [toy_cv_event] 1 toy_served_db.
Proof.
  split; cbn [toy_context tc_id toy_state as_tree_height as_tree_config cfg_history_window].
  - reflexivity.
  - lia.
  - intros [|k] e He; [|done]. injection He as <-. split; cbn; unfold in_u160, in_u256; lia.
  - intros i row Hrow. change (({[(1, 0) := row_of_event toy_cv_event]} : gmap (Z * Z) EventRow) !! (1, i) = Some row) in Hrow.
    apply lookup_singleton_Some in Hrow as [[= <-] <-]. exists 0%nat, toy_cv_event. done.
  - intros [|k] e He; [|done]. injection He as <-. reflexivity.
  - cbn. lia.
  - destruct (DbTree_new_spec 1 40 1 toy_db) as (t & d & Hn & _ & _ & _ & Hr); [lia|lia|lia|by eexists|by repeat split|].
    rewrite DbTree_new_run in Hn by lia. assert (d = tree_parts_db 1 toy_db) as -> by congruence.
    assert (t = tree_handle 1 40 1) as -> by congruence. clear Hn.
    destruct (append_leaf_spec (tree_handle 1 40 1) _ [] 3 10 Hr) as (d' & Ha & Hr' & _); [by vm_compute|].
    unfold toy_served_db. rewrite Ha. apply (has_history_ext 1 40 1 d'); [reflexivity..|].
    apply (tree_repr_has_history 1 40 1 d' [mkLeaf 3 10] Hr').
Qed.

Lemma toy_recipient_range : in_u160 3.
Proof. unfold in_u160. lia. Qed.

Lemma server_answers_log_witness :
  events_by_recipient toy_state (mkEventsQuery 1 77 3 None) toy_served_db
    = (toy_served_db, Ok (take (Z.to_nat (Z.min (default 100 None) 1000)) (filter (fun e => ie_to e = 3) [toy_cv_event])))
  /\ take (Z.to_nat (Z.min (default 100 None) 1000)) (filter (fun e => ie_to e = 3) [toy_cv_event]) = [toy_cv_event].
Proof.
  split; [|by vm_compute].
  exact (proj1 (server_answers_log toy_state 1 77 toy_context [toy_cv_event] 1 toy_served_db toy_server_holds) 3 None
           toy_recipient_range).
Defined.

Lemma toy_served :
  served toy_state toy_served_db toy_cv_state [toy_cv_root]
    (served_view toy_state toy_served_db toy_entry toy_context [toy_cv_event] 1 1 0 [toy_cv_event]).
Proof.
  exists toy_entry, toy_context, [toy_cv_event], 1%nat, 1%nat, 0%nat, [toy_cv_event]. split; [|reflexivity].
  split; [exact toy_server_holds | reflexivity | lia | cbn; lia | reflexivity | reflexivity | intros e He; exact He].
Qed.


Lemma registry_initialised_witness :
  exists d' r, TokenRegistry_initialise [toy_entry; toy_entry] ∅ empty_db = (d', Ok r) /\ tokens_ok d'
    /\ (forall m j, registered m j empty_db -> registered m j d')
    /\ (forall chain_id address, is_Some (registry_get r chain_id address)
         <-> exists t, t ∈ [toy_entry; toy_entry] /\ te_chain_id t = chain_id /\ te_token_address t = address)
    /\ forall chain_id address tc, registry_get r chain_id address = Some tc ->
         tc_chain_id tc = chain_id /\ tc_token_address tc = address
         /\ registered (mkTokenMetadata address (tc_verifier_address tc) chain_id) (tc_id tc) d'.
Proof.
  apply (registry_initialised [toy_entry; toy_entry] empty_db).
  - split_and!; cbn; [done | lia | done].
  - repeat constructor; cbn; unfold i64_max; lia.
Defined.
End witnesses.
