(* ===== verification/CrossJob.v ===== *)
(** [crosschain-job/src/main.rs]: the job that relays every verifier's proved root to
    the hub and broadcasts the hub's aggregation.

    A job acts on the world of [CrossChain]: a [VerifierContract] is named by the
    endpoint id of its chain.  Transport is external ([JobRpc]), as is the [hex]
    crate; logging has no effect on the world.  The timer loop is a number of ticks. *)

From S2P Require Import Prelude Words Text Crypto BitPaths MerkleTrees Gadgets Circuits Folding Database OnChain OnChainSpec Events Leases Jobs Teleport Hub HubSpec CrossChain.
Local Open Scope Z_scope.

(** ** Fees *)

Definition saturating_mul_u256 (x y : Z) : Z := Z.min (x * y) u256_max.

Definition apply_fee_buffer (fee buffer_bps : Z) : Z :=
  if buffer_bps =? 0 then fee
  else
    let base := 10000 in
    let multiplier := base + buffer_bps in
    let buffered := saturating_mul_u256 fee multiplier / base in
    if (buffered =? fee) && (0 <? fee) then fee + 1 else buffered.

(** ** Parsing of the command line *)

Section parsing.
(** [hex::decode]. *)
Variable hex_decode : string -> option bytes.

Definition parse_private_key (input : string) : result string Z :=
  let normalized := default (trim input) (strip_0x (trim input)) in
  bs ← ok_or "failed to decode private key hex"%string (hex_decode normalized);
  if negb (length bs =? 32)%nat then Err "private key must be 32 bytes"%string
  else Ok (be_val bs).

Definition parse_hex_blob (input : string) : result string bytes :=
  let normalized := trim input in
  if bool_decide (normalized = EmptyString) || is_0x normalized then Ok []
  else
    let without_prefix := default normalized (strip_0x normalized) in
    if negb (Nat.even (String.length without_prefix)) then Err "hex string must have even length"%string
    else ok_or "failed to decode hex payload"%string (hex_decode without_prefix).
End parsing.

Record Cli := mkCli {
  cli_relay_interval_secs : Z;
  cli_relay_fee_buffer_bps : Z;
  cli_broadcast_interval_secs : Z;
  cli_broadcast_fee_buffer_bps : Z;
  cli_once : bool;
}.

(** The checks at the start of [main]. *)
Definition check_cli (cli : Cli) (tokens : list TokenEntry) : result string unit :=
  if cli_relay_interval_secs cli =? 0 then Err "RELAY_INTERVAL_SECS must be greater than zero"%string
  else if (cli_broadcast_interval_secs cli =? 0) && negb (cli_once cli)
       then Err "BROADCAST_INTERVAL_SECS must be greater than zero"%string
  else match tokens with [] => Err "no tokens configured"%string | _ => Ok tt end.

(** The tokens file after reading and JSON parsing. *)
Fixpoint normalize_tokens (tokens : list TokenEntry) : result string (list TokenEntry) :=
  match tokens with
  | [] => Ok []
  | t :: rest =>
    t' ← map_err (fun _ => "invalid token entry"%string) (TokenEntry_normalize t);
    rest' ← normalize_tokens rest;
    Ok (t' :: rest')
  end.
Definition load_tokens_config (tokens_file : result string TokensFile) : result string (list TokenEntry * option HubEntry) :=
  f ← tokens_file;
  f' ← map_err (fun _ => "invalid tokens config"%string) (TokensFile_normalize f);
  tokens ← normalize_tokens (tf_tokens f');
  Ok (tokens, tf_hub f').

(** ** The world of the job *)

(** Transport of a view call, of a transaction and of its receipt, and what others do
    to the world between a job's quote and the inclusion of its transaction. *)
Class JobRpc := {
  job_call : string -> result string unit;
  job_send : string -> result string unit;
  job_receipt : string -> result string unit;
  job_others : World -> World;
}.

Record RelayJob := mkRelayJob {
  rj_label : string;
  rj_chain_id : Z;
  rj_contract : Z;
  rj_lz_options : bytes;
  rj_fee_buffer_bps : Z;
}.

Record BroadcastJob := mkBroadcastJob {
  bj_lz_options : bytes;
  bj_target_eids : list Z;
  bj_fee_buffer_bps : Z;
}.

Record BroadcastReceiptInfo := mkBroadcastReceiptInfo { bri_agg_seq : Z; bri_snapshot_len : nat }.

Definition parse_broadcast_receipt (logs : list HubEvent) : option BroadcastReceiptInfo :=
  match parse_aggregation_root_updated logs with
  | Some event => Some (mkBroadcastReceiptInfo (ag_agg_seq event) (length (ag_snapshot event)))
  | None => None
  end.

Section jobs.
Context {P : PoseidonT3} {L : Endpoint} {N : JobRpc}.

Definition view {A} (name : string) (f : World -> result string A) : M World string A :=
  lift (job_call name) ≫= fun _ => get ≫= fun w => lift (f w).

(** The receipt of a mined transaction. *)
Definition wait_for_receipt {A} (name : string) (receipt : option A) : M World string A :=
  lift (job_receipt name) ≫= fun _ =>
  lift (ok_or "transaction reverted"%string receipt).

Definition verifier_at (eid : Z) (w : World) : result string Verifier :=
  match wo_chains w !! eid with Some c => Ok (ch_verifier c) | None => Err "no contract at the address"%string end.

(** The inclusion of a transaction, after those of others. *)
Definition mined {A} (f : World -> World * A) : M World string A :=
  fun w => let '(w', receipt) := f (job_others w) in (w', Ok receipt).

(** A mined [relayTransferRoot]: on success the world records the message. *)
Definition mine_relay (eid : Z) (options : bytes) (value : Z) (w : World) : World * option (list VerifierEvent) :=
  match wo_chains w !! eid with
  | None => (w, None)
  | Some c =>
    match relayTransferRoot options value (ch_verifier c) with
    | Ok (v', logs, payload) =>
      (mkWorld (wo_hub w) (<[eid := with_verifier v' c]> (wo_chains w)) (wo_log w) (wo_to_hub w ++ [(eid, payload)]) (wo_to_chain w),
       Some logs)
    | Err _ => (w, None)
    end
  end.

Definition relay_transfer_root (eid value : Z) (options : bytes) : M World string (option (list VerifierEvent)) :=
  lift (job_send "relayTransferRoot") ≫= fun _ =>
  mined (mine_relay eid options value).

(** [RelayJob::execute_once]. *)
Definition relay_execute_once (job : RelayJob) : M World string unit :=
  view "isUpToDate" (fun w => v ← verifier_at (rj_contract job) w; Ok (verifier_isUpToDate v)) ≫= fun up_to_date : bool =>
  if up_to_date then mret tt
  else
    view "quoteRelay" (fun w =>
      v ← verifier_at (rj_contract job) w;
      map_err (fun _ => "failed to quote relay fee"%string) (quoteRelay (rj_lz_options job) v)) ≫= fun fee =>
    let fee_with_buffer := apply_fee_buffer fee.1 (rj_fee_buffer_bps job) in
    relay_transfer_root (rj_contract job) fee_with_buffer (rj_lz_options job) ≫= fun pending =>
    wait_for_receipt "relayTransferRoot" pending ≫= fun logs =>
    match parse_transfer_root_relayed logs with
    | Some _ => mret tt
    | None => mret tt
    end.

(** A mined [broadcast] of an account that accepts the refund. *)
Definition mine_broadcast (targets : list Z) (options : bytes) (value : Z) (w : World) : World * option (list HubEvent) :=
  match broadcast targets options value true (wo_hub w) with
  | Ok (h', logs, sent) =>
    (mkWorld h' (wo_chains w)
       (wo_log w ++ match parse_aggregation_root_updated logs with Some e => [e] | None => [] end)
       (wo_to_hub w) (wo_to_chain w ++ sent), Some logs)
  | Err _ => (w, None)
  end.

Definition hub_broadcast_tx (targets : list Z) (options : bytes) (value : Z) : M World string (option (list HubEvent)) :=
  lift (job_send "broadcast") ≫= fun _ =>
  mined (mine_broadcast targets options value).

(** [BroadcastJob::execute_once]. *)
Definition broadcast_execute_once (job : BroadcastJob) : M World string unit :=
  match bj_target_eids job with
  | [] => mret tt
  | _ =>
    view "isUpToDate" (fun w => Ok (hub_isUpToDate (wo_hub w))) ≫= fun up_to_date : bool =>
    if up_to_date then mret tt
    else
      view "quoteBroadcast" (fun w =>
        map_err (fun _ => "failed to quote broadcast fee"%string)
          (quoteBroadcast (bj_target_eids job) (bj_lz_options job) (wo_hub w))) ≫= fun quote =>
      let fee_with_buffer := apply_fee_buffer quote (bj_fee_buffer_bps job) in
      hub_broadcast_tx (bj_target_eids job) (bj_lz_options job) fee_with_buffer ≫= fun pending =>
      wait_for_receipt "broadcast" pending ≫= fun logs =>
      match parse_broadcast_receipt logs with
      | Some _ => mret tt
      | None => mret tt
      end
  end.

(** [run]: the first execution and [n] ticks; a failed execution is only logged. *)
Fixpoint run_ticks (execute_once : M World string unit) (n : nat) (w : World) : World :=
  let w' := (execute_once w).1 in
  match n with O => w' | S n' => run_ticks execute_once n' w' end.

(** The [--once] mode: the relays in order, then the broadcast, stopping at an error. *)
Fixpoint relay_all (jobs : list RelayJob) : M World string unit :=
  match jobs with
  | [] => mret tt
  | job :: rest => relay_execute_once job ≫= fun _ => relay_all rest
  end.
Definition run_once (relay_jobs : list RelayJob) (broadcast_job : option BroadcastJob) : M World string unit :=
  relay_all relay_jobs ≫= fun _ =>
  match broadcast_job with
  | Some job => broadcast_execute_once job
  | None => mret tt
  end.

(** ** Targets of the broadcast *)

(** [tokenInfos(index)]: reading past the array reverts. *)
Fixpoint resolve_from (index : nat) (tokens : list TokenEntry) : M World string (list Z) :=
  match tokens with
  | [] => mret []
  | token :: rest =>
    view "tokenInfos" (fun w => ok_or "failed to query hub token info"%string (tokenInfos (wo_hub w) !! index)) ≫= fun info =>
    resolve_from (S index) rest ≫= fun eids =>
    mret (ti_eid info :: eids)
  end.
Definition resolve_target_eids (tokens : list TokenEntry) : M World string (list Z) := resolve_from 0 tokens.

(** [Vec::dedup]: drops repetitions of the previous element. *)
Fixpoint dedup (l : list Z) : list Z :=
  match l with
  | [] => []
  | x :: l' =>
    match dedup l' with
    | y :: l'' => if x =? y then y :: l'' else x :: y :: l''
    | [] => [x]
    end
  end.

Definition build_broadcast_job (cli : Cli) (options : bytes) (tokens : list TokenEntry) : M World string BroadcastJob :=
  resolve_target_eids tokens ≫= fun target_eids =>
  mret (mkBroadcastJob options (dedup (sort_by_key id target_eids)) (cli_broadcast_fee_buffer_bps cli)).
End jobs.
