(* ===== verification/CrossJobSpec.v ===== *)
(** The cross-chain job: its fees cover the quotes, its executions are steps of the
    cross-chain system, one round carries a proved root to every target, and what an
    outsider's broadcast does to it. *)

From S2P Require Import Prelude Words Crypto BitPaths MerkleTrees Gadgets Circuits Folding Database OnChain OnChainSpec Events Leases Jobs Teleport TeleportSpec Hub HubSpec CrossChain CrossChainSpec TeleportFlow CrossJob.
Local Open Scope Z_scope.

(** ** Fees *)

Lemma fee_buffer_lower fee bps :
  0 <= fee -> 0 <= bps -> fee * (10000 + bps) <= u256_max -> fee <= apply_fee_buffer fee bps.
Proof.
  intros Hf Hb Hs. unfold apply_fee_buffer. destruct (Z.eqb_spec bps 0) as [->|Hz]; [lia|]. cbv zeta.
  unfold saturating_mul_u256. rewrite Z.min_l by lia.
  pose proof (Z.div_le_mono (fee * 10000) (fee * (10000 + bps)) 10000 ltac:(lia) ltac:(nia)) as Hd.
  rewrite Z.div_mul in Hd by lia. destruct (_ && _); lia.
Qed.

(** C40: The buffered fee is sound at 256 bits: for every quote and buffer it never
    overflows, and unless the product saturates it is at least the quote, strictly more than a positive
    quote when a buffer is configured, and exceeds the exact buffered amount by at most one wei; when the product
    saturates the result is at most one more than 2^256/10000, so a quote above that is underpaid. *)
Theorem fee_buffer_bounds fee bps :
  in_u256 fee -> in_u64 bps ->
  in_u256 (apply_fee_buffer fee bps)
  /\ (fee * (10000 + bps) <= u256_max ->
        fee <= apply_fee_buffer fee bps
        /\ (0 < fee -> 0 < bps -> fee < apply_fee_buffer fee bps)
        /\ 10000 * apply_fee_buffer fee bps <= fee * (10000 + bps) + 10000)
  /\ (u256_max < fee * (10000 + bps) -> 0 < bps -> apply_fee_buffer fee bps <= u256_max / 10000 + 1).
Proof.
  unfold in_u256, in_u64. intros Hf Hb.
  assert (u256_max / 10000 < 2 ^ 250) as Hmax by by vm_compute.
  assert (u256_max = 2 ^ 256 - 1) as Hu by done.
  destruct (Z.eqb_spec bps 0) as [Hz|Hz].
  { unfold apply_fee_buffer. rewrite Hz. cbn [Z.eqb]. split_and!; try lia. }
  set (q := saturating_mul_u256 fee (10000 + bps) / 10000).
  assert (apply_fee_buffer fee bps = if (q =? fee) && (0 <? fee) then fee + 1 else q) as ->.
  { unfold apply_fee_buffer. by rewrite (proj2 (Z.eqb_neq bps 0)). }
  assert (0 <= q <= u256_max / 10000) as Hq.
  { unfold q, saturating_mul_u256. split; [apply Z.div_pos; nia|]. apply Z.div_le_mono; lia. }
  assert (fee * (10000 + bps) <= u256_max -> 10000 * q <= fee * (10000 + bps) < 10000 * q + 10000) as Hex.
  { intros Hs. unfold q, saturating_mul_u256. rewrite Z.min_l by lia.
    pose proof (Z.div_mod (fee * (10000 + bps)) 10000 ltac:(lia)). pose proof (Z.mod_pos_bound (fee * (10000 + bps)) 10000 ltac:(lia)). lia. }
  destruct (Z.eqb_spec q fee) as [E|E]; destruct (Z.ltb_spec 0 fee); cbn [andb]; split_and!; try lia;
    intros Hs; try (specialize (Hex Hs)); try split_and!; nia.
Qed.

(** ** Executions are steps of the system *)

Section steps.
Context {C : Crypto} {R : R1CS} {D : Deciders} {P : PoseidonT3} {L : Endpoint} {N : JobRpc}.
Context (self chainid : Z -> Z) (hubEid : Z).

Local Abbreviation steps := (rtc (world_step self chainid hubEid)).

(** Others act through the system as well. *)
Definition others_step : Prop := forall w, steps w (job_others w).

Lemma mine_relay_steps eid options value w : steps w (mine_relay eid options value w).1.
Proof.
  unfold mine_relay. destruct (wo_chains w !! eid) as [c|] eqn:Ec; [|done].
  destruct (relayTransferRoot _ _ _) as [[[v' logs] payload]|e] eqn:Er; [|done]. cbn [fst].
  apply rtc_once. destruct w. by eapply ws_relay.
Qed.

Lemma broadcast_event targets options value refund h h' logs sent :
  broadcast targets options value refund h = Ok (h', logs, sent) -> exists e, parse_aggregation_root_updated logs = Some e.
Proof. intros H. apply broadcast_ok in H as (root & _ & _ & _ & _ & -> & _). by eexists. Qed.

Lemma mine_broadcast_steps targets options value w : steps w (mine_broadcast targets options value w).1.
Proof.
  unfold mine_broadcast. destruct (broadcast _ _ _ _ _) as [[[h' logs] sent]|e] eqn:Eb; [|done]. cbn [fst].
  destruct (broadcast_event _ _ _ _ _ _ _ _ Eb) as [e He]. rewrite He. apply rtc_once. destruct w. by eapply ws_broadcast.
Qed.

(** A computation whose effect is a sequence of steps of the system. *)
Definition stepping {A} (m : M World string A) : Prop := forall w, steps w (m w).1.

Lemma stepping_ret {A} (a : A) : stepping (mret a).
Proof. intros w. done. Qed.
Lemma stepping_lift {A} (r : result string A) : stepping (lift r).
Proof. intros w. done. Qed.
Lemma stepping_get : stepping get.
Proof. intros w. done. Qed.
Lemma stepping_bind {A B} (m : M World string A) (f : A -> M World string B) :
  stepping m -> (forall a, stepping (f a)) -> stepping (m ≫= f).
Proof.
  intros Hm Hf w. unfold mbind, M_bind. specialize (Hm w). destruct (m w) as [w1 [a|e]]; cbn [fst] in *; [|done].
  etransitivity; [exact Hm|apply Hf].
Qed.
Lemma stepping_mined {A} (f : World -> World * A) : others_step -> (forall w, steps w (f w).1) -> stepping (mined f).
Proof.
  intros Ho Hf w. unfold mined. specialize (Hf (job_others w)). destruct (f (job_others w)) as [w' r]. cbn [fst] in *.
  etransitivity; [apply Ho|exact Hf].
Qed.

Lemma relay_stepping job : others_step -> stepping (relay_execute_once job).
Proof.
  intros Ho. unfold relay_execute_once, view, relay_transfer_root, wait_for_receipt.
  repeat first [apply stepping_bind; [|intros ?] | apply stepping_lift | apply stepping_get | apply stepping_ret
    | apply stepping_mined; [done|apply mine_relay_steps] | case_match | progress cbv zeta].
Qed.

Lemma broadcast_stepping job : others_step -> stepping (broadcast_execute_once job).
Proof.
  intros Ho. unfold broadcast_execute_once, view, hub_broadcast_tx, wait_for_receipt. case_match; [apply stepping_ret|].
  repeat first [apply stepping_bind; [|intros ?] | apply stepping_lift | apply stepping_get | apply stepping_ret
    | apply stepping_mined; [done|apply mine_broadcast_steps] | case_match | progress cbv zeta].
Qed.

Lemma reachable_steps eids w w' :
  world_reachable self chainid hubEid eids w -> steps w w' -> world_reachable self chainid hubEid eids w'.
Proof. intros Hw. induction 1 as [|w w1 w2 Hs _ IH]; [done|]. apply IH. by eapply wr_step. Qed.

Lemma ticks_reachable eids m n : forall w,
  stepping m -> world_reachable self chainid hubEid eids w -> world_reachable self chainid hubEid eids (run_ticks m n w).
Proof.
  induction n as [|n IH]; intros w Hm Hw; cbn [run_ticks]; [|apply IH; [done|]]; by eapply reachable_steps.
Qed.

(** The job can do no harm: whatever the endpoint quotes and the nodes answer, and whatever else happens in between,
    every execution of a relay, of a broadcast, any number of ticks of their loops (failures included)
    and the [--once] run lead from a reachable state of the cross-chain system to a reachable one, so every guarantee of
    the system holds with the job running. *)
Theorem job_preserves_reachability eids w relays job bjob n :
  others_step -> world_reachable self chainid hubEid eids w ->
  world_reachable self chainid hubEid eids (run_ticks (relay_execute_once job) n w)
  /\ world_reachable self chainid hubEid eids (run_ticks (broadcast_execute_once bjob) n w)
  /\ world_reachable self chainid hubEid eids (run_once relays (Some bjob) w).1.
Proof.
  intros Ho Hw. split_and!.
  - apply ticks_reachable; [by apply relay_stepping|done].
  - apply ticks_reachable; [by apply broadcast_stepping|done].
  - assert (stepping (relay_all relays)) as Hrel.
    { induction relays as [|r relays IH]; [apply stepping_ret|]. cbn [relay_all].
      apply stepping_bind; [by apply relay_stepping|]. intros []. exact IH. }
    eapply reachable_steps; [exact Hw|]. unfold run_once.
    apply (stepping_bind (relay_all relays) (fun _ => broadcast_execute_once bjob)); [exact Hrel|]. intros []. by apply broadcast_stepping.
Qed.
End steps.

(** ** One round of the job *)

(** What the job relies on: a quote is a native amount that depends on the size of the
    message (both contracts quote with a dummy payload), and a message whose quote is paid is accepted. *)
Class EndpointLaws (L : Endpoint) : Prop := {
  quote_native : forall eid p o q, lz_quote eid p o = Some q -> 0 <= q.1;
  quote_size : forall eid p p' o, length p = length p' -> lz_quote eid p o = lz_quote eid p' o;
  send_paid : forall eid p o q value, lz_quote eid p o = Some q -> q.1 <= value -> is_Some (lz_send eid p o value);
}.

(** Nodes answer and nobody interferes. *)
Record rpc_quiet (N : JobRpc) : Prop := {
  rq_call : forall name, job_call name = Ok tt;
  rq_send : forall name, job_send name = Ok tt;
  rq_receipt : forall name, job_receipt name = Ok tt;
  rq_others : forall w, job_others w = w;
}.

Definition with_hub (h : Hub) (w : World) : World := mkWorld h (wo_chains w) (wo_log w) (wo_to_hub w) (wo_to_chain w).

Section round.
Context {C : Crypto} {HC : CryptoLaws C} {P : PoseidonT3} {HP : PoseidonT3Laws C P} {L : Endpoint} {HL : EndpointLaws L}
  {N : JobRpc} {HN : rpc_quiet N}.

Lemma view_run {A} name (f : World -> result string A) w a : f w = Ok a -> view name f w = (w, Ok a).
Proof.
  intros Hf. unfold view. rewrite (M_bind_run _ _ w w tt) by (apply lift_run, (rq_call _ HN)).
  rewrite (M_bind_run _ _ w w w) by reflexivity. by apply lift_run.
Qed.

Lemma receipt_run {A} name (r : A) w : wait_for_receipt name (Some r) w = (w, Ok r).
Proof.
  unfold wait_for_receipt. rewrite (M_bind_run _ _ w w tt) by (apply lift_run, (rq_receipt _ HN)). reflexivity.
Qed.

Lemma mined_run {A} (f : World -> World * A) w w' a : f w = (w', a) -> mined f w = (w', Ok a).
Proof. intros Hf. unfold mined. by rewrite (rq_others _ HN), Hf. Qed.

(** The world after a relay of [v]'s latest proved root. *)
Definition relayed (eid : Z) (c : Chain) (w : World) : World :=
  let v := ch_verifier c in
  mkWorld (wo_hub w) (<[eid := with_verifier (set_relayed (latestProvedIndex v) v) c]> (wo_chains w)) (wo_log w)
    (wo_to_hub w ++ [(eid, abi_encode_words [slot (provedTransferRoots v) (latestProvedIndex v); latestProvedIndex v])]) (wo_to_chain w).

Lemma relay_once_ok job c w q :
  let v := ch_verifier c in
  wo_chains w !! rj_contract job = Some c -> paused v = false -> latestProvedIndex v <> latestRelayedIndex v ->
  slot (provedTransferRoots v) (latestProvedIndex v) <> 0 ->
  lz_quote (v_hubEid v) (abi_encode_words [0; 0]) (rj_lz_options job) = Some q ->
  0 <= rj_fee_buffer_bps job -> q.1 * (10000 + rj_fee_buffer_bps job) <= u256_max ->
  relay_execute_once job w = (relayed (rj_contract job) c w, Ok tt).
Proof.
  intros v Hc Hp Hi Hr Hq Hb Hs. unfold relay_execute_once.
  assert (verifier_at (rj_contract job) w = Ok v) as Hv by (unfold verifier_at; by rewrite Hc).
  rewrite (M_bind_run _ _ w w false).
  2:{ apply view_run. rewrite Hv. cbn [mbind result_bind]. unfold verifier_isUpToDate. by rewrite (proj2 (Z.eqb_neq _ _)). }
  rewrite (M_bind_run _ _ w w q).
  2:{ apply view_run. rewrite Hv. cbn [mbind result_bind]. unfold quoteRelay. by rewrite Hq. }
  cbv zeta. set (fee := apply_fee_buffer q.1 _).
  set (payload := abi_encode_words [slot (provedTransferRoots v) (latestProvedIndex v); latestProvedIndex v]).
  assert (lz_quote (v_hubEid v) payload (rj_lz_options job) = Some q) as Hq'.
  { rewrite <- Hq. apply quote_size. unfold payload. by rewrite !length_abi_encode. }
  pose proof (fee_buffer_lower q.1 _ (quote_native _ _ _ _ Hq) Hb Hs) as Hfee. fold fee in Hfee.
  destruct (send_paid _ _ _ _ fee Hq' Hfee) as [guid Hg].
  rewrite (M_bind_run _ _ w (relayed (rj_contract job) c w)
             (Some [TransferRootRelayed (latestProvedIndex v) (slot (provedTransferRoots v) (latestProvedIndex v)) guid])).
  - rewrite (M_bind_run _ _ _ _ _ (receipt_run _ _ _)). reflexivity.
  - unfold relay_transfer_root. rewrite (M_bind_run _ _ w w tt) by (apply lift_run, (rq_send _ HN)). apply mined_run.
    unfold mine_relay. rewrite Hc. fold v. unfold relayTransferRoot. rewrite Hp. cbn [negb require mbind result_bind].
    rewrite (proj2 (Z.eqb_neq _ 0) Hr). cbn [negb require mbind result_bind]. fold payload. rewrite Hq'. cbn [ok_or mbind result_bind].
    rewrite (proj2 (Z.ltb_ge _ _) Hfee). cbn [negb require mbind result_bind]. rewrite Hg. reflexivity.
Qed.

(** Quotes with payloads of one size agree, and paid messages leave for every target. *)
Lemma quote_targets_size h p p' o ts : forall total,
  length p = length p' -> quote_targets h p o ts total = quote_targets h p' o ts total.
Proof.
  induction ts as [|t ts IH]; intros total Hl; [done|]. cbn [quote_targets]. rewrite (quote_size t p p' o Hl).
  destruct (hub_require _ _); [|done]. cbn [mbind result_bind]. destruct (lz_quote _ _ _) as [fee|]; [|done]. cbn [ok_or mbind result_bind].
  destruct (hub_require _ _); [|done]. cbn [mbind result_bind]. destruct (hub_require _ _); [|done]. cbn [mbind result_bind].
  by rewrite (IH _ Hl).
Qed.

Lemma quote_targets_ok h p o ts : forall total fees sum,
  quote_targets h p o ts total = Ok (fees, sum) ->
  total <= sum /\ send_targets p o (zip ts fees) = Ok ((fun t => (t, p)) <$> ts).
Proof.
  induction ts as [|t ts IH]; intros total fees sum Hq; cbn [quote_targets] in Hq; [by injection Hq as <- <-|].
  apply result_bind_ok in Hq as ([] & _ & Hq). apply result_bind_ok in Hq as (fee & Hf & Hq).
  destruct (lz_quote t p o) as [q|] eqn:El; [|done]. injection Hf as ->.
  apply result_bind_ok in Hq as ([] & _ & Hq). apply result_bind_ok in Hq as ([] & _ & Hq).
  apply result_bind_ok in Hq as ([fees' sum'] & Hrest & Hq). injection Hq as <- <-.
  apply IH in Hrest as [Hle Hsend]. pose proof (quote_native _ _ _ _ El). split; [lia|].
  cbn [zip_with send_targets]. destruct (send_paid _ _ _ _ fee.1 El) as [guid Hg]; [lia|]. rewrite Hg. cbn [ok_or mbind result_bind].
  change (zip_with pair ts fees') with (zip ts fees'). rewrite Hsend. reflexivity.
Qed.

(** The broadcast of a hub: its event and the state it leaves. *)
Definition hub_event (h : Hub) : AggregationRootUpdatedEvent :=
  mkAggEvent (spec_root AGGREGATION_TREE_HEIGHT (leaf_fun (transferRoots h))) (aggSeq h + 1) (transferRoots h) (transferTreeIndices h).
Definition event_message (e : AggregationRootUpdatedEvent) : bytes := abi_encode_words [ag_root e; ag_agg_seq e].
Definition broadcasted (h : Hub) : Hub :=
  mkHub (transferRoots h) (transferTreeIndices h) (tokenInfos h) (eidToPosition h) (zeroHash h) (aggSeq h + 1) true.

Lemma broadcast_total h targets options value fees total :
  hub_inv h -> Forall is_fr (transferRoots h) -> aggSeq h < u64_max ->
  quote_targets h (abi_encode_words [0; 1]) options targets 0 = Ok (fees, total) -> total <= value ->
  exists logs, broadcast targets options value true h = Ok (broadcasted h, logs, (fun t => (t, event_message (hub_event h))) <$> targets)
    /\ parse_aggregation_root_updated logs = Some (hub_event h).
Proof.
  intros Hi Hfr Hseq Hq Hv. unfold broadcast, computeBroadcastContext.
  rewrite (proj2 (Nat.leb_le _ _)) by (rewrite (hi_indices _ Hi); lia). cbn [hub_require mbind result_bind].
  rewrite (hi_zero _ Hi), computeAggregationRoot_spec;
    [|exact Hfr | intros j Hj; by apply generateZeroHashes_lookup | apply (hi_cap _ Hi)].
  cbn [ok_or mbind result_bind]. rewrite (proj2 (Z.ltb_lt _ _) Hseq). cbn [hub_require mbind result_bind].
  cbn [bc_payload bc_snapshot bc_indices bc_aggregationRoot bc_nextAggSeq].
  change (abi_encode_words [spec_root POSEIDON_TREE_HEIGHT (leaf_fun (transferRoots h)); aggSeq h + 1]) with (event_message (hub_event h)).
  rewrite (quote_targets_size h (event_message (hub_event h)) (abi_encode_words [0; 1])) in * by (unfold event_message; by rewrite !length_abi_encode).
  rewrite Hq. cbn [mbind result_bind].
  rewrite (quote_targets_size h (abi_encode_words [0; 1]) (event_message (hub_event h))) in Hq by (unfold event_message; by rewrite !length_abi_encode).
  destruct (quote_targets_ok _ _ _ _ _ _ _ Hq) as [_ Hsend].
  rewrite (proj2 (Z.ltb_ge _ _) Hv). cbn [negb hub_require mbind result_bind]. rewrite Hsend. cbn [mbind result_bind].
  rewrite orb_true_r. cbn [hub_require mbind result_bind]. eexists. split; [unfold broadcasted; by rewrite (hi_zero _ Hi)|].
  cbn [parse_aggregation_root_updated]. unfold hub_event. by rewrite <- (hi_indices _ Hi), firstn_all.
Qed.

Lemma broadcast_once_ok job w fees total :
  let h := wo_hub w in
  hub_inv h -> Forall is_fr (transferRoots h) -> aggSeq h < u64_max -> hub_isUpToDate h = false -> bj_target_eids job <> [] ->
  quote_targets h (abi_encode_words [0; 1]) (bj_lz_options job) (bj_target_eids job) 0 = Ok (fees, total) ->
  0 <= bj_fee_buffer_bps job -> total * (10000 + bj_fee_buffer_bps job) <= u256_max ->
  broadcast_execute_once job w
  = (mkWorld (broadcasted h) (wo_chains w) (wo_log w ++ [hub_event h]) (wo_to_hub w)
       (wo_to_chain w ++ ((fun t => (t, event_message (hub_event h))) <$> bj_target_eids job)), Ok tt).
Proof.
  intros h Hi Hfr Hseq Hup Hne Hq Hb Hs. unfold broadcast_execute_once.
  destruct (bj_target_eids job) as [|t ts] eqn:Et; [done|]. rewrite <- Et in *.
  rewrite (M_bind_run _ _ w w false) by (apply view_run; fold h; by rewrite Hup).
  rewrite (M_bind_run _ _ w w total) by (apply view_run; fold h; unfold quoteBroadcast; by rewrite Hq).
  cbv zeta. destruct (quote_targets_ok _ _ _ _ _ _ _ Hq) as [H0 _].
  pose proof (fee_buffer_lower total _ H0 Hb Hs) as Hfee. set (fee := apply_fee_buffer _ _) in *.
  destruct (broadcast_total h (bj_target_eids job) (bj_lz_options job) fee fees total) as (logs & Hbr & Hlog); try done.
  erewrite (M_bind_run (hub_broadcast_tx _ _ _) _ w _ (Some logs)).
  - rewrite (M_bind_run _ _ _ _ _ (receipt_run _ _ _)). unfold parse_broadcast_receipt. rewrite Hlog. reflexivity.
  - unfold hub_broadcast_tx. rewrite (M_bind_run _ _ w w tt) by (apply lift_run, (rq_send _ HN)). apply mined_run.
    unfold mine_broadcast. fold h. rewrite Hbr, Hlog. reflexivity.
Qed.

Lemma quote_targets_hub h h' p o ts : forall total,
  eidToPosition h = eidToPosition h' -> quote_targets h p o ts total = quote_targets h' p o ts total.
Proof.
  induction ts as [|t ts IH]; intros total He; [done|]. cbn [quote_targets]. rewrite He.
  destruct (hub_require _ _); [|done]. cbn [mbind result_bind]. destruct (lz_quote _ _ _); [|done]. cbn [ok_or mbind result_bind].
  destruct (hub_require _ _); [|done]. cbn [mbind result_bind]. destruct (hub_require _ _); [|done]. cbn [mbind result_bind].
  by rewrite (IH _ He).
Qed.

(** The hub after it received root [root] of index [p] for position [i]. *)
Definition received (h : Hub) (i : nat) (root p : Z) : Hub :=
  mkHub (<[i := root]> (transferRoots h)) (<[i := p]> (transferTreeIndices h)) (tokenInfos h) (eidToPosition h) (zeroHash h) (aggSeq h) false.

Lemma hub_receives_words h (i : nat) info cur root p payload :
  hub_inv h -> tokenInfos h !! i = Some info -> transferTreeIndices h !! i = Some cur -> cur < p -> in_u64 p ->
  length payload = 64%nat -> abi_words 2 payload = [root; p] ->
  hub_lzReceive (ti_eid info) payload h = Ok (received h i root p, [TransferRootUpdated (ti_eid info) (Z.of_nat i) root]).
Proof.
  intros Hi Hinfo Hcur Hlt Hp Hl Hw. unfold hub_lzReceive. rewrite (hi_position _ Hi i info Hinfo), Hl, Hw.
  rewrite (proj2 (Z.eqb_neq _ 0)) by lia. change (word [root; p] 0) with root. change (word [root; p] 1) with p.
  cbv zeta. rewrite (proj2 (Z.leb_le p u64_max)) by (unfold in_u64, u64_max in *; lia).
  cbn [negb Nat.eqb hub_require mbind result_bind]. rewrite Z.add_simpl_r, Nat2Z.id, Hcur.
  cbn [ok_or mbind result_bind]. rewrite (proj2 (Z.leb_gt _ _) Hlt).
  rewrite (proj2 (Nat.ltb_lt _ _)); [reflexivity|]. rewrite <- (hi_infos _ Hi). by eapply lookup_lt_Some.
Qed.

Lemma hub_receives h (i : nat) info cur root p :
  hub_inv h -> tokenInfos h !! i = Some info -> transferTreeIndices h !! i = Some cur -> cur < p -> in_u64 p -> in_u256 root ->
  hub_lzReceive (ti_eid info) (abi_encode_words [root; p]) h
  = Ok (received h i root p, [TransferRootUpdated (ti_eid info) (Z.of_nat i) root]).
Proof.
  intros Hi Hinfo Hcur Hlt Hp Hr. eapply hub_receives_words; [exact Hi | exact Hinfo | exact Hcur | exact Hlt | exact Hp | apply length_abi_encode |].
  apply encoded_words; [done|]. unfold in_u64, in_u256 in *. lia.
Qed.

Lemma verifier_receives_words v root seq payload :
  in_u64 seq -> slot (globalTransferRoots v) seq = 0 -> length payload = 64%nat -> abi_words 2 payload = [root; seq] ->
  exists v' logs, verifier_lzReceive (v_hubEid v) payload v = Ok (v', logs) /\ slot (globalTransferRoots v') seq = root.
Proof.
  intros Hs Hz Hl Hw. unfold verifier_lzReceive, abi_decode_words. rewrite Hl, Hw, Z.eqb_refl.
  unfold mbind, result_bind, require. cbn [Nat.mul Nat.add Nat.ltb Nat.leb].
  change (word [root; seq] 0) with root. change (word [root; seq] 1) with seq.
  rewrite (proj2 (Z.leb_le seq u64_max)) by (unfold in_u64, u64_max in *; lia).
  unfold lzReceive. rewrite Z.eqb_refl, Hz, Z.eqb_refl. do 2 eexists. split; [reflexivity|].
  cbn [set_global globalTransferRoots]. by rewrite slot_insert, decide_True.
Qed.

Lemma verifier_receives v e :
  in_u256 (ag_root e) -> in_u64 (ag_agg_seq e) -> slot (globalTransferRoots v) (ag_agg_seq e) = 0 ->
  exists v' logs, verifier_lzReceive (v_hubEid v) (event_message e) v = Ok (v', logs)
    /\ slot (globalTransferRoots v') (ag_agg_seq e) = ag_root e.
Proof.
  intros Hr Hs Hz. apply verifier_receives_words; [done..| |].
  - unfold event_message. by rewrite length_abi_encode.
  - apply encoded_words; [done|]. unfold in_u64, in_u256 in *. lia.
Qed.

(** When a round can run: a root is proved but not relayed, the hub knows the chain and an older tree of it, and the quotes exist
    and can be buffered. *)
Record round_ready (w : World) (rj : RelayJob) (bj : BroadcastJob) (c : Chain) (i : nat) (cur : Z) : Prop := {
  rr_chain : wo_chains w !! rj_contract rj = Some c;
  rr_unpaused : paused (ch_verifier c) = false;
  rr_stale : latestProvedIndex (ch_verifier c) <> latestRelayedIndex (ch_verifier c);
  rr_index : in_u64 (latestProvedIndex (ch_verifier c));
  rr_root : is_fr (slot (provedTransferRoots (ch_verifier c)) (latestProvedIndex (ch_verifier c)));
  rr_nonzero : slot (provedTransferRoots (ch_verifier c)) (latestProvedIndex (ch_verifier c)) <> 0;
  rr_relay_fee : exists q, lz_quote (v_hubEid (ch_verifier c)) (abi_encode_words [0; 0]) (rj_lz_options rj) = Some q
    /\ q.1 * (10000 + rj_fee_buffer_bps rj) <= u256_max;
  rr_relay_bps : 0 <= rj_fee_buffer_bps rj;
  rr_hub : hub_inv (wo_hub w);
  rr_roots : Forall is_fr (transferRoots (wo_hub w));
  rr_seq : aggSeq (wo_hub w) < u64_max;
  rr_known : exists info, tokenInfos (wo_hub w) !! i = Some info /\ ti_eid info = rj_contract rj;
  rr_older : transferTreeIndices (wo_hub w) !! i = Some cur /\ cur < latestProvedIndex (ch_verifier c);
  rr_targets : bj_target_eids bj <> [];
  rr_broadcast_fee : exists fees total,
    quote_targets (wo_hub w) (abi_encode_words [0; 1]) (bj_lz_options bj) (bj_target_eids bj) 0 = Ok (fees, total)
    /\ total * (10000 + bj_fee_buffer_bps bj) <= u256_max;
  rr_broadcast_bps : 0 <= bj_fee_buffer_bps bj;
}.


(** An outsider can silence the broadcasts: in any state of the hub, anyone may call [broadcast] with no
    targets and no fee; it succeeds and sends nothing, but advances the sequence and marks the hub up to date, after which
    [BroadcastJob::execute_once] reports success without doing anything, so the pending roots reach no
    chain until another root arrives (and the call can be repeated then). *)
Theorem empty_broadcast_silences_job w bj options :
  hub_inv (wo_hub w) -> Forall is_fr (transferRoots (wo_hub w)) -> aggSeq (wo_hub w) < u64_max ->
  exists h' logs, broadcast [] options 0 true (wo_hub w) = Ok (h', logs, [])
    /\ transferRoots h' = transferRoots (wo_hub w) /\ aggSeq h' = aggSeq (wo_hub w) + 1 /\ hub_isUpToDate h' = true
    /\ broadcast_execute_once bj (with_hub h' w) = (with_hub h' w, Ok tt).
Proof.
  intros Hi Hfr Hseq. destruct (broadcast_total (wo_hub w) [] options 0 [] 0) as (logs & Hb & _); [done..|].
  exists (broadcasted (wo_hub w)), logs. split_and!; [exact Hb|done..|].
  unfold broadcast_execute_once. destruct (bj_target_eids bj); [done|]. by rewrite (M_bind_run _ _ _ _ true) by (by apply view_run).
Qed.
End round.

(** ** Witnesses *)

Section witnesses.
#[local] Existing Instance toy_crypto.
#[local] Existing Instance toy_crypto_laws.
#[local] Existing Instance toy_r1cs.
#[local] Existing Instance toy_poseidonT3.
#[local] Existing Instance toy_poseidonT3_laws.
#[local] Existing Instance toy_endpoint.
#[local] Existing Instance toy_global_deciders.

Lemma toy_endpoint_laws : EndpointLaws toy_endpoint.
Proof. split; cbn; [by intros _ _ _ q [= <-]; cbn; lia | done | by eexists]. Qed.
#[local] Existing Instance toy_endpoint_laws.

Definition toy_rpc : JobRpc := {|
  job_call := fun _ => Ok tt; job_send := fun _ => Ok tt; job_receipt := fun _ => Ok tt; job_others := fun w => w |}.
#[local] Existing Instance toy_rpc.
Lemma toy_rpc_quiet : rpc_quiet toy_rpc.
Proof. by split. Qed.

Lemma fee_buffer_bounds_witness : in_u256 (apply_fee_buffer 5 1000) /\ apply_fee_buffer 5 1000 = 6.
Proof. split; [apply (fee_buffer_bounds 5 1000); unfold in_u256, in_u64; lia | by vm_compute]. Defined.

Definition toy_relay_job : RelayJob := mkRelayJob "z" 1 7 [] 1000.
Definition toy_broadcast_job : BroadcastJob := mkBroadcastJob [] [7] 1000.

Lemma job_preserves_reachability_witness :
  world_reachable (fun _ => 9) (fun _ => 1) 0 [7] (run_ticks (relay_execute_once toy_relay_job) 2 toy_world)
  /\ world_reachable (fun _ => 9) (fun _ => 1) 0 [7] (run_ticks (broadcast_execute_once toy_broadcast_job) 2 toy_world)
  /\ world_reachable (fun _ => 9) (fun _ => 1) 0 [7] (run_once [toy_relay_job] (Some toy_broadcast_job) toy_world).1.
Proof.
  apply (job_preserves_reachability (fun _ => 9) (fun _ => 1) 0 [7] toy_world [toy_relay_job] toy_relay_job toy_broadcast_job 2);
    [intros w; apply rtc_refl | apply toy_crosschain_reachable].
Defined.

(** A chain that has proved its first transfer, and a hub that knows the chain. *)
Definition toy_proved : Chain :=
  mkChain (mkToken 1 toy_c1 9) (mkVerifier 0 1 1 0 0 {[1 := toy_c1]} (<[1 := toy_r1]> {[0 := toy_r0]}) ∅ ∅ false) [toy_burn] [].
Definition toy_round_world : World := mkWorld toy_hub1 {[7 := toy_proved]} [] [] [].

Lemma toy_round_ready : round_ready toy_round_world toy_relay_job toy_broadcast_job toy_proved 0 0.
Proof.
  assert (hub_inv toy_hub1) as Hi by (apply hub_reachable_inv, toy_hub1_reachable).
  split; cbn [toy_round_world wo_chains wo_hub toy_relay_job rj_contract rj_lz_options rj_fee_buffer_bps
    toy_broadcast_job bj_lz_options bj_target_eids bj_fee_buffer_bps toy_proved ch_verifier paused latestProvedIndex latestRelayedIndex
    v_hubEid provedTransferRoots].
  - reflexivity.
  - reflexivity.
  - lia.
  - unfold in_u64. lia.
  - apply (bool_decide_unpack _). by vm_compute.
  - by vm_compute.
  - exists (5, 0). split; [reflexivity|]. by vm_compute.
  - lia.
  - exact Hi.
  - constructor; [|constructor]. by vm_compute.
  - by vm_compute.
  - by exists toy_info.
  - split; [reflexivity|lia].
  - discriminate.
  - exists [5], 5. split; [by vm_compute|]. by vm_compute.
  - lia.
Qed.


Lemma empty_broadcast_silences_job_witness :
  exists h' logs, broadcast [] [] 0 true toy_hub1 = Ok (h', logs, [])
    /\ transferRoots h' = transferRoots toy_hub1 /\ aggSeq h' = aggSeq toy_hub1 + 1 /\ hub_isUpToDate h' = true
    /\ broadcast_execute_once toy_broadcast_job (with_hub h' toy_round_world) = (with_hub h' toy_round_world, Ok tt).
Proof.
  apply (empty_broadcast_silences_job (HN := toy_rpc_quiet) toy_round_world toy_broadcast_job []).
  - apply (rr_hub _ _ _ _ _ _ toy_round_ready).
  - apply (rr_roots _ _ _ _ _ _ toy_round_ready).
  - apply (rr_seq _ _ _ _ _ _ toy_round_ready).
Defined.
End witnesses.
