(* ===== verification/Decider.v ===== *)
(** The decider prover service ([decider-prover/src]: [queue.rs], [worker.rs],
    [main.rs], [circuits.rs], [config.rs]), its wire types ([api-types/src/lib.rs]) and
    its HTTP client ([client-common/src/prover/mod.rs]).

    Redis is a clock, string keys with an expiry time and lists; JSON and Base64 are the
    [serde_json] and [base64] crates ([Json], [Base64]), the folding library is
    [Engine].  Failures of the Redis transport and of HTTP are not modelled. *)

From S2P Require Import Prelude Words Text Crypto BitPaths MerkleTrees Gadgets Circuits Database OnChain TreeDb Events Leases Jobs RootJob.
Local Open Scope Z_scope.

(** ** Wire types *)

Definition CircuitKind_to_string (c : CircuitKind) : string :=
  match c with Root => "root" | WithdrawLocal => "withdraw_local" | WithdrawGlobal => "withdraw_global" end.
Definition CircuitKind_from_str (value : string) : result string CircuitKind :=
  if bool_decide (value = "root"%string) then Ok Root
  else if bool_decide (value = "withdraw_local"%string) then Ok WithdrawLocal
  else if bool_decide (value = "withdraw_global"%string) then Ok WithdrawGlobal
  else Err "unsupported circuit kind"%string.

Inductive JobStatus := Queued | Processing | Completed | Failed.

Definition JobStatus_to_string (s : JobStatus) : string :=
  match s with Queued => "queued" | Processing => "processing" | Completed => "completed" | Failed => "failed" end.
Definition JobStatus_from_str (value : string) : result string JobStatus :=
  if bool_decide (value = "queued"%string) then Ok Queued
  else if bool_decide (value = "processing"%string) then Ok Processing
  else if bool_decide (value = "completed"%string) then Ok Completed
  else if bool_decide (value = "failed"%string) then Ok Failed
  else Err "unsupported job status"%string.

Record JobRequest := mkJobRequest { jr_job_id : string; jr_circuit : CircuitKind; jr_ivc_proof : string }.

(** [JobState], and the [JobStatusResponse] built from it field by field. *)
Record JobState := mkJobState {
  js_job_id : string;
  js_circuit : CircuitKind;
  js_status : JobStatus;
  js_result : option string;
  js_error : option string;
}.

Record SubmitJobResponse := mkSubmitJobResponse { sr_job_id : string; sr_status : JobStatus; sr_message : string }.

(** ** External code *)

Class Json := {
  state_to_string : JobState -> string;
  state_from_str : string -> option JobState;
  request_to_string : JobRequest -> string;
  request_from_str : string -> option JobRequest;
}.

Class Base64 := {
  b64_encode : bytes -> string;
  b64_decode : string -> option bytes;
}.

Inductive ProverError :=
| Config (message : string)
| Serialization
| Nova (message : string)
| InvalidInput (message : string)
(** the panic of a slice off a character boundary ends the task *)
| WorkerPanic.

(** [IVCProof] deserialization, verification, reconstruction and the decider proof of
    one circuit. *)
Class Engine := {
  IVCProof : Type;
  ivc_deserialize : bytes -> result string IVCProof;
  ivc_verify : CircuitKind -> IVCProof -> result string unit;
  ivc_decide : CircuitKind -> IVCProof -> result string bytes;
}.

(** ** [circuits.rs] *)

Section circuits.
Context {E : Engine}.

Definition produce_decider (circuit : CircuitKind) (ivc_proof_bytes : bytes) : result ProverError bytes :=
  ivc_proof ← map_err (fun err => InvalidInput ("failed to deserialize IVC proof: " +:+ err)) (ivc_deserialize ivc_proof_bytes);
  _ ← map_err (fun err => InvalidInput ("invalid IVC proof: " +:+ err)) (ivc_verify circuit ivc_proof);
  map_err Nova (ivc_decide circuit ivc_proof).

(** [ProverEngine]: the local circuit is loaded only when it is enabled. *)
Definition generate_decider_proof (withdraw_local : bool) (circuit : CircuitKind) (ivc_proof_bytes : bytes)
  : result ProverError bytes :=
  match circuit with
  | Root => produce_decider Root ivc_proof_bytes
  | WithdrawLocal =>
    if withdraw_local then produce_decider WithdrawLocal ivc_proof_bytes
    else Err (InvalidInput "withdraw_local circuit is disabled in the prover")
  | WithdrawGlobal => produce_decider WithdrawGlobal ivc_proof_bytes
  end.
End circuits.

(** ** Redis *)

Record Redis := mkRedis {
  r_now : Z;
  (** a value and the time it expires *)
  r_kv : gmap string (string * Z);
  r_lists : gmap string (list string);
}.

Definition redis_get (key : string) (r : Redis) : option string :=
  match r_kv r !! key with
  | Some (value, expires) => if r_now r <? expires then Some value else None
  | None => None
  end.
Definition redis_set_ex (key value : string) (ttl : Z) (r : Redis) : Redis :=
  mkRedis (r_now r) (<[key := (value, r_now r + ttl)]> (r_kv r)) (r_lists r).
Definition redis_expire (key : string) (ttl : Z) (r : Redis) : Redis :=
  match redis_get key r with
  | Some value => redis_set_ex key value ttl r
  | None => r
  end.
Definition redis_list (key : string) (r : Redis) : list string := default [] (r_lists r !! key).
Definition redis_rpush (key value : string) (r : Redis) : Redis :=
  mkRedis (r_now r) (r_kv r) (<[key := redis_list key r ++ [value]]> (r_lists r)).

(** [redis::Value]. *)
Inductive Value :=
| VNil
| VInt (num : Z)
| VData (bytes : string)
| VBulk (items : list Value)
| VStatus (s : string)
| VOkay.

(** ** [queue.rs] *)

Inductive EnqueueJobResult := Enqueued (state : JobState) | AlreadyExists (state : JobState).

Definition job_key (prefix job_id : string) : string := prefix +:+ ":" +:+ job_id.

Section queue.
Context {J : Json}.

Definition parse_enqueue_flag (value : Value) : result ProverError bool :=
  match value with
  | VInt num => Ok (num =? 1)
  | VStatus s => Ok (bool_decide (s = "1"%string))
  | VData bytes =>
    parsed ← ok_or (InvalidInput "invalid enqueue flag") (from_utf8 bytes);
    Ok (bool_decide (parsed = "1"%string))
  | _ => Err (InvalidInput "unexpected enqueue flag type")
  end.

Definition parse_job_state (value : Value) : result ProverError JobState :=
  json ← match value with
         | VData bytes => ok_or (InvalidInput "invalid job payload") (from_utf8 bytes)
         | VStatus s => Ok s
         | _ => Err (InvalidInput "unexpected job payload type")
         end;
  ok_or Serialization (state_from_str json).

Definition parse_enqueue_response (value : Value) : result ProverError EnqueueJobResult :=
  match value with
  | VBulk items =>
    match items with
    | [flag; payload] =>
      inserted ← parse_enqueue_flag flag;
      state ← parse_job_state payload;
      Ok (if inserted : bool then Enqueued state else AlreadyExists state)
    | _ => Err (InvalidInput "unexpected enqueue response length")
    end
  | _ => Err (InvalidInput "unexpected enqueue response")
  end.

(** [ENQUEUE_JOB_LUA], which Redis runs atomically. *)
Definition enqueue_job_lua (job_key queue_key job_state queue_payload : string) (ttl : Z) (r : Redis) : Redis * Value :=
  match redis_get job_key r with
  | Some _ =>
    let r' := redis_expire job_key ttl r in
    (r', VBulk [VInt 0; match redis_get job_key r' with Some v => VData v | None => VNil end])
  | None =>
    (redis_rpush queue_key queue_payload (redis_set_ex job_key job_state ttl r), VBulk [VInt 1; VData job_state])
  end.

Definition enqueue_job_atomically (queue_key job_prefix : string) (request : JobRequest) (state : JobState) (ttl : Z)
  : M Redis ProverError EnqueueJobResult := fun r =>
  let key := job_key job_prefix (js_job_id state) in
  let '(r', response) := enqueue_job_lua key queue_key (state_to_string state) (request_to_string request) ttl r in
  (r', parse_enqueue_response response).

Definition enqueue_job (queue_key job_prefix : string) (request : JobRequest) (ttl : Z) : M Redis ProverError EnqueueJobResult :=
  let state := mkJobState (jr_job_id request) (jr_circuit request) Queued None None in
  enqueue_job_atomically queue_key job_prefix request state ttl.

Definition get_job (job_prefix job_id : string) : M Redis ProverError (option JobState) :=
  gets (redis_get (job_key job_prefix job_id)) ≫= fun value =>
  match value with
  | Some data => lift (ok_or Serialization (state_from_str data)) ≫= fun state => mret (Some state)
  | None => mret None
  end.

Definition save_job (job_prefix : string) (job : JobState) (ttl : Z) : M Redis ProverError unit :=
  modify (redis_set_ex (job_key job_prefix (js_job_id job)) (state_to_string job) ttl).

(** [BLPOP]: [None] while the list is empty, when the call blocks. *)
Definition blpop (queue_key : string) (r : Redis) : option (Redis * string) :=
  match redis_list queue_key r with
  | [] => None
  | payload :: rest => Some (mkRedis (r_now r) (r_kv r) (<[queue_key := rest]> (r_lists r)), payload)
  end.

Definition wait_for_job (queue_key : string) (r : Redis) : option (Redis * result ProverError JobRequest) :=
  '(r', payload) ← blpop queue_key r;
  Some (r', ok_or Serialization (request_from_str payload)).

Definition update_status (job_prefix job_id : string) (status : JobStatus) (res error : option string) (ttl : Z)
  : M Redis ProverError JobState :=
  get_job job_prefix job_id ≫= fun found =>
  lift (ok_or (InvalidInput "job not found") found) ≫= fun job =>
  let job' := mkJobState (js_job_id job) (js_circuit job) status res error in
  save_job job_prefix job' ttl ≫= fun _ => mret job'.
End queue.

(** ** [worker.rs] *)

Definition MAX_ERROR_LEN : nat := 512.
(** [None]: the slice panics. *)
Definition truncate_error (message : string) : option string :=
  if (String.length message <=? MAX_ERROR_LEN)%nat then Some message
  else (fun s => s +:+ "...")%string <$> slice_to MAX_ERROR_LEN message.

(** [err.to_string()]. *)
Definition ProverError_to_string (e : ProverError) : string :=
  match e with
  | Config m => "configuration error: " +:+ m
  | Serialization => "serialization error"
  | Nova m => "nova error: " +:+ m
  | InvalidInput m => "invalid input: " +:+ m
  | WorkerPanic => ""
  end.

Section worker.
Context {J : Json} {B : Base64} {E : Engine}.

Definition decode_base64 (input : string) : result ProverError bytes :=
  let trimmed := trim input in
  if bool_decide (trimmed = EmptyString) then Err (InvalidInput "ivc_proof payload is empty")
  else ok_or (InvalidInput "ivc_proof must be valid base64") (b64_decode trimmed).

(** [process_once] after the pop, up to the start of the computation. *)
Definition process_start (job_prefix : string) (ttl : Z) (job : JobRequest) : M Redis ProverError bytes :=
  update_status job_prefix (jr_job_id job) Processing None None ttl ≫= fun _ =>
  lift (decode_base64 (jr_ivc_proof job)).

(** [process_once] from the computation on. *)
Definition process_finish (withdraw_local : bool) (job_prefix : string) (ttl : Z) (job : JobRequest) (proof_bytes : bytes)
  : M Redis ProverError unit :=
  match generate_decider_proof withdraw_local (jr_circuit job) proof_bytes with
  | Ok proof =>
    update_status job_prefix (jr_job_id job) Completed (Some (b64_encode proof)) None ttl ≫= fun _ => mret tt
  | Err err =>
    lift (ok_or WorkerPanic (truncate_error (ProverError_to_string err))) ≫= fun message =>
    update_status job_prefix (jr_job_id job) Failed None (Some message) ttl ≫= fun _ => mret tt
  end.

Definition process_once (withdraw_local : bool) (queue_key job_prefix : string) (ttl : Z) (r : Redis)
  : option (Redis * result ProverError unit) :=
  '(r', job) ← wait_for_job queue_key r;
  Some ((lift job ≫= fun job =>
         process_start job_prefix ttl job ≫= fun proof_bytes =>
         process_finish withdraw_local job_prefix ttl job proof_bytes) r').
End worker.

(** ** [main.rs] *)

Record ProverAppState := mkProverAppState {
  ps_queue_key : string;
  ps_job_prefix : string;
  ps_job_ttl_seconds : Z;
  ps_enable_withdraw_local : bool;
}.

Inductive HttpError :=
| BadRequest (message : string)
| NotFound (message : string)
| InternalServerError (message : string).

Definition map_internal_error (err : ProverError) : HttpError :=
  match err with
  | InvalidInput message => BadRequest message
  | _ => InternalServerError "internal server error"
  end.

Section service.
Context {J : Json} {B : Base64}.

Definition ensure_base64_payload (value : string) : result HttpError unit :=
  let trimmed := trim value in
  if bool_decide (trimmed = EmptyString) then Err (BadRequest "ivc_proof payload is empty")
  else _ ← ok_or (BadRequest "ivc_proof must be valid base64") (b64_decode trimmed); Ok tt.

Definition validate_job_request (request : JobRequest) (enable_withdraw_local : bool) : result HttpError unit :=
  if is_blank (jr_job_id request) then Err (BadRequest "job_id must not be empty")
  else
    _ ← match jr_circuit request with
        | Root | WithdrawGlobal => Ok tt
        | WithdrawLocal =>
          if enable_withdraw_local then Ok tt else Err (BadRequest "withdraw_local circuit is disabled in this prover")
        end;
    ensure_base64_payload (jr_ivc_proof request).

(** The status line is 202 for a queued job and 200 for a known one. *)
Definition submit_job (state : ProverAppState) (request : JobRequest) : M Redis HttpError (Z * SubmitJobResponse) :=
  lift (validate_job_request request (ps_enable_withdraw_local state)) ≫= fun _ =>
  map_err_M map_internal_error
    (enqueue_job (ps_queue_key state) (ps_job_prefix state) request (ps_job_ttl_seconds state)) ≫= fun res =>
  match res with
  | Enqueued job_state => mret (202, mkSubmitJobResponse (js_job_id job_state) (js_status job_state) "job queued")
  | AlreadyExists existing =>
    let message := "job " +:+ js_job_id existing +:+ " already exists with status " +:+ JobStatus_to_string (js_status existing) in
    mret (200, mkSubmitJobResponse (js_job_id existing) (js_status existing) message)
  end.

Definition get_job_status (state : ProverAppState) (job_id : string) : M Redis HttpError JobState :=
  map_err_M map_internal_error (get_job (ps_job_prefix state) job_id) ≫= fun found =>
  lift (ok_or (NotFound "job not found") found).
End service.

(** ** [config.rs] *)

Record ProverConfig := mkProverConfig {
  pc_queue_key : string;
  pc_job_key_prefix : string;
  pc_job_ttl_seconds : Z;
  pc_enable_withdraw_local : bool;
}.

(** The checks on the values read from the environment. *)
Definition load_config (env : result string ProverConfig) : result ProverError ProverConfig :=
  cfg ← map_err Config env;
  if pc_job_ttl_seconds cfg =? 0 then Err (Config "job_ttl_seconds must be greater than zero") else Ok cfg.

Definition default_queue_key : string := "prover:queue".
Definition default_job_key_prefix : string := "prover:job".
Definition default_job_ttl_seconds : Z := 24 * 60 * 60.

(** ** The HTTP client ([client-common/src/prover/mod.rs]) *)

Inductive DeciderError :=
| SubmitJobStatus (err : HttpError)
| StatusRequestStatus (err : HttpError)
| MissingResult
| InvalidResultPayload
| EmptyPayload
| JobFailed (error_msg : string)
| Timeout.

Section client.
Context {B : Base64}.

Definition decode_base64_payload (value : string) : result DeciderError bytes :=
  let trimmed := trim value in
  if bool_decide (trimmed = EmptyString) then Err EmptyPayload
  else ok_or InvalidResultPayload (b64_decode trimmed).

(** The loop of [produce_decider_proof]: [responses] are the answers to its polls in
    order; they end when the time is up. *)
Fixpoint poll_loop (responses : list (result HttpError JobState)) : result DeciderError bytes :=
  match responses with
  | [] => Err Timeout
  | response :: rest =>
    status ← map_err StatusRequestStatus response;
    match js_status status with
    | Queued | Processing => poll_loop rest
    | Completed =>
      res ← ok_or MissingResult (js_result status);
      decode_base64_payload res
    | Failed => Err (JobFailed (default "unknown error" (js_error status)))
    end
  end.

(** [job_id] is the fresh UUID; [submit] is the round trip of the submission. *)
Definition http_produce_decider_proof (submit : JobRequest -> result HttpError (Z * SubmitJobResponse))
  (responses : list (result HttpError JobState)) (job_id : string) (circuit : CircuitKind) (ivc_proof : bytes)
  : result DeciderError bytes :=
  let request := mkJobRequest job_id circuit (b64_encode ivc_proof) in
  _ ← map_err SubmitJobStatus (submit request);
  poll_loop responses.
End client.
