(* ===== verification/DeciderSpec.v ===== *)
(** The decider service returns the engine's proofs: the invariant of the queue and of the job
    records under any interleaving of clients, workers, expiry and crashes, what a client's polls
    can return, and that a submitted job is completed. *)

From Stdlib Require Import Ascii.
From S2P Require Import Prelude Words Text Crypto BitPaths MerkleTrees Gadgets Circuits Database OnChain TreeDb Events Leases Jobs RootJob Decider.
Local Open Scope Z_scope.

(** What the service relies on from [serde_json] and [base64]. *)
Class JsonLaws (J : Json) : Prop := {
  state_roundtrip : forall s, state_from_str (state_to_string s) = Some s;
  request_roundtrip : forall q, request_from_str (request_to_string q) = Some q;
  state_utf8 : forall s, utf8_valid (state_to_string s) = true;
}.

Class Base64Laws (B : Base64) : Prop := {
  b64_roundtrip : forall bs, b64_decode (b64_encode bs) = Some bs;
  b64_solid : forall bs, solid (b64_encode bs) = true;
  b64_empty : forall bs, b64_encode bs = EmptyString -> bs = [];
}.

Section service.
Context {J : Json} {HJ : JsonLaws J} {B : Base64} {HB : Base64Laws B} {E : Engine} (st : ProverAppState).

Local Abbreviation prefix := (ps_job_prefix st).
Local Abbreviation queue := (ps_queue_key st).
Local Abbreviation ttl := (ps_job_ttl_seconds st).
Local Abbreviation engine := (generate_decider_proof (ps_enable_withdraw_local st)).

(** ** The system: several workers share the queue *)

Inductive WorkerState :=
| WIdle
| WPopped (job : JobRequest)
| WProving (job : JobRequest) (proof_bytes : bytes)
| WDead.

Record Svc := mkSvc {
  sv_redis : Redis;
  sv_workers : list WorkerState;
  (** the requests answered with 202, in order *)
  sv_accepted : list JobRequest;
}.

(** The worker after a phase that returned [r]: errors are logged and the loop goes on,
    a panic ends the task. *)
Definition after {A} (r : result ProverError A) (next : A -> WorkerState) : WorkerState :=
  match r with
  | Ok a => next a
  | Err WorkerPanic => WDead
  | Err _ => WIdle
  end.

Inductive svc_step : Svc -> Svc -> Prop :=
| s_submit r ws acc q r' status resp :
    submit_job st q r = (r', Ok (status, resp)) ->
    svc_step (mkSvc r ws acc) (mkSvc r' ws (if status =? 202 then acc ++ [q] else acc))
| s_time r ws acc t :
    0 <= t -> svc_step (mkSvc r ws acc) (mkSvc (mkRedis (r_now r + t) (r_kv r) (r_lists r)) ws acc)
| s_pop r ws acc i r' res :
    ws !! i = Some WIdle -> wait_for_job queue r = Some (r', res) ->
    svc_step (mkSvc r ws acc) (mkSvc r' (<[i := after res WPopped]> ws) acc)
| s_start r ws acc i job r' res :
    ws !! i = Some (WPopped job) -> process_start prefix ttl job r = (r', res) ->
    svc_step (mkSvc r ws acc) (mkSvc r' (<[i := after res (WProving job)]> ws) acc)
| s_finish r ws acc i job bs r' res :
    ws !! i = Some (WProving job bs) ->
    process_finish (ps_enable_withdraw_local st) prefix ttl job bs r = (r', res) ->
    svc_step (mkSvc r ws acc) (mkSvc r' (<[i := after res (fun _ => WIdle)]> ws) acc)
| s_restart r ws acc i w :
    ws !! i = Some w -> svc_step (mkSvc r ws acc) (mkSvc r (<[i := WIdle]> ws) acc).

Inductive svc_reachable : Svc -> Prop :=
| sr_init now n : svc_reachable (mkSvc (mkRedis now ∅ ∅) (replicate n WIdle) [])
| sr_step s s' : svc_reachable s -> svc_step s s' -> svc_reachable s'.

(** ** The invariant *)

(** The engine's answer to a request, as a job record reports it. *)
Definition outcome (q : JobRequest) (res error : option string) (status : JobStatus) : Prop :=
  match status with
  | Queued | Processing => res = None /\ error = None
  | Completed => exists bs proof, decode_base64 (jr_ivc_proof q) = Ok bs /\ engine (jr_circuit q) bs = Ok proof
      /\ res = Some (b64_encode proof) /\ error = None
  | Failed => exists bs e m, decode_base64 (jr_ivc_proof q) = Ok bs /\ engine (jr_circuit q) bs = Err e
      /\ truncate_error (ProverError_to_string e) = Some m /\ res = None /\ error = Some m
  end.

Definition job_good (acc : list JobRequest) (js : JobState) : Prop :=
  exists q, q ∈ acc /\ jr_job_id q = js_job_id js /\ outcome q (js_result js) (js_error js) (js_status js).

Definition worker_good (acc : list JobRequest) (w : WorkerState) : Prop :=
  match w with
  | WIdle | WDead => True
  | WPopped job => job ∈ acc
  | WProving job bs => job ∈ acc /\ decode_base64 (jr_ivc_proof job) = Ok bs
  end.

Definition records_good (acc : list JobRequest) (r : Redis) : Prop :=
  forall id v e, r_kv r !! job_key prefix id = Some (v, e) ->
    exists js, v = state_to_string js /\ js_job_id js = id /\ job_good acc js.

Record svc_inv (s : Svc) : Prop := {
  si_records : records_good (sv_accepted s) (sv_redis s);
  si_queue : Forall (fun p => exists q, q ∈ sv_accepted s /\ p = request_to_string q) (redis_list queue (sv_redis s));
  si_workers : Forall (worker_good (sv_accepted s)) (sv_workers s);
  si_valid : Forall (fun q => validate_job_request q (ps_enable_withdraw_local st) = Ok tt) (sv_accepted s);
}.

Lemma job_key_inj a b : job_key prefix a = job_key prefix b -> a = b.
Proof. unfold job_key. intros H%string_app_inj_l. by apply string_app_inj_l in H. Qed.

Lemma job_good_mono acc acc' js : (forall q, q ∈ acc -> q ∈ acc') -> job_good acc js -> job_good acc' js.
Proof. intros Hs (q & Hq & ?). exists q. auto. Qed.
Lemma worker_good_mono acc acc' w : (forall q, q ∈ acc -> q ∈ acc') -> worker_good acc w -> worker_good acc' w.
Proof. intros Hs. destruct w; cbn; [done | apply Hs | intros [? ?]; auto | done]. Qed.

(** Reading a record that the invariant describes. *)
Lemma get_job_good acc r id :
  records_good acc r ->
  match redis_get (job_key prefix id) r with
  | None => get_job prefix id r = (r, Ok None)
  | Some v => exists js, v = state_to_string js /\ get_job prefix id r = (r, Ok (Some js)) /\ js_job_id js = id /\ job_good acc js
  end.
Proof.
  intros Hr. unfold get_job. rewrite (M_bind_run _ _ r r (redis_get (job_key prefix id) r)) by reflexivity.
  destruct (redis_get (job_key prefix id) r) as [v|] eqn:Eg; [|reflexivity].
  unfold redis_get in Eg. destruct (r_kv r !! job_key prefix id) as [[v' e]|] eqn:Ek; [|done].
  if_case_in Eg Ee; [|done]. injection Eg as ->. destruct (Hr _ _ _ Ek) as (js & -> & Hid & Hg).
  exists js. split_and!; try done. by rewrite state_roundtrip.
Qed.

(** Writing a good record keeps the invariant of the records. *)
Lemma records_good_set acc r js t :
  records_good acc r -> job_good acc js ->
  records_good acc (redis_set_ex (job_key prefix (js_job_id js)) (state_to_string js) t r).
Proof.
  intros Hr Hg id v e. cbn [redis_set_ex r_kv]. rewrite lookup_insert. case_decide as Ek; [|apply Hr].
  intros [= <- _]. exists js. split_and!; try done. by apply job_key_inj.
Qed.

(** [update_status] either fails on a missing record and changes nothing, or writes the record of the id. *)
Lemma update_status_cases acc r id status res error r' a :
  records_good acc r -> update_status prefix id status res error ttl r = (r', a) ->
  (a = Err (InvalidInput "job not found") /\ r' = r)
  \/ exists circuit, let js := mkJobState id circuit status res error in
       a = Ok js /\ r' = redis_set_ex (job_key prefix id) (state_to_string js) ttl r.
Proof.
  intros Hr H. unfold update_status in H. pose proof (get_job_good acc r id Hr) as Hg.
  destruct (redis_get (job_key prefix id) r) as [v|].
  - destruct Hg as (js & _ & Hg & Hid & _). rewrite (M_bind_run _ _ _ _ _ Hg) in H. cbn in H. injection H as <- <-.
    right. exists (js_circuit js). subst id. done.
  - rewrite (M_bind_run _ _ _ _ _ Hg) in H. cbn in H. injection H as <- <-. by left.
Qed.

Lemma update_status_good acc r q status res error r' a :
  records_good acc r -> q ∈ acc -> outcome q res error status ->
  update_status prefix (jr_job_id q) status res error ttl r = (r', a) -> records_good acc r' /\ r_lists r' = r_lists r.
Proof.
  intros Hr Hq Ho H. apply (update_status_cases acc) in H as [[_ ->]|(circuit & _ & ->)]; [done| |done].
  split; [|done]. apply (records_good_set acc r (mkJobState (jr_job_id q) circuit status res error) ttl Hr). exists q. done.
Qed.

Lemma process_start_good acc r q r' a :
  records_good acc r -> q ∈ acc -> process_start prefix ttl q r = (r', a) ->
  records_good acc r' /\ r_lists r' = r_lists r /\ forall bs, a = Ok bs -> decode_base64 (jr_ivc_proof q) = Ok bs.
Proof.
  intros Hr Hq H. unfold process_start in H. unfold mbind, M_bind in H.
  destruct (update_status _ _ _ _ _ _ r) as [r1 a1] eqn:Eu.
  eapply update_status_good in Eu; [|done..]. destruct Eu as [H1 H2]. destruct a1 as [js|e]; injection H as <- <-; [|done].
  split_and!; done.
Qed.

Lemma process_finish_good acc r q bs r' a :
  records_good acc r -> q ∈ acc -> decode_base64 (jr_ivc_proof q) = Ok bs ->
  process_finish (ps_enable_withdraw_local st) prefix ttl q bs r = (r', a) -> records_good acc r' /\ r_lists r' = r_lists r.
Proof.
  intros Hr Hq Hd H. unfold process_finish in H. destruct (engine (jr_circuit q) bs) as [proof|err] eqn:Eg.
  - unfold mbind, M_bind in H. destruct (update_status _ _ _ _ _ _ r) as [r1 a1] eqn:Eu.
    eapply update_status_good in Eu; [|done|done|by exists bs, proof]. by destruct a1; injection H as <- <-.
  - unfold lift at 1 in H. unfold mbind, M_bind in H. destruct (truncate_error _) as [m|] eqn:Et; cbn [ok_or] in H; [|by injection H as <- <-].
    destruct (update_status _ _ _ _ _ _ r) as [r1 a1] eqn:Eu.
    eapply update_status_good in Eu; [|done|done|by exists bs, err, m]. by destruct a1; injection H as <- <-.
Qed.

(** ** Submission *)

Definition queued_state (q : JobRequest) : JobState := mkJobState (jr_job_id q) (jr_circuit q) Queued None None.

Lemma parse_state_data js : parse_job_state (VData (state_to_string js)) = Ok js.
Proof. unfold parse_job_state, from_utf8. rewrite state_utf8. cbn. by rewrite state_roundtrip. Qed.

(** The effect of the script on a fresh id and on a known one. *)
Lemma enqueue_fresh q r :
  redis_get (job_key prefix (jr_job_id q)) r = None ->
  enqueue_job queue prefix q ttl r
  = (redis_rpush queue (request_to_string q) (redis_set_ex (job_key prefix (jr_job_id q)) (state_to_string (queued_state q)) ttl r),
     Ok (Enqueued (queued_state q))).
Proof.
  intros Hg. unfold enqueue_job, enqueue_job_atomically. cbn [js_job_id]. unfold enqueue_job_lua. rewrite Hg. f_equal.
  unfold parse_enqueue_response. cbn [parse_enqueue_flag mbind result_bind Z.eqb Pos.eqb]. fold (queued_state q). by rewrite parse_state_data.
Qed.

Lemma enqueue_known q r js :
  redis_get (job_key prefix (jr_job_id q)) r = Some (state_to_string js) -> 0 < ttl ->
  enqueue_job queue prefix q ttl r
  = (redis_set_ex (job_key prefix (jr_job_id q)) (state_to_string js) ttl r, Ok (AlreadyExists js)).
Proof.
  intros Hg Ht. unfold enqueue_job, enqueue_job_atomically. cbn [js_job_id]. unfold enqueue_job_lua, redis_expire. rewrite Hg.
  assert (redis_get (job_key prefix (jr_job_id q)) (redis_set_ex (job_key prefix (jr_job_id q)) (state_to_string js) ttl r)
          = Some (state_to_string js)) as ->.
  { unfold redis_get. cbn [redis_set_ex r_kv r_now]. rewrite lookup_insert_eq. by rewrite (proj2 (Z.ltb_lt _ _)) by lia. }
  f_equal. unfold parse_enqueue_response. cbn [parse_enqueue_flag mbind result_bind Z.eqb]. by rewrite parse_state_data.
Qed.

Hypothesis ttl_pos : 0 < ttl.

Lemma submit_cases acc q r r' status resp :
  records_good acc r -> submit_job st q r = (r', Ok (status, resp)) ->
  validate_job_request q (ps_enable_withdraw_local st) = Ok tt
  /\ ((status = 200 /\ exists js, job_good acc js /\ js_job_id js = jr_job_id q
         /\ resp = mkSubmitJobResponse (js_job_id js) (js_status js)
                     ("job " +:+ js_job_id js +:+ " already exists with status " +:+ JobStatus_to_string (js_status js))
         /\ r' = redis_set_ex (job_key prefix (jr_job_id q)) (state_to_string js) ttl r)
      \/ (status = 202 /\ redis_get (job_key prefix (jr_job_id q)) r = None
         /\ r' = redis_rpush queue (request_to_string q)
                  (redis_set_ex (job_key prefix (jr_job_id q)) (state_to_string (queued_state q)) ttl r))).
Proof.
  intros Hr H. unfold submit_job in H. destruct (validate_job_request _ _) as [[]|e]; [|done]. split; [done|].
  rewrite (M_bind_run _ _ r r tt) in H by reflexivity. pose proof (get_job_good acc r (jr_job_id q) Hr) as Hg.
  destruct (redis_get (job_key prefix (jr_job_id q)) r) as [v|] eqn:Eg.
  - destruct Hg as (js & -> & _ & Hid & Hgood).
    erewrite M_bind_run in H by (unfold map_err_M; rewrite (enqueue_known q r js Eg ttl_pos); reflexivity).
    injection H as <- <- <-. left. split; [done|]. by exists js.
  - erewrite M_bind_run in H by (unfold map_err_M; rewrite (enqueue_fresh q r Eg); reflexivity).
    injection H as <- <- _. by right.
Qed.

Lemma svc_step_inv s s' : svc_inv s -> svc_step s s' -> svc_inv s'.
Proof.
  intros [Hr Hq Hw Hv] Hs. destruct Hs as [r ws acc q r' status resp Hsub | r ws acc t Ht | r ws acc i r' res Hi Hp
    | r ws acc i job r' res Hi Hp | r ws acc i job bs r' res Hi Hp | r ws acc i w Hi]; cbn [sv_redis sv_workers sv_accepted] in *.
  - apply (submit_cases acc) in Hsub as [Hval [(-> & js & Hg & Hid & _ & ->)|(-> & _ & ->)]]; [| |done].
    + cbn [Z.eqb Pos.eqb]. split; cbn [sv_redis sv_workers sv_accepted]; try done. rewrite <- Hid. by apply records_good_set.
    + cbn [Z.eqb Pos.eqb].
      assert (forall x, x ∈ acc -> x ∈ acc ++ [q]) as Hsub by (intros x Hx; apply elem_of_app; by left).
      assert (q ∈ acc ++ [q]) as Hlast by (apply elem_of_app; right; by left).
      split; cbn [sv_redis sv_workers sv_accepted].
      * change (records_good (acc ++ [q]) (redis_set_ex (job_key prefix (js_job_id (queued_state q))) (state_to_string (queued_state q)) ttl r)).
        apply records_good_set; [|by exists q].
        intros id v e He. destruct (Hr id v e He) as (js & ? & ? & Hg). exists js. split_and!; try done. by eapply job_good_mono.
      * unfold redis_list, redis_rpush. cbn [r_lists redis_set_ex]. rewrite lookup_insert_eq. cbn [default]. apply Forall_app. split.
        -- eapply Forall_impl; [exact Hq|]. intros p (x & Hx & ->). eauto.
        -- constructor; [by exists q|constructor].
      * eapply Forall_impl; [exact Hw|]. intros w. by apply worker_good_mono.
      * apply Forall_app. by split; [|constructor].
  - by split.
  - unfold wait_for_job, blpop in Hp. destruct (redis_list queue r) as [|p rest] eqn:El; [done|]. cbn in Hp. injection Hp as <- <-.
    inversion_clear Hq as [|?? (q & Hin & ->) Hrest]. split; cbn [sv_redis sv_workers sv_accepted]; [done| | |done].
    + unfold redis_list. cbn [r_lists]. by rewrite lookup_insert_eq.
    + apply Forall_insert; [done|]. rewrite request_roundtrip. cbn. exact Hin.
  - assert (worker_good acc (WPopped job)) as Hin by (rewrite Forall_lookup in Hw; by eapply Hw). cbn in Hin.
    apply (process_start_good acc) in Hp as (H1 & H2 & H3); [|done..]. split; cbn [sv_redis sv_workers sv_accepted]; [done| | |done].
    + unfold redis_list in *. by rewrite H2.
    + apply Forall_insert; [done|]. destruct res as [bs|[]]; cbn; try done. split; [done|]. by apply H3.
  - assert (worker_good acc (WProving job bs)) as [Hin Hd] by (rewrite Forall_lookup in Hw; by eapply Hw).
    apply (process_finish_good acc) in Hp as (H1 & H2); [|done..]. split; cbn [sv_redis sv_workers sv_accepted]; [done| | |done].
    + unfold redis_list in *. by rewrite H2.
    + apply Forall_insert; [done|]. by destruct res as [[]|[]].
  - split; cbn [sv_redis sv_workers sv_accepted]; try done. by apply Forall_insert.
Qed.

Lemma svc_reachable_inv s : svc_reachable s -> svc_inv s.
Proof.
  induction 1 as [now n|s s' _ IH Hs]; [|by eapply svc_step_inv]. split; cbn [sv_redis sv_workers sv_accepted].
  - intros id v e He. cbn [r_kv] in He. by rewrite lookup_empty in He.
  - unfold redis_list. cbn [r_lists]. rewrite lookup_empty. constructor.
  - by apply Forall_replicate.
  - constructor.
Qed.

(** What a status request returns. *)
Lemma status_good acc r id :
  records_good acc r ->
  (get_job_status st id r = (r, Err (NotFound "job not found")) /\ redis_get (job_key prefix id) r = None)
  \/ exists js, get_job_status st id r = (r, Ok js) /\ js_job_id js = id /\ job_good acc js.
Proof.
  intros Hr. pose proof (get_job_good acc r id Hr) as Hg. unfold get_job_status.
  destruct (redis_get (job_key prefix id) r) as [v|].
  - destruct Hg as (js & _ & Hg & Hid & Hgood). right. exists js. split_and!; try done.
    by erewrite M_bind_run by (unfold map_err_M; rewrite Hg; reflexivity).
  - left. split; [|done]. by erewrite M_bind_run by (unfold map_err_M; rewrite Hg; reflexivity).
Qed.

Lemma decode_encoded bs : bs <> [] -> decode_base64 (b64_encode bs) = Ok bs.
Proof.
  intros Hne. unfold decode_base64. rewrite trim_solid by apply b64_solid.
  rewrite bool_decide_eq_false_2 by (intros He; by apply b64_empty in He). by rewrite b64_roundtrip.
Qed.

Lemma decode_payload proof :
  decode_base64_payload (b64_encode proof) = Ok proof \/ (proof = [] /\ b64_encode proof = EmptyString).
Proof.
  unfold decode_base64_payload. rewrite trim_solid by apply b64_solid. case_bool_decide as Eb.
  - right. split; [by apply b64_empty|done].
  - left. by rewrite b64_roundtrip.
Qed.


(** ** A submitted job is processed *)

Lemma redis_get_set k v t r : 0 < t -> redis_get k (redis_set_ex k v t r) = Some v.
Proof. intros Ht. unfold redis_get. cbn [redis_set_ex r_kv r_now]. rewrite lookup_insert_eq. by rewrite (proj2 (Z.ltb_lt _ _)) by lia. Qed.

Lemma blpop_pushed r p :
  redis_list queue r = [] ->
  blpop queue (redis_rpush queue p r) = Some (mkRedis (r_now r) (r_kv r) (<[queue := []]> (<[queue := [p]]> (r_lists r))), p).
Proof.
  intros Hq. unfold redis_rpush. rewrite Hq. unfold blpop. cbn [app].
  assert (redis_list queue (mkRedis (r_now r) (r_kv r) (<[queue := [p]]> (r_lists r))) = [p]) as ->
    by (unfold redis_list; cbn [r_lists]; by rewrite lookup_insert_eq).
  reflexivity.
Qed.

Lemma get_job_run r id js :
  redis_get (job_key prefix id) r = Some (state_to_string js) -> get_job prefix id r = (r, Ok (Some js)).
Proof.
  intros Hg. unfold get_job. rewrite (M_bind_run _ _ r r (Some (state_to_string js))) by (unfold gets; by rewrite Hg).
  by rewrite state_roundtrip.
Qed.

Lemma update_status_run r js status res error :
  redis_get (job_key prefix (js_job_id js)) r = Some (state_to_string js) ->
  let js' := mkJobState (js_job_id js) (js_circuit js) status res error in
  update_status prefix (js_job_id js) status res error ttl r
  = (redis_set_ex (job_key prefix (js_job_id js)) (state_to_string js') ttl r, Ok js').
Proof.
  intros Hg js'. unfold update_status. by rewrite (M_bind_run _ _ _ _ _ (get_job_run r _ js Hg)).
Qed.

Lemma status_run r id js :
  redis_get (job_key prefix id) r = Some (state_to_string js) -> get_job_status st id r = (r, Ok js).
Proof.
  intros Hg. unfold get_job_status. by erewrite M_bind_run by (unfold map_err_M; rewrite (get_job_run r id js Hg); reflexivity).
Qed.

Lemma submit_fresh q r :
  validate_job_request q (ps_enable_withdraw_local st) = Ok tt -> redis_get (job_key prefix (jr_job_id q)) r = None ->
  submit_job st q r
  = (redis_rpush queue (request_to_string q) (redis_set_ex (job_key prefix (jr_job_id q)) (state_to_string (queued_state q)) ttl r),
     Ok (202, mkSubmitJobResponse (jr_job_id q) Queued "job queued")).
Proof.
  intros Hv Hg. unfold submit_job. rewrite Hv, (M_bind_run _ _ r r tt) by reflexivity.
  erewrite M_bind_run by (unfold map_err_M; rewrite (enqueue_fresh q r Hg); reflexivity). reflexivity.
Qed.

Lemma submit_known q r js :
  validate_job_request q (ps_enable_withdraw_local st) = Ok tt ->
  redis_get (job_key prefix (jr_job_id q)) r = Some (state_to_string js) ->
  exists msg, submit_job st q r
    = (redis_set_ex (job_key prefix (jr_job_id q)) (state_to_string js) ttl r, Ok (200, mkSubmitJobResponse (js_job_id js) (js_status js) msg)).
Proof.
  intros Hv Hg. eexists. unfold submit_job. rewrite Hv, (M_bind_run _ _ r r tt) by reflexivity.
  erewrite M_bind_run by (unfold map_err_M; rewrite (enqueue_known q r js Hg ttl_pos); reflexivity). reflexivity.
Qed.

Lemma valid_decodes q : validate_job_request q (ps_enable_withdraw_local st) = Ok tt -> exists bs, decode_base64 (jr_ivc_proof q) = Ok bs.
Proof.
  unfold validate_job_request, ensure_base64_payload, decode_base64. intros H. if_case_in H Eb; [done|].
  apply result_bind_ok in H as (_ & _ & H). case_bool_decide; [done|]. apply result_bind_ok in H as (bs & Hb & _).
  destruct (b64_decode _); [|done]. by eexists.
Qed.

(** C32: A valid submission is processed to its result: on an idle service a new job is accepted with 202, the
    next [process_once] returns, and afterwards the status is [completed] with the engine's
    proof, or [failed] with its message, or, only when cutting the message at byte 512 would split a
    character, the worker panics and the job stays [processing]; submitting any request under the same id again
    is answered 200 with that status and queues nothing. *)
Theorem submitted_job_completes q r :
  validate_job_request q (ps_enable_withdraw_local st) = Ok tt ->
  redis_get (job_key prefix (jr_job_id q)) r = None -> redis_list queue r = [] ->
  exists bs r1 r2 out js, decode_base64 (jr_ivc_proof q) = Ok bs
    /\ submit_job st q r = (r1, Ok (202, mkSubmitJobResponse (jr_job_id q) Queued "job queued"))
    /\ process_once (ps_enable_withdraw_local st) queue prefix ttl r1 = Some (r2, out)
    /\ get_job_status st (jr_job_id q) r2 = (r2, Ok js) /\ js_job_id js = jr_job_id q /\ js_circuit js = jr_circuit q
    /\ match engine (jr_circuit q) bs with
       | Ok proof => out = Ok tt /\ js_status js = Completed /\ js_result js = Some (b64_encode proof) /\ js_error js = None
       | Err e =>
         match truncate_error (ProverError_to_string e) with
         | Some m => out = Ok tt /\ js_status js = Failed /\ js_result js = None /\ js_error js = Some m
         | None => out = Err WorkerPanic /\ js_status js = Processing
         end
       end
    /\ forall q', jr_job_id q' = jr_job_id q -> validate_job_request q' (ps_enable_withdraw_local st) = Ok tt ->
         exists r3 msg, submit_job st q' r2 = (r3, Ok (200, mkSubmitJobResponse (jr_job_id q) (js_status js) msg))
           /\ redis_list queue r3 = [].
Proof.
  intros Hv Hg Hq. destruct (valid_decodes q Hv) as [bs Hd]. set (id := jr_job_id q) in *. set (key := job_key prefix id) in *.
  set (r0 := redis_set_ex key (state_to_string (queued_state q)) ttl r).
  set (rp := mkRedis (r_now r) (r_kv r0) (<[queue := []]> (<[queue := [request_to_string q]]> (r_lists r)))).
  assert (wait_for_job queue (redis_rpush queue (request_to_string q) r0) = Some (rp, Ok q)) as Hpop.
  { unfold wait_for_job. by rewrite (blpop_pushed r0) by exact Hq; cbn; rewrite request_roundtrip. }
  pose (state := fun status res error => mkJobState id (jr_circuit q) status res error).
  set (r1 := redis_set_ex key (state_to_string (state Processing None None)) ttl rp).
  assert (process_start prefix ttl q rp = (r1, Ok bs)) as Hstart.
  { unfold process_start. erewrite M_bind_run; [|apply (update_status_run rp (queued_state q)); by apply (redis_get_set key _ ttl r)].
    by apply lift_run. }
  assert (forall status res error, update_status prefix id status res error ttl r1
    = (redis_set_ex key (state_to_string (state status res error)) ttl r1, Ok (state status res error))) as Hup.
  { intros. apply (update_status_run r1 (state Processing None None)). by apply redis_get_set. }
  assert (forall js rk, js_job_id js = id -> redis_get key rk = Some (state_to_string js) -> redis_list queue rk = [] ->
    forall q', jr_job_id q' = id -> validate_job_request q' (ps_enable_withdraw_local st) = Ok tt ->
      exists r3 msg, submit_job st q' rk = (r3, Ok (200, mkSubmitJobResponse id (js_status js) msg)) /\ redis_list queue r3 = []) as Hagain.
  { intros js rk Hjs Hgk Hlk q' Hid Hv'. destruct (submit_known q' rk js Hv') as [msg Hsub]; [by rewrite Hid|].
    rewrite Hjs in Hsub. eexists _, msg. split; [exact Hsub|exact Hlk]. }
  assert (redis_list queue rp = []) as Hrp by (unfold redis_list, rp; cbn [r_lists]; by rewrite lookup_insert_eq).
  set (tail := process_finish (ps_enable_withdraw_local st) prefix ttl q bs r1).
  assert (process_once (ps_enable_withdraw_local st) queue prefix ttl (redis_rpush queue (request_to_string q) r0) = Some tail) as Honce.
  { unfold process_once. rewrite Hpop. cbn [mbind option_bind]. f_equal. rewrite (M_bind_run _ _ rp rp q) by reflexivity.
    by rewrite (M_bind_run _ _ _ _ _ Hstart). }
  unfold process_finish in tail. fold id in tail. destruct (engine (jr_circuit q) bs) as [proof|e] eqn:Eg.
  - exists bs, (redis_rpush queue (request_to_string q) r0). eexists _, (Ok tt), (state Completed (Some (b64_encode proof)) None).
    split_and!; [exact Hd | by apply submit_fresh | rewrite Honce; unfold tail; by rewrite (M_bind_run _ _ _ _ _ (Hup _ _ _))
      | apply status_run; by apply redis_get_set | done | done | by rewrite Eg |].
    eapply Hagain; [done | by apply redis_get_set | exact Hrp].
  - destruct (truncate_error (ProverError_to_string e)) as [m|] eqn:Et.
    + exists bs, (redis_rpush queue (request_to_string q) r0). eexists _, (Ok tt), (state Failed None (Some m)).
      split_and!; [exact Hd | by apply submit_fresh
        | rewrite Honce; unfold tail; rewrite (M_bind_run _ _ r1 r1 m) by reflexivity; by rewrite (M_bind_run _ _ _ _ _ (Hup _ _ _))
        | apply status_run; by apply redis_get_set | done | done | by rewrite Eg, Et |].
      eapply Hagain; [done | by apply redis_get_set | exact Hrp].
    + exists bs, (redis_rpush queue (request_to_string q) r0), r1, (Err WorkerPanic), (state Processing None None).
      split_and!; [exact Hd | by apply submit_fresh | rewrite Honce; reflexivity | apply status_run; by apply redis_get_set | done | done
        | by rewrite Eg, Et |].
      apply Hagain; [done | by apply redis_get_set | exact Hrp].
Qed.
End service.

(** ** Messages and names *)

Lemma length_substring n s : (n <= String.length s)%nat -> String.length (String.substring 0 n s) = n.
Proof. revert s. induction n as [|n IH]; intros [|a s] Hn; cbn in *; [done..|lia|]. f_equal. apply IH. lia. Qed.

Lemma length_string_app (s t : string) : String.length (s +:+ t) = (String.length s + String.length t)%nat.
Proof. induction s as [|a s IH]; [done|]. cbn [String.append String.length]. cbn [Nat.add]. by rewrite <- IH. Qed.

(** [truncate_error] keeps short messages, cuts long ones to 512 bytes and three dots, and panics exactly when byte 512 is the
    middle of a character, which is possible for a well-formed message: the panic ends the worker's task. *)
Theorem truncate_error_behaviour :
  (forall m, (String.length m <= 512)%nat -> truncate_error m = Some m)
  /\ (forall m a, (512 < String.length m)%nat -> String.get 512 m = Some a ->
        match truncate_error m with
        | Some t => is_continuation a = false /\ String.length t = 515%nat
        | None => is_continuation a = true
        end)
  /\ exists m, utf8_valid m = true /\ truncate_error m = None.
Proof.
  split_and!.
  - intros m Hm. unfold truncate_error. by rewrite (proj2 (Nat.leb_le _ _)).
  - intros m a Hm Ha. unfold truncate_error, MAX_ERROR_LEN. rewrite (proj2 (Nat.leb_gt _ _)) by done.
    unfold slice_to, is_char_boundary. rewrite Ha. destruct (is_continuation a); [done|]. cbn [negb fmap option_fmap option_map].
    split; [done|]. rewrite length_string_app, length_substring by lia. reflexivity.
  - exists (String.concat "" (replicate 511 "a") +:+ String (Ascii.ascii_of_nat 195) (String (Ascii.ascii_of_nat 169) EmptyString))%string.
    split; by vm_compute.
Qed.

Lemma wire_names_roundtrip :
  (forall c, CircuitKind_from_str (CircuitKind_to_string c) = Ok c)
  /\ (forall v c, CircuitKind_from_str v = Ok c -> CircuitKind_to_string c = v)
  /\ (forall s, JobStatus_from_str (JobStatus_to_string s) = Ok s)
  /\ (forall v s, JobStatus_from_str v = Ok s -> JobStatus_to_string s = v).
Proof.
  split_and!.
  - by intros [].
  - intros v c. unfold CircuitKind_from_str. repeat case_bool_decide; by try intros [= <-].
  - by intros [].
  - intros v s. unfold JobStatus_from_str. repeat case_bool_decide; by try intros [= <-].
Qed.

(** ** Witnesses

    A codec through the binary digits of a countable encoding stands for JSON and Base64. *)

Section witnesses.
Fixpoint digits (p : positive) : string :=
  match p with
  | xH => String "1"%char EmptyString
  | xO p' => String "0"%char (digits p')
  | xI p' => String "1"%char (digits p')
  end.
Fixpoint of_digits (s : string) : option positive :=
  match s with
  | EmptyString => None
  | String a EmptyString => if bool_decide (a = "1"%char) then Some xH else None
  | String a s' => (if bool_decide (a = "1"%char) then xI else xO) <$> of_digits s'
  end.

Lemma of_digits_digits p : of_digits (digits p) = Some p.
Proof. induction p as [p IH|p IH|]; [| |done]; cbn [digits of_digits]; destruct (digits p) eqn:E; try done; by rewrite IH. Qed.
Lemma digits_utf8 p : utf8_valid (digits p) = true.
Proof. by induction p. Qed.
Lemma digits_solid p : solid (digits p) = true.
Proof. by induction p. Qed.

Definition circuit_code (c : CircuitKind) : Z := match c with Root => 0 | WithdrawLocal => 1 | WithdrawGlobal => 2 end.
Definition code_circuit (z : Z) : CircuitKind := if z =? 0 then Root else if z =? 1 then WithdrawLocal else WithdrawGlobal.
Definition status_code (s : JobStatus) : Z := match s with Queued => 0 | Processing => 1 | Completed => 2 | Failed => 3 end.
Definition code_status (z : Z) : JobStatus :=
  if z =? 0 then Queued else if z =? 1 then Processing else if z =? 2 then Completed else Failed.

Definition toy_json : Json := {|
  state_to_string s := digits (encode (js_job_id s, circuit_code (js_circuit s), status_code (js_status s), js_result s, js_error s));
  state_from_str v := p ← of_digits v; '(id, c, t, res, err) ← decode p; Some (mkJobState id (code_circuit c) (code_status t) res err);
  request_to_string q := digits (encode (jr_job_id q, circuit_code (jr_circuit q), jr_ivc_proof q));
  request_from_str v := p ← of_digits v; '(id, c, proof) ← decode p; Some (mkJobRequest id (code_circuit c) proof);
|}.
Definition toy_base64 : Base64 := {|
  b64_encode bs := digits (encode bs);
  b64_decode v := p ← of_digits v; decode p;
|}.
Definition toy_engine : Engine := {|
  IVCProof := bytes;
  ivc_deserialize bs := Ok bs;
  ivc_verify _ _ := Ok tt;
  ivc_decide _ bs := Ok (bs ++ [1]);
|}.
#[local] Existing Instance toy_json.
#[local] Existing Instance toy_base64.
#[local] Existing Instance toy_engine.

Lemma toy_json_laws : JsonLaws toy_json.
Proof.
  split; cbn.
  - intros [id [] [] res err]; rewrite of_digits_digits; cbn [mbind option_bind]; by rewrite decode_encode.
  - intros [id [] proof]; rewrite of_digits_digits; cbn [mbind option_bind]; by rewrite decode_encode.
  - intros s. apply digits_utf8.
Qed.
Lemma toy_base64_laws : Base64Laws toy_base64.
Proof.
  split; cbn.
  - intros bs. rewrite of_digits_digits. cbn [mbind option_bind]. by rewrite decode_encode.
  - intros bs. apply digits_solid.
  - intros bs H. by destruct (encode bs).
Qed.
#[local] Existing Instance toy_json_laws.
#[local] Existing Instance toy_base64_laws.

Definition toy_prover : ProverAppState := mkProverAppState default_queue_key default_job_key_prefix default_job_ttl_seconds false.
Definition toy_request : JobRequest := mkJobRequest "id" Root (b64_encode [7]).

Lemma toy_accepted :
  svc_reachable toy_prover
    (mkSvc (submit_job toy_prover toy_request (mkRedis 0 ∅ ∅)).1 [WIdle] [toy_request]).
Proof.
  eapply sr_step; [apply (sr_init toy_prover 0 1)|].
  eapply (s_submit toy_prover (mkRedis 0 ∅ ∅) [WIdle] [] toy_request _ 202).
  rewrite (submit_fresh toy_prover toy_request (mkRedis 0 ∅ ∅)); [reflexivity | by vm_compute | reflexivity].
Qed.


Lemma submitted_job_completes_witness :
  exists bs r1 r2 out js, decode_base64 (jr_ivc_proof toy_request) = Ok bs
    /\ submit_job toy_prover toy_request (mkRedis 0 ∅ ∅) = (r1, Ok (202, mkSubmitJobResponse "id" Queued "job queued"))
    /\ process_once false default_queue_key default_job_key_prefix default_job_ttl_seconds r1 = Some (r2, out)
    /\ get_job_status toy_prover "id" r2 = (r2, Ok js).
Proof.
  destruct (submitted_job_completes toy_prover ltac:(reflexivity) toy_request (mkRedis 0 ∅ ∅))
    as (bs & r1 & r2 & out & js & H1 & H2 & H3 & H4 & _); [by vm_compute | reflexivity | reflexivity|].
  exists bs, r1, r2, out, js. exact (conj H1 (conj H2 (conj H3 H4))).
Defined.
End witnesses.
