(* ===== verification/Storage.v ===== *)
(** The stealth-announcement storage of [zstorage]: the storage canister
    ([backend/storage/src/lib.rs]), the key manager canister
    ([backend/key_manager/src]), and the client library that encrypts, decrypts and
    signs ([frontend/src]).

    A canister is its state; an update call is a computation over that state whose
    effects persist also when it returns [Err], as the Internet Computer commits the
    state of every call that does not trap.  ECDSA recovery, [alloy]'s EIP-191
    prefix, [hex], vetKD, IBE and AES-GCM are external: the classes below name what
    the code calls of them and the laws the theorems rely on. *)

From stdpp Require Import pretty.
From Stdlib Require Import Ascii.
From S2P Require Import Prelude Words Crypto Database.
Local Open Scope Z_scope.

(** ** External code *)

(** Signatures of [alloy_primitives] and [k256], and textual encodings. *)
Class SignatureLib := {
  EcdsaSignature : Type;
  (** [Signature::from_raw], with the text of its error. *)
  Signature_from_raw : bytes -> result string EcdsaSignature;
  Signature_from_erc2098 : bytes -> EcdsaSignature;
  recover_address_from_prehash : EcdsaSignature -> bytes -> result string bytes;
  SigningKey : Type;
  (** [SigningKey::from_bytes], and [PrivateKeySigner::from_bytes(..).address()]. *)
  SigningKey_from_bytes : bytes -> option SigningKey;
  signer_address : bytes -> option Z;
  (** [verifying_key().to_encoded_point(false)]: 0x04 and the two coordinates. *)
  uncompressed_public_key : SigningKey -> bytes;
  (** [sign_prehash_recoverable]: 64 bytes and the recovery id. *)
  sign_prehash_recoverable : SigningKey -> bytes -> result string (bytes * Z);
  eip191_message : string -> bytes;
  hex_encode : bytes -> string;
  hex_decode : string -> option bytes;
  (** [Principal::to_text]. *)
  principal_to_text : bytes -> string;
  (** [Address::to_string], with the EIP-55 checksum. *)
  Address_to_string : Z -> string;
}.

(** No line break: what makes a field of a signed text end at its line. *)
Fixpoint one_line (s : string) : bool :=
  match s with
  | EmptyString => true
  | String a s' => negb (bool_decide (nat_of_ascii a = 10%nat)) && one_line s'
  end.

(** A string of the digits 0-9 and a-f. *)
Definition is_hex_digit (a : ascii) : bool :=
  let n := nat_of_ascii a in ((48 <=? n) && (n <=? 57) || (97 <=? n) && (n <=? 102))%nat.
Fixpoint hex_digits (s : string) : bool :=
  match s with
  | EmptyString => true
  | String a s' => is_hex_digit a && hex_digits s'
  end.

Class SignatureLaws (C : Crypto) (L : SignatureLib) : Prop := {
  (** A signature made with a key recovers, in the form r||s||v with v in {27, 28}, to the key's address. *)
  recover_signed : forall sk digest sig v, length digest = 32%nat ->
    sign_prehash_recoverable sk digest = Ok (sig, v) ->
    length sig = 64%nat /\ 0 <= v <= 1
    /\ exists s, Signature_from_raw (sig ++ [v + 27]) = Ok s
       /\ recover_address_from_prehash s digest
          = Ok (drop 12 (keccak256 (drop 1 (uncompressed_public_key sk))));
  signer_address_spec : forall bs sk, SigningKey_from_bytes bs = Some sk ->
    signer_address bs = Some (be_val (drop 12 (keccak256 (drop 1 (uncompressed_public_key sk)))));
  recover_length : forall s h a, recover_address_from_prehash s h = Ok a -> length a = 20%nat /\ Forall in_u8 a;
  from_raw_length : forall bs s, Signature_from_raw bs = Ok s -> length bs = 65%nat;
  eip191_inj : forall s t, eip191_message s = eip191_message t -> s = t;
  hex_encode_digits : forall bs, hex_digits (hex_encode bs) = true;
  hex_decode_encode : forall bs, Forall in_u8 bs -> hex_decode (hex_encode bs) = Some bs;
  principal_line : forall p, one_line (principal_to_text p) = true;
  principal_text_inj : forall p q, Forall in_u8 p -> Forall in_u8 q -> principal_to_text p = principal_to_text q -> p = q;
}.

(** [ic_vetkeys], the vetKD interface of the management canister, and AES-256-GCM. *)
Class VetKeysLib := {
  VetKey : Type;
  DerivedPublicKey : Type;
  IbeCiphertext : Type;
  TransportSecretKey : Type;
  EncryptedVetKey : Type;
  DerivedPublicKey_deserialize : bytes -> option DerivedPublicKey;
  (** [IbeCiphertext::encrypt(key, identity, message, seed).serialize()]. *)
  ibe_encrypt_serialize : DerivedPublicKey -> bytes -> bytes -> bytes -> bytes;
  IbeCiphertext_deserialize : bytes -> option IbeCiphertext;
  ibe_decrypt : IbeCiphertext -> VetKey -> option bytes;
  (** [Aes256Gcm::new_from_slice(key)] followed by [encrypt] or [decrypt]. *)
  aes_encrypt : bytes -> bytes -> bytes -> option bytes;
  aes_decrypt : bytes -> bytes -> bytes -> option bytes;
  TransportSecretKey_from_seed : bytes -> TransportSecretKey;
  transport_public_key_of : TransportSecretKey -> bytes;
  EncryptedVetKey_deserialize : bytes -> result string EncryptedVetKey;
  decrypt_and_verify : EncryptedVetKey -> TransportSecretKey -> DerivedPublicKey -> bytes -> result string VetKey;
  (** [vetkd_public_key] and [vetkd_derive_key]: context, input, key name, transport key. *)
  vetkd_public_key : bytes -> string -> result string bytes;
  vetkd_derive_key : bytes -> bytes -> string -> bytes -> result string bytes;
  (** [MasterPublicKey::for_mainnet_key], [derive_canister_key], [derive_sub_key], [serialize]. *)
  MasterPublicKey : Type;
  master_key_for : string -> option MasterPublicKey;
  derive_canister_key : MasterPublicKey -> bytes -> MasterPublicKey;
  derive_sub_key : MasterPublicKey -> bytes -> bytes;
}.

(** What the protocol promises for the key name [name]: the key the subnet derives for a context
    opens what was encrypted to the public key of the same context, and is delivered intact to
    the transport key it was requested for. *)
Class VetKeysLaws (V : VetKeysLib) (name : string) : Prop := {
  vetkd_available : forall ctx, exists pk dpk,
    vetkd_public_key ctx name = Ok pk /\ DerivedPublicKey_deserialize pk = Some dpk;
  vetkd_delivers : forall ctx pk dpk seed, vetkd_public_key ctx name = Ok pk ->
    DerivedPublicKey_deserialize pk = Some dpk ->
    exists enc evk vk,
      vetkd_derive_key ctx [] name (transport_public_key_of (TransportSecretKey_from_seed seed)) = Ok enc
      /\ EncryptedVetKey_deserialize enc = Ok evk
      /\ decrypt_and_verify evk (TransportSecretKey_from_seed seed) dpk [] = Ok vk;
  ibe_correct : forall pk ctx dpk enc evk tsk vk msg seed,
    vetkd_public_key ctx name = Ok pk -> DerivedPublicKey_deserialize pk = Some dpk ->
    EncryptedVetKey_deserialize enc = Ok evk -> decrypt_and_verify evk tsk dpk [] = Ok vk ->
    exists c, IbeCiphertext_deserialize (ibe_encrypt_serialize dpk [] msg seed) = Some c
      /\ ibe_decrypt c vk = Some msg;
  (** The serialization of an encrypted 32-byte message: header, a G2 point, two 32-byte blocks. *)
  ibe_length : forall dpk msg seed, length msg = 32%nat ->
    (1 <= length (ibe_encrypt_serialize dpk [] msg seed) <= 512)%nat;
  aes_correct : forall key nonce p, length key = 32%nat -> length nonce = 12%nat ->
    exists c, aes_encrypt key nonce p = Some c /\ length c = (length p + 16)%nat /\ aes_decrypt key nonce c = Some p;
}.

(** ** The storage canister *)

Definition MAX_CIPHERTEXT_BYTES : Z := 16 * 1024.
Definition MAX_IBE_CIPHERTEXT_BYTES : Z := 512.
Definition DEFAULT_LIST_LIMIT : Z := 50.
Definition MAX_LIST_LIMIT : Z := 200.

Record AnnouncementInput := mkAnnouncementInput {
  ai_ibe_ciphertext : bytes;
  ai_ciphertext : bytes;
  ai_nonce : bytes;
}.

Record Announcement := mkAnnouncement {
  an_id : Z;
  an_ibe_ciphertext : bytes;
  an_ciphertext : bytes;
  an_nonce : bytes;
  an_created_at_ns : Z;
}.

Record AnnouncementPage := mkAnnouncementPage {
  announcements : list Announcement;
  page_next_id : option Z;
}.

Record InvoiceSubmission := mkInvoiceSubmission {
  is_invoice_id : bytes;
  is_signature : bytes;
}.

Record StorageState := mkStorageState {
  st_announcements : list Announcement;
  st_next_id : Z;
  st_invoices : gmap bytes (list bytes);
}.

Definition storage_init : StorageState := mkStorageState [] 0 ∅.

(** [pre_upgrade] writes the state to stable memory, [post_upgrade] reads it back into a fresh cell. *)
Definition storage_pre_upgrade (s : StorageState) (stable : option StorageState) : option StorageState := Some s.
Definition storage_post_upgrade (stable : option StorageState) : option StorageState := stable.

Definition validate_announcement (input : AnnouncementInput) : result string unit :=
  if (length (ai_ibe_ciphertext input) =? 0)%nat || (MAX_IBE_CIPHERTEXT_BYTES <? Z.of_nat (length (ai_ibe_ciphertext input)))
  then Err "ibe_ciphertext size is invalid"
  else if (length (ai_ciphertext input) =? 0)%nat || (MAX_CIPHERTEXT_BYTES <? Z.of_nat (length (ai_ciphertext input)))
  then Err "ciphertext size is invalid"
  else if negb (length (ai_nonce input) =? 12)%nat then Err "nonce must be 12 bytes (AES-GCM)"
  else Ok tt.

Definition submit_announcement (time : Z) (input : AnnouncementInput) : M StorageState string Announcement :=
  lift (validate_announcement input) ≫= fun _ =>
  get ≫= fun state =>
  let announcement := mkAnnouncement (st_next_id state) (ai_ibe_ciphertext input) (ai_ciphertext input) (ai_nonce input) time in
  modify (fun state => mkStorageState (st_announcements state ++ [announcement]) (u64_add (st_next_id state) 1) (st_invoices state)) ≫= fun _ =>
  mret announcement.

(** The loop of [list_announcements]; [collected] is the vector so far. *)
Fixpoint collect_page (start_after : option Z) (limit : nat) (collected : list Announcement) (items : list Announcement)
  : list Announcement * option Z :=
  match items with
  | [] => (collected, None)
  | announcement :: rest =>
    if match start_after with Some start => an_id announcement <=? start | None => false end
    then collect_page start_after limit collected rest
    else if (length collected <? limit)%nat then collect_page start_after limit (collected ++ [announcement]) rest
    else (collected, Some (an_id announcement))
  end.

(** [items.sort_by_key(|a| a.id)], a stable sort. *)
Fixpoint insert_by_id (a : Announcement) (l : list Announcement) : list Announcement :=
  match l with
  | [] => [a]
  | b :: l' => if an_id a <=? an_id b then a :: l else b :: insert_by_id a l'
  end.
Definition sort_by_id (l : list Announcement) : list Announcement := foldr insert_by_id [] l.

Definition list_announcements (start_after : option Z) (limit : option Z) (state : StorageState) : AnnouncementPage :=
  let limit := Z.to_nat (Z.min (default DEFAULT_LIST_LIMIT limit) MAX_LIST_LIMIT) in
  let '(items, next_marker) := collect_page start_after limit [] (st_announcements state) in
  mkAnnouncementPage (sort_by_id items) next_marker.

Definition get_announcement (id : Z) (state : StorageState) : option Announcement :=
  List.find (fun a => an_id a =? id) (st_announcements state).

Definition normalize_invoice_id (invoice_id : bytes) : result string bytes :=
  if negb (length invoice_id =? 32)%nat then Err "invoice_id must be exactly 32 bytes" else Ok invoice_id.

Definition normalize_address (address : bytes) : result string bytes :=
  if negb (length address =? 20)%nat then Err "address must be exactly 20 bytes" else Ok address.

Section signatures.
Context {C : Crypto} {L : SignatureLib}.

Definition parse_signature (bs : bytes) : result string EcdsaSignature :=
  if (length bs =? 65)%nat then map_err (fun err => "invalid signature: " +:+ err) (Signature_from_raw bs)
  else if (length bs =? 64)%nat then Ok (Signature_from_erc2098 bs)
  else Err "signature must be 64 or 65 bytes".

Definition LF : string := String (ascii_of_nat 10) "".

Definition invoice_message_text (invoice_id : bytes) : string :=
  "ICP Stealth Invoice Submission:" +:+ LF +:+ "invoice_id: 0x" +:+ hex_encode invoice_id.

Definition invoice_signature_message (invoice_id : bytes) : bytes :=
  eip191_message (invoice_message_text invoice_id).

Definition storage_recover_address_from_signature (signature : EcdsaSignature) (message : bytes) : result string bytes :=
  let hash := keccak256 message in
  map_err (fun err => "failed to recover address: " +:+ err) (recover_address_from_prehash signature hash).

Definition submit_invoice (input : InvoiceSubmission) : M StorageState string unit :=
  lift (normalize_invoice_id (is_invoice_id input)) ≫= fun invoice_id =>
  lift (parse_signature (is_signature input)) ≫= fun signature =>
  let message := invoice_signature_message invoice_id in
  lift (storage_recover_address_from_signature signature message) ≫= fun signer_bytes =>
  modify (fun state =>
    let invoices := default [] (st_invoices state !! signer_bytes) in
    let invoices' := if bool_decide (invoice_id ∈ invoices) then invoices else invoices ++ [invoice_id] in
    mkStorageState (st_announcements state) (st_next_id state) (<[signer_bytes := invoices']> (st_invoices state))).
End signatures.

Definition list_invoices (address : bytes) (state : StorageState) : result string (list bytes) :=
  address_bytes ← normalize_address address;
  Ok (default [] (st_invoices state !! address_bytes)).

(** ** The key manager canister *)

Definition CONTEXT_BASE : bytes :=   (* b"icp-stealth-announcement-v1" *)
  [105; 99; 112; 45; 115; 116; 101; 97; 108; 116; 104; 45; 97; 110; 110; 111; 117; 110; 99; 101; 109; 101; 110; 116; 45; 118; 49].

Record KeyManagerState := mkKeyManagerState {
  key_id_name : string;
  max_nonce_by_address : gmap bytes Z;
}.

Record EncryptedViewKeyRequest := mkRequest {
  rq_address : bytes;
  rq_transport_public_key : bytes;
  rq_expiry_ns : Z;
  rq_nonce : Z;
  rq_signature : bytes;
}.

Inductive AuthorizationError := InvalidLength | InvalidSignature | RecoveryFailed.

Definition AuthorizationError_to_string (e : AuthorizationError) : string :=
  match e with
  | InvalidLength => "signature must be 65 bytes (r||s||v)"
  | InvalidSignature => "invalid signature"
  | RecoveryFailed => "failed to recover signer"
  end.

(** The cell is empty until [init] ran. *)
Definition key_manager_init (name : string) : option KeyManagerState := Some (mkKeyManagerState name ∅).
Definition key_manager_pre_upgrade (s : option KeyManagerState) (stable : option (option KeyManagerState)) : option (option KeyManagerState) := Some s.
Definition key_manager_post_upgrade (stable : option (option KeyManagerState)) : option (option KeyManagerState) := stable.

Definition to_address (bs : bytes) : result string bytes :=
  if (length bs =? 20)%nat then Ok bs else Err "address must be 20 bytes".

Definition context_for_address (address : bytes) : bytes := CONTEXT_BASE ++ address.

Definition with_state {R} (f : KeyManagerState -> R) (s : option KeyManagerState) : result string R :=
  ok_or "key manager not initialized" (f <$> s).

Definition get_max_nonce (address : bytes) (s : option KeyManagerState) : result string Z :=
  address ← to_address address;
  max_nonce ← with_state (fun state => max_nonce_by_address state !! address) s;
  Ok (default 0 max_nonce).

Section vetkd.
Context {V : VetKeysLib}.

Definition get_view_public_key (address : bytes) (s : option KeyManagerState) : result string bytes :=
  address ← to_address address;
  config ← with_state key_id_name s;
  vetkd_public_key (context_for_address address) config.

Context {C : Crypto} {L : SignatureLib}.

Definition authorization_text (canister_id address transport_public_key : bytes) (expiry_ns nonce : Z) : string :=
  "ICP Stealth Authorization:" +:+ LF
  +:+ "address: 0x" +:+ hex_encode address +:+ LF
  +:+ "canister: " +:+ principal_to_text canister_id +:+ LF
  +:+ "transport: 0x" +:+ hex_encode transport_public_key +:+ LF
  +:+ "expiry_ns:" +:+ pretty expiry_ns +:+ LF
  +:+ "nonce:" +:+ pretty nonce.

Definition authorization_message (canister_id address transport_public_key : bytes) (expiry_ns nonce : Z) : bytes :=
  eip191_message (authorization_text canister_id address transport_public_key expiry_ns nonce).

Definition recover_address_from_signature (message signature : bytes) : result AuthorizationError bytes :=
  signature ← map_err (fun _ => InvalidSignature) (Signature_from_raw signature);
  let hash := keccak256 message in
  map_err (fun _ => RecoveryFailed) (recover_address_from_prehash signature hash).

(** The block that records the nonce: the entry is created before the comparison. *)
Definition record_nonce (address : bytes) (nonce : Z) : M (option KeyManagerState) string unit :=
  get ≫= fun s =>
  lift (ok_or "key manager not initialized" s) ≫= fun state =>
  let entry := default 0 (max_nonce_by_address state !! address) in
  let set v : M (option KeyManagerState) string unit :=
    modify (fun _ => Some (mkKeyManagerState (key_id_name state) (<[address := v]> (max_nonce_by_address state)))) in
  if nonce <=? entry then set entry ≫= fun _ => fail "nonce reuse detected"
  else set nonce.

(** [canister_self] is the id of the canister, [now] its clock. *)
Definition request_encrypted_view_key (canister_self : bytes) (now : Z) (request : EncryptedViewKeyRequest)
  : M (option KeyManagerState) string bytes :=
  lift (to_address (rq_address request)) ≫= fun address =>
  get ≫= fun s =>
  lift (with_state key_id_name s) ≫= fun config =>
  if rq_expiry_ns request <? now then fail "authorization expired"
  else
    record_nonce address (rq_nonce request) ≫= fun _ =>
    let message := authorization_message canister_self address (rq_transport_public_key request)
                     (rq_expiry_ns request) (rq_nonce request) in
    lift (map_err AuthorizationError_to_string (recover_address_from_signature message (rq_signature request))) ≫= fun recovered =>
    if negb (bool_decide (recovered = address)) then fail "signature does not match address"
    else lift (vetkd_derive_key (context_for_address address) [] config (rq_transport_public_key request)).
End vetkd.

(** ** The client library *)

Inductive StealthError :=
| InvalidDerivedPublicKey
| EncryptionFailed
| AnnouncementIgnored (reason : string)
| Transport (reason : string)
| VetKdDerivation (reason : string).

Definition SESSION_KEY_LEN : nat := 32.
Definition NONCE_LEN : nat := 12.

Record DecryptedAnnouncement := mkDecryptedAnnouncement {
  da_id : Z;
  da_plaintext : bytes;
  da_created_at_ns : Z;
}.

Section client.
Context {V : VetKeysLib}.

(** [seed], [session_key] and [nonce_bytes] are what the generator produced. *)
Definition encrypt_payload (seed session_key nonce_bytes view_public_key_bytes plaintext : bytes)
  : result StealthError AnnouncementInput :=
  derived_public_key ← ok_or InvalidDerivedPublicKey (DerivedPublicKey_deserialize view_public_key_bytes);
  let identity := [] in
  ciphertext ← ok_or EncryptionFailed (aes_encrypt session_key nonce_bytes plaintext);
  let ibe_ciphertext := ibe_encrypt_serialize derived_public_key identity session_key seed in
  Ok (mkAnnouncementInput ibe_ciphertext ciphertext nonce_bytes).

Definition decrypt_announcement (vet_key : VetKey) (announcement : Announcement) : result StealthError DecryptedAnnouncement :=
  ibe_ciphertext ← ok_or (AnnouncementIgnored "invalid IBE ciphertext") (IbeCiphertext_deserialize (an_ibe_ciphertext announcement));
  session_key ← ok_or (AnnouncementIgnored "vet key mismatch") (ibe_decrypt ibe_ciphertext vet_key);
  if negb (length session_key =? SESSION_KEY_LEN)%nat then Err (AnnouncementIgnored "unexpected session key length")
  else if negb (length (an_nonce announcement) =? NONCE_LEN)%nat then Err (AnnouncementIgnored "invalid nonce length")
  else
    plaintext ← ok_or (AnnouncementIgnored "ciphertext authentication failed")
                  (aes_decrypt session_key (an_nonce announcement) (an_ciphertext announcement));
    Ok (mkDecryptedAnnouncement (an_id announcement) plaintext (an_created_at_ns announcement)).

Fixpoint scan_announcements (vet_key : VetKey) (items : list Announcement) : result StealthError (list DecryptedAnnouncement) :=
  match items with
  | [] => Ok []
  | announcement :: rest =>
    match decrypt_announcement vet_key announcement with
    | Ok message => decrypted ← scan_announcements vet_key rest; Ok (message :: decrypted)
    | Err (AnnouncementIgnored _) => scan_announcements vet_key rest
    | Err err => Err err
    end
  end.

Record TransportKeyPair := mkTransportKeyPair { secret : TransportSecretKey; public : bytes }.

(** [seed] is what [OsRng.fill_bytes] wrote. *)
Definition prepare_transport_key (seed : bytes) : TransportKeyPair :=
  let secret := TransportSecretKey_from_seed seed in
  mkTransportKeyPair secret (transport_public_key_of secret).

Definition decrypt_vet_key (encrypted_key derived_public_key : bytes) (transport_secret : TransportSecretKey)
  : result StealthError VetKey :=
  encrypted ← map_err Transport (EncryptedVetKey_deserialize encrypted_key);
  derived ← ok_or (Transport "invalid derived public key") (DerivedPublicKey_deserialize derived_public_key);
  map_err Transport (decrypt_and_verify encrypted transport_secret derived []).

Definition derive_view_public_key_offchain (key_manager_canister_id address : bytes) (key_id_name : string)
  : result StealthError bytes :=
  master_public_key ← ok_or (VetKdDerivation ("unknown master public key for key id '" +:+ key_id_name +:+ "'"))
                        (master_key_for key_id_name);
  let canister_public_key := derive_canister_key master_public_key key_manager_canister_id in
  Ok (derive_sub_key canister_public_key (context_for_address address)).

Context {C : Crypto} {L : SignatureLib}.

Definition derive_address (signing_key : SigningKey) : bytes :=
  let public_key := uncompressed_public_key signing_key in
  let digest := keccak256 (drop 1 public_key) in
  drop 12 digest.

(** [saturating_add] on [u8]. *)
Definition saturating_add_u8 (x y : Z) : Z := Z.min (x + y) 255.

Definition sign_authorization (message : bytes) (signing_key : SigningKey) : result string bytes :=
  let digest := keccak256 message in
  '(signature, recovery_id) ← map_err (fun err => "failed to sign authorization message: " +:+ err)
                                (sign_prehash_recoverable signing_key digest);
  Ok (signature ++ [saturating_add_u8 recovery_id 27]).
End client.

(** [unix_time_ns] from the seconds and nanoseconds since the epoch. *)
Definition saturating_mul_u64 (x y : Z) : Z := Z.min (x * y) u64_max.
Definition unix_time_ns (secs subsec_nanos : Z) : Z :=
  saturating_add_u64 (saturating_mul_u64 secs 1000000000) subsec_nanos.

(** *** The canister client: calls with the identity as transport *)

Inductive ClientError := Canister (message : string).

Section canister_client.
Context {V : VetKeysLib} {C : Crypto} {L : SignatureLib}.

Definition client_get_view_public_key (address : bytes) (s : option KeyManagerState) : result ClientError bytes :=
  map_err Canister (get_view_public_key address s).
Definition client_get_max_nonce (address : bytes) (s : option KeyManagerState) : result ClientError Z :=
  map_err Canister (get_max_nonce address s).
Definition client_request_encrypted_view_key (key_manager_canister_id : bytes) (now : Z) (request : EncryptedViewKeyRequest)
  : M (option KeyManagerState) ClientError bytes := fun s =>
  let '(s', r) := request_encrypted_view_key key_manager_canister_id now request s in (s', map_err Canister r).
Definition client_submit_announcement (time : Z) (input : AnnouncementInput) : M StorageState ClientError Announcement := fun s =>
  let '(s', r) := submit_announcement time input s in (s', map_err Canister r).
Definition client_submit_invoice (input : InvoiceSubmission) : M StorageState ClientError unit := fun s =>
  let '(s', r) := submit_invoice input s in (s', map_err Canister r).
Definition client_list_invoices (address : bytes) (s : StorageState) : result ClientError (list bytes) :=
  map_err Canister (list_invoices address s).
End canister_client.
