(* ===== verification/StorageSpec.v ===== *)
(** What the canisters of [Storage] promise: the announcement log and its pages, the
    authenticity of invoices, who obtains a view key, and what an unsigned request does. *)

From stdpp Require Import pretty relations.
From Stdlib Require Import Ascii.
From S2P Require Import Prelude Words Text Crypto Database Storage.
Local Open Scope Z_scope.

(** ** The announcement log *)

(** Announcement [i] of the vector has identifier [b + i]. *)
Definition ids_from (b : Z) (l : list Announcement) : Prop :=
  forall i a, l !! i = Some a -> an_id a = b + Z.of_nat i.

Lemma ids_from_cons b a l : ids_from b (a :: l) <-> an_id a = b /\ ids_from (b + 1) l.
Proof.
  split.
  - intros H. split; [rewrite (H 0%nat a) by done; lia|].
    intros i x Hi. rewrite (H (S i) x) by done. lia.
  - intros [H1 H2] [|i] x Hi; cbn in Hi; [injection Hi as <-; lia|]. rewrite (H2 i x) by done. lia.
Qed.

Lemma ids_from_snoc b a l : ids_from b l -> an_id a = b + Z.of_nat (length l) -> ids_from b (l ++ [a]).
Proof.
  intros Hl Ha i x [Hi|(Hge & Hi)]%lookup_app_Some; [auto|].
  apply list_lookup_singleton_Some in Hi as [Hi ->]. rewrite Ha. lia.
Qed.

Lemma ids_from_drop b l k : ids_from b l -> ids_from (b + Z.of_nat k) (drop k l).
Proof. intros H i a Hi. rewrite lookup_drop in Hi. rewrite (H _ _ Hi). lia. Qed.

Lemma ids_from_take b l k : ids_from b l -> ids_from b (take k l).
Proof. intros H i a [Hi _]%lookup_take_Some. eauto. Qed.

(** How many announcements, of those from identifier [b] on, [start_after] skips. *)
Definition skipped (b : Z) (start_after : option Z) : nat :=
  match start_after with Some start => Z.to_nat (start + 1 - b) | None => 0 end.

Lemma collect_page_spec start limit l : forall b collected,
  ids_from b l -> (length collected <= limit)%nat ->
  collect_page start limit collected l
  = (collected ++ take (limit - length collected) (drop (skipped b start) l),
     an_id <$> drop (skipped b start) l !! (limit - length collected)%nat).
Proof.
  induction l as [|a l IH]; intros b collected; [intros _ _; by rewrite drop_nil, take_nil, app_nil_r|].
  intros [Ha Hl]%ids_from_cons Hc. cbn [collect_page].
  destruct (match start with Some st => an_id a <=? st | None => false end) eqn:Es.
  - destruct start as [st|]; [|done]. bool_cases. rewrite (IH (b + 1)) by done.
    assert (skipped b (Some st) = S (skipped (b + 1) (Some st))) as -> by (cbn; lia). done.
  - assert (skipped b start = 0%nat /\ skipped (b + 1) start = 0%nat) as [E0 E1].
    { destruct start as [st|]; [|done]. bool_cases. cbn. lia. }
    rewrite E0, drop_0. destruct (Nat.ltb_spec (length collected) limit) as [Hlt|Hge].
    + rewrite (IH (b + 1)) by (rewrite ?length_app; cbn; done || lia). rewrite E1, drop_0, length_app.
      replace (limit - length collected)%nat with (S (limit - (length collected + length [a]))) by (cbn; lia).
      by rewrite <- app_assoc.
    + replace (limit - length collected)%nat with 0%nat by lia. by rewrite take_0, app_nil_r.
Qed.

Lemma sort_by_id_sorted b l : ids_from b l -> sort_by_id l = l.
Proof.
  revert b. induction l as [|a l IH]; intros b; [done|].
  intros [Ha Hl]%ids_from_cons. cbn. fold (sort_by_id l). rewrite (IH _ Hl).
  destruct l as [|c l]; [done|]. apply ids_from_cons in Hl as [Hc _]. cbn.
  by rewrite (proj2 (Z.leb_le _ _)) by lia.
Qed.

(** The page size [list_announcements] uses. *)
Definition page_limit (limit : option Z) : nat := Z.to_nat (Z.min (default DEFAULT_LIST_LIMIT limit) MAX_LIST_LIMIT).

Lemma list_announcements_spec start limit s :
  ids_from 0 (st_announcements s) ->
  list_announcements start limit s
  = mkAnnouncementPage (take (page_limit limit) (drop (skipped 0 start) (st_announcements s)))
      (an_id <$> drop (skipped 0 start) (st_announcements s) !! page_limit limit).
Proof.
  intros H. unfold list_announcements. fold (page_limit limit).
  rewrite (collect_page_spec _ _ _ 0) by (done || apply Nat.le_0_l). cbn [length app]. rewrite Nat.sub_0_r.
  f_equal. eapply sort_by_id_sorted, ids_from_take, ids_from_drop, H.
Qed.

Lemma get_announcement_spec l b id : ids_from b l -> b <= id ->
  List.find (fun a => an_id a =? id) l = l !! Z.to_nat (id - b).
Proof.
  revert b. induction l as [|a l IH]; intros b; [done|].
  intros [Ha Hl]%ids_from_cons Hb. cbn [List.find]. destruct (Z.eqb_spec (an_id a) id) as [E|E].
  - by replace (Z.to_nat (id - b)) with 0%nat by lia.
  - rewrite (IH (b + 1)) by (done || lia). by replace (Z.to_nat (id - b)) with (S (Z.to_nat (id - (b + 1)))) by lia.
Qed.

(** ** The states of the storage canister *)

Section storage_canister.
Context {C : Crypto} {L : SignatureLib}.

Inductive storage_step : StorageState -> StorageState -> Prop :=
| step_announce time input s : storage_step s (submit_announcement time input s).1
| step_invoice input s : storage_step s (submit_invoice input s).1
| step_upgrade s s' : storage_post_upgrade (storage_pre_upgrade s None) = Some s' -> storage_step s s'.

Definition announcement_wf (a : Announcement) : Prop :=
  1 <= Z.of_nat (length (an_ibe_ciphertext a)) <= 512 /\ 1 <= Z.of_nat (length (an_ciphertext a)) <= 16384
  /\ length (an_nonce a) = 12%nat.

(** A signature on the invoice that recovers to its owner was presented. *)
Definition invoice_signed (owner id : bytes) : Prop :=
  length id = 32%nat
  /\ exists bs sig, parse_signature bs = Ok sig
     /\ storage_recover_address_from_signature sig (invoice_signature_message id) = Ok owner.

Record storage_inv (s : StorageState) : Prop := {
  inv_next : st_next_id s = Z.of_nat (length (st_announcements s));
  inv_ids : ids_from 0 (st_announcements s);
  inv_wf : Forall announcement_wf (st_announcements s);
  inv_invoices : forall owner ids, st_invoices s !! owner = Some ids -> NoDup ids /\ Forall (invoice_signed owner) ids;
}.

Lemma storage_inv_init : storage_inv storage_init.
Proof. by split. Qed.

Lemma validate_ok input : validate_announcement input = Ok tt <->
  1 <= Z.of_nat (length (ai_ibe_ciphertext input)) <= 512 /\ 1 <= Z.of_nat (length (ai_ciphertext input)) <= 16384
  /\ length (ai_nonce input) = 12%nat.
Proof.
  unfold validate_announcement, MAX_IBE_CIPHERTEXT_BYTES, MAX_CIPHERTEXT_BYTES.
  destruct (Nat.eqb_spec (length (ai_ibe_ciphertext input)) 0), (Z.ltb_spec 512 (Z.of_nat (length (ai_ibe_ciphertext input)))),
    (Nat.eqb_spec (length (ai_ciphertext input)) 0), (Z.ltb_spec (16 * 1024) (Z.of_nat (length (ai_ciphertext input)))),
    (Nat.eqb_spec (length (ai_nonce input)) 12); cbn [orb negb]; split; try discriminate; intros; try reflexivity; lia.
Qed.

(** A rejected announcement leaves the state alone; an accepted one is appended. *)
Lemma submit_announcement_cases time input s :
  (exists e, validate_announcement input = Err e /\ submit_announcement time input s = (s, Err e))
  \/ (validate_announcement input = Ok tt
      /\ let a := mkAnnouncement (st_next_id s) (ai_ibe_ciphertext input) (ai_ciphertext input) (ai_nonce input) time in
         submit_announcement time input s
         = (mkStorageState (st_announcements s ++ [a]) (u64_add (st_next_id s) 1) (st_invoices s), Ok a)).
Proof.
  unfold submit_announcement. unfold mbind, M_bind, lift.
  destruct (validate_announcement input) as [[]|e]; [right | left; eauto]. done.
Qed.

Lemma submit_invoice_state input s :
  let s' := (submit_invoice input s).1 in
  s' = s \/ exists owner sig, normalize_invoice_id (is_invoice_id input) = Ok (is_invoice_id input)
    /\ parse_signature (is_signature input) = Ok sig
    /\ storage_recover_address_from_signature sig (invoice_signature_message (is_invoice_id input)) = Ok owner
    /\ let ids := default [] (st_invoices s !! owner) in
       s' = mkStorageState (st_announcements s) (st_next_id s)
              (<[owner := if bool_decide (is_invoice_id input ∈ ids) then ids else ids ++ [is_invoice_id input]]> (st_invoices s)).
Proof.
  cbv zeta. unfold submit_invoice, mbind, M_bind, lift, normalize_invoice_id. if_case E; [by left|].
  destruct (parse_signature _) as [sig|e]; [|by left].
  destruct (storage_recover_address_from_signature sig _) as [owner|e] eqn:Er; [|by left].
  right. exists owner, sig. by rewrite Er.
Qed.

Lemma storage_step_announcements s s' : storage_step s s' -> st_announcements s `prefix_of` st_announcements s'.
Proof.
  intros [time input s0 | input s0 | s0 s1 H].
  - destruct (submit_announcement_cases time input s0) as [(e & _ & ->)|[_ ->]]; [done | by apply prefix_app_r].
  - destruct (submit_invoice_state input s0) as [->|(? & ? & _ & _ & _ & ->)]; done.
  - by injection H as <-.
Qed.

Lemma storage_steps_announcements s s' : rtc storage_step s s' -> st_announcements s `prefix_of` st_announcements s'.
Proof. induction 1 as [|s1 s2 s3 H _ IH]; [done|]. etrans; [by apply storage_step_announcements | exact IH]. Qed.

Lemma storage_inv_step s s' : storage_step s s' ->
  Z.of_nat (length (st_announcements s')) < 2 ^ 64 -> storage_inv s -> storage_inv s'.
Proof.
  intros [time input s0 | input s0 | s0 s1 H] Hlen HI; [| |by injection H as <-].
  - destruct (submit_announcement_cases time input s0) as [(e & _ & ->)|[Hv%validate_ok Hs]]; [done|].
    cbv zeta in Hs. rewrite Hs in *. clear Hs. cbn [fst st_announcements] in Hlen. rewrite length_app in Hlen. cbn in Hlen.
    destruct HI as [Hn Hi Hw Hinv]. split; cbn [fst st_announcements st_next_id st_invoices]; try done.
    + rewrite Hn, length_app. unfold u64_add. rewrite Z.mod_small by lia. cbn. lia.
    + by apply ids_from_snoc.
    + apply Forall_app_2; [done|]. by apply Forall_singleton.
  - destruct (submit_invoice_state input s0) as [->|(owner & sig & Hn & Hp & Hr & ->)]; [done|].
    destruct HI as [Hx Hi Hw Hinv]. split; cbn [st_announcements st_next_id st_invoices]; try done.
    intros o l Hl. apply lookup_insert_Some in Hl as [[<- <-]|[_ Hl]]; [|by apply Hinv].
    set (ids := default [] _). assert (NoDup ids /\ Forall (invoice_signed owner) ids) as [HN HF].
    { unfold ids. destruct (st_invoices s0 !! owner) eqn:E; cbn; [by apply Hinv | split; constructor]. }
    assert (invoice_signed owner (is_invoice_id input)) as Hsig.
    { split; [|eauto]. unfold normalize_invoice_id in Hn. if_case_in Hn E; [done|]. by apply Nat.eqb_eq in E. }
    case_bool_decide as Hin; [done|]. split; [|apply Forall_app_2; auto].
    apply NoDup_app. split_and!; [done | by intros x ? ->%list_elem_of_singleton | apply NoDup_singleton].
Qed.

Lemma storage_inv_steps s s' : rtc storage_step s s' ->
  Z.of_nat (length (st_announcements s')) < 2 ^ 64 -> storage_inv s -> storage_inv s'.
Proof.
  induction 1 as [|s1 s2 s3 H H2 IH]; [done|]. intros Hlen HI. apply IH; [done|].
  eapply storage_inv_step; [done | | done].
  apply storage_steps_announcements, prefix_length in H2. lia.
Qed.

End storage_canister.

(** ** The signed text determines the request *)

Lemma one_line_split s t u v : one_line s = true -> one_line t = true ->
  (s +:+ LF +:+ u = t +:+ LF +:+ v)%string -> s = t /\ u = v.
Proof.
  revert t. induction s as [|a s IH]; intros [|b t]; cbn; intros Hs Ht H.
  - by injection H.
  - injection H as <- _. done.
  - injection H as -> _. done.
  - apply andb_true_iff in Hs as [_ Hs], Ht as [_ Ht]. injection H as -> H.
    by destruct (IH t Hs Ht H) as [-> ->].
Qed.

Lemma one_line_app s t : one_line (s +:+ t) = one_line s && one_line t.
Proof. induction s as [|a s IH]; [done|]. change (String a s +:+ t)%string with (String a (s +:+ t)). cbn [one_line]. by rewrite IH, andb_assoc. Qed.

Lemma one_line_pretty_char n : negb (bool_decide (nat_of_ascii (pretty_N_char n) = 10%nat)) = true.
Proof. unfold pretty_N_char. by repeat case_match. Qed.

Lemma one_line_pretty_go n : forall s, one_line s = true -> one_line (pretty_N_go n s) = true.
Proof.
  induction (N.lt_wf_0 n) as [n _ IH]. intros s Hs. destruct (decide (0 < n)%N) as [Hn|Hn].
  - rewrite pretty_N_go_step by done. apply IH; [apply N.div_lt; lia|]. cbn [one_line].
    by rewrite one_line_pretty_char.
  - replace n with 0%N by lia. by rewrite pretty_N_go_0.
Qed.

Lemma one_line_pretty (z : Z) : one_line (pretty z) = true.
Proof.
  assert (forall n : N, one_line (pretty n) = true) as HN.
  { intros n. unfold pretty, pretty_N. case_decide; [done|]. by apply one_line_pretty_go. }
  destruct z as [|p|p]; [done | apply (HN (Npos p)) |].
  change (pretty (Z.neg p)) with ("-" +:+ pretty (Npos p))%string. by rewrite one_line_app, HN.
Qed.

Lemma hex_one_line s : hex_digits s = true -> one_line s = true.
Proof.
  induction s as [|a s IH]; cbn; [done|]. intros [Ha Hs]%andb_true_iff. rewrite (IH Hs), andb_true_r.
  case_bool_decide as E; [|done]. unfold is_hex_digit in Ha. by rewrite E in Ha.
Qed.

(** One labelled line after another: equal texts have equal fields. *)
Lemma labelled_line_split p a b u v : one_line a = true -> one_line b = true ->
  (p +:+ a +:+ LF +:+ u = p +:+ b +:+ LF +:+ v)%string -> a = b /\ u = v.
Proof. intros Ha Hb H%string_app_inj_l. by apply one_line_split. Qed.

Section key_manager.
Context {V : VetKeysLib} {C : Crypto} {L : SignatureLib} {HL : SignatureLaws C L}.

Lemma hex_encode_inj a b : Forall in_u8 a -> Forall in_u8 b -> hex_encode a = hex_encode b -> a = b.
Proof. intros Ha Hb H. apply (f_equal hex_decode) in H. rewrite !hex_decode_encode in H by done. by injection H. Qed.

Lemma authorization_message_inj c1 a1 t1 e1 n1 c2 a2 t2 e2 n2 :
  Forall in_u8 c1 -> Forall in_u8 c2 -> Forall in_u8 a1 -> Forall in_u8 a2 -> Forall in_u8 t1 -> Forall in_u8 t2 ->
  authorization_message c1 a1 t1 e1 n1 = authorization_message c2 a2 t2 e2 n2 ->
  c1 = c2 /\ a1 = a2 /\ t1 = t2 /\ e1 = e2 /\ n1 = n2.
Proof.
  intros Hc1 Hc2 Ha1 Ha2 Ht1 Ht2 H%eip191_inj. unfold authorization_text in H.
  assert (forall bs, one_line (hex_encode bs) = true) as Hh by (intros; apply hex_one_line, hex_encode_digits).
  do 2 apply string_app_inj_l in H.
  destruct (labelled_line_split _ _ _ _ _ (Hh _) (Hh _) H) as [E1 H1].
  destruct (labelled_line_split _ _ _ _ _ (principal_line _) (principal_line _) H1) as [E2 H2].
  destruct (labelled_line_split _ _ _ _ _ (Hh _) (Hh _) H2) as [E3 H3].
  destruct (labelled_line_split _ _ _ _ _ (one_line_pretty _) (one_line_pretty _) H3) as [E4 H4].
  apply string_app_inj_l in H4.
  split_and!; [by apply principal_text_inj | by apply hex_encode_inj | by apply hex_encode_inj
    | exact (inj pretty _ _ E4) | exact (inj pretty _ _ H4)].
Qed.

(** The largest nonce recorded for an address, 0 for none. *)
Definition max_nonce (s : option KeyManagerState) (address : bytes) : Z :=
  default 0 (s ≫= fun st => max_nonce_by_address st !! address).

Lemma max_nonce_insert st address v b :
  max_nonce (Some (mkKeyManagerState (key_id_name st) (<[address := v]> (max_nonce_by_address st)))) b
  = if decide (address = b) then v else max_nonce (Some st) b.
Proof.
  unfold max_nonce. cbn [mbind option_bind max_nonce_by_address].
  case_decide as E; [subst; by rewrite lookup_insert_eq | by rewrite lookup_insert_ne].
Qed.

Definition signed_by_owner (self : bytes) (request : EncryptedViewKeyRequest) : Prop :=
  exists sig, Signature_from_raw (rq_signature request) = Ok sig
    /\ recover_address_from_prehash sig
         (keccak256 (authorization_message self (rq_address request) (rq_transport_public_key request)
                       (rq_expiry_ns request) (rq_nonce request))) = Ok (rq_address request).

(** An unexpired request records its nonce as soon as it is new, whatever the signature. *)
Lemma request_accepted self now request st s' r :
  length (rq_address request) = 20%nat -> now <= rq_expiry_ns request ->
  request_encrypted_view_key self now request (Some st) = (s', r) ->
  s' = Some (mkKeyManagerState (key_id_name st)
         (<[rq_address request := Z.max (max_nonce (Some st) (rq_address request)) (rq_nonce request)]> (max_nonce_by_address st)))
  /\ forall key, r = Ok key ->
       max_nonce (Some st) (rq_address request) < rq_nonce request /\ signed_by_owner self request
       /\ vetkd_derive_key (context_for_address (rq_address request)) [] (key_id_name st) (rq_transport_public_key request) = Ok key.
Proof.
  intros Hl He. unfold request_encrypted_view_key, record_nonce, to_address, with_state, get, modify, lift, fail, mbind, M_bind.
  rewrite Hl, Nat.eqb_refl. cbv beta iota delta [ok_or fmap option_fmap option_map]. rewrite (proj2 (Z.ltb_ge _ _)) by done.
  unfold max_nonce. cbn [mbind option_bind].
  destruct (Z.leb_spec (rq_nonce request) (default 0 (max_nonce_by_address st !! rq_address request))) as [Hn|Hn]; intros H.
  - rewrite Z.max_l by done. injection H as <- <-. done.
  - rewrite Z.max_r by lia. unfold recover_address_from_signature in H.
    destruct (Signature_from_raw (rq_signature request)) as [sig|e] eqn:Es; cbn [map_err mbind result_bind] in H;
      [|by injection H as <- <-].
    destruct (recover_address_from_prehash sig _) as [a|e] eqn:Er; cbn [map_err] in H; [|by injection H as <- <-].
    case_bool_decide as Ea; cbn [negb] in H; injection H as <- <-; [subst a|done].
    split; [done|]. intros key Hk. unfold signed_by_owner. eauto.
Qed.

Lemma request_state self now request s s' r :
  request_encrypted_view_key self now request s = (s', r) ->
  (s' = s /\ is_ok r = false)
  \/ exists st, s = Some st
     /\ s' = Some (mkKeyManagerState (key_id_name st)
                (<[rq_address request := Z.max (max_nonce s (rq_address request)) (rq_nonce request)]> (max_nonce_by_address st)))
     /\ forall key, r = Ok key ->
          max_nonce s (rq_address request) < rq_nonce request /\ signed_by_owner self request
          /\ vetkd_derive_key (context_for_address (rq_address request)) [] (key_id_name st) (rq_transport_public_key request) = Ok key.
Proof.
  intros H. destruct (decide (length (rq_address request) = 20%nat)) as [Hl|Hl];
    [destruct s as [st|]; [destruct (decide (now <= rq_expiry_ns request)) as [He|He]|]|].
  - right. exists st. split; [done|]. by eapply request_accepted.
  - left. revert H. unfold request_encrypted_view_key, to_address, with_state, get, lift, fail, mbind, M_bind.
    rewrite Hl, Nat.eqb_refl. cbn [fmap option_fmap option_map ok_or]. rewrite (proj2 (Z.ltb_lt _ _)) by lia. by intros [= <- <-].
  - left. revert H. unfold request_encrypted_view_key, to_address, with_state, get, lift, fail, mbind, M_bind.
    rewrite Hl, Nat.eqb_refl. cbn [fmap option_fmap option_map ok_or]. by intros [= <- <-].
  - left. revert H. unfold request_encrypted_view_key, to_address, lift, mbind, M_bind.
    rewrite (proj2 (Nat.eqb_neq _ _)) by done. by intros [= <- <-].
Qed.

Inductive km_run (self : bytes) : option KeyManagerState -> list (EncryptedViewKeyRequest * result string bytes)
  -> option KeyManagerState -> Prop :=
| km_done s : km_run self s [] s
| km_request s now request s1 r tr s2 :
    request_encrypted_view_key self now request s = (s1, r) -> km_run self s1 tr s2 -> km_run self s ((request, r) :: tr) s2
| km_upgrade s s1 tr s2 :
    key_manager_post_upgrade (key_manager_pre_upgrade s None) = Some s1 -> km_run self s1 tr s2 -> km_run self s tr s2.

Lemma request_nonce_mono self now request s s' r address :
  request_encrypted_view_key self now request s = (s', r) ->
  max_nonce s address <= max_nonce s' address
  /\ forall key, r = Ok key -> address = rq_address request ->
       max_nonce s address < rq_nonce request <= max_nonce s' address.
Proof.
  intros [[-> Hr]|(st & -> & -> & Hk)]%request_state; [split; [done|]; by intros key ->|].
  rewrite max_nonce_insert. case_decide as E; [subst address | split; [done|]; intros ??; congruence].
  split; [lia|]. intros key Hr _. destruct (Hk key Hr) as [? _]. lia.
Qed.

Lemma km_run_nonces self s tr s' :
  km_run self s tr s' ->
  (forall i request key, tr !! i = Some (request, Ok key) -> max_nonce s (rq_address request) < rq_nonce request)
  /\ (forall i j r1 k1 r2 k2, (i < j)%nat -> tr !! i = Some (r1, Ok k1) -> tr !! j = Some (r2, Ok k2) ->
        rq_address r1 = rq_address r2 -> rq_nonce r1 < rq_nonce r2).
Proof.
  induction 1 as [s|s now request s1 r tr s2 Hq _ [IH1 IH2]|s s1 tr s2 Hu _ IH];
    [done| |injection Hu as <-; exact IH].
  split.
  - intros [|i] rq key; cbn; [intros [= -> ->] | intros Hi].
    + apply (request_nonce_mono _ _ _ _ _ _ (rq_address rq)) in Hq as [_ Hq]. by destruct (Hq key).
    + apply (request_nonce_mono _ _ _ _ _ _ (rq_address rq)) in Hq as [Hq _]. specialize (IH1 _ _ _ Hi). lia.
  - intros [|i] [|j] r1 k1 r2 k2 Hij; cbn; [lia| |lia|by apply IH2; lia].
    intros [= -> ->] Hj Ha. apply (request_nonce_mono _ _ _ _ _ _ (rq_address r1)) in Hq as [_ Hq].
    destruct (Hq k1) as [_ Hmax]; [done..|]. specialize (IH1 _ _ _ Hj). rewrite <- Ha in IH1. lia.
Qed.

Lemma km_run_replies self name s tr s' :
  km_run self s tr s' -> (forall st, s = Some st -> key_id_name st = name) ->
  forall request key, (request, Ok key) ∈ tr ->
  signed_by_owner self request
  /\ vetkd_derive_key (context_for_address (rq_address request)) [] name (rq_transport_public_key request) = Ok key.
Proof.
  induction 1 as [s|s now request s1 r tr s2 Hq _ IH|s s1 tr s2 Hu _ IH]; intros Hname rq key Hin.
  - by apply elem_of_nil in Hin.
  - apply request_state in Hq. apply elem_of_cons in Hin as [[= <- <-]|Hin].
    + destruct Hq as [[_ Hr]|(st & -> & _ & Hk)]; [done|]. destruct (Hk key) as (_ & ? & Hd); [done|].
      by rewrite (Hname st) in Hd.
    + apply IH; [|done]. destruct Hq as [[-> _]|(st & -> & -> & _)]; [done|]. intros ? [= <-]. by apply (Hname st).
  - injection Hu as <-. by apply IH.
Qed.


(** C38: A request nobody signed locks an address out.  The nonce is recorded before the signature is checked and the
    reply [Err] does not undo it: one unexpired request with the largest nonce and any bytes that are no
    65-byte signature (no key is needed) leaves the key manager in a state in which every later request for that address, signed
    or not, is refused for ever. *)
Theorem unsigned_request_locks_address self st now attack :
  length (rq_address attack) = 20%nat -> now <= rq_expiry_ns attack ->
  rq_nonce attack = u64_max -> length (rq_signature attack) <> 65%nat ->
  let '(s', reply) := request_encrypted_view_key self now attack (Some st) in
  is_ok reply = false
  /\ forall tr s'' request r, km_run self s' tr s'' -> (request, r) ∈ tr ->
       rq_address request = rq_address attack -> in_u64 (rq_nonce request) -> is_ok r = false.
Proof.
  intros Hl He Hn Hsig. destruct (request_encrypted_view_key self now attack (Some st)) as [s' reply] eqn:Hq.
  apply request_accepted in Hq as [-> Hkey]; [|done..]. split.
  { destruct reply as [key|]; [|done]. destruct (Hkey key) as (_ & (sig & Hraw & _) & _); [done|].
    by apply from_raw_length in Hraw. }
  intros tr s'' request r Hrun Hin Ha Hnonce. destruct r as [key|]; [exfalso|done].
  apply list_elem_of_lookup in Hin as [i Hi]. destruct (km_run_nonces _ _ _ _ Hrun) as [H1 _].
  specialize (H1 i request key Hi). rewrite Ha in H1.
  rewrite max_nonce_insert, decide_True in H1 by done.
  rewrite Hn in H1.
  unfold in_u64, u64_max in *. lia.
Qed.
End key_manager.

(** * Witnesses *)

(** A signature that contains the digest and the key, and readable encodings. *)
Fixpoint toy_string_bytes (s : string) : bytes :=
  match s with EmptyString => [] | String a s' => Z.of_nat (nat_of_ascii a) :: toy_string_bytes s' end.
Definition toy_hex_digit (d : Z) : ascii := ascii_of_nat (if d <? 10 then Z.to_nat (48 + d) else Z.to_nat (87 + d)).
Fixpoint toy_hex (bs : bytes) : string :=
  match bs with
  | [] => EmptyString
  | b :: bs' => String (toy_hex_digit ((b / 16) mod 16)) (String (toy_hex_digit (b mod 16)) (toy_hex bs'))
  end.
Definition toy_hex_value (a : ascii) : Z :=
  let n := Z.of_nat (nat_of_ascii a) in if n <? 58 then n - 48 else n - 87.
Fixpoint toy_unhex (s : string) : option bytes :=
  match s with
  | EmptyString => Some []
  | String a (String b s') => bs ← toy_unhex s'; Some (16 * toy_hex_value a + toy_hex_value b :: bs)
  | _ => None
  end.

Definition toy_signatures : SignatureLib := {|
  EcdsaSignature := bytes;
  Signature_from_raw := fun bs => if (length bs =? 65)%nat then Ok bs else Err "length"%string;
  Signature_from_erc2098 := fun bs => bs;
  recover_address_from_prehash := fun s h =>
    if bool_decide (take 32 s = h) then Ok (drop 12 (@keccak256 toy_crypto (take 32 (drop 32 s)))) else Err "mismatch"%string;
  SigningKey := Z;
  SigningKey_from_bytes := fun bs => if (length bs =? 32)%nat then Some (be_val bs) else None;
  signer_address := fun bs => if (length bs =? 32)%nat then Some (be_val (drop 12 (@keccak256 toy_crypto (be_bytes 32 (be_val bs))))) else None;
  uncompressed_public_key := fun sk => 4 :: be_bytes 32 sk;
  sign_prehash_recoverable := fun sk digest => Ok (digest ++ be_bytes 32 sk, 0);
  eip191_message := toy_string_bytes;
  hex_encode := toy_hex;
  hex_decode := toy_unhex;
  principal_to_text := toy_hex;
  Address_to_string := pretty;
|}.

Lemma toy_hex_digit_ok d : 0 <= d < 16 -> is_hex_digit (toy_hex_digit d) = true /\ toy_hex_value (toy_hex_digit d) = d.
Proof.
  intros Hd. assert (d = 0 \/ d = 1 \/ d = 2 \/ d = 3 \/ d = 4 \/ d = 5 \/ d = 6 \/ d = 7 \/ d = 8 \/ d = 9 \/ d = 10
    \/ d = 11 \/ d = 12 \/ d = 13 \/ d = 14 \/ d = 15) as H by lia.
  repeat destruct H as [->|H]; try (vm_compute; done). subst. by vm_compute.
Qed.

Lemma toy_hex_digits bs : hex_digits (toy_hex bs) = true.
Proof.
  induction bs as [|b bs IH]; [done|]. cbn [toy_hex hex_digits]. rewrite IH.
  rewrite !(proj1 (toy_hex_digit_ok _ (Z.mod_pos_bound _ 16 eq_refl))). done.
Qed.

Lemma toy_unhex_hex bs : Forall in_u8 bs -> toy_unhex (toy_hex bs) = Some bs.
Proof.
  induction 1 as [|b bs Hb _ IH]; [done|]. cbn [toy_hex toy_unhex]. rewrite IH.
  rewrite !(proj2 (toy_hex_digit_ok _ (Z.mod_pos_bound _ 16 eq_refl))). cbn [mbind option_bind]. repeat f_equal.
  unfold in_u8 in Hb. rewrite (Z.mod_small (b / 16)) by (split; [apply Z.div_pos | apply Z.div_lt_upper_bound]; lia).
  symmetry. apply Z.div_mod. done.
Qed.

Lemma toy_string_bytes_inj s t : toy_string_bytes s = toy_string_bytes t -> s = t.
Proof.
  revert t. induction s as [|a s IH]; intros [|b t]; try done. cbn. intros [= Hab Hst].
  apply Nat2Z.inj, (f_equal ascii_of_nat) in Hab. rewrite !ascii_nat_embedding in Hab. by rewrite Hab, (IH t).
Qed.

Lemma toy_signatures_laws : SignatureLaws toy_crypto toy_signatures.
Proof.
  split; cbn [EcdsaSignature Signature_from_raw recover_address_from_prehash SigningKey SigningKey_from_bytes signer_address uncompressed_public_key
    sign_prehash_recoverable eip191_message hex_encode hex_decode principal_to_text toy_signatures].
  - intros sk digest sig v Hd H. assert (sig = digest ++ be_bytes 32 sk /\ v = 0) as [-> ->] by (by inversion H). clear H.
    rewrite length_app, length_be_bytes, Hd. split_and!; [done..|].
    exists ((digest ++ be_bytes 32 sk) ++ [0 + 27]). rewrite !length_app, length_be_bytes, Hd. split; [done|].
    rewrite <- app_assoc, take_app_length' by done. rewrite bool_decide_true by done.
    rewrite drop_app_length' by done. rewrite take_app_length' by (symmetry; apply length_be_bytes). by rewrite skipn_cons, skipn_O.
  - intros bs sk. destruct (Nat.eqb_spec (length bs) 32); [|done]. intros H. assert (be_val bs = sk) as <- by (by inversion H).
    by rewrite skipn_cons, skipn_O.
  - intros s h a. case_bool_decide; [|done]. intros H1.
    assert (a = drop 12 (@keccak256 toy_crypto (take 32 (drop 32 s)))) as -> by (by inversion H1). clear H1. split.
    + by rewrite length_drop, (@keccak256_length _ toy_crypto_laws).
    + apply Forall_drop, (@keccak256_bytes _ toy_crypto_laws).
  - intros bs s. destruct (Nat.eqb_spec (length bs) 65); [done|discriminate].
  - apply toy_string_bytes_inj.
  - apply toy_hex_digits.
  - apply toy_unhex_hex.
  - intros p. apply hex_one_line, toy_hex_digits.
  - intros p q Hp Hq H. apply (f_equal toy_unhex) in H. rewrite !toy_unhex_hex in H by done. by injection H.
Qed.

(** Keys that are the context they are derived for; a ciphertext carries a check byte of its key. *)
Definition toy_check (bs : bytes) : Z := foldr Z.add 0 bs mod 256.
Definition toy_vetkeys : VetKeysLib := {|
  VetKey := bytes;
  DerivedPublicKey := bytes;
  IbeCiphertext := bytes;
  TransportSecretKey := bytes;
  EncryptedVetKey := bytes;
  DerivedPublicKey_deserialize := fun bs => Some bs;
  ibe_encrypt_serialize := fun dpk _ msg _ => toy_check dpk :: msg;
  IbeCiphertext_deserialize := fun bs => Some bs;
  ibe_decrypt := fun c vk => if nth 0 c 0 =? toy_check vk then Some (drop 1 c) else None;
  aes_encrypt := fun _ _ p => Some (p ++ replicate 16 0);
  aes_decrypt := fun _ _ c => Some (take (length c - 16) c);
  TransportSecretKey_from_seed := fun seed => seed;
  transport_public_key_of := fun seed => seed;
  EncryptedVetKey_deserialize := fun bs => Ok bs;
  decrypt_and_verify := fun evk _ dpk _ => if bool_decide (evk = dpk) then Ok evk else Err "mismatch"%string;
  vetkd_public_key := fun ctx _ => Ok ctx;
  vetkd_derive_key := fun ctx _ _ _ => Ok ctx;
  MasterPublicKey := bytes;
  master_key_for := fun _ => Some [];
  derive_canister_key := fun k c => k ++ c;
  derive_sub_key := fun k c => k ++ c;
|}.

Lemma toy_vetkeys_laws name : VetKeysLaws toy_vetkeys name.
Proof.
  split; cbn [VetKey DerivedPublicKey IbeCiphertext TransportSecretKey EncryptedVetKey DerivedPublicKey_deserialize
    ibe_encrypt_serialize IbeCiphertext_deserialize ibe_decrypt aes_encrypt aes_decrypt TransportSecretKey_from_seed
    transport_public_key_of EncryptedVetKey_deserialize decrypt_and_verify vetkd_public_key vetkd_derive_key toy_vetkeys].
  - eauto.
  - intros ctx pk dpk seed [= ->] [= ->]. exists dpk, dpk, dpk. by rewrite bool_decide_true.
  - intros pk ctx dpk enc evk tsk vk msg seed [= ->] [= ->] [= ->]. case_bool_decide; [|done]. intros [= <-].
    eexists. split; [done|]. subst. cbn [nth]. by rewrite Z.eqb_refl.
  - intros dpk msg seed Hm. cbn [length]. lia.
  - intros key nonce p _ _. eexists. split; [done|]. rewrite length_app, length_replicate. split; [done|].
    f_equal. by rewrite Nat.add_sub, take_app_length.
Qed.

#[local] Existing Instance toy_crypto.
#[local] Existing Instance toy_signatures.
#[local] Existing Instance toy_signatures_laws.
#[local] Existing Instance toy_vetkeys.

Definition toy_announced : StorageState :=
  (submit_announcement 5 (mkAnnouncementInput [1] [2; 3] (replicate 12 0)) storage_init).1.


(** Key 7 asks for its view key with nonce 1; a copy of the request is refused. *)
Definition toy_address : bytes := derive_address (7 : @SigningKey toy_signatures).
Definition toy_request : EncryptedViewKeyRequest :=
  mkRequest toy_address [9] 100 1
    (match sign_authorization (authorization_message [8] toy_address [9] 100 1) (7 : @SigningKey toy_signatures) with
     | Ok s => s | Err _ => [] end).

Definition toy_reply := request_encrypted_view_key [8] 50 toy_request (key_manager_init "k").
Definition toy_replay := request_encrypted_view_key [8] 50 toy_request toy_reply.1.


Lemma unsigned_request_locks_address_witness :
  let '(s', reply) := request_encrypted_view_key [8] 50 (mkRequest toy_address [] 100 u64_max [])
                        (Some (mkKeyManagerState "k" ∅)) in
  is_ok reply = false
  /\ forall tr s'' request r, km_run [8] s' tr s'' -> (request, r) ∈ tr ->
       rq_address request = toy_address -> in_u64 (rq_nonce request) -> is_ok r = false.
Proof.
  apply (unsigned_request_locks_address [8] (mkKeyManagerState "k" ∅) 50 (mkRequest toy_address [] 100 u64_max []));
    [vm_compute; reflexivity | cbn; lia | reflexivity | cbn; lia].
Defined.
