(* ===== verification/Cli.v ===== *)
(** The command line ([cli/src]): configuration and number parsing, the private
    transfer, the scan for received transfers, and the commands around invoices and
    redemption.

    A command is a computation on the services it calls: the canisters of [Storage],
    the indexer and the hub of [Teleport], and the contracts of [OnChain].  Printing
    and progress output are omitted; an [anyhow] error is the message of its outermost context. *)

From S2P Require Import Prelude Words Text Crypto BitPaths MerkleTrees Gadgets Circuits Database OnChain TreeDb Events Leases Jobs Teleport Payment Storage.
From Stdlib Require Import Ascii.
Local Open Scope Z_scope.

(** [with_context]. *)
Definition context {E A} (message : string) (r : result E A) : result string A := map_err (fun _ => message) r.
Definition context_M {S E A} (message : string) (m : M S E A) : M S string A := map_err_M (fun _ => message) m.

(** ** [shared.rs] *)

Definition find_token_by_chain (tokens : list TokenEntry) (chain_id : Z) : result string TokenEntry :=
  match filter (fun token => te_chain_id token = chain_id) tokens with
  | [] => Err "no tokens configured for chain id"
  | [entry] => Ok entry
  | _ => Err "multiple tokens configured for chain id"
  end.

Section parsing.
Context {L : SignatureLib}.
(** [BigUint::from_str]. *)
Variable parse_biguint : string -> option Z.

(** [BigUint::to_bytes_be]: no leading zero byte, except for zero itself. *)
Fixpoint significant_bytes (bs : bytes) : bytes :=
  match bs with
  | [] => []
  | b :: bs' => if b =? 0 then significant_bytes bs' else bs
  end.
Definition to_bytes_be (x : Z) : bytes :=
  if x =? 0 then [0] else significant_bytes (be_bytes (Z.to_nat (Z.log2 x / 8 + 1)) x).

(** [strip_prefix("0x").or_else(strip_prefix("0X"))]. *)
Definition strip_hex_prefix (s : string) : option string :=
  match strip_0x s with
  | Some h => Some h
  | None =>
    match s with
    | String a (String b s') => if bool_decide (a = "0"%char) && bool_decide (b = "X"%char) then Some s' else None
    | _ => None
    end
  end.

Definition fill_to_32 (bs : bytes) : bytes := replicate (32 - length bs) 0 ++ bs.

Definition parse_b256 (value : string) : result string Z :=
  let trimmed := trim value in
  if bool_decide (trimmed = EmptyString) then Ok 0
  else
    bs ← (match strip_hex_prefix trimmed with
          | Some hex_str =>
            let normalized := if (String.length hex_str mod 2 =? 1)%nat then String "0" hex_str else hex_str in
            ok_or "invalid hex" (hex_decode normalized)
          | None => to_bytes_be <$> ok_or "invalid digit" (parse_biguint trimmed)
          end);
    if (32 <? length bs)%nat then Err "value does not fit into 256 bits"
    else Ok (be_val (fill_to_32 bs)).

Definition parse_hex_to_u256 (hex_str : string) : result string Z :=
  if bool_decide (hex_str = EmptyString) then Ok 0
  else
    bs ← ok_or "invalid hex" (hex_decode hex_str);
    if (32 <? length bs)%nat then Err "hex value does not fit into 256 bits"
    else Ok (be_val (fill_to_32 bs)).

Definition bigint_to_u256 (value : Z) : result string Z :=
  let bs := to_bytes_be value in
  if (32 <? length bs)%nat then Err "decimal value does not fit into 256 bits"
  else Ok (be_val (fill_to_32 bs)).

Definition cli_parse_u256 (value : string) : result string Z :=
  let trimmed := trim value in
  match strip_hex_prefix trimmed with
  | Some hex => parse_hex_to_u256 hex
  | None => bigint ← ok_or "invalid digit" (parse_biguint trimmed); bigint_to_u256 bigint
  end.

(** [main.rs] *)
Definition cli_parse_private_key (input : string) : result string Z :=
  let normalized := default (trim input) (strip_0x (trim input)) in
  bs ← ok_or "failed to decode private key hex" (hex_decode normalized);
  if negb (length bs =? 32)%nat then Err "private key must be 32 bytes"
  else Ok (be_val bs).
End parsing.

(** [cli_load_tokens_config] of a parsed file. *)
Definition cli_load_tokens_config (tokens_file : TokensFile) : result string (list TokenEntry * option HubEntry) :=
  tokens_file ← context "invalid tokens config" (TokensFile_normalize tokens_file);
  tokens ← map_result (fun token => context "invalid token entry" (TokenEntry_normalize token)) (tf_tokens tokens_file);
  Ok (tokens, tf_hub tokens_file).

(** ** [private_transfer.rs] *)

Record PrivateTransferArgs := mkPrivateTransferArgs {
  pt_chain_id : Z;
  pt_to : Z;
  pt_to_chain_id : Z;
  pt_amount : Z;
}.

(** The ERC-20 transfer a command submits last. *)
Record SubmittedTransfer := mkSubmittedTransfer {
  sub_token : TokenEntry;
  sub_to : Z;
  sub_amount : Z;
}.

(** What the random generators of one command produced. *)
Record Randomness := mkRandomness {
  rnd_advice_id : bytes;
  rnd_ibe_seed : bytes;
  rnd_session_key : bytes;
  rnd_nonce : bytes;
}.

Definition map_error {E A} (r : result E A) : result string A := map_err (fun _ => "error"%string) r.

Section commands.
Context {C : Crypto} {V : VetKeysLib} {L : SignatureLib} {Sg : Signer}.
Variable SEED_MESSAGE : bytes.

(** The calls of [run], with the key manager's state [km] and the canister's clock [time];
    [fuel] bounds the proof-of-work search. *)
Definition private_transfer (fuel : nat) (km : option KeyManagerState) (time : Z) (args : PrivateTransferArgs)
  (tokens : list TokenEntry) (private_key : Z) (rnd : Randomness) : M StorageState string (Announcement * SubmittedTransfer) :=
  lift (find_token_by_chain tokens (pt_chain_id args)) ≫= fun entry =>
  let payment_advice_id := random_payment_advice_id (rnd_advice_id rnd) in
  lift (context "failed to derive seed from signature" (compute_seed_from_signature SEED_MESSAGE private_key)) ≫= fun seed =>
  lift (ok_or "out of fuel" (payment_advice fuel payment_advice_id seed (pt_to_chain_id args) (pt_to args))) ≫= fun secret_and_tweak =>
  lift (map_error (FullBurnAddress_new (pt_to_chain_id args) (pt_to args) secret_and_tweak)) ≫= fun burn_payload =>
  lift (context "failed to derive burn address for private transfer" (burn_address burn_payload)) ≫= fun burn_address =>
  let burn_payload_bytes := FullBurnAddress_to_bytes burn_payload in
  lift (context "failed to query view public key for recipient" (client_get_view_public_key (address_bytes (pt_to args)) km)) ≫= fun view_public_key =>
  lift (context "failed to encrypt FullBurnAddress payload"
          (encrypt_payload (rnd_ibe_seed rnd) (rnd_session_key rnd) (rnd_nonce rnd) view_public_key burn_payload_bytes)) ≫= fun announcement_input =>
  context_M "failed to submit encrypted FullBurnAddress to storage canister" (client_submit_announcement time announcement_input) ≫= fun announcement =>
  mret (announcement, mkSubmittedTransfer entry burn_address (pt_amount args)).

(** ** [scan_receive_transfers.rs] *)

Record ScannedTransfer := mkScannedTransfer {
  sc_id : Z;
  sc_recipient_chain_id : Z;
  sc_recipient_address : string;
  sc_burn_address : string;
  sc_full_burn_address_hex : string;
  sc_created_at_ns : Z;
}.

(** [Address::from_word]: the last 20 bytes. *)
Definition recipient_address_from_payload (burn : FullBurnAddress) : Z := gr_address (fb_gr burn) mod 2 ^ 160.
Definition is_recipient (burn : FullBurnAddress) (recipient : Z) : bool := recipient_address_from_payload burn =? recipient.
Definition recipient_address_string (burn : FullBurnAddress) : string := Address_to_string (recipient_address_from_payload burn).

(** The body of the loop over the decrypted entries; [None] is a [continue]. *)
Definition scan_entry (recipient_address : Z) (entry : DecryptedAnnouncement) : option ScannedTransfer :=
  match FullBurnAddress_from_bytes (da_plaintext entry) with
  | Err _ => None
  | Ok burn_payload =>
    if negb (is_recipient burn_payload recipient_address) then None
    else match burn_address burn_payload with
         | Err _ => None
         | Ok burn =>
           Some (mkScannedTransfer (da_id entry) (gr_chain_id (fb_gr burn_payload)) (recipient_address_string burn_payload)
                   (Address_to_string burn) ("0x" +:+ hex_encode (da_plaintext entry)) (da_created_at_ns entry))
         end
  end.

(** The paging loop.  [view k] is the storage canister's state when it answers the [k]-th query; [None]
    is an exhausted fuel. *)
Fixpoint scan_pages (fuel : nat) (view : nat -> StorageState) (k : nat) (vet_key : VetKey) (recipient_address page_size : Z)
  (start_after : option Z) (saved : list ScannedTransfer) : option (result string (list ScannedTransfer)) :=
  match fuel with
  | O => None
  | S fuel' =>
    let page := list_announcements start_after (Some page_size) (view k) in
    match announcements page with
    | [] => Some (Ok saved)
    | _ =>
      match scan_announcements vet_key (announcements page) with
      | Err _ => Some (Err "failed to decrypt announcements")
      | Ok decrypted =>
        let saved' := saved ++ omap (scan_entry recipient_address) decrypted in
        let start_after' := an_id <$> last (announcements page) in
        match page_next_id page with
        | None => Some (Ok saved')
        | Some _ => scan_pages fuel' view (k + 1) vet_key recipient_address page_size start_after' saved'
        end
      end
    end
  end.

Definition cli_signing_key_from_b256 (secret : Z) : result string SigningKey :=
  ok_or "failed to derive signing key from PRIVATE_KEY" (SigningKey_from_bytes (b256_bytes secret)).

Record ScanArgs := mkScanArgs { sa_page_size : Z; sa_authorization_ttl_seconds : Z }.

(** The part of [run] before the loop: the view key.  [now_ns] is the client's clock, [canister_now] the key
    manager's when it serves the request, [seed] the transport key's. *)
Definition obtain_view_key (key_manager_canister_id : bytes) (now_ns canister_now : Z) (args : ScanArgs) (signing_key : SigningKey)
  (seed : bytes) : M (option KeyManagerState) string VetKey :=
  let address_bytes := derive_address signing_key in
  get ≫= fun km =>
  lift (context "failed to query view public key" (client_get_view_public_key address_bytes km)) ≫= fun view_public_key =>
  let transport := prepare_transport_key seed in
  let expiry_ns := saturating_add_u64 now_ns (saturating_mul_u64 (sa_authorization_ttl_seconds args) 1000000000) in
  lift (context "failed to query max nonce" (client_get_max_nonce address_bytes km)) ≫= fun max_nonce =>
  let nonce := saturating_add_u64 max_nonce 1 in
  let auth_message := authorization_message key_manager_canister_id address_bytes (public transport) expiry_ns nonce in
  lift (context "failed to sign authorization request" (sign_authorization auth_message signing_key)) ≫= fun signature =>
  let request := mkRequest address_bytes (public transport) expiry_ns nonce signature in
  context_M "failed to request encrypted view key"
    (client_request_encrypted_view_key key_manager_canister_id canister_now request) ≫= fun encrypted_key =>
  lift (context "failed to decrypt vet key response" (decrypt_vet_key encrypted_key view_public_key (secret transport))).

Definition scan_receive_transfers (fuel : nat) (key_manager_canister_id : bytes) (now_ns canister_now : Z) (args : ScanArgs)
  (private_key : Z) (seed : bytes) (view : nat -> StorageState) : M (option KeyManagerState) string (list ScannedTransfer) :=
  lift (cli_signing_key_from_b256 private_key) ≫= fun signing_key =>
  let recipient_address := be_val (derive_address signing_key) in
  obtain_view_key key_manager_canister_id now_ns canister_now args signing_key seed ≫= fun vet_key =>
  lift (default (Err "out of fuel")
          (scan_pages fuel view 0 vet_key recipient_address (sa_page_size args) None [])).

(** The output file: missing, empty, not the JSON of transfers, or their list. *)
Inductive ScanFile := NoFile | EmptyFile | BadFile | TransfersFile (l : list ScannedTransfer).

(** The loop over the new transfers: the ids seen, the entries and whether they changed. *)
Fixpoint merge_transfers (seen_ids : list Z) (existing : list ScannedTransfer) (modified : bool) (transfers : list ScannedTransfer)
  : list ScannedTransfer * bool :=
  match transfers with
  | [] => (existing, modified)
  | transfer :: rest =>
    if bool_decide (sc_id transfer ∈ seen_ids) then merge_transfers seen_ids existing modified rest
    else merge_transfers (sc_id transfer :: seen_ids) (existing ++ [transfer]) true rest
  end.

Definition write_results (file : ScanFile) (transfers : list ScannedTransfer) : result string ScanFile :=
  existing ← (match file with
              | NoFile | EmptyFile => Ok []
              | BadFile => Err "failed to parse existing scanned transfers"
              | TransfersFile l => Ok l
              end);
  let '(existing, modified) := merge_transfers (sc_id <$> existing) existing false transfers in
  let modified := match file, transfers with NoFile, [] => true | _, _ => modified end in
  Ok (if modified then TransfersFile existing else file).

(** ** [receive_transfer.rs]: which burn address is redeemed *)

Record ReceiveTransferArgs := mkReceiveTransferArgs {
  ra_full_burn_address : option string;
  ra_announcement_id : option Z;
}.

(** [trim_start_matches("0x")] strips the prefix as often as it occurs. *)
Fixpoint trim_start_0x (fuel : nat) (s : string) : string :=
  match fuel with
  | O => s
  | S fuel' => match strip_0x s with Some s' => trim_start_0x fuel' s' | None => s end
  end.

Definition decode_full_burn_address (input : string) : result string bytes :=
  let trimmed := trim_start_0x (String.length input) (trim input) in
  ok_or "failed to decode FullBurnAddress hex" (hex_decode trimmed).

Definition load_scanned_transfer (file : ScanFile) (id : Z) : result string ScannedTransfer :=
  entries ← (match file with
             | NoFile => Err "failed to open scanned transfers file"
             | EmptyFile | BadFile => Err "failed to parse scanned transfers JSON"
             | TransfersFile l => Ok l
             end);
  ok_or "announcement id not found" (List.find (fun entry => sc_id entry =? id) entries).

Definition resolve_full_burn_address (args : ReceiveTransferArgs) (scan_results : ScanFile) : result string bytes :=
  match ra_full_burn_address args with
  | Some hex => decode_full_burn_address hex
  | None =>
    announcement_id ← ok_or "announcement_id must be provided if full_burn_address is omitted" (ra_announcement_id args);
    transfer ← load_scanned_transfer scan_results announcement_id;
    decode_full_burn_address (sc_full_burn_address_hex transfer)
  end.
End commands.
