(* ===== verification/CliSpec.v ===== *)
(** What the command line achieves: the scan over pages finds every announcement once, and a
    private transfer reaches its recipient. *)

From stdpp Require Import relations.
From Stdlib Require Import Ascii.
From S2P Require Import Prelude Words Text Crypto BitPaths MerkleTrees Gadgets Circuits Database OnChain TreeDb Events Leases Jobs Teleport Payment Storage StorageSpec Cli.
Local Open Scope Z_scope.

(** ** Scanning *)

Section scan.
Context {C : Crypto} {V : VetKeysLib} {L : SignatureLib}.

(** What one announcement contributes to the scan of [recipient] with [vet_key]. *)
Definition found (vet_key : VetKey) (recipient : Z) (a : Announcement) : option ScannedTransfer :=
  match decrypt_announcement vet_key a with
  | Ok message => scan_entry recipient message
  | Err _ => None
  end.

(** A failed decryption is always a miss, so that the scan never stops at it. *)
Lemma decrypt_errors vet_key a e : decrypt_announcement vet_key a = Err e -> exists reason, e = AnnouncementIgnored reason.
Proof.
  unfold decrypt_announcement, ok_or, mbind, result_bind.
  repeat case_match; intros H'; try discriminate; injection H' as <-; eauto; simplify_eq/=; eauto.
Qed.

Lemma scan_announcements_spec vet_key recipient items :
  exists decrypted, scan_announcements vet_key items = Ok decrypted
    /\ omap (scan_entry recipient) decrypted = omap (found vet_key recipient) items.
Proof.
  induction items as [|a items (ds & Hs & Ho)]; [by exists []|]. cbn [scan_announcements].
  destruct (decrypt_announcement vet_key a) as [m|e] eqn:E.
  - rewrite Hs. exists (m :: ds). split; [done|]. cbn [omap list_omap]. unfold found at 1. rewrite E.
    by destruct (scan_entry recipient m); [f_equal|].
  - destruct (decrypt_errors _ _ _ E) as [reason ->]. exists ds. split; [done|].
    cbn [omap list_omap]. unfold found at 1. by rewrite E.
Qed.

Lemma scan_entry_id recipient m t : scan_entry recipient m = Some t -> sc_id t = da_id m.
Proof. unfold scan_entry. by repeat case_match; intros [= <-]. Qed.

Lemma found_id vet_key recipient a t : found vet_key recipient a = Some t -> sc_id t = an_id a.
Proof.
  unfold found. destruct (decrypt_announcement vet_key a) as [m|] eqn:E; [|done]. intros ->%scan_entry_id.
  revert E. unfold decrypt_announcement, ok_or, mbind, result_bind. by repeat case_match; intros [= <-].
Qed.

Lemma last_take_drop {A} (l : list A) n p x :
  last (take p (drop n l)) = Some x -> l !! (n + length (take p (drop n l)) - 1)%nat = Some x.
Proof.
  rewrite last_lookup. intros H. pose proof (lookup_lt_Some _ _ _ H) as Hl.
  apply lookup_take_Some in H as [H _]. rewrite lookup_drop in H.
  by replace (n + length (take p (drop n l)) - 1)%nat with (n + Nat.pred (length (take p (drop n l))))%nat by lia.
Qed.

Lemma page_of_prefix {A} (l : list A) n p q : (n + p <= q)%nat -> take p (drop n (take q l)) = take p (drop n l).
Proof. intros H. by rewrite !take_drop_commute, take_take, Nat.min_l. Qed.

(** The marker after [n] announcements. *)
Definition marker (n : nat) : option Z := if (n =? 0)%nat then None else Some (Z.of_nat n - 1).
Lemma skipped_marker n : skipped 0 (marker n) = n.
Proof. unfold skipped, marker. destruct (Nat.eqb_spec n 0); lia. Qed.

(** The states the queries see: each extends the one before, and all are below [log]. *)
Definition growing (view : nat -> StorageState) (log : list Announcement) : Prop :=
  forall k, st_announcements (view k) `prefix_of` st_announcements (view (S k)) /\ st_announcements (view k) `prefix_of` log.

Lemma scan_pages_spec view log vet_key recipient page_size :
  growing view log -> ids_from 0 log -> 1 <= page_size ->
  forall fuel k n saved, (n <= length log)%nat -> (length log - n < fuel)%nat ->
  exists m, (n <= m <= length log)%nat /\ (length (st_announcements (view k)) <= m)%nat
    /\ scan_pages fuel view k vet_key recipient page_size (marker n) saved
       = Some (Ok (saved ++ omap (found vet_key recipient) (drop n (take m log)))).
Proof.
  intros Hg Hids Hps. induction fuel as [|fuel IH]; intros k n saved Hn Hf; [lia|]. cbn [scan_pages].
  destruct (Hg k) as [Hk Hk']. set (A := st_announcements (view k)) in *.
  assert (A = take (length A) log) as HA by (destruct Hk' as [r ->]; by rewrite take_app_length).
  pose proof (prefix_length _ _ Hk') as HlA.
  rewrite list_announcements_spec by (fold A; rewrite HA; by apply ids_from_take). fold A.
  rewrite skipped_marker. cbn [announcements page_next_id].
  set (lim := page_limit (Some page_size)). assert (1 <= lim)%nat as Hlim by (unfold lim, page_limit, MAX_LIST_LIMIT; cbn; lia).
  destruct (scan_announcements_spec vet_key recipient (take lim (drop n A))) as (ds & -> & Hds).
  destruct (take lim (drop n A)) as [|a0 page'] eqn:Ep.
  { exists n. assert (length A <= n)%nat.
    { apply (f_equal length) in Ep. rewrite length_take, length_drop in Ep. cbn in Ep. lia. }
    rewrite drop_ge by (rewrite length_take; lia). by rewrite app_nil_r. }
  rewrite <- Ep in *. rewrite Hds. clear Hds ds.
  destruct (drop n A !! lim) as [nx|] eqn:En; cbn [fmap option_fmap option_map].
  - assert (n + lim < length A)%nat as Hlt by (apply lookup_lt_Some in En; rewrite length_drop in En; lia).
    destruct (last (take lim (drop n A))) as [la|] eqn:El; [|apply last_None in El; congruence].
    pose proof (last_take_drop _ _ _ _ El) as Hla.
    rewrite length_take, length_drop, Nat.min_l in Hla by lia.
    assert (an_id la = Z.of_nat (n + lim) - 1) as Hid.
    { rewrite HA in Hla. apply lookup_take_Some in Hla as [Hla _]. rewrite (Hids _ _ Hla). lia. }
    cbn [fmap option_fmap option_map]. rewrite Hid.
    replace (Some (Z.of_nat (n + lim) - 1)) with (marker (n + lim))
      by (unfold marker; destruct (Nat.eqb_spec (n + lim) 0); [lia|done]).
    destruct (IH (k + 1)%nat (n + lim)%nat (saved ++ omap (found vet_key recipient) (take lim (drop n A)))) as (m & Hm & Hmk & ->);
      [lia..|].
    exists m. split; [lia|]. split.
    { replace (k + 1)%nat with (S k) in Hmk by lia. apply prefix_length in Hk. lia. }
    do 2 f_equal. rewrite <- app_assoc. f_equal. rewrite <- omap_app. f_equal.
    rewrite HA, page_of_prefix, <- (page_of_prefix log n lim m), <- drop_drop by lia. by rewrite take_drop.
  - exists (length A). split; [|split; [done|]].
    { apply (f_equal length) in Ep. rewrite length_take, length_drop in Ep. cbn in Ep. lia. }
    rewrite take_ge by (by apply lookup_ge_None). by rewrite <- HA.
Qed.

(** C27: The scan for received transfers reads the announcement log exactly once, in order, whatever the page size and
    although announcements arrive while it runs: it terminates within one query per announcement, no undecryptable or
    foreign announcement stops it, and it returns what each announcement of a prefix of the log contributes, a prefix
    that contains everything announced before the first query; on a log at rest the result does not depend
    on the page size, and a page size of 0 finds nothing. *)
Theorem scan_reads_log_once view log vet_key recipient page_size fuel :
  growing view log -> ids_from 0 log -> 0 <= page_size -> (length log < fuel)%nat ->
  exists n, (n <= length log)%nat
    /\ scan_pages fuel view 0 vet_key recipient page_size None []
       = Some (Ok (omap (found vet_key recipient) (take n log)))
    /\ (1 <= page_size -> (length (st_announcements (view 0%nat)) <= n)%nat)
    /\ (page_size = 0 -> n = 0%nat)
    /\ (1 <= page_size -> (forall k, st_announcements (view k) = log) -> n = length log).
Proof.
  intros Hg Hids Hps Hf. destruct (decide (1 <= page_size)) as [H1|H0].
  - destruct (scan_pages_spec view log vet_key recipient page_size Hg Hids H1 fuel 0 0 []) as (n & Hn & Hv & He); [lia..|].
    exists n. change (marker 0) with (@None Z) in He. rewrite He. cbn [app]. rewrite drop_0.
    split_and!; [lia | done | lia | lia |]. intros _ Hall. rewrite (Hall 0%nat) in Hv. lia.
  - exists 0%nat. split_and!; [lia | | lia | lia | lia].
    destruct fuel as [|fuel]; [lia|]. cbn [scan_pages].
    destruct (Hg 0%nat) as [_ [r Hr]].
    rewrite list_announcements_spec by (intros i a Hi; apply Hids; rewrite Hr; by apply lookup_app_l_Some).
    replace (page_limit (Some page_size)) with 0%nat by (unfold page_limit, MAX_LIST_LIMIT; cbn; lia). done.
Qed.
End scan.

(** ** From the sender to the recipient *)

Lemma hex_digits_solid s : hex_digits s = true -> solid s = true.
Proof.
  induction s as [|a s IH]; cbn; [done|]. intros [Ha Hs]%andb_true_iff. rewrite (IH Hs), andb_true_r.
  unfold is_space. case_bool_decide as E; [|done]. unfold is_hex_digit in Ha.
  set (n := nat_of_ascii a) in *. assert (n = 9 \/ n = 10 \/ n = 11 \/ n = 12 \/ n = 13 \/ n = 32)%nat as H.
  { revert E. rewrite !elem_of_cons, elem_of_nil. lia. }
  by destruct H as [H|[H|[H|[H|[H|H]]]]]; rewrite H in Ha.
Qed.

Lemma hex_digits_no_prefix s : hex_digits s = true -> strip_0x s = None.
Proof.
  destruct s as [|a [|b s]]; [done..|]. cbn [hex_digits strip_0x]. intros [_ [Hb _]%andb_true_iff]%andb_true_iff.
  rewrite (bool_decide_false (b = "x"%char)); [by rewrite andb_false_r|]. by intros ->.
Qed.

Section delivery.
Context {C : Crypto} {HC : CryptoLaws C} {V : VetKeysLib} {L : SignatureLib} {HL : SignatureLaws C L} {Sg : Signer}.
Context (SEED_MESSAGE : bytes) (name : string) {HV : VetKeysLaws V name}.

(** The hex text written by the scan decodes to the announced payload. *)
Lemma decode_scanned bs : Forall in_u8 bs -> decode_full_burn_address ("0x" +:+ hex_encode bs) = Ok bs.
Proof.
  intros Hbs. pose proof (hex_encode_digits bs) as Hd. unfold decode_full_burn_address.
  assert (solid ("0x" +:+ hex_encode bs) = true) as Hs.
  { change (solid ("0x" +:+ hex_encode bs)) with (negb (is_space "0") && (negb (is_space "x") && solid (hex_encode bs))).
    by rewrite (hex_digits_solid _ Hd). }
  rewrite trim_solid by done.
  change (String.length ("0x" +:+ hex_encode bs)) with (S (S (String.length (hex_encode bs)))).
  cbn [trim_start_0x]. change (strip_0x ("0x" +:+ hex_encode bs)) with (Some (hex_encode bs)). cbn beta iota.
  rewrite (hex_digits_no_prefix _ Hd). by rewrite hex_decode_encode.
Qed.

Lemma derive_address_length sk : length (derive_address sk) = 20%nat.
Proof. unfold derive_address. by rewrite length_drop, keccak256_length. Qed.
Lemma derive_address_bytes sk : Forall in_u8 (derive_address sk).
Proof. apply Forall_drop, keccak256_bytes. Qed.

(** A signed request with a fresh nonce is answered with the derived key. *)
Lemma request_honest self now sk tpk expiry nonce sig st :
  sign_authorization (authorization_message self (derive_address sk) tpk expiry nonce) sk = Ok sig ->
  now <= expiry -> max_nonce (Some st) (derive_address sk) < nonce ->
  (request_encrypted_view_key self now (mkRequest (derive_address sk) tpk expiry nonce sig) (Some st)).2
  = vetkd_derive_key (context_for_address (derive_address sk)) [] (key_id_name st) tpk.
Proof.
  intros Hsig Hnow Hn. unfold sign_authorization in Hsig.
  destruct (sign_prehash_recoverable sk _) as [[sg v]|] eqn:Es; [|done].
  cbn [map_err mbind result_bind] in Hsig. injection Hsig as <-.
  destruct (recover_signed sk _ sg v (keccak256_length _) Es) as (_ & Hv & s & Hraw & Hrec).
  unfold request_encrypted_view_key, record_nonce, to_address, with_state, get, modify, lift, fail, mbind, M_bind.
  cbn [rq_address rq_transport_public_key rq_expiry_ns rq_nonce rq_signature]. rewrite derive_address_length, Nat.eqb_refl.
  cbv beta iota delta [ok_or fmap option_fmap option_map]. rewrite (proj2 (Z.ltb_ge _ _)) by done.
  unfold max_nonce in Hn. cbn [mbind option_bind] in Hn. rewrite (proj2 (Z.leb_gt _ _)) by done.
  unfold recover_address_from_signature, saturating_add_u8. rewrite Z.min_l by lia. rewrite Hraw.
  cbn [map_err mbind result_bind]. rewrite Hrec. cbn [map_err]. by rewrite bool_decide_true.
Qed.

(** A vet key that opens what is encrypted to the view key of [address]. *)
Definition view_key_of (address : bytes) (pk : bytes) (dpk : DerivedPublicKey) (vk : VetKey) : Prop :=
  vetkd_public_key (context_for_address address) name = Ok pk /\ DerivedPublicKey_deserialize pk = Some dpk
  /\ exists enc evk tsk, EncryptedVetKey_deserialize enc = Ok evk /\ decrypt_and_verify evk tsk dpk [] = Ok vk.

Lemma obtain_view_key_ok self now_ns canister_now args sk seed st :
  key_id_name st = name -> 0 <= max_nonce (Some st) (derive_address sk) < u64_max ->
  (forall digest, length digest = 32%nat -> is_ok (sign_prehash_recoverable sk digest) = true) ->
  canister_now <= saturating_add_u64 now_ns (saturating_mul_u64 (sa_authorization_ttl_seconds args) 1000000000) ->
  exists km' pk dpk vk, obtain_view_key self now_ns canister_now args sk seed (Some st) = (km', Ok vk)
    /\ view_key_of (derive_address sk) pk dpk vk.
Proof.
  intros Hname Hmax Hsign Hexp. set (a := derive_address sk) in *.
  destruct (vetkd_available (name := name) (context_for_address a)) as (pk & dpk & Hpk & Hdpk).
  destruct (vetkd_delivers (context_for_address a) pk dpk seed Hpk Hdpk) as (enc & evk & vk & Hd & He & Hv).
  unfold obtain_view_key. cbv zeta. fold a.
  assert (to_address a = Ok a) as Ha by (unfold to_address, a; by rewrite derive_address_length).
  erewrite M_bind_run by reflexivity.
  erewrite M_bind_run by (apply lift_run; unfold client_get_view_public_key, get_view_public_key, with_state;
    rewrite Ha; cbn [mbind result_bind fmap option_fmap option_map ok_or]; rewrite Hname, Hpk; reflexivity).
  erewrite M_bind_run by (apply lift_run; unfold client_get_max_nonce, get_max_nonce, with_state;
    rewrite Ha; cbn [mbind result_bind fmap option_fmap option_map ok_or]; reflexivity).
  set (n := default 0 _). assert (saturating_add_u64 n 1 = n + 1) as ->.
  { unfold saturating_add_u64. apply Z.min_l. change n with (max_nonce (Some st) a). unfold u64_max in *. lia. }
  set (expiry := saturating_add_u64 _ _) in *. cbn [public secret prepare_transport_key].
  set (tsk := TransportSecretKey_from_seed seed) in *. set (tpk := transport_public_key_of tsk) in *.
  destruct (sign_authorization (authorization_message self a tpk expiry (n + 1)) sk) as [sig|e] eqn:Hsig.
  2: { exfalso. revert Hsig. unfold sign_authorization.
       specialize (Hsign (keccak256 (authorization_message self a tpk expiry (n + 1))) (keccak256_length _)).
       by destruct (sign_prehash_recoverable _ _) as [[]|]. }
  erewrite M_bind_run by (by apply lift_run; unfold context).
  pose proof (request_honest self canister_now sk tpk expiry (n + 1) sig st Hsig Hexp) as Hr. fold a in Hr.
  rewrite Hname, Hd in Hr. specialize (Hr ltac:(change n with (max_nonce (Some st) a); lia)).
  destruct (request_encrypted_view_key self canister_now (mkRequest a tpk expiry (n + 1) sig) (Some st)) as [km' r] eqn:Eq.
  cbn [snd] in Hr. subst r. exists km', pk, dpk, vk. split; [|split; [done|]; split; [done|]; by exists enc, evk, tsk].
  erewrite M_bind_run by (unfold context_M, map_err_M, client_request_encrypted_view_key; rewrite Eq; reflexivity).
  apply lift_run. unfold decrypt_vet_key. rewrite He. cbn [map_err mbind result_bind]. rewrite Hdpk. cbn [ok_or mbind result_bind].
  by rewrite Hv.
Qed.

(** What the recipient's key makes of an announcement encrypted to it. *)
Lemma decrypt_own address pk dpk vk ibe_seed session nonce plaintext input id time :
  view_key_of address pk dpk vk -> length session = 32%nat -> length nonce = 12%nat ->
  encrypt_payload ibe_seed session nonce pk plaintext = Ok input ->
  decrypt_announcement vk (mkAnnouncement id (ai_ibe_ciphertext input) (ai_ciphertext input) (ai_nonce input) time)
  = Ok (mkDecryptedAnnouncement id plaintext time).
Proof.
  intros (Hpk & Hdpk & enc & evk & tsk & He & Hv) Hs Hn. unfold encrypt_payload. rewrite Hdpk. cbn [ok_or mbind result_bind].
  destruct (aes_correct (VetKeysLaws := HV) session nonce plaintext Hs Hn) as (c & -> & _ & Hdec). cbn [ok_or mbind result_bind].
  intros [= <-]. unfold decrypt_announcement. cbn [an_ibe_ciphertext an_ciphertext an_nonce an_id an_created_at_ns ai_ibe_ciphertext ai_ciphertext ai_nonce].
  destruct (ibe_correct (VetKeysLaws := HV) pk _ dpk enc evk tsk vk session ibe_seed Hpk Hdpk He Hv) as (ct & -> & Hct).
  cbn [ok_or mbind result_bind]. rewrite Hct. cbn [ok_or mbind result_bind]. unfold SESSION_KEY_LEN, NONCE_LEN.
  rewrite Hs, Hn, !Nat.eqb_refl. cbn [negb]. by rewrite Hdec.
Qed.

Lemma encrypt_ok pk dpk ibe_seed session nonce plaintext :
  DerivedPublicKey_deserialize pk = Some dpk -> length session = 32%nat -> length nonce = 12%nat ->
  Z.of_nat (length plaintext) <= 16000 ->
  exists input, encrypt_payload ibe_seed session nonce pk plaintext = Ok input /\ validate_announcement input = Ok tt.
Proof.
  intros Hd Hs Hn Hp. unfold encrypt_payload. rewrite Hd. cbn [ok_or mbind result_bind].
  destruct (aes_correct (VetKeysLaws := HV) session nonce plaintext Hs Hn) as (c & -> & Hc & _). cbn [ok_or mbind result_bind].
  eexists. split; [done|]. apply validate_ok. cbn [ai_ibe_ciphertext ai_ciphertext ai_nonce].
  pose proof (ibe_length (VetKeysLaws := HV) dpk session ibe_seed Hs). rewrite Hc. lia.
Qed.

(** The payload of a private transfer: its encoding, its recipient and its burn address. *)
Lemma advice_payload fuel advice_id seed chain_id address st :
  in_u64 chain_id -> in_u160 address -> payment_advice fuel advice_id seed chain_id address = Some st ->
  exists b burn, FullBurnAddress_new chain_id address st = Ok b /\ fb_gr b = new_evm chain_id address (st_tweak st)
    /\ FullBurnAddress_from_bytes (FullBurnAddress_to_bytes b) = Ok b
    /\ Forall in_u8 (FullBurnAddress_to_bytes b) /\ burn_address b = Ok burn.
Proof.
  intros Hc Ha Hst. destruct (derive_ok fuel (DAdvice advice_id) seed chain_id address st Hst) as (Hs & Ht & Hok).
  unfold FullBurnAddress_new, burn_address. cbv zeta. rewrite Hok. cbn [map_err mbind result_bind].
  set (b := mkFullBurnAddress _ _). exists b. eexists. split; [done|]. split; [done|].
  split.
  { apply burn_from_to_bytes. split_and!; try done. revert Ha. unfold in_u160, in_u256. cbn. lia. }
  split.
  { unfold FullBurnAddress_to_bytes. repeat apply Forall_app_2; try apply be_bytes_bytes.
    repeat constructor; unfold in_u8, FULL_BURN_ADDRESS_VERSION; lia. }
  cbn [fb_gr fb_secret b]. rewrite Hok. reflexivity.
Qed.

Lemma scan_entry_own address b burn id time :
  in_u160 address -> gr_address (fb_gr b) = address ->
  FullBurnAddress_from_bytes (FullBurnAddress_to_bytes b) = Ok b -> burn_address b = Ok burn ->
  exists t, scan_entry address (mkDecryptedAnnouncement id (FullBurnAddress_to_bytes b) time) = Some t
    /\ sc_id t = id /\ sc_full_burn_address_hex t = ("0x" +:+ hex_encode (FullBurnAddress_to_bytes b))%string.
Proof.
  intros Ha Hb Hrt Hburn. unfold scan_entry. cbn [da_plaintext da_id da_created_at_ns]. rewrite Hrt.
  unfold is_recipient, recipient_address_from_payload. rewrite Hb, Z.mod_small, Z.eqb_refl by exact Ha. cbn [negb].
  rewrite Hburn. by eexists.
Qed.

(** In the file the scan writes, the entry of an announcement is found under its identifier. *)
Lemma merge_fresh ts : forall seen existing modified,
  NoDup (sc_id <$> ts) -> (forall t, t ∈ ts -> sc_id t ∉ seen) ->
  (merge_transfers seen existing modified ts).1 = existing ++ ts.
Proof.
  induction ts as [|t ts IH]; intros seen existing modified; cbn; [by rewrite app_nil_r|].
  intros [Hnin Hnd]%NoDup_cons Hs. rewrite bool_decide_false by (apply Hs; left). rewrite IH; [by rewrite <- app_assoc|done|].
  intros t' Ht' [Heq|Hin]%elem_of_cons; [|by eapply Hs; [right|]].
  apply Hnin. rewrite <- Heq. by apply list_elem_of_fmap_2.
Qed.

Lemma merge_flag ts : forall seen existing, exists l, merge_transfers seen existing true ts = (l, true).
Proof. induction ts as [|t ts IH]; intros seen existing; cbn; [eauto|]. case_bool_decide; apply IH. Qed.

Lemma omap_found_NoDup vk recipient l b : ids_from b l -> NoDup (sc_id <$> omap (found vk recipient) l).
Proof.
  revert b. induction l as [|a l IH]; intros b; [constructor|]. intros [Ha Hl]%ids_from_cons. cbn.
  destruct (found vk recipient a) as [t|] eqn:E; [|by eapply IH]. cbn. constructor; [|by eapply IH].
  rewrite (found_id _ _ _ _ E), Ha. intros (t' & Heq & (x & Hx & Hf)%list_elem_of_omap)%list_elem_of_fmap.
  apply list_elem_of_lookup in Hx as [i Hi]. apply found_id in Hf. rewrite Hf, (Hl i x Hi) in Heq. lia.
Qed.

Lemma find_by_id ts t : NoDup (sc_id <$> ts) -> t ∈ ts -> List.find (fun entry => sc_id entry =? sc_id t) ts = Some t.
Proof.
  induction ts as [|u ts IH]; [by intros _ ?%elem_of_nil|]. cbn. intros [Hnin Hnd]%NoDup_cons [<-|Hin]%elem_of_cons.
  - by rewrite Z.eqb_refl.
  - destruct (Z.eqb_spec (sc_id u) (sc_id t)) as [E|_]; [|by apply IH].
    exfalso. apply Hnin. rewrite E. by apply list_elem_of_fmap_2.
Qed.

(** The sender's side: the announcement is stored and the transfer goes to the announced burn address. *)
Lemma private_transfer_ok fuel km time args tokens private_key rnd s0 entry seed st sk :
  find_token_by_chain tokens (pt_chain_id args) = Ok entry ->
  compute_seed_from_signature SEED_MESSAGE private_key = Ok seed ->
  payment_advice fuel (random_payment_advice_id (rnd_advice_id rnd)) seed (pt_to_chain_id args) (pt_to args) = Some st ->
  in_u64 (pt_to_chain_id args) -> length (rnd_session_key rnd) = 32%nat -> length (rnd_nonce rnd) = 12%nat ->
  pt_to args = be_val (derive_address sk) -> key_id_name km = name ->
  exists b burn ann,
    private_transfer SEED_MESSAGE fuel (Some km) time args tokens private_key rnd s0
    = (mkStorageState (st_announcements s0 ++ [ann]) (u64_add (st_next_id s0) 1) (st_invoices s0),
       Ok (ann, mkSubmittedTransfer entry burn (pt_amount args)))
    /\ storage_step s0 (mkStorageState (st_announcements s0 ++ [ann]) (u64_add (st_next_id s0) 1) (st_invoices s0))
    /\ fb_gr b = new_evm (pt_to_chain_id args) (pt_to args) (st_tweak st)
    /\ FullBurnAddress_from_bytes (FullBurnAddress_to_bytes b) = Ok b
    /\ Forall in_u8 (FullBurnAddress_to_bytes b) /\ burn_address b = Ok burn
    /\ forall pk dpk vk, view_key_of (derive_address sk) pk dpk vk ->
         decrypt_announcement vk ann = Ok (mkDecryptedAnnouncement (an_id ann) (FullBurnAddress_to_bytes b) time).
Proof.
  intros Htok Hseed Hst Hc Hsess Hnonce Hto Hname.
  assert (in_u160 (pt_to args)) as Ha.
  { rewrite Hto. apply be_val_20_range; [apply derive_address_bytes | apply derive_address_length]. }
  assert (address_bytes (pt_to args) = derive_address sk) as Hab.
  { rewrite Hto. unfold address_bytes. rewrite <- (derive_address_length sk) at 1. apply be_bytes_be_val, derive_address_bytes. }
  destruct (advice_payload _ _ _ _ _ _ Hc Ha Hst) as (b & burn & Hnew & Hgr & Hrt & Hb8 & Hburn).
  destruct (vetkd_available (name := name) (context_for_address (derive_address sk))) as (pk & dpk & Hpk & Hdpk).
  destruct (encrypt_ok pk dpk (rnd_ibe_seed rnd) (rnd_session_key rnd) (rnd_nonce rnd) (FullBurnAddress_to_bytes b))
    as (input & Henc & Hval); [done..| rewrite to_bytes_length; by vm_compute |].
  set (ann := mkAnnouncement (st_next_id s0) (ai_ibe_ciphertext input) (ai_ciphertext input) (ai_nonce input) time).
  destruct (submit_announcement_cases time input s0) as [(e & He & _)|[_ Hs]]; [congruence|].
  cbv zeta in Hs. fold ann in Hs.
  exists b, burn, ann. split.
  - unfold private_transfer. cbv zeta.
    erewrite M_bind_run by (by apply lift_run).
    erewrite M_bind_run by (apply lift_run; unfold context; rewrite Hseed; reflexivity).
    erewrite M_bind_run by (apply lift_run; rewrite Hst; reflexivity).
    erewrite M_bind_run by (apply lift_run; rewrite Hnew; reflexivity).
    erewrite M_bind_run by (apply lift_run; rewrite Hburn; reflexivity).
    erewrite M_bind_run by (apply lift_run; rewrite Hab; unfold client_get_view_public_key, get_view_public_key, to_address, with_state;
      rewrite derive_address_length, Nat.eqb_refl; cbn [mbind result_bind fmap option_fmap option_map ok_or];
      rewrite Hname, Hpk; reflexivity).
    erewrite M_bind_run by (apply lift_run; rewrite Henc; reflexivity).
    erewrite M_bind_run; [reflexivity|]. unfold context_M, map_err_M, client_submit_announcement.
    by rewrite Hs.
  - split; [pose proof (step_announce time input s0) as Hstep; by rewrite Hs in Hstep|].
    split_and!; [done..|]. intros pk' dpk' vk Hvk. assert (pk' = pk) as -> by (destruct Hvk as (Hpk' & _); congruence).
    by eapply decrypt_own.
Qed.

(** Whatever the views, a scan over them finds the transfer of an announcement that was there from the start. *)
Lemma scan_resolves view final vk recipient page_size fuel ann t bs :
  growing view (st_announcements final) -> storage_inv final -> 1 <= page_size ->
  (length (st_announcements final) < fuel)%nat ->
  ann ∈ st_announcements (view 0%nat) -> found vk recipient ann = Some t ->
  sc_full_burn_address_hex t = ("0x" +:+ hex_encode bs)%string -> Forall in_u8 bs ->
  exists transfers file, scan_pages fuel view 0 vk recipient page_size None [] = Some (Ok transfers)
    /\ write_results NoFile transfers = Ok file
    /\ resolve_full_burn_address (mkReceiveTransferArgs None (Some (an_id ann))) file = Ok bs.
Proof.
  intros Hg [_ Hids _ _] Hps Hf Hin Ht Hhex Hbs.
  destruct (scan_pages_spec view _ vk recipient page_size Hg Hids Hps fuel 0 0 []) as (n & Hn & Hv & He); [lia..|].
  change (marker 0) with (@None Z) in He. rewrite drop_0 in He. set (ts := omap _ _) in He.
  assert (NoDup (sc_id <$> ts)) as Hnd by (eapply omap_found_NoDup, ids_from_take, Hids).
  assert (t ∈ ts) as Hts.
  { apply list_elem_of_omap. exists ann. split; [|done]. destruct (Hg 0%nat) as [_ [r Hr]].
    rewrite Hr, take_app_ge by done. apply elem_of_app. by left. }
  exists ts, (TransfersFile ts). split; [exact He|]. split.
  - unfold write_results. cbn [mbind result_bind].
    pose proof (merge_fresh ts (sc_id <$> []) [] false Hnd ltac:(set_solver)) as Hm. cbn [app] in Hm.
    destruct (merge_transfers (sc_id <$> []) [] false ts) as [l m] eqn:Em. cbn [fst] in Hm. subst l.
    destruct ts as [|u ts']; [by apply elem_of_nil in Hts|]. do 2 f_equal.
    assert (m = true) as ->; [|done]. cbn [merge_transfers fmap list_fmap] in Em.
    rewrite bool_decide_false in Em by apply not_elem_of_nil. cbn [app] in Em.
    destruct (merge_flag ts' [sc_id u] [u]) as [l' Hl']. congruence.
  - unfold resolve_full_burn_address, load_scanned_transfer. cbn [ra_full_burn_address ra_announcement_id ok_or mbind result_bind].
    rewrite <- (found_id _ _ _ _ Ht), (find_by_id _ _ Hnd Hts). cbn [ok_or mbind result_bind].
    rewrite Hhex. by apply decode_scanned.
Qed.

Lemma steps_growing view final :
  (forall k, rtc storage_step (view k) (view (S k))) -> (forall k, rtc storage_step (view k) final) ->
  growing view (st_announcements final).
Proof. intros H1 H2 k. split; by apply storage_steps_announcements. Qed.

(** The transfer and the scan, with the payload that travels between them. *)
Lemma private_transfer_delivered fuel km time args tokens private_key rnd s0 entry seed st sk recipient_key :
  find_token_by_chain tokens (pt_chain_id args) = Ok entry ->
  compute_seed_from_signature SEED_MESSAGE private_key = Ok seed ->
  payment_advice fuel (random_payment_advice_id (rnd_advice_id rnd)) seed (pt_to_chain_id args) (pt_to args) = Some st ->
  in_u64 (pt_to_chain_id args) -> length (rnd_session_key rnd) = 32%nat -> length (rnd_nonce rnd) = 12%nat ->
  SigningKey_from_bytes (b256_bytes recipient_key) = Some sk -> pt_to args = be_val (derive_address sk) ->
  (forall digest, length digest = 32%nat -> is_ok (sign_prehash_recoverable sk digest) = true) ->
  key_id_name km = name -> rtc storage_step storage_init s0 ->
  exists s1 ann burn b,
    private_transfer SEED_MESSAGE fuel (Some km) time args tokens private_key rnd s0
    = (s1, Ok (ann, mkSubmittedTransfer entry burn (pt_amount args)))
    /\ fb_gr b = new_evm (pt_to_chain_id args) (pt_to args) (st_tweak st)
    /\ FullBurnAddress_from_bytes (FullBurnAddress_to_bytes b) = Ok b /\ burn_address b = Ok burn
    /\ forall self km2 now_ns canister_now sargs tseed view final scan_fuel,
         key_id_name km2 = name -> 0 <= max_nonce (Some km2) (derive_address sk) < u64_max ->
         canister_now <= saturating_add_u64 now_ns (saturating_mul_u64 (sa_authorization_ttl_seconds sargs) 1000000000) ->
         1 <= sa_page_size sargs ->
         rtc storage_step s1 (view 0%nat) -> (forall k, rtc storage_step (view k) (view (S k))) ->
         (forall k, rtc storage_step (view k) final) -> Z.of_nat (length (st_announcements final)) < 2 ^ 64 ->
         (length (st_announcements final) < scan_fuel)%nat ->
         exists km3 transfers file,
           scan_receive_transfers scan_fuel self now_ns canister_now sargs recipient_key tseed view (Some km2) = (km3, Ok transfers)
           /\ write_results NoFile transfers = Ok file
           /\ resolve_full_burn_address (mkReceiveTransferArgs None (Some (an_id ann))) file = Ok (FullBurnAddress_to_bytes b).
Proof.
  intros Htok Hseed Hst Hc Hsess Hnonce Hsk Hto Hsign Hname Hr0.
  destruct (private_transfer_ok fuel km time args tokens private_key rnd s0 entry seed st sk)
    as (b & burn & ann & Hrun & Hstep & Hgr & Hrt & Hb8 & Hburn & Hdec); [done..|].
  set (s1 := mkStorageState _ _ _) in Hrun, Hstep. exists s1, ann, burn, b. do 4 (split; [assumption|]).
  intros self km2 now_ns canister_now sargs tseed view final scan_fuel Hname2 Hmax Hexp Hps Hv0 Hvk Hvf Hlen Hfuel.
  destruct (obtain_view_key_ok self now_ns canister_now sargs sk tseed km2) as (km3 & pk & dpk & vk & Hkey & Hvk'); [done..|].
  assert (in_u160 (pt_to args)) as Ha.
  { rewrite Hto. apply be_val_20_range; [apply derive_address_bytes | apply derive_address_length]. }
  destruct (scan_entry_own (pt_to args) b burn (an_id ann) time) as (t & Ht & _ & Hhex); [done | by rewrite Hgr | done..|].
  assert (storage_inv final) as Hinv.
  { eapply storage_inv_steps; [|done|apply storage_inv_init].
    do 2 (etrans; [|apply Hvf || exact Hv0]). eapply rtc_r; [exact Hr0 | exact Hstep]. }
  destruct (scan_resolves view final vk (pt_to args) (sa_page_size sargs) scan_fuel ann t (FullBurnAddress_to_bytes b))
    as (transfers & file & Hscan & Hfile & Hres); [by apply steps_growing | done.. | | | done | done |].
  - destruct (storage_steps_announcements _ _ Hv0) as [r ->]. cbn [st_announcements s1]. rewrite !elem_of_app. left. right. by left.
  - unfold found. by rewrite (Hdec _ _ _ Hvk').
  - exists km3, transfers, file. split; [|by split].
    unfold scan_receive_transfers, cli_signing_key_from_b256. rewrite Hsk. erewrite M_bind_run by reflexivity.
    erewrite M_bind_run by exact Hkey. rewrite <- Hto. apply lift_run. by rewrite Hscan.
Qed.

(** A private transfer reaches its recipient and nobody has to be told where the funds are.  When a sender with a
    usable key, token and advice secret runs [private-transfer] to the address of a key, the announcement is stored and the
    transfer goes to the announced burn address; whatever is announced afterwards, before or during the recipient's
    scan, and with any page size from 1 on, the recipient's [scan-receive-transfers] obtains the view key
    (unless the key manager's nonce of the address is exhausted), terminates, and writes a file in
    which the identifier of the announcement resolves to the bytes that decode to the sender's full burn address, whose burn
    address is the one that was paid and whose recipient chain and address are the ones the sender chose. *)
Theorem private_transfer_received fuel km time args tokens private_key rnd s0 entry seed st sk recipient_key :
  find_token_by_chain tokens (pt_chain_id args) = Ok entry ->
  compute_seed_from_signature SEED_MESSAGE private_key = Ok seed ->
  payment_advice fuel (random_payment_advice_id (rnd_advice_id rnd)) seed (pt_to_chain_id args) (pt_to args) = Some st ->
  in_u64 (pt_to_chain_id args) -> length (rnd_session_key rnd) = 32%nat -> length (rnd_nonce rnd) = 12%nat ->
  SigningKey_from_bytes (b256_bytes recipient_key) = Some sk -> pt_to args = be_val (derive_address sk) ->
  (forall digest, length digest = 32%nat -> is_ok (sign_prehash_recoverable sk digest) = true) ->
  key_id_name km = name -> rtc storage_step storage_init s0 ->
  exists s1 ann burn,
    private_transfer SEED_MESSAGE fuel (Some km) time args tokens private_key rnd s0
    = (s1, Ok (ann, mkSubmittedTransfer entry burn (pt_amount args)))
    /\ forall self km2 now_ns canister_now sargs tseed view final scan_fuel,
         key_id_name km2 = name -> 0 <= max_nonce (Some km2) (derive_address sk) < u64_max ->
         canister_now <= saturating_add_u64 now_ns (saturating_mul_u64 (sa_authorization_ttl_seconds sargs) 1000000000) ->
         1 <= sa_page_size sargs ->
         rtc storage_step s1 (view 0%nat) -> (forall k, rtc storage_step (view k) (view (S k))) ->
         (forall k, rtc storage_step (view k) final) -> Z.of_nat (length (st_announcements final)) < 2 ^ 64 ->
         (length (st_announcements final) < scan_fuel)%nat ->
         exists km3 transfers file payload b,
           scan_receive_transfers scan_fuel self now_ns canister_now sargs recipient_key tseed view (Some km2) = (km3, Ok transfers)
           /\ write_results NoFile transfers = Ok file
           /\ resolve_full_burn_address (mkReceiveTransferArgs None (Some (an_id ann))) file = Ok payload
           /\ FullBurnAddress_from_bytes payload = Ok b /\ burn_address b = Ok burn
           /\ gr_chain_id (fb_gr b) = pt_to_chain_id args /\ gr_address (fb_gr b) = pt_to args.
Proof.
  intros Htok Hseed Hst Hc Hsess Hnonce Hsk Hto Hsign Hname Hr0.
  destruct (private_transfer_delivered fuel km time args tokens private_key rnd s0 entry seed st sk recipient_key)
    as (s1 & ann & burn & b & Hrun & Hgr & Hrt & Hburn & Hscan); [assumption..|].
  exists s1, ann, burn. split; [exact Hrun|]. intros self km2 now_ns canister_now sargs tseed view final scan_fuel H1 H2 H3 H4 H5 H6 H7 H8 H9.
  destruct (Hscan self km2 now_ns canister_now sargs tseed view final scan_fuel) as (km3 & transfers & file & Hs & Hw & Hres); [assumption..|].
  exists km3, transfers, file, (FullBurnAddress_to_bytes b), b. split_and!; [assumption.. | by rewrite Hgr | by rewrite Hgr].
Qed.
End delivery.

(** * Witnesses *)

Section witnesses.
#[local] Existing Instance easy_crypto.
#[local] Existing Instance easy_crypto_laws.
#[local] Existing Instance toy_signatures.
#[local] Existing Instance toy_vetkeys.
#[local] Existing Instance toy_vetkeys_laws.

Lemma easy_signatures_laws : SignatureLaws easy_crypto toy_signatures.
Proof. destruct toy_signatures_laws. by split. Qed.
#[local] Existing Instance easy_signatures_laws.

Definition toy_wallet : Signer := {| signer_from_bytes := fun key => Some (fun _ => Some key) |}.
#[local] Existing Instance toy_wallet.

Lemma scan_reads_log_once_witness :
  exists n, (n <= 1)%nat
    /\ scan_pages 2 (fun _ => toy_announced) 0 ([] : @VetKey toy_vetkeys) 5 10 None []
       = Some (Ok (omap (found ([] : @VetKey toy_vetkeys) 5) (take n (st_announcements toy_announced)))).
Proof.
  destruct (scan_reads_log_once (fun _ => toy_announced) (st_announcements toy_announced) ([] : @VetKey toy_vetkeys) 5 10 2)
    as (n & Hn & Hs & _); [done | | done | by vm_compute; lia | by exists n].
  intros [|i] a Hi; [injection Hi as <-; reflexivity | done].
Defined.

(** Key 3 pays the address of key 7 on chain 10, from chain 1. *)
Definition toy_recipient : Z := be_val (derive_address (7 : @SigningKey toy_signatures)).
Definition toy_entry : TokenEntry := mkTokenEntry "t" 77 78 None 1 0 [] false.
Definition toy_transfer : PrivateTransferArgs := mkPrivateTransferArgs 1 toy_recipient 10 500.
Definition toy_randomness : Randomness := mkRandomness (replicate 32 1) [] (replicate 32 2) (replicate 12 3).
Definition toy_seed : Z := match compute_seed_from_signature [] 3 with Ok s => s | Err _ => 0 end.
Definition toy_advice : SecretAndTweak :=
  default (mkSecretAndTweak 0 0)
    (payment_advice 1 (random_payment_advice_id (rnd_advice_id toy_randomness)) toy_seed 10 toy_recipient).
Definition toy_manager : KeyManagerState := mkKeyManagerState "k" ∅.

Lemma private_transfer_received_witness :
  exists s1 ann burn km3 transfers file payload b,
    private_transfer [] 1 (Some toy_manager) 5 toy_transfer [toy_entry] 3 toy_randomness storage_init
    = (s1, Ok (ann, mkSubmittedTransfer toy_entry burn 500))
    /\ scan_receive_transfers (S (length (st_announcements s1))) [8] 100 120 (mkScanArgs 50 600) 7 [4] (fun _ => s1) (Some toy_manager)
       = (km3, Ok transfers)
    /\ write_results NoFile transfers = Ok file
    /\ resolve_full_burn_address (mkReceiveTransferArgs None (Some (an_id ann))) file = Ok payload
    /\ FullBurnAddress_from_bytes payload = Ok b /\ burn_address b = Ok burn.
Proof.
  destruct (private_transfer_received [] "k" 1 toy_manager 5 toy_transfer [toy_entry] 3 toy_randomness storage_init
    toy_entry toy_seed toy_advice (7 : @SigningKey toy_signatures) 7) as (s1 & ann & burn & Hsend & Hrecv).
  - reflexivity.
  - vm_compute. reflexivity.
  - vm_compute. reflexivity.
  - unfold in_u64. cbn. lia.
  - reflexivity.
  - reflexivity.
  - vm_compute. reflexivity.
  - reflexivity.
  - reflexivity.
  - reflexivity.
  - apply rtc_refl.
  - destruct (Hrecv [8] toy_manager 100 120 (mkScanArgs 50 600) [4] (fun _ => s1) s1 (S (length (st_announcements s1))))
      as (km3 & transfers & file & payload & b & H1 & H2 & H3 & H4 & H5 & _).
    + reflexivity.
    + vm_compute. split; [discriminate | reflexivity].
    + vm_compute. discriminate.
    + vm_compute. discriminate.
    + apply rtc_refl.
    + intros _. apply rtc_refl.
    + intros _. apply rtc_refl.
    + assert (length (st_announcements s1) = 1%nat) as ->; [|reflexivity].
      apply (f_equal (fun r => length (st_announcements r.1))) in Hsend. cbn [fst] in Hsend. rewrite <- Hsend. vm_compute. reflexivity.
    + apply Nat.lt_succ_diag_r.
    + exists s1, ann, burn, km3, transfers, file, payload, b. split_and!; assumption.
Defined.
End witnesses.
