(* ===== verification/Redeem.v ===== *)
(** Redeeming burns from the command line ([cli/src/commands/teleport.rs],
    [receive_transfer.rs], [invoice.rs], [cli/src/proof]) with the single-withdraw circuit and
    its Groth16 wrapper ([zkp/src/groth16]).

    Groth16 and the folding of the withdraw circuit are external ([Groth16],
    [WithdrawNova]); the contracts a command calls are its state, and a call that reverts leaves
    them alone.  Parameter files, RPC failures and printed output are not modelled. *)

From S2P Require Import Prelude Words Text Crypto BitPaths MerkleTrees Gadgets Circuits Database OnChain TreeDb Events Leases Jobs RootJob Teleport Payment Storage Cli.
Local Open Scope Z_scope.

(** ** [groth16/withdraw.rs] *)

Record SingleWithdrawCircuit := mkSingleWithdrawCircuit {
  sw_poseidon_params : PoseidonConfig;
  sw_merkle_root : option Z;
  sw_recipient : option Z;
  sw_withdraw_value : option Z;
  sw_value : option Z;
  sw_delta : option Z;
  sw_secret : option Z;
  sw_leaf_index : option Z;
  sw_siblings : list (option Z);
}.

Definition SingleWithdrawCircuit_new (DEPTH : nat) (poseidon_params : PoseidonConfig) : SingleWithdrawCircuit :=
  mkSingleWithdrawCircuit poseidon_params None None None None None None None (replicate DEPTH None).

(** [None] is [AssignmentMissing]. *)
Definition public_inputs (c : SingleWithdrawCircuit) : option (list Z) :=
  merkle_root ← sw_merkle_root c;
  recipient ← sw_recipient c;
  withdraw_value ← sw_withdraw_value c;
  Some [merkle_root; recipient; withdraw_value].

Definition assigned {A} (x : option A) : Synth A := match x with Some a => mret a | None => None end.

Section circuit.
Context {C : Crypto} {R : R1CS}.

Definition sw_generate_constraints (DEPTH : nat) (c : SingleWithdrawCircuit) : Synth unit :=
  assigned (sw_merkle_root c) ≫= fun merkle_root =>
  assigned (sw_recipient c) ≫= fun recipient =>
  assigned (sw_withdraw_value c) ≫= fun expected_withdraw_value =>
  assigned (sw_value c) ≫= fun value =>
  assigned (sw_delta c) ≫= fun delta =>
  assigned (sw_secret c) ≫= fun secret =>
  assigned (fr_of_biguint <$> sw_leaf_index c) ≫= fun leaf_index =>
  assigned (mapM id (sw_siblings c)) ≫= fun sibling_vars =>
  single_withdraw DEPTH (sw_poseidon_params c) merkle_root recipient value delta secret leaf_index sibling_vars
    ≫= fun computed_withdraw_value =>
  enforce (expected_withdraw_value =? computed_withdraw_value).
End circuit.

(** ** External provers *)

(** [Groth16::<Bn254>] with the parameters of the circuit of a height; [to_eth] gives the 8 words of a proof. *)
Class Groth16 := {
  Groth16Proof : Type;
  groth16_prove : nat -> SingleWithdrawCircuit -> result string Groth16Proof;
  groth16_verify : nat -> list Z -> Groth16Proof -> result string bool;
  proof_to_eth : Groth16Proof -> list Z;
}.

(** [N<WithdrawCircuit<Fr, DEPTH>>] and [NovaParams] of Sonobe. *)
Class WithdrawNova := {
  WithdrawNovaInstance : Type;
  WithdrawIvcProof : Type;
  withdraw_initial_nova : nat -> list Z -> result string WithdrawNovaInstance;
  withdraw_prove_step : WithdrawNovaInstance -> WithdrawExternalInputs -> result string WithdrawNovaInstance;
  withdraw_ivc_proof : WithdrawNovaInstance -> WithdrawIvcProof;
  (** [FoldingScheme::state]. *)
  withdraw_nova_state : WithdrawNovaInstance -> list Z;
  withdraw_nova_verify : nat -> WithdrawIvcProof -> result string unit;
  withdraw_serialize : WithdrawIvcProof -> result string bytes;
}.

(** [Groth16Params::generate_proof]. *)
Definition generate_proof {G : Groth16} (DEPTH : nat) (circuit : SingleWithdrawCircuit) (inputs : list Z) : result string bytes :=
  proof ← groth16_prove DEPTH circuit;
  verified ← groth16_verify DEPTH inputs proof;
  if negb verified then Err "Groth16 proof verification failed"
  else Ok (abi_encode_words (proof_to_eth proof) ++ abi_encode_words inputs).

(** ** [cli/src/proof] *)

Definition NUM_BATCH_INVOICES : nat := 10.

Section proofs.
Context {C : Crypto} {G : Groth16} {N : WithdrawNova} {D : DeciderClient}.

Definition single_teleport_proof (DEPTH : nat) (recipient merkle_root : Z) (event : IndexedEvent) (merkle_proof : MerkleProof)
  (leaf_index secret : Z) : result string bytes :=
  poseidon_params ← ok_or "poseidon parameters" circom_poseidon_config;
  let merkle_root := u256_to_fr merkle_root in
  let value := u256_to_fr (ie_value event) in
  if negb (length (siblings merkle_proof) =? DEPTH)%nat then Err "invalid number of siblings in global Merkle proof"
  else
    let circuit := mkSingleWithdrawCircuit poseidon_params (Some merkle_root) (Some recipient) (Some value) (Some value)
                     (Some 0) (Some secret) (Some leaf_index) (Some <$> siblings merkle_proof) in
    inputs ← ok_or "assignment missing" (public_inputs circuit);
    context "failed to create single global teleport Groth16 proof" (generate_proof DEPTH circuit inputs).

(** One real step of the batch. *)
Definition withdraw_input (DEPTH : nat) (x : IndexedEvent * MerkleProof * Z * Z) : result string WithdrawExternalInputs :=
  let '(event, merkle_proof, leaf_index, secret) := x in
  if negb (length (siblings merkle_proof) =? DEPTH)%nat then Err "invalid number of siblings in global Merkle proof"
  else Ok (mkWithdrawExternalInputs 0 (u256_to_fr (ie_value event)) secret (fr_of_biguint leaf_index) (siblings merkle_proof)).

Definition initial_state (root recipient : Z) : list Z := [root; recipient; 0; 0].

Definition dummy_steps (DEPTH num_dummy_steps : nat) : list WithdrawExternalInputs :=
  let offset := u64_sub (u64_sub (Z.shiftl 1 (Z.of_nat DEPTH)) 1) (Z.of_nat num_dummy_steps) in
  (fun i => dummy_withdraw_ext_input DEPTH (u64_add offset (Z.of_nat i)) 0) <$> seq 0 num_dummy_steps.

Definition circuit_kind_of (DEPTH : nat) : result string CircuitKind :=
  if (DEPTH =? TRANSFER_TREE_HEIGHT)%nat then Ok WithdrawLocal
  else if (DEPTH =? GLOBAL_TRANSFER_TREE_HEIGHT)%nat then Ok WithdrawGlobal
  else Err "unsupported circuit depth for batch withdraw proof".

(** [num_dummy_steps] is the outcome of [gen_range(1..NUM_BATCH_INVOICES)]. *)
Definition batch_teleport_proof (DEPTH num_dummy_steps : nat) (recipient merkle_root : Z) (events : list IndexedEvent)
  (merkle_proofs : list MerkleProof) (leaf_indices secrets : list Z) : result string bytes :=
  if negb (length events =? length merkle_proofs)%nat || negb (length events =? length leaf_indices)%nat
     || negb (length events =? length secrets)%nat
  then Err "Mismatched lengths"
  else
    real_inputs ← map_result (withdraw_input DEPTH) (zip (zip (zip events merkle_proofs) leaf_indices) secrets);
    let external_inputs := real_inputs ++ dummy_steps DEPTH num_dummy_steps in
    nova ← context "failed to initialize batch withdraw Nova" (withdraw_initial_nova DEPTH (initial_state (u256_to_fr merkle_root) recipient));
    nova ← fold_result (fun nova x => context "failed to prove step in batch withdraw Nova" (withdraw_prove_step nova x)) nova external_inputs;
    let ivc_proof := withdraw_ivc_proof nova in
    _ ← context "failed to verify batch withdraw Nova proof" (withdraw_nova_verify DEPTH ivc_proof);
    kind ← circuit_kind_of DEPTH;
    proof_bytes ← context "failed to serialize batch withdraw Nova proof" (withdraw_serialize ivc_proof);
    context "failed to produce decider proof for batch withdraw" (produce_decider_proof kind proof_bytes).
End proofs.

(** ** [teleport.rs] *)

Inductive RedeemResult := AlreadyClaimed | NoProofs | Submitted.

Section redeem.
Context {C : Crypto} {G : Groth16} {N : WithdrawNova} {D : DeciderClient} {V : Deciders} {I : IndexerClient}.

(** [sum::<U256>()] wraps. *)
Definition sum_u256 (l : list Z) : Z := foldl (fun acc x => (acc + x) mod 2 ^ 256) 0 l.

(** The loop over the chains with eligible events; indexing past the end panics. *)
Definition local_proofs_of_chain (s : AggregationTreeState) (token_entries : list TokenEntry) (c : Z * EventsWithEligibility)
  : result string (Z * list LocalTeleportMerkleProof) :=
  id ← get_tree_id_for_chain_id s c.1;
  tree_index ← ok_or "no tree root index for chain id" id;
  token_entry ← find_token_by_chain token_entries c.1;
  local_proofs ← context "failed to fetch local teleport Merkle proofs"
                   (fetch_local_teleport_merkle_proofs token_entry tree_index (eligible c.2));
  Ok (c.1, local_proofs).

Definition has_eligible (c : Z * EventsWithEligibility) : bool := match eligible c.2 with [] => false | _ => true end.

Definition secret_of (secrets : gmap Z Z) (g : GlobalTeleportMerkleProof) : result string Z :=
  secret ← ok_or "missing secret for burn address" (secrets !! ie_to (gp_event g));
  Ok (b256_to_fr secret).

(** [self] and [chainid] are the verifier's address and chain. *)
Definition redeem_proof (num_dummy_steps : nat) (s : AggregationTreeState) (secrets : gmap Z Z) (gr : GeneralRecipient)
  (gs : list GlobalTeleportMerkleProof) : result string (bool * bytes) :=
  match gs with
  | [g] =>
    secret ← secret_of secrets g;
    proof ← context "failed to generate single teleport proof"
              (single_teleport_proof GLOBAL_TRANSFER_TREE_HEIGHT (to_fr gr) (aggregation_root s) (gp_event g) (gp_proof g) (gp_leaf_index g) secret);
    Ok (true, proof)
  | _ =>
    secrets ← map_result (secret_of secrets) gs;
    proof ← context "failed to generate batch teleport proof"
              (batch_teleport_proof GLOBAL_TRANSFER_TREE_HEIGHT num_dummy_steps (to_fr gr) (aggregation_root s)
                 (gp_event <$> gs) (gp_proof <$> gs) (gp_leaf_index <$> gs) secrets);
    Ok (false, proof)
  end.

(** The transaction of [single_teleport] or [teleport]. *)
Definition submit_teleport (self chainid : Z) (s : AggregationTreeState) (gr : GeneralRecipient) (single : bool) (proof : bytes)
  : M (Token * Verifier) string unit := fun tv =>
  match (if single then singleTeleport self chainid true (latest_agg_seq s) gr proof tv.1 tv.2
         else teleport self chainid true (latest_agg_seq s) gr proof tv.1 tv.2) with
  | Ok (t', v', _) => ((t', v'), Ok tt)
  | Err _ => (tv, Err "failed to submit global teleport transaction")
  end.

Definition redeem_transfers (self chainid : Z) (num_dummy_steps : nat) (s : AggregationTreeState)
  (separated_events : list (Z * EventsWithEligibility)) (burn_address_to_secret : gmap Z Z) (gr : GeneralRecipient)
  (token_entries : list TokenEntry) : M (Token * Verifier) string RedeemResult :=
  let total_eligible_value := sum_u256 ((fun c => eligible_total_value c.2) <$> separated_events) in
  gets (fun tv => slot (totalTeleported tv.2) (to_u256 gr)) ≫= fun total_teleported =>
  if total_eligible_value <=? total_teleported then mret AlreadyClaimed
  else
    lift (map_result (local_proofs_of_chain s token_entries) (filter (fun c => has_eligible c = true) separated_events)) ≫= fun local_teleport_mps =>
    lift (context "failed to generate global teleport Merkle proofs" (generate_global_teleport_merkle_proofs s local_teleport_mps)) ≫= fun global_merkle_proofs =>
    match global_merkle_proofs with
    | [] => mret NoProofs
    | _ =>
      lift (redeem_proof num_dummy_steps s burn_address_to_secret gr global_merkle_proofs) ≫= fun p =>
      submit_teleport self chainid s gr p.1 p.2 ≫= fun _ => mret Submitted
    end.
End redeem.

(** ** [receive_transfer.rs] *)

(** The views of the verifier contract that the client calls. *)
Definition verifier_view (v : Verifier) : VerifierView := {|
  view_latest_agg_seq := Ok (latestAggSeq v);
  view_global_transfer_root := fun seq => Ok (slot (globalTransferRoots v) seq);
|}.

(** [HashMap::get]. *)
Fixpoint assoc {A} (k : Z) (m : list (Z * A)) : option A :=
  match m with
  | [] => None
  | (k', a) :: m' => if k' =? k then Some a else assoc k m'
  end.

Inductive ReceiveOutcome := NoTransferEvents | NoEligibleTransfers | Redeemed (r : RedeemResult).

Record RedeemEnv := mkRedeemEnv {
  re_self : Z;
  re_chainid : Z;
  re_num_dummy_steps : nat;
  re_event_block_span : Z;
  re_indexer_fetch_limit : Z;
  re_hub : option HubEntry;
  re_artifacts : bool;
  (** the [balance_of] of each token *)
  re_token_clients : list (Z -> result string Z);
}.

Section commands.
Context {C : Crypto} {G : Groth16} {N : WithdrawNova} {D : DeciderClient} {V : Deciders} {I : IndexerClient} {H : HubNode}.

(** [run], from the decoded payload on; [fuel] bounds the search of the aggregation event. *)
Definition receive_transfer (fuel : nat) (env : RedeemEnv) (tokens : list TokenEntry) (burn_bytes : bytes)
  : M (Token * Verifier) string ReceiveOutcome :=
  lift (context "failed to decode FullBurnAddress" (FullBurnAddress_from_bytes burn_bytes)) ≫= fun burn_payload =>
  lift (context "failed to derive burn address from payload" (burn_address burn_payload)) ≫= fun burn_address =>
  let chain_id := gr_chain_id (fb_gr burn_payload) in
  lift (ok_or "hub entry is required to redeem transfers" (re_hub env)) ≫= fun _ =>
  lift (find_token_by_chain tokens chain_id) ≫= fun _ =>
  get ≫= fun tv =>
  lift (context "failed to fetch aggregation tree state"
          (fetch_aggregation_tree_state (V := verifier_view tv.2) fuel (re_event_block_span env))) ≫= fun aggregation_tree_state =>
  lift (context "failed to fetch transfer events for burn address"
          (fetch_transfer_events (Some (re_indexer_fetch_limit env)) tokens (re_token_clients env) [burn_address])) ≫= fun events_map =>
  lift (separate_events_by_eligibility aggregation_tree_state events_map) ≫= fun separated_events =>
  match assoc chain_id separated_events with
  | None => mret NoTransferEvents
  | Some events_for_chain =>
    match eligible events_for_chain with
    | [] => mret NoEligibleTransfers
    | _ =>
      lift (if re_artifacts env then Ok tt else Err "Nova artifacts directory must be specified for receive transfer command") ≫= fun _ =>
      let burn_address_to_secret := {[ burn_address := fb_secret burn_payload ]} in
      redeem_transfers (re_self env) (re_chainid env) (re_num_dummy_steps env) aggregation_tree_state separated_events
        burn_address_to_secret (fb_gr burn_payload) tokens ≫= fun r => mret (Redeemed r)
    end
  end.

(** ** [invoice.rs] *)

Context {L : SignatureLib} {Sg : Signer}.
Variable SEED_MESSAGE : bytes.

(** The derivations of an invoice: one, or ten for a batch. *)
Definition invoice_secrets (pow_fuel : nat) (single : bool) (invoice_id seed recipient_chain_id recipient_address : Z)
  : result string (list SecretAndTweak) :=
  if single then st ← ok_or "out of fuel" (single_invoice pow_fuel invoice_id seed recipient_chain_id recipient_address); Ok [st]
  else map_result (fun sub_id => ok_or "out of fuel"
         (batch_invoice pow_fuel invoice_id (as_u32 (Z.of_nat sub_id)) seed recipient_chain_id recipient_address)) (seq 0 NUM_BATCH_INVOICES).

(** The burn address of one derivation. *)
Definition invoice_burn_address (recipient_chain_id recipient_address : Z) (secret_and_tweak : SecretAndTweak) : result string (Z * SecretAndTweak) :=
  burn_payload ← map_error (FullBurnAddress_new recipient_chain_id recipient_address secret_and_tweak);
  burn ← context "failed to derive burn address" (burn_address burn_payload);
  Ok (burn, secret_and_tweak).

Definition invoice_burn_addresses (pow_fuel : nat) (single : bool) (invoice_id seed recipient_chain_id recipient_address : Z)
  : result string (list (Z * SecretAndTweak)) :=
  sts ← invoice_secrets pow_fuel single invoice_id seed recipient_chain_id recipient_address;
  map_result (invoice_burn_address recipient_chain_id recipient_address) sts.

Definition get_address_from_private_key (private_key : Z) : result string Z :=
  ok_or "panicked" (signer_address (b256_bytes private_key)).

Definition decode_invoice_id (bs : bytes) : result string Z :=
  if negb (length bs =? 32)%nat then Err "invoice identifier must be 32 bytes" else Ok (be_val bs).
Definition decode_invoice_ids (raw : list bytes) : result string (list Z) := map_result decode_invoice_id raw.

Definition sign_invoice (signing_key : SigningKey) (invoice_id : Z) : result string bytes :=
  let digest := keccak256 (invoice_signature_message (b256_bytes invoice_id)) in
  '(signature, recovery_id) ← map_err (fun err => "failed to sign invoice submission: " +:+ err)
                                (sign_prehash_recoverable signing_key digest);
  Ok (signature ++ [saturating_add_u8 recovery_id 27]).

(** The loop that draws identifiers until one is new; [randoms] are the draws. *)
Fixpoint fresh_invoice_id (existing : list Z) (single : bool) (chain_id : Z) (randoms : list bytes) : option Z :=
  match randoms with
  | [] => None
  | random :: rest =>
    let invoice_id := random_invoice_id random single chain_id in
    if bool_decide (invoice_id ∈ existing) then fresh_invoice_id existing single chain_id rest else Some invoice_id
  end.

Record InvoiceIssueArgs := mkInvoiceIssueArgs { ii_chain_id : Z; ii_recipient : option Z; ii_batch : bool }.

(** Returns the identifier and the burn addresses that are printed. *)
Definition invoice_issue (pow_fuel : nat) (args : InvoiceIssueArgs) (tokens : list TokenEntry) (private_key : Z) (randoms : list bytes)
  : M StorageState string (Z * list Z) :=
  lift (find_token_by_chain tokens (ii_chain_id args)) ≫= fun entry =>
  lift (context "failed to derive seed from signature" (compute_seed_from_signature SEED_MESSAGE private_key)) ≫= fun seed =>
  lift (match ii_recipient args with Some r => Ok r | None => get_address_from_private_key private_key end) ≫= fun recipient =>
  let recipient_chain_id := te_chain_id entry in
  get ≫= fun storage =>
  lift (context "failed to load existing invoice ids" (client_list_invoices (address_bytes recipient) storage)) ≫= fun raw =>
  lift (decode_invoice_ids raw) ≫= fun existing_invoice_ids =>
  lift (ok_or "out of randomness" (fresh_invoice_id existing_invoice_ids (negb (ii_batch args)) (te_chain_id entry) randoms)) ≫= fun invoice_id =>
  lift (cli_signing_key_from_b256 private_key) ≫= fun signing_key =>
  lift (sign_invoice signing_key invoice_id) ≫= fun signature =>
  context_M "failed to submit invoice" (client_submit_invoice (mkInvoiceSubmission (b256_bytes invoice_id) signature)) ≫= fun _ =>
  lift (invoice_burn_addresses pow_fuel (negb (ii_batch args)) invoice_id seed recipient_chain_id recipient) ≫= fun burns =>
  mret (invoice_id, burns.*1).

Definition invoice_list (chain_id : Z) (owner : option Z) (tokens : list TokenEntry) (private_key : Z) (storage : StorageState)
  : result string (list Z) :=
  entry ← find_token_by_chain tokens chain_id;
  owner ← (match owner with Some o => Ok o | None => get_address_from_private_key private_key end);
  raw_invoice_ids ← context "failed to load invoice ids" (client_list_invoices (address_bytes owner) storage);
  invoice_ids ← decode_invoice_ids raw_invoice_ids;
  Ok (filter (fun invoice_id => extract_chain_id invoice_id = te_chain_id entry) invoice_ids).

Record InvoiceReceiveContext := mkInvoiceReceiveContext {
  ir_gr : GeneralRecipient;
  ir_aggregation_tree_state : AggregationTreeState;
  ir_separated_events : list (Z * EventsWithEligibility);
  ir_burn_address_to_secret_and_tweak : gmap Z SecretAndTweak;
}.

(** The map is empty only when no address was derived; its values have one tweak, whatever the iteration order. *)
Definition build_invoice_receive_context (fuel pow_fuel : nat) (env : RedeemEnv) (chain_id invoice_id : Z) (token_entries : list TokenEntry)
  (private_key : Z) (v : Verifier) : result string (option InvoiceReceiveContext) :=
  _ ← ok_or "hub entry is required" (re_hub env);
  _ ← find_token_by_chain token_entries chain_id;
  seed ← context "failed to derive seed from signature" (compute_seed_from_signature SEED_MESSAGE private_key);
  recipient_address ← get_address_from_private_key private_key;
  burns ← invoice_burn_addresses pow_fuel (is_single invoice_id) invoice_id seed chain_id recipient_address;
  let burn_address_to_secret_and_tweak : gmap Z SecretAndTweak := foldl (fun m x => <[x.1 := x.2]> m) ∅ burns in
  match map_to_list burn_address_to_secret_and_tweak with
  | [] => Ok None
  | first :: _ =>
    let gr := new_evm chain_id recipient_address (st_tweak first.2) in
    let burn_addresses := (map_to_list burn_address_to_secret_and_tweak).*1 in
    events_map ← context "failed to fetch transfer events for invoice redemption"
                   (fetch_transfer_events (Some (re_indexer_fetch_limit env)) token_entries (re_token_clients env) burn_addresses);
    aggregation_tree_state ← context "failed to fetch aggregation tree state"
                               (fetch_aggregation_tree_state (V := verifier_view v) fuel (re_event_block_span env));
    separated_events ← separate_events_by_eligibility aggregation_tree_state events_map;
    Ok (Some (mkInvoiceReceiveContext gr aggregation_tree_state separated_events burn_address_to_secret_and_tweak))
  end.

Definition invoice_receive (fuel pow_fuel : nat) (env : RedeemEnv) (chain_id invoice_id : Z) (token_entries : list TokenEntry) (private_key : Z)
  : M (Token * Verifier) string (option RedeemResult) :=
  get ≫= fun tv =>
  lift (build_invoice_receive_context fuel pow_fuel env chain_id invoice_id token_entries private_key tv.2) ≫= fun ctx =>
  match ctx with
  | None => mret None
  | Some c =>
    lift (if re_artifacts env then Ok tt else Err "Nova artifacts directory must be specified for invoice receive command") ≫= fun _ =>
    redeem_transfers (re_self env) (re_chainid env) (re_num_dummy_steps env) (ir_aggregation_tree_state c) (ir_separated_events c)
      (st_secret <$> ir_burn_address_to_secret_and_tweak c) (ir_gr c) token_entries ≫= fun r => mret (Some r)
  end.
End commands.
