(* ===== verification/RedeemSpec.v ===== *)
(** What redemption achieves: with honest services and complete provers, the client's proofs are accepted
    and the contract mints exactly the eligible value that was not claimed yet; and which payments the
    commands do not find. *)

From S2P Require Import Prelude Words Text Crypto BitPaths MerkleTrees Gadgets Circuits Folding Database OnChain OnChainSpec TreeDb TreeDbSpec Events Leases Jobs RootJob Teleport TeleportSpec Payment Storage StorageSpec Cli CliSpec Redeem.
Local Open Scope Z_scope.

(** ** Completeness of the withdraw folding *)

Section folding.
Context {C : Crypto} {HC : CryptoLaws C} {R : R1CS} {HR : R1CSLaws C R}.

(** A real input that opens the root, or a dummy that subtracts nothing. *)
Definition honest_input (DEPTH : nat) (root recipient : Z) (x : WithdrawExternalInputs) : Prop :=
  wx_wf DEPTH x /\ wx_value x < 2 ^ 248 /\ 0 <= wx_leaf_index x < 2 ^ Z.of_nat DEPTH
  /\ ((wx_is_dummy x = 0 /\ opens DEPTH root recipient x) \/ (wx_is_dummy x = 1 /\ wx_value x = 0)).

Lemma honest_signed DEPTH root recipient x : honest_input DEPTH root recipient x ->
  0 <= signed_value x /\ exists d, alloc_is_dummy (wx_is_dummy x) = Some d /\ d = negb (wx_real x).
Proof.
  intros ((Hv & _) & _ & _ & Hd). unfold is_fr in Hv. unfold signed_value, wx_real, alloc_is_dummy.
  destruct Hd as [[-> _]|[-> ->]]; cbn; split; try lia; eauto.
Qed.

Lemma withdraw_fold_honest DEPTH cfg root recipient xs : forall i0 t0,
  circom_poseidon_config = Some cfg -> (DEPTH <= 251)%nat -> is_fr root -> Forall (honest_input DEPTH root recipient) xs ->
  StronglySorted Z.lt (wx_leaf_index <$> xs) -> Forall (fun x => i0 <= wx_leaf_index x) xs -> is_fr i0 -> 0 <= t0 ->
  t0 + sum_Z (signed_value <$> xs) < 2 ^ 248 ->
  exists i1, is_fr i1 /\ fold_steps (withdraw_generate_step_constraints DEPTH cfg) [root; recipient; i0; t0] xs
             = Some ([root; recipient; i1; t0 + sum_Z (signed_value <$> xs)], true).
Proof.
  induction xs as [|x xs IH]; intros i0 t0 Hcfg HD Hr Hx Hs Hi Hi0 Ht0 Hsum.
  { exists i0. split; [done|]. cbn. by rewrite Z.add_0_r. }
  apply Forall_cons in Hx as [Hx Hxs]. apply Forall_cons in Hi as [Hi His].
  cbn [fmap list_fmap] in Hs. apply StronglySorted_inv in Hs as [Hs Hlt].
  cbn [fmap list_fmap sum_Z foldr] in Hsum |- *. fold (sum_Z (signed_value <$> xs)) in *.
  destruct (honest_signed _ _ _ _ Hx) as [Hsv (d & Hd & Hdr)].
  assert (0 <= sum_Z (signed_value <$> xs)) as Hrest.
  { clear -Hxs. induction Hxs as [|y ys Hy _ IHy]; cbn; [done|]. apply honest_signed in Hy as [Hy _].
    unfold sum_Z in IHy. lia. }
  destruct Hx as (Hwf & Hv & Hix & Hopen). pose proof Hwf as (Hvf & Hif & Hl & Hsib).
  destruct (withdraw_step_spec DEPTH cfg root recipient i0 t0 d (wx_value x) (wx_secret x) (wx_leaf_index x) (wx_siblings x))
    as (st & b & Heq & Hb & Hval); try done; [lia|].
  assert (t0 + signed_value x = if d then t0 - wx_value x else t0 + wx_value x) as Hst.
  { unfold signed_value. rewrite Hdr. destruct (wx_real x); cbn; lia. }
  assert (b = true /\ st = mkWithdrawState root recipient (wx_leaf_index x + 1) (t0 + signed_value x)) as [-> ->].
  { cbv zeta in Hval. rewrite <- Hst in Hval, Hb. specialize (Hval ltac:(lia) Hv ltac:(lia)). split; [|done].
    apply Hb. split_and!; try done; try lia; [subst st; cbn; lia..|].
    intros ->. destruct Hopen as [[_ (_ & Hp & Hroot)]|[E _]]; [done|].
    exfalso. revert Hdr. unfold wx_real. by rewrite E. }
  assert (withdraw_generate_step_constraints DEPTH cfg [root; recipient; i0; t0] x
          = Some ([root; recipient; wx_leaf_index x + 1; t0 + signed_value x], true)) as Hone.
  { unfold withdraw_generate_step_constraints. rewrite Hd, Heq. reflexivity. }
  cbn [fold_steps]. rewrite Hone. synth_simpl.
  cbn [ws_root ws_recipient ws_index ws_total].
  destruct (IH (wx_leaf_index x + 1) (t0 + signed_value x)) as (i1 & Hi1 & ->); try done; try lia.
  - apply Forall_forall. intros y Hy. rewrite Forall_forall in Hlt.
    specialize (Hlt (wx_leaf_index y) ltac:(by apply list_elem_of_fmap_2)). lia.
  - apply (fr_small _ 252); [|lia]. pose proof (Z.pow_le_mono_r 2 (Z.of_nat DEPTH) 251).
    change (2 ^ 252) with (2 * 2 ^ 251). lia.
  - exists i1. split; [done|]. cbn [andb]. by rewrite Z.add_assoc.
Qed.
End folding.

(** ** Complete provers and the accepting contract *)

Section laws.
Context {C : Crypto} {R : R1CS} {G : Groth16} {N : WithdrawNova} {D : DeciderClient} {V : Deciders}.

(** A circuit over field elements, with the Poseidon parameters the keys were made for. *)
Definition circuit_wf (DEPTH : nat) (c : SingleWithdrawCircuit) : Prop :=
  circom_poseidon_config = Some (sw_poseidon_params c)
  /\ Forall (fun x : option Z => forall v, x = Some v -> is_fr v)
       ([sw_merkle_root c; sw_recipient c; sw_withdraw_value c; sw_value c; sw_delta c; sw_secret c; sw_leaf_index c] ++ sw_siblings c)
  /\ length (sw_siblings c) = DEPTH.

(** A satisfied circuit has a proof that the local check and the contract's verifier accept. *)
Class Groth16Complete : Prop := {
  groth16_complete : forall g circuit inputs,
    circuit_wf (withdraw_height g) circuit ->
    sw_generate_constraints (withdraw_height g) circuit = Some (tt, true) -> public_inputs circuit = Some inputs ->
    exists p, groth16_prove (withdraw_height g) circuit = Ok p
      /\ groth16_verify (withdraw_height g) inputs p = Ok true
      /\ length (proof_to_eth p) = 8%nat /\ Forall in_u256 (proof_to_eth p)
      /\ singleWithdrawVerifier g (proof_to_eth p) inputs = true;
}.

(** [attests n i z0 z]: the instance has folded [i] satisfied steps from [z0] to [z]. *)
Class WithdrawProverLaws (attests : WithdrawNovaInstance -> Z -> list Z -> list Z -> Prop) : Prop := {
  wl_init : forall z0, length z0 = 4%nat ->
    exists n, withdraw_initial_nova GLOBAL_TRANSFER_TREE_HEIGHT z0 = Ok n /\ attests n 0 z0 z0;
  wl_step : forall cfg n i z0 z x z',
    circom_poseidon_config = Some cfg -> attests n i z0 z -> wx_wf GLOBAL_TRANSFER_TREE_HEIGHT x ->
    withdraw_generate_step_constraints GLOBAL_TRANSFER_TREE_HEIGHT cfg z x = Some (z', true) ->
    exists n', withdraw_prove_step n x = Ok n' /\ attests n' (i + 1) z0 z';
  wl_verify : forall n i z0 z, attests n i z0 z -> 0 < i ->
    withdraw_nova_verify GLOBAL_TRANSFER_TREE_HEIGHT (withdraw_ivc_proof n) = Ok tt;
  wl_serialize : forall p, exists bs, withdraw_serialize p = Ok bs;
  wl_decider : forall n i z0 z bs, attests n i z0 z -> 2 <= i < 2 ^ 64 -> length z0 = 4%nat -> length z = 4%nat ->
    Forall is_fr (z0 ++ z) -> withdraw_serialize (withdraw_ivc_proof n) = Ok bs ->
    exists pf rest, produce_decider_proof WithdrawGlobal bs = Ok pf
      /\ abi_decode_words 34 pf = Ok ([i] ++ z0 ++ z ++ rest) /\ withdrawDecider true ([i] ++ z0 ++ z ++ rest) = true;
}.
End laws.

Section redeem.
Context {C : Crypto} {HC : CryptoLaws C} {R : R1CS} {HR : R1CSLaws C R}.
Context {G : Groth16} {N : WithdrawNova} {D : DeciderClient} {V : Deciders}.
Context {HG : Groth16Complete} (attests : WithdrawNovaInstance -> Z -> list Z -> list Z -> Prop) {HN : WithdrawProverLaws attests}.

Lemma nova_fold_ok cfg xs : forall n i z0 z z',
  circom_poseidon_config = Some cfg -> attests n i z0 z -> Forall (wx_wf GLOBAL_TRANSFER_TREE_HEIGHT) xs ->
  fold_steps (withdraw_generate_step_constraints GLOBAL_TRANSFER_TREE_HEIGHT cfg) z xs = Some (z', true) ->
  exists n', fold_result (fun nova x => context "failed to prove step in batch withdraw Nova" (withdraw_prove_step nova x)) n xs = Ok n'
    /\ attests n' (i + Z.of_nat (length xs)) z0 z'.
Proof.
  induction xs as [|x xs IH]; intros n i z0 z z' Hcfg Ha Hwf Hrun.
  - cbn in Hrun. injection Hrun as <-. exists n. cbn. by rewrite Z.add_0_r.
  - apply Forall_cons in Hwf as [Hx Hxs]. cbn [fold_steps] in Hrun. apply Synth_bind_inv in Hrun as (z1 & Hstep & Hrun).
    destruct (wl_step (attests := attests) cfg n i z0 z x z1 Hcfg Ha Hx Hstep) as (n1 & Hp & Ha1).
    cbn [fold_result]. rewrite Hp. cbn [context map_err mbind result_bind].
    destruct (IH n1 (i + 1) z0 z1 z' Hcfg Ha1 Hxs Hrun) as (n' & -> & Ha'). exists n'. split; [done|].
    replace (i + Z.of_nat (length (x :: xs))) with (i + 1 + Z.of_nat (length xs)) by (cbn [length]; lia). done.
Qed.

(** The contract accepts a proof about its stored root and its own chain. *)
Lemma teleport_common_accepts self chainid (g : bool) hint gr value (t : Token) v :
  let root := slot (if g then globalTransferRoots v else provedTransferRoots v) hint in
  let old := slot (totalTeleported v) (to_u256 gr) in
  root <> 0 -> gr_chain_id gr = as_u64 chainid -> 0 <= old < value -> value < 2 ^ 248 ->
  tok_verifier t = self -> index t <> u256_max ->
  teleport_common self chainid g hint root (to_u256 gr) gr value t v
  = Ok (mkToken (index t + 1) (hash_chain (hashChain t) (gr_address gr mod 2 ^ 160) (value - old)) self,
        set_teleported (<[to_u256 gr := value]> (totalTeleported v)) v,
        [Teleport (gr_address gr mod 2 ^ 160) (value - old)]).
Proof.
  cbv zeta. intros Hz Hid Hlt Hv Hself Hix. unfold teleport_common, require.
  rewrite (proj2 (Z.eqb_neq _ _) Hz), Z.eqb_refl. cbn [negb mbind result_bind].
  rewrite GeneralRecipientLib_hash_eq, Z.eqb_refl, Hid, Z.eqb_refl. cbn [mbind result_bind].
  rewrite (proj2 (Z.ltb_lt _ _)) by lia. cbn [mbind result_bind]. unfold zERC20_teleport, afterTokenTransfer, require.
  rewrite Hself, Z.eqb_refl. cbn [mbind result_bind]. rewrite (proj2 (Z.leb_le _ MASK248)) by (unfold MASK248; lia).
  cbn [mbind result_bind]. rewrite (proj2 (Z.eqb_neq _ _) Hix), ShaHashChainLib_compute_eq. cbn [mbind result_bind].
  do 4 f_equal. f_equal. f_equal. lia.
Qed.

(** ** From Merkle proofs to an accepted transaction *)

(** A burn the client can prove: its secret is known and derives its address, and its Merkle proof opens the aggregation root. *)
Record ready (s : AggregationTreeState) (secrets : gmap Z Z) (gr : GeneralRecipient) (g : GlobalTeleportMerkleProof) : Prop := {
  rd_secret : exists secret, secrets !! ie_to (gp_event g) = Some secret
    /\ compute_burn_address_from_secret (to_fr gr) (b256_to_fr secret) = Ok (ie_to (gp_event g));
  rd_value : 0 <= ie_value (gp_event g) < 2 ^ 248;
  rd_siblings : length (siblings (gp_proof g)) = GLOBAL_TRANSFER_TREE_HEIGHT /\ Forall is_fr (siblings (gp_proof g));
  rd_index : 0 <= gp_leaf_index g < 2 ^ 46;
  rd_root : path_root (event_leaf_hash (gp_event g)) (gp_leaf_index g) (siblings (gp_proof g)) = u256_to_fr (aggregation_root s);
}.

Lemma ready_opens s secrets gr g secret :
  ready s secrets gr g ->
  compute_burn_address_from_secret (to_fr gr) (b256_to_fr secret) = Ok (ie_to (gp_event g)) ->
  u256_to_fr (ie_value (gp_event g)) = ie_value (gp_event g) /\ fr_of_biguint (gp_leaf_index g) = gp_leaf_index g
  /\ opens GLOBAL_TRANSFER_TREE_HEIGHT (u256_to_fr (aggregation_root s)) (to_fr gr)
       (mkWithdrawExternalInputs 0 (ie_value (gp_event g)) (b256_to_fr secret) (gp_leaf_index g) (siblings (gp_proof g))).
Proof.
  intros Hg Hsec. pose proof (rd_value _ _ _ _ Hg) as Hv. pose proof (rd_index _ _ _ _ Hg) as Hi.
  assert (is_fr (ie_value (gp_event g))) as Hvf by (apply (fr_small _ 248); [done|lia]).
  assert (is_fr (gp_leaf_index g)) as Hif by (apply (fr_small _ 46); [done|lia]).
  rewrite u256_to_fr_id by done. split; [done|]. split; [by apply Z.mod_small|].
  rewrite compute_burn_address_spec in Hsec. destruct (pow_ok _) eqn:Hpow; [|done]. injection Hsec as Hto.
  unfold opens. cbn [wx_leaf_index wx_secret wx_value wx_siblings]. split_and!; [exact (proj2 Hi) | done |].
  rewrite <- (rd_root _ _ _ _ Hg). unfold event_leaf_hash. rewrite <- Hto, (address_to_fr_id _ (burn_address_of_range _ _)), (u256_to_fr_id _ Hvf). reflexivity.
Qed.

Lemma secret_of_ready s secrets gr g :
  ready s secrets gr g -> exists secret, secret_of secrets g = Ok (b256_to_fr secret)
    /\ compute_burn_address_from_secret (to_fr gr) (b256_to_fr secret) = Ok (ie_to (gp_event g)).
Proof. intros [(secret & Hs & Hc) _ _ _ _]. exists secret. unfold secret_of. rewrite Hs. by split. Qed.

Lemma to_fr_u256 gr : to_fr gr = to_u256 gr /\ is_fr (to_u256 gr) /\ in_u256 (to_u256 gr).
Proof.
  pose proof (to_u256_range gr) as Hr.
  assert (is_fr (to_u256 gr)) as Hf by (apply (fr_small _ 249); lia).
  unfold to_fr. rewrite u256_to_fr_id by done. split_and!; try done; unfold in_u256; lia.
Qed.

Lemma mapM_assigned (l : list Z) : mapM id (Some <$> l) = Some l.
Proof. induction l as [|x l IH]; [done|]. cbn [fmap list_fmap mapM]. cbn [mbind option_bind id]. by rewrite IH. Qed.

(** The circuit of a burn that opens its root, without fee. *)
Definition burn_circuit (cfg : PoseidonConfig) (root recipient value secret leaf_index : Z) (sibs : list Z) : SingleWithdrawCircuit :=
  mkSingleWithdrawCircuit cfg (Some root) (Some recipient) (Some value) (Some value) (Some 0) (Some secret) (Some leaf_index) (Some <$> sibs).

Lemma burn_circuit_wf DEPTH cfg root recipient value secret leaf_index sibs :
  circom_poseidon_config = Some cfg -> length sibs = DEPTH -> Forall is_fr [root; recipient; value; secret; leaf_index] -> Forall is_fr sibs ->
  circuit_wf DEPTH (burn_circuit cfg root recipient value secret leaf_index sibs).
Proof.
  intros Hcfg Hl Hfr Hs. split; [exact Hcfg|]. split; [|by cbn; rewrite length_fmap].
  apply Forall_app_2; [|apply Forall_fmap; eapply Forall_impl; [exact Hs|]; intros x Hx v [= <-]; exact Hx].
  rewrite Forall_forall in Hfr. assert (is_fr 0) as H0 by by vm_compute.
  repeat (constructor; [intros ? [= <-]; first [exact H0 | apply Hfr; set_solver]|]). constructor.
Qed.

Lemma burn_circuit_satisfied DEPTH cfg root recipient value secret leaf_index sibs :
  circom_poseidon_config = Some cfg -> (DEPTH <= 252)%nat -> length sibs = DEPTH -> is_fr root -> is_fr value -> is_fr leaf_index ->
  Forall is_fr sibs -> value < 2 ^ 248 ->
  opens DEPTH root recipient (mkWithdrawExternalInputs 0 value secret leaf_index sibs) ->
  sw_generate_constraints DEPTH (burn_circuit cfg root recipient value secret leaf_index sibs) = Some (tt, true).
Proof.
  intros Hcfg HD Hl Hr Hv Hi Hs Hv2 (Hlt & Hpow & Hroot). cbn [wx_leaf_index wx_secret wx_value wx_siblings] in *.
  unfold sw_generate_constraints, burn_circuit.
  cbn [sw_merkle_root sw_recipient sw_withdraw_value sw_value sw_delta sw_secret sw_leaf_index sw_siblings sw_poseidon_params assigned].
  rewrite mapM_assigned. cbn [assigned fmap option_fmap option_map]. synth_simpl.
  replace (fr_of_biguint leaf_index) with leaf_index by (symmetry; by apply Z.mod_small).
  assert (is_fr 0) as H0 by by vm_compute.
  destruct (single_withdraw_spec DEPTH cfg root recipient value 0 secret leaf_index sibs) as (b & -> & Hb); [assumption..|].
  assert (b = true) as ->.
  { apply Hb. split; [exact Hlt|]. split; [exact Hv2|]. split; [apply Hv|]. split; [exact Hpow | exact Hroot]. }
  synth_simpl. unfold fr_sub. rewrite Z.sub_0_r, (Z.mod_small _ _ Hv). by rewrite Z.eqb_refl.
Qed.

(** A single burn: the Groth16 proof. *)
Lemma single_proof_ok s secrets gr g cfg num :
  circom_poseidon_config = Some cfg -> is_fr (aggregation_root s) -> ready s secrets gr g ->
  exists words, redeem_proof num s secrets gr [g]
    = Ok (true, abi_encode_words (words ++ [aggregation_root s; to_u256 gr; ie_value (gp_event g)]))
    /\ length words = 8%nat /\ Forall in_u256 words
    /\ singleWithdrawVerifier true words [aggregation_root s; to_u256 gr; ie_value (gp_event g)] = true.
Proof.
  intros Hcfg Hroot Hg. destruct (secret_of_ready _ _ _ _ Hg) as (secret & Hsec & Hburn).
  destruct (ready_opens _ _ _ _ _ Hg Hburn) as (Hv & Hi & Hopen).
  pose proof (rd_value _ _ _ _ Hg) as Hval. pose proof (rd_index _ _ _ _ Hg) as Hidx. destruct (rd_siblings _ _ _ _ Hg) as [Hl Hs].
  destruct (to_fr_u256 gr) as (Hgr & Hgf & _). rewrite (u256_to_fr_id _ Hroot), Hgr in Hopen.
  assert (is_fr (ie_value (gp_event g))) as Hvf by (apply (fr_small _ 248); [done|lia]).
  assert (is_fr (gp_leaf_index g)) as Hif by (apply (fr_small _ 46); [done|lia]).
  assert (GLOBAL_TRANSFER_TREE_HEIGHT <= 252)%nat as HD
    by (unfold GLOBAL_TRANSFER_TREE_HEIGHT, TRANSFER_TREE_HEIGHT, AGGREGATION_TREE_HEIGHT; lia).
  pose proof (burn_circuit_satisfied _ cfg _ _ _ _ _ _ Hcfg HD Hl Hroot Hvf Hif Hs (proj2 Hval) Hopen) as Hsat.
  assert (circuit_wf GLOBAL_TRANSFER_TREE_HEIGHT (burn_circuit cfg (aggregation_root s) (to_u256 gr) (ie_value (gp_event g)) (b256_to_fr secret)
            (gp_leaf_index g) (siblings (gp_proof g)))) as Hwf.
  { apply burn_circuit_wf; [done | done | | done]. repeat (apply Forall_cons_2; [first [assumption | apply is_fr_mod]|]). constructor. }
  destruct (groth16_complete true _ [aggregation_root s; to_u256 gr; ie_value (gp_event g)] Hwf Hsat eq_refl) as (p & Hp & Hver & Hlen & Hw & Hsv).
  exists (proof_to_eth p). split; [|split; [exact Hlen|]; split; [exact Hw | exact Hsv]].
  unfold redeem_proof. rewrite Hsec. cbn [mbind result_bind]. unfold single_teleport_proof.
  rewrite Hcfg. cbn [ok_or mbind result_bind]. rewrite Hl, Nat.eqb_refl. cbn [negb].
  rewrite (u256_to_fr_id _ Hroot), Hv, Hgr. unfold generate_proof. fold (burn_circuit cfg (aggregation_root s) (to_u256 gr) (ie_value (gp_event g))
    (b256_to_fr secret) (gp_leaf_index g) (siblings (gp_proof g))).
  change (public_inputs (burn_circuit _ ?r ?c ?v _ _ _)) with (Some [r; c; v]). cbn [ok_or mbind result_bind].
  unfold withdraw_height in Hp, Hver. rewrite Hp. cbn [mbind result_bind]. rewrite Hver. cbn [mbind result_bind negb context map_err].
  unfold abi_encode_words. rewrite fmap_app, concat_app. reflexivity.
Qed.

(** Several burns: the folded proof. *)
Local Abbreviation H46 := GLOBAL_TRANSFER_TREE_HEIGHT.

Lemma real_inputs_ok s secrets gr gs :
  Forall (ready s secrets gr) gs ->
  exists secs xs, map_result (secret_of secrets) gs = Ok secs /\ length secs = length gs
    /\ map_result (withdraw_input H46) (zip (zip (zip (gp_event <$> gs) (gp_proof <$> gs)) (gp_leaf_index <$> gs)) secs) = Ok xs
    /\ Forall (honest_input H46 (u256_to_fr (aggregation_root s)) (to_fr gr)) xs
    /\ wx_leaf_index <$> xs = gp_leaf_index <$> gs
    /\ signed_value <$> xs = (fun g => ie_value (gp_event g)) <$> gs.
Proof.
  induction 1 as [|g gs Hg _ (secs & xs & H1 & H2 & H3 & H4 & H5 & H6)]; [by exists [], []|].
  destruct (secret_of_ready _ _ _ _ Hg) as (secret & Hsec & Hburn). destruct (ready_opens _ _ _ _ _ Hg Hburn) as (Hv & Hi & Hopen).
  destruct (rd_siblings _ _ _ _ Hg) as [Hl Hs]. pose proof (rd_value _ _ _ _ Hg) as Hval. pose proof (rd_index _ _ _ _ Hg) as Hidx.
  set (x := mkWithdrawExternalInputs 0 (ie_value (gp_event g)) (b256_to_fr secret) (gp_leaf_index g) (siblings (gp_proof g))) in *.
  exists (b256_to_fr secret :: secs), (x :: xs). cbn [map_result fmap list_fmap zip_with length].
  rewrite Hsec, H1. cbn [mbind result_bind]. rewrite H2, H3. unfold withdraw_input at 1.
  rewrite Hl, Nat.eqb_refl, Hv, Hi. cbn [negb mbind result_bind]. split_and!; try reflexivity.
  - constructor; [|exact H4]. split; [|split; [apply Hval|split; [exact Hidx|left; split; [reflexivity|exact Hopen]]]].
    split; [apply (fr_small _ 248); [exact Hval|lia]|]. split; [apply (fr_small _ 46); [exact Hidx|lia]|]. split; [exact Hl|exact Hs].
  - cbn [wx_leaf_index x]. by rewrite H5.
  - by rewrite H6.
Qed.

Lemma sorted_app_lt (l k : list Z) b : StronglySorted Z.lt l -> StronglySorted Z.lt k ->
  Forall (fun x => x < b) l -> Forall (fun y => b <= y) k -> StronglySorted Z.lt (l ++ k).
Proof.
  induction 1 as [|x l Hl IH Hx]; intros Hk Hb Hge; [done|]. apply Forall_cons in Hb as [Hxb Hb]. cbn. constructor; [by apply IH|].
  apply Forall_app_2; [done|]. eapply Forall_impl; [exact Hge|]. cbn. lia.
Qed.

Lemma dummy_steps_ok (n : nat) root recipient : (1 <= n <= 9)%nat ->
  let o := 2 ^ 46 - 1 - Z.of_nat n in
  Forall (honest_input H46 root recipient) (dummy_steps H46 n)
  /\ wx_leaf_index <$> dummy_steps H46 n = (fun i => o + Z.of_nat i) <$> seq 0 n
  /\ signed_value <$> dummy_steps H46 n = replicate n 0.
Proof.
  cbv zeta. intros Hn. unfold dummy_steps.
  assert (u64_sub (u64_sub (Z.shiftl 1 (Z.of_nat H46)) 1) (Z.of_nat n) = 2 ^ 46 - 1 - Z.of_nat n) as ->.
  { change (u64_sub (Z.shiftl 1 (Z.of_nat H46)) 1) with (2 ^ 46 - 1). unfold u64_sub. apply Z.mod_small. lia. }
  assert (forall i, i ∈ seq 0 n -> dummy_withdraw_ext_input H46 (u64_add (2 ^ 46 - 1 - Z.of_nat n) (Z.of_nat i)) 0
    = mkWithdrawExternalInputs 1 0 0 (2 ^ 46 - 1 - Z.of_nat n + Z.of_nat i) (replicate H46 0)) as Hd.
  { intros i Hi%elem_of_seq. unfold dummy_withdraw_ext_input, u64_add. rewrite u256_to_fr_0.
    rewrite (Z.mod_small (2 ^ 46 - 1 - Z.of_nat n + Z.of_nat i)) by lia. unfold fr_of_biguint.
    rewrite Z.mod_small; [done|]. apply (fr_small _ 46); lia. }
  rewrite (list_fmap_ext _ (fun i => mkWithdrawExternalInputs 1 0 0 (2 ^ 46 - 1 - Z.of_nat n + Z.of_nat i) (replicate H46 0)))
    by (intros i x Hx; apply Hd; by eapply list_elem_of_lookup_2).
  rewrite <- !list_fmap_compose. split_and!.
  - apply Forall_fmap, Forall_forall. intros i Hi%elem_of_seq. cbn [compose].
    assert (0 <= 2 ^ 46 - 1 - Z.of_nat n + Z.of_nat i < 2 ^ 46) as Hr by lia.
    split; [|split; [done|split; [exact Hr|by right]]]. split; [by vm_compute|].
    split; [apply (fr_small _ 46); [exact Hr|lia]|]. split; [apply length_replicate|apply Forall_replicate; by vm_compute].
  - reflexivity.
  - clear. generalize 0%nat at 1 as k. induction n as [|n IH]; intros k; [done|]. cbn. f_equal. apply IH.
Qed.

Lemma sorted_length (l : list Z) : forall lo b, StronglySorted Z.lt l -> Forall (fun x => lo <= x < b) l -> lo <= b ->
  Z.of_nat (length l) <= b - lo.
Proof.
  induction l as [|x l IH]; intros lo b Hs Hb Hlo; [cbn; lia|]. apply StronglySorted_inv in Hs as [Hs Hx].
  apply Forall_cons in Hb as [Hxb Hb]. cbn [length]. specialize (IH (x + 1) b Hs).
  rewrite Forall_forall in Hx, Hb. enough (Z.of_nat (length l) <= b - (x + 1)) by lia. apply IH; [|lia].
  apply Forall_forall. intros y Hy. specialize (Hx y Hy). specialize (Hb y Hy). lia.
Qed.

Lemma sum_Z_app l k : sum_Z (l ++ k) = sum_Z l + sum_Z k.
Proof. induction l as [|x l IH]; [done|]. cbn. fold (sum_Z (l ++ k)) (sum_Z l). lia. Qed.
Lemma sum_Z_zeros n : sum_Z (replicate n 0) = 0.
Proof. by induction n. Qed.

Definition burns_total (gs : list GlobalTeleportMerkleProof) : Z := sum_Z ((fun g => ie_value (gp_event g)) <$> gs).

(** The steps of a batch: every constraint of every step holds. *)
Lemma batch_steps_ok s secrets gr gs cfg num :
  circom_poseidon_config = Some cfg -> is_fr (aggregation_root s) -> (1 <= num <= 9)%nat ->
  Forall (ready s secrets gr) gs -> StronglySorted Z.lt (gp_leaf_index <$> gs) ->
  Forall (fun g => gp_leaf_index g < 2 ^ 46 - 1 - Z.of_nat num) gs -> burns_total gs < 2 ^ 248 ->
  exists secs xs i1, is_fr i1 /\ map_result (secret_of secrets) gs = Ok secs /\ length secs = length gs
    /\ map_result (withdraw_input H46) (zip (zip (zip (gp_event <$> gs) (gp_proof <$> gs)) (gp_leaf_index <$> gs)) secs) = Ok xs
    /\ length xs = length gs
    /\ Forall (wx_wf H46) (xs ++ dummy_steps H46 num)
    /\ fold_steps (withdraw_generate_step_constraints H46 cfg) (initial_state (aggregation_root s) (to_u256 gr)) (xs ++ dummy_steps H46 num)
       = Some ([aggregation_root s; to_u256 gr; i1; burns_total gs], true).
Proof.
  intros Hcfg Hroot Hn Hg Hs Hlt Htot. destruct (to_fr_u256 gr) as (Hgr & _).
  destruct (real_inputs_ok _ _ _ _ Hg) as (secs & xs & H1 & H2 & H3 & H4 & H5 & H6).
  rewrite (u256_to_fr_id _ Hroot), Hgr in H4.
  destruct (dummy_steps_ok num (aggregation_root s) (to_u256 gr) Hn) as (D1 & D2 & D3).
  assert (Forall (honest_input H46 (aggregation_root s) (to_u256 gr)) (xs ++ dummy_steps H46 num)) as Hall by (by apply Forall_app_2).
  assert (sum_Z (signed_value <$> xs ++ dummy_steps H46 num) = burns_total gs) as Hsum.
  { rewrite fmap_app, D3, H6, sum_Z_app, sum_Z_zeros, Z.add_0_r. done. }
  destruct (withdraw_fold_honest H46 cfg (aggregation_root s) (to_u256 gr) (xs ++ dummy_steps H46 num) 0 0) as (i1 & Hi1 & Hrun).
  - exact Hcfg.
  - unfold H46, GLOBAL_TRANSFER_TREE_HEIGHT, TRANSFER_TREE_HEIGHT, AGGREGATION_TREE_HEIGHT. lia.
  - exact Hroot.
  - exact Hall.
  - rewrite fmap_app, H5, D2. apply (sorted_app_lt _ _ (2 ^ 46 - 1 - Z.of_nat num)); [exact Hs | | by apply Forall_fmap |].
    + generalize (2 ^ 46 - 1 - Z.of_nat num). clear. intros o. generalize 0%nat as k. induction num as [|n IH]; intros k; [constructor|].
      cbn [seq fmap list_fmap]. constructor; [apply IH|]. apply Forall_fmap, Forall_forall. intros i Hi%elem_of_seq. cbn. lia.
    + apply Forall_fmap, Forall_forall. intros i _. cbn. lia.
  - eapply Forall_impl; [exact Hall|]. intros x (_ & _ & Hx & _). lia.
  - by vm_compute.
  - lia.
  - rewrite Hsum. lia.
  - rewrite Hsum, Z.add_0_l in Hrun. exists secs, xs, i1. split_and!; try assumption.
    + apply (f_equal length) in H5. by rewrite !length_fmap in H5.
    + eapply Forall_impl; [exact Hall|]. intros x Hx. apply Hx.
Qed.

Lemma batch_proof_ok s secrets gr gs cfg num :
  circom_poseidon_config = Some cfg -> is_fr (aggregation_root s) -> (1 <= num <= 9)%nat -> (1 < length gs)%nat ->
  Forall (ready s secrets gr) gs -> StronglySorted Z.lt (gp_leaf_index <$> gs) ->
  Forall (fun g => gp_leaf_index g < 2 ^ 46 - 1 - Z.of_nat num) gs -> 0 <= burns_total gs < 2 ^ 248 ->
  exists pf i i1 rest, redeem_proof num s secrets gr gs = Ok (false, pf)
    /\ abi_decode_words 34 pf = Ok ([i; aggregation_root s; to_u256 gr; 0; 0; aggregation_root s; to_u256 gr; i1; burns_total gs] ++ rest)
    /\ withdrawDecider true ([i; aggregation_root s; to_u256 gr; 0; 0; aggregation_root s; to_u256 gr; i1; burns_total gs] ++ rest) = true.
Proof.
  intros Hcfg Hroot Hn Hlen Hg Hs Hlt Htot. destruct (to_fr_u256 gr) as (Hgr & Hgf & _).
  destruct (batch_steps_ok s secrets gr gs cfg num) as (secs & xs & i1 & Hi1 & H1 & H2 & H3 & H4 & Hwf & Hrun); [assumption..|lia|].
  set (z0 := initial_state (aggregation_root s) (to_u256 gr)) in *. set (z := [_; _; _; _]) in Hrun.
  destruct (wl_init (attests := attests) z0 eq_refl) as (n0 & Hinit & Ha0).
  destruct (nova_fold_ok cfg _ n0 0 z0 z0 z Hcfg Ha0 Hwf Hrun) as (n & Hfold & Ha). rewrite Z.add_0_l in Ha.
  set (steps := xs ++ dummy_steps H46 num) in *.
  assert (2 <= Z.of_nat (length steps) < 2 ^ 64) as Hi.
  { unfold steps. rewrite length_app, H4. unfold dummy_steps. rewrite length_fmap, length_seq.
    pose proof (sorted_length (gp_leaf_index <$> gs) 0 (2 ^ 46) Hs) as Hb. rewrite length_fmap in Hb.
    enough (Z.of_nat (length gs) <= 2 ^ 46 - 0) by lia. apply Hb; [|done]. apply Forall_fmap.
    eapply Forall_impl; [exact Hg|]. intros g Hrd. apply (rd_index _ _ _ _ Hrd). }
  pose proof (wl_verify (attests := attests) n _ _ _ Ha ltac:(lia)) as Hver.
  destruct (wl_serialize (attests := attests) (withdraw_ivc_proof n)) as [bs Hbs].
  assert (Forall is_fr (z0 ++ z)) as Hfr.
  { assert (is_fr 0) as H0 by by vm_compute. assert (is_fr (burns_total gs)) as Ht by (apply (fr_small _ 248); [exact Htot|lia]).
    unfold z0, z, initial_state. cbn [app]. repeat apply Forall_cons_2; try assumption. constructor. }
  destruct (wl_decider (attests := attests) n _ z0 z bs Ha Hi eq_refl eq_refl Hfr Hbs) as (pf & rest & Hpf & Hdec & Hok).
  exists pf, (Z.of_nat (length steps)), i1, rest. split; [|split; [exact Hdec | exact Hok]].
  assert (redeem_proof num s secrets gr gs
    = (secs' ← map_result (secret_of secrets) gs;
       proof ← context "failed to generate batch teleport proof"
         (batch_teleport_proof H46 num (to_fr gr) (aggregation_root s) (gp_event <$> gs) (gp_proof <$> gs) (gp_leaf_index <$> gs) secs');
       Ok (false, proof))) as ->.
  { destruct gs as [|g1 [|g2 gs']]; [cbn in Hlen; lia.. | reflexivity]. }
  rewrite H1. cbn [mbind result_bind]. unfold batch_teleport_proof. rewrite !length_fmap, H2, !Nat.eqb_refl. cbn [negb orb].
  rewrite H3. cbn [mbind result_bind]. rewrite (u256_to_fr_id _ Hroot), Hgr. fold z0. rewrite Hinit. cbn [context map_err mbind result_bind].
  fold steps. rewrite Hfold. cbn [mbind result_bind]. rewrite Hver. cbn [context map_err mbind result_bind].
  change (circuit_kind_of H46) with (Ok WithdrawGlobal : result string CircuitKind). cbn [mbind result_bind].
  rewrite Hbs. cbn [context map_err mbind result_bind]. rewrite Hpf. reflexivity.
Qed.

(** ** The submission *)

(** The recipient's chain holds the aggregation root of [s] and can mint. *)
Record contract_ready (self chainid : Z) (s : AggregationTreeState) (gr : GeneralRecipient) (t : Token) (v : Verifier) : Prop := {
  cr_root : slot (globalTransferRoots v) (latest_agg_seq s) = aggregation_root s;
  cr_nonzero : aggregation_root s <> 0;
  cr_fr : is_fr (aggregation_root s);
  cr_paused : paused v = false;
  cr_chain : gr_chain_id gr = as_u64 chainid;
  cr_self : tok_verifier t = self;
  cr_index : index t <> u256_max;
}.

Definition minted (self : Z) (gr : GeneralRecipient) (amount : Z) (t : Token) : Token :=
  mkToken (index t + 1) (hash_chain (hashChain t) (gr_address gr mod 2 ^ 160) amount) self.
Definition claimed (gr : GeneralRecipient) (total : Z) (v : Verifier) : Verifier :=
  set_teleported (<[to_u256 gr := total]> (totalTeleported v)) v.

Lemma redeem_submits self chainid s secrets gr gs cfg num t v :
  circom_poseidon_config = Some cfg -> contract_ready self chainid s gr t v -> (1 <= num <= 9)%nat -> gs <> [] ->
  Forall (ready s secrets gr) gs -> StronglySorted Z.lt (gp_leaf_index <$> gs) ->
  Forall (fun g => gp_leaf_index g < 2 ^ 46 - 1 - Z.of_nat num) gs ->
  0 <= slot (totalTeleported v) (to_u256 gr) < burns_total gs -> burns_total gs < 2 ^ 248 ->
  exists p, redeem_proof num s secrets gr gs = Ok p
    /\ submit_teleport self chainid s gr p.1 p.2 (t, v)
       = ((minted self gr (burns_total gs - slot (totalTeleported v) (to_u256 gr)) t, claimed gr (burns_total gs) v), Ok tt).
Proof.
  intros Hcfg Hc Hn Hne Hg Hs Hlt Hold Htot.
  pose proof (teleport_common_accepts self chainid true (latest_agg_seq s) gr (burns_total gs) t v) as Hacc. cbv beta iota zeta in Hacc.
  rewrite (cr_root _ _ _ _ _ _ Hc) in Hacc.
  specialize (Hacc (cr_nonzero _ _ _ _ _ _ Hc) (cr_chain _ _ _ _ _ _ Hc) Hold Htot (cr_self _ _ _ _ _ _ Hc) (cr_index _ _ _ _ _ _ Hc)).
  destruct gs as [|g [|g2 gs']]; [done| |].
  - apply Forall_cons in Hg as [Hg _].
    destruct (single_proof_ok s secrets gr g cfg num Hcfg (cr_fr _ _ _ _ _ _ Hc) Hg) as (words & Hp & Hl & Hw & Hok).
    eexists. split; [exact Hp|]. cbn [fst snd]. unfold submit_teleport. cbn [fst snd]. unfold singleTeleport.
    rewrite (cr_paused _ _ _ _ _ _ Hc). cbn [negb require mbind result_bind].
    assert (burns_total [g] = ie_value (gp_event g)) as Hb by (unfold burns_total, sum_Z; cbn; lia). rewrite Hb in *.
    set (sig := [aggregation_root s; to_u256 gr; ie_value (gp_event g)]) in *.
    assert (abi_decode_words 11 (abi_encode_words (words ++ sig)) = Ok (words ++ sig)) as Hdec.
    { replace 11%nat with (length (words ++ sig)) by (rewrite length_app, Hl; reflexivity). apply abi_roundtrip.
      apply Forall_app_2; [exact Hw|]. destruct (to_fr_u256 gr) as (_ & _ & Hu). pose proof (rd_value _ _ _ _ Hg) as Hval.
      pose proof (is_fr_u256 _ (cr_fr _ _ _ _ _ _ Hc)) as Hr.
      repeat apply Forall_cons_2; [exact Hr | exact Hu | unfold in_u256; lia | constructor]. }
    rewrite Hdec. cbn [mbind result_bind]. rewrite (drop_app_length' words sig 8 (eq_sym Hl)), (take_app_length' words sig 8 (eq_sym Hl)), Hok.
    cbn [require mbind result_bind]. change (word sig 0) with (aggregation_root s). change (word sig 1) with (to_u256 gr).
    change (word sig 2) with (ie_value (gp_event g)). rewrite Hacc. reflexivity.
  - destruct (batch_proof_ok s secrets gr (g :: g2 :: gs') cfg num Hcfg (cr_fr _ _ _ _ _ _ Hc) Hn) as (pf & i & i1 & rest & Hp & Hdec & Hok);
      [cbn; lia | assumption.. | lia |].
    eexists. split; [exact Hp|]. cbn [fst snd]. unfold submit_teleport. cbn [fst snd]. unfold teleport.
    rewrite (cr_paused _ _ _ _ _ _ Hc). cbn [negb require mbind result_bind]. rewrite Hdec. cbn [mbind result_bind].
    set (tot := burns_total (g :: g2 :: gs')) in *. set (w := _ ++ rest) in *.
    change (word w 1) with (aggregation_root s). change (word w 2) with (to_u256 gr). change (word w 3) with 0. change (word w 4) with 0.
    change (word w 5) with (aggregation_root s). change (word w 6) with (to_u256 gr). change (word w 8) with tot.
    rewrite !Z.eqb_refl, Hok. cbn [require mbind result_bind]. rewrite Hacc. reflexivity.
Qed.

(** ** Totals *)

Lemma foldl_sum_mod {A} (f : A -> Z) l m : 0 < m -> forall a, 0 <= a < m ->
  foldl (fun acc x => (acc + f x) mod m) a l = (a + sum_Z (f <$> l)) mod m.
Proof.
  intros Hm. induction l as [|x l IH]; intros a Ha; cbn; [by rewrite Z.add_0_r, Z.mod_small|].
  rewrite IH by (apply Z.mod_pos_bound; lia). rewrite Z.add_mod_idemp_l by lia. fold (sum_Z (f <$> l)). f_equal. lia.
Qed.

Lemma sum_mods m l : m <> 0 -> sum_Z ((fun x => x mod m) <$> l) mod m = sum_Z l mod m.
Proof.
  intros Hm. induction l as [|x l IH]; [done|]. cbn. fold (sum_Z ((fun x => x mod m) <$> l)) (sum_Z l).
  rewrite Z.add_mod_idemp_l, <- Z.add_mod_idemp_r, IH, Z.add_mod_idemp_r by done. done.
Qed.

Lemma sum_concat {A} (f : A -> Z) ls : sum_Z (f <$> concat ls) = sum_Z ((fun l => sum_Z (f <$> l)) <$> ls).
Proof. induction ls as [|l ls IH]; [done|]. cbn [concat fmap list_fmap]. rewrite fmap_app, sum_Z_app. cbn. by rewrite IH. Qed.

Lemma sum_perm l k : l ≡ₚ k -> sum_Z l = sum_Z k.
Proof. induction 1; unfold sum_Z in *; cbn; lia. Qed.

Lemma sum_nonneg l : Forall (fun x => 0 <= x) l -> 0 <= sum_Z l.
Proof. induction 1; unfold sum_Z in *; cbn; lia. Qed.

(** ** The whole command *)

Context {I : IndexerClient}.

(** What the client knows of an eligible event. *)
Definition payable (secrets : gmap Z Z) (gr : GeneralRecipient) (e : IndexedEvent) : Prop :=
  0 <= ie_value e < 2 ^ 248
  /\ exists secret, secrets !! ie_to e = Some secret
     /\ compute_burn_address_from_secret (to_fr gr) (b256_to_fr secret) = Ok (ie_to e).

Definition events_of (cs : list ChainView) : list IndexedEvent := concat (cv_events <$> cs).
Definition events_total (cs : list ChainView) : Z := sum_Z (ie_value <$> events_of cs).

(** The client's configuration agrees with the views. *)
Definition configured (s : AggregationTreeState) (tokens : list TokenEntry) (c : ChainView) : Prop :=
  find_token_by_chain tokens (te_chain_id (cv_token c)) = Ok (cv_token c)
  /\ tree_root_indices s !! cv_position c = Some (Z.of_nat (cv_index c)).

(** The events as [separate_events_by_eligibility] hands them on, with any pending ones. *)
Definition separated (pending : ChainView -> list IndexedEvent) (cs : list ChainView) : list (Z * EventsWithEligibility) :=
  (fun c => (te_chain_id (cv_token c), mkEventsWithEligibility (cv_events c) (pending c))) <$> cs.

Lemma separated_total pending cs : 0 <= events_total cs < 2 ^ 256 ->
  sum_u256 ((fun c => eligible_total_value c.2) <$> separated pending cs) = events_total cs.
Proof.
  intros Ht. unfold sum_u256. rewrite (foldl_sum_mod (fun x => x)), list_fmap_id, Z.add_0_l by lia. unfold separated.
  rewrite <- list_fmap_compose.
  rewrite (list_fmap_ext _ ((fun x => x mod 2 ^ 256) ∘ (fun c => sum_Z (ie_value <$> cv_events c)))).
  2:{ intros i c _. cbn [compose snd]. unfold eligible_total_value, total_value. cbn [eligible].
      rewrite (foldl_sum_mod ie_value) by lia. by rewrite Z.add_0_l. }
  rewrite list_fmap_compose, sum_mods by lia. unfold events_total, events_of in *. rewrite sum_concat in Ht |- *.
  rewrite <- list_fmap_compose in Ht |- *. by rewrite Z.mod_small.
Qed.

Lemma local_proofs_configured s snapshot tokens pending c :
  honest_chain s snapshot c -> configured s tokens c ->
  local_proofs_of_chain s tokens (te_chain_id (cv_token c), mkEventsWithEligibility (cv_events c) (pending c)) = fetch_chain c.
Proof.
  intros Hc [Htok Hidx]. pose proof (fetch_chain_ok _ _ _ Hc) as Hf. rewrite Hf. unfold local_proofs_of_chain, get_tree_id_for_chain_id.
  cbn [fst snd]. rewrite (hc_position _ _ _ Hc), Hidx. cbn [ok_or fmap result_fmap mbind result_bind]. rewrite Htok. cbn [mbind result_bind eligible].
  unfold fetch_chain in Hf. destruct (fetch_local_teleport_merkle_proofs _ _ _) as [l|]; [|done]. cbn [mbind result_bind] in Hf.
  cbn [context map_err mbind result_bind]. exact Hf.
Qed.

Lemma filter_separated pending cs :
  filter (fun c => has_eligible c = true) (separated pending cs) = separated pending (filter (fun c => cv_events c <> []) cs).
Proof.
  induction cs as [|c cs IH]; [done|]. unfold separated in *. cbn [fmap list_fmap]. rewrite !filter_cons, IH. unfold has_eligible. cbn [snd eligible].
  destruct (cv_events c) as [|e es] eqn:E; [by rewrite !decide_False by congruence|]. rewrite !decide_True by done.
  cbn [fmap list_fmap]. by rewrite E.
Qed.

Lemma filter_events {B} (f : ChainView -> IndexedEvent -> B) cs :
  concat ((fun c => f c <$> cv_events c) <$> filter (fun c => cv_events c <> []) cs) = concat ((fun c => f c <$> cv_events c) <$> cs).
Proof.
  induction cs as [|c cs IH]; [done|]. rewrite filter_cons. cbn [fmap list_fmap concat]. case_decide as E.
  - cbn [fmap list_fmap concat]. by rewrite IH.
  - rewrite E. exact IH.
Qed.

Lemma Forall_nonempty {A} (P Q : A -> Prop) `{forall x, Decision (Q x)} l : Forall (fun x => Q x -> P x) l -> Forall P (filter Q l).
Proof. rewrite !Forall_forall. intros HP x [HQ Hx]%list_elem_of_filter. by apply HP. Qed.

Lemma honest_siblings_fr snapshot c e :
  Forall is_fr (siblings (gp_proof (honest_global snapshot c e))).
Proof.
  unfold honest_global, honest_local. cbn [gp_proof extend lp_proof siblings]. apply Forall_app_2; apply spec_path_fr.
  - apply history_leaves_fr.
  - intros j. apply snapshot_leaves_fr.
Qed.

(** The Merkle proofs of honest services are ready for the prover. *)
Lemma honest_ready s snapshot cs secrets gr :
  state_of_snapshot s snapshot -> (length snapshot <= 64)%nat -> Forall (honest_chain s snapshot) cs ->
  Forall (payable secrets gr) (events_of cs) ->
  NoDup (concat ((fun c => global_index c <$> cv_events c) <$> cs)) ->
  exists locals gs, map_result fetch_chain cs = Ok locals /\ generate_global_teleport_merkle_proofs s locals = Ok gs
    /\ Forall (ready s secrets gr) gs /\ StronglySorted Z.lt (gp_leaf_index <$> gs)
    /\ burns_total gs = events_total cs
    /\ gp_leaf_index <$> gs ≡ₚ concat ((fun c => global_index c <$> cv_events c) <$> cs).
Proof.
  intros Hs Hl Hcs Hpay Hnd.
  destruct (honest_teleport_complete s snapshot cs Hs Hl Hcs) as (locals & gs & H1 & H2 & Hperm & Hall & Hsort).
  destruct (honest_pipeline s snapshot cs Hs Hl Hcs) as (locals' & H1' & H2').
  rewrite H1 in H1'. injection H1' as <-. rewrite H2 in H2'. injection H2' as Hgs.
  exists locals, gs. split; [exact H1|]. split; [exact H2|].
  assert (Forall (fun g => gp_event g ∈ events_of cs /\ Forall is_fr (siblings (gp_proof g))) gs) as Hform.
  { rewrite Hgs, sort_by_key_perm. apply Forall_concat, Forall_fmap, Forall_forall. intros c Hc. cbn [compose].
    rewrite sort_by_key_perm. apply Forall_fmap, Forall_forall. intros e He. cbn [compose]. split; [|apply honest_siblings_fr].
    cbn [gp_event honest_global]. apply list_elem_of_In, in_concat. exists (cv_events c). split; [|by apply list_elem_of_In].
    by apply list_elem_of_In, list_elem_of_fmap_2. }
  split_and!.
  - pose proof (proj1 (Forall_forall _ _) Hall) as Hall'. pose proof (proj1 (Forall_forall _ _) Hform) as Hform'.
    pose proof (proj1 (Forall_forall _ _) Hpay) as Hpay'. apply Forall_forall. intros g Hg.
    destruct (Hall' g Hg) as (Hlen & Hidx & Hroot). destruct (Hform' g Hg) as [Hev Hfr].
    destruct (Hpay' _ Hev) as [Hv Hsec]. split; [exact Hsec | exact Hv | by split | exact Hidx | exact Hroot].
  - by apply Hsort.
  - unfold burns_total, events_total. apply (fmap_Permutation fst) in Hperm. rewrite <- list_fmap_compose in Hperm.
    rewrite (sum_perm _ (ie_value <$> (fst <$> concat ((fun c => (fun e => (e, global_index c e)) <$> cv_events c) <$> cs)))).
    + f_equal. f_equal. unfold events_of. clear. induction cs as [|c cs IH]; [done|]. cbn [fmap list_fmap concat].
      rewrite fmap_app, <- list_fmap_compose. f_equal; [|exact IH]. apply list_fmap_id.
    + rewrite <- Hperm. rewrite <- list_fmap_compose. done.
  - apply (fmap_Permutation snd) in Hperm. rewrite <- list_fmap_compose in Hperm.
    etrans; [exact Hperm|]. apply reflexive_eq. clear. induction cs as [|c cs IH]; [done|]. cbn [fmap list_fmap concat].
    rewrite fmap_app, <- list_fmap_compose. f_equal. exact IH.
Qed.

(** Redeeming pays out.  When the client's aggregation state describes the hub's snapshot and is the root the recipient's
    verifier stores, every chain's indexer serves its log, and the secrets of the burns are known, [redeem_transfers] (for
    any chains, any number of burns, one or several, and any number of dummy steps) submits a proof that the contract accepts: it
    mints to the recipient exactly the total of the eligible burns less what was teleported before, and records the total;
    when nothing is new it reports so and changes nothing. *)
Theorem redeem_mints_eligible cfg s snapshot cs pending secrets gr tokens self chainid num t v :
  circom_poseidon_config = Some cfg -> state_of_snapshot s snapshot -> (length snapshot <= 64)%nat ->
  Forall (fun c => cv_events c <> [] -> honest_chain s snapshot c) cs -> Forall (fun c => cv_events c <> [] -> configured s tokens c) cs ->
  Forall (payable secrets gr) (events_of cs) ->
  NoDup (concat ((fun c => global_index c <$> cv_events c) <$> cs)) -> (1 <= num <= 9)%nat ->
  Forall (fun i => i < 2 ^ 46 - 10) (concat ((fun c => global_index c <$> cv_events c) <$> cs)) ->
  contract_ready self chainid s gr t v -> 0 <= slot (totalTeleported v) (to_u256 gr) -> events_total cs < 2 ^ 248 ->
  let old := slot (totalTeleported v) (to_u256 gr) in
  redeem_transfers self chainid num s (separated pending cs) secrets gr tokens (t, v)
  = if events_total cs <=? old then ((t, v), Ok AlreadyClaimed)
    else ((minted self gr (events_total cs - old) t, claimed gr (events_total cs) v), Ok Submitted).
Proof.
  intros Hcfg Hs Hl Hcs Hconf Hpay Hnd Hnum Hbound Hct Hold Htot. cbv zeta. unfold redeem_transfers.
  assert (0 <= events_total cs) as Hnn.
  { apply sum_nonneg, Forall_fmap. eapply Forall_impl; [exact Hpay|]. intros e [He _]. apply He. }
  rewrite separated_total by lia. erewrite M_bind_run by reflexivity. cbn [snd].
  destruct (Z.leb_spec (events_total cs) (slot (totalTeleported v) (to_u256 gr))) as [Hle|Hlt]; [reflexivity|].
  rewrite filter_separated. set (cs' := filter (fun c => cv_events c <> []) cs).
  assert (events_of cs' = events_of cs) as Hev.
  { pose proof (filter_events (fun _ e => e) cs) as H. fold cs' in H. unfold events_of.
    rewrite !(list_fmap_ext (fun c => (fun e => e) <$> cv_events c) cv_events) in H by (intros; apply list_fmap_id). exact H. }
  pose proof (filter_events global_index cs) as Hgi. fold cs' in Hgi.
  destruct (honest_ready s snapshot cs' secrets gr Hs Hl) as (locals & gs & H1 & H2 & Hready & Hsort & Hsum & Hperm).
  { by apply Forall_nonempty. }
  { by rewrite Hev. }
  { by rewrite Hgi. }
  rewrite Hgi in Hperm. assert (events_total cs' = events_total cs) as Hst by (unfold events_total; by rewrite Hev). rewrite Hst in Hsum.
  assert (map_result (local_proofs_of_chain s tokens) (separated pending cs') = Ok locals) as Hloc.
  { rewrite <- H1. unfold separated. assert (Forall (fun c => honest_chain s snapshot c /\ configured s tokens c) cs') as Hall.
    { apply Forall_and. split; by apply Forall_nonempty. }
    clear -Hall HC. induction Hall as [|c l [Hc Hcf] _ IH]; [reflexivity|]. cbn [fmap list_fmap map_result].
    rewrite (local_proofs_configured s snapshot) by assumption. by rewrite IH. }
  erewrite M_bind_run by (apply lift_run; exact Hloc).
  erewrite M_bind_run by (apply lift_run; unfold context; rewrite H2; reflexivity).
  assert (gs <> []) as Hne by (intros ->; unfold burns_total, sum_Z in Hsum; cbn in Hsum; lia).
  destruct (redeem_submits self chainid s secrets gr gs cfg num t v) as (p & Hp & Hsub);
    [assumption.. | | rewrite Hsum; lia | rewrite Hsum; exact Htot |].
  { apply (Forall_fmap gp_leaf_index (fun i => i < 2 ^ 46 - 1 - Z.of_nat num)). rewrite Hperm.
    eapply Forall_impl; [exact Hbound|]. intros i Hi. cbn in Hi. lia. }
  destruct gs as [|g gs']; [done|]. erewrite M_bind_run by (apply lift_run; exact Hp).
  erewrite M_bind_run by exact Hsub. rewrite Hsum. reflexivity.
Qed.
End redeem.

(** ** Which payments [receive-transfer] looks at *)

Section receive.
Context {C : Crypto} {G : Groth16} {N : WithdrawNova} {D : DeciderClient} {V : Deciders} {I : IndexerClient} {H : HubNode}.

Lemma assoc_absent {A} k (m : list (Z * A)) : k ∉ m.*1 -> assoc k m = None.
Proof.
  induction m as [|[k' a] m IH]; [done|]. cbn. intros [Hne Hnin]%not_elem_of_cons.
  rewrite (proj2 (Z.eqb_neq _ _)) by congruence. by apply IH.
Qed.

Lemma separate_keys s events separated :
  separate_events_by_eligibility s events = Ok separated -> separated.*1 = events.*1.
Proof.
  intros Hs%map_result_ok. induction Hs as [|c x cs xs Hc _ IH]; [done|]. cbn. f_equal; [|exact IH].
  unfold separate_chain in Hc. apply result_bind_ok in Hc as (i & _ & Hx). by injection Hx as <-.
Qed.

(** [receive-transfer] ignores a payment made on another chain.  The chain in a full burn address is the one the
    recipient is paid on; when the burns of the address are all on other chains (a private transfer from a
    chain to a different one), the command reports that there are no transfer events and submits nothing, although the
    burns are eligible and their total is positive; the invoice commands redeem such burns. *)
Theorem receive_ignores_other_chains fuel env tokens bs b burn entry hub s events separated t v :
  FullBurnAddress_from_bytes bs = Ok b -> burn_address b = Ok burn -> re_hub env = Some hub ->
  find_token_by_chain tokens (gr_chain_id (fb_gr b)) = Ok entry ->
  fetch_aggregation_tree_state (V := verifier_view v) fuel (re_event_block_span env) = Ok s ->
  fetch_transfer_events (Some (re_indexer_fetch_limit env)) tokens (re_token_clients env) [burn] = Ok events ->
  separate_events_by_eligibility s events = Ok separated ->
  gr_chain_id (fb_gr b) ∉ events.*1 -> 0 < sum_u256 ((fun c => eligible_total_value c.2) <$> separated) ->
  receive_transfer fuel env tokens bs (t, v) = ((t, v), Ok NoTransferEvents).
Proof.
  intros Hb Hburn Hhub Htok Hs Hev Hsep Hnin _. unfold receive_transfer.
  erewrite M_bind_run by (apply lift_run; rewrite Hb; reflexivity).
  erewrite M_bind_run by (apply lift_run; rewrite Hburn; reflexivity).
  erewrite M_bind_run by (apply lift_run; rewrite Hhub; reflexivity).
  erewrite M_bind_run by (apply lift_run; exact Htok).
  erewrite M_bind_run by reflexivity. cbn [snd].
  erewrite M_bind_run by (apply lift_run; rewrite Hs; reflexivity).
  erewrite M_bind_run by (apply lift_run; rewrite Hev; reflexivity).
  erewrite M_bind_run by (apply lift_run; exact Hsep).
  rewrite assoc_absent by (by rewrite (separate_keys _ _ _ Hsep)). reflexivity.
Qed.
End receive.

(** ** Invoices *)

Section invoices.
Context {C : Crypto} {HC : CryptoLaws C} {L : SignatureLib} {HL : SignatureLaws C L} {Sg : Signer}.
Context {G : Groth16} {N : WithdrawNova} {D : DeciderClient} {V : Deciders} {I : IndexerClient} {H : HubNode}.
Variable SEED_MESSAGE : bytes.

Lemma invoice_burn_address_ok chain_id address st x :
  invoice_burn_address chain_id address st = Ok x ->
  x.2 = st /\ compute_burn_address_from_secret (to_fr (new_evm chain_id address (st_tweak st))) (b256_to_fr (st_secret st))
              = Ok (burn_address_of (to_fr (new_evm chain_id address (st_tweak st))) (b256_to_fr (st_secret st)))
  /\ x.1 = burn_address_of (to_fr (new_evm chain_id address (st_tweak st))) (b256_to_fr (st_secret st)).
Proof.
  unfold invoice_burn_address, FullBurnAddress_new, burn_address. cbv zeta.
  set (r := to_fr (new_evm chain_id address (st_tweak st))). set (k := b256_to_fr (st_secret st)).
  rewrite compute_burn_address_spec. destruct (pow_ok _) eqn:E; [|done]. cbn [map_err map_error mbind result_bind fb_gr fb_secret]. fold r k.
  rewrite compute_burn_address_spec, E. cbn [map_err context mbind result_bind]. intros [= <-]. cbn [fst snd]. split_and!; [done..|].
  pose proof (burn_address_of_range r k) as Hr.
  rewrite fr_to_address_mod. by apply Z.mod_small.
Qed.

Lemma invoice_secrets_tweak pow_fuel single id seed chain_id address sts :
  invoice_secrets pow_fuel single id seed chain_id address = Ok sts ->
  Forall (fun st => st_tweak st = be_val (keccak256 (INVOICE_TWEAK_DOMAIN ++ b256_bytes seed ++ b256_bytes id))) sts.
Proof.
  unfold invoice_secrets. destruct single.
  - unfold single_invoice. cbv zeta. destruct (pow_adjusted_secret _ _ _ _ _); [|done]. cbn [mbind option_bind ok_or result_bind].
    intros [= <-]. by apply Forall_singleton.
  - intros Hm%map_result_ok. induction Hm as [|i st l k Hi _ IH]; constructor; [|exact IH].
    revert Hi. unfold batch_invoice. cbv zeta. destruct (pow_adjusted_secret _ _ _ _ _); [|done]. cbn [mbind option_bind ok_or].
    by intros [= <-].
Qed.

(** Every burn address of an invoice pays the one recipient of the invoice. *)
Lemma invoice_burns_recipient pow_fuel single id seed chain_id address burns :
  invoice_burn_addresses pow_fuel single id seed chain_id address = Ok burns ->
  let tweak := be_val (keccak256 (INVOICE_TWEAK_DOMAIN ++ b256_bytes seed ++ b256_bytes id)) in
  Forall (fun x => st_tweak x.2 = tweak
    /\ compute_burn_address_from_secret (to_fr (new_evm chain_id address tweak)) (b256_to_fr (st_secret x.2)) = Ok x.1) burns.
Proof.
  cbv zeta. unfold invoice_burn_addresses. intros (sts & Hs%invoice_secrets_tweak & Hm%map_result_ok)%result_bind_ok.
  induction Hm as [|st x l k Hx _ IH]; constructor; apply Forall_cons in Hs as [Hst Hs]; [|by apply IH].
  apply invoice_burn_address_ok in Hx as (-> & Hok & ->). rewrite Hst in *. by split.
Qed.

Lemma foldl_insert_lookup {A} (l : list (Z * A)) : forall (m : gmap Z A) a x,
  foldl (fun m x => <[x.1 := x.2]> m) m l !! a = Some x -> (a, x) ∈ l \/ m !! a = Some x.
Proof.
  induction l as [|[k y] l IH]; intros m a x; [by right|]. cbn. intros [Hin|Hm]%IH; [left; by right|].
  apply lookup_insert_Some in Hm as [[<- <-]|[_ Hm]]; [left; left | by right].
Qed.

Lemma foldl_insert_dom {A} (l : list (Z * A)) : forall (m : gmap Z A) a,
  is_Some (foldl (fun m x => <[x.1 := x.2]> m) m l !! a) <-> a ∈ l.*1 \/ is_Some (m !! a).
Proof.
  induction l as [|[k y] l IH]; intros m a; cbn; [rewrite elem_of_nil; tauto|]. rewrite IH, elem_of_cons, lookup_insert_is_Some'.
  intuition congruence.
Qed.

Lemma find_token_chain tokens chain_id entry : find_token_by_chain tokens chain_id = Ok entry -> te_chain_id entry = chain_id.
Proof.
  unfold find_token_by_chain. destruct (filter _ tokens) as [|e [|]] eqn:E; [done| |done]. intros [= ->].
  assert (entry ∈ filter (fun token => te_chain_id token = chain_id) tokens) as Hin by (rewrite E; left).
  by apply list_elem_of_filter in Hin as [Hin _].
Qed.

Lemma fresh_invoice_id_ok existing single chain_id randoms id :
  fresh_invoice_id existing single chain_id randoms = Some id ->
  exists random, random ∈ randoms /\ id = random_invoice_id random single chain_id.
Proof.
  induction randoms as [|r rs IH]; [done|]. cbn. case_bool_decide.
  - intros (random & Hr & ->)%IH. exists random. split; [by right|done].
  - intros [= <-]. exists r. split; [left|done].
Qed.

(** A signed submission is recorded under the signer's address. *)
Lemma submit_signed sk id sig s :
  in_u256 id -> sign_invoice sk id = Ok sig ->
  let owner := derive_address sk in let ids := default [] (st_invoices s !! owner) in
  submit_invoice (mkInvoiceSubmission (b256_bytes id) sig) s
  = (mkStorageState (st_announcements s) (st_next_id s)
       (<[owner := if bool_decide (b256_bytes id ∈ ids) then ids else ids ++ [b256_bytes id]]> (st_invoices s)), Ok tt).
Proof.
  cbv zeta. intros Hid Hsig. unfold sign_invoice in Hsig.
  destruct (sign_prehash_recoverable sk _) as [[sg v]|] eqn:Es; [|done]. cbn [map_err mbind result_bind] in Hsig. injection Hsig as <-.
  destruct (recover_signed sk _ sg v (keccak256_length _) Es) as (Hl & Hv & x & Hraw & Hrec).
  assert (saturating_add_u8 v 27 = v + 27) as -> by (unfold saturating_add_u8; lia).
  unfold submit_invoice, normalize_invoice_id, parse_signature, storage_recover_address_from_signature.
  cbn [is_invoice_id is_signature]. unfold b256_bytes. rewrite length_be_bytes. fold (b256_bytes id). cbn [Nat.eqb negb].
  unfold mbind, M_bind, lift, modify. rewrite length_app, Hl. cbn [length Nat.add Nat.eqb]. rewrite Hraw. cbn [map_err].
  rewrite Hrec. reflexivity.
Qed.

Lemma random_invoice_id_u256 random single chain_id :
  length random = 32%nat -> Forall in_u8 random -> in_u256 (random_invoice_id random single chain_id).
Proof.
  intros Hl Hr. destruct random as [|b0 random]; [done|]. apply Forall_cons in Hr as [Hb0 Hrest].
  unfold random_invoice_id, copy_from_slice, u64_to_be_bytes. rewrite length_be_bytes. cbn [nth insert list_insert Nat.add].
  change (take 1 (?x :: random)) with [x]. change (drop 9 (?x :: random)) with (drop 8 random).
  apply be_val_32_range.
  - constructor; [|apply Forall_app_2; [apply be_bytes_bytes | by apply Forall_drop]].
    destruct single; [apply u8_lor | apply u8_land]; try done; unfold in_u8; vm_compute; lia.
  - cbn [length app]. rewrite length_app, length_be_bytes, length_drop. cbn in Hl. lia.
Qed.

Lemma decode_ids_ok ids : Forall (fun i => length i = 32%nat) ids -> decode_invoice_ids ids = Ok (be_val <$> ids).
Proof.
  intros Hids. apply map_result_ok. induction Hids as [|i l Hi _ IH]; constructor; [|exact IH].
  unfold decode_invoice_id. by rewrite Hi.
Qed.

(** The calls of a successful [issue]: signed by the key, derived for the chosen recipient. *)
Lemma invoice_issue_inv pow_fuel chain_id recipient batch tokens key randoms s s' id addrs :
  invoice_issue SEED_MESSAGE pow_fuel (mkInvoiceIssueArgs chain_id recipient batch) tokens key randoms s = (s', Ok (id, addrs)) ->
  Forall (fun r => length r = 32%nat /\ Forall in_u8 r) randoms ->
  exists entry seed sk burns random,
    find_token_by_chain tokens chain_id = Ok entry /\ compute_seed_from_signature SEED_MESSAGE key = Ok seed
    /\ SigningKey_from_bytes (b256_bytes key) = Some sk /\ get_address_from_private_key key = Ok (be_val (derive_address sk))
    /\ length random = 32%nat /\ Forall in_u8 random /\ id = random_invoice_id random (negb batch) chain_id
    /\ s' = (submit_invoice (mkInvoiceSubmission (b256_bytes id) (match sign_invoice sk id with Ok g => g | Err _ => [] end)) s).1
    /\ is_ok (sign_invoice sk id) = true
    /\ invoice_burn_addresses pow_fuel (negb batch) id seed chain_id (default (be_val (derive_address sk)) recipient) = Ok burns
    /\ addrs = burns.*1.
Proof.
  unfold invoice_issue. cbn [ii_chain_id ii_recipient ii_batch]. intros Hrun Hrand.
  apply M_bind_ok in Hrun as (s1 & entry & [= <- Htok] & Hrun).
  apply M_bind_ok in Hrun as (s1 & seed & [= <- Hseed] & Hrun).
  apply M_bind_ok in Hrun as (s1 & target & [= <- Hrec] & Hrun).
  apply M_bind_ok in Hrun as (s1 & storage & [= <- <-] & Hrun).
  apply M_bind_ok in Hrun as (s1 & raw & [= <- Hraw] & Hrun).
  apply M_bind_ok in Hrun as (s1 & existing & [= <- Hex] & Hrun).
  apply M_bind_ok in Hrun as (s1 & id' & [= <- Hid] & Hrun).
  apply M_bind_ok in Hrun as (s1 & sk & [= <- Hsk] & Hrun).
  apply M_bind_ok in Hrun as (s1 & sig & [= <- Hsig] & Hrun).
  apply M_bind_ok in Hrun as (s1 & [] & Hsub & Hrun).
  apply M_bind_ok in Hrun as (s2 & burns & [= <- Hburns] & Hrun). injection Hrun as <- <- <-.
  pose proof (find_token_chain _ _ _ Htok) as Hch. rewrite Hch in *.
  assert (SigningKey_from_bytes (b256_bytes key) = Some sk) as Hkey.
  { revert Hsk. unfold cli_signing_key_from_b256. destruct (SigningKey_from_bytes _); [|done]. by intros [= ->]. }
  assert (get_address_from_private_key key = Ok (be_val (derive_address sk))) as Haddr
    by (unfold get_address_from_private_key; by rewrite (signer_address_spec _ _ Hkey)).
  assert (target = default (be_val (derive_address sk)) recipient) as ->.
  { destruct recipient as [r|]; [by injection Hrec as <-|]. rewrite Haddr in Hrec. by injection Hrec as <-. }
  destruct (fresh_invoice_id existing (negb batch) chain_id randoms) as [id0|] eqn:Ef; [|done]. injection Hid as ->.
  apply fresh_invoice_id_ok in Ef as (random & Hin & ->). rewrite Forall_forall in Hrand. destruct (Hrand _ Hin) as [Hlen H8].
  exists entry, seed, sk, burns, random. split_and!; try assumption; try reflexivity.
  - revert Hseed. unfold context. destruct (compute_seed_from_signature SEED_MESSAGE key); [|done]. by intros [= ->].
  - rewrite Hsig. revert Hsub. unfold context_M, map_err_M, client_submit_invoice.
    destruct (submit_invoice _ s) as [s3 r3]. by intros [= -> _].
  - by rewrite Hsig.
Qed.

Lemma invoice_context_inv fuel pow_fuel env chain_id id tokens key v ctx seed address :
  build_invoice_receive_context SEED_MESSAGE fuel pow_fuel env chain_id id tokens key v = Ok (Some ctx) ->
  compute_seed_from_signature SEED_MESSAGE key = Ok seed -> get_address_from_private_key key = Ok address ->
  exists burns first, invoice_burn_addresses pow_fuel (is_single id) id seed chain_id address = Ok burns
    /\ ir_burn_address_to_secret_and_tweak ctx = foldl (fun m x => <[x.1 := x.2]> m) ∅ burns
    /\ first ∈ burns /\ ir_gr ctx = new_evm chain_id address (st_tweak first.2).
Proof.
  unfold build_invoice_receive_context. intros Hb Hseed Haddr.
  apply result_bind_ok in Hb as (hub & _ & Hb). apply result_bind_ok in Hb as (entry & _ & Hb).
  rewrite Hseed in Hb. cbn [context map_err mbind result_bind] in Hb. rewrite Haddr in Hb. cbn [mbind result_bind] in Hb.
  apply result_bind_ok in Hb as (burns & Hburns & Hb). set (m := foldl _ _ burns) in Hb.
  destruct (map_to_list m) as [|first rest] eqn:Em; [done|].
  apply result_bind_ok in Hb as (events & _ & Hb). apply result_bind_ok in Hb as (st & _ & Hb).
  apply result_bind_ok in Hb as (sep & _ & Hb). injection Hb as <-. exists burns, first. split_and!; [exact Hburns | done | | done].
  assert (m !! first.1 = Some first.2) as Hm.
  { apply elem_of_map_to_list. rewrite Em, <- surjective_pairing. left. }
  apply foldl_insert_lookup in Hm as [Hm|Hm]; [by rewrite <- surjective_pairing in Hm | by rewrite lookup_empty in Hm].
Qed.

(** An issued invoice can be redeemed from its identifier alone.  After [invoice issue] for the signer's own address, the
    identifier tells whether the invoice is single or a batch, [invoice ls] lists it, and [invoice receive] with the same key, at any
    later time, derives exactly the burn addresses that were printed, each with a secret that the withdraw
    circuits accept for the one recipient the command redeems to, whichever entry of the map the tweak is taken from. *)
Theorem issued_invoice_redeemable pow_fuel chain_id batch tokens key randoms s s' id addrs :
  storage_inv s -> Forall (fun r => length r = 32%nat /\ Forall in_u8 r) randoms -> in_u64 chain_id ->
  invoice_issue SEED_MESSAGE pow_fuel (mkInvoiceIssueArgs chain_id None batch) tokens key randoms s = (s', Ok (id, addrs)) ->
  is_single id = negb batch
  /\ (exists ids, invoice_list chain_id None tokens key s' = Ok ids /\ id ∈ ids)
  /\ forall fuel env v ctx, build_invoice_receive_context SEED_MESSAGE fuel pow_fuel env chain_id id tokens key v = Ok (Some ctx) ->
       (forall a, a ∈ addrs <-> is_Some (ir_burn_address_to_secret_and_tweak ctx !! a))
       /\ (forall a st, ir_burn_address_to_secret_and_tweak ctx !! a = Some st ->
             compute_burn_address_from_secret (to_fr (ir_gr ctx)) (b256_to_fr (st_secret st)) = Ok a).
Proof.
  intros Hinv Hrand Hc Hrun.
  destruct (invoice_issue_inv _ _ _ _ _ _ _ _ _ _ _ Hrun Hrand)
    as (entry & seed & sk & burns & random & Htok & Hseed & Hkey & Haddr & Hlen & H8 & Hid & Hs' & Hsig & Hburns & ->).
  pose proof (invoice_id_roundtrip random (negb batch) chain_id Hlen H8 Hc) as (Hsingle & Hchain & _).
  pose proof (random_invoice_id_u256 random (negb batch) chain_id Hlen H8) as Hu. rewrite <- Hid in Hsingle, Hchain, Hu.
  cbn [default from_option] in Hburns. change (default ?x None) with x in Hburns. split; [exact Hsingle|]. split.
  - destruct (sign_invoice sk id) as [sig|] eqn:Esig; [|done]. pose proof (submit_signed sk id sig s Hu Esig) as Hsub. cbv zeta in Hsub.
    rewrite Hsub in Hs'. cbn [fst] in Hs'. set (owner := derive_address sk) in *. set (old := default [] (st_invoices s !! owner)) in *.
    assert (address_bytes (be_val owner) = owner) as Hab.
    { unfold address_bytes. rewrite <- (derive_address_length sk). apply be_bytes_be_val, derive_address_bytes. }
    assert (Forall (invoice_signed owner) old) as Hold.
    { unfold old. destruct (st_invoices s !! owner) eqn:Eo; cbn; [by apply (inv_invoices _ Hinv) in Eo as [_ ?] | constructor]. }
    unfold invoice_list. rewrite Htok. cbn [mbind result_bind]. rewrite Haddr. cbn [mbind result_bind]. rewrite Hab.
    unfold client_list_invoices, list_invoices, normalize_address. unfold owner at 1. rewrite derive_address_length. cbn [Nat.eqb negb mbind result_bind].
    rewrite Hs'. cbn [st_invoices]. rewrite lookup_insert_eq. change (default [] (Some ?x)) with x. cbn [map_err context mbind result_bind].
    assert (exists ids, decode_invoice_ids (if bool_decide (b256_bytes id ∈ old) then old else old ++ [b256_bytes id]) = Ok ids /\ id ∈ ids)
      as (ids & Hdec & Hin).
    { set (l := if bool_decide (b256_bytes id ∈ old) then old else old ++ [b256_bytes id]).
      assert (Forall (fun i => length i = 32%nat) l /\ b256_bytes id ∈ l) as [Hl Hin].
      { assert (Forall (fun i => length i = 32%nat) old) as Ho by (eapply Forall_impl; [exact Hold|]; by intros i [? _]).
        unfold l. case_bool_decide as Eb; [by split|]. split; [|apply elem_of_app; right; left].
        apply Forall_app_2; [exact Ho|]. apply Forall_singleton, length_be_bytes. }
      exists (be_val <$> l). split; [by apply decode_ids_ok|]. apply list_elem_of_fmap. exists (b256_bytes id). split; [|exact Hin].
      symmetry. exact (u256_bytes_roundtrip id Hu). }
    rewrite Hdec. cbn [mbind result_bind]. eexists. split; [reflexivity|]. apply list_elem_of_filter. split; [|exact Hin].
    rewrite Hchain. symmetry. by apply find_token_chain in Htok.
  - intros fuel env v ctx Hctx.
    destruct (invoice_context_inv _ _ _ _ _ _ _ _ _ _ _ Hctx Hseed Haddr) as (burns' & first & Hb' & Hm & Hfirst & Hgr).
    rewrite Hsingle, Hburns in Hb'. injection Hb' as <-. pose proof (invoice_burns_recipient _ _ _ _ _ _ _ Hburns) as Hall. cbv zeta in Hall.
    rewrite Forall_forall in Hall. rewrite Hm, Hgr. split.
    + intros a. rewrite foldl_insert_dom, lookup_empty. split; [by left | intros [?|[? ?]]; done].
    + intros a st [Hin|Hin]%foldl_insert_lookup; [|by rewrite lookup_empty in Hin].
      destruct (Hall _ Hfirst) as [-> _]. by destruct (Hall _ Hin) as [_ ?].
Qed.

(** An invoice issued for another recipient is lost to both commands.  The invoice is stored under the address of the
    signing key, so that the recipient's list does not change; and [invoice receive] run by the issuer derives burn addresses
    for its own address: a printed address it would look for as well is a collision of burn addresses of two different
    recipients. *)
Theorem foreign_invoice_lost pow_fuel chain_id r batch tokens key sk randoms s s' id addrs :
  Forall (fun r => length r = 32%nat /\ Forall in_u8 r) randoms -> in_u160 r ->
  SigningKey_from_bytes (b256_bytes key) = Some sk -> r <> be_val (derive_address sk) ->
  invoice_issue SEED_MESSAGE pow_fuel (mkInvoiceIssueArgs chain_id (Some r) batch) tokens key randoms s = (s', Ok (id, addrs)) ->
  (forall key', invoice_list chain_id (Some r) tokens key' s' = invoice_list chain_id (Some r) tokens key' s)
  /\ forall fuel env v ctx a, build_invoice_receive_context SEED_MESSAGE fuel pow_fuel env chain_id id tokens key v = Ok (Some ctx) ->
       a ∈ addrs -> is_Some (ir_burn_address_to_secret_and_tweak ctx !! a) ->
       exists g1 g2 k1 k2, gr_address g1 = r /\ gr_address g2 = be_val (derive_address sk)
         /\ compute_burn_address_from_secret (to_fr g1) k1 = Ok a /\ compute_burn_address_from_secret (to_fr g2) k2 = Ok a.
Proof.
  intros Hrand Hr Hsk Hne Hrun.
  destruct (invoice_issue_inv _ _ _ _ _ _ _ _ _ _ _ Hrun Hrand)
    as (entry & seed & sk' & burns & random & Htok & Hseed & Hkey & Haddr & Hlen & H8 & Hid & Hs' & Hsig & Hburns & ->).
  rewrite Hsk in Hkey. injection Hkey as <-. change (default ?x (Some r)) with r in Hburns. split.
  - intros key'. unfold invoice_list. rewrite Htok. cbn [mbind result_bind].
    unfold client_list_invoices, list_invoices, normalize_address, address_bytes. rewrite length_be_bytes.
    cbn [Nat.eqb negb mbind result_bind]. do 4 f_equal.
    destruct (sign_invoice sk id) as [sig|] eqn:Esig; [|done].
    pose proof (submit_signed sk id sig s) as Hsub. rewrite Hsub in Hs'; [|by rewrite Hid; apply random_invoice_id_u256 | exact Esig].
    rewrite Hs'. cbn [fst st_invoices]. rewrite lookup_insert_ne; [done|]. intros Heq. apply Hne.
    rewrite Heq. symmetry. exact (address_bytes_roundtrip r Hr).
  - intros fuel env v ctx a Hctx Ha [st Hst].
    destruct (invoice_context_inv _ _ _ _ _ _ _ _ _ _ _ Hctx Hseed Haddr) as (burns' & first & Hb' & Hm & _).
    rewrite Hm in Hst. apply foldl_insert_lookup in Hst as [Hin'|Hin']; [|by rewrite lookup_empty in Hin'].
    pose proof (invoice_burns_recipient _ _ _ _ _ _ _ Hburns) as H1. pose proof (invoice_burns_recipient _ _ _ _ _ _ _ Hb') as H2.
    cbv zeta in H1, H2. rewrite Forall_forall in H1, H2. apply list_elem_of_fmap in Ha as ([a1 st1] & -> & Hin).
    destruct (H1 _ Hin) as [_ E1]. destruct (H2 _ Hin') as [_ E2]. do 4 eexists. split_and!; [| |exact E1|exact E2]; done.
Qed.
End invoices.

(** * Witnesses *)

Section witnesses.
#[local] Existing Instance easy_crypto.
#[local] Existing Instance easy_crypto_laws.
#[local] Existing Instance easy_r1cs.
#[local] Existing Instance easy_r1cs_laws.

(** Provers that check the constraints and put the public values into the proof. *)
Definition ideal_groth16 : Groth16 := {|
  Groth16Proof := unit;
  groth16_prove := fun DEPTH c => match sw_generate_constraints DEPTH c with Some (_, true) => Ok tt | _ => Err "unsatisfied"%string end;
  groth16_verify := fun _ _ _ => Ok true;
  proof_to_eth := fun _ => replicate 8 0;
|}.
Definition ideal_nova : WithdrawNova := {|
  WithdrawNovaInstance := Z * list Z * list Z;
  WithdrawIvcProof := Z * list Z * list Z;
  withdraw_initial_nova := fun _ z0 => Ok (0, z0, z0);
  withdraw_prove_step := fun n x =>
    match circom_poseidon_config with
    | Some cfg =>
      match withdraw_generate_step_constraints GLOBAL_TRANSFER_TREE_HEIGHT cfg n.2 x with
      | Some (z', true) => Ok (n.1.1 + 1, n.1.2, z')
      | _ => Err "unsatisfied"%string
      end
    | None => Err "parameters"%string
    end;
  withdraw_ivc_proof := fun n => n;
  withdraw_nova_state := fun n => n.2;
  withdraw_nova_verify := fun _ _ => Ok tt;
  withdraw_serialize := fun p => Ok (abi_encode_words ([p.1.1] ++ p.1.2 ++ p.2 ++ replicate 25 0));
|}.
Definition ideal_decider : DeciderClient := {| produce_decider_proof := fun _ bs => Ok bs |}.
Definition ideal_deciders : Deciders := {|
  rootDecider := fun _ => true; withdrawDecider := fun _ _ => true; singleWithdrawVerifier := fun _ _ _ => true;
|}.
#[local] Existing Instance ideal_groth16.
#[local] Existing Instance ideal_nova.
#[local] Existing Instance ideal_decider.
#[local] Existing Instance ideal_deciders.

Lemma ideal_groth16_complete : Groth16Complete.
Proof.
  split. intros g circuit inputs _ Hsat _. exists tt. unfold groth16_prove, ideal_groth16. rewrite Hsat.
  split_and!; [reflexivity.. | | reflexivity]. apply Forall_replicate. unfold in_u256. lia.
Qed.

Definition ideal_attests (n : Z * list Z * list Z) (i : Z) (z0 z : list Z) : Prop := n = (i, z0, z).
Lemma ideal_prover_laws : WithdrawProverLaws ideal_attests.
Proof.
  split.
  - intros z0 _. by exists (0, z0, z0).
  - intros cfg n i z0 z x z' Hcfg -> _ Hs. exists (i + 1, z0, z'). unfold withdraw_prove_step, ideal_nova. cbn [fst snd]. by rewrite Hcfg, Hs.
  - reflexivity.
  - intros p. by eexists.
  - intros n i z0 z bs -> Hi H0 Hz Hfr [= <-]. eexists _, (replicate 25 0). split; [reflexivity|]. split; [|reflexivity].
    cbn [fst snd]. set (ws := [i] ++ z0 ++ z ++ replicate 25 0).
    replace 34%nat with (length ws) by (unfold ws; rewrite !length_app, H0, Hz; reflexivity). apply abi_roundtrip. unfold ws.
    constructor; [unfold in_u256; lia|]. apply Forall_app in Hfr as [F0 Fz].
    assert (forall l, Forall is_fr l -> Forall in_u256 l) as Hu by (intros l Hl; eapply Forall_impl; [exact Hl | apply is_fr_u256]).
    apply Forall_app_2; [by apply Hu|]. apply Forall_app_2; [by apply Hu|]. apply Forall_replicate. unfold in_u256. lia.
Qed.
#[local] Existing Instance ideal_groth16_complete.

(** Two burns on one chain, for a recipient on the same chain. *)
Definition demo_gr : GeneralRecipient := new_evm 1 77 5.
Definition demo_a : Z := Eval vm_compute in burn_address_of (to_fr demo_gr) (b256_to_fr 5).
Definition demo_b : Z := Eval vm_compute in burn_address_of (to_fr demo_gr) (b256_to_fr 6).
Definition demo_leaves : list Leaf := [mkLeaf demo_a 10; mkLeaf demo_b 20].
Definition demo_events : list IndexedEvent := [mkIndexedEvent 0 1 demo_a 10 5; mkIndexedEvent 1 1 demo_b 20 5].
Definition demo_created : Db * result DbMerkleTreeError DbIncrementalMerkleTree := DbTree_new 1 40 (mkDbMerkleTreeConfig 1) toy_db.
Definition demo_tree : DbIncrementalMerkleTree := match demo_created.2 with Ok t => t | Err _ => toy_handle end.
Definition demo_db : Db := (append_leaf demo_tree demo_b 20 (append_leaf demo_tree demo_a 10 demo_created.1).1).1.
Definition demo_token : TokenEntry := mkTokenEntry "z" 77 78 None 1 0 [] false.
Definition demo_view : ChainView := mkChainView demo_token demo_tree demo_db demo_leaves 2 0 demo_events.
Definition demo_indexer : IndexerClient := {|
  client_events_by_recipient := fun _ _ _ _ => Ok demo_events;
  client_prove_many := fun _ _ target leafs =>
    match (prove_many demo_tree target leafs demo_db).2 with
    | Ok ps => Ok (api_proof <$> ps)
    | Err _ => Err "proof endpoint failed"%string
    end;
|}.
#[local] Existing Instance demo_indexer.
Definition demo_root : Z := history_root TRANSFER_TREE_HEIGHT demo_leaves.
Definition demo_state : AggregationTreeState :=
  mkAggregationTreeState 1 (spec_root AGGREGATION_TREE_HEIGHT (snapshot_leaves [demo_root]))
    (default (MerkleTree_new 0) (fill_tree (MerkleTree_new AGGREGATION_TREE_HEIGHT) 0 [demo_root])) [2] [1].
Definition demo_secrets : gmap Z Z := <[demo_a := 5]> {[demo_b := 6]}.
Definition demo_contract : Token * Verifier :=
  (mkToken 2 0 9, mkVerifier 0 2 2 1 2 ∅ ∅ {[1 := aggregation_root demo_state]} ∅ false).

Lemma demo_honest : honest_chain demo_state [demo_root] demo_view.
Proof.
  destruct (DbTree_new_spec 1 40 1 toy_db) as (t & d & Hn & _ & Hh & Hw & Hr); [lia|lia|lia|by eexists|by repeat split|].
  assert (tree_repr demo_tree demo_db demo_leaves /\ dt_height demo_tree = TRANSFER_TREE_HEIGHT /\ dt_history_window demo_tree = 1) as (H1 & H2 & H3).
  { unfold demo_db, demo_tree, demo_created. rewrite Hn. cbn [fst snd].
    destruct (append_leaf_spec t d [] demo_a 10 Hr) as (d' & Ha & Hr' & _); [rewrite Hh; by vm_compute|]. rewrite Ha. cbn [fst].
    destruct (append_leaf_spec t d' ([] ++ [mkLeaf demo_a 10]) demo_b 20 Hr') as (d'' & Ha' & Hr'' & _); [rewrite Hh; by vm_compute|].
    rewrite Ha'. cbn [fst]. split; [exact Hr''|]. by split. }
  split; cbn [demo_view cv_tree cv_db cv_leaves cv_index cv_position cv_token cv_events te_chain_id te_token_address demo_token].
  - exact H1.
  - exact H2.
  - cbn. lia.
  - rewrite H3. cbn. lia.
  - intros leafs proofs Hp. unfold client_prove_many, demo_indexer. by rewrite Hp.
  - reflexivity.
  - reflexivity.
  - repeat constructor; cbn; try lia; reflexivity.
Qed.

Lemma demo_indices : concat ((fun c => global_index c <$> cv_events c) <$> [demo_view]) = [0; 1].
Proof. reflexivity. Qed.

Lemma demo_nonzero x y : poseidon2 x y <> 0.
Proof.
  assert (poseidon2 x y = 1 + toy_mix 11 [x; y] mod (2 ^ 160 - 1)) as -> by reflexivity.
  pose proof (Z.mod_pos_bound (toy_mix 11 [x; y]) (2 ^ 160 - 1) ltac:(lia)). lia.
Qed.

Lemma demo_ready : contract_ready 9 1 demo_state demo_gr demo_contract.1 demo_contract.2.
Proof.
  split; cbn [demo_contract fst snd demo_state aggregation_root latest_agg_seq globalTransferRoots paused tok_verifier index].
  - unfold slot. by rewrite lookup_singleton_eq.
  - apply demo_nonzero.
  - apply spec_node_fr, snapshot_leaves_fr.
  - reflexivity.
  - reflexivity.
  - reflexivity.
  - discriminate.
Qed.

Lemma redeem_mints_eligible_witness :
  redeem_transfers 9 1 3 demo_state (separated (fun _ => []) [demo_view]) demo_secrets demo_gr [demo_token] demo_contract
  = ((minted 9 demo_gr 30 demo_contract.1, claimed demo_gr 30 demo_contract.2), Ok Submitted).
Proof.
  apply (redeem_mints_eligible (G := ideal_groth16) (N := ideal_nova) (HG := ideal_groth16_complete) ideal_attests (HN := ideal_prover_laws) easy_cfg demo_state [demo_root] [demo_view] (fun _ => []) demo_secrets demo_gr [demo_token] 9 1 3
    demo_contract.1 demo_contract.2).
  - reflexivity.
  - destruct (aggregation_tree_spec [demo_root]) as (t & Ht & Hh & Hr); [cbn; lia|].
    split; cbn [demo_state aggregation_tree aggregation_root]; [by rewrite Ht | by rewrite Ht|].
    apply u256_to_fr_id, spec_node_fr, snapshot_leaves_fr.
  - cbn. lia.
  - constructor; [intros _; apply demo_honest | constructor].
  - constructor; [intros _; split; reflexivity | constructor].
  - repeat constructor; try (cbn; lia); [exists 5 | exists 6]; split; vm_compute; reflexivity.
  - rewrite demo_indices. apply (bool_decide_unpack _). reflexivity.
  - lia.
  - rewrite demo_indices. repeat constructor.
  - apply demo_ready.
  - apply Z.le_refl.
  - reflexivity.
Defined.
(** ** Payments to key 3 on chain 10, burnt on chain 1 *)

#[local] Existing Instance toy_signatures.
#[local] Existing Instance easy_signatures_laws.
#[local] Existing Instance toy_wallet.

Definition demo_snapshot : list Z := [123; 0].
Definition demo_hub_root : Z := Eval vm_compute in
  default 0 (fill_tree (C := easy_crypto) (MerkleTree_new (C := easy_crypto) AGGREGATION_TREE_HEIGHT) 0 demo_snapshot ≫= get_root).
Definition demo_hub : HubNode := {|
  hub_latest_block := Ok 20;
  hub_aggregation_root_events := fun _ _ => Ok [mkAggEvent demo_hub_root 1 demo_snapshot [2; 0]];
  hub_chain_ids := Ok [1; 10];
|}.
#[local] Existing Instance demo_hub.
Definition demo_tokens : list TokenEntry := [demo_token; mkTokenEntry "y" 79 80 None 10 0 [] false].
Definition demo_env : RedeemEnv :=
  mkRedeemEnv 9 10 3 100 50 (Some (mkHubEntry 5 6 [])) true [fun _ => Ok 30; fun _ => Ok 0].
Definition demo_verifier : Verifier := mkVerifier 0 2 2 1 2 ∅ ∅ {[1 := demo_hub_root]} ∅ false.
Definition demo_issue (recipient : option Z) : StorageState * result string (Z * list Z) :=
  invoice_issue [] 1 (mkInvoiceIssueArgs 10 recipient false) demo_tokens 3 [replicate 32 0xab] storage_init.

(** The invoice is issued, and its identifier is enough to find the context of its redemption. *)
Lemma issued_invoice_redeemable_witness :
  exists s' id addrs ctx, demo_issue None = (s', Ok (id, addrs)) /\ addrs <> [] /\ is_single id = true
    /\ (exists ids, invoice_list 10 None demo_tokens 3 s' = Ok ids /\ id ∈ ids)
    /\ build_invoice_receive_context [] 5 1 demo_env 10 id demo_tokens 3 demo_verifier = Ok (Some ctx)
    /\ forall a, a ∈ addrs <-> is_Some (ir_burn_address_to_secret_and_tweak ctx !! a).
Proof.
  assert (exists s' id addrs ctx, demo_issue None = (s', Ok (id, addrs)) /\ addrs <> []
            /\ build_invoice_receive_context [] 5 1 demo_env 10 id demo_tokens 3 demo_verifier = Ok (Some ctx))
    as (s' & id & addrs & ctx & Hrun & Hne & Hctx).
  { do 4 eexists. split_and!; [vm_compute; reflexivity | discriminate | vm_compute; reflexivity]. }
  destruct (issued_invoice_redeemable [] 1 10 false demo_tokens 3 [replicate 32 0xab] storage_init s' id addrs) as (H1 & H2 & H3).
  - apply storage_inv_init.
  - repeat constructor; cbn; unfold in_u8; lia.
  - unfold in_u64. lia.
  - exact Hrun.
  - exists s', id, addrs, ctx. split_and!; [exact Hrun | exact Hne | exact H1 | exact H2 | exact Hctx | exact (proj1 (H3 _ _ _ _ Hctx))].
Defined.

Lemma foreign_invoice_lost_witness :
  exists s' id addrs, demo_issue (Some 1234) = (s', Ok (id, addrs)) /\ addrs <> []
    /\ invoice_list 10 (Some 1234) demo_tokens 8 s' = invoice_list 10 (Some 1234) demo_tokens 8 storage_init.
Proof.
  assert (exists s' id addrs, demo_issue (Some 1234) = (s', Ok (id, addrs)) /\ addrs <> []) as (s' & id & addrs & Hrun & Hne).
  { do 3 eexists. split; [vm_compute; reflexivity | discriminate]. }
  destruct (foreign_invoice_lost [] 1 10 1234 false demo_tokens 3 (3 : @SigningKey toy_signatures) [replicate 32 0xab] storage_init s' id addrs) as (H1 & _).
  - repeat constructor; cbn; unfold in_u8; lia.
  - unfold in_u160. lia.
  - reflexivity.
  - vm_compute. discriminate.
  - exact Hrun.
  - exists s', id, addrs. split_and!; [exact Hrun | exact Hne | exact (H1 8)].
Defined.

(** A burn address of chain 10; the burn is on chain 1. *)
Definition demo_burn : FullBurnAddress := mkFullBurnAddress (new_evm 10 77 5) 5.
Lemma receive_ignores_other_chains_witness :
  receive_transfer 5 demo_env demo_tokens (FullBurnAddress_to_bytes demo_burn) (mkToken 2 0 9, demo_verifier)
  = ((mkToken 2 0 9, demo_verifier), Ok NoTransferEvents).
Proof.
  eapply receive_ignores_other_chains.
  - apply burn_from_to_bytes. unfold full_burn_wf, in_u64, in_u256. cbn. lia.
  - vm_compute. reflexivity.
  - reflexivity.
  - reflexivity.
  - vm_compute. reflexivity.
  - vm_compute. reflexivity.
  - vm_compute. reflexivity.
  - apply (bool_decide_unpack _). vm_compute. reflexivity.
  - vm_compute. reflexivity.
Defined.
End witnesses.
