(* ===== verification/Payout.v ===== *)
(** The whole system pays: an invoice issued by the command line, paid by burns on any of the chains, indexed by
    the server, aggregated by the hub and redeemed by the command line is minted by the recipient's verifier, and so is a private transfer
    that the recipient finds by scanning the announcements. *)

From Stdlib Require Import ClassicalEpsilon.
From S2P Require Import Prelude Words Text Crypto BitPaths MerkleTrees Gadgets Circuits Folding Database OnChain OnChainSpec TreeDb TreeDbSpec Events EventsSpec Leases Jobs JobsSpec RootJob Teleport TeleportSpec Hub HubSpec CrossChain CrossChainSpec TeleportFlow Payment Server ServerSpec Storage StorageSpec Cli CliSpec Redeem RedeemSpec.
Local Open Scope Z_scope.

(** ** Sites *)

(** One token as the parties see it: the entry of the client's configuration, the server's record, the events in the server's
    database, how many of them are in the server's tree, the [balance_of] of the contract, the chain, and the position and the
    tree index of the chain in a broadcast of the hub. *)
Record Site := mkSite {
  site_entry : TokenEntry;
  site_token : TokenContext;
  site_log : list IndexedEvent;
  site_ingested : nat;
  site_balance : Z -> result string Z;
  site_chain : Chain;
  site_position : nat;
  site_index : nat;
}.

Definition site_id (x : Site) : Z := te_chain_id (site_entry x).
Definition has_balance (x : Site) (a : Z) : bool := match site_balance x a with Ok b => negb (b =? 0) | Err _ => false end.

(** What the contract's log says was burnt to [addrs]. *)
Definition burned (addrs : list Z) (ls : list Leaf) : Z := sum_Z (leaf_value <$> filter (fun l => leaf_address l ∈ addrs) ls).
Definition burned_total (addrs : list Z) (xs : list Site) : Z :=
  sum_Z ((fun x => burned addrs (take (site_index x) (ch_log (site_chain x)))) <$> xs).

Lemma elem_of_concat {A} (x : A) ls : x ∈ concat ls <-> exists l, x ∈ l /\ l ∈ ls.
Proof. rewrite list_elem_of_In, in_concat. by setoid_rewrite <- list_elem_of_In; split; intros (l & ? & ?); exists l. Qed.

(** Disjoint lists without repetition. *)
Lemma NoDup_concat_fmap {A B} (f : A -> list B) (l : list A) : NoDup l -> (forall x, x ∈ l -> NoDup (f x)) ->
  (forall x y b, x ∈ l -> y ∈ l -> b ∈ f x -> b ∈ f y -> x = y) -> NoDup (concat (f <$> l)).
Proof.
  induction 1 as [|x l Hx Hnd IH]; intros H1 H2; [constructor|]. cbn [fmap list_fmap concat]. apply NoDup_app. split_and!.
  - apply H1. left.
  - intros b Hb (m & Hm & (y & -> & Hy)%list_elem_of_fmap)%elem_of_concat. apply Hx.
    rewrite (H2 x y b); [done | left | by right | done | done].
  - apply IH; [intros; apply H1; by right|]. intros y z b Hy Hz. apply H2; by right.
Qed.

(** ** Collecting the addresses with a balance *)

(** The entries of [m] are the nonempty values of [f]. *)
Definition groups (f : Z -> list Z) (m : list (Z * list Z)) : Prop :=
  NoDup m.*1 /\ forall k l, (k, l) ∈ m <-> l = f k /\ l <> [].

Lemma push_entry_keys k a m : (push_entry k a m).*1 = if bool_decide (k ∈ m.*1) then m.*1 else m.*1 ++ [k].
Proof.
  induction m as [|[k' l] m IH]; [done|]. cbn [push_entry]. destruct (Z.eqb_spec k' k) as [->|Hne].
  - cbn [fmap list_fmap fst]. rewrite bool_decide_true by left. done.
  - cbn [fmap list_fmap fst]. rewrite IH. case_bool_decide as H1; case_bool_decide as H2; try done.
    + destruct H2. by right.
    + apply elem_of_cons in H2 as [H2|H2]; [congruence | done].
Qed.

Lemma elem_of_push_entry k a m k' l : NoDup m.*1 ->
  (k', l) ∈ push_entry k a m <->
  (k' <> k /\ (k', l) ∈ m) \/ (k' = k /\ exists l0, l = l0 ++ [a] /\ ((k, l0) ∈ m \/ (l0 = [] /\ k ∉ m.*1))).
Proof.
  induction m as [|[k1 l1] m IH]; cbn [push_entry]; intros Hnd.
  - rewrite list_elem_of_singleton. split; [|intros [[_ H%elem_of_nil]|(-> & l0 & -> & [H%elem_of_nil|[-> _]])]; done].
    intros [= -> ->]. right. split; [done|]. exists []. split; [done|]. right. split; [done|]. apply not_elem_of_nil.
  - cbn [fmap list_fmap fst] in Hnd. apply NoDup_cons in Hnd as [Hk1 Hnd]. destruct (Z.eqb_spec k1 k) as [->|Hne].
    + rewrite !elem_of_cons. split.
      * intros [[= -> ->]|Hin]; [right; split; [done|]; exists l1; split; [done|]; left; by left|].
        left. split; [|by right]. intros ->. apply Hk1. by apply (list_elem_of_fmap_2 fst) in Hin.
      * intros [[Hne [H|H]]|(-> & l0 & -> & [[H|H]%elem_of_cons|[-> H]])].
        -- by injection H.
        -- by right.
        -- injection H as ->. by left.
        -- destruct Hk1. by apply (list_elem_of_fmap_2 fst) in H.
        -- destruct H. cbn. left.
    + rewrite !elem_of_cons, (IH Hnd). cbn [fmap list_fmap fst]. split.
      * intros [[= -> ->]|[[H1 H2]|(-> & l0 & -> & [H|[-> H]])]]; [left; by split; [|left] | left; by split; [|right]|..].
        -- right. split; [done|]. exists l0. split; [done|]. left. by right.
        -- right. split; [done|]. exists []. split; [done|]. right. split; [done|]. by apply not_elem_of_cons.
      * intros [[H1 [H|H]]|(-> & l0 & -> & [[H|H]%elem_of_cons|[-> H]])]; [by left | right; by left | by injection H|..].
        -- right. right. split; [done|]. exists l0. split; [done|]. by left.
        -- apply not_elem_of_cons in H as [_ H]. right. right. split; [done|]. exists []. split; [done|]. by right.
Qed.

Lemma groups_push f k a m : groups f m -> groups (fun k' => if k' =? k then f k ++ [a] else f k') (push_entry k a m).
Proof.
  intros [Hnd Hm]. split.
  - rewrite push_entry_keys. case_bool_decide; [done|]. apply NoDup_app. split_and!; [done| |by apply NoDup_singleton].
    intros x Hx ->%list_elem_of_singleton. done.
  - intros k' l. rewrite elem_of_push_entry by done. destruct (Z.eqb_spec k' k) as [->|Hne].
    + split.
      * intros [[? _]|(_ & l0 & -> & [[-> _]%Hm|[-> Hk]])]; [done|..].
        -- split; [done|]. by destruct (f k).
        -- assert (f k = []) as ->; [|done]. destruct (f k) as [|x l] eqn:E; [done|]. destruct Hk.
           apply list_elem_of_fmap. exists (k, f k). split; [done|]. apply Hm. split; [done|]. by rewrite E.
      * intros [-> _]. right. split; [done|]. exists (f k). split; [done|]. destruct (f k) as [|x l] eqn:E.
        -- right. split; [done|]. intros ([k' l'] & Hk & Hin)%list_elem_of_fmap. cbn in Hk. subst k'.
           apply Hm in Hin as [-> Hne]. done.
        -- left. rewrite <- E. apply Hm. split; [done|]. by rewrite E.
    + rewrite <- Hm. split; [intros [[_ H]|[H _]]; done | left; by split].
Qed.

Lemma groups_ext f g m : (forall k, f k = g k) -> groups f m -> groups g m.
Proof. intros Hfg [Hnd Hm]. split; [done|]. intros k l. rewrite Hm. by rewrite Hfg. Qed.

(** Which chains hold something at [a]. *)
Definition hits (xs : list Site) (a k : Z) : bool := existsb (fun x => (site_id x =? k) && has_balance x a) xs.
Definition site_clients (xs : list Site) : list (TokenEntry * (Z -> result string Z)) := (fun x => (site_entry x, site_balance x)) <$> xs.

Lemma hits_fresh x xs a k : NoDup (site_id <$> x :: xs) -> site_id x = k -> hits xs a k = false.
Proof.
  intros [Hx _]%NoDup_cons <-. apply not_true_is_false. intros (y & Hy & [Hid%Z.eqb_eq _]%andb_true_iff)%existsb_exists.
  apply Hx. rewrite <- Hid. apply list_elem_of_fmap_2. by apply list_elem_of_In.
Qed.

Lemma filter_address_groups a xs : NoDup (site_id <$> xs) -> Forall (fun x => is_ok (site_balance x a) = true) xs ->
  forall f m, groups f m -> exists m', filter_address (site_clients xs) a m = Ok m'
    /\ groups (fun k => f k ++ if hits xs a k then [a] else []) m'.
Proof.
  intros Hnd Hok. induction Hok as [|x xs Hx Hok IH]; intros f m Hm.
  { exists m. split; [done|]. eapply groups_ext; [|exact Hm]. intros k. cbn. by rewrite app_nil_r. }
  assert (NoDup (site_id <$> xs)) as Hnd' by (cbn in Hnd; by apply NoDup_cons in Hnd as [_ ?]).
  unfold filter_address, site_clients. cbn [fmap list_fmap fold_result fst snd].
  destruct (site_balance x a) as [b|] eqn:Eb; [|done]. cbn [map_err mbind result_bind].
  destruct (IH Hnd' (fun k => if has_balance x a && (k =? site_id x) then f k ++ [a] else f k)
    (if negb (b =? 0) then push_entry (site_id x) a m else m)) as (m' & Hrun & Hm').
  { unfold has_balance. rewrite Eb. destruct (negb (b =? 0)); [|exact Hm]. cbn [andb].
    eapply groups_ext; [|apply groups_push, Hm]. intros k. cbn. by destruct (Z.eqb_spec k (site_id x)) as [->|]. }
  exists m'. split; [exact Hrun|]. eapply groups_ext; [|exact Hm']. intros k. cbn beta. cbn [hits existsb].
  fold (hits xs a k). rewrite (Z.eqb_sym (site_id x) k). destruct (Z.eqb_spec k (site_id x)) as [Hk|Hne]; cbn [andb orb].
  - rewrite (hits_fresh x xs a k Hnd) by done. rewrite andb_true_r, app_nil_r. destruct (has_balance x a); cbn [orb]; by rewrite ?app_nil_r.
  - rewrite andb_false_r. done.
Qed.

Lemma nonzero_groups xs addrs : NoDup (site_id <$> xs) ->
  Forall (fun a => Forall (fun x => is_ok (site_balance x a) = true) xs) addrs ->
  exists m, nonzero_balance_addresses (site_clients xs) addrs = Ok m /\ groups (fun k => filter (fun a => hits xs a k = true) addrs) m.
Proof.
  intros Hnd Hok. unfold nonzero_balance_addresses.
  cut (forall f acc, groups f acc -> exists m, fold_result (fun acc address => filter_address (site_clients xs) address acc) acc addrs = Ok m
         /\ groups (fun k => f k ++ filter (fun a => hits xs a k = true) addrs) m).
  { intros Hc. destruct (Hc (fun _ => []) []) as (m & Hrun & Hm); [|exists m; by split].
    split; [constructor|]. intros k l. rewrite elem_of_nil. by split; [|intros [-> ?]]. }
  induction Hok as [|a addrs Ha Hok IH]; intros f acc Hacc.
  { exists acc. split; [done|]. eapply groups_ext; [|exact Hacc]. intros k. cbn. by rewrite app_nil_r. }
  destruct (filter_address_groups a xs Hnd Ha f acc Hacc) as (m1 & Hrun & Hm1). cbn [fold_result]. rewrite Hrun. cbn [mbind result_bind].
  destruct (IH _ _ Hm1) as (m & Hrun' & Hm). exists m. split; [exact Hrun'|]. eapply groups_ext; [|exact Hm]. intros k. cbn beta.
  rewrite filter_cons. destruct (hits xs a k) eqn:E; [rewrite decide_True by done | rewrite decide_False by congruence];
    rewrite <- app_assoc; done.
Qed.

Definition found (addrs : list Z) (x : Site) : list Z := filter (fun a => has_balance x a = true) addrs.

Lemma site_unique xs x y : NoDup (site_id <$> xs) -> x ∈ xs -> y ∈ xs -> site_id x = site_id y -> x = y.
Proof.
  intros Hnd [i Hi]%list_elem_of_lookup [j Hj]%list_elem_of_lookup Heq.
  assert (i = j) as <-; [|congruence]. eapply (NoDup_lookup (site_id <$> xs)); [exact Hnd|..];
    rewrite list_lookup_fmap; [rewrite Hi; reflexivity | rewrite Hj; cbn; by rewrite Heq].
Qed.

Lemma hits_site xs a x : NoDup (site_id <$> xs) -> x ∈ xs -> hits xs a (site_id x) = has_balance x a.
Proof.
  intros Hnd Hx. destruct (hits xs a (site_id x)) eqn:E.
  - apply existsb_exists in E as (y & Hy%list_elem_of_In & [Hid%Z.eqb_eq Hb]%andb_true_iff).
    rewrite <- Hb. f_equal. by apply (site_unique xs).
  - destruct (has_balance x a) eqn:Eb; [|done]. rewrite <- E. apply existsb_exists. exists x.
    split; [by apply list_elem_of_In|]. by rewrite Z.eqb_refl, Eb.
Qed.

Lemma hits_some xs addrs k : filter (fun a => hits xs a k = true) addrs <> [] -> exists x, x ∈ xs /\ site_id x = k.
Proof.
  intros Hne. destruct (filter _ addrs) as [|a l] eqn:E; [done|].
  assert (a ∈ filter (fun a => hits xs a k = true) addrs) as [Hh _]%list_elem_of_filter by (rewrite E; left).
  apply existsb_exists in Hh as (y & Hy%list_elem_of_In & [Hid%Z.eqb_eq _]%andb_true_iff). by exists y.
Qed.

Lemma fmap_witnesses {A B} (g : B -> A) (P : B -> Prop) (m : list A) :
  Forall (fun y => exists x, P x /\ y = g x) m -> exists ss, m = g <$> ss /\ Forall P ss.
Proof.
  induction 1 as [|y m (x & Hx & ->) _ (ss & -> & Hss)]; [by exists []|]. exists (x :: ss). split; [done|]. by constructor.
Qed.

Lemma sites_with_balance xs addrs m : NoDup (site_id <$> xs) -> groups (fun k => filter (fun a => hits xs a k = true) addrs) m ->
  exists ss, m = (fun x => (site_id x, found addrs x)) <$> ss /\ ss ≡ₚ filter (fun x => found addrs x <> []) xs.
Proof.
  intros Hnd [Hk Hm].
  assert (forall x, x ∈ xs -> filter (fun a => hits xs a (site_id x) = true) addrs = found addrs x) as Hf.
  { intros x Hx. apply list_filter_iff. intros a. by rewrite hits_site. }
  destruct (fmap_witnesses (fun x => (site_id x, found addrs x)) (fun x => x ∈ xs) m) as (ss & -> & Hss).
  { apply Forall_forall. intros [k l] [-> Hne]%Hm. destruct (hits_some _ _ _ Hne) as (x & Hx & <-). exists x. by rewrite Hf. }
  exists ss. split; [done|]. rewrite <- list_fmap_compose in Hk. apply NoDup_Permutation.
  - by apply NoDup_fmap_1 in Hk.
  - apply NoDup_filter. by apply NoDup_fmap_1 in Hnd.
  - intros x. rewrite list_elem_of_filter. split.
    + intros Hx. rewrite Forall_forall in Hss. specialize (Hss _ Hx). split; [|done].
      apply (list_elem_of_fmap_2 (fun x => (site_id x, found addrs x))), Hm in Hx. apply Hx.
    + intros [Hne Hx]. assert ((site_id x, found addrs x) ∈ (fun x => (site_id x, found addrs x)) <$> ss) as Hin.
      { apply Hm. by rewrite Hf. }
      apply list_elem_of_fmap in Hin as (y & [= Hid _] & Hy). rewrite Forall_forall in Hss.
      by rewrite (site_unique xs x y Hnd Hx (Hss _ Hy) Hid).
Qed.

Lemma filter_key {A} (f : A -> Z) (xs : list A) x : NoDup (f <$> xs) -> x ∈ xs -> filter (fun y => f y = f x) xs = [x].
Proof.
  induction xs as [|y xs IH]; intros Hnd Hx; [by apply elem_of_nil in Hx|]. cbn [fmap list_fmap] in Hnd.
  apply NoDup_cons in Hnd as [Hy Hnd]. rewrite filter_cons. apply elem_of_cons in Hx as [->|Hx].
  - rewrite decide_True by done. f_equal. destruct (filter _ _) as [|e l] eqn:E; [done|].
    assert (e ∈ filter (fun z => f z = f y) xs) as [He Hin]%list_elem_of_filter by (rewrite E; left).
    destruct Hy. apply list_elem_of_fmap. by exists e.
  - rewrite decide_False; [by apply IH|]. intros Heq. apply Hy. apply list_elem_of_fmap. by exists x.
Qed.

Lemma filter_site xs x : NoDup (site_id <$> xs) -> x ∈ xs ->
  filter (fun e => te_chain_id e = site_id x) (site_entry <$> xs) = [site_entry x].
Proof.
  intros Hnd Hx. transitivity (site_entry <$> filter (fun y => site_id y = site_id x) xs); [|by rewrite filter_key].
  clear. induction xs as [|y xs IH]; [done|]. cbn [fmap list_fmap]. rewrite !filter_cons, IH. unfold site_id. by case_decide.
Qed.

(** ** What the deployment provides *)

Section payout.
Context {C : Crypto} {HC : CryptoLaws C} {R : R1CS} {HR : R1CSLaws C R}.
Context (state : AppState) (d : Db) (limit : Z) (addrs : list Z).

(** The server holds the token's log and has ingested at least the aggregated part, within the history window; the log is the
    contract's; the balance of an address covers the transfers to it; the events of an address fit in a page. *)
Record site_ok (w : World) (e : AggregationRootUpdatedEvent) (x : Site) : Prop := {
  so_holds : server_holds state (site_id x) (te_token_address (site_entry x)) (site_token x) (site_log x) (site_ingested x) d;
  so_log : event_leaves (site_log x) `prefix_of` ch_log (site_chain x);
  so_chain : exists info, tokenInfos (wo_hub w) !! site_position x = Some info /\ wo_chains w !! ti_eid info = Some (site_chain x);
  so_position : position (site_id x) (ti_chainId <$> tokenInfos (wo_hub w)) = Some (site_position x);
  so_index : ag_transfer_tree_indices e !! site_position x = Some (Z.of_nat (site_index x));
  so_ingested : (site_index x <= site_ingested x)%nat;
  so_window : Z.of_nat (site_ingested x) - Z.of_nat (site_index x) <= cfg_history_window (as_tree_config state);
  so_small : Z.of_nat (site_index x) <= 2 ^ 40 - 10;
  so_balance : Forall (fun a => exists b, site_balance x a = Ok b /\ (b = 0 -> Forall (fun e => ie_value e = 0) (events_to a (site_log x)))) addrs;
  so_page : Forall (fun a => (length (events_to a (site_log x)) <= page (Some limit))%nat) addrs;
}.

Definition site_events (x : Site) : list IndexedEvent := concat ((fun a => events_to a (site_log x)) <$> found addrs x).
Definition site_eligible (x : Site) : list IndexedEvent := filter (fun e => ie_event_index e < Z.of_nat (site_index x)) (site_events x).
Definition site_pending (x : Site) : list IndexedEvent := filter (fun e => ~ ie_event_index e < Z.of_nat (site_index x)) (site_events x).

Lemma events_of_site w e xs x : NoDup (site_id <$> xs) -> x ∈ xs -> site_ok w e x -> Forall in_u160 addrs ->
  events_of_chain (I := http_client state d) (Some limit) (site_entry <$> xs) (site_id x, found addrs x) = Ok (site_id x, site_events x).
Proof.
  intros Hnd Hx Hok Ha. unfold events_of_chain. cbn [fst snd]. rewrite filter_site by done. cbn [head ok_or mbind result_bind].
  rewrite (proj2 (map_result_ok _ _ ((fun a => events_to a (site_log x)) <$> found addrs x))); [reflexivity|].
  apply Forall2_fmap_r, Forall_Forall2_diag, Forall_forall. intros a [_ Hin]%list_elem_of_filter. cbn [client_events_by_recipient http_client].
  unfold http_events_by_recipient. rewrite Forall_forall in Ha.
  rewrite (events_by_recipient_ok _ _ _ _ _ _ _ _ _ (so_holds _ _ _ Hok)) by auto. cbn [snd map_err]. f_equal.
  apply take_ge. pose proof (so_page _ _ _ Hok) as Hp. rewrite Forall_forall in Hp. auto.
Qed.

Lemma fetch_events_sites w e xs : NoDup (site_id <$> xs) -> Forall (site_ok w e) xs -> Forall in_u160 addrs ->
  exists ss, ss ≡ₚ filter (fun x => found addrs x <> []) xs
    /\ fetch_transfer_events (I := http_client state d) (Some limit) (site_entry <$> xs) (site_balance <$> xs) addrs
       = Ok ((fun x => (site_id x, site_events x)) <$> ss).
Proof.
  intros Hnd Hok Ha. unfold fetch_transfer_events. rewrite !length_fmap, Nat.eqb_refl. cbn [negb].
  assert (zip (site_entry <$> xs) (site_balance <$> xs) = site_clients xs) as ->.
  { clear. induction xs; cbn; [done|]. by f_equal. }
  rewrite Forall_forall in Hok. destruct (nonzero_groups xs addrs Hnd) as (m & Hrun & Hm).
  { apply Forall_forall. intros a Hin. apply Forall_forall. intros x Hx. pose proof (so_balance _ _ _ (Hok _ Hx)) as Hb.
    rewrite Forall_forall in Hb. destruct (Hb _ Hin) as (b & -> & _). done. }
  rewrite Hrun. cbn [mbind result_bind]. destruct (sites_with_balance _ _ _ Hnd Hm) as (ss & -> & Hss). exists ss. split; [exact Hss|].
  apply map_result_ok, Forall2_fmap, Forall_Forall2_diag, Forall_forall. intros x Hx. rewrite Hss in Hx.
  apply list_elem_of_filter in Hx as [_ Hx]. eapply (events_of_site w e); auto.
Qed.

(** ** The views of the redemption *)

Definition site_view (x : Site) : ChainView :=
  served_view state d (site_entry x) (site_token x) (site_log x) (site_ingested x) (site_index x) (site_position x) (site_eligible x).
Definition pending_of (ss : list Site) (c : ChainView) : list IndexedEvent :=
  default [] (site_pending <$> head (filter (fun x => site_id x = te_chain_id (cv_token c)) ss)).

Lemma separated_sites ss : NoDup (site_id <$> ss) ->
  separated (pending_of ss) (site_view <$> ss) = (fun x => (site_id x, mkEventsWithEligibility (site_eligible x) (site_pending x))) <$> ss.
Proof.
  intros Hnd. unfold separated. rewrite <- list_fmap_compose. apply list_fmap_ext. intros i x Hx%list_elem_of_lookup_2.
  assert (pending_of ss (site_view x) = site_pending x) as Hp.
  { unfold pending_of. change (te_chain_id (cv_token (site_view x))) with (site_id x). by rewrite (filter_key site_id ss x). }
  by rewrite <- Hp.
Qed.

Lemma separate_site w e s x : site_ok w e x -> chain_ids s = ti_chainId <$> tokenInfos (wo_hub w) ->
  tree_root_indices s = ag_transfer_tree_indices e ->
  separate_chain s (site_id x, site_events x) = Ok (site_id x, mkEventsWithEligibility (site_eligible x) (site_pending x)).
Proof.
  intros Hok Hids Hidx. unfold separate_chain, get_tree_id_for_chain_id. cbn [fst snd].
  rewrite Hids, (so_position _ _ _ Hok), Hidx, (so_index _ _ _ Hok). reflexivity.
Qed.

(** An event that is found is in the log, at its index. *)
Lemma elem_of_site_events x ev : ev ∈ site_events x <-> ev ∈ site_log x /\ ie_to ev ∈ found addrs x.
Proof.
  unfold site_events. rewrite elem_of_concat. split.
  - intros (l & Hev & (a & -> & Ha)%list_elem_of_fmap). apply list_elem_of_filter in Hev as [<- Hev]. by split.
  - intros [Hev Hto]. exists (events_to (ie_to ev) (site_log x)). split; [by apply list_elem_of_filter|].
    apply list_elem_of_fmap. by exists (ie_to ev).
Qed.

Lemma site_log_index w e x ev : site_ok w e x -> ev ∈ site_log x ->
  exists k : nat, site_log x !! k = Some ev /\ ie_event_index ev = Z.of_nat k.
Proof.
  intros Hok [k Hk]%list_elem_of_lookup. exists k. split; [done|]. apply (sh_log _ _ _ _ _ _ _ (so_holds _ _ _ Hok) k ev Hk).
Qed.

Lemma site_prefix w e x : site_ok w e x -> event_leaves (take (site_index x) (site_log x)) = take (site_index x) (ch_log (site_chain x)).
Proof.
  intros Hok. destruct (so_log _ _ _ Hok) as [rest Hr]. rewrite Hr. unfold event_leaves. rewrite take_app_le.
  - by rewrite fmap_take.
  - rewrite length_fmap. pose proof (sh_size _ _ _ _ _ _ _ (so_holds _ _ _ Hok)). pose proof (so_ingested _ _ _ Hok). lia.
Qed.

Lemma site_served w e s x : site_ok w e x -> as_tree_height state = TRANSFER_TREE_HEIGHT ->
  event_genuine (wo_chains w) (hub_eids (wo_hub w)) e -> chain_ids s = ti_chainId <$> tokenInfos (wo_hub w) -> site_eligible x <> [] ->
  honest_chain (I := http_client state d) s (ag_snapshot e) (site_view x).
Proof.
  intros Hok Hh Hg Hids Hne. assert (exists ev, ev ∈ site_eligible x) as [ev Hev].
  { destruct (site_eligible x) as [|ev l]; [done|]. exists ev. left. }
  assert (forall ev, ev ∈ site_eligible x -> ev ∈ take (site_index x) (site_log x)) as Hin.
  { intros ev' [Hlt [Hl _]%elem_of_site_events]%list_elem_of_filter. destruct (site_log_index _ _ _ _ Hok Hl) as (k & Hk & Hi).
    apply elem_of_take. exists k. split; [done|]. lia. }
  apply served_chain_honest. split.
  - apply (so_holds _ _ _ Hok).
  - exact Hh.
  - split; [|apply (so_ingested _ _ _ Hok)]. apply Hin, elem_of_take in Hev as (k & _ & Hk). lia.
  - apply (so_window _ _ _ Hok).
  - rewrite Hids. apply (so_position _ _ _ Hok).
  - destruct (lookup_lt_is_Some_2 (ag_snapshot e) (site_position x)) as [r Hr].
    { rewrite <- (eg_indices _ _ _ Hg). by eapply lookup_lt_Some, (so_index _ _ _ Hok). }
    rewrite Hr. destruct (eg_slots _ _ _ Hg _ _ _ (so_index _ _ _ Hok) Hr) as (eid & Heid & Hslot).
    destruct (so_chain _ _ _ Hok) as (info & Hinfo & Hc). unfold hub_eids in Heid. rewrite list_lookup_fmap, Hinfo in Heid.
    injection Heid as <-. destruct Hslot as [[Hz _]|(c & n & Hc' & Hn & _ & ->)].
    + apply Hin, elem_of_take in Hev as (k & _ & Hk). lia.
    + rewrite Hc in Hc'. injection Hc' as <-. apply Nat2Z.inj in Hn as <-. by rewrite (site_prefix w e).
  - exact Hin.
Qed.

(** ** The total *)

Lemma sum_restrict {A} (f : A -> Z) (P Q : A -> Prop) `{forall x, Decision (P x)} `{forall x, Decision (Q x)} l :
  (forall x, x ∈ l -> P x -> Q x) -> (forall x, x ∈ l -> Q x -> ~ P x -> f x = 0) ->
  sum_Z (f <$> filter P l) = sum_Z (f <$> filter Q l).
Proof.
  induction l as [|x l IH]; intros H1 H2; [done|]. rewrite !filter_cons.
  assert (sum_Z (f <$> filter P l) = sum_Z (f <$> filter Q l)) as E.
  { apply IH; intros y Hy; [apply H1 | apply H2]; by right. }
  destruct (decide (P x)) as [HP|HP].
  - rewrite (decide_True (P := Q x)) by (apply H1; [left | done]). unfold sum_Z in *. cbn. lia.
  - destruct (decide (Q x)) as [HQ|HQ]; [|exact E]. unfold sum_Z in *. cbn. rewrite (H2 x) by (done || left). lia.
Qed.

Lemma site_log_NoDup w e x : site_ok w e x -> NoDup (site_log x).
Proof.
  intros Hok. apply NoDup_alt. intros i j ev Hi Hj. pose proof (sh_log _ _ _ _ _ _ _ (so_holds _ _ _ Hok)) as Hl.
  pose proof (el_index _ _ (Hl _ _ Hi)). pose proof (el_index _ _ (Hl _ _ Hj)). lia.
Qed.

Lemma site_events_NoDup w e x : NoDup addrs -> site_ok w e x -> NoDup (site_events x).
Proof.
  intros Ha Hok. apply NoDup_concat_fmap; [by apply NoDup_filter | intros a _; by eapply NoDup_filter, site_log_NoDup |].
  intros a b ev _ _ [<- _]%list_elem_of_filter [<- _]%list_elem_of_filter. done.
Qed.

Lemma site_eligible_perm w e x : NoDup addrs -> site_ok w e x ->
  site_eligible x ≡ₚ filter (fun ev => ie_to ev ∈ found addrs x) (take (site_index x) (site_log x)).
Proof.
  intros Ha Hok. apply NoDup_Permutation.
  - by eapply NoDup_filter, site_events_NoDup.
  - apply NoDup_filter. eapply sublist_NoDup; [by eapply site_log_NoDup | apply sublist_take].
  - intros ev. unfold site_eligible. rewrite !list_elem_of_filter, elem_of_site_events, elem_of_take. split.
    + intros (Hlt & Hl & Hto). destruct (site_log_index _ _ _ _ Hok Hl) as (k & Hk & Hi). split; [done|]. exists k. split; [done|]. lia.
    + intros (Hto & k & Hk & Hlt). rewrite (el_index _ _ (sh_log _ _ _ _ _ _ _ (so_holds _ _ _ Hok) _ _ Hk)).
      split; [lia|]. split; [|done]. by eapply list_elem_of_lookup_2.
Qed.

Lemma site_total w e x : NoDup addrs -> site_ok w e x ->
  sum_Z (ie_value <$> site_eligible x) = burned addrs (take (site_index x) (ch_log (site_chain x))).
Proof.
  intros Ha Hok. rewrite <- (site_prefix w e x Hok). unfold burned.
  transitivity (sum_Z (ie_value <$> filter (fun ev => ie_to ev ∈ addrs) (take (site_index x) (site_log x)))).
  - rewrite (sum_perm _ (ie_value <$> filter (fun ev => ie_to ev ∈ found addrs x) (take (site_index x) (site_log x))))
      by (by apply fmap_Permutation, (site_eligible_perm w e)).
    apply sum_restrict; [by intros ev _ [_ ?]%list_elem_of_filter|]. intros ev Hev Hto Hnf.
    pose proof (so_balance _ _ _ Hok) as Hb. rewrite Forall_forall in Hb. destruct (Hb _ Hto) as (b & Hbal & Hz).
    assert (b = 0) as Hb0.
    { destruct (Z.eqb_spec b 0) as [|Hne]; [done|]. destruct Hnf. apply list_elem_of_filter. split; [|done].
      unfold has_balance. rewrite Hbal. by apply negb_true_iff, Z.eqb_neq. }
    specialize (Hz Hb0). rewrite Forall_forall in Hz. apply Hz, list_elem_of_filter. split; [done|].
    apply elem_of_take in Hev as (k & Hk & _). by eapply list_elem_of_lookup_2.
  - f_equal. unfold event_leaves. generalize (take (site_index x) (site_log x)). clear.
    induction l as [|ev l IH]; [done|]. cbn [fmap list_fmap]. rewrite !filter_cons. cbn [leaf_address]. case_decide; [|exact IH].
    cbn [fmap list_fmap leaf_value]. f_equal. exact IH.
Qed.

Lemma sites_total w e xs ss : NoDup addrs -> Forall (site_ok w e) xs -> ss ≡ₚ filter (fun x => found addrs x <> []) xs ->
  events_total (site_view <$> ss) = burned_total addrs xs.
Proof.
  intros Ha Hok Hss. unfold events_total, events_of. rewrite <- list_fmap_compose.
  rewrite (list_fmap_ext (cv_events ∘ site_view) site_eligible) by done.
  rewrite sum_concat, <- list_fmap_compose. rewrite (sum_perm _ _ (fmap_Permutation _ _ _ Hss)). unfold burned_total.
  clear Hss ss. induction Hok as [|x xs Hx Hok IH]; [done|]. rewrite filter_cons. cbn [fmap list_fmap].
  pose proof (site_total w e x Ha Hx) as Ht. case_decide as Hd; cbn [fmap list_fmap].
  - unfold sum_Z in *. cbn [foldr compose]. rewrite Ht. f_equal. exact IH.
  - assert (site_eligible x = []) as E.
    { unfold site_eligible, site_events. by rewrite Hd. }
    rewrite E in Ht. unfold sum_Z in *. cbn [foldr fmap list_fmap] in *. rewrite <- Ht. exact IH.
Qed.

(** ** The obligations of the redemption *)

Lemma site_indices_NoDup w e ss : NoDup addrs -> Forall (site_ok w e) ss -> NoDup (site_id <$> ss) ->
  NoDup (concat ((fun c => global_index c <$> cv_events c) <$> (site_view <$> ss))).
Proof.
  intros Ha Hok Hnd. rewrite <- list_fmap_compose. rewrite Forall_forall in Hok.
  assert (forall x i, x ∈ ss -> i ∈ global_index (site_view x) <$> site_eligible x ->
    exists ev, ev ∈ site_log x /\ i = Z.of_nat (site_position x) * 2 ^ 40 + ie_event_index ev /\ 0 <= ie_event_index ev < Z.of_nat (site_index x)) as Hi.
  { intros x i Hx (ev & -> & [Hlt [Hl _]%elem_of_site_events]%list_elem_of_filter)%list_elem_of_fmap. exists ev.
    destruct (site_log_index _ _ _ _ (Hok _ Hx) Hl) as (k & _ & Hk). split_and!; [done | done | lia | done]. }
  apply (NoDup_concat_fmap (fun x => global_index (site_view x) <$> site_eligible x)).
  - by apply NoDup_fmap_1 in Hnd.
  - intros x Hx. apply NoDup_fmap_2_strong; [|by eapply NoDup_filter, site_events_NoDup, Hok].
    intros ev ev' [_ [Hl _]%elem_of_site_events]%list_elem_of_filter [_ [Hl' _]%elem_of_site_events]%list_elem_of_filter Heq.
    destruct (site_log_index _ _ _ _ (Hok _ Hx) Hl) as (k & Hk & Hki). destruct (site_log_index _ _ _ _ (Hok _ Hx) Hl') as (k' & Hk' & Hki').
    unfold global_index in Heq. assert (k = k') as <- by lia. congruence.
  - intros x y i Hx Hy (ev & _ & -> & Hb)%Hi (ev' & _ & Heq & Hb')%Hi; [|done..].
    pose proof (so_small _ _ _ (Hok _ Hx)). pose proof (so_small _ _ _ (Hok _ Hy)).
    assert (site_position x = site_position y) as Hp by lia.
    pose proof (position_lookup _ _ _ (so_position _ _ _ (Hok _ Hx))) as H1. pose proof (position_lookup _ _ _ (so_position _ _ _ (Hok _ Hy))) as H2.
    rewrite Hp, H2 in H1. injection H1 as H1. by apply (site_unique ss).
Qed.

Lemma site_indices_small w e ss : event_genuine (wo_chains w) (hub_eids (wo_hub w)) e -> Forall (site_ok w e) ss ->
  Forall (fun i => i < 2 ^ 46 - 10) (concat ((fun c => global_index c <$> cv_events c) <$> (site_view <$> ss))).
Proof.
  intros Hg Hok. apply Forall_forall. intros i (l & Hi & (c & -> & (x & -> & Hx)%list_elem_of_fmap)%list_elem_of_fmap)%elem_of_concat.
  apply list_elem_of_fmap in Hi as (ev & -> & [Hlt _]%list_elem_of_filter). rewrite Forall_forall in Hok. pose proof (Hok _ Hx) as Hs.
  pose proof (so_small _ _ _ Hs). pose proof (eg_cap _ _ _ Hg) as Hcap. pose proof (lookup_lt_Some _ _ _ (so_index _ _ _ Hs)) as Hp.
  rewrite (eg_indices _ _ _ Hg) in Hp. unfold global_index. cbn [site_view served_view cv_position]. lia.
Qed.

Lemma elem_le_sum (l : list Z) x : Forall (fun y => 0 <= y) l -> x ∈ l -> x <= sum_Z l.
Proof.
  intros Hl Hx. induction Hl as [|y l Hy Hl IH]; [by apply elem_of_nil in Hx|].
  pose proof (sum_nonneg l Hl). unfold sum_Z in *. cbn. apply elem_of_cons in Hx as [->|Hx]; [lia|]. specialize (IH Hx). lia.
Qed.

Lemma site_events_payable w e ss (secrets : gmap Z Z) gr : Forall (site_ok w e) ss ->
  (forall a, a ∈ addrs -> exists secret, secrets !! a = Some secret /\ compute_burn_address_from_secret (to_fr gr) (b256_to_fr secret) = Ok a) ->
  events_total (site_view <$> ss) < 2 ^ 248 -> Forall (payable secrets gr) (events_of (site_view <$> ss)).
Proof.
  intros Hok Hsec Ht. rewrite Forall_forall in Hok.
  assert (forall ev, ev ∈ events_of (site_view <$> ss) -> 0 <= ie_value ev /\ ie_to ev ∈ addrs) as Hev.
  { intros ev (l & Hl & (c & -> & (x & -> & Hx)%list_elem_of_fmap)%list_elem_of_fmap)%elem_of_concat.
    apply list_elem_of_filter in Hl as [_ [Hl Hto]%elem_of_site_events]. split; [|by apply list_elem_of_filter in Hto as [_ ?]].
    apply list_elem_of_lookup in Hl as [k Hk]. pose proof (el_value _ _ (sh_log _ _ _ _ _ _ _ (so_holds _ _ _ (Hok _ Hx)) _ _ Hk)) as [? _]. done. }
  apply Forall_forall. intros ev Hin. destruct (Hev _ Hin) as [Hv Hto]. split; [|by apply Hsec].
  split; [done|]. eapply Z.le_lt_trans; [|exact Ht]. apply elem_le_sum; [|by apply list_elem_of_fmap_2].
  apply Forall_fmap, Forall_forall. intros ev' Hin'. apply (Hev _ Hin').
Qed.
End payout.

Lemma site_ok_addrs {C : Crypto} state d limit addrs addrs' w e x : (forall a, a ∈ addrs' -> a ∈ addrs) ->
  site_ok state d limit addrs w e x -> site_ok state d limit addrs' w e x.
Proof.
  intros Ha [H1 H2 H3 H4 H5 H6 H7 H8 H9 H10]. split; try assumption; rewrite Forall_forall in H9, H10; apply Forall_forall; auto.
Qed.

Lemma burned_total_addrs addrs addrs' xs : (forall a, a ∈ addrs <-> a ∈ addrs') -> burned_total addrs xs = burned_total addrs' xs.
Proof.
  intros Ha. unfold burned_total. f_equal. apply list_fmap_ext. intros i x _. unfold burned. do 2 f_equal.
  apply list_filter_iff. intros l. apply Ha.
Qed.

(** ** From the invoice to the mint *)

Section invoice.
Context {C : Crypto} {HC : CryptoLaws C} {R : R1CS} {HR : R1CSLaws C R} {V : Deciders} {HV : DecidersSound C R V}.
Context {P : PoseidonT3} {HP : PoseidonT3Laws C P} {E : Endpoint}.
Context {G : Groth16} {N : WithdrawNova} {D : DeciderClient} {HG : Groth16Complete}.
Context (attests : WithdrawNovaInstance -> Z -> list Z -> list Z -> Prop) {HN : WithdrawProverLaws attests}.
Context {L : SignatureLib} {HL : SignatureLaws C L} {Sg : Signer} {H : HubNode}.
Context (self chainid : Z -> Z) (hubEid : Z) (SEED_MESSAGE : bytes).

(** The recipient's chain can mint, and the command is configured for it. *)
Record redeem_ready (c : Chain) (env : RedeemEnv) : Prop := {
  rr_hub : is_Some (re_hub env);
  rr_artifacts : re_artifacts env = true;
  rr_dummies : (1 <= re_num_dummy_steps env <= 9)%nat;
  rr_span : 0 < re_event_block_span env < 2 ^ 64;
  rr_paused : paused (ch_verifier c) = false;
  rr_minter : tok_verifier (ch_token c) = re_self env;
  rr_root : slot (globalTransferRoots (ch_verifier c)) (latestAggSeq (ch_verifier c)) <> 0;
}.

Lemma assoc_sites {A} (f : Site -> A) ss x : NoDup (site_id <$> ss) -> x ∈ ss -> assoc (site_id x) ((fun x => (site_id x, f x)) <$> ss) = Some (f x).
Proof.
  induction ss as [|y ss IH]; [by intros _ ?%elem_of_nil|]. cbn [fmap list_fmap assoc]. intros [Hy Hnd]%NoDup_cons [->|Hin]%elem_of_cons.
  - by rewrite Z.eqb_refl.
  - destruct (Z.eqb_spec (site_id y) (site_id x)) as [Eq|_]; [|by apply IH]. destruct Hy. rewrite Eq. by apply list_elem_of_fmap_2.
Qed.

(** The redemption of any set of burn addresses, against the state the client rebuilt. *)
Lemma redeem_sites state d limit addrs w e s sites c env secrets gr :
  NoDup (site_id <$> sites) -> NoDup addrs -> Forall (site_ok state d limit addrs w e) sites -> as_tree_height state = TRANSFER_TREE_HEIGHT ->
  event_genuine (wo_chains w) (hub_eids (wo_hub w)) e -> state_of_snapshot s (ag_snapshot e) ->
  chain_ids s = ti_chainId <$> tokenInfos (wo_hub w) -> tree_root_indices s = ag_transfer_tree_indices e ->
  contract_ready (re_self env) (re_chainid env) s gr (ch_token c) (ch_verifier c) -> redeem_ready c env ->
  (forall a, a ∈ addrs -> exists secret, secrets !! a = Some secret /\ compute_burn_address_from_secret (to_fr gr) (b256_to_fr secret) = Ok a) ->
  let total := burned_total addrs sites in
  let old := slot (totalTeleported (ch_verifier c)) (to_u256 gr) in
  0 <= old -> total < 2 ^ 248 -> Forall in_u160 addrs ->
  exists events separated,
    fetch_transfer_events (I := http_client state d) (Some limit) (site_entry <$> sites) (site_balance <$> sites) addrs = Ok events
    /\ separate_events_by_eligibility s events = Ok separated
    /\ (forall x, x ∈ sites -> found addrs x <> [] ->
          assoc (site_id x) separated = Some (mkEventsWithEligibility (site_eligible addrs x) (site_pending addrs x)))
    /\ redeem_transfers (I := http_client state d) (re_self env) (re_chainid env) (re_num_dummy_steps env) s separated secrets gr
         (site_entry <$> sites) (ch_token c, ch_verifier c)
       = if total <=? old then ((ch_token c, ch_verifier c), Ok AlreadyClaimed)
         else ((minted (re_self env) gr (total - old) (ch_token c), claimed gr total (ch_verifier c)), Ok Submitted).
Proof.
  intros Hnd Ha Hok Hh Hg Hst Hids Hidx Hct Hrr Hsec total old Hold Ht H160.
  destruct (fetch_events_sites state d limit addrs w e sites Hnd Hok H160) as (ss & Hss & Hfetch).
  assert (Forall (site_ok state d limit addrs w e) ss) as Hoks.
  { rewrite Hss. rewrite Forall_forall in Hok |- *. intros x [_ Hx]%list_elem_of_filter. auto. }
  assert (NoDup (site_id <$> ss)) as Hnds.
  { rewrite Hss. clear -Hnd. induction sites as [|x l IH]; [constructor|]. cbn [fmap list_fmap] in Hnd. apply NoDup_cons in Hnd as [Hx Hnd].
    rewrite filter_cons. case_decide; [|by apply IH]. cbn [fmap list_fmap]. constructor; [|by apply IH].
    intros (y & Hy & [_ Hin]%list_elem_of_filter)%list_elem_of_fmap. apply Hx, list_elem_of_fmap. by exists y. }
  pose proof (sites_total state d limit addrs w e sites ss Ha Hok Hss) as Htot. destruct circom_config_ok as (cfg & Hcfg & _).
  exists ((fun x => (site_id x, site_events addrs x)) <$> ss), ((fun x => (site_id x, mkEventsWithEligibility (site_eligible addrs x) (site_pending addrs x))) <$> ss).
  split; [exact Hfetch|]. split.
  { apply map_result_ok. apply Forall2_fmap, Forall_Forall2_diag. rewrite Forall_forall in Hoks |- *. intros x Hx.
    apply (separate_site state d limit addrs w e s x (Hoks _ Hx) Hids Hidx). }
  split.
  { intros x Hx Hf. apply (assoc_sites (fun x => mkEventsWithEligibility (site_eligible addrs x) (site_pending addrs x))); [done|].
    rewrite Hss. by apply list_elem_of_filter. }
  rewrite <- (separated_sites state d addrs ss Hnds). subst total. rewrite <- Htot in Ht |- *.
  apply (redeem_mints_eligible (I := http_client state d) attests cfg s (ag_snapshot e)); try assumption.
  - apply (eg_cap _ _ _ Hg).
  - apply Forall_fmap. rewrite Forall_forall in Hoks |- *. intros x Hx Hne. by apply (site_served state d limit addrs w e s x (Hoks _ Hx)).
  - apply Forall_fmap. rewrite Forall_forall in Hoks, Hok |- *. intros x Hx _. split.
    + unfold find_token_by_chain. change (te_chain_id (cv_token (site_view state d addrs x))) with (site_id x).
      rewrite filter_site; [done | done|]. rewrite Hss in Hx. by apply list_elem_of_filter in Hx as [_ Hx].
    + rewrite Hidx. apply (so_index _ _ _ _ _ _ _ (Hoks _ Hx)).
  - by apply (site_events_payable state d limit addrs w e).
  - by apply (site_indices_NoDup state d limit addrs w e).
  - apply (rr_dummies _ _ Hrr).
  - by apply (site_indices_small state d limit addrs w e).
Qed.

Lemma invoice_burns_nonempty pow_fuel single id seed chain_id address :
  invoice_burn_addresses pow_fuel single id seed chain_id address <> Ok [].
Proof.
  unfold invoice_burn_addresses. intros (sts & Hs & Hm%map_result_ok)%result_bind_ok. apply Forall2_nil_inv_r in Hm as ->.
  unfold invoice_secrets in Hs. destruct single; [by apply result_bind_ok in Hs as (? & _ & ?)|].
  apply map_result_ok, Forall2_length in Hs. done.
Qed.

Lemma burn_address_ok_range recipient secret a : compute_burn_address_from_secret recipient secret = Ok a -> in_u160 a.
Proof.
  rewrite compute_burn_address_spec. destruct (pow_ok _); [|done]. intros [= <-]. apply burn_address_of_range.
Qed.

(** The map of the derived burn addresses. *)
Definition burn_map (burns : list (Z * SecretAndTweak)) : gmap Z SecretAndTweak := foldl (fun m x => <[x.1 := x.2]> m) ∅ burns.

Lemma elem_of_burn_map burns a : a ∈ (map_to_list (burn_map burns)).*1 <-> a ∈ burns.*1.
Proof.
  transitivity (is_Some (burn_map burns !! a)).
  - rewrite list_elem_of_fmap. split.
    + intros ([a' st] & -> & Hin%elem_of_map_to_list). by exists st.
    + intros [st Hst]. exists (a, st). split; [done|]. by apply elem_of_map_to_list.
  - unfold burn_map. rewrite foldl_insert_dom, lookup_empty. split; [by intros [?|[? ?]] | by left].
Qed.

Lemma burn_map_entry burns a st : burn_map burns !! a = Some st -> (a, st) ∈ burns.
Proof. by intros [Hin|Hin]%foldl_insert_lookup; [|rewrite lookup_empty in Hin]. Qed.

(** The context of the redemption, from the derived addresses. *)
Lemma invoice_context {I : IndexerClient} fuel pow_fuel env chain_id id tokens key v seed owner burns tweak s events separated entry :
  is_Some (re_hub env) -> find_token_by_chain tokens chain_id = Ok entry -> compute_seed_from_signature SEED_MESSAGE key = Ok seed ->
  get_address_from_private_key key = Ok owner -> invoice_burn_addresses pow_fuel (is_single id) id seed chain_id owner = Ok burns ->
  Forall (fun x => st_tweak x.2 = tweak) burns ->
  fetch_transfer_events (Some (re_indexer_fetch_limit env)) tokens (re_token_clients env) (map_to_list (burn_map burns)).*1 = Ok events ->
  fetch_aggregation_tree_state (V := verifier_view v) fuel (re_event_block_span env) = Ok s ->
  separate_events_by_eligibility s events = Ok separated ->
  build_invoice_receive_context SEED_MESSAGE fuel pow_fuel env chain_id id tokens key v
  = Ok (Some (mkInvoiceReceiveContext (new_evm chain_id owner tweak) s separated (burn_map burns))).
Proof.
  intros [hub Hhub] Htok Hseed Howner Hburns Htw Hev Hs Hsep. unfold build_invoice_receive_context.
  rewrite Hhub. cbn [ok_or mbind result_bind]. rewrite Htok. cbn [mbind result_bind]. rewrite Hseed. cbn [context map_err mbind result_bind].
  rewrite Howner. cbn [mbind result_bind]. rewrite Hburns. cbn [mbind result_bind]. fold (burn_map burns).
  assert (exists first rest, map_to_list (burn_map burns) = first :: rest /\ st_tweak first.2 = tweak) as (first & rest & Em & Hfirst).
  { destruct (map_to_list (burn_map burns)) as [|first rest] eqn:Em.
    - exfalso. destruct burns as [|x burns]; [by apply invoice_burns_nonempty in Hburns|].
      assert (x.1 ∈ (map_to_list (burn_map (x :: burns))).*1) as Hin by (apply elem_of_burn_map; left). rewrite Em in Hin. by apply elem_of_nil in Hin.
    - exists first, rest. split; [done|]. assert (first ∈ map_to_list (burn_map burns)) as Hin by (rewrite Em; left).
      rewrite (surjective_pairing first) in Hin. apply elem_of_map_to_list, burn_map_entry in Hin. rewrite Forall_forall in Htw. apply (Htw _ Hin). }
  rewrite Em in Hev |- *. rewrite Hev. cbn [context map_err mbind result_bind]. rewrite Hs. cbn [context map_err mbind result_bind].
  rewrite Hsep. cbn [mbind result_bind]. by rewrite Hfirst.
Qed.


(** ** From the private transfer to the mint *)

Lemma burn_address_preimage b a : burn_address b = Ok a ->
  compute_burn_address_from_secret (to_fr (fb_gr b)) (b256_to_fr (fb_secret b)) = Ok a.
Proof.
  unfold burn_address. cbv zeta. rewrite compute_burn_address_spec. destruct (pow_ok _); [|done]. cbn [map_err mbind result_bind].
  intros [= <-]. f_equal. rewrite fr_to_address_mod, Z.mod_small; [done | apply burn_address_of_range].
Qed.

(** What [receive-transfer] does with the payload of a burn address. *)
Lemma receive_pays eids w eid c e latest log state d env sites fuel payload b burn x :
  FullBurnAddress_from_bytes payload = Ok b -> burn_address b = Ok burn ->
  world_reachable self chainid hubEid eids w -> logs_small w -> wo_chains w !! eid = Some c ->
  client_views w (ch_verifier c) H (verifier_view (ch_verifier c)) latest log ->
  e ∈ wo_log w -> ag_agg_seq e = latestAggSeq (ch_verifier c) ->
  NoDup (site_id <$> sites) -> Forall (site_ok state d (re_indexer_fetch_limit env) [burn] w e) sites ->
  as_tree_height state = TRANSFER_TREE_HEIGHT -> redeem_ready c env -> re_token_clients env = site_balance <$> sites ->
  gr_chain_id (fb_gr b) = as_u64 (re_chainid env) -> latest / re_event_block_span env < Z.of_nat fuel ->
  x ∈ sites -> site_id x = gr_chain_id (fb_gr b) -> site_eligible [burn] x <> [] ->
  let total := burned_total [burn] sites in
  let old := slot (totalTeleported (ch_verifier c)) (to_u256 (fb_gr b)) in
  0 <= old -> total < 2 ^ 248 ->
  receive_transfer (I := http_client state d) fuel env (site_entry <$> sites) payload (ch_token c, ch_verifier c)
  = (if total <=? old then ((ch_token c, ch_verifier c), Ok (Redeemed AlreadyClaimed))
     else ((minted (re_self env) (fb_gr b) (total - old) (ch_token c), claimed (fb_gr b) total (ch_verifier c)), Ok (Redeemed Submitted)))
  \/ forged w.
Proof.
  intros Hb Hburn Hr Hsm Hc Hv He Hseq Hnd Hok Hh Hrr Hcl Hchain Hfuel Hx Hxid Hel total old Hold Ht.
  destruct (client_state self chainid hubEid eids w eid c H _ latest log (re_event_block_span env) fuel Hr Hsm Hc Hv (rr_span _ _ Hrr) Hfuel (rr_root _ _ Hrr))
    as [(Hw & s & e' & Hfs & He' & Hg & Hseq' & Hst & Hl & Hfr & Hroot & Hidx & Hids)|Hf]; [left|by right].
  assert (e' = e) as ->.
  { apply list_elem_of_lookup in He as [i Hi]. apply list_elem_of_lookup in He' as [j Hj].
    pose proof (wi_seqs _ Hw _ _ Hi). pose proof (wi_seqs _ Hw _ _ Hj). assert (i = j) as <- by lia. congruence. }
  pose proof (burn_address_preimage b burn Hburn) as Hpre.
  destruct (redeem_sites state d (re_indexer_fetch_limit env) [burn] w e s sites c env {[burn := fb_secret b]} (fb_gr b))
    as (events & separated & Hev & Hsep & Hassoc & Hred); try assumption.
  - apply NoDup_singleton.
  - split; [by rewrite Hl, Hroot | rewrite Hroot; apply (rr_root _ _ Hrr) | exact Hfr | apply (rr_paused _ _ Hrr) | exact Hchain
      | apply (rr_minter _ _ Hrr) |].
    rewrite (ci_index _ (wi_chains _ Hw _ _ Hc)). pose proof (Hsm _ _ Hc). unfold u256_max. lia.
  - intros a ->%list_elem_of_singleton. exists (fb_secret b). split; [apply lookup_singleton_eq | exact Hpre].
  - apply Forall_singleton. by eapply burn_address_ok_range.
  - destruct (rr_hub _ _ Hrr) as [hub Hhub]. unfold receive_transfer.
    erewrite M_bind_run by (apply lift_run; unfold context; rewrite Hb; reflexivity).
    erewrite M_bind_run by (apply lift_run; unfold context; rewrite Hburn; reflexivity).
    erewrite M_bind_run by (apply lift_run; rewrite Hhub; reflexivity).
    erewrite M_bind_run.
    2:{ apply lift_run. unfold find_token_by_chain. rewrite <- Hxid, filter_site by done. reflexivity. }
    erewrite M_bind_run by reflexivity. cbn [snd].
    erewrite M_bind_run by (apply lift_run; unfold context; rewrite Hfs; reflexivity).
    erewrite M_bind_run by (apply lift_run; unfold context; rewrite Hcl, Hev; reflexivity).
    erewrite M_bind_run by (apply lift_run; exact Hsep).
    assert (found [burn] x <> []) as Hfound.
    { intros Eq. apply Hel. unfold site_eligible, site_events. by rewrite Eq. }
    rewrite <- Hxid, (Hassoc x Hx Hfound). cbn [eligible]. destruct (site_eligible [burn] x) as [|ev l]; [done|].
    rewrite (rr_artifacts _ _ Hrr). erewrite M_bind_run by reflexivity.
    revert Hred. fold total old. destruct (total <=? old); intros Hred; (erewrite M_bind_run; [|exact Hred]); reflexivity.
Qed.

Context {Vk : VetKeysLib} (name : string) {HVk : VetKeysLaws Vk name}.

End invoice.

(** * Witnesses *)

(** Verifiers that accept exactly the words that have a witness. *)
Definition holds_b (P : Prop) : bool := if excluded_middle_informative P then true else false.
Lemma holds_b_spec P : holds_b P = true <-> P.
Proof. unfold holds_b. by destruct (excluded_middle_informative P). Qed.

Section witnesses.
#[local] Existing Instance easy_crypto.
#[local] Existing Instance easy_crypto_laws.
#[local] Existing Instance easy_r1cs.
#[local] Existing Instance easy_r1cs_laws.
#[local] Existing Instance toy_signatures.
#[local] Existing Instance easy_signatures_laws.
#[local] Existing Instance toy_wallet.
#[local] Existing Instance toy_vetkeys.
#[local] Existing Instance toy_vetkeys_laws.
#[local] Existing Instance toy_endpoint.
#[local] Existing Instance ideal_groth16.
#[local] Existing Instance ideal_decider.

Definition easy_poseidonT3 : PoseidonT3 := {| PoseidonT3_hash := poseidon2 |}.
#[local] Existing Instance easy_poseidonT3.
Lemma easy_poseidonT3_laws : PoseidonT3Laws easy_crypto easy_poseidonT3.
Proof. by split. Qed.
#[local] Existing Instance easy_poseidonT3_laws.

Definition full_deciders : Deciders := {|
  rootDecider := fun w => holds_b (exists xs, root_witness w xs);
  withdrawDecider := fun g w => holds_b (exists xs, withdraw_witness g w xs);
  singleWithdrawVerifier := fun g _ s => holds_b (exists x delta, single_witness g s x delta);
|}.
#[local] Existing Instance full_deciders.
Lemma full_deciders_sound : DecidersSound easy_crypto easy_r1cs full_deciders.
Proof. split; intros; by apply holds_b_spec. Qed.
#[local] Existing Instance full_deciders_sound.

Lemma assigned_some {A} (x : option A) a b : assigned x = Some (a, b) -> x = Some a /\ b = true.
Proof. destruct x; [|done]. by intros [= -> ->]. Qed.

Lemma assigned_bind {A B} (x : option A) (f : A -> Synth B) y :
  (assigned x ≫= f) = Some (y, true) -> exists a, x = Some a /\ f a = Some (y, true).
Proof. intros (a & [Hx _]%assigned_some & Hf)%Synth_bind_inv. by exists a. Qed.

Lemma full_groth16_complete : Groth16Complete.
Proof.
  split. intros g c inputs (Hcfg & Hfr & Hlen) Hsat Hin. exists tt. unfold groth16_prove, ideal_groth16. rewrite Hsat.
  split_and!; [reflexivity.. | apply Forall_replicate; unfold in_u256; lia |]. apply holds_b_spec.
  unfold sw_generate_constraints in Hsat.
  apply assigned_bind in Hsat as (root & Hroot & Hsat). apply assigned_bind in Hsat as (rec & Hrec & Hsat).
  apply assigned_bind in Hsat as (wv & Hwv & Hsat). apply assigned_bind in Hsat as (v & Hv & Hsat).
  apply assigned_bind in Hsat as (delta & Hd & Hsat). apply assigned_bind in Hsat as (secret & Hs & Hsat).
  apply assigned_bind in Hsat as (li & Hli & Hsat). apply assigned_bind in Hsat as (sibs & Hsibs & Hsat).
  apply Synth_bind_inv in Hsat as (y & Hy & He). unfold public_inputs in Hin. rewrite Hroot, Hrec, Hwv in Hin. injection Hin as <-.
  apply Forall_app in Hfr as [Hfr Hsf]. rewrite Forall_forall in Hfr.
  assert (is_fr li) as Hlf.
  { destruct (sw_leaf_index c); [|done]. injection Hli as <-. apply is_fr_mod. }
  apply mapM_Some in Hsibs. assert (length sibs = withdraw_height g /\ Forall is_fr sibs) as [Hsl Hsfr].
  { split; [by rewrite <- Hlen, <- (Forall2_length _ _ _ Hsibs)|]. clear -Hsibs Hsf.
    induction Hsibs as [|x y l k Hxy _ IH]; [constructor|]. apply Forall_cons in Hsf as [Hx Hl]. constructor; [by apply Hx | by apply IH]. }
  exists (mkWithdrawExternalInputs 0 v secret li sibs), delta. cbn [wx_value wx_secret wx_leaf_index wx_siblings].
  split; [split_and!; [|exact Hlf | exact Hsl | exact Hsfr]|].
  { cbn [wx_value]. apply (Hfr (sw_value c)); [set_solver | exact Hv]. }
  split; [apply (Hfr (sw_delta c)); [set_solver | exact Hd]|]. split; [apply (Hfr (sw_merkle_root c)); [set_solver | exact Hroot]|].
  exists (sw_poseidon_params c). split; [exact Hcfg|]. change (word [root; rec; wv] 0) with root. change (word [root; rec; wv] 1) with rec.
  change (word [root; rec; wv] 2) with wv. cbn [wx_value wx_secret wx_leaf_index wx_siblings]. rewrite Hy. f_equal. f_equal. unfold enforce in He.
  destruct (Z.eqb_spec wv y) as [->|]; [done|]. by injection He.
Qed.
#[local] Existing Instance full_groth16_complete.

#[local] Existing Instance ideal_nova.
Definition full_attests (n : Z * list Z * list Z) (i : Z) (z0 z : list Z) : Prop :=
  n = (i, z0, z) /\ exists cfg xs, circom_poseidon_config = Some cfg /\ Forall (wx_wf GLOBAL_TRANSFER_TREE_HEIGHT) xs
    /\ fold_steps (withdraw_generate_step_constraints GLOBAL_TRANSFER_TREE_HEIGHT cfg) z0 xs = Some (z, true).

Lemma fold_steps_snoc {X} (f : list Z -> X -> Synth (list Z)) xs : forall z z1 z2 x,
  fold_steps f z xs = Some (z1, true) -> f z1 x = Some (z2, true) -> fold_steps f z (xs ++ [x]) = Some (z2, true).
Proof.
  induction xs as [|y xs IH]; intros z z1 z2 x Hr Hx.
  - injection Hr as <-. cbn [fold_steps app]. rewrite Hx. reflexivity.
  - cbn [app fold_steps] in Hr |- *. apply Synth_bind_inv in Hr as (z' & Hy & Hr). rewrite Hy.
    cbn [mbind Synth_bind]. by rewrite (IH _ _ _ _ Hr Hx).
Qed.

Lemma full_prover_laws : WithdrawProverLaws full_attests.
Proof.
  pose proof ideal_prover_laws as I. split.
  - intros z0 H0. exists (0, z0, z0). split; [done|]. split; [done|]. exists easy_cfg, []. split; [reflexivity|]. split; [constructor | done].
  - intros cfg n i z0 z x z' Hcfg [Hn (cfg' & xs & Hcfg' & Hwf & Hrun)] Hx Hs.
    destruct (wl_step (WithdrawProverLaws := I) cfg n i z0 z x z' Hcfg Hn Hx Hs) as (n' & Hp & Hn'). exists n'. split; [exact Hp|]. split; [exact Hn'|].
    rewrite Hcfg' in Hcfg. injection Hcfg as ->. exists cfg, (xs ++ [x]). split; [done|].
    split; [apply Forall_app_2; [done | by apply Forall_singleton] | by eapply fold_steps_snoc].
  - reflexivity.
  - intros p. by eexists.
  - intros n i z0 z bs [Hn (cfg & xs & Hcfg & Hwf & Hrun)] Hi H0 Hz Hfr Hbs.
    destruct (wl_decider (WithdrawProverLaws := I) n i z0 z bs Hn Hi H0 Hz Hfr Hbs) as (pf & rest & Hpf & Hdec & _).
    exists pf, rest. split; [exact Hpf|]. split; [exact Hdec|]. apply holds_b_spec. exists xs. split; [exact Hwf|]. exists cfg. split; [exact Hcfg|].
    destruct z0 as [|a0 [|a1 [|a2 [|a3 []]]]]; try done. destruct z as [|b0 [|b1 [|b2 [|b3 []]]]]; try done.
Qed.
#[local] Existing Instance full_prover_laws.

(** ** One invoice of key 3 and one private transfer from key 3 to the address of key 7, on chain 1; paid with 30 and 12 on the same chain *)

Definition full_issue : StorageState * result string (Z * list Z) :=
  invoice_issue [] 1 (mkInvoiceIssueArgs 1 None false) [demo_token] 3 [replicate 32 0xab] storage_init.
Definition full_issued : result string (Z * list Z) := Eval vm_compute in full_issue.2.
Definition full_id : Z := Eval vm_compute in match full_issued with Ok x => x.1 | Err _ => 0 end.
Definition full_address : Z := Eval vm_compute in match full_issued with Ok x => default 0 (head x.2) | Err _ => 0 end.
Definition full_transfer : PrivateTransferArgs := mkPrivateTransferArgs 1 toy_recipient 1 12.
Definition full_advice : SecretAndTweak :=
  default (mkSecretAndTweak 0 0) (payment_advice 1 (random_payment_advice_id (rnd_advice_id toy_randomness)) toy_seed 1 toy_recipient).
Definition full_paid : Z := Eval vm_compute in
  match (private_transfer [] 1 (Some toy_manager) 5 full_transfer [demo_token] 3 toy_randomness storage_init).2 with
  | Ok x => sub_to x.2 | Err _ => 0 end.
Definition full_burn : Leaf := mkLeaf full_address 30.
Definition full_burn2 : Leaf := mkLeaf full_paid 12.
Definition full_burns : list Leaf := [full_burn; full_burn2].
Definition full_root (ls : list Leaf) : Z := default 0 (IMT_insert_all (IMT_new 40) ls ≫= IMT_get_root).
Definition full_r0 : Z := Eval vm_compute in full_root [].
Definition full_r1 : Z := Eval vm_compute in full_root full_burns.
Definition full_c0 : Z := Eval vm_compute in history_chain [full_burn].
Definition full_c1 : Z := Eval vm_compute in history_chain full_burns.
Definition full_path : list Z :=
  Eval vm_compute in default [] (siblings <$> (IMT_insert_all (IMT_new 40) [full_burn] ≫= fun t => IMT_prove t 0)).
Definition full_path2 : list Z :=
  Eval vm_compute in default [] (siblings <$> (IMT_insert_all (IMT_new 40) full_burns ≫= fun t => IMT_prove t 1)).
Definition full_root_words : list Z := [2; 0; 0; full_r0; 2; full_c1; full_r1] ++ replicate 25 0.
Definition full_agg_root : Z := Eval vm_compute in default 0 (computeAggregationRoot [full_r1] generateZeroHashes).

Lemma full_root_accepted : rootDecider full_root_words = true.
Proof.
  apply holds_b_spec. exists [mkRootExternalInputs false (leaf_address full_burn) 30 full_path; mkRootExternalInputs false (leaf_address full_burn2) 12 full_path2]. split_and!; [|by vm_compute..|].
  - apply (bool_decide_unpack _). by vm_compute.
  - exists easy_cfg. by split; vm_compute.
Qed.

Lemma full_root_0 : history_root TRANSFER_TREE_HEIGHT [] = full_r0.
Proof. apply history_root_eval; [unfold TRANSFER_TREE_HEIGHT; lia | by vm_compute..]. Qed.

Definition full_info : TokenInfo := mkTokenInfo 1 7 9 8.
Definition full_hub_state : Hub := mkHub [full_r1] [2] [full_info] {[7 := 1]} generateZeroHashes 1 true.
Definition full_event : AggregationRootUpdatedEvent := mkAggEvent full_agg_root 1 [full_r1] [2].
Definition full_reserved : Verifier := mkVerifier 0 2 0 0 0 {[2 := full_c1]} {[0 := full_r0]} ∅ ∅ false.
Definition full_chain : Chain :=
  mkChain (mkToken 2 full_c1 9)
    (mkVerifier 0 2 2 1 2 {[2 := full_c1]} (<[2 := full_r1]> {[0 := full_r0]}) {[1 := full_agg_root]} ∅ false)
    full_burns [(full_burns, full_root_words)].
Definition full_world : World :=
  mkWorld full_hub_state {[7 := full_chain]} [full_event] [(7, abi_encode_words [full_r1; 2])] [(7, abi_encode_words [full_agg_root; 1])].

Lemma full_proved : proveTransferRoot (abi_encode_words full_root_words) full_reserved
  = Ok (mkVerifier 0 2 2 0 0 {[2 := full_c1]} (<[2 := full_r1]> {[0 := full_r0]}) ∅ ∅ false, [TransferRootProved 2 full_r1]).
Proof.
  unfold proveTransferRoot. assert (abi_decode_words 32 (abi_encode_words full_root_words) = Ok full_root_words) as -> by (vm_compute; reflexivity).
  cbn [require paused full_reserved negb mbind result_bind]. unfold prove_decoded. rewrite full_root_accepted. vm_compute. reflexivity.
Qed.

Lemma full_reachable : world_reachable (fun _ => 9) (fun _ => 1) 0 [7] full_world.
Proof.
  pose proof (wr_genesis (fun _ => 9) (fun _ => 1) 0 [7]) as W. unfold world_genesis in W.
  change (list_to_map ((fun e => (e, genesis 9 0)) <$> [7])) with ({[7 := genesis 9 0]} : gmap Z Chain) in W.
  unfold genesis, Verifier_init in W. rewrite full_root_0 in W.
  eapply wr_step in W; [|eapply ws_local; [apply lookup_singleton_eq |
    apply (step_transfer 9 1 _ (leaf_address full_burn) 30 (mkToken 1 full_c0 9)); [vm_compute; split; congruence | lia | by vm_compute] | reflexivity]].
  eapply wr_step in W; [|eapply ws_local; [apply lookup_insert_eq |
    apply (step_transfer 9 1 _ (leaf_address full_burn2) 12 (mkToken 2 full_c1 9)); [vm_compute; split; congruence | lia | by vm_compute] | reflexivity]].
  eapply wr_step in W; [|eapply ws_local; [apply lookup_insert_eq | apply step_reserve | reflexivity]].
  eapply wr_step in W; [|eapply ws_local; [apply lookup_insert_eq |
    eapply (step_prove 9 1 _ (abi_encode_words full_root_words)); exact full_proved | reflexivity]].
  eapply wr_step in W; [|eapply (ws_relay _ _ _ _ _ _ _ _ 7 _ [] 5); [apply lookup_insert_eq | vm_compute; reflexivity]].
  eapply wr_step in W; [|eapply (ws_admin _ _ _ _ _ _ _ _ full_info); left; vm_compute; reflexivity].
  eapply wr_step in W; [|eapply (ws_hub_receive _ _ _ _ _ _ _ _ 7); [by left | vm_compute; reflexivity]].
  eapply wr_step in W; [|eapply (ws_broadcast _ _ _ _ _ _ _ _ [7] [] 5 true); vm_compute; reflexivity].
  eapply wr_step in W; [|eapply (ws_chain_receive _ _ _ _ _ _ _ _ 7); [apply lookup_insert_eq | by left | vm_compute; reflexivity]].
  match type of W with world_reachable _ _ _ _ ?w => assert (w = full_world) as <-; [|exact W] end.
  vm_compute. reflexivity.
Qed.

Definition full_log : list (Z * AggregationRootUpdatedEvent) := [(12, full_event)].
Definition full_hub_node : HubNode := {|
  hub_latest_block := Ok 20;
  hub_aggregation_root_events := fun a b => Ok (filter (fun x => a <= x.1 <= b) full_log).*2;
  hub_chain_ids := Ok [1];
|}.
#[local] Existing Instance full_hub_node.

(** The indexer's database after it has ingested the burn. *)
Definition full_indexed : IndexedEvent := mkIndexedEvent 0 1 full_address 30 5.
Definition full_indexed2 : IndexedEvent := mkIndexedEvent 1 1 full_paid 12 6.
Definition full_context : TokenContext := mkTokenContext 1 "z" 1 77 78 [] false.
Definition full_state : AppState := mkAppState {[(1, 77) := full_context]} (mkDbMerkleTreeConfig 1) 40.
Definition full_db : Db :=
  set_events (<[(1, 1) := row_of_event full_indexed2]> {[(1, 0) := row_of_event full_indexed]})
    (append_leaf (tree_handle 1 40 1) full_paid 12 (append_leaf (tree_handle 1 40 1) full_address 30 (tree_parts_db 1 toy_db)).1).1.

Lemma full_holds : server_holds full_state 1 77 full_context [full_indexed; full_indexed2] 2 full_db.
Proof.
  split; cbn [full_context tc_id full_state as_tree_height as_tree_config cfg_history_window].
  - reflexivity.
  - lia.
  - intros [|[|k]] e He; [injection He as <- | injection He as <- | done]; split; vm_compute; try split; congruence.
  - intros i row Hrow.
    change ((<[(1, 1) := row_of_event full_indexed2]> {[(1, 0) := row_of_event full_indexed]} : gmap (Z * Z) EventRow) !! (1, i) = Some row) in Hrow.
    apply lookup_insert_Some in Hrow as [[[= <-] <-]|[_ [[= <-] <-]%lookup_singleton_Some]];
      [exists 1%nat, full_indexed2 | exists 0%nat, full_indexed]; done.
  - intros [|[|k]] e He; [injection He as <- | injection He as <- | done]; reflexivity.
  - cbn. lia.
  - destruct (DbTree_new_spec 1 40 1 toy_db) as (t & d & Hn & _ & _ & _ & Hr); [lia|lia|lia|by eexists|by repeat split|].
    rewrite DbTree_new_run in Hn by lia. assert (d = tree_parts_db 1 toy_db) as -> by congruence.
    assert (t = tree_handle 1 40 1) as -> by congruence. clear Hn.
    destruct (append_leaf_spec (tree_handle 1 40 1) _ [] full_address 30 Hr) as (d' & Ha & Hr' & _); [by vm_compute|].
    destruct (append_leaf_spec (tree_handle 1 40 1) _ [mkLeaf full_address 30] full_paid 12 Hr') as (d2 & Ha2 & Hr2 & _); [by vm_compute|].
    unfold full_db. rewrite Ha. cbn [fst]. rewrite Ha2. apply (has_history_ext 1 40 1 d2); [reflexivity..|].
    apply (tree_repr_has_history 1 40 1 d2 _ Hr2).
Qed.

Definition full_site : Site := mkSite demo_token full_context [full_indexed; full_indexed2] 2 (fun _ => Ok 30) full_chain 0 2.
Definition full_env : RedeemEnv := mkRedeemEnv 9 1 3 100 50 (Some (mkHubEntry 5 6 [])) true [fun _ => Ok 30].

Lemma full_site_ok addr : addr = full_address \/ addr = full_paid -> site_ok full_state full_db 50 [addr] full_world full_event full_site.
Proof.
  intros Haddr. split.
  - exact full_holds.
  - exists []. reflexivity.
  - exists full_info. by split.
  - reflexivity.
  - reflexivity.
  - cbn. lia.
  - cbn. lia.
  - vm_compute. congruence.
  - apply Forall_singleton. exists 30. by split.
  - apply Forall_singleton. destruct Haddr as [-> | ->]; vm_compute; lia.
Qed.

Definition full_owner : Z := Eval vm_compute in match get_address_from_private_key 3 with Ok a => a | Err _ => 0 end.

Lemma full_views : client_views full_world (ch_verifier full_chain) full_hub_node (verifier_view (ch_verifier full_chain)) 20 full_log.
Proof.
  split; [reflexivity | | reflexivity | reflexivity | reflexivity].
  split; cbn; try done; try lia; repeat constructor; cbn; lia.
Qed.

Lemma full_logs_small : logs_small full_world.
Proof. intros eid c Hc. cbn [wo_chains full_world] in Hc. apply lookup_singleton_Some in Hc as [_ <-]. cbn. lia. Qed.

Lemma full_ready : redeem_ready full_chain full_env.
Proof. split; [by eexists | reflexivity | cbn; lia | cbn; lia | reflexivity | reflexivity | vm_compute; congruence]. Qed.


End witnesses.
