(* ===== verification/Wasm.v ===== *)
(** The browser bindings ([wasm/src/lib.rs]): decoding of the JavaScript inputs, proving of single and batch withdrawals,
    derivation of burn addresses and the aggregation tree.

    [serde_wasm_bindgen] is the transport: a [JsValue] is the record it decodes to.  Timing logs, the panic hook and the loading of the
    parameters are not modelled. *)

From stdpp Require Import pretty.
From Stdlib Require Import Ascii.
From S2P Require Import Prelude Words Text Crypto BitPaths MerkleTrees Gadgets Circuits Database OnChain TreeDb Events Leases Jobs RootJob Teleport Payment Storage Cli Redeem.
Local Open Scope Z_scope.

(** ** Numbers in strings *)

(** [char::to_digit]. *)
Definition to_digit (radix : Z) (a : ascii) : option Z :=
  let n := byte_of a in
  let v := if (48 <=? n) && (n <=? 57) then Some (n - 48)
           else if (97 <=? n) && (n <=? 122) then Some (n - 87)
           else if (65 <=? n) && (n <=? 90) then Some (n - 55) else None in
  match v with Some x => if x <? radix then Some x else None | None => None end.

(** The loop of [u64::from_str_radix]: [checked_mul], then [checked_add]. *)
Fixpoint radix_digits (radix acc : Z) (s : string) : option Z :=
  match s with
  | EmptyString => Some acc
  | String a s' =>
    match to_digit radix a with
    | Some x => if acc * radix + x <=? u64_max then radix_digits radix (acc * radix + x) s' else None
    | None => None
    end
  end.
Definition u64_from_str_radix (radix : Z) (s : string) : option Z :=
  match s with
  | EmptyString => None
  | String a EmptyString => if bool_decide (a = "+"%char) || bool_decide (a = "-"%char) then None else radix_digits radix 0 s
  | String a s' => if bool_decide (a = "+"%char) then radix_digits radix 0 s' else radix_digits radix 0 s
  end.

(** [u64::to_string]. *)
Definition u64_to_string (n : Z) : string := pretty (Z.to_N n).

(** [U256::from_str_radix(_, 16)], [Address::from_str] and [format!("{:#x}", address)] of alloy. *)
Class WebLib := {
  u256_from_str_radix_16 : string -> option Z;
  Address_from_str : string -> option Z;
  address_to_hex_string : Z -> string;
}.

Record JsExternalInput := mkJsExternalInput {
  jx_is_dummy : bool;
  jx_value : string;
  jx_secret : string;
  jx_leaf_index : string;
  jx_siblings : list string;
}.
Record JsProveResult := mkJsProveResult { jp_final_state : list string; jp_ivc_proof : string; jp_steps : Z }.
Record JsSingleWithdrawInput := mkJsSingleWithdrawInput {
  js_merkle_root : string;
  js_recipient : string;
  js_withdraw_value : string;
  js_value : string;
  js_delta : string;
  js_secret : string;
  js_leaf_index : string;
  js_siblings : list string;
}.
Record JsGroth16ProveResult := mkJsGroth16ProveResult { jg_proof_calldata : string; jg_public_inputs : list string; jg_tree_depth : Z }.
Record JsSecretTweak := mkJsSecretTweak { jst_secret : string; jst_tweak : string }.
Record JsGeneralRecipient := mkJsGeneralRecipient {
  jr_chain_id : Z;
  jr_address : string;
  jr_tweak : string;
  jr_fr : string;
  jr_u256 : string;
}.
Record JsBurnArtifacts := mkJsBurnArtifacts {
  jb_burn_address : string;
  jb_full_burn_address : string;
  jb_general_recipient : JsGeneralRecipient;
  jb_secret : string;
}.

Section codec.
Context {L : SignatureLib}.

Definition wasm_parse_u64 (value : string) : result string Z :=
  let normalized := trim value in
  if bool_decide (normalized = EmptyString) then Err "empty numeric value"
  else match strip_0x normalized with
       | Some hex => ok_or "invalid hex for u64" (u64_from_str_radix 16 hex)
       | None => ok_or "invalid decimal for u64" (u64_from_str_radix 10 normalized)
       end.

Definition hex_to_fr (value : string) : result string Z :=
  let normalized := trim value in
  if bool_decide (normalized = EmptyString) then Err "empty field element"
  else
    let hex := default normalized (strip_0x normalized) in
    bs ← ok_or "invalid hex field element" (hex_decode hex);
    Ok (fr_of_biguint (be_val bs)).

(** The bytes are padded to 32. *)
Definition fr_to_hex (value : Z) : string :=
  let bs := fr_bigint_bytes_be value in
  let bs := if (length bs <? 32)%nat then replicate (32 - length bs) 0 ++ bs else bs in
  "0x" +:+ hex_encode bs.

Definition normalize_hex (value : string) : string := default value (strip_0x value).

Definition parse_b256_hex (value : string) : result string Z :=
  let hex := normalize_hex value in
  bs ← ok_or "invalid hex value" (hex_decode hex);
  if negb (length bs =? 32)%nat then Err "expected 32-byte value" else Ok (be_val bs).

Definition b256_to_hex_string (value : Z) : string := "0x" +:+ hex_encode (b256_bytes value).

Definition secret_tweak_to_js (secret_and_tweak : SecretAndTweak) : JsSecretTweak :=
  mkJsSecretTweak (b256_to_hex_string (st_secret secret_and_tweak)) (b256_to_hex_string (st_tweak secret_and_tweak)).
End codec.

Section wasm.
Context {C : Crypto} {L : SignatureLib} {W : WebLib}.

Definition parse_address_hex (value : string) : result string Z := ok_or "invalid recipient address" (Address_from_str value).

(** [Address::from_word] keeps the low 20 bytes. *)
Definition general_recipient_to_js (gr : GeneralRecipient) : JsGeneralRecipient :=
  let fr_value := to_fr gr in
  let fr_hex := fr_to_hex fr_value in
  let u256_hex := b256_to_hex_string (fr_to_b256 fr_value) in
  let recipient_address := gr_address gr mod 2 ^ 160 in
  mkJsGeneralRecipient (gr_chain_id gr) (address_to_hex_string recipient_address) (b256_to_hex_string (gr_tweak gr)) fr_hex u256_hex.

Definition build_burn_artifacts (burn : FullBurnAddress) : result string JsBurnArtifacts :=
  address ← context "failed to derive burn address from payload" (burn_address burn);
  Ok (mkJsBurnArtifacts (address_to_hex_string address) ("0x" +:+ hex_encode (FullBurnAddress_to_bytes burn))
        (general_recipient_to_js (fb_gr burn)) (b256_to_hex_string (fb_secret burn))).

(** ** Derivations; [pow_fuel] bounds the search of the proof of work *)

Definition derive_payment_advice (pow_fuel : nat) (seed_hex payment_advice_id_hex : string) (recipient_chain_id : Z)
  (recipient_address_hex : string) : result string JsSecretTweak :=
  seed ← parse_b256_hex seed_hex;
  payment_advice_id ← parse_b256_hex payment_advice_id_hex;
  recipient_address ← parse_address_hex recipient_address_hex;
  secret_and_tweak ← ok_or "out of fuel" (payment_advice pow_fuel payment_advice_id seed recipient_chain_id recipient_address);
  Ok (secret_tweak_to_js secret_and_tweak).

Definition derive_invoice_single (pow_fuel : nat) (seed_hex invoice_id_hex : string) (recipient_chain_id : Z)
  (recipient_address_hex : string) : result string JsSecretTweak :=
  seed ← parse_b256_hex seed_hex;
  invoice_id ← parse_b256_hex invoice_id_hex;
  recipient_address ← parse_address_hex recipient_address_hex;
  secret_and_tweak ← ok_or "out of fuel" (single_invoice pow_fuel invoice_id seed recipient_chain_id recipient_address);
  Ok (secret_tweak_to_js secret_and_tweak).

Definition derive_invoice_batch (pow_fuel : nat) (seed_hex invoice_id_hex : string) (sub_id recipient_chain_id : Z)
  (recipient_address_hex : string) : result string JsSecretTweak :=
  seed ← parse_b256_hex seed_hex;
  invoice_id ← parse_b256_hex invoice_id_hex;
  recipient_address ← parse_address_hex recipient_address_hex;
  secret_and_tweak ← ok_or "out of fuel" (batch_invoice pow_fuel invoice_id sub_id seed recipient_chain_id recipient_address);
  Ok (secret_tweak_to_js secret_and_tweak).

Definition build_full_burn_address (recipient_chain_id : Z) (recipient_address_hex secret_hex tweak_hex : string)
  : result string JsBurnArtifacts :=
  recipient_address ← parse_address_hex recipient_address_hex;
  secret ← parse_b256_hex secret_hex;
  tweak ← parse_b256_hex tweak_hex;
  let secret_and_tweak := mkSecretAndTweak secret tweak in
  burn ← map_error (FullBurnAddress_new recipient_chain_id recipient_address secret_and_tweak);
  build_burn_artifacts burn.

Definition wasm_decode_full_burn_address (full_burn_address_hex : string) : result string JsBurnArtifacts :=
  let payload_hex := normalize_hex full_burn_address_hex in
  bs ← ok_or "invalid FullBurnAddress hex" (hex_decode payload_hex);
  burn ← map_error (FullBurnAddress_from_bytes bs);
  build_burn_artifacts burn.

Definition general_recipient_fr (chain_id : Z) (recipient_address_hex tweak_hex : string) : result string string :=
  recipient_address ← parse_address_hex recipient_address_hex;
  tweak ← parse_b256_hex tweak_hex;
  let gr := new_evm chain_id recipient_address tweak in
  Ok (fr_to_hex (to_fr gr)).

(** ** The aggregation tree *)

Definition parse_u256_hex (value : string) : result string Z :=
  let trimmed := trim value in
  if bool_decide (trimmed = EmptyString) then Err "empty hex value"
  else
    let normalized := default trimmed (strip_0x trimmed) in
    ok_or "invalid hex-encoded U256" (u256_from_str_radix_16 normalized).

(** The loop of both functions. *)
Fixpoint fill_snapshot (t : MerkleTree) (idx : Z) (snapshot : list string) : result string MerkleTree :=
  match snapshot with
  | [] => Ok t
  | hex :: rest =>
    value ← parse_u256_hex hex;
    if value =? 0 then fill_snapshot t (idx + 1) rest
    else
      t' ← ok_or "panicked" (update_leaf t idx (u256_to_fr value));
      fill_snapshot t' (idx + 1) rest
  end.

Definition wasm_aggregation_root (snapshot : list string) : result string string :=
  tree ← fill_snapshot (MerkleTree_new AGGREGATION_TREE_HEIGHT) 0 snapshot;
  root ← ok_or "panicked" (get_root tree);
  Ok (fr_to_hex root).

Definition aggregation_merkle_proof (snapshot : list string) (index : Z) : result string (list string) :=
  tree ← fill_snapshot (MerkleTree_new AGGREGATION_TREE_HEIGHT) 0 snapshot;
  if Z.shiftl 1 (Z.of_nat AGGREGATION_TREE_HEIGHT) <=? index then Err "aggregation index exceeds tree capacity"
  else
    proof ← ok_or "panicked" (prove tree index);
    Ok (fr_to_hex <$> siblings proof).

(** ** Proving *)

Context {G : Groth16} {N : WithdrawNova}.

Definition decode_step (DEPTH : nat) (external : JsExternalInput) : result string WithdrawExternalInputs :=
  siblings_vec ← map_result hex_to_fr (jx_siblings external);
  if negb (length siblings_vec =? DEPTH)%nat then Err "Merkle path must have DEPTH siblings"
  else
    leaf_index ← wasm_parse_u64 (jx_leaf_index external);
    value_fr ← hex_to_fr (jx_value external);
    secret_fr ← hex_to_fr (jx_secret external);
    Ok (mkWithdrawExternalInputs (if jx_is_dummy external then 1 else 0) value_fr secret_fr (fr_of_biguint leaf_index) siblings_vec).

Definition prove_with_depth (DEPTH : nat) (z0_fields : list Z) (step_inputs : list JsExternalInput) : result string JsProveResult :=
  nova ← withdraw_initial_nova DEPTH z0_fields;
  nova ← fold_result (fun nova external =>
           ext_input ← decode_step DEPTH external;
           map_err (fun err => "prove_step failed: " +:+ err)%string (withdraw_prove_step nova ext_input)) nova step_inputs;
  let final_state := fr_to_hex <$> withdraw_nova_state nova in
  let ivc_proof := withdraw_ivc_proof nova in
  _ ← withdraw_nova_verify DEPTH ivc_proof;
  proof_bytes ← withdraw_serialize ivc_proof;
  Ok (mkJsProveResult final_state ("0x" +:+ hex_encode proof_bytes) (Z.of_nat (length step_inputs))).

Definition WithdrawNovaWasm_prove (z0_hex : list string) (step_inputs : list JsExternalInput) : result string JsProveResult :=
  if negb (length z0_hex =? WITHDRAW_STATE_LEN)%nat then Err "z0 must contain exactly four field elements"
  else
    z0_fields ← map_result hex_to_fr z0_hex;
    let tree_height := match step_inputs with input :: _ => length (jx_siblings input) | [] => TRANSFER_TREE_HEIGHT end in
    if existsb (fun input => negb (length (jx_siblings input) =? tree_height)%nat) step_inputs
    then Err "all steps must have sibling paths with uniform length"
    else if (tree_height =? TRANSFER_TREE_HEIGHT)%nat then prove_with_depth TRANSFER_TREE_HEIGHT z0_fields step_inputs
    else if (tree_height =? GLOBAL_TRANSFER_TREE_HEIGHT)%nat then prove_with_depth GLOBAL_TRANSFER_TREE_HEIGHT z0_fields step_inputs
    else Err "unsupported sibling path length".

Definition prove_single_with_depth (DEPTH : nat) (witness : JsSingleWithdrawInput) : result string JsGroth16ProveResult :=
  if negb (length (js_siblings witness) =? DEPTH)%nat then Err "Merkle path must have DEPTH siblings"
  else
    poseidon_params ← ok_or "panicked" circom_poseidon_config;
    merkle_root_fr ← hex_to_fr (js_merkle_root witness);
    recipient_fr ← hex_to_fr (js_recipient witness);
    withdraw_value_fr ← hex_to_fr (js_withdraw_value witness);
    value_fr ← hex_to_fr (js_value witness);
    delta_fr ← hex_to_fr (js_delta witness);
    secret_fr ← hex_to_fr (js_secret witness);
    leaf_index_u64 ← wasm_parse_u64 (js_leaf_index witness);
    siblings_vec ← map_result hex_to_fr (js_siblings witness);
    let circuit := mkSingleWithdrawCircuit poseidon_params (Some merkle_root_fr) (Some recipient_fr) (Some withdraw_value_fr)
                     (Some value_fr) (Some delta_fr) (Some secret_fr) (Some leaf_index_u64) (Some <$> siblings_vec) in
    inputs ← ok_or "assignment missing" (public_inputs circuit);
    proof_bytes ← generate_proof DEPTH circuit inputs;
    Ok (mkJsGroth16ProveResult ("0x" +:+ hex_encode proof_bytes) (fr_to_hex <$> inputs) (Z.of_nat DEPTH)).

Definition SingleWithdrawWasm_prove (witness : JsSingleWithdrawInput) : result string JsGroth16ProveResult :=
  let tree_depth := length (js_siblings witness) in
  if (tree_depth =? TRANSFER_TREE_HEIGHT)%nat then prove_single_with_depth TRANSFER_TREE_HEIGHT witness
  else if (tree_depth =? GLOBAL_TRANSFER_TREE_HEIGHT)%nat then prove_single_with_depth GLOBAL_TRANSFER_TREE_HEIGHT witness
  else Err "unsupported sibling path length".
End wasm.
