(* ===== verification/WasmSpec.v ===== *)
(** The browser bindings agree with the rest of the system: their number formats round-trip, burn addresses survive the
    JavaScript boundary, the aggregation tree is the hub's, and their proofs are those of the command line. *)

From stdpp Require Import pretty.
From Stdlib Require Import Ascii.
From S2P Require Import Prelude Words Text Crypto BitPaths MerkleTrees Gadgets Circuits Folding Database OnChain OnChainSpec TreeDb Events Leases Jobs RootJob Teleport TeleportSpec Hub HubSpec CrossChain CrossChainSpec TeleportFlow Payment Storage StorageSpec Cli CliSpec Redeem RedeemSpec Wasm.
Local Open Scope Z_scope.

(** Documented behaviour of alloy: 64 hexadecimal digits are read back as the number, and an address printed in hexadecimal is parsed. *)
Class WebLaws (L : SignatureLib) (W : WebLib) : Prop := {
  u256_radix_hex : forall v, in_u256 v -> u256_from_str_radix_16 (hex_encode (be_bytes 32 v)) = Some v;
  address_hex_roundtrip : forall a, in_u160 a -> Address_from_str (address_to_hex_string a) = Some a;
}.

(** ** Decimal numbers *)

Lemma digit_char (x : N) : (x < 10)%N -> to_digit 10 (pretty_N_char x) = Some (Z.of_N x) /\ is_hex_digit (pretty_N_char x) = true.
Proof.
  intros Hx. assert (x = 0 \/ x = 1 \/ x = 2 \/ x = 3 \/ x = 4 \/ x = 5 \/ x = 6 \/ x = 7 \/ x = 8 \/ x = 9)%N as H by lia.
  repeat destruct H as [->|H]; try (split; reflexivity). subst. split; reflexivity.
Qed.

Lemma radix_pretty_go (x : N) : forall s, Z.of_N x <= u64_max ->
  radix_digits 10 0 (pretty_N_go x s) = radix_digits 10 (Z.of_N x) s /\ (hex_digits s = true -> hex_digits (pretty_N_go x s) = true).
Proof.
  induction (N.lt_wf_0 x) as [x _ IH]. intros s Hx. destruct (decide (0 < x)%N) as [Hp|Hz].
  - rewrite pretty_N_go_step by done. destruct (digit_char (x mod 10)) as [Hd Hh]; [by apply N.mod_lt|].
    destruct (IH (x / 10)%N) with (s := String (pretty_N_char (x mod 10)) s) as [H1 H2];
      [by apply N.div_lt | pose proof (N.Div0.div_le_upper_bound x 10 x ltac:(lia)); lia|].
    split.
    + rewrite H1. cbn [radix_digits]. rewrite Hd.
      assert (Z.of_N (x / 10) * 10 + Z.of_N (x mod 10) = Z.of_N x) as ->; [|by rewrite (proj2 (Z.leb_le _ _))].
      rewrite N2Z.inj_div, N2Z.inj_mod. pose proof (Z.div_mod (Z.of_N x) 10 ltac:(lia)). lia.
    + intros Hs. apply H2. cbn [hex_digits]. by rewrite Hh, Hs.
  - assert (x = 0%N) as -> by lia. rewrite pretty_N_go_0. by split.
Qed.

Lemma pretty_digits n : in_u64 n -> radix_digits 10 0 (u64_to_string n) = Some n /\ hex_digits (u64_to_string n) = true /\ u64_to_string n <> EmptyString.
Proof.
  intros Hn. unfold in_u64 in Hn. unfold u64_to_string, pretty, pretty_N. destruct (decide (Z.to_N n = 0%N)) as [Hz|Hz].
  - assert (n = 0) as -> by lia. by split_and!.
  - destruct (radix_pretty_go (Z.to_N n) EmptyString) as [H1 H2]; [unfold u64_max; lia|]. rewrite H1, Z2N.id by lia.
    split; [done|]. split; [by apply H2|]. intros He. rewrite He in H1. injection H1. lia.
Qed.

Lemma hex_not_sign a : is_hex_digit a = true -> bool_decide (a = "+"%char) = false /\ bool_decide (a = "-"%char) = false.
Proof. intros Ha. split; apply bool_decide_eq_false_2; by intros ->. Qed.

Lemma from_str_radix_unsigned radix s : hex_digits s = true -> s <> EmptyString -> u64_from_str_radix radix s = radix_digits radix 0 s.
Proof.
  destruct s as [|a [|b s]]; [done|..]; intros [Ha _]%andb_true_iff _; destruct (hex_not_sign a Ha) as [H1 H2];
    cbn [u64_from_str_radix]; by rewrite H1, ?H2.
Qed.

Section codec.
Context {C : Crypto} {L : SignatureLib} {HL : SignatureLaws C L}.

Lemma hex_trim s : hex_digits s = true -> trim s = s.
Proof. intros Hs. by apply trim_solid, hex_digits_solid. Qed.

Lemma trim_0x s : hex_digits s = true -> trim ("0x" +:+ s) = ("0x" +:+ s)%string.
Proof.
  intros Hs. apply trim_solid. change (solid ("0x" +:+ s)) with (negb (is_space "0") && (negb (is_space "x") && solid s)).
  by rewrite (hex_digits_solid _ Hs).
Qed.

Lemma wasm_parse_u64_decimal n : in_u64 n -> wasm_parse_u64 (u64_to_string n) = Ok n.
Proof.
  intros Hn. destruct (pretty_digits n Hn) as (Hr & Hd & Hne). unfold wasm_parse_u64. rewrite hex_trim by done.
  rewrite bool_decide_eq_false_2 by done. rewrite hex_digits_no_prefix by done. by rewrite from_str_radix_unsigned, Hr.
Qed.

Lemma fr_to_hex_eq x : fr_to_hex x = ("0x" +:+ hex_encode (be_bytes 32 x))%string.
Proof. unfold fr_to_hex, fr_bigint_bytes_be. by rewrite length_be_bytes. Qed.

Lemma hex_to_fr_bytes bs : Forall in_u8 bs -> hex_to_fr ("0x" +:+ hex_encode bs) = Ok (fr_of_biguint (be_val bs)).
Proof.
  intros Hbs. pose proof (hex_encode_digits bs) as Hd. unfold hex_to_fr. rewrite trim_0x by done.
  rewrite bool_decide_eq_false_2 by done. change (strip_0x ("0x" +:+ hex_encode bs)) with (Some (hex_encode bs)).
  change (default ?x (Some ?y)) with y. by rewrite hex_decode_encode.
Qed.

Lemma hex_to_fr_to_hex x : is_fr x -> hex_to_fr (fr_to_hex x) = Ok x.
Proof.
  intros Hx. rewrite fr_to_hex_eq, hex_to_fr_bytes by apply be_bytes_bytes. f_equal.
  assert (be_val (be_bytes 32 x) = x) as -> by exact (u256_bytes_roundtrip x (is_fr_u256 x Hx)). by apply fr_of_biguint_id.
Qed.

Lemma hex_to_fr_list l : Forall is_fr l -> map_result hex_to_fr (fr_to_hex <$> l) = Ok l.
Proof. intros Hl. apply map_result_ok. induction Hl; cbn; constructor; [by apply hex_to_fr_to_hex | done]. Qed.

Lemma parse_b256_hex_ok v : in_u256 v -> parse_b256_hex (b256_to_hex_string v) = Ok v.
Proof.
  intros Hv. unfold parse_b256_hex, b256_to_hex_string, normalize_hex.
  change (strip_0x ("0x" +:+ ?s)) with (Some s). change (default ?x (Some ?y)) with y.
  rewrite hex_decode_encode by apply be_bytes_bytes. cbn [ok_or mbind result_bind]. unfold b256_bytes. rewrite length_be_bytes. cbn [Nat.eqb negb].
  f_equal. exact (u256_bytes_roundtrip v Hv).
Qed.
End codec.

Section browser.
Context {C : Crypto} {HC : CryptoLaws C} {L : SignatureLib} {HL : SignatureLaws C L} {W : WebLib} {HW : WebLaws L W}.

Lemma parse_address_hex_ok a : in_u160 a -> parse_address_hex (address_to_hex_string a) = Ok a.
Proof. intros Ha. unfold parse_address_hex. by rewrite address_hex_roundtrip. Qed.

Lemma parse_u256_hex_ok v : in_u256 v -> parse_u256_hex (b256_to_hex_string v) = Ok v.
Proof.
  intros Hv. unfold parse_u256_hex, b256_to_hex_string. pose proof (hex_encode_digits (b256_bytes v)) as Hd. rewrite trim_0x by done.
  rewrite bool_decide_eq_false_2 by done. change (strip_0x ("0x" +:+ hex_encode (b256_bytes v))) with (Some (hex_encode (b256_bytes v))).
  change (default ?x (Some ?y)) with y. by rewrite (u256_radix_hex v Hv : u256_from_str_radix_16 (hex_encode (b256_bytes v)) = Some v).
Qed.

(** ** Burn addresses *)

Lemma full_burn_bytes b : Forall in_u8 (FullBurnAddress_to_bytes b).
Proof.
  unfold FullBurnAddress_to_bytes. repeat apply Forall_app_2; try apply be_bytes_bytes.
  apply Forall_singleton. unfold in_u8, FULL_BURN_ADDRESS_VERSION. lia.
Qed.


(** ** The aggregation tree *)

Lemma fill_snapshot_eq snapshot : forall t idx, Forall in_u256 snapshot ->
  fill_snapshot t idx (b256_to_hex_string <$> snapshot) = ok_or "panicked"%string (fill_tree t idx snapshot).
Proof.
  induction snapshot as [|v snapshot IH]; intros t idx Hs; [done|]. apply Forall_cons in Hs as [Hv Hs].
  cbn [fmap list_fmap fill_snapshot fill_tree]. rewrite parse_u256_hex_ok by done. cbn [mbind result_bind].
  destruct (v =? 0); cbn [negb mbind option_bind]; [by apply IH|].
  destruct (update_leaf t idx (u256_to_fr v)) as [t'|]; [|done]. cbn [ok_or mbind result_bind option_bind]. by apply IH.
Qed.

(** The browser's aggregation tree is the contract's.  For every snapshot of at most 64 transfer roots, in the hexadecimal form of a
    word, [aggregation_root] prints the root that the hub's in-place Poseidon aggregation computes, and
    [aggregation_merkle_proof] prints for each of the 64 positions six siblings that lead from the root stored there to it, and refuses
    any other position. *)
Theorem browser_aggregation_matches_hub {P : PoseidonT3} {HP : PoseidonT3Laws C P} snapshot :
  (length snapshot <= 64)%nat -> Forall is_fr snapshot ->
  exists root, computeAggregationRoot snapshot generateZeroHashes = Some root
    /\ wasm_aggregation_root (b256_to_hex_string <$> snapshot) = Ok (fr_to_hex root)
    /\ forall index, 0 <= index ->
         if index <? 64 then
           exists path, aggregation_merkle_proof (b256_to_hex_string <$> snapshot) index = Ok (fr_to_hex <$> path)
             /\ length path = AGGREGATION_TREE_HEIGHT
             /\ map_result hex_to_fr (fr_to_hex <$> path) = Ok path
             /\ proof_get_root (mkMerkleProof path) (default 0 (snapshot !! Z.to_nat index)) index = Some root
         else aggregation_merkle_proof (b256_to_hex_string <$> snapshot) index = Err "aggregation index exceeds tree capacity"%string.
Proof.
  intros Hl Hfr. assert (Forall in_u256 snapshot) as Hu by (eapply Forall_impl; [exact Hfr | apply is_fr_u256]).
  exists (spec_root AGGREGATION_TREE_HEIGHT (leaf_fun snapshot)).
  split; [apply computeAggregationRoot_spec; [done | intros j; apply generateZeroHashes_lookup | done]|].
  destruct (aggregation_tree_spec snapshot Hl) as (t & Ht & Hh & Hr). rewrite snapshot_leaves_id in Hr by done.
  unfold wasm_aggregation_root, aggregation_merkle_proof. rewrite fill_snapshot_eq, Ht by done. cbn [ok_or mbind result_bind].
  pose proof (repr_root _ _ Hr) as Hroot. rewrite Hh in Hroot. rewrite Hroot. split; [done|]. intros index Hi.
  change (Z.shiftl 1 (Z.of_nat AGGREGATION_TREE_HEIGHT)) with 64. rewrite Z.leb_antisym. destruct (Z.ltb_spec index 64) as [Hlt|Hge]; [|done].
  cbn [negb]. pose proof (prove_spec t _ index Hr) as Hp. rewrite Hh in Hp. rewrite Hp by (change (2 ^ Z.of_nat AGGREGATION_TREE_HEIGHT) with 64; lia).
  cbn [ok_or mbind result_bind siblings]. exists (spec_path (leaf_fun snapshot) 0 AGGREGATION_TREE_HEIGHT index).
  assert (forall j, is_fr (leaf_fun snapshot j)) as Hleaf.
  { intros j. rewrite <- snapshot_leaves_id by done. apply snapshot_leaves_fr. }
  split_and!; [done | apply length_spec_path | apply hex_to_fr_list, spec_path_fr, Hleaf |].
  rewrite proof_get_root_path by (cbn [siblings]; by rewrite length_spec_path). cbn [siblings]. f_equal.
  assert (default 0 (snapshot !! Z.to_nat index) = leaf_fun snapshot index) as ->.
  { unfold leaf_fun. by rewrite (proj2 (Z.ltb_ge _ _)). }
  apply spec_path_opens. change (2 ^ Z.of_nat AGGREGATION_TREE_HEIGHT) with 64. lia.
Qed.

(** ** Proofs *)

(** [Result::ok]. *)
Definition ok {E A} (r : result E A) : option A := match r with Ok a => Some a | Err _ => None end.
Lemma ok_bind {E A B} (r : result E A) (f : A -> result E B) : ok (r ≫= f) = ok r ≫= (fun a => ok (f a)).
Proof. by destruct r. Qed.
Lemma ok_map_err {E E' A} (f : E -> E') (r : result E A) : ok (map_err f r) = ok r.
Proof. by destruct r. Qed.

(** The bytes of a 0x string, as the page hands them to the decider or to the contract. *)
Definition payload (s : string) : option bytes := strip_0x s ≫= hex_decode.
Lemma payload_hex bs : Forall in_u8 bs -> payload ("0x" +:+ hex_encode bs) = Some bs.
Proof. intros Hbs. unfold payload. change (strip_0x ("0x" +:+ hex_encode bs)) with (Some (hex_encode bs)). by apply hex_decode_encode. Qed.

(** What the page passes for a step and for a single withdrawal. *)
Definition js_step (x : WithdrawExternalInputs) : JsExternalInput :=
  mkJsExternalInput (wx_is_dummy x =? 1) (fr_to_hex (wx_value x)) (fr_to_hex (wx_secret x)) (u64_to_string (wx_leaf_index x))
    (fr_to_hex <$> wx_siblings x).
Definition js_single (root recipient value secret leaf_index : Z) (sibs : list Z) : JsSingleWithdrawInput :=
  mkJsSingleWithdrawInput (fr_to_hex root) (fr_to_hex recipient) (fr_to_hex value) (fr_to_hex value) (fr_to_hex 0) (fr_to_hex secret)
    (u64_to_string leaf_index) (fr_to_hex <$> sibs).

Definition step_wf (DEPTH : nat) (x : WithdrawExternalInputs) : Prop :=
  (wx_is_dummy x = 0 \/ wx_is_dummy x = 1) /\ is_fr (wx_value x) /\ is_fr (wx_secret x) /\ in_u64 (wx_leaf_index x)
  /\ length (wx_siblings x) = DEPTH /\ Forall is_fr (wx_siblings x).

Lemma u64_fr i : in_u64 i -> is_fr i.
Proof. intros Hi. apply (fr_small _ 64); [exact Hi | lia]. Qed.

Lemma decode_js_step DEPTH x : step_wf DEPTH x -> decode_step DEPTH (js_step x) = Ok x.
Proof.
  intros (Hd & Hv & Hs & Hi & Hl & Hf). unfold decode_step, js_step. cbn [jx_siblings jx_leaf_index jx_value jx_secret jx_is_dummy].
  rewrite hex_to_fr_list by done. cbn [mbind result_bind]. rewrite Hl, Nat.eqb_refl. cbn [negb].
  rewrite wasm_parse_u64_decimal, !hex_to_fr_to_hex by done. cbn [mbind result_bind]. rewrite fr_of_biguint_id by by apply u64_fr.
  destruct x as [dm v k i l]. cbn [wx_is_dummy wx_value wx_secret wx_leaf_index wx_siblings] in *. by destruct Hd as [-> | ->].
Qed.

Context {G : Groth16} {N : WithdrawNova} {D : DeciderClient}.

Lemma prove_steps_eq DEPTH xs : Forall (step_wf DEPTH) xs -> forall nova,
  ok (fold_result (fun nova external => ext_input ← decode_step DEPTH external;
        map_err (fun err => "prove_step failed: " +:+ err)%string (withdraw_prove_step nova ext_input)) nova (js_step <$> xs))
  = ok (fold_result (fun nova x => context "failed to prove step in batch withdraw Nova" (withdraw_prove_step nova x)) nova xs).
Proof.
  induction 1 as [|x xs Hx _ IH]; intros nova; [done|]. cbn [fmap list_fmap fold_result]. rewrite decode_js_step by done. cbn [mbind result_bind].
  destruct (withdraw_prove_step nova x) as [nova'|]; [|done]. cbn [map_err context mbind result_bind]. apply IH.
Qed.

Lemma withdraw_height_cases g DEPTH {A} (x y z : A) : DEPTH = withdraw_height g ->
  (if (DEPTH =? TRANSFER_TREE_HEIGHT)%nat then x else if (DEPTH =? GLOBAL_TRANSFER_TREE_HEIGHT)%nat then y else z) = if g then y else x.
Proof. intros ->. by destruct g. Qed.

Lemma single_matches g recipient root event merkle_proof leaf_index secret :
  let DEPTH := withdraw_height g in
  is_fr recipient -> is_fr secret -> in_u64 leaf_index -> length (siblings merkle_proof) = DEPTH -> Forall is_fr (siblings merkle_proof) ->
  ok (single_teleport_proof DEPTH recipient root event merkle_proof leaf_index secret)
  = ok (SingleWithdrawWasm_prove (js_single (u256_to_fr root) recipient (u256_to_fr (ie_value event)) secret leaf_index (siblings merkle_proof)))
    ≫= fun r => payload (jg_proof_calldata r).
Proof.
  intros DEPTH Hrec Hsec Hi Hl Hs. unfold SingleWithdrawWasm_prove. cbn [js_single js_siblings]. rewrite length_fmap.
  rewrite (withdraw_height_cases g) by exact Hl.
  assert ((if g then prove_single_with_depth GLOBAL_TRANSFER_TREE_HEIGHT (js_single (u256_to_fr root) recipient (u256_to_fr (ie_value event)) secret leaf_index (siblings merkle_proof))
           else prove_single_with_depth TRANSFER_TREE_HEIGHT (js_single (u256_to_fr root) recipient (u256_to_fr (ie_value event)) secret leaf_index (siblings merkle_proof)))
          = prove_single_with_depth DEPTH (js_single (u256_to_fr root) recipient (u256_to_fr (ie_value event)) secret leaf_index (siblings merkle_proof))) as ->
    by (by destruct g).
  unfold prove_single_with_depth, single_teleport_proof. cbn [js_single js_siblings js_merkle_root js_recipient js_withdraw_value js_value js_delta js_secret js_leaf_index].
  rewrite length_fmap, Hl, Nat.eqb_refl. cbn [negb]. destruct circom_poseidon_config as [cfg|]; [|done]. cbn [ok_or mbind result_bind].
  assert (is_fr (u256_to_fr root)) as Hroot by apply is_fr_mod. assert (is_fr (u256_to_fr (ie_value event))) as Hval by apply is_fr_mod.
  assert (is_fr 0) as H0 by by vm_compute.
  rewrite !hex_to_fr_to_hex by assumption. cbn [mbind result_bind]. rewrite wasm_parse_u64_decimal by done. cbn [mbind result_bind].
  rewrite hex_to_fr_list by done. cbn [mbind result_bind].
  cbn [public_inputs sw_merkle_root sw_recipient sw_withdraw_value mbind option_bind ok_or result_bind].
  unfold context. rewrite ok_map_err. set (circuit := mkSingleWithdrawCircuit _ _ _ _ _ _ _ _ _). unfold generate_proof.
  destruct (groth16_prove DEPTH circuit) as [p|]; [|done]. cbn [mbind result_bind].
  destruct (groth16_verify DEPTH _ p) as [[]|]; [|done..]. cbn [negb mbind result_bind ok option_bind jg_proof_calldata].
  rewrite payload_hex; [done|]. apply Forall_app_2; apply abi_encode_bytes.
Qed.

Lemma batch_matches g num recipient root events merkle_proofs leaf_indices secrets inputs :
  let DEPTH := withdraw_height g in
  (forall p bs, withdraw_serialize p = Ok bs -> Forall in_u8 bs) -> (1 <= num)%nat -> is_fr recipient ->
  length merkle_proofs = length events -> length leaf_indices = length events -> length secrets = length events ->
  map_result (withdraw_input DEPTH) (zip (zip (zip events merkle_proofs) leaf_indices) secrets) = Ok inputs ->
  Forall (step_wf DEPTH) (inputs ++ dummy_steps DEPTH num) ->
  ok (batch_teleport_proof DEPTH num recipient root events merkle_proofs leaf_indices secrets)
  = ok (WithdrawNovaWasm_prove (fr_to_hex <$> initial_state (u256_to_fr root) recipient) (js_step <$> inputs ++ dummy_steps DEPTH num))
    ≫= fun r => payload (jp_ivc_proof r)
    ≫= fun bs => ok (produce_decider_proof (if g then WithdrawGlobal else WithdrawLocal) bs).
Proof.
  intros DEPTH Hser Hnum Hrec H1 H2 H3 Hin Hwf. unfold batch_teleport_proof. rewrite H1, H2, H3, Nat.eqb_refl. cbn [negb orb].
  rewrite Hin. cbn [mbind result_bind]. set (xs := inputs ++ dummy_steps DEPTH num) in *.
  assert (is_fr 0) as H0 by by vm_compute. assert (Forall is_fr (initial_state (u256_to_fr root) recipient)) as Hz0.
  { unfold initial_state. repeat (apply Forall_cons_2; [first [assumption | apply is_fr_mod]|]). constructor. }
  assert (exists x xs', xs = x :: xs') as (x & xs' & Exs).
  { destruct xs as [|x xs'] eqn:E; [|by exists x, xs']. apply (f_equal length) in E. unfold xs, dummy_steps in E.
    rewrite length_app, length_fmap, length_seq in E. cbn in E. lia. }
  assert (forall y, y ∈ xs -> length (jx_siblings (js_step y)) = DEPTH) as Hlen.
  { intros y Hy. rewrite Forall_forall in Hwf. destruct (Hwf _ Hy) as (_ & _ & _ & _ & Hl & _). cbn [js_step jx_siblings]. by rewrite length_fmap. }
  unfold WithdrawNovaWasm_prove. rewrite length_fmap. cbn [initial_state length Nat.eqb WITHDRAW_STATE_LEN negb].
  fold (initial_state (u256_to_fr root) recipient). rewrite hex_to_fr_list by done. cbn [mbind result_bind].
  assert (match js_step <$> xs with input :: _ => length (jx_siblings input) | [] => TRANSFER_TREE_HEIGHT end = DEPTH) as ->.
  { rewrite Exs. cbn [fmap list_fmap]. apply Hlen. rewrite Exs. left. }
  assert (existsb (fun input => negb (length (jx_siblings input) =? DEPTH)%nat) (js_step <$> xs) = false) as ->.
  { apply not_true_is_false. intros (j & Hj%list_elem_of_In & Hn)%existsb_exists. apply list_elem_of_fmap in Hj as (y & -> & Hy).
    rewrite (Hlen _ Hy), Nat.eqb_refl in Hn. done. }
  rewrite (withdraw_height_cases g) by done.
  assert ((if g then prove_with_depth GLOBAL_TRANSFER_TREE_HEIGHT (initial_state (u256_to_fr root) recipient) (js_step <$> xs)
           else prove_with_depth TRANSFER_TREE_HEIGHT (initial_state (u256_to_fr root) recipient) (js_step <$> xs))
          = prove_with_depth DEPTH (initial_state (u256_to_fr root) recipient) (js_step <$> xs)) as -> by (by destruct g).
  unfold prove_with_depth, context. destruct (withdraw_initial_nova DEPTH _) as [nova|]; [|done]. cbn [map_err mbind result_bind].
  pose proof (prove_steps_eq DEPTH xs Hwf nova) as Hf. unfold context in Hf.
  destruct (fold_result _ nova (js_step <$> xs)) as [n1|]; destruct (fold_result _ nova xs) as [n2|]; try done. injection Hf as <-.
  cbn [mbind result_bind]. destruct (withdraw_nova_verify DEPTH _); [|done]. cbn [map_err mbind result_bind].
  assert (circuit_kind_of DEPTH = Ok (if g then WithdrawGlobal else WithdrawLocal)) as -> by (unfold DEPTH; by destruct g). cbn [mbind result_bind].
  destruct (withdraw_serialize _) as [bs|] eqn:Eb; [|done]. cbn [map_err mbind result_bind ok option_bind jp_ivc_proof].
  rewrite payload_hex by (by eapply Hser). cbn [mbind option_bind]. by rewrite ok_map_err.
Qed.

Lemma dummy_steps_wf DEPTH num : Forall (step_wf DEPTH) (dummy_steps DEPTH num).
Proof.
  unfold dummy_steps. apply Forall_fmap, Forall_forall. intros i _. assert (is_fr 0) as H0 by by vm_compute.
  cbn [compose]. set (j := u64_add _ _). assert (in_u64 j) as Hj by (apply Z.mod_pos_bound; lia).
  unfold dummy_withdraw_ext_input. split_and!; cbn [wx_is_dummy wx_value wx_secret wx_leaf_index wx_siblings];
    [by right | apply is_fr_mod | done | rewrite fr_of_biguint_id; [done | by apply u64_fr] | apply length_replicate | by apply Forall_replicate].
Qed.

(** What the command line feeds to the prover. *)
Definition proof_inputs_wf (DEPTH : nat) (proofs : list MerkleProof) (indices secrets : list Z) : Prop :=
  Forall (fun p => length (siblings p) = DEPTH /\ Forall is_fr (siblings p)) proofs /\ Forall in_u64 indices /\ Forall is_fr secrets.

Lemma real_inputs_wf DEPTH events : forall proofs indices secrets, proof_inputs_wf DEPTH proofs indices secrets ->
  exists inputs, map_result (withdraw_input DEPTH) (zip (zip (zip events proofs) indices) secrets) = Ok inputs /\ Forall (step_wf DEPTH) inputs.
Proof.
  induction events as [|ev events IH]; intros proofs indices secrets (Hp & Hi & Hs); [by exists []|].
  destruct proofs as [|p proofs]; [by exists []|]. destruct indices as [|idx indices]; [by exists []|]. destruct secrets as [|k secrets]; [by exists []|].
  apply Forall_cons in Hp as [[Hl Hf] Hp]. apply Forall_cons in Hi as [Hidx Hi]. apply Forall_cons in Hs as [Hk Hs].
  destruct (IH proofs indices secrets) as (inputs & Hin & Hwf); [by split_and!|]. cbn [zip zip_with map_result].
  assert (withdraw_input DEPTH (ev, p, idx, k) = Ok (mkWithdrawExternalInputs 0 (u256_to_fr (ie_value ev)) k (fr_of_biguint idx) (siblings p))) as ->
    by (unfold withdraw_input; rewrite Hl, Nat.eqb_refl; reflexivity).
  cbn [mbind result_bind]. fold (zip events proofs) (zip (zip events proofs) indices). rewrite Hin. cbn [mbind result_bind].
  eexists. split; [reflexivity|]. constructor; [|done].
  split_and!; cbn [wx_is_dummy wx_value wx_secret wx_leaf_index wx_siblings]; [by left | apply is_fr_mod | done | | done | done].
  by rewrite fr_of_biguint_id; [|apply u64_fr].
Qed.

End browser.

(** * Witnesses *)

Section witnesses.
#[local] Existing Instance easy_crypto.
#[local] Existing Instance easy_crypto_laws.
#[local] Existing Instance easy_r1cs.
#[local] Existing Instance toy_signatures.
#[local] Existing Instance easy_signatures_laws.

Definition toy_web : WebLib := {|
  u256_from_str_radix_16 := fun s => option_map be_val (hex_decode s);
  Address_from_str := fun s => option_map be_val (hex_decode (default s (strip_0x s)));
  address_to_hex_string := fun a => "0x" +:+ hex_encode (be_bytes 20 a);
|}.
#[local] Existing Instance toy_web.
Lemma toy_web_laws : WebLaws toy_signatures toy_web.
Proof.
  split.
  - intros v Hv. cbn [u256_from_str_radix_16 toy_web]. rewrite hex_decode_encode by apply be_bytes_bytes. cbn [option_map].
    f_equal. exact (u256_bytes_roundtrip v Hv).
  - intros a Ha. cbn [Address_from_str address_to_hex_string toy_web]. change (strip_0x ("0x" +:+ ?s)) with (Some s). change (default ?x (Some ?y)) with y.
    rewrite hex_decode_encode by apply be_bytes_bytes. cbn [option_map]. f_equal. exact (address_bytes_roundtrip a Ha).
Qed.
#[local] Existing Instance toy_web_laws.

Definition web_burn : FullBurnAddress := mkFullBurnAddress (new_evm 10 77 (st_tweak easy_secret)) (st_secret easy_secret).
Definition web_address : Z := Eval vm_compute in match burn_address web_burn with Ok a => a | Err _ => 0 end.


Definition web_poseidonT3 : PoseidonT3 := {| PoseidonT3_hash := poseidon2 |}.
Lemma web_poseidonT3_laws : PoseidonT3Laws easy_crypto web_poseidonT3.
Proof. by split. Qed.

Lemma browser_aggregation_matches_hub_witness :
  exists root path, computeAggregationRoot (P := web_poseidonT3) [5; 0; 7] (generateZeroHashes (P := web_poseidonT3)) = Some root
    /\ wasm_aggregation_root (b256_to_hex_string <$> [5; 0; 7]) = Ok (fr_to_hex root)
    /\ aggregation_merkle_proof (b256_to_hex_string <$> [5; 0; 7]) 2 = Ok (fr_to_hex <$> path)
    /\ proof_get_root (mkMerkleProof path) 7 2 = Some root.
Proof.
  destruct (browser_aggregation_matches_hub (HP := web_poseidonT3_laws) [5; 0; 7]) as (root & H1 & H2 & H3).
  - cbn. lia.
  - repeat constructor; unfold is_fr, fr_modulus; lia.
  - destruct (H3 2 ltac:(lia)) as (path & H4 & _ & _ & H5). exists root, path. split_and!; [exact H1 | exact H2 | exact H4 | exact H5].
Defined.

Definition web_proof : MerkleProof := mkMerkleProof (replicate 46 3).
Definition web_event : IndexedEvent := mkIndexedEvent 0 1 77 10 5.
End witnesses.
