(* ===== verification/Indexer.v ===== *)
(** The start-up of the indexer: the configuration of the process ([indexer/src/config.rs], with [client-common/src/tokens.rs]),
    the construction of its three jobs and the [--once] run of [indexer/src/main.rs].

    The environment of the process is a record of the variables [envy] decodes; reading files, parsing JSON and URLs and connecting to
    nodes are arguments.  The endless loops and the HTTP server of the other mode are started, not run. *)

From Stdlib Require Import Ascii.
From S2P Require Import Prelude Words Text Crypto BitPaths MerkleTrees Circuits Database OnChain TreeDb Events Leases Jobs RootJob Payment Storage.
Local Open Scope Z_scope.

(** ** Configuration *)

Definition DEFAULT_EVENT_INTERVAL_MS : Z := 5000.
Definition DEFAULT_TREE_INTERVAL_MS : Z := 2000.
Definition DEFAULT_TREE_HEIGHT : nat := TRANSFER_TREE_HEIGHT.
Definition DEFAULT_TREE_BATCH_SIZE : Z := 128.
Definition DEFAULT_ROOT_INTERVAL_MS : Z := 5000.
Definition DEFAULT_ROOT_SUBMIT_INTERVAL_MS : Z := 10000.
Definition DEFAULT_DECIDER_PROVER_TIMEOUT_SECS : Z := 120.
Definition DEFAULT_DECIDER_PROVER_POLL_INTERVAL_MS : Z := 1000.

(** The variables that are set, decoded. *)
Record EnvVars := mkEnvVars {
  var_database_url : option string;
  var_event_interval_ms : option Z;
  var_event_block_span : option Z;
  var_event_forward_scan_overlap : option Z;
  var_tree_interval_ms : option Z;
  var_tree_history_window : option Z;
  var_tree_batch_size : option Z;
  var_root_interval_ms : option Z;
  var_root_submit_interval_ms : option Z;
  var_root_history_window : option Z;
  var_decider_prover_timeout_secs : option Z;
  var_decider_prover_poll_interval_ms : option Z;
  var_decider_prover_url : option string;
  var_root_submitter_private_key : option string;
  var_root_artifacts_dir : option string;
}.

Record EnvSettings := mkEnvSettings {
  env_database_url : string;
  env_event_interval_ms : Z;
  env_event_block_span : Z;
  env_event_forward_scan_overlap : Z;
  env_tree_interval_ms : Z;
  env_tree_history_window : Z;
  env_tree_batch_size : Z;
  env_root_interval_ms : Z;
  env_root_submit_interval_ms : Z;
  env_root_history_window : option Z;
  env_decider_prover_timeout_secs : Z;
  env_decider_prover_poll_interval_ms : Z;
  env_decider_prover_url : string;
  env_root_submitter_private_key : string;
  env_root_artifacts_dir : option string;
}.

(** Fields without a default must be set. *)
Definition EnvSettings_from_env (v : EnvVars) : result JobError EnvSettings :=
  let required o := ok_or (Msg "failed to load indexer environment settings") o in
  database_url ← required (var_database_url v);
  decider_prover_url ← required (var_decider_prover_url v);
  root_submitter_private_key ← required (var_root_submitter_private_key v);
  Ok (mkEnvSettings database_url
        (default DEFAULT_EVENT_INTERVAL_MS (var_event_interval_ms v))
        (default BLOCK_SPAN_RECOMMENDED (var_event_block_span v))
        (default FORWARD_SCAN_OVERLAP_RECOMMENDED (var_event_forward_scan_overlap v))
        (default DEFAULT_TREE_INTERVAL_MS (var_tree_interval_ms v))
        (default HISTORY_WINDOW_RECOMMENDED (var_tree_history_window v))
        (default DEFAULT_TREE_BATCH_SIZE (var_tree_batch_size v))
        (default DEFAULT_ROOT_INTERVAL_MS (var_root_interval_ms v))
        (default DEFAULT_ROOT_SUBMIT_INTERVAL_MS (var_root_submit_interval_ms v))
        (var_root_history_window v)
        (default DEFAULT_DECIDER_PROVER_TIMEOUT_SECS (var_decider_prover_timeout_secs v))
        (default DEFAULT_DECIDER_PROVER_POLL_INTERVAL_MS (var_decider_prover_poll_interval_ms v))
        decider_prover_url root_submitter_private_key (var_root_artifacts_dir v)).

(** Durations are milliseconds. *)
Record RootJobConfig := mkRootJobConfig {
  rjc_interval_ms : Z;
  rjc_submit_interval_ms : Z;
  rjc_history_window : Z;
  rjc_prover_timeout : Z;
  rjc_prover_poll_interval : Z;
  rjc_prover_url : string;
  rjc_submitter_private_key : Z;
  rjc_artifacts_dir : string;
}.

Record IndexerConfig := mkIndexerConfig {
  ic_database_url : string;
  ic_tokens : list TokenEntry;
  ic_event_indexer : EventJobConfig;
  ic_tree : TreeJobConfig;
  ic_root : RootJobConfig;
}.

Fixpoint string_len (s : string) : nat :=
  match s with EmptyString => 0 | String _ s' => S (string_len s') end.

(** [Path::is_relative] and [Path::join] on Unix. *)
Definition is_relative (path : string) : bool :=
  match path with String a _ => negb (bool_decide (a = "/"%char)) | EmptyString => true end.
Fixpoint ends_with_slash (s : string) : bool :=
  match s with
  | EmptyString => false
  | String a EmptyString => bool_decide (a = "/"%char)
  | String _ s' => ends_with_slash s'
  end.
Definition path_join (base path : string) : string :=
  if negb (is_relative path) then path
  else if bool_decide (base = EmptyString) || ends_with_slash base then base +:+ path
  else base +:+ "/" +:+ path.

Section config.
Context {L : SignatureLib}.
(** [Url::parse], the parent of the crate's directory, and [serde_json::from_str] of the file at a path. *)
Variable url_parse : string -> option string.
Variable workspace_root : string.
Variable read_tokens_file : string -> result JobError TokensFile.

Definition parse_hex_b256 (value : string) : result JobError Z :=
  let normalized := trim value in
  if bool_decide (normalized = EmptyString) then Err (Msg "hex string must not be empty")
  else
    let hex := default normalized (strip_0x normalized) in
    if negb (string_len hex =? 64)%nat then Err (Msg "hex string must be 32 bytes (64 hex characters)")
    else
      bs ← ok_or (Msg "failed to decode hex string into bytes") (hex_decode hex);
      if negb (length bs =? 32)%nat then Err (Msg "hex string must decode to exactly 32 bytes")
      else Ok (be_val bs).

Definition RootJobConfig_new (interval_ms submit_interval_ms history_window prover_timeout_secs prover_poll_interval_ms : Z)
  (prover_url submitter_private_key : string) (artifacts_dir : option string) : result JobError RootJobConfig :=
  if interval_ms =? 0 then Err (Msg "root prover job interval must be positive")
  else if submit_interval_ms =? 0 then Err (Msg "root prover submission interval must be positive")
  else if history_window =? 0 then Err (Msg "root prover history window must be greater than zero")
  else if prover_poll_interval_ms =? 0 then Err (Msg "root prover poll interval must be greater than zero")
  else
    prover_url ← ok_or (Msg "failed to parse decider prover URL from DECIDER_PROVER_URL") (url_parse (trim prover_url));
    submitter_private_key ← map_err (fun _ => Msg "invalid ROOT_SUBMITTER_PRIVATE_KEY") (parse_hex_b256 submitter_private_key);
    let artifacts_dir :=
      match artifacts_dir with
      | Some path => if is_relative path then path_join workspace_root path else path
      | None => path_join workspace_root "nova_artifacts"
      end in
    Ok (mkRootJobConfig interval_ms submit_interval_ms history_window (prover_timeout_secs * 1000) prover_poll_interval_ms
          prover_url submitter_private_key artifacts_dir).

Definition load_tokens (path : string) : result JobError (list TokenEntry) :=
  tokens_file ← read_tokens_file path;
  tokens_file ← map_err (fun _ => Msg "invalid tokens config") (TokensFile_normalize tokens_file);
  Ok (tf_tokens tokens_file).

Definition IndexerConfig_load (vars : EnvVars) (tokens_path : string) : result JobError IndexerConfig :=
  env ← EnvSettings_from_env vars;
  tokens ← load_tokens tokens_path;
  match tokens with
  | [] => Err (Msg "at least one token entry must be configured")
  | _ =>
    tokens ← map_result TokenEntry_normalize tokens;
    let event_indexer := mkEventJobConfig (env_event_interval_ms env) (env_event_block_span env) (env_event_forward_scan_overlap env) in
    _ ← map_err (fun _ => Msg "invalid event indexer configuration") (EventJobConfig_ensure_valid event_indexer);
    let tree := mkTreeJobConfig (env_tree_interval_ms env) DEFAULT_TREE_HEIGHT (env_tree_history_window env) (env_tree_batch_size env) in
    _ ← map_err (fun _ => Msg "invalid tree configuration") (TreeJobConfig_ensure_valid tree);
    root ← map_err (fun _ => Msg "invalid root prover configuration")
             (RootJobConfig_new (env_root_interval_ms env) (env_root_submit_interval_ms env)
                (default (tjc_history_window tree) (env_root_history_window env))
                (env_decider_prover_timeout_secs env) (env_decider_prover_poll_interval_ms env)
                (env_decider_prover_url env) (env_root_submitter_private_key env) (env_root_artifacts_dir env));
    Ok (mkIndexerConfig (env_database_url env) tokens event_indexer tree root)
  end.
End config.

(** ** The loops of the jobs *)

(** The event and the tree job: [run_once], then the rest of the interval is slept; the endless loop is run for the iterations whose
    durations are given, from the instant of the first one. *)
Definition next_start (interval_ms started finished : Z) : Z :=
  if finished - started <? interval_ms then started + interval_ms else finished.

Fixpoint run_iterations {S} (interval_ms : Z) (run_once : Z -> S -> S) (started : Z) (durations : list Z) (s : S) : S :=
  match durations with
  | [] => s
  | elapsed :: rest =>
    run_iterations interval_ms run_once (next_start interval_ms started (started + elapsed)) rest (run_once started s)
  end.

Definition event_run_forever (fuel scan_fuel : nat) (holder : Z) (job : EventSyncJob) : Z -> list Z -> Db -> Db :=
  run_iterations (esj_interval_ms job) (fun now => event_run_once fuel scan_fuel now holder job).
Definition tree_run_forever {C : Crypto} (fuel : nat) (holder : Z) (job : TreeIngestionJob) : Z -> list Z -> Db -> Db :=
  run_iterations (tij_interval_ms job) (fun now => tree_run_once fuel now holder job).

(** The root job: two intervals, and the instants of the last runs. *)
Record RootTimer := mkRootTimer { last_compile : Z; last_submit : Z }.

Definition root_timer_start (config : RootJobConfig) (now : Z) : RootTimer :=
  mkRootTimer (now - rjc_interval_ms config) (now - rjc_submit_interval_ms config).

Definition should_compile (config : RootJobConfig) (t : RootTimer) (now : Z) : bool := rjc_interval_ms config <=? now - last_compile t.
Definition should_submit (config : RootJobConfig) (t : RootTimer) (now : Z) : bool := rjc_submit_interval_ms config <=? now - last_submit t.
Definition min_interval (config : RootJobConfig) : Z := Z.min (rjc_interval_ms config) (rjc_submit_interval_ms config).

(** One turn of the loop; [completed] is the instant at which its cycle ends. *)
Definition root_turn {S} (config : RootJobConfig) (run_cycle : Z -> bool -> bool -> S -> S) (now completed : Z) (ts : RootTimer * S) : RootTimer * S :=
  let '(t, s) := ts in
  let c := should_compile config t now in
  let u := should_submit config t now in
  if c || u then
    (mkRootTimer (if c then completed else last_compile t) (if u then completed else last_submit t), run_cycle now c u s)
  else ts.

Definition root_run_forever {C : Crypto} {D : Deciders} {NS : NovaScheme} {DC : DeciderClient} {RPC : Rpc}
  (polls : nat) (holder : Z) (config : RootJobConfig) (job : RootProverJob) (start : Z) (clock : list (Z * Z)) (w : World) : RootTimer * World :=
  foldl (fun ts turn => root_turn config (fun now c u => run_cycle polls now holder job c u (rpj_tokens job)) turn.1 turn.2 ts)
    (root_timer_start config start, w) clock.

(** ** [main.rs] *)

(** [str::eq_ignore_ascii_case]. *)
Definition ascii_lower (a : ascii) : ascii :=
  let n := nat_of_ascii a in if ((65 <=? n) && (n <=? 90))%nat then ascii_of_nat (n + 32) else a.
Fixpoint eq_ignore_ascii_case (s t : string) : bool :=
  match s, t with
  | EmptyString, EmptyString => true
  | String a s', String b t' => bool_decide (ascii_lower a = ascii_lower b) && eq_ignore_ascii_case s' t'
  | _, _ => false
  end.

Definition run_sync (is_sync : option string) : bool :=
  match is_sync with Some value => eq_ignore_ascii_case value "true" | None => false end.

Record IndexerJobs := mkIndexerJobs {
  event_job : EventSyncJob;
  tree_job : TreeIngestionJob;
  root_job : RootProverJob;
}.

(** What the process does after its start-up. *)
Inductive Mode := OnceFinished | ServeAndSync | ServeOnly.

Section main.
Context {C : Crypto} {D : Deciders} {NS : NovaScheme} {DC : DeciderClient} {RPC : Rpc}.
Variable default_hasher : string -> Z -> Z -> Z -> Z -> Z.
(** Building a provider; loading the Nova parameters of a directory; building the client of the decider service. *)
Variable connect : list string -> result JobError EthNode.
Variable load_root_nova_params : string -> result JobError unit.
Variable decider_client_new : string -> Z -> Z -> result JobError unit.

(** [RootProverJobBuilder::new(..).into_job()]: submission is enabled. *)
Definition root_into_job (root_config : RootJobConfig) (tree_config : DbMerkleTreeConfig) (tree_height : nat) (tokens : list TokenEntry)
  : result JobError RootProverJob :=
  _ ← map_result (fun t => connect (te_rpc_urls t)) tokens;
  _ ← load_root_nova_params (rjc_artifacts_dir root_config);
  _ ← decider_client_new (rjc_prover_url root_config) (rjc_prover_poll_interval root_config) (rjc_prover_timeout root_config);
  Ok (RootProverJob_build default_hasher tree_config tree_height (rjc_history_window root_config) true tokens).

Definition build_jobs (config : IndexerConfig) : result JobError IndexerJobs :=
  event_job ← map_err (fun _ => Msg "failed to construct event sync job")
                (EventSyncJob_build default_hasher connect (ic_event_indexer config) (ic_tokens config));
  tree_job ← map_err (fun _ => Msg "failed to construct tree ingestion job")
               (TreeIngestionJob_build default_hasher (ic_tree config) (ic_tokens config));
  tree_config ← map_err (fun _ => Msg "failed to build merkle tree config for root prover job") (TreeJobConfig_build (ic_tree config));
  root_job ← map_err (fun _ => Msg "failed to construct root prover job")
               (root_into_job (ic_root config) tree_config (tjc_height (ic_tree config)) (ic_tokens config));
  Ok (mkIndexerJobs event_job tree_job root_job).

(** The fuels of the loops, the number of polls, the session id and the database clock at the start of each job. *)
Record RunEnv := mkRunEnv {
  run_fuel : nat;
  run_scan_fuel : nat;
  run_polls : nat;
  run_holder : Z;
  run_event_now : Z;
  run_tree_now : Z;
  run_root_now : Z;
}.

(** The jobs of [--once], in their order. *)
Definition run_jobs_once (e : RunEnv) (jobs : IndexerJobs) (w : World) : World :=
  let d := event_run_once (run_fuel e) (run_scan_fuel e) (run_event_now e) (run_holder e) (event_job jobs) (w_db w) in
  let d := tree_run_once (run_fuel e) (run_tree_now e) (run_holder e) (tree_job jobs) d in
  root_run_once (run_polls e) (run_root_now e) (run_holder e) (root_job jobs) (set_db d w).

(** [main] after the configuration is loaded and the pool is connected. *)
Definition indexer_main (e : RunEnv) (config : IndexerConfig) (is_sync : option string) (once : bool) : M World JobError Mode :=
  lift (build_jobs config) ≫= fun jobs =>
  if once then
    (if run_sync is_sync then modify (run_jobs_once e jobs) else mret tt) ≫= fun _ => mret OnceFinished
  else mret (if run_sync is_sync then ServeAndSync else ServeOnly).
End main.
