(* ===== verification/IndexerSpec.v ===== *)
(** The indexer as a process ([indexer/src/config.rs], [indexer/src/main.rs]): what a loaded configuration guarantees, and a [--once] run
    from the logs of all tokens to their transfer roots on chain. *)

From Stdlib Require Import Ascii.
From S2P Require Import Prelude Words Text Crypto BitPaths MerkleTrees Gadgets Circuits Folding Database OnChain OnChainSpec TreeDb TreeDbSpec Events EventsSpec Leases Jobs JobsSpec RootJob RootJobSpec Payment Storage StorageSpec Indexer.
Local Open Scope Z_scope.

(** ** Leases *)

(** The key can be taken. *)
Definition lease_free (now holder key : Z) (d : Db) : Prop :=
  forall r, leases d !! key = Some r -> lr_holder r = holder \/ lr_expires_at r < now.

Definition leased (now holder key : Z) (d : Db) : Db := set_leases (<[key := mkLeaseRow holder (now + LEASE_TTL)]> (leases d)) d.

Lemma acquire_free now holder key d : lease_free now holder key d -> try_acquire_lock now holder key d = (leased now holder key d, true).
Proof.
  intros Hf. unfold try_acquire_lock, leased. destruct (leases d !! key) as [r|] eqn:E; [|done].
  destruct (Hf r E) as [H|H]; [by rewrite (proj2 (Z.eqb_eq _ _) H) | by rewrite (proj2 (Z.ltb_lt _ _) H), orb_true_r].
Qed.

Lemma lease_free_later now now' holder key key' d d' :
  now <= now' -> leases d' = delete key' (leases d) -> lease_free now holder key d -> lease_free now' holder key d'.
Proof. intros Hn Hl Hf r. rewrite Hl, lookup_delete_Some. intros [_ [H|H]%Hf]; [by left | right; lia]. Qed.

Lemma release_leased now holder key d d' :
  leases d' = leases (leased now holder key d) ->
  (release_lease holder key d').1 = set_leases (delete key (leases d)) d'.
Proof.
  intros Hl. unfold release_lease. rewrite Hl. cbn [leased leases set_leases]. rewrite lookup_insert_eq. cbn [lr_holder]. rewrite Z.eqb_refl.
  cbn [fst]. f_equal. apply delete_insert_eq.
Qed.

Lemma with_lease_run now holder key (work : M Db JobError unit) d d' :
  lease_free now holder key d -> work (leased now holder key d) = (d', Ok tt) -> leases d' = leases (leased now holder key d) ->
  with_lease now holder key work d = (set_leases (delete key (leases d)) d', Ok tt).
Proof.
  intros Hf Hw Hl. unfold with_lease. rewrite (M_bind_run _ _ d (leased now holder key d) true) by by rewrite acquire_free.
  rewrite (M_bind_run _ _ _ d' (Ok tt)) by (unfold attempt; by rewrite Hw).
  unfold mbind, M_bind, modify, lift. by rewrite (release_leased now holder key d).
Qed.

(** ** The invariant of a token between runs *)

Section token.
Context {C : Crypto} {HC : CryptoLaws C} {R : R1CS} {HR : R1CSLaws C R}.
Context {D : Deciders} {NS : NovaScheme} {DC : DeciderClient} {RPC : Rpc}.
Context (attests : RootNovaInstance -> Z -> list Z -> list Z -> Prop) {PL : ProverLaws attests}.

(** The tables of a registered token: the events are rows of the log, the tree holds the first [n] leaves and the checkpoints of the root
    prover extend the [b] proved leaves. *)
Record token_rows (win : Z) (logs : list IndexedTransferLog) (n b : nat) (v : Verifier) (tok : Z) (d : Db) : Prop := {
  tok_events : indexer_inv tok (events_of logs) d;
  tok_tree : has_history tok TRANSFER_TREE_HEIGHT win d (log_leaves (take n logs));
  tok_prover : checkpoint_ok attests tok (log_leaves logs) b v d;
}.

(** No row of the token in any table. *)
Definition no_rows (tok : Z) (d : Db) : Prop :=
  (forall i, indexed_transfer_events d !! (tok, i) = None) /\ event_indexer_state d !! tok = None
  /\ token_fresh tok d /\ root_prover_state d !! tok = None.

(** The token has been indexed before, up to any point, or is new. *)
Definition token_known (win : Z) (m : TokenMetadata) (logs : list IndexedTransferLog) (b : nat) (v : Verifier) (d : Db) : Prop :=
  tokens_ok d /\ ((exists tok n, registered m tok d /\ (n <= length logs)%nat /\ token_rows win logs n b v tok d)
                  \/ ((forall tok, ~ registered m tok d) /\ forall tok, next_token_id d <= tok -> no_rows tok d)).

(** The rows of a token are the same in two databases. *)
Record same_rows (tok : Z) (d d' : Db) : Prop := {
  rw_token : tokens d' !! tok = tokens d !! tok;
  rw_events : forall i, indexed_transfer_events d' !! (tok, i) = indexed_transfer_events d !! (tok, i);
  rw_state : event_indexer_state d' !! tok = event_indexer_state d !! tok;
  rw_nodes : forall k, merkle_nodes_current d' !! (tok, k) = merkle_nodes_current d !! (tok, k);
  rw_updates : forall i k, merkle_node_updates d' !! (tok, i, k) = merkle_node_updates d !! (tok, i, k);
  rw_snapshots : forall i, merkle_snapshots d' !! (tok, i) = merkle_snapshots d !! (tok, i);
  rw_ivc : forall e, root_ivc_proofs d' !! (tok, e) = root_ivc_proofs d !! (tok, e);
  rw_prover : root_prover_state d' !! tok = root_prover_state d !! tok;
}.

Lemma has_history_rows tok h w d d' ls : same_rows tok d d' -> has_history tok h w d ls -> has_history tok h w d' ls.
Proof.
  intros [R1 R2 R3 R4 R5 R6 R7 R8] [H1 H2 H3 H4 H5 H6 H7 H8]. split; try done; cbn in *.
  - by rewrite R1.
  - intros tb Htb. rewrite !elem_of_union, !elem_of_singleton. destruct Htb as [->|[->| ->]]; auto.
  - intros i row. rewrite R6. apply H5.
  - intros p Hp. rewrite R4. by apply H6.
  - intros i k row. rewrite R5. apply H7.
  - intros i j p. rewrite R5. by apply H8.
Qed.

Lemma checkpoint_rows tok ls b v d d' : same_rows tok d d' -> checkpoint_ok attests tok ls b v d -> checkpoint_ok attests tok ls b v d'.
Proof.
  intros SR H row. rewrite (rw_prover _ _ _ SR). intros Hrow Hb. destruct (H row Hrow Hb) as (c & s & -> & [P1 P2 P3 P4 P5 P6] & Hp).
  exists c, s. split; [done|]. split; [|done]. split; [by rewrite (rw_prover _ _ _ SR) | done..|].
  intros Hlt. destruct (P6 Hlt) as (row' & Hr' & Hrest). exists row'. by rewrite (rw_ivc _ _ _ SR).
Qed.

Lemma indexer_inv_rows tok evs d d' : same_rows tok d d' -> indexer_inv tok evs d -> indexer_inv tok evs d'.
Proof.
  intros SR [I1 I2 I3]. split; [by rewrite (rw_token _ _ _ SR) | intros i row; rewrite (rw_events _ _ _ SR); apply I2 |].
  intros r. rewrite (rw_state _ _ _ SR). intros Hr. destruct (I3 r Hr) as (J1 & J2 & J3).
  split_and!; [done | intros k Hk; rewrite (rw_events _ _ _ SR); by apply J2 |]. intros k e He Hb. unfold event_stored. rewrite (rw_events _ _ _ SR). by apply J3.
Qed.

Lemma token_rows_same win logs n b v tok d d' : same_rows tok d d' -> token_rows win logs n b v tok d -> token_rows win logs n b v tok d'.
Proof. intros SR [H1 H2 H3]. split; [by eapply indexer_inv_rows | by eapply has_history_rows | by eapply checkpoint_rows]. Qed.

Lemma registered_same m tok d d' : tokens d' !! tok = tokens d !! tok -> registered m tok d -> registered m tok d'.
Proof. unfold registered. by intros ->. Qed.

(** What work on the token [tok] of [m] leaves alone: the rows of the other tokens. *)
Record work_frame (m : TokenMetadata) (tok : Z) (d d' : Db) : Prop := {
  wf_rows : forall o, o <> tok -> same_rows o d d';
  wf_own : tokens d !! tok = None \/ registered m tok d;
  wf_registered : registered m tok d';
  wf_tokens : tokens_ok d';
  wf_next : next_token_id d <= next_token_id d';
}.

Definition other_token (m m' : TokenMetadata) : Prop :=
  address_bytes (tm_token_address m) <> address_bytes (tm_token_address m') \/ tm_chain_id m <> tm_chain_id m'.

Lemma other_registered m m' tok d : other_token m m' -> registered m tok d -> registered m' tok d -> False.
Proof. intros Ho (r & Hr & A & B) (r' & Hr' & A' & B'). assert (r = r') as <- by congruence. destruct Ho as [Ho|Ho]; apply Ho; congruence. Qed.

Lemma other_id m m' tok tok' d d' : other_token m m' -> work_frame m tok d d' -> registered m' tok' d -> tok' <> tok.
Proof. intros Ho F Hr ->. destruct (wf_own _ _ _ _ F) as [E|E]; [destruct Hr as (r & Hr & _); congruence | by eapply other_registered]. Qed.

Lemma other_known win m m' tok logs b v d d' :
  other_token m m' -> work_frame m tok d d' -> token_known win m' logs b v d -> token_known win m' logs b v d'.
Proof.
  intros Ho F [Hok Hk]. split; [apply F|]. destruct Hk as [(tok' & n & Hreg & Hn & Hr) | [Hnew Hno]]; [left|right].
  - pose proof (wf_rows _ _ _ _ F tok' (other_id _ _ _ _ _ _ Ho F Hreg)) as SR. exists tok', n.
    split; [by eapply registered_same; [apply SR|]|]. split; [done | by eapply token_rows_same].
  - split.
    + intros t Ht. destruct (decide (t = tok)) as [->|Hne]; [eapply other_registered; [exact Ho | apply F | exact Ht]|].
      apply (Hnew t). eapply registered_same; [symmetry; apply (wf_rows _ _ _ _ F t Hne) | exact Ht].
    + intros t Ht. pose proof (wf_next _ _ _ _ F). destruct (wf_registered _ _ _ _ F) as (r & Hr & _). destruct (wf_tokens _ _ _ _ F) as (Hid & _ & _). apply Hid in Hr.
      assert (t <> tok) as Hne by lia. destruct (Hno t) as (N1 & N2 & (N3 & N4 & N5) & N6); [lia|]. destruct (wf_rows _ _ _ _ F t Hne) as [R1 R2 R3 R4 R5 R6 R7 R8].
      split_and!; [intros i; by rewrite R2 | by rewrite R3 | split_and!; intros; by rewrite ?R4, ?R5, ?R6 | by rewrite R8].
Qed.

(** [ensure_token_record] touches the token table only. *)
Lemma ensure_token_frame m d d' i :
  tokens_ok d -> ensure_token_record m d = (d', Ok i) ->
  exists t n, d' = set_tokens t n d /\ next_token_id d <= n /\ (forall o, o <> i -> t !! o = tokens d !! o)
    /\ ((i = next_token_id d /\ tokens d !! i = None) \/ registered m i d).
Proof.
  intros (Hid & _ & _). unfold ensure_token_record, ev_to_i64, lift, get, modify, mret, M_ret, mbind, M_bind, i64_try_from.
  destruct (Z.leb_spec (tm_chain_id m) i64_max) as [Hle|Hgt]; [|done]. cbn [ok_or].
  destruct (select _ _) as [|[j r] rows] eqn:Es; intros [= <- <-]; do 2 eexists; (split; [reflexivity|]); (split; [lia|]);
    (split; [intros o Ho; by rewrite lookup_insert_ne|]); [left|right].
  - split; [done|]. destruct (tokens d !! next_token_id d) as [r|] eqn:E; [apply Hid in E; lia | done].
  - assert ((j, r) ∈ select (fun kv : Z * TokenRow => bool_decide (tk_address kv.2 = address_bytes (tm_token_address m))
        && (tk_chain_id kv.2 =? tm_chain_id m)) (tokens d)) as Hin by (rewrite Es; left).
    apply elem_of_select in Hin as [Hj Hp]. cbn [snd] in Hp. bool_cases. exists r. apply bool_decide_eq_true in H. by split_and!.
Qed.

(** Registering the token leaves its rows, or gives it an empty tree. *)
Lemma known_after_registration win m logs b v d :
  0 < win < 2 ^ 64 -> tm_chain_id m <= i64_max -> token_known win m logs b v d ->
  exists d' tok n, ensure_token_record m d = (d', Ok tok) /\ tokens_ok d' /\ registered m tok d' /\ 0 < tok /\ leases d' = leases d
    /\ (n <= length logs)%nat /\ token_rows win logs n b v tok d' /\ work_frame m tok d d'.
Proof.
  intros Hwin Hc [Hok Hk]. destruct (ensure_token_record_spec m d Hok Hc) as (d' & tok & Hrun & Hok' & Hreg & Hsame & _ & _).
  destruct (ensure_token_frame m d d' tok Hok Hrun) as (t & nx & Ed & Hnx & Hoth & Hi).
  assert (work_frame m tok d d') as F.
  { split; [intros o Ho; rewrite Ed; split; try done; by apply Hoth | destruct Hi as [[_ E]|E]; auto | done | done | by rewrite Ed]. }
  assert (0 < tok) as Hpos by (destruct Hreg as (row & Hrow & _); apply Hok' in Hrow; lia).
  assert (is_Some (tokens d' !! tok)) as Htok by (destruct Hreg as (row & Hrow & _); by eexists).
  destruct Hk as [(tok0 & n & Hreg0 & Hn & Hrows) | [Hnew Hno]].
  - rewrite (Hsame tok0 Hreg0) in *. exists d', tok0, n. rewrite Ed. rewrite <- Ed at 2 3. split_and!; try done; try (by rewrite <- Ed).
    destruct Hrows as [[I1 I2 I3] [H1 H2 H3 H4 H5 H6 H7 H8] HP]. split.
    + split; [by rewrite <- Ed | done | done].
    + split; try done. cbn. rewrite Ed in Htok. exact Htok.
    + intros row Hrow Hb. destruct (HP row Hrow Hb) as (c & s & -> & [] & Hp). exists c, s. split; [done|]. split; [by split|done].
  - destruct Hi as [[-> _] | Hj]; [|by apply Hnew in Hj]. set (tok := next_token_id d) in *. destruct (Hno tok) as (N1 & N2 & N3 & N4); [lia|].
    exists d', tok, 0%nat. rewrite Ed. split_and!; try done; try by rewrite <- Ed.
    { lia. }
    split.
    + split; [by rewrite <- Ed | intros i row; cbn; by rewrite N1 | intros r; cbn; by rewrite N2].
    + rewrite take_0. cbn [log_leaves]. destruct (DbTree_new_spec tok TRANSFER_TREE_HEIGHT win d') as (t' & d0 & Hn & _ & _ & _ & Hr);
        [done | unfold TRANSFER_TREE_HEIGHT; lia | lia | done | by rewrite Ed |].
      rewrite DbTree_new_run in Hn by (lia || by unfold TRANSFER_TREE_HEIGHT). injection Hn as <- <-. rewrite Ed in Hr. exact Hr.
    + intros row. cbn. by rewrite N4.
Qed.

(** ** The three jobs on one token *)

(** The token contract refuses values of 2^248 and more. *)
Lemma leaves_log_range logs : Forall leaf_in_range (log_leaves logs) -> Forall log_in_range logs.
Proof.
  unfold log_leaves. intros H. rewrite Forall_fmap in H. eapply Forall_impl; [exact H|]. intros l [H1 H2]. cbn in H1, H2.
  split; [exact H1 | unfold in_u256; lia].
Qed.

Lemma token_known_leased win m logs b v now holder key d : token_known win m logs b v d -> token_known win m logs b v (leased now holder key d).
Proof.
  intros [Hok Hk]. split; [exact Hok|]. destruct Hk as [(tok & n & Hreg & Hn & Hr) | Hnew]; [left | right; exact Hnew].
  exists tok, n. split; [exact Hreg|]. split; [exact Hn|]. eapply token_rows_same; [|exact Hr]. by split.
Qed.

(** What the tree job needs of the event job. *)
Record synced (win : Z) (m : TokenMetadata) (logs : list IndexedTransferLog) (n b : nat) (v : Verifier) (tok : Z) (d : Db) : Prop := {
  sy_tokens : tokens_ok d;
  sy_registered : registered m tok d;
  sy_positive : 0 < tok;
  sy_count : (n <= length logs)%nat;
  sy_rows : token_rows win logs n b v tok d;
  sy_events : events_are tok (log_rows logs) d;
  sy_state : exists r, event_indexer_state d !! tok = Some r /\ es_contiguous_index r = Z.of_nat (length logs) - 1;
}.

Lemma synced_same win m logs n b v tok d d' : tokens_ok d' -> same_rows tok d d' -> synced win m logs n b v tok d -> synced win m logs n b v tok d'.
Proof.
  intros Hok SR [S1 S2 S3 S4 S5 S6 S7]. split; try done.
  - by eapply registered_same; [apply SR|].
  - by eapply token_rows_same.
  - intros k row Hk. rewrite (rw_events _ _ _ SR). by apply S6.
  - by rewrite (rw_state _ _ _ SR).
Qed.

Lemma synced_leases x win m logs n b v tok d : synced win m logs n b v tok d -> synced win m logs n b v tok (set_leases x d).
Proof. intros H. pose proof (sy_tokens _ _ _ _ _ _ _ _ H) as Hok. apply (synced_same _ _ _ _ _ _ _ d); [exact Hok | by split | exact H]. Qed.

Lemma other_synced win m m' tok tok' logs n b v d d' :
  other_token m m' -> work_frame m tok d d' -> synced win m' logs n b v tok' d -> synced win m' logs n b v tok' d'.
Proof.
  intros Ho F Hs. eapply synced_same; [apply F | apply F | exact Hs]. eapply other_id; [exact Ho | exact F | apply Hs].
Qed.

(** Work under a lease. *)
Lemma work_frame_leases m tok d d' x y : work_frame m tok (set_leases x d) d' -> work_frame m tok d (set_leases y d').
Proof. intros [F1 F2 F3 F4 F5]. split; try done. intros o Ho. destruct (F1 o Ho). by split. Qed.

Section log.
Context (win : Z) (logs : list IndexedTransferLog) (latest : Z) (b : nat) (v : Verifier).
Context (Hrange : Forall log_in_range logs) (Hwin : 0 < win < 2 ^ 63) (Hlen : Z.of_nat (length logs) < 2 ^ 40).

Lemma event_step fuel scan_fuel now holder job token d :
  node_view (etc_contract token) logs latest ->
  0 < block_span (esj_indexer_config job) < 2 ^ 64 ->
  0 <= forward_scan_overlap (esj_indexer_config job) < block_span (esj_indexer_config job) ->
  0 <= etc_deployed_block_number token < i64_max ->
  (forall k e, events_of logs !! k = Some e -> etc_deployed_block_number token <= ie_eth_block_number e) ->
  latest < Z.of_nat scan_fuel -> (0 < fuel)%nat -> tm_chain_id (etc_metadata token) <= i64_max ->
  lease_free now holder (etc_lock_key token) d -> token_known win (etc_metadata token) logs b v d ->
  exists d' tok n, event_process_token fuel scan_fuel now holder job token d = (d', Ok tt)
    /\ synced win (etc_metadata token) logs n b v tok d' /\ leases d' = delete (etc_lock_key token) (leases d)
    /\ work_frame (etc_metadata token) tok d d' /\ exists r, event_indexer_state d' !! tok = Some r /\ es_last_synced_block r = latest.
Proof.
  intros Hv Hs Ho Hd Hdf Hsf Hf Hc Hfree Hk. apply (token_known_leased _ _ _ _ _ now holder (etc_lock_key token)) in Hk.
  set (d0 := leased now holder (etc_lock_key token) d) in *.
  destruct (known_after_registration win (etc_metadata token) logs b v d0) as (d1 & tok & n & Hreg & Hok & Hr & Hpos & Hl & Hn & Hrows & F); [lia|done|done|].
  set (parts := mkEventIndexerPartitions tok (EventsTable, tok) (EventStateTable, tok)).
  set (x := mkEventIndexer (etc_deployed_block_number token) parts (esj_indexer_config job)).
  destruct (@sync_spec (etc_contract token) logs latest Hv x eq_refl Hs Ho Hd Hdf fuel scan_fuel d1) as (d2 & r & Hsync & SF & Hall & Hst & Hci & Hls & Hinv);
    [lia | done | apply Hrows |]. change (ei_token_id x) with tok in *.
  pose proof (sf_rest _ _ _ SF) as Ed2.
  exists (set_leases (delete (etc_lock_key token) (leases d)) d2), tok, n. split; [|split; [|split; [done|split; [|by exists r]]]].
  - unfold event_process_token. apply with_lease_run; [done | | rewrite Ed2; exact Hl]. fold d0. unfold sync_token.
    rewrite (M_bind_run _ _ d0 d1 x).
    2:{ apply map_err_M_run. unfold EventIndexer_new. rewrite (M_bind_run _ _ _ _ _ Hreg).
        rewrite (M_bind_run _ _ d1 d1 parts); [done|]. apply lift_run. unfold EventIndexerPartitions_new.
        by rewrite (proj2 (Z.leb_gt _ _)). }
    by apply map_err_M_run.
  - apply synced_leases. destruct Hrows as [_ Hh Hp]. split; try done.
    + unfold tokens_ok. rewrite Ed2. exact Hok.
    + unfold registered. rewrite Ed2. exact Hr.
    + split; [exact Hinv | by eapply has_history_ext; [..|exact Hh]; rewrite Ed2 | rewrite Ed2].
      intros row Hrow Hb. destruct (Hp row Hrow Hb) as (c & s & -> & [] & Hq). exists c, s. split; [done|]. split; [by split|done].
    + intros k row Hk'. unfold log_rows in Hk'. rewrite list_lookup_fmap in Hk'.
      destruct (events_of logs !! k) as [ev|] eqn:Ee; [|done]. apply (inj Some) in Hk'. subst row. by apply Hall.
    + exists r. split; [done|]. rewrite Hci. unfold events_of. by rewrite length_fmap.
  - eapply work_frame_leases. fold d0. destruct F as [F1 F2 F3 F4 F5]. split; try done; [| rewrite Ed2; done..].
    intros o Hne. destruct (F1 o Hne) as [R1 R2 R3 R4 R5 R6 R7 R8]. pose proof (sf_events _ _ _ SF) as G1. pose proof (sf_state _ _ _ SF) as G2.
    split; [rewrite Ed2; done | intros i; by rewrite G1 | by rewrite G2 | rewrite Ed2; done..].
Qed.

Lemma tree_step fuel now holder job token tok n d :
  tij_tree_config job = mkDbMerkleTreeConfig win -> tij_tree_height job = TRANSFER_TREE_HEIGHT -> 0 < tij_batch_size job ->
  (length logs < fuel)%nat -> tm_chain_id (ttc_metadata token) <= i64_max -> lease_free now holder (ttc_lock_key token) d ->
  synced win (ttc_metadata token) logs n b v tok d ->
  exists d', tree_process_token fuel now holder job token d = (d', Ok tt)
    /\ synced win (ttc_metadata token) logs (length logs) b v tok d' /\ leases d' = delete (ttc_lock_key token) (leases d)
    /\ work_frame (ttc_metadata token) tok d d' /\ event_indexer_state d' = event_indexer_state d.
Proof.
  intros Hcfg Hh Hb Hf Hc Hfree Hsy. set (d0 := leased now holder (ttc_lock_key token) d).
  assert (synced win (ttc_metadata token) logs n b v tok d0) as [S1 S2 S3 S4 [T1 T2 T3] S6 (r & Hr & Hci)] by by apply synced_leases.
  assert (length (log_rows logs) = length logs) as Hlen' by (unfold log_rows, events_of; by rewrite !length_fmap).
  destruct (ingest_token_spec fuel job token tok (log_rows logs) n d0 r) as (d1 & Hrun & Hh1 & F); try done; try lia.
  - by apply find_token_id_registered.
  - rewrite Hh, Hcfg. cbn [cfg_history_window]. unfold log_rows, events_of. rewrite <- !fmap_take. fold (events_of (take n logs)). fold (log_rows (take n logs)).
    rewrite log_rows_leaves by (by apply Forall_take). exact T2.
  - apply log_rows_parse.
  - rewrite Hh, Hlen'. change (2 ^ Z.of_nat TRANSFER_TREE_HEIGHT) with (2 ^ 40). lia.
  - rewrite Hh, Hcfg, log_rows_leaves in Hh1 by done. cbn [cfg_history_window] in Hh1. destruct F.
    exists (set_leases (delete (ttc_lock_key token) (leases d)) d1). split; [|split; [|split; [done|split; [|exact fr_event_state]]]].
    + unfold tree_process_token. by apply with_lease_run.
    + apply synced_leases. split; try done.
      * unfold tokens_ok. rewrite fr_tokens, fr_next. exact S1.
      * unfold registered. rewrite fr_tokens. exact S2.
      * split; [|by rewrite firstn_all|].
        -- destruct T1 as [I1 I2 I3]. split; [by rewrite fr_tokens | intros i row; rewrite fr_events; apply I2 |].
           intros r'. unfold event_stored. rewrite fr_event_state, fr_events. apply I3.
        -- intros row Hrow Hb'. rewrite fr_prover in Hrow. destruct (T3 row Hrow Hb') as (c & s & -> & [P1 P2 P3 P4 P5 P6] & Hq).
           exists c, s. split; [done|]. split; [|done]. split; [by rewrite fr_prover | done | done | done | done |].
           intros Hlt. destruct (P6 Hlt) as (row' & Hr' & Hrest). exists row'. by rewrite fr_ivc.
      * intros k row Hk. rewrite fr_events. by apply S6.
      * exists r. by rewrite fr_event_state.
    + apply (work_frame_leases _ _ _ _ (leases d0)). split; [|by right|..].
      * intros o Ho. split; [by rewrite fr_tokens | by rewrite fr_events | by rewrite fr_event_state | intros k; by apply fr_nodes | intros i k; by apply fr_updates
          | intros i; by apply fr_snapshots | by rewrite fr_ivc | by rewrite fr_prover].
      * unfold registered. rewrite fr_tokens. exact S2.
      * unfold tokens_ok. rewrite fr_tokens, fr_next. exact S1.
      * rewrite fr_next. done.
Qed.

End log.

(** The contracts when the root prover runs: the log is the token's, its first [b] leaves are proved, and nothing else is at its end. *)
Record chain_view (logs : list IndexedTransferLog) (b : nat) (token_contract verifier_contract : Z) (w : World) : Prop := {
  cv_token_of : w_token_of w verifier_contract = token_contract;
  cv_index : index (w_token w token_contract) = Z.of_nat (length logs);
  cv_chain : hashChain (w_token w token_contract) = history_chain (log_leaves logs);
  cv_paused : paused (w_verifier w verifier_contract) = false;
  cv_proved : latestProvedIndex (w_verifier w verifier_contract) = Z.of_nat b;
  cv_root : slot (provedTransferRoots (w_verifier w verifier_contract)) (Z.of_nat b) = history_root TRANSFER_TREE_HEIGHT (take b (log_leaves logs));
  cv_root_nonzero : history_root TRANSFER_TREE_HEIGHT (take b (log_leaves logs)) <> 0;
  cv_chain_nonzero : history_chain (log_leaves logs) <> 0;
  cv_end : slot (provedTransferRoots (w_verifier w verifier_contract)) (Z.of_nat (length logs)) = 0
    \/ slot (provedTransferRoots (w_verifier w verifier_contract)) (Z.of_nat (length logs)) = history_root TRANSFER_TREE_HEIGHT (log_leaves logs);
}.

Lemma root_step win logs (b : nat) polls now holder job token tok w :
  let L := Z.of_nat (length logs) in
  let a := rtc_verifier_contract token in
  Forall leaf_in_range (log_leaves logs) -> 0 < win < 2 ^ 63 -> L < 2 ^ 40 -> (b < length logs)%nat ->
  quiet -> rpj_submit_enabled job = true -> rpj_tree_height job = TRANSFER_TREE_HEIGHT -> rpj_tree_config job = mkDbMerkleTreeConfig win ->
  0 <= rpj_history_window job <= win -> L <= Z.of_nat b + rpj_history_window job -> tm_chain_id (rtc_metadata token) <= i64_max ->
  lease_free now holder (rtc_lock_key token) (w_db w) -> synced win (rtc_metadata token) logs (length logs) b (w_verifier w a) tok (w_db w) ->
  chain_view logs b (rtc_token_contract token) a w ->
  exists w', root_process_token (S polls) now holder job token true true w = (w', Ok tt)
    /\ slot (provedTransferRoots (w_verifier w' a)) L = history_root TRANSFER_TREE_HEIGHT (log_leaves logs)
    /\ latestProvedIndex (w_verifier w' a) = L
    /\ token_known win (rtc_metadata token) logs (length logs) (w_verifier w' a) (w_db w')
    /\ leases (w_db w') = delete (rtc_lock_key token) (leases (w_db w)) /\ work_frame (rtc_metadata token) tok (w_db w) (w_db w') /\ same_chain_but a w w'.
Proof.
  intros L a Hlr Hwin Hlen Hb Hq Hen Hh Hcfg Hrw Hin Hc Hfree Hsy [V1 V2 V3 V4 V5 V6 V7 V8 V9].
  set (d0 := leased now holder (rtc_lock_key token) (w_db w)). set (w0 := set_db d0 w).
  assert (synced win (rtc_metadata token) logs (length logs) b (w_verifier w a) tok d0) as [S1 S2 S3 S4 [T1 T2 T3] S6 S7] by by apply synced_leases.
  rewrite firstn_all in T2.
  assert (length (log_leaves logs) = length logs) as Hll by (unfold log_leaves; by rewrite length_fmap).
  pose proof (root_cycle_spec attests polls job token tok (log_rows logs) b win w0) as Hcycle. cbv zeta in Hcycle. rewrite log_rows_leaves, Hll in Hcycle by by apply leaves_log_range.
  destruct Hcycle as (w1 & Hrun & F1 & F2 & F3 & F4 & F5 & F6); try assumption; try lia.
  { by apply find_token_id_registered. }
  { apply log_rows_parse. }
  destruct F5 as (x & p & Ed1 & X1 & X2).
  exists (set_db (set_leases (delete (rtc_lock_key token) (leases (w_db w))) (w_db w1)) w1). split; [|split; [exact F1|split; [exact F2|split; [|split; [done|split; [|exact F6]]]]]].
  - unfold root_process_token.
    rewrite (M_bind_run _ _ w w0 true) by (apply on_db_run; by rewrite acquire_free).
    rewrite (M_bind_run _ _ w0 w1 (Ok tt)) by (unfold attempt; by rewrite Hrun).
    rewrite (M_bind_run _ _ w1 (set_db (set_leases (delete (rtc_lock_key token) (leases (w_db w))) (w_db w1)) w1) tt); [done|].
    apply on_db_run. unfold modify. rewrite (release_leased now holder _ (w_db w)) by by rewrite Ed1. done.
  - change (w_verifier (set_db ?d w1)) with (w_verifier w1). cbn [w_db set_db].
    split; [unfold tokens_ok; cbn [tokens next_token_id set_leases]; rewrite Ed1; exact S1 | left].
    exists tok, (length logs). split; [|split; [lia|split]].
    + unfold registered. cbn [tokens set_leases]. rewrite Ed1. exact S2.
    + destruct T1 as [I1 I2 I3]. split; [cbn; rewrite Ed1; exact I1 | intros i row; cbn; rewrite Ed1; apply I2 |].
      intros r. unfold event_stored. cbn [event_indexer_state indexed_transfer_events set_leases]. rewrite Ed1. apply I3.
    + rewrite firstn_all. by eapply has_history_ext; [..|exact T2]; cbn; rewrite Ed1.
    + intros row. cbn [root_prover_state set_leases]. rewrite F3. intros [= <-] _. exists (length logs), (aligned L). split; [done|].
      split; [|by split_and!]. split; [exact F3 | reflexivity | reflexivity | reflexivity | rewrite Hll; lia | lia].
  - cbn [w_db set_db]. apply (work_frame_leases _ _ _ _ (leases d0)). fold d0. rewrite Ed1. split; [|by right|exact S2|exact S1|done].
    intros o Ho. split; [reflexivity | intros i; reflexivity | reflexivity | intros k; reflexivity | intros i k; reflexivity | intros i; reflexivity
      | intros e; exact (X1 o e Ho) | exact (X2 o Ho)].
Qed.

(** ** The configuration *)

Lemma map_err_ok {E E' A} (f : E -> E') (r : result E A) a : map_err f r = Ok a -> r = Ok a.
Proof. destruct r; [|done]. cbn. by intros [= ->]. Qed.

Lemma event_config_valid f c : map_err f (EventJobConfig_ensure_valid c) = Ok tt (E := JobError) -> ejc_interval_ms c <> 0 /\ ejc_block_span c <> 0.
Proof.
  intros H%map_err_ok. unfold EventJobConfig_ensure_valid in H. if_case_in H E; [done|].
  apply result_bind_ok in H as (? & H%map_err_ok & _). unfold EventIndexerConfig_new in H. by if_case_in H E2.
Qed.

Lemma tree_config_valid f c : map_err f (TreeJobConfig_ensure_valid c) = Ok tt (E := JobError) ->
  tjc_interval_ms c <> 0 /\ tjc_history_window c <> 0 /\ tjc_batch_size c <> 0.
Proof.
  intros H%map_err_ok. unfold TreeJobConfig_ensure_valid in H. if_case_in H E; [done|]. if_case_in H E1; [done|]. if_case_in H E2; [done|].
  apply result_bind_ok in H as (? & H%map_err_ok & _). unfold DbMerkleTreeConfig_new in H. by if_case_in H E3.
Qed.

Lemma root_config_valid {L : SignatureLib} f url_parse ws i si hw pt pi url key dir c :
  map_err f (RootJobConfig_new url_parse ws i si hw pt pi url key dir) = Ok c (E := JobError) ->
  rjc_interval_ms c <> 0 /\ rjc_submit_interval_ms c <> 0 /\ rjc_history_window c = hw /\ hw <> 0 /\ rjc_prover_poll_interval c <> 0.
Proof.
  intros H%map_err_ok. unfold RootJobConfig_new in H. if_case_in H E; [done|]. if_case_in H E1; [done|]. if_case_in H E2; [done|].
  if_case_in H E3; [done|]. apply result_bind_ok in H as (u & _ & H). apply result_bind_ok in H as (k & _ & H). by injection H as <-.
Qed.

Lemma normalized_tokens ts ts' : map_result TokenEntry_normalize ts = Ok ts' ->
  ts' = ts /\ Forall (fun t => is_blank (te_label t) = false /\ te_rpc_urls t <> []) ts'.
Proof.
  revert ts'. induction ts as [|t ts IH]; intros ts' H; [by injection H as <-|]. cbn [map_result] in H.
  apply result_bind_ok in H as (t' & Ht & H). apply result_bind_ok in H as (r & Hr & H). injection H as <-.
  destruct (IH r Hr) as [-> Hf]. unfold TokenEntry_normalize in Ht. destruct (is_blank (te_label t)) eqn:E; [done|].
  destruct (te_rpc_urls t) eqn:E2; [done|]. injection Ht as <-. split; [done|]. constructor; [|done]. by rewrite E, E2.
Qed.

Lemma loaded_config {L : SignatureLib} url_parse workspace_root read_tokens_file vars path config :
  IndexerConfig_load url_parse workspace_root read_tokens_file vars path = Ok config ->
  ic_tokens config <> [] /\ Forall (fun t => is_blank (te_label t) = false /\ te_rpc_urls t <> []) (ic_tokens config)
  /\ ejc_interval_ms (ic_event_indexer config) <> 0 /\ ejc_block_span (ic_event_indexer config) <> 0
  /\ tjc_interval_ms (ic_tree config) <> 0 /\ tjc_height (ic_tree config) = TRANSFER_TREE_HEIGHT
  /\ tjc_history_window (ic_tree config) <> 0 /\ tjc_batch_size (ic_tree config) <> 0
  /\ rjc_interval_ms (ic_root config) <> 0 /\ rjc_submit_interval_ms (ic_root config) <> 0
  /\ rjc_history_window (ic_root config) <> 0 /\ rjc_prover_poll_interval (ic_root config) <> 0.
Proof.
  unfold IndexerConfig_load. intros H. apply result_bind_ok in H as (env & _ & H). apply result_bind_ok in H as (tokens & _ & H).
  destruct tokens as [|t0 tokens]; [done|]. apply result_bind_ok in H as (ts & Hts & H).
  apply result_bind_ok in H as ([] & He & H). apply result_bind_ok in H as ([] & Ht & H). apply result_bind_ok in H as (root & Hr & H).
  injection H as <-. cbn [ic_tokens ic_event_indexer ic_tree ic_root].
  apply event_config_valid in He as [He1 He2]. apply tree_config_valid in Ht as (Ht1 & Ht2 & Ht3). cbn [ejc_interval_ms ejc_block_span
    tjc_interval_ms tjc_batch_size tjc_history_window] in *.
  apply root_config_valid in Hr as (Hr1 & Hr2 & Hr3 & Hr4 & Hr5). apply normalized_tokens in Hts as [Hts1 Hts2].
  split_and!; try assumption; try reflexivity; [by rewrite Hts1 | by rewrite Hr3].
Qed.

(** ** Every token through a job *)

(** A loop over tokens: when the work on one of them keeps what holds of the others, all of them are done at the end. *)
Section loop.
Context {A T St : Type} (step : T -> St -> St) (ctx : A -> T) (pre post : A -> St -> Prop) (G : St -> Prop) (items : list A).
Context (Hstep : forall x s, x ∈ items -> G s -> pre x s ->
  post x (step (ctx x) s) /\ G (step (ctx x) s)
  /\ forall y, y ∈ items -> y <> x -> (pre y s -> pre y (step (ctx x) s)) /\ (post y s -> post y (step (ctx x) s))).

Lemma loop_rest rest : forall fin s, NoDup items -> items = fin ++ rest -> G s -> (forall x, x ∈ rest -> pre x s) -> (forall x, x ∈ fin -> post x s) ->
  let s' := foldl (fun s t => step t s) s (ctx <$> rest) in G s' /\ forall x, x ∈ items -> post x s'.
Proof.
  induction rest as [|x rest IH]; intros fin s Hnd Hi Hg Hpre Hpost; cbn [fmap list_fmap foldl].
  { split; [done|]. intros x Hx. apply Hpost. by rewrite Hi, app_nil_r in Hx. }
  assert (forall y, y ∈ fin \/ y ∈ rest -> y ∈ items /\ y <> x) as Hy.
  { rewrite Hi in Hnd |- *. apply NoDup_app in Hnd as (_ & Hnd & Hr). apply NoDup_cons in Hr as [Hr _].
    intros y [Hf|Hf]; (split; [apply elem_of_app; rewrite elem_of_cons; auto|]); intros ->; [apply (Hnd x Hf); by left | done]. }
  destruct (Hstep x s) as (P1 & P2 & P3); [rewrite Hi; apply elem_of_app; right; by left | done | apply Hpre; by left |].
  apply (IH (fin ++ [x])); [done | by rewrite <- app_assoc | done | |].
  - intros y Hr. destruct (Hy y) as [H1 H2]; [by right|]. apply (P3 y H1 H2), Hpre. by right.
  - intros y [Hf|Hf]%elem_of_app; [destruct (Hy y) as [H1 H2]; [by left|]; by apply (P3 y H1 H2), Hpost|]. by apply list_elem_of_singleton in Hf as ->.
Qed.

Lemma loop_done s : NoDup items -> G s -> (forall x, x ∈ items -> pre x s) ->
  let s' := foldl (fun s t => step t s) s (ctx <$> items) in G s' /\ forall x, x ∈ items -> post x s'.
Proof. intros Hnd Hg Hpre. apply (loop_rest items []); try done. by intros x ?%elem_of_nil. Qed.
End loop.

Lemma run_tokens_foldl {T} (process : T -> M Db JobError unit) ts d : run_tokens process ts d = foldl (fun d t => (process t d).1) d ts.
Proof. revert d. induction ts as [|t ts IH]; intros d; [done|]. apply IH. Qed.

Lemma run_cycle_foldl polls now holder job dc ds ts w :
  run_cycle polls now holder job dc ds ts w = foldl (fun w t => (root_process_token polls now holder job t dc ds w).1) w ts.
Proof. revert w. induction ts as [|t ts IH]; intros w; [done|]. apply IH. Qed.

Lemma fmap_NoDup_ne {A B} (f : A -> B) l x y : NoDup (f <$> l) -> x ∈ l -> y ∈ l -> y <> x -> f x <> f y.
Proof.
  intros Hnd [i Hi]%list_elem_of_lookup [j Hj]%list_elem_of_lookup Hne E. apply Hne.
  assert (i = j) as ->; [|congruence]. eapply NoDup_lookup; [exact Hnd | by rewrite list_lookup_fmap, Hi | rewrite list_lookup_fmap, Hj; cbn; by rewrite E].
Qed.

(** ** The process *)

(** A configured token with its node, the contract's log up to the node's latest block, and the number of proved transfers. *)
Record Tracked := mkTracked {
  td_entry : TokenEntry;
  td_node : EthNode;
  td_logs : list IndexedTransferLog;
  td_latest : Z;
  td_proved : nat;
}.

Section process.
Context {L : SignatureLib}.
Context (url_parse : string -> option string) (workspace_root : string) (read_tokens_file : string -> result JobError TokensFile).
Context (default_hasher : string -> Z -> Z -> Z -> Z -> Z) (connect : list string -> result JobError EthNode).
Context (load_root_nova_params : string -> result JobError unit) (decider_client_new : string -> Z -> Z -> result JobError unit).

(** The process finds its nodes, its parameters and its decider. *)
Record start_up (config : IndexerConfig) (items : list Tracked) : Prop := {
  su_tokens : ic_tokens config = td_entry <$> items;
  su_connect : forall x, x ∈ items -> connect (te_rpc_urls (td_entry x)) = Ok (td_node x);
  su_params : load_root_nova_params (rjc_artifacts_dir (ic_root config)) = Ok tt;
  su_decider : decider_client_new (rjc_prover_url (ic_root config)) (rjc_prover_poll_interval (ic_root config))
                 (rjc_prover_timeout (ic_root config)) = Ok tt;
}.

(** The settings are values of their Rust types, the scan advances and the proved range fits the history the tree keeps. *)
Record usable_settings (config : IndexerConfig) : Prop := {
  us_span : 0 <= ejc_block_span (ic_event_indexer config) < 2 ^ 64;
  us_overlap : 0 <= ejc_forward_scan_overlap (ic_event_indexer config) < ejc_block_span (ic_event_indexer config);
  us_batch : 0 <= tjc_batch_size (ic_tree config);
  us_window : 0 <= rjc_history_window (ic_root config) <= tjc_history_window (ic_tree config);
  us_window_max : tjc_history_window (ic_tree config) < 2 ^ 63;
}.

(** The leases of the token are free when the jobs ask for them. *)
Record leases_free (t : TokenEntry) (e : RunEnv) (d : Db) : Prop := {
  lf_event : lease_free (run_event_now e) (run_holder e) (lock_key_with_salt default_hasher t EVENT_LOCK_SALT) d;
  lf_tree : lease_free (run_tree_now e) (run_holder e) (lock_key_with_salt default_hasher t TREE_LOCK_SALT) d;
  lf_root : lease_free (run_root_now e) (run_holder e) (lock_key_with_salt default_hasher t ROOT_LOCK_SALT) d;
}.

Lemma leases_free_delete t e key d d' : leases d' = delete key (leases d) -> leases_free t e d -> leases_free t e d'.
Proof. intros E [H1 H2 H3]. split; (eapply lease_free_later; [reflexivity | exact E | assumption]). Qed.

(** The token fits its types, its node serves the contract's log, the log fits the tree and the window, and the fuel suffices. *)
Record trackable (config : IndexerConfig) (e : RunEnv) (x : Tracked) : Prop := {
  tk_chain : te_chain_id (td_entry x) <= i64_max;
  tk_deployed : 0 <= te_deployed_block_number (td_entry x) < i64_max;
  tk_node : node_view (td_node x) (td_logs x) (td_latest x);
  tk_range : Forall leaf_in_range (log_leaves (td_logs x));
  tk_length : Z.of_nat (length (td_logs x)) < 2 ^ 40;
  tk_blocks : forall k ev, events_of (td_logs x) !! k = Some ev -> te_deployed_block_number (td_entry x) <= ie_eth_block_number ev;
  tk_scan_fuel : td_latest x < Z.of_nat (run_scan_fuel e);
  tk_fuel : (length (td_logs x) < run_fuel e)%nat;
  tk_new : (td_proved x < length (td_logs x))%nat;
  tk_window : Z.of_nat (length (td_logs x)) <= Z.of_nat (td_proved x) + rjc_history_window (ic_root config);
}.

(** The token in a world: its rows, with [b] transfers proved, and its contracts. *)
Definition entry_known (config : IndexerConfig) (x : Tracked) (b : nat) (w : World) : Prop :=
  token_known (tjc_history_window (ic_tree config)) (metadata (td_entry x)) (td_logs x) b (w_verifier w (te_verifier_address (td_entry x))) (w_db w).
Definition entry_view (x : Tracked) (w : World) : Prop :=
  chain_view (td_logs x) (td_proved x) (te_token_address (td_entry x)) (te_verifier_address (td_entry x)) w.

Definition event_context (x : Tracked) : EventTokenContext :=
  let t := td_entry x in
  mkEventTokenContext (te_label t) (metadata t) (te_deployed_block_number t) (td_node x) (lock_key_with_salt default_hasher t EVENT_LOCK_SALT).
Definition tree_context (x : Tracked) : TreeTokenContext :=
  let t := td_entry x in mkTreeTokenContext (te_label t) (metadata t) (lock_key_with_salt default_hasher t TREE_LOCK_SALT).
Definition root_context (x : Tracked) : RootTokenContext :=
  let t := td_entry x in
  mkRootTokenContext (te_label t) (metadata t) (te_token_address t) (te_verifier_address t) (lock_key_with_salt default_hasher t ROOT_LOCK_SALT).

Definition once_jobs (config : IndexerConfig) (items : list Tracked) : IndexerJobs :=
  let cfg := mkDbMerkleTreeConfig (tjc_history_window (ic_tree config)) in
  mkIndexerJobs
    (mkEventSyncJob (event_context <$> items) (ejc_interval_ms (ic_event_indexer config))
       (mkEventIndexerConfig (ejc_block_span (ic_event_indexer config)) (ejc_forward_scan_overlap (ic_event_indexer config))))
    (mkTreeIngestionJob (tree_context <$> items) (tjc_interval_ms (ic_tree config)) (tjc_height (ic_tree config)) (tjc_batch_size (ic_tree config)) cfg)
    (mkRootProverJob (root_context <$> items) cfg (tjc_height (ic_tree config)) (rjc_history_window (ic_root config)) true).

Lemma map_result_items {B} (f : TokenEntry -> result JobError B) (g : Tracked -> B) items :
  (forall x, x ∈ items -> f (td_entry x) = Ok (g x)) -> map_result f (td_entry <$> items) = Ok (g <$> items).
Proof.
  induction items as [|x l IH]; intros H; [done|]. rewrite !fmap_cons. cbn [map_result]. rewrite (H x) by by left. cbn [mbind result_bind].
  rewrite IH; [done|]. intros y Hy. apply H. by right.
Qed.

Lemma build_jobs_run config items :
  start_up config items -> ejc_block_span (ic_event_indexer config) <> 0 -> tjc_history_window (ic_tree config) <> 0 ->
  build_jobs default_hasher connect load_root_nova_params decider_client_new config = Ok (once_jobs config items).
Proof.
  intros [H1 H2 H3 H4] Hspan Hwin. unfold build_jobs, EventSyncJob_build, TreeIngestionJob_build, EventJobConfig_build, TreeJobConfig_build,
    EventIndexerConfig_new, DbMerkleTreeConfig_new, root_into_job.
  rewrite (proj2 (Z.eqb_neq _ _) Hspan), (proj2 (Z.eqb_neq _ _) Hwin), H1. cbn [map_err mbind result_bind].
  rewrite (map_result_items _ event_context) by (intros x Hx; by rewrite H2). rewrite (map_result_items _ td_node) by (intros x Hx; by apply H2).
  cbn [map_err mbind result_bind]. rewrite H3, H4. cbn [map_err mbind result_bind]. unfold once_jobs, RootProverJob_build. by rewrite <- !list_fmap_compose.
Qed.

Section phases.
Context (config : IndexerConfig) (e : RunEnv) (items : list Tracked).
Context (Hset : usable_settings config) (Hitems : forall x, x ∈ items -> trackable config e x).
Context (Hspan : ejc_block_span (ic_event_indexer config) <> 0) (Hwin : tjc_history_window (ic_tree config) <> 0).
Context (Hbatch : tjc_batch_size (ic_tree config) <> 0) (Hheight : tjc_height (ic_tree config) = TRANSFER_TREE_HEIGHT).
Context (Hkeys : NoDup ((fun x => (address_bytes (te_token_address (td_entry x)), te_chain_id (td_entry x))) <$> items)).
Context (Hverifiers : NoDup ((fun x => te_verifier_address (td_entry x)) <$> items)).
Abbreviation win := (tjc_history_window (ic_tree config)).
Abbreviation meta x := (metadata (td_entry x)).

Lemma items_other x y : x ∈ items -> y ∈ items -> y <> x -> other_token (meta x) (meta y).
Proof.
  intros Hx Hy Hne. pose proof (fmap_NoDup_ne _ _ _ _ Hkeys Hx Hy Hne) as H. unfold other_token. cbn.
  destruct (decide (address_bytes (te_token_address (td_entry x)) = address_bytes (te_token_address (td_entry y)))) as [E|E]; [right | by left].
  intros E2. apply H. by rewrite E, E2.
Qed.

Lemma items_NoDup : NoDup items.
Proof. eapply NoDup_fmap_1, Hkeys. Qed.

Lemma window_ok : 0 < win < 2 ^ 63.
Proof. destruct Hset. lia. Qed.

Definition all_free (d : Db) : Prop := forall x, x ∈ items -> leases_free (td_entry x) e d.
Lemma all_free_delete key d d' : leases d' = delete key (leases d) -> all_free d -> all_free d'.
Proof. intros E H x Hx. by eapply leases_free_delete, H. Qed.

(** The event job, with the verifiers [v] of the tokens. *)
Lemma events_phase (v : Tracked -> Verifier) d :
  all_free d -> (forall x, x ∈ items -> token_known win (meta x) (td_logs x) (td_proved x) (v x) d) ->
  let d' := event_run_once (run_fuel e) (run_scan_fuel e) (run_event_now e) (run_holder e) (event_job (once_jobs config items)) d in
  all_free d' /\ forall x, x ∈ items -> exists tok n, synced win (meta x) (td_logs x) n (td_proved x) (v x) tok d'.
Proof.
  intros Hf Hk. unfold event_run_once. rewrite run_tokens_foldl.
  apply (loop_done (fun t d => (event_process_token (run_fuel e) (run_scan_fuel e) (run_event_now e) (run_holder e) (event_job (once_jobs config items)) t d).1)
    event_context (fun x d => token_known win (meta x) (td_logs x) (td_proved x) (v x) d)
    (fun x d => exists tok n, synced win (meta x) (td_logs x) n (td_proved x) (v x) tok d) all_free); [|apply items_NoDup | exact Hf | exact Hk].
  intros x d0 Hx Hf0 Hk0. destruct (Hitems x Hx), Hset. pose proof window_ok.
  destruct (event_step win (td_logs x) (td_latest x) (td_proved x) (v x) window_ok (run_fuel e) (run_scan_fuel e) (run_event_now e) (run_holder e)
    (event_job (once_jobs config items)) (event_context x) d0) as (d1 & tok & n & -> & S1 & E1 & F1 & _);
    try assumption; try (cbn; lia); [apply (Hf0 x Hx)|].
  cbn [fst]. split; [by exists tok, n|]. split; [by eapply all_free_delete|]. intros y Hy Hne. pose proof (items_other x y Hx Hy Hne) as Ho. split.
  - intros Hk1. eapply other_known; [exact Ho | exact F1 | exact Hk1].
  - intros (tok' & n' & S'). exists tok', n'. eapply other_synced; [exact Ho | exact F1 | exact S'].
Qed.

Lemma trees_phase (v : Tracked -> Verifier) d :
  all_free d -> (forall x, x ∈ items -> exists tok n, synced win (meta x) (td_logs x) n (td_proved x) (v x) tok d) ->
  let d' := tree_run_once (run_fuel e) (run_tree_now e) (run_holder e) (tree_job (once_jobs config items)) d in
  all_free d' /\ forall x, x ∈ items -> exists tok, synced win (meta x) (td_logs x) (length (td_logs x)) (td_proved x) (v x) tok d'.
Proof.
  intros Hf Hk. unfold tree_run_once. rewrite run_tokens_foldl.
  apply (loop_done (fun t d => (tree_process_token (run_fuel e) (run_tree_now e) (run_holder e) (tree_job (once_jobs config items)) t d).1)
    tree_context (fun x d => exists tok n, synced win (meta x) (td_logs x) n (td_proved x) (v x) tok d)
    (fun x d => exists tok, synced win (meta x) (td_logs x) (length (td_logs x)) (td_proved x) (v x) tok d) all_free); [|apply items_NoDup | exact Hf | exact Hk].
  intros x d0 Hx Hf0 (tok & n & Hk0). destruct (Hitems x Hx), Hset. pose proof window_ok.
  destruct (tree_step win (td_logs x) (td_proved x) (v x) (leaves_log_range _ tk_range0) tk_length0 (run_fuel e) (run_tree_now e) (run_holder e)
    (tree_job (once_jobs config items)) (tree_context x) tok n d0) as (d1 & -> & S1 & E1 & F1 & _);
    try assumption; try reflexivity; try (cbn; lia); [apply (Hf0 x Hx)|].
  cbn [fst]. split; [by exists tok|]. split; [by eapply all_free_delete|]. intros y Hy Hne. pose proof (items_other x y Hx Hy Hne) as Ho. split.
  - intros (tok' & n' & S'). exists tok', n'. eapply other_synced; [exact Ho | exact F1 | exact S'].
  - intros (tok' & S'). exists tok'. eapply other_synced; [exact Ho | exact F1 | exact S'].
Qed.

(** What a run leaves of a token: the root of the whole log is proved, and the next run can start. *)
Definition entry_proved (x : Tracked) (w : World) : Prop :=
  let n := Z.of_nat (length (td_logs x)) in
  let v := w_verifier w (te_verifier_address (td_entry x)) in
  slot (provedTransferRoots v) n = history_root TRANSFER_TREE_HEIGHT (log_leaves (td_logs x)) /\ latestProvedIndex v = n
  /\ entry_known config x (length (td_logs x)) w.

Lemma entry_view_other x a w w' : same_chain_but a w w' -> te_verifier_address (td_entry x) <> a -> entry_view x w -> entry_view x w'.
Proof. intros (E1 & E2 & E3) Hne [V1 V2 V3 V4 V5 V6 V7 V8 V9]. split; rewrite ?E1, ?E2, ?(E3 _ Hne); assumption. Qed.

Lemma roots_phase polls w :
  quiet -> run_polls e = S polls -> all_free (w_db w) ->
  (forall x, x ∈ items -> exists tok, synced win (meta x) (td_logs x) (length (td_logs x)) (td_proved x) (w_verifier w (te_verifier_address (td_entry x))) tok (w_db w)) ->
  (forall x, x ∈ items -> entry_view x w) ->
  forall x, x ∈ items -> entry_proved x (root_run_once (run_polls e) (run_root_now e) (run_holder e) (root_job (once_jobs config items)) w).
Proof.
  intros Hq Hpolls Hf Hk Hv. unfold root_run_once. rewrite run_cycle_foldl, Hpolls.
  apply (loop_done (fun t w => (root_process_token (S polls) (run_root_now e) (run_holder e) (root_job (once_jobs config items)) t true true w).1) root_context
    (fun x w => (exists tok, synced win (meta x) (td_logs x) (length (td_logs x)) (td_proved x) (w_verifier w (te_verifier_address (td_entry x))) tok (w_db w)) /\ entry_view x w)
    entry_proved (fun w => all_free (w_db w))); [|apply items_NoDup | exact Hf | intros x Hx; split; [by apply Hk | by apply Hv]].
  intros x w0 Hx Hf0 [(tok & Hk0) Hv0]. destruct (Hitems x Hx), Hset. pose proof window_ok.
  destruct (root_step win (td_logs x) (td_proved x) polls (run_root_now e) (run_holder e) (root_job (once_jobs config items)) (root_context x) tok w0)
    as (w1 & -> & P1 & P2 & P3 & E1 & F1 & C1); try assumption; try reflexivity; try (cbn; lia); [apply (Hf0 x Hx)|].
  cbn [fst]. split; [exact (conj P1 (conj P2 P3))|]. split; [by eapply all_free_delete|]. intros y Hy Hne. pose proof (items_other x y Hx Hy Hne) as Ho.
  assert (te_verifier_address (td_entry y) <> te_verifier_address (td_entry x)) as Ha.
  { intros E. exact (fmap_NoDup_ne _ _ _ _ Hverifiers Hx Hy Hne (eq_sym E)). }
  pose proof (proj2 (proj2 C1) _ Ha) as Ev. split.
  - intros [(tok' & S') V']. split; [|eapply entry_view_other; [exact C1 | exact Ha | exact V']]. exists tok'. rewrite Ev. eapply other_synced; [exact Ho | exact F1 | exact S'].
  - intros (Q1 & Q2 & Q3). unfold entry_proved, entry_known. rewrite Ev. split_and!; [exact Q1 | exact Q2 |]. eapply other_known; [exact Ho | exact F1 | exact Q3].
Qed.
End phases.

End process.
End token.

(** ** The timer of the root job *)

(** The turns of the loop on the clock: a turn starts at [now] and its cycle ends at [completed]; the next one starts after the sleep, [slack]
    late at most, and a cycle takes [duration] at most. *)
Fixpoint timely (config : RootJobConfig) (duration slack start : Z) (clock : list (Z * Z)) : Prop :=
  match clock with
  | [] => True
  | (now, completed) :: rest =>
    start <= now <= start + slack /\ now <= completed <= now + duration /\ timely config duration slack (completed + min_interval config) rest
  end.

(** When a turn starts, neither kind of work has waited longer than its interval, one sleep and one cycle. *)
Definition not_starved (config : RootJobConfig) (duration slack now : Z) (t : RootTimer) : Prop :=
  now - last_compile t <= rjc_interval_ms config + min_interval config + duration + slack
  /\ now - last_submit t <= rjc_submit_interval_ms config + min_interval config + duration + slack.

Lemma turn_not_starved {S} config (cycle : Z -> bool -> bool -> S -> S) duration slack now completed t s next :
  0 < rjc_interval_ms config -> 0 < rjc_submit_interval_ms config -> 0 <= slack -> now <= completed <= now + duration ->
  next <= completed + min_interval config + slack ->
  not_starved config duration slack next (root_turn config cycle now completed (t, s)).1.
Proof.
  intros H1 H2 Hs Hc Hn. unfold root_turn, not_starved, should_compile, should_submit, min_interval in *.
  destruct (Z.leb_spec (rjc_interval_ms config) (now - last_compile t)), (Z.leb_spec (rjc_submit_interval_ms config) (now - last_submit t));
    cbn [orb fst last_compile last_submit]; lia.
Qed.

Lemma loop_not_starved {S} config (cycle : Z -> bool -> bool -> S -> S) duration slack pre now completed post :
  0 < rjc_interval_ms config -> 0 < rjc_submit_interval_ms config -> 0 <= slack -> forall start ts,
  timely config duration slack start (pre ++ (now, completed) :: post) ->
  (forall next, next <= start + slack -> not_starved config duration slack next ts.1) ->
  not_starved config duration slack now (foldl (fun ts turn => root_turn config cycle turn.1 turn.2 ts) ts pre).1.
Proof.
  intros H1 H2 Hs. induction pre as [|[n c] pre IH]; intros start [t s] Ht Hinv.
  - destruct Ht as (Hn & _). cbn [foldl]. apply Hinv. lia.
  - destruct Ht as (Hn & Hc & Ht). cbn [foldl fst snd]. eapply IH; [exact Ht|]. intros next Hnext. by apply turn_not_starved.
Qed.

(** The root job starves neither of its two tasks: on a clock whose sleeps and cycles are bounded, the first turn compiles and submits, and at
    every later turn the last compilation and the last submission are not older than their interval, one sleep and one cycle. *)
Theorem root_loop_fair {C : Crypto} {D : Deciders} {NS : NovaScheme} {DC : DeciderClient} {RPC : Rpc} polls holder config job start clock w duration slack :
  0 < rjc_interval_ms config -> 0 < rjc_submit_interval_ms config -> 0 <= slack -> 0 <= duration ->
  timely config duration slack start clock ->
  (forall now completed rest, clock = (now, completed) :: rest ->
     root_run_forever polls holder config job start [(now, completed)] w
     = (mkRootTimer completed completed, root_run_once polls now holder job w))
  /\ forall pre now completed post, clock = pre ++ (now, completed) :: post ->
       not_starved config duration slack now (root_run_forever polls holder config job start pre w).1.
Proof.
  intros H1 H2 Hs Hd Ht. split.
  - intros now completed rest ->. destruct Ht as (Hn & _). unfold root_run_forever, root_timer_start. cbn [foldl fst snd root_turn]. unfold root_turn, should_compile, should_submit.
    cbn [last_compile last_submit]. rewrite !(proj2 (Z.leb_le _ _)) by lia. reflexivity.
  - intros pre now completed post ->. eapply loop_not_starved; [done..|exact Ht|]. intros next Hnext.
    unfold not_starved, root_timer_start, min_interval. cbn [fst last_compile last_submit]. lia.
Qed.

(** ** Witness *)

Section witnesses.
#[local] Existing Instance toy_crypto.
#[local] Existing Instance toy_crypto_laws.
#[local] Existing Instance toy_r1cs.
#[local] Existing Instance toy_r1cs_laws.
#[local] Existing Instance toy_nova.
#[local] Existing Instance toy_decider.
#[local] Existing Instance accept_all.
#[local] Existing Instance toy_rpc.
#[local] Existing Instance toy_prover_laws.
#[local] Existing Instance toy_signatures.

(** Two tokens with one transfer each, of 7 to address 5 in block 12, on a database that has never been used. *)
Definition demo_logs : list IndexedTransferLog := [mkIndexedTransferLog 0 3 5 7 (Some 12)].
Definition demo_node : EthNode := {|
  eth_get_block_number := Ok 20;
  eth_index := Ok 1;
  eth_indexed_transfer_logs := fun a b => Ok (filter (log_in_blocks a b) demo_logs);
|}.
Definition demo_entry (label : string) (token_address verifier_address : Z) : TokenEntry :=
  mkTokenEntry label token_address verifier_address None 1 10 ["http://node"%string] false.
Definition demo_item (t : TokenEntry) : Tracked := mkTracked t demo_node demo_logs 20 0.
Definition demo_entries : list TokenEntry := [demo_entry "usd" 77 78; demo_entry "eur" 87 88].
Definition demo_key : string := "0x000102030405060708090a0b0c0d0e0f101112131415161718191a1b1c1d1e1f".
Definition demo_vars : EnvVars :=
  mkEnvVars (Some "postgres://db"%string) None None None None (Some 8) None None None None None None (Some " http://prover "%string) (Some demo_key) None.
Definition demo_load : result JobError IndexerConfig :=
  IndexerConfig_load Some "/srv"%string (fun _ => Ok (mkTokensFile None demo_entries)) demo_vars "tokens.json".
Definition demo_config : IndexerConfig :=
  Eval vm_compute in match demo_load with Ok c => c | Err _ => mkIndexerConfig "" [] EventJobConfig_default TreeJobConfig_default (mkRootJobConfig 0 0 0 0 0 "" 0 "") end.
Definition demo_run : RunEnv := mkRunEnv 2 21 1 9 0 1 2.
Definition demo_world : World := let w := toy_root_world empty_db in mkWorld (w_db w) (w_token w) (w_verifier w) (fun a => a - 1).

Lemma demo_logs_lookup k l : demo_logs !! k = Some l -> k = 0%nat /\ l = mkIndexedTransferLog 0 3 5 7 (Some 12).
Proof. destruct k as [|k]; [|done]. by intros [= <-]. Qed.

Lemma demo_trackable label a b : trackable demo_config demo_run (demo_item (demo_entry label a b)).
Proof.
  split; try (cbn; unfold i64_max; lia).
  - split; [done | cbn; unfold i64_max; lia | by exists 1 | done |]. intros k l [-> ->]%demo_logs_lookup. split; [done|]. exists 12. split; [done | cbn; lia].
  - apply Forall_singleton. split; cbn; lia.
  - intros k ev. unfold events_of. cbn [demo_item td_logs]. rewrite list_lookup_fmap. destruct (demo_logs !! k) as [l|] eqn:E; [|done].
    apply demo_logs_lookup in E as [-> ->]. cbn. intros [= <-]. cbn. lia.
Qed.

Lemma demo_known label a b : entry_known toy_attests demo_config (demo_item (demo_entry label a b)) 0 demo_world.
Proof.
  split; [by split_and!; cbn; [|lia|]|]. right. split; [|by repeat split].
  intros tok (r & Hr & _). change (tokens (w_db demo_world)) with (∅ : gmap Z TokenRow) in Hr. by rewrite lookup_empty in Hr.
Qed.

Lemma demo_leases label a b : leases_free (fun _ _ _ _ salt => salt) (demo_entry label a b) demo_run (w_db demo_world).
Proof. split; intros r Hr; change (leases (w_db demo_world)) with (∅ : gmap Z LeaseRow) in Hr; by rewrite lookup_empty in Hr. Qed.

Lemma demo_view label a : entry_view (demo_item (demo_entry label a (a + 1))) demo_world.
Proof.
  split; cbn [demo_item td_entry td_logs td_proved demo_entry te_token_address te_verifier_address]; [cbn; lia | reflexivity | reflexivity | reflexivity | reflexivity | | | |].
  - symmetry. apply toy_root_0.
  - rewrite take_0, toy_root_0. by vm_compute.
  - by vm_compute.
  - left. by vm_compute.
Qed.

End witnesses.
