(* ===== verification/Bindings.v ===== *)
(** [client-common/src/contracts]: the typed bindings of the zERC20, Verifier and Hub contracts, over
    the node of one chain, with the entry points of [contracts/src/zERC20.sol] around its hook.

    A node is the contracts of its chain, the latest block, the logs with their
    blocks and emitting addresses, and the messages handed to LayerZero.  The bindings generated by
    [sol!] encode and decode; here a call evaluates the contract's function on the node's state.
    The transport ([Wire]) and OpenZeppelin's ERC-20 ([ERC20]) are external. *)

From S2P Require Import Prelude Words Crypto BitPaths MerkleTrees Gadgets Circuits Database OnChain Events Leases Jobs Teleport Hub Payment Storage Cli Redeem.
Local Open Scope Z_scope.

(** ** Errors *)

Inductive ContractError :=
| ContractFailed (source : string)
| TransportError (action source : string)
| MissingEvent (name : string)
(** [unwrap] on an invalid private key *)
| ContractPanic.

(** ** The chain *)

(** The storage of OpenZeppelin's [ERC20Upgradeable]; [None] is a revert. *)
Class ERC20 := {
  Ledger : Type;
  erc20_transfer : Z -> Z -> Z -> Ledger -> option Ledger;
  erc20_mint : Z -> Z -> Ledger -> option Ledger;
  erc20_burn : Z -> Z -> Ledger -> option Ledger;
  erc20_balanceOf : Ledger -> Z -> Z;
}.

Inductive TokenEvent :=
| Transfer (from to value : Z)
| IndexedTransfer (index from to value : Z)
| VerifierUpdated (newVerifier : Z)
| MinterUpdated (newMinter : Z).

Record DeciderAddresses := mkDeciderAddresses {
  da_rootDecider : Z;
  da_withdrawGlobalDecider : Z;
  da_withdrawLocalDecider : Z;
  da_singleWithdrawGlobalVerifier : Z;
  da_singleWithdrawLocalVerifier : Z;
}.

(** The events by the signature they decode with.  zERC20 and Verifier declare the same
    [Teleport(address indexed,uint256)], so one constructor stands for both; [OtherEvent] is any other signature. *)
Inductive ChainEvent :=
| TokenLog (e : TokenEvent)
| VerifierLog (e : VerifierEvent)
| VerifiersSet (addresses : DeciderAddresses)
| HubLog (e : HubEvent)
| OtherEvent (topic0 : Z).

Record Log := mkLog { log_address : Z; log_event : ChainEvent }.
Record MinedLog := mkMinedLog { ml_block : Z; ml_log : Log }.

Section chain.
Context {C : Crypto} {E20 : ERC20} {P : PoseidonT3} {L : Endpoint}.

(** The contracts of a chain; only one chain has the hub. *)
Record Contracts := mkContracts {
  s_token : Token;
  s_ledger : Ledger;
  s_minter : Z;
  s_verifier : Verifier;
  s_deciders : DeciderAddresses;
  s_hub : option Hub;
}.

Record Node := mkNode {
  n_block : Z;
  n_site : Contracts;
  n_logs : list MinedLog;
  (** payloads sent by the verifier, and by the hub with their targets *)
  n_relays : list bytes;
  n_casts : list (Z * bytes);
}.

(** Addresses and owners on the chain, its id, and the deployed code of the proof verifiers. *)
Record Deployment := mkDeployment {
  dp_token : Z;
  dp_verifier : Z;
  dp_hub : Z;
  dp_owner : Z;
  dp_chainid : Z;
}.
Context (dp : Deployment) (decider_at : DeciderAddresses -> Deciders).

(** What a successful call changes, logs and sends. *)
Record Outcome := mkOutcome {
  o_site : Contracts;
  o_logs : list Log;
  o_relays : list bytes;
  o_casts : list (Z * bytes);
}.

Definition set_token (t : Token) (l : Ledger) (s : Contracts) : Contracts := mkContracts t l (s_minter s) (s_verifier s) (s_deciders s) (s_hub s).
Definition set_verifier_state (v : Verifier) (s : Contracts) : Contracts := mkContracts (s_token s) (s_ledger s) (s_minter s) v (s_deciders s) (s_hub s).
Definition set_hub_state (h : Hub) (s : Contracts) : Contracts := mkContracts (s_token s) (s_ledger s) (s_minter s) (s_verifier s) (s_deciders s) (Some h).

Definition reverted {E A} (r : result E A) : result string A := map_err (fun _ => "execution reverted"%string) r.
Definition demand (c : bool) (reason : string) : result string unit := if c then Ok tt else Err reason.
Definition hub_of (s : Contracts) : result string Hub := ok_or "no contract code at the address"%string (s_hub s).
Definition quiet_outcome (s : Contracts) (logs : list Log) : Outcome := mkOutcome s logs [] [].

(** *** [zERC20.sol]: a balance change of the base contract, its [Transfer] event and the hook. *)
Definition token_move (from to value : Z) (ledger : option Ledger) (s : Contracts) : result string (Contracts * list Log) :=
  l' ← ok_or "execution reverted"%string ledger;
  t' ← reverted (afterTokenTransfer to value (s_token s));
  Ok (set_token t' l' s,
      [mkLog (dp_token dp) (TokenLog (Transfer from to value));
       mkLog (dp_token dp) (TokenLog (IndexedTransfer (index (s_token s)) from to value))]).

Definition ZERC20_transfer (sender to value : Z) (s : Contracts) : result string Outcome :=
  '(s', logs) ← token_move sender to value (erc20_transfer sender to value (s_ledger s)) s;
  Ok (quiet_outcome s' logs).
Definition ZERC20_mint (sender to value : Z) (s : Contracts) : result string Outcome :=
  _ ← demand (sender =? s_minter s) "OnlyMinter";
  '(s', logs) ← token_move 0 to value (erc20_mint to value (s_ledger s)) s;
  Ok (quiet_outcome s' logs).
Definition ZERC20_burn (sender from value : Z) (s : Contracts) : result string Outcome :=
  _ ← demand (sender =? s_minter s) "OnlyMinter";
  '(s', logs) ← token_move from 0 value (erc20_burn from value (s_ledger s)) s;
  Ok (quiet_outcome s' logs).
(** [teleport] of the token, with the event it shares with the verifier. *)
Definition ZERC20_teleport (sender to value : Z) (s : Contracts) : result string Outcome :=
  _ ← demand (sender =? tok_verifier (s_token s)) "OnlyVerifier";
  '(s', logs) ← token_move 0 to value (erc20_mint to value (s_ledger s)) s;
  Ok (quiet_outcome s' (logs ++ [mkLog (dp_token dp) (VerifierLog (OnChain.Teleport to value))])).
Definition ZERC20_setVerifier (sender newVerifier : Z) (s : Contracts) : result string Outcome :=
  _ ← demand (sender =? dp_owner dp) "Ownable: caller is not the owner";
  _ ← demand (negb (newVerifier =? 0)) "ZeroAddress";
  Ok (quiet_outcome (set_token (mkToken (index (s_token s)) (hashChain (s_token s)) newVerifier) (s_ledger s) s)
        [mkLog (dp_token dp) (TokenLog (VerifierUpdated newVerifier))]).
Definition ZERC20_setMinter (sender newMinter : Z) (s : Contracts) : result string Outcome :=
  _ ← demand (sender =? dp_owner dp) "Ownable: caller is not the owner";
  Ok (quiet_outcome (mkContracts (s_token s) (s_ledger s) newMinter (s_verifier s) (s_deciders s) (s_hub s))
        [mkLog (dp_token dp) (TokenLog (MinterUpdated newMinter))]).

(** *** [Verifier.sol] on the site *)

Definition run_verifier (v : Verifier) (events : list VerifierEvent) (s : Contracts) : Outcome :=
  quiet_outcome (set_verifier_state v s) (mkLog (dp_verifier dp) ∘ VerifierLog <$> events).

Definition Verifier_reserveHashChain (sender : Z) (s : Contracts) : result string Outcome :=
  let '(v', events) := reserveHashChain (s_token s) (s_verifier s) in
  Ok (run_verifier v' events s).
Definition Verifier_proveTransferRoot (proof : bytes) (sender : Z) (s : Contracts) : result string Outcome :=
  '(v', events) ← reverted (proveTransferRoot (D := decider_at (s_deciders s)) proof (s_verifier s));
  Ok (run_verifier v' events s).
Definition Verifier_relayTransferRoot (options : bytes) (msg_value sender : Z) (s : Contracts) : result string Outcome :=
  '(v', events, payload) ← reverted (relayTransferRoot options msg_value (s_verifier s));
  let o := run_verifier v' events s in
  Ok (mkOutcome (o_site o) (o_logs o) [payload] []).

(** The token is called with the verifier's storage written; its logs come first. *)
Definition run_teleport (r : result Revert (Token * Verifier * list VerifierEvent)) (s : Contracts) : result string Outcome :=
  '(_, v', events) ← reverted r;
  match events with
  | [OnChain.Teleport to value] =>
    o ← ZERC20_teleport (dp_verifier dp) to value (set_verifier_state v' s);
    Ok (quiet_outcome (o_site o) (o_logs o ++ (mkLog (dp_verifier dp) ∘ VerifierLog <$> events)))
  | _ => Err "execution reverted"%string
  end.
Definition Verifier_teleport (isGlobal : bool) (rootHint : Z) (gr : GeneralRecipient) (proof : bytes) (sender : Z) (s : Contracts) : result string Outcome :=
  run_teleport (teleport (D := decider_at (s_deciders s)) (dp_verifier dp) (dp_chainid dp) isGlobal rootHint gr proof (s_token s) (s_verifier s)) s.
Definition Verifier_singleTeleport (isGlobal : bool) (rootHint : Z) (gr : GeneralRecipient) (proof : bytes) (sender : Z) (s : Contracts) : result string Outcome :=
  run_teleport (singleTeleport (D := decider_at (s_deciders s)) (dp_verifier dp) (dp_chainid dp) isGlobal rootHint gr proof (s_token s) (s_verifier s)) s.

Definition Verifier_activateEmergency (sender : Z) (s : Contracts) : result string Outcome :=
  _ ← demand (sender =? dp_owner dp) "Ownable: caller is not the owner";
  '(v', events) ← reverted (activateEmergency (s_verifier s));
  Ok (run_verifier v' events s).
Definition Verifier_deactivateEmergency (sender : Z) (s : Contracts) : result string Outcome :=
  _ ← demand (sender =? dp_owner dp) "Ownable: caller is not the owner";
  '(v', events) ← reverted (deactivateEmergency (s_verifier s));
  Ok (run_verifier v' events s).
Definition Verifier_setVerifiers (a : DeciderAddresses) (sender : Z) (s : Contracts) : result string Outcome :=
  _ ← demand (sender =? dp_owner dp) "Ownable: caller is not the owner";
  _ ← demand (negb ((da_rootDecider a =? 0) || (da_withdrawGlobalDecider a =? 0) || (da_withdrawLocalDecider a =? 0)
                    || (da_singleWithdrawGlobalVerifier a =? 0) || (da_singleWithdrawLocalVerifier a =? 0))) "ZeroAddress";
  Ok (quiet_outcome (mkContracts (s_token s) (s_ledger s) (s_minter s) (s_verifier s) a (s_hub s)) [mkLog (dp_verifier dp) (VerifiersSet a)]).

(** *** [Hub.sol] on the site; the refund goes to an account, which accepts it *)

Definition run_hub (h : Hub) (events : list HubEvent) (s : Contracts) : Outcome :=
  quiet_outcome (set_hub_state h s) (mkLog (dp_hub dp) ∘ HubLog <$> events).

Definition Hub_registerToken (info : TokenInfo) (sender : Z) (s : Contracts) : result string Outcome :=
  h ← hub_of s;
  _ ← demand (sender =? dp_owner dp) "Ownable: caller is not the owner";
  '(h', events) ← reverted (registerToken info h);
  Ok (run_hub h' events s).
Definition Hub_updateToken (info : TokenInfo) (sender : Z) (s : Contracts) : result string Outcome :=
  h ← hub_of s;
  _ ← demand (sender =? dp_owner dp) "Ownable: caller is not the owner";
  '(h', events) ← reverted (updateToken info h);
  Ok (run_hub h' events s).
Definition Hub_broadcast (targetEids : list Z) (lzOptions : bytes) (msg_value : Z) (sender : Z) (s : Contracts) : result string Outcome :=
  h ← hub_of s;
  '(h', events, sent) ← reverted (broadcast targetEids lzOptions msg_value true h);
  let o := run_hub h' events s in
  Ok (mkOutcome (o_site o) (o_logs o) [] sent).

(** ** Transactions and calls through the node *)

(** Transport, and what is mined between a request and the inclusion of its transaction. *)
Class Wire := {
  wire_call : string -> result string unit;
  wire_send : string -> result string unit;
  wire_gas_price : result string Z;
  wire_others : Node -> Node;
}.
Context {W : Wire} {SL : SignatureLib}.

(** A receipt, with the gas price of a legacy transaction. *)
Record TxReceipt := mkTxReceipt { rc_status : bool; rc_logs : list Log; rc_gas_price : option Z }.

(** The inclusion of a call in the next block; a revert only makes the block. *)
Definition mine (gas_price : option Z) (call : Contracts -> result string Outcome) (n : Node) : Node * TxReceipt :=
  match call (n_site n) with
  | Ok o =>
    (mkNode (n_block n + 1) (o_site o) (n_logs n ++ (mkMinedLog (n_block n + 1) <$> o_logs o)) (n_relays n ++ o_relays o) (n_casts n ++ o_casts o),
     mkTxReceipt true (o_logs o) gas_price)
  | Err _ =>
    (mkNode (n_block n + 1) (n_site n) (n_logs n) (n_relays n) (n_casts n), mkTxReceipt false [] gas_price)
  end.

Definition include (gas_price : option Z) (call : Contracts -> result string Outcome) : M Node ContractError TxReceipt :=
  fun n => let '(n', receipt) := mine gas_price call (wire_others n) in (n', Ok receipt).

(** The pending transaction is represented by the receipt it gets. *)
Definition send_call_with_legacy (name : string) (call : Contracts -> result string Outcome) (use_legacy : bool) : M Node ContractError TxReceipt :=
  (if use_legacy then
     lift (map_err (TransportError "fetching gas price for legacy transfer") wire_gas_price) ≫= fun p => mret (Some p)
   else mret None) ≫= fun gas_price =>
  lift (map_err ContractFailed (wire_send name)) ≫= fun _ =>
  include gas_price call.

(** [get_provider_with_signer] and the account the transactions come from. *)
Definition signer_of (private_key : Z) : M Node ContractError Z :=
  lift (map_err (fun _ => ContractPanic) (get_address_from_private_key private_key)).

Definition send (name : string) (legacy_tx : bool) (private_key : Z) (call : Z -> Contracts -> result string Outcome) : M Node ContractError TxReceipt :=
  signer_of private_key ≫= fun sender =>
  send_call_with_legacy name (call sender) legacy_tx.

(** [contract.f(..).call().await?]. *)
Definition call_view {A} (name : string) (f : Contracts -> result string A) : M Node ContractError A :=
  lift (map_err ContractFailed (wire_call name)) ≫= fun _ =>
  get ≫= fun n => lift (map_err ContractFailed (f (n_site n))).

(** [event_filter::<E>().address(a).from_block(f).to_block(t).query()]: the matching logs, in order. *)
Definition query {A} (name : string) (decode : ChainEvent -> option A) (address from_block to_block : Z) : M Node ContractError (list (A * Z)) :=
  lift (map_err ContractFailed (wire_call name)) ≫= fun _ =>
  gets (fun n => omap (fun l =>
    if (log_address (ml_log l) =? address) && (from_block <=? ml_block l) && (ml_block l <=? to_block)
    then (fun a => (a, ml_block l)) <$> decode (log_event (ml_log l)) else None) (n_logs n)).

Definition get_block_number : M Node ContractError Z :=
  lift (map_err (TransportError "get_block_number") (wire_call "eth_blockNumber")) ≫= fun _ => gets n_block.

(** The receipt parsers: the first log that decodes, whatever address emitted it. *)
Fixpoint parse_log {A} (name : string) (decode : ChainEvent -> option A) (logs : list Log) : result ContractError A :=
  match logs with
  | [] => Err (MissingEvent name)
  | l :: rest => match decode (log_event l) with Some a => Ok a | None => parse_log name decode rest end
  end.

(** ** [verifier.rs] *)

Record VerifierContract := mkVerifierContract { vc_address : Z; vc_legacy_tx : bool }.
Definition VerifierContract_new (address : Z) : VerifierContract := mkVerifierContract address false.
Definition VerifierContract_with_legacy_tx (legacy_tx : bool) (c : VerifierContract) : VerifierContract := mkVerifierContract (vc_address c) legacy_tx.

(** The contract at the binding's address, when it is the chain's verifier. *)
Definition verifier_at_address {A} (c : VerifierContract) (f : Contracts -> result string A) (s : Contracts) : result string A :=
  _ ← demand (vc_address c =? dp_verifier dp) "no contract code at the address"; f s.
Definition on_verifier {A} (c : VerifierContract) (name : string) (f : Verifier -> result string A) : M Node ContractError A :=
  call_view name (verifier_at_address c (fun s => f (s_verifier s))).
Definition verifier_send (c : VerifierContract) (name : string) (private_key : Z) (call : Z -> Contracts -> result string Outcome) : M Node ContractError TxReceipt :=
  send name (vc_legacy_tx c) private_key (fun sender => verifier_at_address c (call sender)).

(** [TOKEN] and [HUB_EID] are selectors the deployed contract does not have. *)
Definition VerifierContract_token (c : VerifierContract) : M Node ContractError Z := on_verifier c "TOKEN" (fun _ => Err "execution reverted"%string).
Definition VerifierContract_hub_eid (c : VerifierContract) : M Node ContractError Z := on_verifier c "HUB_EID" (fun _ => Err "execution reverted"%string).
Definition VerifierContract_latest_reserved_index (c : VerifierContract) : M Node ContractError Z :=
  on_verifier c "latestReservedIndex" (fun v => Ok (latestReservedIndex v)).
Definition VerifierContract_latest_proved_index (c : VerifierContract) : M Node ContractError Z :=
  on_verifier c "latestProvedIndex" (fun v => Ok (latestProvedIndex v)).
Definition VerifierContract_latest_relayed_index (c : VerifierContract) : M Node ContractError Z :=
  on_verifier c "latestRelayedIndex" (fun v => Ok (latestRelayedIndex v)).
Definition VerifierContract_is_up_to_date (c : VerifierContract) : M Node ContractError bool :=
  on_verifier c "isUpToDate" (fun v => Ok (verifier_isUpToDate v)).
Definition VerifierContract_latest_agg_seq (c : VerifierContract) : M Node ContractError Z :=
  on_verifier c "latestAggSeq" (fun v => Ok (latestAggSeq v)).
Definition VerifierContract_reserved_hash_chain (c : VerifierContract) (index : Z) : M Node ContractError Z :=
  on_verifier c "reservedHashChains" (fun v => Ok (slot (reservedHashChains v) index)).
Definition VerifierContract_proved_transfer_root (c : VerifierContract) (index : Z) : M Node ContractError Z :=
  on_verifier c "provedTransferRoots" (fun v => Ok (slot (provedTransferRoots v) index)).
Definition VerifierContract_global_transfer_root (c : VerifierContract) (agg_seq : Z) : M Node ContractError Z :=
  on_verifier c "globalTransferRoots" (fun v => Ok (slot (globalTransferRoots v) agg_seq)).
Definition VerifierContract_total_teleported (c : VerifierContract) (recipient : Z) : M Node ContractError Z :=
  on_verifier c "totalTeleported" (fun v => Ok (slot (totalTeleported v) recipient)).
Definition VerifierContract_paused (c : VerifierContract) : M Node ContractError bool :=
  on_verifier c "paused" (fun v => Ok (paused v)).
Definition VerifierContract_root_decider (c : VerifierContract) : M Node ContractError Z :=
  call_view "rootDecider" (verifier_at_address c (fun s => Ok (da_rootDecider (s_deciders s)))).
Definition VerifierContract_withdraw_global_decider (c : VerifierContract) : M Node ContractError Z :=
  call_view "withdrawGlobalDecider" (verifier_at_address c (fun s => Ok (da_withdrawGlobalDecider (s_deciders s)))).
Definition VerifierContract_withdraw_local_decider (c : VerifierContract) : M Node ContractError Z :=
  call_view "withdrawLocalDecider" (verifier_at_address c (fun s => Ok (da_withdrawLocalDecider (s_deciders s)))).
Definition VerifierContract_quote_relay (c : VerifierContract) (options : bytes) : M Node ContractError (Z * Z) :=
  on_verifier c "quoteRelay" (fun v => reverted (quoteRelay options v)).

Definition VerifierContract_reserve_hash_chain (c : VerifierContract) (private_key : Z) : M Node ContractError TxReceipt :=
  verifier_send c "reserveHashChain" private_key Verifier_reserveHashChain.
Definition VerifierContract_prove_transfer_root (c : VerifierContract) (private_key : Z) (proof : bytes) : M Node ContractError TxReceipt :=
  verifier_send c "proveTransferRoot" private_key (Verifier_proveTransferRoot proof).
Definition VerifierContract_relay_transfer_root (c : VerifierContract) (private_key native_fee : Z) (options : bytes) : M Node ContractError TxReceipt :=
  verifier_send c "relayTransferRoot" private_key (Verifier_relayTransferRoot options native_fee).
Definition VerifierContract_teleport (c : VerifierContract) (private_key : Z) (is_global : bool) (root_hint : Z) (gr : GeneralRecipient) (proof : bytes)
  : M Node ContractError TxReceipt :=
  verifier_send c "teleport" private_key (Verifier_teleport is_global root_hint gr proof).
Definition VerifierContract_single_teleport (c : VerifierContract) (private_key : Z) (is_global : bool) (root_hint : Z) (gr : GeneralRecipient) (proof : bytes)
  : M Node ContractError TxReceipt :=
  verifier_send c "singleTeleport" private_key (Verifier_singleTeleport is_global root_hint gr proof).
Definition VerifierContract_deactivate_emergency (c : VerifierContract) (private_key : Z) : M Node ContractError TxReceipt :=
  verifier_send c "deactivateEmergency" private_key Verifier_deactivateEmergency.
Definition VerifierContract_set_verifiers (c : VerifierContract) (private_key root_decider withdraw_global_decider withdraw_local_decider
  single_withdraw_global_verifier single_withdraw_local_verifier : Z) : M Node ContractError TxReceipt :=
  verifier_send c "setVerifiers" private_key
    (Verifier_setVerifiers (mkDeciderAddresses root_decider withdraw_global_decider withdraw_local_decider
       single_withdraw_global_verifier single_withdraw_local_verifier)).

(** The events a log can decode as. *)
Definition as_hash_chain_reserved (e : ChainEvent) : option (Z * Z) :=
  match e with VerifierLog (HashChainReserved i h) => Some (i, h) | _ => None end.
Definition as_transfer_root_proved (e : ChainEvent) : option (Z * Z) :=
  match e with VerifierLog (TransferRootProved i r) => Some (i, r) | _ => None end.
Definition as_transfer_root_relayed (e : ChainEvent) : option (Z * Z * bytes) :=
  match e with VerifierLog (TransferRootRelayed i r guid) => Some (i, r, guid) | _ => None end.
Definition as_teleport (e : ChainEvent) : option (Z * Z) :=
  match e with VerifierLog (OnChain.Teleport to value) => Some (to, value) | _ => None end.
Definition as_global_root_saved (e : ChainEvent) : option (Z * Z) :=
  match e with VerifierLog (GlobalRootSaved seq root) => Some (seq, root) | _ => None end.
Definition as_emergency_triggered (e : ChainEvent) : option (Z * Z * Z) :=
  match e with VerifierLog (EmergencyTriggered i r1 r2) => Some (i, r1, r2) | _ => None end.
Definition as_deactivate_emergency (e : ChainEvent) : option unit :=
  match e with VerifierLog DeactivateEmergency => Some tt | _ => None end.
Definition as_verifiers_set (e : ChainEvent) : option DeciderAddresses :=
  match e with VerifiersSet a => Some a | _ => None end.

Definition VerifierContract_parse_hash_chain_reserved (r : TxReceipt) := parse_log "HashChainReserved" as_hash_chain_reserved (rc_logs r).
Definition VerifierContract_parse_transfer_root_proved (r : TxReceipt) := parse_log "TransferRootProved" as_transfer_root_proved (rc_logs r).
Definition VerifierContract_parse_transfer_root_relayed (r : TxReceipt) := parse_log "TransferRootRelayed" as_transfer_root_relayed (rc_logs r).
Definition VerifierContract_parse_teleport (r : TxReceipt) := parse_log "Teleport" as_teleport (rc_logs r).
Definition VerifierContract_parse_global_root_saved (r : TxReceipt) := parse_log "GlobalRootSaved" as_global_root_saved (rc_logs r).
Definition VerifierContract_parse_emergency_triggered (r : TxReceipt) := parse_log "EmergencyTriggered" as_emergency_triggered (rc_logs r).
Definition VerifierContract_parse_deactivate_emergency (r : TxReceipt) := parse_log "DeactivateEmergency" as_deactivate_emergency (rc_logs r).
Definition VerifierContract_parse_verifiers_set (r : TxReceipt) := parse_log "VerifiersSet" as_verifiers_set (rc_logs r).

(** ** [hub.rs] *)

Record HubContract := mkHubContract { hb_address : Z; hb_legacy_tx : bool }.
Definition HubContract_new (address : Z) : HubContract := mkHubContract address false.
Definition HubContract_with_legacy_tx (legacy_tx : bool) (c : HubContract) : HubContract := mkHubContract (hb_address c) legacy_tx.

Definition hub_at_address {A} (c : HubContract) (f : Contracts -> result string A) (s : Contracts) : result string A :=
  _ ← demand (hb_address c =? dp_hub dp) "no contract code at the address"; f s.
Definition on_hub {A} (c : HubContract) (name : string) (f : Hub -> result string A) : M Node ContractError A :=
  call_view name (hub_at_address c (fun s => h ← hub_of s; f h)).
Definition hub_send (c : HubContract) (name : string) (private_key : Z) (call : Z -> Contracts -> result string Outcome) : M Node ContractError TxReceipt :=
  send name (hb_legacy_tx c) private_key (fun sender => hub_at_address c (call sender)).
(** Reading a public array: out of range reverts. *)
Definition array_get {A} (l : list A) (i : Z) : result string A := ok_or "execution reverted"%string (l !! Z.to_nat i).

Definition HubContract_agg_seq (c : HubContract) : M Node ContractError Z := on_hub c "aggSeq" (fun h => Ok (aggSeq h)).
Definition HubContract_is_up_to_date (c : HubContract) : M Node ContractError bool := on_hub c "isUpToDate" (fun h => Ok (hub_isUpToDate h)).
Definition HubContract_transfer_root (c : HubContract) (index : Z) : M Node ContractError Z :=
  on_hub c "transferRoots" (fun h => array_get (transferRoots h) index).
Definition HubContract_transfer_tree_index (c : HubContract) (index : Z) : M Node ContractError Z :=
  on_hub c "transferTreeIndices" (fun h => array_get (transferTreeIndices h) index).
Definition HubContract_max_leaves (c : HubContract) : M Node ContractError Z := on_hub c "MAX_LEAVES" (fun _ => Ok POSEIDON_MAX_LEAVES).
Definition HubContract_zero_hash (c : HubContract) (depth : Z) : M Node ContractError Z :=
  on_hub c "zeroHash" (fun h => array_get (zeroHash h) depth).
Definition HubContract_eid_position (c : HubContract) (eid : Z) : M Node ContractError Z :=
  on_hub c "eidToPosition" (fun h => Ok (slot (eidToPosition h) eid)) ≫= fun pos => mret (uint256_as_u64 pos).

Record HubTokenInfo := mkHubTokenInfo { hti_chain_id : Z; hti_eid : Z; hti_verifier : Z; hti_token : Z }.
Definition HubTokenInfo_from (value : TokenInfo) : HubTokenInfo :=
  mkHubTokenInfo (ti_chainId value) (ti_eid value) (ti_verifier value) (ti_token value).
Definition HubContract_token_info (c : HubContract) (index : Z) : M Node ContractError HubTokenInfo :=
  on_hub c "tokenInfos" (fun h => array_get (tokenInfos h) index) ≫= fun res => mret (HubTokenInfo_from res).
Definition HubContract_token_infos (c : HubContract) : M Node ContractError (list HubTokenInfo) :=
  on_hub c "getTokenInfos" (fun h => Ok (getTokenInfos h)) ≫= fun res => mret (HubTokenInfo_from <$> res).
Definition HubContract_quote_broadcast (c : HubContract) (target_eids : list Z) (lz_options : bytes) : M Node ContractError Z :=
  on_hub c "quoteBroadcast" (fun h => reverted (quoteBroadcast target_eids lz_options h)).

Definition HubContract_broadcast (c : HubContract) (private_key : Z) (target_eids : list Z) (lz_options : bytes) (native_fee : Z)
  : M Node ContractError TxReceipt :=
  hub_send c "broadcast" private_key (Hub_broadcast target_eids lz_options native_fee).
Definition token_info_of (info : HubTokenInfo) : TokenInfo := mkTokenInfo (hti_chain_id info) (hti_eid info) (hti_verifier info) (hti_token info).
Definition HubContract_register_token (c : HubContract) (private_key : Z) (info : HubTokenInfo) : M Node ContractError TxReceipt :=
  hub_send c "registerToken" private_key (Hub_registerToken (token_info_of info)).
Definition HubContract_update_token (c : HubContract) (private_key : Z) (info : HubTokenInfo) : M Node ContractError TxReceipt :=
  hub_send c "updateToken" private_key (Hub_updateToken (token_info_of info)).

Record TransferRootUpdatedEvent := mkTransferRootUpdatedEvent { tru_eid : Z; tru_index : Z; tru_new_root : Z }.
Record TokenRegisteredEvent := mkTokenRegisteredEvent { tre_eid : Z; tre_index : Z; tre_chain_id : Z; tre_token : Z; tre_verifier : Z }.

Definition as_aggregation_root_updated (e : ChainEvent) : option AggregationRootUpdatedEvent :=
  match e with HubLog (AggregationRootUpdated root seq snapshot indices) => Some (mkAggEvent root seq snapshot indices) | _ => None end.
Definition as_transfer_root_updated (e : ChainEvent) : option TransferRootUpdatedEvent :=
  match e with HubLog (TransferRootUpdated eid index root) => Some (mkTransferRootUpdatedEvent eid (uint256_as_u64 index) root) | _ => None end.
Definition as_token_registered (e : ChainEvent) : option TokenRegisteredEvent :=
  match e with
  | HubLog (TokenRegistered eid index chain_id token verifier) => Some (mkTokenRegisteredEvent eid (uint256_as_u64 index) chain_id token verifier)
  | _ => None
  end.
Definition as_token_updated (e : ChainEvent) : option TokenRegisteredEvent :=
  match e with
  | HubLog (TokenUpdated eid index chain_id token verifier) => Some (mkTokenRegisteredEvent eid (uint256_as_u64 index) chain_id token verifier)
  | _ => None
  end.

Definition HubContract_parse_aggregation_root_updated (r : TxReceipt) := parse_log "AggregationRootUpdated" as_aggregation_root_updated (rc_logs r).
Definition HubContract_parse_transfer_root_updated (r : TxReceipt) := parse_log "TransferRootUpdated" as_transfer_root_updated (rc_logs r).
Definition HubContract_parse_token_registered (r : TxReceipt) := parse_log "TokenRegistered" as_token_registered (rc_logs r).
Definition HubContract_parse_token_updated (r : TxReceipt) := parse_log "TokenUpdated" as_token_updated (rc_logs r).

Definition HubContract_aggregation_root_events (c : HubContract) (from_block to_block : Z) : M Node ContractError (list AggregationRootUpdatedEvent) :=
  query "eth_getLogs" as_aggregation_root_updated (hb_address c) from_block to_block ≫= fun events => mret events.*1.
Definition HubContract_latest_block (c : HubContract) : M Node ContractError Z := get_block_number.

(** ** [z_erc20.rs] *)

Record ZErc20Contract := mkZErc20Contract { ze_address : Z; ze_legacy_tx : bool }.
Definition ZErc20Contract_new (address : Z) : ZErc20Contract := mkZErc20Contract address false.
Definition ZErc20Contract_with_legacy_tx (legacy_tx : bool) (c : ZErc20Contract) : ZErc20Contract := mkZErc20Contract (ze_address c) legacy_tx.

Definition token_at_address {A} (c : ZErc20Contract) (f : Contracts -> result string A) (s : Contracts) : result string A :=
  _ ← demand (ze_address c =? dp_token dp) "no contract code at the address"; f s.
Definition on_token {A} (c : ZErc20Contract) (name : string) (f : Contracts -> A) : M Node ContractError A :=
  call_view name (token_at_address c (fun s => Ok (f s))).
Definition token_send (c : ZErc20Contract) (name : string) (private_key : Z) (call : Z -> Contracts -> result string Outcome) : M Node ContractError TxReceipt :=
  send name (ze_legacy_tx c) private_key (fun sender => token_at_address c (call sender)).

Definition ZErc20Contract_hash_chain (c : ZErc20Contract) : M Node ContractError Z := on_token c "hashChain" (fun s => hashChain (s_token s)).
Definition ZErc20Contract_index (c : ZErc20Contract) : M Node ContractError Z :=
  on_token c "index" (fun s => index (s_token s)) ≫= fun i => mret (uint256_as_u64 i).
Definition ZErc20Contract_verifier (c : ZErc20Contract) : M Node ContractError Z := on_token c "verifier" (fun s => tok_verifier (s_token s)).
Definition ZErc20Contract_minter (c : ZErc20Contract) : M Node ContractError Z := on_token c "minter" s_minter.
Definition ZErc20Contract_balance_of (c : ZErc20Contract) (account : Z) : M Node ContractError Z :=
  on_token c "balanceOf" (fun s => erc20_balanceOf (s_ledger s) account).

Definition ZErc20Contract_mint (c : ZErc20Contract) (private_key to amount : Z) : M Node ContractError TxReceipt :=
  token_send c "mint" private_key (fun sender => ZERC20_mint sender to amount).
Definition ZErc20Contract_teleport (c : ZErc20Contract) (private_key to amount : Z) : M Node ContractError TxReceipt :=
  token_send c "teleport" private_key (fun sender => ZERC20_teleport sender to amount).
Definition ZErc20Contract_set_minter (c : ZErc20Contract) (private_key new_minter : Z) : M Node ContractError TxReceipt :=
  token_send c "setMinter" private_key (fun sender => ZERC20_setMinter sender new_minter).
Definition ZErc20Contract_set_verifier (c : ZErc20Contract) (private_key new_verifier : Z) : M Node ContractError TxReceipt :=
  token_send c "setVerifier" private_key (fun sender => ZERC20_setVerifier sender new_verifier).
Definition ZErc20Contract_burn (c : ZErc20Contract) (private_key from amount : Z) : M Node ContractError TxReceipt :=
  token_send c "burn" private_key (fun sender => ZERC20_burn sender from amount).
Definition ZErc20Contract_transfer (c : ZErc20Contract) (private_key to amount : Z) : M Node ContractError TxReceipt :=
  token_send c "transfer" private_key (fun sender => ZERC20_transfer sender to amount).

Definition as_indexed_transfer (e : ChainEvent) : option (Z * Z * Z * Z) :=
  match e with TokenLog (IndexedTransfer index from to value) => Some (index, from, to, value) | _ => None end.
Definition ZErc20Contract_indexed_transfer_logs (c : ZErc20Contract) (from_block to_block : Z) : M Node ContractError (list IndexedTransferLog) :=
  query "eth_getLogs" as_indexed_transfer (ze_address c) from_block to_block ≫= fun events =>
  mret ((fun '((index, from, to, value), block) => mkIndexedTransferLog index from to value (Some block)) <$> events).
Definition ZErc20Contract_get_indexed_transfer_events (c : ZErc20Contract) (from_block to_block : Z) : M Node ContractError (list IndexedEvent) :=
  ZErc20Contract_indexed_transfer_logs c from_block to_block ≫= fun event_with_logs => mret (log_to_event <$> event_with_logs).

Record TeleportEvent := mkTeleportEvent { tpe_to : Z; tpe_value : Z; tpe_eth_block_number : Z }.
Definition ZErc20Contract_get_teleport_events (c : ZErc20Contract) (from_block to_block : Z) : M Node ContractError (list TeleportEvent) :=
  query "eth_getLogs" as_teleport (ze_address c) from_block to_block ≫= fun events =>
  mret ((fun '((to, value), block) => mkTeleportEvent to value block) <$> events).
Definition ZErc20Contract_latest_block (c : ZErc20Contract) : M Node ContractError Z := get_block_number.

(** ** What the indexer and the clients see of a node *)

Definition shown {A} (n : Node) (m : M Node ContractError A) : result string A :=
  map_err (fun e => match e with
                    | ContractFailed s => s
                    | TransportError action s => ("transport error while " ++ action ++ ": " ++ s)%string
                    | MissingEvent name => ("event `" ++ name ++ "` not found in transaction logs")%string
                    | ContractPanic => "panicked"%string
                    end) (m n).2.

Definition token_node (c : ZErc20Contract) (n : Node) : EthNode := {|
  eth_get_block_number := shown n (ZErc20Contract_latest_block c);
  eth_index := shown n (on_token c "index" (fun s => index (s_token s)));
  eth_indexed_transfer_logs := fun a b => shown n (ZErc20Contract_indexed_transfer_logs c a b);
|}.
Definition hub_node (c : HubContract) (n : Node) : HubNode := {|
  hub_latest_block := shown n (HubContract_latest_block c);
  hub_aggregation_root_events := fun a b => shown n (HubContract_aggregation_root_events c a b);
  hub_chain_ids := shown n (HubContract_token_infos c ≫= fun infos : list HubTokenInfo => mret (hti_chain_id <$> infos));
|}.
Definition verifier_node (c : VerifierContract) (n : Node) : VerifierView := {|
  view_latest_agg_seq := shown n (VerifierContract_latest_agg_seq c);
  view_global_transfer_root := fun seq => shown n (VerifierContract_global_transfer_root c seq);
|}.
End chain.
