(* ===== verification/BindingsSpec.v ===== *)
(** The contract bindings over the nodes of the chains: every history of the nodes is a history of
    the cross-chain system, and what the indexer and the clients read through the bindings is what their theorems assume
    of the Ethereum node, the hub's node and the verifier's views.

    A system is one node per endpoint.  Between two states anybody calls the contracts (the
    owner does not replace the token's verifier or the proof verifiers, and does not upgrade), LayerZero delivers messages that were sent,
    and other contracts emit whatever logs they like. *)

From S2P Require Import Prelude Words Text Crypto BitPaths MerkleTrees Gadgets Circuits Folding Database OnChain OnChainSpec TreeDb TreeDbSpec Events EventsSpec Leases Jobs JobsSpec Teleport TeleportSpec Hub HubSpec CrossChain CrossChainSpec TeleportFlow Payment Storage StorageSpec Cli Redeem Bindings.
Local Open Scope Z_scope.

Section logs.
Context (dp : Deployment).

(** The token's transfers and the hub's broadcasts among logs. *)
Definition own_log {A} (address : Z) (decode : ChainEvent -> option A) (l : Log) : option A :=
  if log_address l =? address then decode (log_event l) else None.
Definition own_transfer (l : MinedLog) : option IndexedTransferLog :=
  (fun '(index, from, to, value) => mkIndexedTransferLog index from to value (Some (ml_block l))) <$> own_log (dp_token dp) as_indexed_transfer (ml_log l).
Definition own_broadcast (l : MinedLog) : option (Z * AggregationRootUpdatedEvent) :=
  pair (ml_block l) <$> own_log (dp_hub dp) as_aggregation_root_updated (ml_log l).
Definition token_logs (ls : list MinedLog) : list IndexedTransferLog := omap own_transfer ls.
Definition hub_log (ls : list MinedLog) : list (Z * AggregationRootUpdatedEvent) := omap own_broadcast ls.

Lemma token_logs_app l k : token_logs (l ++ k) = token_logs l ++ token_logs k.
Proof. apply omap_app. Qed.
Lemma hub_log_app l k : hub_log (l ++ k) = hub_log l ++ hub_log k.
Proof. apply omap_app. Qed.

(** The three contracts have addresses of their own. *)
Record deployed : Prop := {
  dp_tv : dp_token dp <> dp_verifier dp;
  dp_th : dp_token dp <> dp_hub dp;
  dp_vh : dp_verifier dp <> dp_hub dp;
}.
End logs.

Section chain.
Context {C : Crypto} {HC : CryptoLaws C} {D : Deciders} {E20 : ERC20} {P : PoseidonT3} {L : Endpoint}.
Context (decider_at : DeciderAddresses -> Deciders).

Section site.
Context (dp : Deployment).

(** A call to the contracts from an account or contract other than the verifier. *)
Inductive site_call (sender : Z) (s : Contracts) (o : Outcome) : Prop :=
| sc_transfer to value : 0 <= to < 2 ^ 160 -> 0 <= value -> ZERC20_transfer dp sender to value s = Ok o -> site_call sender s o
| sc_mint to value : 0 <= to < 2 ^ 160 -> 0 <= value -> ZERC20_mint dp sender to value s = Ok o -> site_call sender s o
| sc_burn from value : 0 <= value -> ZERC20_burn dp sender from value s = Ok o -> site_call sender s o
| sc_token_teleport to value : sender <> dp_verifier dp -> ZERC20_teleport dp sender to value s = Ok o -> site_call sender s o
| sc_minter minter : ZERC20_setMinter dp sender minter s = Ok o -> site_call sender s o
| sc_reserve : Verifier_reserveHashChain dp sender s = Ok o -> site_call sender s o
| sc_prove proof : Verifier_proveTransferRoot dp decider_at proof sender s = Ok o -> site_call sender s o
| sc_relay options value : Verifier_relayTransferRoot dp options value sender s = Ok o -> site_call sender s o
| sc_teleport g hint gr proof : Verifier_teleport dp decider_at g hint gr proof sender s = Ok o -> site_call sender s o
| sc_single g hint gr proof : Verifier_singleTeleport dp decider_at g hint gr proof sender s = Ok o -> site_call sender s o
| sc_pause : Verifier_activateEmergency dp sender s = Ok o -> site_call sender s o
| sc_unpause : Verifier_deactivateEmergency dp sender s = Ok o -> site_call sender s o
| sc_register info : Hub_registerToken dp info sender s = Ok o -> site_call sender s o
| sc_update info : Hub_updateToken dp info sender s = Ok o -> site_call sender s o
| sc_broadcast targets options value : Hub_broadcast dp targets options value sender s = Ok o -> site_call sender s o.

(** The call leaves the token and the proof verifiers alone. *)
Record kept (s : Contracts) (o : Outcome) : Prop := {
  kp_token : s_token (o_site o) = s_token s;
  kp_deciders : s_deciders (o_site o) = s_deciders s;
  kp_no_transfer : forall b, token_logs dp (mkMinedLog b <$> o_logs o) = [];
}.

(** What a call is to the cross-chain system. *)
Inductive effect (s : Contracts) (o : Outcome) : Prop :=
| ef_local_quiet :
    kept s o -> s_hub (o_site o) = s_hub s -> (forall b, hub_log dp (mkMinedLog b <$> o_logs o) = []) -> o_relays o = [] -> o_casts o = [] ->
    (s_verifier (o_site o) = s_verifier s
     \/ globalTransferRoots (s_verifier (o_site o)) = globalTransferRoots (s_verifier s)
        /\ (decider_at (s_deciders s) = D -> forall log ps, exists ps',
              chain_step (dp_verifier dp) (dp_chainid dp) (mkChain (s_token s) (s_verifier s) log ps)
                (mkChain (s_token s) (s_verifier (o_site o)) log ps'))) -> effect s o
| ef_move from to value :
    s_deciders (o_site o) = s_deciders s -> s_hub (o_site o) = s_hub s -> o_relays o = [] -> o_casts o = [] ->
    (forall b, token_logs dp (mkMinedLog b <$> o_logs o) = [mkIndexedTransferLog (index (s_token s)) from to value (Some b)]) ->
    (forall b, hub_log dp (mkMinedLog b <$> o_logs o) = []) -> 0 <= to < 2 ^ 160 -> 0 <= value -> afterTokenTransfer to value (s_token s) = Ok (s_token (o_site o)) ->
    globalTransferRoots (s_verifier (o_site o)) = globalTransferRoots (s_verifier s) ->
    (decider_at (s_deciders s) = D -> forall log ps,
       chain_step (dp_verifier dp) (dp_chainid dp) (mkChain (s_token s) (s_verifier s) log ps)
         (mkChain (s_token (o_site o)) (s_verifier (o_site o)) (log ++ [mkLeaf to value]) ps)) -> effect s o
| ef_relay options value events payload :
    kept s o -> s_hub (o_site o) = s_hub s -> (forall b, hub_log dp (mkMinedLog b <$> o_logs o) = []) -> o_relays o = [payload] -> o_casts o = [] ->
    relayTransferRoot options value (s_verifier s) = Ok (s_verifier (o_site o), events, payload) -> effect s o
| ef_admin h h' info events :
    kept s o -> s_verifier (o_site o) = s_verifier s -> (forall b, hub_log dp (mkMinedLog b <$> o_logs o) = []) -> o_relays o = [] -> o_casts o = [] ->
    s_hub s = Some h -> s_hub (o_site o) = Some h' -> registerToken info h = Ok (h', events) \/ updateToken info h = Ok (h', events) -> effect s o
| ef_broadcast h h' targets options value events e sent :
    kept s o -> s_verifier (o_site o) = s_verifier s -> (forall b, hub_log dp (mkMinedLog b <$> o_logs o) = [(b, e)]) -> o_relays o = [] -> o_casts o = sent ->
    s_hub s = Some h -> s_hub (o_site o) = Some h' -> broadcast targets options value true h = Ok (h', events, sent) ->
    parse_aggregation_root_updated events = Some e -> effect s o.

Context (Hdp : deployed dp).

Lemma own_log_other {A} a (decode : ChainEvent -> option A) e b : a <> b -> own_log b decode (mkLog a e) = None.
Proof. intros H. unfold own_log. cbn [log_address]. by rewrite (proj2 (Z.eqb_neq _ _) H). Qed.
Lemma own_log_self {A} a (decode : ChainEvent -> option A) e : own_log a decode (mkLog a e) = decode e.
Proof. unfold own_log. cbn [log_address log_event]. by rewrite Z.eqb_refl. Qed.

Lemma verifier_logs_quiet b (events : list VerifierEvent) :
  token_logs dp (mkMinedLog b <$> (mkLog (dp_verifier dp) ∘ VerifierLog <$> events)) = []
  /\ hub_log dp (mkMinedLog b <$> (mkLog (dp_verifier dp) ∘ VerifierLog <$> events)) = [].
Proof.
  destruct Hdp as [H1 H2 H3]. unfold token_logs, hub_log. induction events as [|e l [IH1 IH2]]; [done|]. rewrite !fmap_cons. cbn [omap list_omap compose].
  unfold own_transfer at 1, own_broadcast at 1. cbn [ml_log ml_block]. rewrite !own_log_other by congruence. by rewrite IH1, IH2.
Qed.

Lemma hub_logs_own b (events : list HubEvent) :
  token_logs dp (mkMinedLog b <$> (mkLog (dp_hub dp) ∘ HubLog <$> events)) = []
  /\ hub_log dp (mkMinedLog b <$> (mkLog (dp_hub dp) ∘ HubLog <$> events)) = pair b <$> omap (as_aggregation_root_updated ∘ HubLog) events.
Proof.
  destruct Hdp as [H1 H2 H3]. unfold token_logs, hub_log. induction events as [|e l [IH1 IH2]]; [done|]. rewrite !fmap_cons. cbn [omap list_omap compose].
  unfold own_transfer at 1, own_broadcast at 1. cbn [ml_log ml_block]. rewrite own_log_other by congruence. rewrite own_log_self, IH1, IH2.
  split; [done|]. by destruct e.
Qed.

Lemma kept_verifier v' events s : kept s (run_verifier dp v' events s).
Proof. split; [done..|]. intros b. apply verifier_logs_quiet. Qed.
Lemma kept_hub h' events s : kept s (run_hub dp h' events s).
Proof. split; [done..|]. intros b. apply hub_logs_own. Qed.

Lemma demand_ok c reason : demand c reason = Ok tt -> c = true.
Proof. by destruct c. Qed.

Lemma reverted_ok {E A} (r : result E A) a : reverted r = Ok a -> r = Ok a.
Proof. destruct r; [by intros [= ->] | done]. Qed.

Lemma hub_of_ok s h : hub_of s = Ok h -> s_hub s = Some h.
Proof. unfold hub_of. destruct (s_hub s); [by intros [= ->] | done]. Qed.

(** A balance change with its hook. *)
Lemma token_move_ok from to value l s s' logs :
  token_move dp from to value l s = Ok (s', logs) ->
  exists l' t', afterTokenTransfer to value (s_token s) = Ok t' /\ s' = set_token t' l' s
    /\ (forall b, token_logs dp (mkMinedLog b <$> logs) = [mkIndexedTransferLog (index (s_token s)) from to value (Some b)])
    /\ (forall b, hub_log dp (mkMinedLog b <$> logs) = []).
Proof.
  destruct Hdp as [H1 H2 H3]. unfold token_move. intros H. apply result_bind_ok in H as (l' & _ & H). apply result_bind_ok in H as (t' & Ht & H). apply reverted_ok in Ht.
  injection H as <- <-. exists l', t'. split_and!; [done..| |]; intros b; unfold token_logs, hub_log; cbn [fmap list_fmap omap list_omap];
    unfold own_transfer, own_broadcast; cbn [ml_log]; rewrite ?own_log_self, ?own_log_other by congruence; done.
Qed.

Lemma move_effect from to value l s s' logs :
  0 <= to < 2 ^ 160 -> 0 <= value -> token_move dp from to value l s = Ok (s', logs) -> effect s (quiet_outcome s' logs).
Proof.
  intros Hto Hv (l' & t' & Ht & -> & H1 & H2)%token_move_ok. eapply ef_move; try done. intros _ log ps. by apply step_transfer.
Qed.

(** A call of the verifier that moves no tokens. *)
Lemma verifier_effect s v' events :
  globalTransferRoots v' = globalTransferRoots (s_verifier s) ->
  (decider_at (s_deciders s) = D -> forall log ps, exists ps', chain_step (dp_verifier dp) (dp_chainid dp) (mkChain (s_token s) (s_verifier s) log ps)
     (mkChain (s_token s) v' log ps')) ->
  effect s (run_verifier dp v' events s).
Proof.
  intros Hg Hstep. apply ef_local_quiet; [| done | | done | done |].
  - apply kept_verifier.
  - intros b. apply verifier_logs_quiet.
  - by right.
Qed.

Lemma prove_keeps_global proof v v' events : proveTransferRoot (D := D) proof v = Ok (v', events) -> globalTransferRoots v' = globalTransferRoots v.
Proof.
  unfold proveTransferRoot, prove_decoded. intros H. do 2 apply result_bind_ok in H as (? & _ & H). do 5 apply result_bind_ok in H as (? & _ & H).
  if_case_in H E; by injection H as <- <-.
Qed.

(** The mint and the logs of an accepted withdrawal. *)
Lemma teleport_effect g hint root recipient gr value s r o :
  r = teleport_common (dp_verifier dp) (dp_chainid dp) g hint root recipient gr value (s_token s) (s_verifier s) ->
  (decider_at (s_deciders s) = D -> forall t' v' to x log ps, r = Ok (t', v', [OnChain.Teleport to x]) ->
     chain_step (dp_verifier dp) (dp_chainid dp) (mkChain (s_token s) (s_verifier s) log ps) (mkChain t' v' (log ++ [mkLeaf to x]) ps)) ->
  run_teleport dp r s = Ok o -> effect s o.
Proof.
  intros Hr Hstep H. unfold run_teleport in H. apply result_bind_ok in H as ([[t' v'] events] & Hok%reverted_ok & H).
  assert (Hok' := Hok). rewrite Hr in Hok'. apply teleport_common_ok in Hok' as (_ & _ & _ & _ & Hlt & Ev & Ee & _ & Ht).
  rewrite Ee in H, Hok. set (to := gr_address gr mod 2 ^ 160) in *. set (x := value - slot _ _) in *.
  apply result_bind_ok in H as (o1 & Ho1 & H). injection H as <-. unfold ZERC20_teleport in Ho1.
  apply result_bind_ok in Ho1 as (? & _ & Ho1). apply result_bind_ok in Ho1 as ([s1 logs] & Hm & Ho1). injection Ho1 as <-.
  apply token_move_ok in Hm as (l' & t1 & Ht1 & -> & H1 & H2). cbn [set_verifier_state s_token] in Ht1, H1. rewrite Ht in Ht1. injection Ht1 as <-.
  assert (0 <= to < 2 ^ 160) by (apply Z.mod_pos_bound; lia).
  eapply (ef_move _ _ 0 to x); try done; cbn [quiet_outcome o_logs o_site set_token set_verifier_state s_verifier s_token].
  - intros b. destruct (verifier_logs_quiet b [OnChain.Teleport to x]) as [E1 _]. rewrite !fmap_app, !token_logs_app, H1. cbn [fmap list_fmap compose] in E1 |- *. rewrite E1.
    unfold token_logs. cbn [fmap list_fmap omap list_omap]. unfold own_transfer. cbn [ml_log]. by rewrite own_log_self.
  - intros b. destruct (verifier_logs_quiet b [OnChain.Teleport to x]) as [_ E2]. rewrite !fmap_app, !hub_log_app, H2. cbn [fmap list_fmap compose] in E2 |- *. rewrite E2.
    unfold hub_log. cbn [fmap list_fmap omap list_omap]. unfold own_broadcast. cbn [ml_log]. rewrite own_log_other by apply Hdp. done.
  - lia.
  - by rewrite Ev.
  - intros Hd log ps. by apply (Hstep Hd).
Qed.

Lemma hub_admin_effect s h h' info events :
  s_hub s = Some h -> registerToken info h = Ok (h', events) \/ updateToken info h = Ok (h', events) ->
  effect s (run_hub dp h' events s).
Proof.
  intros Hh Hr. eapply ef_admin; try done.
  - apply kept_hub.
  - intros b. cbn [run_hub quiet_outcome o_logs]. destruct (hub_logs_own b events) as [_ ->].
    destruct Hr as [Hr|Hr]; do 5 apply result_bind_ok in Hr as (? & _ & Hr); by injection Hr as <- <-.
Qed.

Lemma hub_broadcast_effect s h h' targets options value events sent :
  s_hub s = Some h -> broadcast targets options value true h = Ok (h', events, sent) ->
  effect s (mkOutcome (o_site (run_hub dp h' events s)) (o_logs (run_hub dp h' events s)) [] sent).
Proof.
  intros Hh Hb. assert (Hb' := Hb). apply broadcast_ok in Hb' as (root & _ & _ & _ & _ & -> & _). eapply ef_broadcast; try done.
  - split; [done..|]. intros b. cbn [o_logs run_hub quiet_outcome]. apply hub_logs_own.
  - intros b. cbn [o_logs run_hub quiet_outcome]. destruct (hub_logs_own b [AggregationRootUpdated root (aggSeq h + 1) (transferRoots h) (take (length (transferRoots h)) (transferTreeIndices h))]) as [_ ->]. done.
Qed.

Lemma call_effect sender s o : tok_verifier (s_token s) = dp_verifier dp -> site_call sender s o -> decider_at (s_deciders s) = D -> effect s o.
Proof.
  intros Hv Hcall Hd. destruct Hcall as [to value Ht Hx H|to value Ht Hx H|from value Hx H|to value Hs H|m H|H|proof H
    |options value H|g hint gr proof H|g hint gr proof H|H|H|info H|info H|targets options value H].
  - apply result_bind_ok in H as ([s' logs] & Hm & H). injection H as <-. eapply move_effect; [| |exact Hm]; lia.
  - apply result_bind_ok in H as (? & _ & H). apply result_bind_ok in H as ([s' logs] & Hm & H). injection H as <-. eapply move_effect; [| |exact Hm]; lia.
  - apply result_bind_ok in H as (? & _ & H). apply result_bind_ok in H as ([s' logs] & Hm & H). injection H as <-. eapply move_effect; [| |exact Hm]; lia.
  - apply result_bind_ok in H as ([] & Hs'%demand_ok & H). apply Z.eqb_eq in Hs'. congruence.
  - apply result_bind_ok in H as (? & _ & H). injection H as <-. destruct Hdp as [H1 H2 H3].
    apply ef_local_quiet; try done; [split; try done | | by left]; intros b; unfold token_logs, hub_log; cbn [o_logs quiet_outcome fmap list_fmap omap list_omap];
      unfold own_transfer, own_broadcast; cbn [ml_log]; rewrite ?own_log_self, ?own_log_other by congruence; done.
  - injection H as <-. apply verifier_effect; [done|]. intros _ log ps. exists ps. exact (step_reserve _ _ (mkChain (s_token s) (s_verifier s) log ps)).
  - apply result_bind_ok in H as ([v' events] & Hp%reverted_ok & H). injection H as <-. rewrite Hd in Hp. apply verifier_effect; [by eapply prove_keeps_global|].
    intros _ log ps. eexists. by eapply (step_prove _ _ (mkChain (s_token s) (s_verifier s) log ps)).
  - apply result_bind_ok in H as ([[v' events] payload] & Hp%reverted_ok & H). injection H as <-. eapply ef_relay; try done.
    + split; [done..|]. intros b. apply verifier_logs_quiet.
    + intros b. apply verifier_logs_quiet.
  - unfold Verifier_teleport in H. rewrite Hd in H. assert (Hr := H). unfold run_teleport in Hr.
    apply result_bind_ok in Hr as ([[t' v'] events] & Hok%reverted_ok & _). destruct (teleport_ok _ _ _ _ _ _ _ _ _ _ _ Hok) as (_ & _ & _ & _ & _ & Hc).
    eapply teleport_effect; cycle 2; [exact H | by rewrite Hok, Hc |]. intros _ t1 v1 to x log ps Hr.
    eapply (step_teleport _ _ (mkChain (s_token s) (s_verifier s) log ps)). left. exact Hr.
  - unfold Verifier_singleTeleport in H. rewrite Hd in H. assert (Hr := H). unfold run_teleport in Hr.
    apply result_bind_ok in Hr as ([[t' v'] events] & Hok%reverted_ok & _). destruct (singleTeleport_ok _ _ _ _ _ _ _ _ _ _ _ Hok) as (_ & Hc).
    eapply teleport_effect; cycle 2; [exact H | by rewrite Hok, Hc |]. intros _ t1 v1 to x log ps Hr.
    eapply (step_teleport _ _ (mkChain (s_token s) (s_verifier s) log ps)). right. exact Hr.
  - apply result_bind_ok in H as (? & _ & H). apply result_bind_ok in H as ([v' events] & Hp%reverted_ok & H). injection H as <-. apply verifier_effect.
    + unfold activateEmergency in Hp. destruct (paused _); [done|]. by injection Hp as <- <-.
    + intros _ log ps. exists ps. eapply (OnChainSpec.step_admin _ _ (mkChain (s_token s) (s_verifier s) log ps)). by left.
  - apply result_bind_ok in H as (? & _ & H). apply result_bind_ok in H as ([v' events] & Hp%reverted_ok & H). injection H as <-. apply verifier_effect.
    + unfold deactivateEmergency in Hp. destruct (paused _); [|done]. by injection Hp as <- <-.
    + intros _ log ps. exists ps. eapply (OnChainSpec.step_admin _ _ (mkChain (s_token s) (s_verifier s) log ps)). by right.
  - apply result_bind_ok in H as (h & Hh & H). apply result_bind_ok in H as (? & _ & H). apply result_bind_ok in H as ([h' events] & Hp%reverted_ok & H). injection H as <-.
    apply hub_of_ok in Hh. eapply hub_admin_effect; [done|by left].
  - apply result_bind_ok in H as (h & Hh & H). apply result_bind_ok in H as (? & _ & H). apply result_bind_ok in H as ([h' events] & Hp%reverted_ok & H). injection H as <-.
    apply hub_of_ok in Hh. eapply hub_admin_effect; [done|by right].
  - apply result_bind_ok in H as (h & Hh & H). apply result_bind_ok in H as ([[h' events] sent] & Hp%reverted_ok & H). injection H as <-.
    apply hub_of_ok in Hh. by eapply hub_broadcast_effect.
Qed.
End site.

(** ** Nodes *)

(** The node after an outcome is included in block [block]. *)
Definition grown (block : Z) (o : Outcome) (n : Node) : Node :=
  mkNode block (o_site o) (n_logs n ++ (mkMinedLog block <$> o_logs o)) (n_relays n ++ o_relays o) (n_casts n ++ o_casts o).

Inductive node_step (dp : Deployment) (n : Node) : Node -> Prop :=
| ns_call sender o block : site_call dp sender (n_site n) o -> n_block n <= block -> node_step dp n (grown block o n)
| ns_others logs block :
    n_block n <= block -> Forall (fun l => log_address l <> dp_token dp /\ log_address l <> dp_hub dp) logs ->
    node_step dp n (grown block (quiet_outcome (n_site n) logs) n).

Record node_ok (dp : Deployment) (addresses : DeciderAddresses) (n : Node) : Prop := {
  no_verifier : tok_verifier (s_token (n_site n)) = dp_verifier dp;
  no_deciders : s_deciders (n_site n) = addresses;
  no_index : index (s_token (n_site n)) = Z.of_nat (length (token_logs dp (n_logs n)));
  no_numbers : forall k l, token_logs dp (n_logs n) !! k = Some l -> lg_index l = Z.of_nat k;
  no_range : Forall leaf_in_range (log_leaves (token_logs dp (n_logs n)));
  no_block : 0 <= n_block n;
  no_blocks : Forall (fun l => 0 <= ml_block l <= n_block n) (n_logs n);
  no_sorted : StronglySorted (fun x y => ml_block x <= ml_block y) (n_logs n);
}.

Lemma sorted_snoc_block (l : list MinedLog) block (logs : list Log) :
  StronglySorted (fun x y => ml_block x <= ml_block y) l -> Forall (fun x => ml_block x <= block) l ->
  StronglySorted (fun x y => ml_block x <= ml_block y) (l ++ (mkMinedLog block <$> logs)).
Proof.
  intros Hs Hb. apply StronglySorted_app_2; [|exact Hs|].
  - intros x y Hx Hy. rewrite Forall_forall in Hb. apply list_elem_of_fmap in Hy as (z & -> & _). by apply Hb.
  - clear. induction logs as [|a l IH]; [constructor|]. rewrite fmap_cons. constructor; [exact IH|]. apply Forall_fmap, Forall_true. intros x. cbn. lia.
Qed.

(** The blocks stay in order, and the transfers numbered. *)
Lemma node_ok_grown dp addresses n o block ts :
  node_ok dp addresses n -> n_block n <= block ->
  token_logs dp (mkMinedLog block <$> o_logs o) = ts -> s_deciders (o_site o) = s_deciders (n_site n) ->
  tok_verifier (s_token (o_site o)) = tok_verifier (s_token (n_site n)) ->
  index (s_token (o_site o)) = index (s_token (n_site n)) + Z.of_nat (length ts) ->
  (forall k l, ts !! k = Some l -> lg_index l = index (s_token (n_site n)) + Z.of_nat k) -> Forall leaf_in_range (log_leaves ts) ->
  node_ok dp addresses (grown block o n).
Proof.
  intros [H1 H2 H3 H4 H5 H6 H7 H8] Hb Ht Hd Hv Hi Hn Hr. split; cbn [grown n_site n_logs n_block]; rewrite ?token_logs_app, ?Ht; try congruence.
  - rewrite Hi, H3, length_app. lia.
  - intros k l [Hk|[Hge Hk]]%lookup_app_Some; [by apply H4|]. rewrite (Hn _ _ Hk), H3. lia.
  - unfold log_leaves. rewrite fmap_app. by apply Forall_app.
  - lia.
  - apply Forall_app. split; [eapply Forall_impl; [exact H7|]; cbn; lia | apply Forall_fmap, Forall_true; cbn; lia].
  - apply sorted_snoc_block; [exact H8|]. eapply Forall_impl; [exact H7|]. cbn; lia.
Qed.

Lemma node_ok_kept dp addresses n o block :
  node_ok dp addresses n -> n_block n <= block -> kept dp (n_site n) o -> node_ok dp addresses (grown block o n).
Proof.
  intros Hok Hb [K1 K2 K3]. apply (node_ok_grown _ _ _ _ _ [] Hok Hb (K3 block) K2); rewrite ?K1; [done | cbn; lia | by intros k l | constructor].
Qed.

Lemma node_ok_moved dp addresses n o block from to value :
  node_ok dp addresses n -> n_block n <= block -> s_deciders (o_site o) = s_deciders (n_site n) ->
  token_logs dp (mkMinedLog block <$> o_logs o) = [mkIndexedTransferLog (index (s_token (n_site n))) from to value (Some block)] ->
  0 <= to < 2 ^ 160 -> 0 <= value -> afterTokenTransfer to value (s_token (n_site n)) = Ok (s_token (o_site o)) ->
  node_ok dp addresses (grown block o n).
Proof.
  intros Hok Hb Hd Ht Hto Hx Ha. unfold afterTokenTransfer in Ha. apply result_bind_ok in Ha as (? & Hr & Ha). apply require_ok in Hr. bool_cases.
  if_case_in Ha E; [done|]. injection Ha as Ha. eapply node_ok_grown; [done | done | exact Ht | done | by rewrite <- Ha | rewrite <- Ha; cbn; lia | |].
  - intros [|k] l; [|done]. intros [= <-]. cbn. lia.
  - apply Forall_singleton. split; cbn; [done|]. unfold MASK248 in *. lia.
Qed.

Lemma others_quiet dp logs b :
  Forall (fun l => log_address l <> dp_token dp /\ log_address l <> dp_hub dp) logs ->
  token_logs dp (mkMinedLog b <$> logs) = [] /\ hub_log dp (mkMinedLog b <$> logs) = [].
Proof.
  unfold token_logs, hub_log. induction 1 as [|[a e] l [H1 H2] _ [IH1 IH2]]; [done|]. cbn [log_address] in H1, H2. rewrite !fmap_cons. cbn [omap list_omap].
  unfold own_transfer at 1, own_broadcast at 1. cbn [ml_log]. rewrite !own_log_other by done. by rewrite IH1, IH2.
Qed.

Lemma node_step_effect dp addresses n n' :
  deployed dp -> node_ok dp addresses n -> decider_at addresses = D -> node_step dp n n' ->
  exists o block, n_block n <= block /\ n' = grown block o n /\ effect dp (n_site n) o.
Proof.
  intros Hdp Hok Hd [sender o block Hc Hb|logs block Hb Hl].
  - exists o, block. split_and!; [done..|]. eapply call_effect; [done | apply Hok | done | by rewrite (no_deciders _ _ _ Hok)].
  - eexists _, block. split_and!; [done..|]. apply ef_local_quiet; try done; [split; try done; intros b; by apply others_quiet | intros b; by apply others_quiet | by left].
Qed.

(** ** Systems of nodes *)

Section system.
(** The deployment of each endpoint, and the hub's endpoint. *)
Context (dps : Z -> Deployment) (addresses : Z -> DeciderAddresses) (hubEid : Z).
Context (start : Z -> Z) (ledger0 : Z -> Ledger) (minter0 : Z -> Z).

Record deployments : Prop := {
  ds_addresses : forall eid, deployed (dps eid);
  ds_deciders : forall eid, decider_at (addresses eid) = D;
  ds_start : forall eid, 0 <= start eid;
}.

Abbreviation self := (fun eid => dp_verifier (dps eid)).
Abbreviation chainid := (fun eid => dp_chainid (dps eid)).

(** The token is deployed, its verifier set and the verifier initialised. *)
Definition node_genesis (eid : Z) : Node :=
  mkNode (start eid)
    (mkContracts (ch_token (genesis (dp_verifier (dps eid)) hubEid)) (ledger0 eid) (minter0 eid) (ch_verifier (genesis (dp_verifier (dps eid)) hubEid)) (addresses eid)
       (if eid =? hubEid then Some Hub_init else None)) [] [] [].

Inductive system_step (ns : gmap Z Node) : gmap Z Node -> Prop :=
| ss_node eid n n' : ns !! eid = Some n -> node_step (dps eid) n n' -> system_step ns (<[eid := n']> ns)
| ss_hub_receive n h src m payload h' events block :
    ns !! hubEid = Some n -> s_hub (n_site n) = Some h -> ns !! src = Some m -> payload ∈ n_relays m ->
    hub_lzReceive src payload h = Ok (h', events) -> n_block n <= block ->
    system_step ns (<[hubEid := grown block (run_hub (dps hubEid) h' events (n_site n)) n]> ns)
| ss_chain_receive eid n m payload v' events block :
    ns !! eid = Some n -> ns !! hubEid = Some m -> (eid, payload) ∈ n_casts m ->
    verifier_lzReceive hubEid payload (s_verifier (n_site n)) = Ok (v', events) -> n_block n <= block ->
    system_step ns (<[eid := grown block (run_verifier (dps eid) v' events (n_site n)) n]> ns).

Inductive system_reachable (eids : list Z) : gmap Z Node -> Prop :=
| sr_genesis : system_reachable eids (list_to_map ((fun e => (e, node_genesis e)) <$> eids))
| sr_step ns ns' : system_reachable eids ns -> system_step ns ns' -> system_reachable eids ns'.

(** The abstract chain of a node, with the proofs its verifier accepted. *)
Definition chain_of (eid : Z) (n : Node) (ps : list (list Leaf * list Z)) : Chain :=
  mkChain (s_token (n_site n)) (s_verifier (n_site n)) (log_leaves (token_logs (dps eid) (n_logs n))) ps.

Record simulates (ns : gmap Z Node) (w : World) : Prop := {
  sim_nodes : forall eid n, ns !! eid = Some n -> node_ok (dps eid) (addresses eid) n;
  sim_chains : forall eid n, ns !! eid = Some n -> exists ps, wo_chains w !! eid = Some (chain_of eid n ps);
  sim_hub : forall n, ns !! hubEid = Some n ->
    s_hub (n_site n) = Some (wo_hub w) /\ (hub_log (dps hubEid) (n_logs n)).*2 = wo_log w /\ (forall m, m ∈ n_casts n -> m ∈ wo_to_chain w);
  sim_no_hub : forall eid n, ns !! eid = Some n -> eid <> hubEid -> s_hub (n_site n) = None;
  sim_relays : forall eid n p, ns !! eid = Some n -> p ∈ n_relays n -> (eid, p) ∈ wo_to_hub w;
}.

(** One node changes, and the world with it. *)
Lemma simulates_insert ns w w' eid n n' ps :
  simulates ns w -> ns !! eid = Some n -> node_ok (dps eid) (addresses eid) n' ->
  wo_chains w' = <[eid := chain_of eid n' ps]> (wo_chains w) ->
  (eid = hubEid -> s_hub (n_site n') = Some (wo_hub w') /\ (hub_log (dps hubEid) (n_logs n')).*2 = wo_log w' /\ (forall m, m ∈ n_casts n' -> m ∈ wo_to_chain w')) ->
  (eid <> hubEid -> s_hub (n_site n') = None /\ wo_hub w' = wo_hub w /\ wo_log w' = wo_log w) ->
  (forall m, m ∈ wo_to_chain w -> m ∈ wo_to_chain w') -> (forall m, m ∈ wo_to_hub w -> m ∈ wo_to_hub w') ->
  (forall p, p ∈ n_relays n' -> (eid, p) ∈ wo_to_hub w') ->
  simulates (<[eid := n']> ns) w'.
Proof.
  intros [S1 S2 S3 S4 S5] Hn Hok Hc Hh Hnh Htc Hth Hr. split.
  - intros e m [[<- <-]|[He Hm]]%lookup_insert_Some; [done | by apply S1].
  - intros e m [[<- <-]|[He Hm]]%lookup_insert_Some; rewrite Hc.
    + exists ps. by rewrite lookup_insert_eq.
    + rewrite lookup_insert_ne by done. by apply S2.
  - intros m [[-> <-]|[He Hm]]%lookup_insert_Some; [by apply Hh|]. destruct (Hnh He) as (_ & -> & ->). destruct (S3 m Hm) as (H1 & H2 & H3).
    split_and!; [done..|]. intros x Hx. by apply Htc, H3.
  - intros e m [[<- <-]|[He Hm]]%lookup_insert_Some Hne; [by apply Hnh | by eapply S4].
  - intros e m p [[<- <-]|[He Hm]]%lookup_insert_Some Hp; [by apply Hr|]. apply Hth. by eapply S5.
Qed.

Lemma grown_relays_none ns w eid n o block p :
  simulates ns w -> ns !! eid = Some n -> o_relays o = [] -> p ∈ n_relays (grown block o n) -> (eid, p) ∈ wo_to_hub w.
Proof. intros Hs Hn E. cbn [grown n_relays]. rewrite E, app_nil_r. by apply (sim_relays _ _ Hs). Qed.

(** A change that leaves the hub and its logs alone. *)
Lemma grown_hub_same ns w n o block :
  simulates ns w -> ns !! hubEid = Some n -> s_hub (o_site o) = s_hub (n_site n) -> hub_log (dps hubEid) (mkMinedLog block <$> o_logs o) = [] -> o_casts o = [] ->
  s_hub (n_site (grown block o n)) = Some (wo_hub w) /\ (hub_log (dps hubEid) (n_logs (grown block o n))).*2 = wo_log w
  /\ (forall m, m ∈ n_casts (grown block o n) -> m ∈ wo_to_chain w).
Proof.
  intros Hs Hn Hh Hl Hc. destruct (sim_hub _ _ Hs _ Hn) as (H1 & H2 & H3). cbn [grown n_site n_logs n_casts]. rewrite Hh, Hc, hub_log_app, Hl, !app_nil_r. done.
Qed.

Lemma chain_grown_kept eid n o block ps :
  kept (dps eid) (n_site n) o -> chain_of eid (grown block o n) ps = mkChain (s_token (n_site n)) (s_verifier (o_site o)) (log_leaves (token_logs (dps eid) (n_logs n))) ps.
Proof. intros [K1 _ K3]. unfold chain_of. cbn [grown n_site n_logs]. by rewrite token_logs_app, K3, K1, app_nil_r. Qed.

Context (Hds : deployments).

(** The hub's events on the hub's node only. *)
Lemma hub_site_eid ns w eid n h : simulates ns w -> ns !! eid = Some n -> s_hub (n_site n) = Some h -> eid = hubEid /\ h = wo_hub w.
Proof.
  intros Hs Hn Hh. destruct (decide (eid = hubEid)) as [->|Hne].
  - destruct (sim_hub _ _ Hs _ Hn) as [E _]. split; congruence.
  - pose proof (sim_no_hub _ _ Hs _ _ Hn Hne). congruence.
Qed.

(** A change that leaves the hub alone. *)
Lemma simulates_local ns h cs log th tc eid n o block ps th' :
  simulates ns (mkWorld h cs log th tc) -> ns !! eid = Some n -> node_ok (dps eid) (addresses eid) (grown block o n) ->
  s_hub (o_site o) = s_hub (n_site n) -> (forall b, hub_log (dps eid) (mkMinedLog b <$> o_logs o) = []) -> o_casts o = [] ->
  th ⊆ th' -> (forall p, p ∈ o_relays o -> (eid, p) ∈ th') ->
  simulates (<[eid := grown block o n]> ns) (mkWorld h (<[eid := chain_of eid (grown block o n) ps]> cs) log th' tc).
Proof.
  intros Hs Hn Hok Hh Hl Hca Hth Hre. eapply simulates_insert; try done.
  - intros ->. by eapply (grown_hub_same _ _ _ _ _ Hs).
  - intros Hne. split_and!; try done. cbn [grown n_site]. rewrite Hh. by apply (sim_no_hub _ _ Hs eid).
  - intros p. cbn [grown n_relays wo_to_hub]. rewrite elem_of_app. intros [Hp|Hp]; [apply Hth; by apply (sim_relays _ _ Hs _ _ _ Hn) | by apply Hre].
Qed.

Lemma effect_simulated eids ns w eid n o block :
  world_reachable self chainid hubEid eids w -> simulates ns w -> ns !! eid = Some n -> effect (dps eid) (n_site n) o -> n_block n <= block ->
  exists w', world_reachable self chainid hubEid eids w' /\ simulates (<[eid := grown block o n]> ns) w'.
Proof.
  intros Hr Hs Hn He Hb. pose proof (sim_nodes _ _ Hs _ _ Hn) as Hok. destruct (sim_chains _ _ Hs _ _ Hn) as [ps Hc].
  assert (decider_at (s_deciders (n_site n)) = D) as Hd by (rewrite (no_deciders _ _ _ Hok); apply Hds).
  destruct w as [h cs log th tc]. cbn [wo_chains] in Hc.
  assert (forall o', kept (dps eid) (n_site n) o' -> s_verifier (o_site o') = s_verifier (n_site n) -> cs = <[eid := chain_of eid (grown block o' n) ps]> cs) as Hsame.
  { intros o' K Ev. rewrite (chain_grown_kept _ _ _ _ _ K), Ev. symmetry. by apply insert_id. }
  destruct He as [K Hh Hl Hre Hca [Hv|[Hg Hst]]|from to value E1 Hh Hre Hca Ht Hl Hto Hx Ha Hg Hst|options value events payload K Hh Hl Hre Hca Hrel
    |h0 h' info events K Hv Hl Hre Hca Hh Hh' Hadm|h0 h' targets options value events e sent K Hv Hl Hre Hca Hh Hh' Hbr Hp].
  - exists (mkWorld h cs log th tc). split; [done|]. rewrite (Hsame o K Hv). eapply simulates_local; try done; [by apply node_ok_kept | rewrite Hre; by intros p ?%elem_of_nil].
  - destruct (Hst Hd (log_leaves (token_logs (dps eid) (n_logs n))) ps) as [ps' Hstep].
    eexists (mkWorld h _ log th tc). split; [eapply wr_step; [exact Hr|]; eapply ws_local; [exact Hc | exact Hstep | exact Hg]|].
    rewrite <- (chain_grown_kept _ _ _ block ps' K). eapply simulates_local; try done; [by apply node_ok_kept | rewrite Hre; by intros p ?%elem_of_nil].
  - eexists (mkWorld h _ log th tc). split; [eapply wr_step; [exact Hr|]; eapply ws_local; [exact Hc | by apply Hst | exact Hg]|].
    replace (mkChain _ _ _ ps) with (chain_of eid (grown block o n) ps).
    + eapply simulates_local; try done; [by eapply node_ok_moved | rewrite Hre; by intros p ?%elem_of_nil].
    + unfold chain_of. cbn [grown n_site n_logs]. unfold log_leaves. by rewrite token_logs_app, Ht, fmap_app.
  - eexists (mkWorld h _ log (th ++ [(eid, payload)]) tc). split; [eapply wr_step; [exact Hr|]; eapply ws_relay; [exact Hc | exact Hrel]|].
    unfold with_verifier. cbn [chain_of ch_token ch_log ch_proofs]. rewrite <- (chain_grown_kept _ _ _ block ps K).
    eapply simulates_local; try done; [by apply node_ok_kept | intros m Hm; apply elem_of_app; by left |].
    rewrite Hre. intros p ->%list_elem_of_singleton. apply elem_of_app. right. by left.
  - destruct (hub_site_eid _ _ _ _ _ Hs Hn Hh) as [-> ->]. destruct (sim_hub _ _ Hs _ Hn) as (_ & H2 & H3).
    eexists (mkWorld h' cs log th tc). split; [eapply wr_step; [exact Hr|]; by eapply ws_admin|].
    eapply simulates_insert; try done; [by apply node_ok_kept | by apply Hsame | |].
    + intros _. cbn [grown n_site n_logs n_casts]. by rewrite Hh', Hca, hub_log_app, Hl, !app_nil_r.
    + intros p. by eapply (grown_relays_none _ _ _ _ _ _ _ Hs).
  - destruct (hub_site_eid _ _ _ _ _ Hs Hn Hh) as [-> ->]. destruct (sim_hub _ _ Hs _ Hn) as (_ & H2 & H3).
    eexists (mkWorld h' cs (log ++ [e]) th (tc ++ sent)). split; [eapply wr_step; [exact Hr|]; by eapply ws_broadcast|].
    eapply simulates_insert; try done; [by apply node_ok_kept | by apply Hsame | | |].
    + intros _. cbn [grown n_site n_logs n_casts]. rewrite Hh', Hca, hub_log_app, Hl, fmap_app. split_and!; [done | cbn in H2; by rewrite H2 |].
      intros m. cbn [wo_to_chain]. rewrite !elem_of_app. intros [Hm|Hm]; [left; by apply H3 | by right].
    + intros m Hm. cbn [wo_to_chain]. apply elem_of_app. by left.
    + intros p. by eapply (grown_relays_none _ _ _ _ _ _ _ Hs).
Qed.

Lemma receive_keeps_log src payload h h' events : hub_lzReceive src payload h = Ok (h', events) -> omap (as_aggregation_root_updated ∘ HubLog) events = [].
Proof.
  unfold hub_lzReceive. intros H. do 4 apply result_bind_ok in H as (? & _ & H). if_case_in H E; [by injection H as <- <-|].
  apply result_bind_ok in H as (? & _ & H). by injection H as <- <-.
Qed.

Lemma step_simulated eids ns ns' w :
  world_reachable self chainid hubEid eids w -> simulates ns w -> system_step ns ns' ->
  exists w', world_reachable self chainid hubEid eids w' /\ simulates ns' w'.
Proof.
  intros Hr Hs [eid n n' Hn Hst|n h src m payload h' events block Hn Hh Hm Hp Hrec Hb|eid n m payload v' events block Hn Hm Hp Hrec Hb].
  - destruct (node_step_effect (dps eid) (addresses eid) n n') as (o & block & Hb & -> & He); [apply Hds | by apply (sim_nodes _ _ Hs) | apply Hds | done |].
    by eapply effect_simulated.
  - destruct (sim_chains _ _ Hs _ _ Hn) as [ps Hc]. destruct (sim_hub _ _ Hs _ Hn) as (E & H2 & H3). pose proof (sim_relays _ _ Hs _ _ _ Hm Hp) as Hth.
    pose proof (kept_hub (dps hubEid) (ds_addresses Hds hubEid) h' events (n_site n)) as K. destruct w as [h0 cs log th tc]. cbn in E, Hc, Hth. assert (h0 = h) as -> by congruence.
    eexists (mkWorld h' cs log th tc). split; [eapply wr_step; [exact Hr|]; by eapply ws_hub_receive|].
    eapply simulates_insert; try done; [apply node_ok_kept; [by apply (sim_nodes _ _ Hs)|done..] | | |].
    + rewrite (chain_grown_kept _ _ _ block ps K). symmetry. by apply insert_id.
    + intros _. cbn [grown n_site n_logs n_casts run_hub quiet_outcome o_logs o_casts o_site set_hub_state s_hub].
      destruct (hub_logs_own (dps hubEid) (ds_addresses Hds hubEid) block events) as [_ El]. rewrite hub_log_app, El, (receive_keeps_log _ _ _ _ _ Hrec), !app_nil_r. done.
    + intros p. by eapply (grown_relays_none _ _ _ _ _ _ _ Hs).
  - destruct (sim_chains _ _ Hs _ _ Hn) as [ps Hc]. destruct (sim_hub _ _ Hs _ Hm) as (_ & _ & H3). apply H3 in Hp.
    pose proof (kept_verifier (dps eid) (ds_addresses Hds eid) v' events (n_site n)) as K. destruct w as [h cs log th tc]. cbn in Hc, Hp.
    eexists (mkWorld h _ log th tc). split; [eapply wr_step; [exact Hr|]; by eapply ws_chain_receive|].
    unfold with_verifier. cbn [chain_of ch_token ch_log ch_proofs]. change v' with (s_verifier (o_site (run_verifier (dps eid) v' events (n_site n)))) at 2.
    rewrite <- (chain_grown_kept _ _ _ block ps K).
    eapply simulates_local; try done; [apply node_ok_kept; [by apply (sim_nodes _ _ Hs)|done..] | intros b; by apply verifier_logs_quiet; apply Hds | by intros p ?%elem_of_nil].
Qed.

Lemma lookup_keyed {A} (f : Z -> A) eids eid : eid ∈ eids -> (list_to_map ((fun e => (e, f e)) <$> eids) : gmap Z A) !! eid = Some (f eid).
Proof.
  induction eids as [|e l IH]; [by intros ?%elem_of_nil|]. rewrite fmap_cons. cbn [list_to_map foldr uncurry fst snd]. intros He.
  destruct (decide (e = eid)) as [->|Hne]; [by rewrite lookup_insert_eq|]. rewrite lookup_insert_ne by done. apply IH. by apply elem_of_cons in He as [->|He].
Qed.

Lemma genesis_simulated eids : simulates (list_to_map ((fun e => (e, node_genesis e)) <$> eids)) (world_genesis self hubEid eids).
Proof.
  assert (forall eid n, (list_to_map ((fun e => (e, node_genesis e)) <$> eids) : gmap Z Node) !! eid = Some n -> eid ∈ eids /\ n = node_genesis eid) as Hl.
  { intros eid n H. apply elem_of_list_to_map_2 in H. apply list_elem_of_fmap in H as (e & [= -> ->] & He). done. }
  split.
  - intros eid n [He ->]%Hl. pose proof (ds_start Hds eid). split; try done; constructor.
  - intros eid n [He ->]%Hl. exists []. exact (lookup_keyed _ _ _ He).
  - intros n [He ->]%Hl. cbn [node_genesis n_site s_hub n_logs n_casts]. rewrite Z.eqb_refl. split_and!; [done..|]. by intros m ?%elem_of_nil.
  - intros eid n [He ->]%Hl Hne. cbn. by rewrite (proj2 (Z.eqb_neq _ _) Hne).
  - intros eid n p [He ->]%Hl. by intros ?%elem_of_nil.
Qed.

Lemma system_simulated eids ns :
  system_reachable eids ns -> exists w, world_reachable self chainid hubEid eids w /\ simulates ns w.
Proof.
  induction 1 as [|ns ns' _ (w & Hr & Hs) Hst].
  - eexists. split; [apply wr_genesis | apply genesis_simulated].
  - by eapply step_simulated.
Qed.

(** ** What the bindings read *)

Context {W : Wire}.
Definition wire_quiet : Prop := forall name, wire_call name = Ok tt.

Lemma call_view_quiet {A} name (f : Contracts -> result string A) n a : wire_quiet -> f (n_site n) = Ok a -> call_view name f n = (n, Ok a).
Proof. intros Hq Hf. unfold call_view. erewrite M_bind_run by (unfold lift; by rewrite Hq). erewrite M_bind_run by done. unfold lift. by rewrite Hf. Qed.

Lemma query_quiet {A} name (decode : ChainEvent -> option A) address a b n :
  wire_quiet -> query name decode address a b n
  = (n, Ok (omap (fun l => if (a <=? ml_block l) && (ml_block l <=? b) then (fun x => (x, ml_block l)) <$> own_log address decode (ml_log l) else None) (n_logs n))).
Proof.
  intros Hq. unfold query. erewrite M_bind_run by (unfold lift; by rewrite Hq). unfold gets. do 2 f_equal. apply list_omap_ext, Forall2_same_length_lookup_2; [done|].
  intros i x y Hx Hy. assert (x = y) as -> by congruence. unfold own_log. destruct (log_address _ =? _), (a <=? _), (_ <=? b); done.
Qed.

Lemma broadcasts_served dp a b ls :
  (omap (fun l => if (a <=? ml_block l) && (ml_block l <=? b) then (fun x => (x, ml_block l)) <$> own_log (dp_hub dp) as_aggregation_root_updated (ml_log l) else None) ls).*1
  = (filter (fun x => a <= x.1 <= b) (hub_log dp ls)).*2.
Proof.
  unfold hub_log. induction ls as [|l ls IH]; [done|]. cbn [omap list_omap]. unfold own_broadcast at 1. destruct (own_log _ _ _) as [e|]; cbn [fmap option_fmap option_map].
  - rewrite filter_cons. cbn [fst]. case_decide as Hd.
    + rewrite (proj2 (andb_true_iff _ _)) by (split; apply Z.leb_le; lia). rewrite !fmap_cons. by f_equal.
    + destruct ((a <=? ml_block l) && (ml_block l <=? b)) eqn:E; [|done]. apply andb_true_iff in E as [?%Z.leb_le ?%Z.leb_le]. by destruct Hd.
  - by destruct (_ && _).
Qed.

Lemma transfers_served dp a b ls :
  ((fun '((index, from, to, value), block) => mkIndexedTransferLog index from to value (Some block))
   <$> omap (fun l => if (a <=? ml_block l) && (ml_block l <=? b) then (fun x => (x, ml_block l)) <$> own_log (dp_token dp) as_indexed_transfer (ml_log l) else None) ls)
  = filter (log_in_blocks a b) (token_logs dp ls).
Proof.
  unfold token_logs. induction ls as [|l ls IH]; [done|]. cbn [omap list_omap]. unfold own_transfer at 1. destruct (own_log _ _ _) as [[[[i f] t] v]|]; cbn [fmap option_fmap option_map].
  - rewrite filter_cons. case_decide as Hd; unfold log_in_blocks, in_blocks in Hd; cbn in Hd.
    + rewrite (proj2 (andb_true_iff _ _)) by (split; apply Z.leb_le; lia). rewrite !fmap_cons. by f_equal.
    + destruct ((a <=? ml_block l) && (ml_block l <=? b)) eqn:E; [|done]. apply andb_true_iff in E as [?%Z.leb_le ?%Z.leb_le]. by destruct Hd.
  - by destruct (_ && _).
Qed.

Abbreviation token_view eid n := (token_node (dps eid) (ZErc20Contract_new (dp_token (dps eid))) n).
Abbreviation hub_view n := (hub_node (dps hubEid) (HubContract_new (dp_hub (dps hubEid))) n).
Abbreviation verifier_views eid n := (verifier_node (dps eid) (VerifierContract_new (dp_verifier (dps eid))) n).

Lemma token_logs_block dp n k l :
  Forall (fun x => 0 <= ml_block x <= n_block n) (n_logs n) -> token_logs dp (n_logs n) !! k = Some l ->
  exists b, lg_block_number l = Some b /\ 0 <= b <= n_block n.
Proof.
  intros Hb Hl. apply list_elem_of_lookup_2 in Hl. unfold token_logs in Hl. apply list_elem_of_omap in Hl as (x & Hx & E). rewrite Forall_forall in Hb.
  unfold own_transfer in E. destruct (own_log _ _ _) as [[[[i f] t] v]|]; [|done]. injection E as <-. exists (ml_block x). split; [done | by apply Hb].
Qed.

Lemma latest_block_quiet n : wire_quiet -> get_block_number n = (n, Ok (n_block n)).
Proof. intros Hq. unfold get_block_number. by erewrite M_bind_run by (unfold lift; by rewrite Hq). Qed.

(** The indexer's node. *)
Lemma node_serves_indexer eid n :
  wire_quiet -> node_ok (dps eid) (addresses eid) n -> n_block n < i64_max -> Z.of_nat (length (token_logs (dps eid) (n_logs n))) < i64_max ->
  node_view (token_view eid n) (token_logs (dps eid) (n_logs n)) (n_block n).
Proof.
  intros Hq Hok Hb Hlen. pose proof (no_block _ _ _ Hok). split; cbn [token_node eth_get_block_number eth_index eth_indexed_transfer_logs].
  - unfold shown, ZErc20Contract_latest_block. by rewrite latest_block_quiet.
  - lia.
  - exists (index (s_token (n_site n))). split; [|rewrite (no_index _ _ _ Hok); lia]. unfold shown, on_token. erewrite call_view_quiet; [reflexivity | done |].
    unfold token_at_address. cbn [ZErc20Contract_new ze_address]. by rewrite Z.eqb_refl.
  - intros a b _ _. unfold shown, ZErc20Contract_indexed_transfer_logs. erewrite M_bind_run by by apply query_quiet. cbn [ZErc20Contract_new ze_address snd map_err mret M_ret].
    by rewrite transfers_served.
  - intros k l Hl. split; [by eapply no_numbers|]. eapply token_logs_block; [apply Hok | done].
Qed.

Lemma sorted_hub_log dp ls : StronglySorted (fun x y => ml_block x <= ml_block y) ls -> StronglySorted (fun x y => x.1 <= y.1) (hub_log dp ls).
Proof.
  unfold hub_log. induction 1 as [|l ls _ IH Hl]; [constructor|]. cbn [omap list_omap]. unfold own_broadcast at 1. destruct (own_log _ _ _) as [e|]; [|exact IH].
  cbn [fmap option_fmap option_map]. constructor; [exact IH|]. apply Forall_forall. intros y (x & Hx & E)%list_elem_of_omap. rewrite Forall_forall in Hl.
  unfold own_broadcast in E. destruct (own_log _ _ (ml_log x)); [|done]. injection E as <-. by apply Hl.
Qed.

Lemma hub_log_blocks dp n : Forall (fun l => 0 <= ml_block l <= n_block n) (n_logs n) -> Forall (fun x => 0 <= x.1 <= n_block n) (hub_log dp (n_logs n)).
Proof.
  intros Hb. apply Forall_forall. intros y (x & Hx & E)%list_elem_of_omap. rewrite Forall_forall in Hb.
  unfold own_broadcast in E. destruct (own_log _ _ (ml_log x)); [|done]. injection E as <-. by apply Hb.
Qed.

(** The clients' hub and verifier. *)
Lemma nodes_serve_clients ns w m eid n :
  wire_quiet -> simulates ns w -> ns !! hubEid = Some m -> ns !! eid = Some n -> n_block m < 2 ^ 63 ->
  client_views w (s_verifier (n_site n)) (hub_view m) (verifier_views eid n) (n_block m) (hub_log (dps hubEid) (n_logs m)).
Proof.
  intros Hq Hs Hm Hn Hb. destruct (sim_hub _ _ Hs _ Hm) as (H1 & H2 & _). pose proof (sim_nodes _ _ Hs _ _ Hm) as Hok. pose proof (no_block _ _ _ Hok).
  split; cbn [hub_node hub_chain_ids verifier_node view_latest_agg_seq view_global_transfer_root].
  - exact H2.
  - split; cbn [hub_node hub_latest_block hub_aggregation_root_events].
    + unfold shown, HubContract_latest_block. by rewrite latest_block_quiet.
    + lia.
    + apply sorted_hub_log, Hok.
    + apply hub_log_blocks, Hok.
    + intros a b _. unfold shown, HubContract_aggregation_root_events. erewrite M_bind_run by by apply query_quiet. cbn [HubContract_new hb_address snd map_err mret M_ret].
      by rewrite broadcasts_served.
  - unfold shown, HubContract_token_infos, on_hub. erewrite M_bind_run.
    2:{ erewrite M_bind_run; [reflexivity|]. apply call_view_quiet; [done|]. unfold hub_at_address, hub_of. cbn [HubContract_new hb_address]. rewrite Z.eqb_refl, H1. reflexivity. }
    cbn [mret M_ret snd map_err]. unfold getTokenInfos. by rewrite <- list_fmap_compose.
  - unfold shown, VerifierContract_latest_agg_seq, on_verifier. erewrite call_view_quiet; [reflexivity | done |].
    unfold verifier_at_address. cbn [VerifierContract_new vc_address]. by rewrite Z.eqb_refl.
  - intros seq. unfold shown, VerifierContract_global_transfer_root, on_verifier. erewrite call_view_quiet; [reflexivity | done |].
    unfold verifier_at_address. cbn [VerifierContract_new vc_address]. by rewrite Z.eqb_refl.
Qed.

End system.

(** ** Transactions *)

Section transactions.
Context {W : Wire} {SL : SignatureLib} (dp : Deployment).

(** A sent transaction reverts or takes effect in the next block, after what others had included. *)
Lemma send_cases name legacy key call n n' r :
  send name legacy key call n = (n', Ok r) ->
  exists sender, get_address_from_private_key key = Ok sender /\ n_block n' = n_block (wire_others n) + 1
    /\ (legacy = true <-> is_Some (rc_gas_price r))
    /\ ((rc_status r = false /\ rc_logs r = [] /\ n_site n' = n_site (wire_others n) /\ n_logs n' = n_logs (wire_others n))
        \/ exists o, call sender (n_site (wire_others n)) = Ok o /\ rc_status r = true /\ rc_logs r = o_logs o /\ n' = grown (n_block (wire_others n) + 1) o (wire_others n)).
Proof.
  unfold send, signer_of. intros H. apply M_bind_ok in H as (n1 & sender & Hs & H). injection Hs as <- Hs. exists sender.
  assert (get_address_from_private_key key = Ok sender) as Ha by (destruct (get_address_from_private_key key); [by injection Hs as -> | done]).
  split; [done|]. unfold send_call_with_legacy in H. apply M_bind_ok in H as (n2 & gas & Hg & H). apply M_bind_ok in H as (n3 & [] & Hw & H).
  injection Hw as <- _. assert (n2 = n /\ (legacy = true <-> is_Some gas)) as [-> Hgas].
  { destruct legacy; [|injection Hg as <- <-; split; [done|]; split; [done | by intros [? ?]]].
    apply M_bind_ok in Hg as (n4 & p & Hp & Hg). injection Hp as <- _. injection Hg as <- <-. split; [done|]. by split; [exists p|]. }
  unfold include, mine in H. destruct (call sender (n_site (wire_others n))) as [o|e] eqn:E; injection H as <- <-; cbn [n_block rc_gas_price rc_status rc_logs n_site n_logs];
    (split; [done|]; split; [done|]); [right; by exists o | by left].
Qed.

Lemma verifier_at_own {A} (f : Contracts -> result string A) legacy s :
  verifier_at_address dp (VerifierContract_with_legacy_tx legacy (VerifierContract_new (dp_verifier dp))) f s = f s.
Proof. unfold verifier_at_address. cbn [VerifierContract_new VerifierContract_with_legacy_tx vc_address]. by rewrite Z.eqb_refl. Qed.
Lemma hub_at_own {A} (f : Contracts -> result string A) legacy s :
  hub_at_address dp (HubContract_with_legacy_tx legacy (HubContract_new (dp_hub dp))) f s = f s.
Proof. unfold hub_at_address. cbn [HubContract_new HubContract_with_legacy_tx hb_address]. by rewrite Z.eqb_refl. Qed.

(** What a receipt says: the call reverted and nothing happened, or the parsed event describes the effect. *)
Definition reports {A} (parsed : result ContractError A) (name : string) (n n' : Node) (effect : A -> Prop) : Prop :=
  (parsed = Err (MissingEvent name) /\ n_site n' = n_site n /\ n_logs n' = n_logs n) \/ exists a, parsed = Ok a /\ effect a.

Abbreviation verifier legacy := (VerifierContract_with_legacy_tx legacy (VerifierContract_new (dp_verifier dp))).
Abbreviation hub legacy := (HubContract_with_legacy_tx legacy (HubContract_new (dp_hub dp))).
Abbreviation v_of n := (s_verifier (n_site n)).

Lemma reserve_reported legacy key n n' r :
  VerifierContract_reserve_hash_chain dp (verifier legacy) key n = (n', Ok r) ->
  let n0 := wire_others n in
  reports (VerifierContract_parse_hash_chain_reserved r) "HashChainReserved" n0 n' (fun '(i, h) =>
    i = as_u64 (index (s_token (n_site n0))) /\ h = hashChain (s_token (n_site n0)) /\ latestReservedIndex (v_of n') = i /\ slot (reservedHashChains (v_of n')) i = h).
Proof.
  intros H n0. apply send_cases in H as (sender & _ & _ & _ & [(_ & El & Es & En)|(o & Ho & _ & El & ->)]); unfold reports, VerifierContract_parse_hash_chain_reserved; rewrite El.
  - by left.
  - rewrite verifier_at_own in Ho. injection Ho as <-. right. eexists. split; [reflexivity|]. cbn. split_and!; [done..|]. unfold slot. by rewrite lookup_insert_eq.
Qed.

Lemma prove_reported legacy key proof n n' r :
  VerifierContract_prove_transfer_root dp decider_at (verifier legacy) key proof n = (n', Ok r) ->
  let n0 := wire_others n in
  reports (VerifierContract_parse_transfer_root_proved r) "TransferRootProved" n0 n' (fun '(i, root) => slot (provedTransferRoots (v_of n')) i = root /\ paused (v_of n') = false)
  \/ VerifierContract_parse_transfer_root_proved r = Err (MissingEvent "TransferRootProved")
     /\ exists i r1 r2, VerifierContract_parse_emergency_triggered r = Ok (i, r1, r2) /\ slot (provedTransferRoots (v_of n')) i = r1 /\ r1 <> r2 /\ paused (v_of n') = true.
Proof.
  intros H n0. apply send_cases in H as (sender & _ & _ & _ & [(_ & El & Es & En)|(o & Ho & _ & El & ->)]);
    unfold reports, VerifierContract_parse_transfer_root_proved, VerifierContract_parse_emergency_triggered; rewrite El.
  - left. by left.
  - rewrite verifier_at_own in Ho. apply result_bind_ok in Ho as ([v' events] & Hp%reverted_ok & Ho). injection Ho as <-.
    unfold proveTransferRoot, prove_decoded in Hp. apply result_bind_ok in Hp as ([] & Hpa & Hp). apply require_ok in Hpa. apply negb_true_iff in Hpa.
    do 6 apply result_bind_ok in Hp as (? & _ & Hp). if_case_in Hp E; injection Hp as <- <-.
    + right. split; [reflexivity|]. do 3 eexists. split; [reflexivity|]. cbn. by split_and!.
    + left. right. eexists. split; [reflexivity|]. cbn. split; [|exact Hpa]. unfold slot. by rewrite lookup_insert_eq.
Qed.

Lemma relay_reported legacy key fee options n n' r :
  VerifierContract_relay_transfer_root dp (verifier legacy) key fee options n = (n', Ok r) ->
  let n0 := wire_others n in
  reports (VerifierContract_parse_transfer_root_relayed r) "TransferRootRelayed" n0 n' (fun '(i, root, _) =>
    i = latestProvedIndex (v_of n0) /\ root = slot (provedTransferRoots (v_of n0)) i /\ latestRelayedIndex (v_of n') = i /\ n_relays n' = n_relays n0 ++ [abi_encode_words [root; i]]).
Proof.
  intros H n0. apply send_cases in H as (sender & _ & _ & _ & [(_ & El & Es & En)|(o & Ho & _ & El & ->)]); unfold reports, VerifierContract_parse_transfer_root_relayed; rewrite El.
  - by left.
  - rewrite verifier_at_own in Ho. apply result_bind_ok in Ho as ([[v' events] payload] & Hp%reverted_ok & Ho). injection Ho as <-.
    unfold relayTransferRoot in Hp. do 5 apply result_bind_ok in Hp as (? & _ & Hp). injection Hp as <- <- <-. right. eexists. by split; [reflexivity|].
Qed.

Lemma teleport_reported_common g hint root recipient gr value (R : result Revert (Token * Verifier * list VerifierEvent)) n0 o :
  R = teleport_common (dp_verifier dp) (dp_chainid dp) g hint root recipient gr value (s_token (n_site n0)) (v_of n0) ->
  run_teleport dp R (n_site n0) = Ok o ->
  exists to x, parse_log "Teleport" as_teleport (o_logs o) = Ok (to, x) /\ to = gr_address gr mod 2 ^ 160 /\ 0 < x
    /\ slot (totalTeleported (s_verifier (o_site o))) (to_u256 gr) = slot (totalTeleported (v_of n0)) (to_u256 gr) + x
    /\ erc20_mint to x (s_ledger (n_site n0)) = Some (s_ledger (o_site o))
    /\ afterTokenTransfer to x (s_token (n_site n0)) = Ok (s_token (o_site o)).
Proof.
  intros HR H. unfold run_teleport in H. apply result_bind_ok in H as ([[t' v'] events] & Hok%reverted_ok & H). rewrite HR in Hok.
  apply teleport_common_ok in Hok as (_ & _ & -> & _ & Hlt & -> & -> & _ & Ht). set (x := value - _) in *. set (to := gr_address gr mod 2 ^ 160) in *.
  apply result_bind_ok in H as (o1 & Ho & H). injection H as <-. unfold ZERC20_teleport in Ho. apply result_bind_ok in Ho as (? & _ & Ho).
  apply result_bind_ok in Ho as ([s1 logs] & Hm & Ho). injection Ho as <-. unfold token_move in Hm. apply result_bind_ok in Hm as (l' & Hl & Hm).
  apply result_bind_ok in Hm as (t1 & Ht1%reverted_ok & Hm). injection Hm as <- <-. cbn [set_verifier_state s_token s_ledger] in Ht1, Hl. rewrite Ht in Ht1. injection Ht1 as <-.
  exists to, x. split; [reflexivity|]. cbn. split_and!; [done | lia | | | done].
  - unfold slot. rewrite lookup_insert_eq. cbn. fold (slot (totalTeleported (v_of n0)) (to_u256 gr)). lia.
  - destruct (erc20_mint to x _); [by injection Hl as -> | done].
Qed.

Definition teleport_effect_on (gr : GeneralRecipient) (n0 n' : Node) (tx : Z * Z) : Prop :=
  tx.1 = gr_address gr mod 2 ^ 160 /\ 0 < tx.2
  /\ slot (totalTeleported (v_of n')) (to_u256 gr) = slot (totalTeleported (v_of n0)) (to_u256 gr) + tx.2
  /\ erc20_mint tx.1 tx.2 (s_ledger (n_site n0)) = Some (s_ledger (n_site n'))
  /\ afterTokenTransfer tx.1 tx.2 (s_token (n_site n0)) = Ok (s_token (n_site n')).

Lemma teleport_reported single legacy key g hint gr proof n n' r :
  (if single : bool then VerifierContract_single_teleport dp decider_at (verifier legacy) key g hint gr proof n
   else VerifierContract_teleport dp decider_at (verifier legacy) key g hint gr proof n) = (n', Ok r) ->
  reports (VerifierContract_parse_teleport r) "Teleport" (wire_others n) n' (teleport_effect_on gr (wire_others n) n').
Proof.
  destruct single; intros H; apply send_cases in H as (sender & _ & _ & _ & [(_ & El & Es & En)|(o & Ho & _ & El & ->)]);
    unfold reports, VerifierContract_parse_teleport; rewrite El; [by left | | by left |]; right; rewrite verifier_at_own in Ho; assert (Hr := Ho);
    unfold Verifier_singleTeleport, Verifier_teleport, run_teleport in Hr; apply result_bind_ok in Hr as ([[t' v'] events] & Hok%reverted_ok & _); assert (Hok' := Hok).
  - destruct (singleTeleport_ok _ _ _ _ _ _ _ _ _ _ _ Hok) as (_ & Hc). rewrite <- Hc in Hok'.
    destruct (teleport_reported_common _ _ _ _ _ _ _ _ _ Hok' Ho) as (to & x & Hp & Hrest). by exists (to, x).
  - destruct (teleport_ok _ _ _ _ _ _ _ _ _ _ _ Hok) as (_ & _ & _ & _ & _ & Hc). rewrite <- Hc in Hok'.
    destruct (teleport_reported_common _ _ _ _ _ _ _ _ _ Hok' Ho) as (to & x & Hp & Hrest). by exists (to, x).
Qed.

Lemma broadcast_reported legacy key targets options fee n n' r :
  HubContract_broadcast dp (hub legacy) key targets options fee n = (n', Ok r) ->
  let n0 := wire_others n in
  reports (HubContract_parse_aggregation_root_updated r) "AggregationRootUpdated" n0 n' (fun e =>
    exists h h', s_hub (n_site n0) = Some h /\ s_hub (n_site n') = Some h' /\ aggSeq h' = ag_agg_seq e /\ ag_agg_seq e = aggSeq h + 1
      /\ ag_snapshot e = transferRoots h /\ computeAggregationRoot (transferRoots h) (zeroHash h) = Some (ag_root e) /\ hub_isUpToDate h' = true).
Proof.
  intros H n0. apply send_cases in H as (sender & _ & _ & _ & [(_ & El & Es & En)|(o & Ho & _ & El & ->)]); unfold reports, HubContract_parse_aggregation_root_updated; rewrite El.
  - by left.
  - rewrite hub_at_own in Ho. apply result_bind_ok in Ho as (h & Hh%hub_of_ok & Ho). apply result_bind_ok in Ho as ([[h' events] sent] & Hp%reverted_ok & Ho). injection Ho as <-.
    apply broadcast_ok in Hp as (root & Hroot & _ & _ & -> & -> & _). right. eexists. split; [reflexivity|]. by eexists h, _.
Qed.

(** C30: A receipt read through the bindings tells what the transaction did.  When a transaction was sent by the verifier or hub binding
    (at whatever gas price, after whatever others had included in the meantime) and its receipt parsed: either the call
    reverted, the event is missing and nothing changed; or the parsed event is what the contract wrote - the reserved index and hash
    chain, the proved root (or, without such an event, the emergency that paused the contract), the relayed root with its message, the
    recipient and amount of a teleport, which the token minted and the recipient's total grew by, and the broadcast aggregation. *)
Theorem receipts_report_effects legacy key n n' r :
  let n0 := wire_others n in
  (VerifierContract_reserve_hash_chain dp (verifier legacy) key n = (n', Ok r) ->
     reports (VerifierContract_parse_hash_chain_reserved r) "HashChainReserved" n0 n' (fun '(i, h) =>
       i = as_u64 (index (s_token (n_site n0))) /\ h = hashChain (s_token (n_site n0)) /\ latestReservedIndex (v_of n') = i /\ slot (reservedHashChains (v_of n')) i = h))
  /\ (forall proof, VerifierContract_prove_transfer_root dp decider_at (verifier legacy) key proof n = (n', Ok r) ->
     reports (VerifierContract_parse_transfer_root_proved r) "TransferRootProved" n0 n' (fun '(i, root) => slot (provedTransferRoots (v_of n')) i = root /\ paused (v_of n') = false)
     \/ VerifierContract_parse_transfer_root_proved r = Err (MissingEvent "TransferRootProved")
        /\ exists i r1 r2, VerifierContract_parse_emergency_triggered r = Ok (i, r1, r2) /\ slot (provedTransferRoots (v_of n')) i = r1 /\ r1 <> r2 /\ paused (v_of n') = true)
  /\ (forall fee options, VerifierContract_relay_transfer_root dp (verifier legacy) key fee options n = (n', Ok r) ->
     reports (VerifierContract_parse_transfer_root_relayed r) "TransferRootRelayed" n0 n' (fun '(i, root, _) =>
       i = latestProvedIndex (v_of n0) /\ root = slot (provedTransferRoots (v_of n0)) i /\ latestRelayedIndex (v_of n') = i /\ n_relays n' = n_relays n0 ++ [abi_encode_words [root; i]]))
  /\ (forall single g hint gr proof,
     (if single : bool then VerifierContract_single_teleport dp decider_at (verifier legacy) key g hint gr proof n
      else VerifierContract_teleport dp decider_at (verifier legacy) key g hint gr proof n) = (n', Ok r) ->
     reports (VerifierContract_parse_teleport r) "Teleport" n0 n' (teleport_effect_on gr n0 n'))
  /\ (forall targets options fee, HubContract_broadcast dp (hub legacy) key targets options fee n = (n', Ok r) ->
     reports (HubContract_parse_aggregation_root_updated r) "AggregationRootUpdated" n0 n' (fun e =>
       exists h h', s_hub (n_site n0) = Some h /\ s_hub (n_site n') = Some h' /\ aggSeq h' = ag_agg_seq e /\ ag_agg_seq e = aggSeq h + 1
         /\ ag_snapshot e = transferRoots h /\ computeAggregationRoot (transferRoots h) (zeroHash h) = Some (ag_root e) /\ hub_isUpToDate h' = true)).
Proof.
  intros n0. split_and!.
  - apply reserve_reported.
  - intros proof. apply prove_reported.
  - intros fee options. apply relay_reported.
  - intros single g hint gr proof. apply teleport_reported.
  - intros targets options fee. apply broadcast_reported.
Qed.
End transactions.
End chain.

(** * Witnesses *)

Section witnesses.
#[local] Existing Instance toy_crypto.
#[local] Existing Instance toy_crypto_laws.
#[local] Existing Instance toy_poseidonT3.
#[local] Existing Instance toy_endpoint.

(** A ledger is its entries; the zero address neither sends nor receives. *)
Definition balance (l : list (Z * Z)) (a : Z) : Z := sum_Z ((fun e => if e.1 =? a then e.2 else 0) <$> l).
Definition debit (from value : Z) (l : list (Z * Z)) : option (list (Z * Z)) :=
  if (from =? 0) || (balance l from <? value) then None else Some ((from, - value) :: l).
Definition credit (to value : Z) (l : list (Z * Z)) : option (list (Z * Z)) :=
  if to =? 0 then None else Some ((to, value) :: l).
Definition demo_erc20 : ERC20 := {|
  Ledger := list (Z * Z);
  erc20_transfer := fun from to value l => debit from value l ≫= credit to value;
  erc20_mint := credit;
  erc20_burn := debit;
  erc20_balanceOf := balance;
|}.
#[local] Existing Instance demo_erc20.

Definition demo_deciders : Deciders :=
  {| rootDecider := fun _ => true; withdrawDecider := fun _ _ => true; singleWithdrawVerifier := fun _ _ _ => true |}.
#[local] Existing Instance demo_deciders.
Definition demo_wire : Wire := {|
  wire_call := fun _ => Ok tt;
  wire_send := fun _ => Ok tt;
  wire_gas_price := Ok 3;
  wire_others := fun n => n;
|}.
#[local] Existing Instance demo_wire.

(** The hub on endpoint 0, a token on endpoint 7. *)
Definition demo_dps (eid : Z) : Deployment := mkDeployment 8 9 10 3 1.
Definition demo_addresses (eid : Z) : DeciderAddresses := mkDeciderAddresses 11 12 13 14 15.
Definition demo_ledger (eid : Z) : Ledger := @nil (Z * Z).
Definition demo_reachable_from (eids : list Z) := system_reachable (fun _ => demo_deciders) demo_dps demo_addresses 0 (fun _ => 1) demo_ledger (fun _ => 6) eids.
Lemma demo_deployments : deployments (fun _ => demo_deciders) demo_dps demo_addresses (fun _ => 1).
Proof. split; [by split | done | by intros]. Qed.

(** A mint, a log of another contract that looks like a broadcast, a transfer, a registration, a broadcast
    and its delivery. *)
Lemma demo_history : exists (ns : gmap Z Node) m n, demo_reachable_from [7; 0] ns /\ ns !! 0 = Some m /\ ns !! 7 = Some n
  /\ token_logs (demo_dps 7) (n_logs n) = [mkIndexedTransferLog 0 0 5 30 (Some 2); mkIndexedTransferLog 1 5 77 10 (Some 4)]
  /\ n_block m = 7 /\ n_block n = 8 /\ length (hub_log (demo_dps 0) (n_logs m)) = 1%nat /\ latestAggSeq (s_verifier (n_site n)) = 1.
Proof.
  pose proof (sr_genesis (fun _ => demo_deciders) demo_dps demo_addresses 0 (fun _ => 1) demo_ledger (fun _ => 6) [7; 0]) as H.
  unfold node_genesis, genesis, Verifier_init in H. cbn [ch_token ch_verifier] in H. rewrite toy_root_0 in H.
  eapply sr_step in H; [|eapply (ss_node _ _ _ _ 7); [vm_compute; reflexivity|]; eapply (ns_call _ _ _ _ _ 2); [|cbn; lia]; eapply (sc_mint _ _ 6 _ _ 5 30); [lia | lia | vm_compute; reflexivity]].
  eapply sr_step in H; [|eapply (ss_node _ _ _ _ 0); [vm_compute; reflexivity|]; eapply (ns_others _ _ _ [mkLog 66 (HubLog (AggregationRootUpdated 1 1 [] []))] 3); [cbn; lia|];
    apply Forall_singleton; split; done].
  eapply sr_step in H; [|eapply (ss_node _ _ _ _ 7); [vm_compute; reflexivity|]; eapply (ns_call _ _ _ _ _ 4); [|cbn; lia]; eapply (sc_transfer _ _ 5 _ _ 77 10); [lia | lia | vm_compute; reflexivity]].
  eapply sr_step in H; [|eapply (ss_node _ _ _ _ 0); [vm_compute; reflexivity|]; eapply (ns_call _ _ _ _ _ 5); [|cbn; lia]; eapply (sc_register _ _ 3 _ _ (mkTokenInfo 1 7 9 8)); vm_compute; reflexivity].
  eapply sr_step in H; [|eapply (ss_node _ _ _ _ 0); [vm_compute; reflexivity|]; eapply (ns_call _ _ _ _ _ 7); [|cbn; lia]; eapply (sc_broadcast _ _ 4 _ _ [7] [] 5); vm_compute; reflexivity].
  eapply sr_step in H; [|eapply (ss_chain_receive _ _ _ _ 7 _ _ _ _ _ 8); [vm_compute; reflexivity | vm_compute; reflexivity | vm_compute; by left | vm_compute; reflexivity | vm_compute; discriminate]].
  eexists _, _, _. split; [exact H|]. split_and!; vm_compute; reflexivity.
Qed.


#[local] Existing Instance toy_signatures.

(** A reservation after two transfers, as a legacy transaction. *)
Definition demo_reserve_site : Contracts := mkContracts (mkToken 2 55 9) (demo_ledger 7) 6 (Verifier_init 0 1) (demo_addresses 7) None.
Definition demo_reserve_node : Node := mkNode 20 demo_reserve_site [] [] [].
Definition demo_reservation : Node * result ContractError TxReceipt :=
  VerifierContract_reserve_hash_chain (demo_dps 7) (VerifierContract_with_legacy_tx true (VerifierContract_new 9)) 3 demo_reserve_node.

Lemma receipts_report_effects_witness :
  exists n' r, demo_reservation = (n', Ok r) /\ rc_gas_price r = Some 3 /\ VerifierContract_parse_hash_chain_reserved r = Ok (2, 55)
    /\ reports (VerifierContract_parse_hash_chain_reserved r) "HashChainReserved" demo_reserve_node n' (fun '(i, h) =>
         i = as_u64 (index (s_token (n_site demo_reserve_node))) /\ h = hashChain (s_token (n_site demo_reserve_node))
         /\ latestReservedIndex (s_verifier (n_site n')) = i /\ slot (reservedHashChains (s_verifier (n_site n'))) i = h).
Proof.
  destruct demo_reservation as [n' [r|e]] eqn:E; [|by vm_compute in E]. exists n', r. split; [done|].
  assert (rc_gas_price r = Some 3 /\ VerifierContract_parse_hash_chain_reserved r = Ok (2, 55)) as [H1 H2].
  { assert (demo_reservation.2 = Ok r) as Er by by rewrite E. vm_compute in Er. injection Er as <-. by split. }
  split; [exact H1|]. split; [exact H2|].
  destruct (receipts_report_effects (fun _ => demo_deciders) (demo_dps 7) true 3 demo_reserve_node n' r) as [H _]. exact (H E).
Defined.
End witnesses.
