(* ===== verification/Minter.v ===== *)
(** [contracts/src/Minter.sol] and its binding [client-common/src/contracts/minter.rs]: the liquidity adapter, which mints zERC20 against
    deposits of the native currency or of an ERC-20 token and burns it on withdrawals.

    The assets of a chain are the balances of the native currency, the ledger of the underlying token, which is external ([Underlying]) and
    not the zERC20 itself, and the storage of the adapter.  The entry points run on the assets and the chain's contracts; the guard against
    reentrance makes them atomic for the adapter. *)

From S2P Require Import Prelude Words Crypto BitPaths MerkleTrees Gadgets Circuits Database OnChain Events Leases Jobs Teleport Hub Payment Storage Cli Redeem Bindings.
Local Open Scope Z_scope.

(** [balanceOf], [safeTransferFrom(from, to, amount)] by a spender and [safeTransfer(to, amount)] by a holder; [None] is a revert. *)
Class Underlying := {
  ULedger : Type;
  u_balanceOf : ULedger -> Z -> Z;
  safeTransferFrom : Z -> Z -> Z -> Z -> ULedger -> option ULedger;
  safeTransfer : Z -> Z -> Z -> ULedger -> option ULedger;
}.

Inductive MinterEvent :=
| NativeDeposited (account amount : Z)
| TokenDeposited (account amount : Z)
| NativeWithdrawn (account amount : Z)
| TokenWithdrawn (account amount : Z).

Section minter.
Context {C : Crypto} {E20 : ERC20} {U : Underlying}.

Record Minter := mkMinter {
  zerc20Token : Z;
  tokenAddress : Z;
  m_owner : Z;
}.
Definition Minter_initialize (zerc20Token_ tokenAddress_ initialOwner : Z) : result string Minter :=
  _ ← demand (negb (zerc20Token_ =? 0)) "ZeroZerc20Token";
  _ ← demand (negb (initialOwner =? 0)) "ZeroOwner";
  Ok (mkMinter zerc20Token_ tokenAddress_ initialOwner).

Record Assets := mkAssets {
  as_minter : Minter;
  as_native : gmap Z Z;
  as_underlying : ULedger;
  as_events : list MinterEvent;
}.
Definition set_native (m : gmap Z Z) (a : Assets) : Assets := mkAssets (as_minter a) m (as_underlying a) (as_events a).
Definition set_underlying (u : ULedger) (a : Assets) : Assets := mkAssets (as_minter a) (as_native a) u (as_events a).
Definition log_event_of (e : MinterEvent) (a : Assets) : Assets := mkAssets (as_minter a) (as_native a) (as_underlying a) (as_events a ++ [e]).

(** The adapter's address, the contracts it works with, the accounts that accept native currency, and the topics of the adapter's events. *)
Context (self : Z) (dp : Deployment) (accepts : Z -> bool) (topic0 : MinterEvent -> Z).

(** A payment in the native currency. *)
Definition pay_native (from to amount : Z) (m : gmap Z Z) : result string (gmap Z Z) :=
  _ ← demand (amount <=? slot m from) "insufficient funds";
  let m' := <[from := slot m from - amount]> m in
  Ok (<[to := slot m' to + amount]> m').

(** The calls of [IMintableBurnableERC20(zerc20Token)]. *)
Definition call_mint (to amount : Z) (a : Assets) (s : Contracts) : result string Outcome :=
  _ ← demand (zerc20Token (as_minter a) =? dp_token dp) "no contract code at the address";
  ZERC20_mint dp self to amount s.
Definition call_burn (from amount : Z) (a : Assets) (s : Contracts) : result string Outcome :=
  _ ← demand (zerc20Token (as_minter a) =? dp_token dp) "no contract code at the address";
  ZERC20_burn dp self from amount s.

(** An event of the adapter is not one the other contracts' bindings decode. *)
Definition minter_logs (e : MinterEvent) (o : Outcome) : Outcome :=
  mkOutcome (o_site o) (o_logs o ++ [mkLog self (OtherEvent (topic0 e))]) (o_relays o) (o_casts o).

Definition depositNative (sender msg_value : Z) (a : Assets) (s : Contracts) : result string (Assets * Outcome) :=
  native ← pay_native sender self msg_value (as_native a);
  let a' := set_native native a in
  _ ← demand (tokenAddress (as_minter a') =? 0) "NativeDisabled";
  let amount := msg_value in
  _ ← demand (negb (amount =? 0)) "ZeroAmount";
  o ← call_mint sender amount a' s;
  let e := NativeDeposited sender amount in
  Ok (log_event_of e a', minter_logs e o).

Definition depositToken (sender amount : Z) (a : Assets) (s : Contracts) : result string (Assets * Outcome) :=
  _ ← demand (negb (tokenAddress (as_minter a) =? 0)) "TokenDisabled";
  _ ← demand (negb (amount =? 0)) "ZeroAmount";
  u ← ok_or "execution reverted"%string (safeTransferFrom self sender self amount (as_underlying a));
  let a' := set_underlying u a in
  o ← call_mint sender amount a' s;
  let e := TokenDeposited sender amount in
  Ok (log_event_of e a', minter_logs e o).

Definition withdrawNative (sender amount : Z) (a : Assets) (s : Contracts) : result string (Assets * Outcome) :=
  _ ← demand (tokenAddress (as_minter a) =? 0) "NativeDisabled";
  _ ← demand (negb (amount =? 0)) "ZeroAmount";
  let available := slot (as_native a) self in
  _ ← demand (negb (available <? amount)) "InsufficientNativeLiquidity";
  o ← call_burn sender amount a s;
  native ← pay_native self sender amount (as_native a);
  _ ← demand (accepts sender) "NativeTransferFailed";
  let e := NativeWithdrawn sender amount in
  Ok (log_event_of e (set_native native a), minter_logs e o).

Definition withdrawToken (sender amount : Z) (a : Assets) (s : Contracts) : result string (Assets * Outcome) :=
  _ ← demand (negb (tokenAddress (as_minter a) =? 0)) "TokenDisabled";
  _ ← demand (negb (amount =? 0)) "ZeroAmount";
  let available := u_balanceOf (as_underlying a) self in
  _ ← demand (negb (available <? amount)) "InsufficientTokenLiquidity";
  o ← call_burn sender amount a s;
  u ← ok_or "execution reverted"%string (safeTransfer self sender amount (as_underlying a));
  let e := TokenWithdrawn sender amount in
  Ok (log_event_of e (set_underlying u a), minter_logs e o).

(** ** [minter.rs] *)

Record MinterContract := mkMinterContract { mc_address : Z; mc_legacy_tx : bool }.
Definition MinterContract_new (address : Z) : MinterContract := mkMinterContract address false.
Definition MinterContract_with_legacy_tx (legacy_tx : bool) (c : MinterContract) : MinterContract := mkMinterContract (mc_address c) legacy_tx.

(** [others]: what happens to the assets between a request and the inclusion of its transaction. *)
Context {W : Wire} {SL : SignatureLib} (others : Assets -> Assets).

Definition minter_at_address {A} (c : MinterContract) (f : Assets -> result string A) (a : Assets) : result string A :=
  _ ← demand (mc_address c =? self) "no contract code at the address"; f a.

Definition minter_view {A} (c : MinterContract) (name : string) (f : Minter -> A) : M (Node * Assets) ContractError A := fun '(n, a) =>
  let '(n', r) := call_view name (fun _ => minter_at_address c (fun a => Ok (f (as_minter a))) a) n in ((n', a), r).

(** A transaction that is mined and succeeds also changes the assets. *)
Definition minter_send (c : MinterContract) (name : string) (private_key : Z) (call : Z -> Assets -> Contracts -> result string (Assets * Outcome))
  : M (Node * Assets) ContractError TxReceipt := fun '(n, a) =>
  let tx sender s := minter_at_address c (fun a => call sender a s) (others a) in
  let '(n', r) := send name (mc_legacy_tx c) private_key (fun sender s => x ← tx sender s; Ok x.2) n in
  match r, get_address_from_private_key private_key with
  | Ok receipt, Ok sender =>
    match tx sender (n_site (wire_others n)) with Ok x => ((n', x.1), r) | Err _ => ((n', others a), r) end
  | _, _ => ((n', a), r)
  end.

Definition MinterContract_zerc20_token (c : MinterContract) : M (Node * Assets) ContractError Z := minter_view c "zerc20Token" zerc20Token.
Definition MinterContract_token_address (c : MinterContract) : M (Node * Assets) ContractError Z := minter_view c "tokenAddress" tokenAddress.
Definition MinterContract_deposit_native (c : MinterContract) (private_key amount : Z) : M (Node * Assets) ContractError TxReceipt :=
  minter_send c "depositNative" private_key (fun sender => depositNative sender amount).
Definition MinterContract_deposit_token (c : MinterContract) (private_key amount : Z) : M (Node * Assets) ContractError TxReceipt :=
  minter_send c "depositToken" private_key (fun sender => depositToken sender amount).
Definition MinterContract_withdraw_native (c : MinterContract) (private_key amount : Z) : M (Node * Assets) ContractError TxReceipt :=
  minter_send c "withdrawNative" private_key (fun sender => withdrawNative sender amount).
Definition MinterContract_withdraw_token (c : MinterContract) (private_key amount : Z) : M (Node * Assets) ContractError TxReceipt :=
  minter_send c "withdrawToken" private_key (fun sender => withdrawToken sender amount).
End minter.
