(* ===== verification/MinterSpec.v ===== *)
(** The liquidity adapter: the supply of the zERC20 on a chain is what was deposited and not withdrawn, plus what teleports minted; the adapter
    holds at least what was deposited and not withdrawn; and a holder's withdrawal succeeds exactly up to that liquidity.

    A vault is the chain's contracts, its assets and the logs so far.  Between two states somebody calls the adapter, an account other than the
    adapter calls the contracts (the owner keeps the adapter as the minter), storage that holds no balances changes (deliveries of LayerZero, other
    settings), other accounts move their assets, and other contracts emit logs. *)

From S2P Require Import Prelude Words Crypto BitPaths MerkleTrees Gadgets Circuits Folding Database OnChain OnChainSpec Events Leases Jobs Teleport Hub HubSpec CrossChainSpec TeleportFlow Payment Storage StorageSpec Cli Redeem RedeemSpec Bindings BindingsSpec Minter.
Local Open Scope Z_scope.

(** The documented behaviour of OpenZeppelin's [ERC20Upgradeable], with its [totalSupply]. *)
Class ERC20Laws (E : ERC20) := {
  totalSupply : Ledger -> Z;
  mint_supply to v l l' : erc20_mint to v l = Some l' -> totalSupply l' = totalSupply l + v;
  burn_supply from v l l' : erc20_burn from v l = Some l' -> totalSupply l' = totalSupply l - v;
  transfer_supply from to v l l' : erc20_transfer from to v l = Some l' -> totalSupply l' = totalSupply l;
  burn_balance from v l l' a : erc20_burn from v l = Some l' -> erc20_balanceOf l' a = erc20_balanceOf l a - (if a =? from then v else 0);
  burn_succeeds from v l : from <> 0 -> 0 <= v <= erc20_balanceOf l from -> is_Some (erc20_burn from v l);
}.

(** An ERC-20 token that moves the amount it is asked to move. *)
Class UnderlyingLaws (U : Underlying) := {
  from_balance spender from to v u u' a : safeTransferFrom spender from to v u = Some u' ->
    u_balanceOf u' a = u_balanceOf u a - (if a =? from then v else 0) + (if a =? to then v else 0);
  transfer_balance from to v u u' a : safeTransfer from to v u = Some u' ->
    u_balanceOf u' a = u_balanceOf u a - (if a =? from then v else 0) + (if a =? to then v else 0);
  transfer_succeeds from to v u : from <> 0 -> to <> 0 -> 0 <= v <= u_balanceOf u from -> is_Some (safeTransfer from to v u);
}.

Section vault.
Context {C : Crypto} {E20 : ERC20} {U : Underlying} {HE : ERC20Laws E20} {HU : UnderlyingLaws U} {P : PoseidonT3} {L : Endpoint}.
Context (decider_at : DeciderAddresses -> Deciders) (self : Z) (dp : Deployment) (accepts : Z -> bool) (topic0 : MinterEvent -> Z).

Definition deposit_of (e : MinterEvent) : Z := match e with NativeDeposited _ v | TokenDeposited _ v => v | _ => 0 end.
Definition withdrawal_of (e : MinterEvent) : Z := match e with NativeWithdrawn _ v | TokenWithdrawn _ v => v | _ => 0 end.
Definition deposited (events : list MinterEvent) : Z := sum_Z (deposit_of <$> events).
Definition withdrawn (events : list MinterEvent) : Z := sum_Z (withdrawal_of <$> events).
(** What the token minted by teleports, by its own logs. *)
Definition teleported (logs : list Log) : Z := sum_Z (snd <$> omap (own_log (dp_token dp) as_teleport) logs).
(** The balance of the adapter in the asset it wraps. *)
Definition native_mode (a : Assets) : bool := tokenAddress (as_minter a) =? 0.
Definition liquidity (a : Assets) : Z := if native_mode a then slot (as_native a) self else u_balanceOf (as_underlying a) self.

Definition adapter_call (sender amount : Z) (a : Assets) (s : Contracts) (r : Assets * Outcome) : Prop :=
  depositNative self dp topic0 sender amount a s = Ok r \/ depositToken self dp topic0 sender amount a s = Ok r
  \/ withdrawNative self dp accepts topic0 sender amount a s = Ok r \/ withdrawToken self dp topic0 sender amount a s = Ok r.

Record Vault := mkVault { vt_site : Contracts; vt_assets : Assets; vt_logs : list Log }.

Inductive vault_step (v : Vault) : Vault -> Prop :=
| vs_adapter sender amount a' o :
    sender <> self -> 0 <= amount -> adapter_call sender amount (vt_assets v) (vt_site v) (a', o) ->
    vault_step v (mkVault (o_site o) a' (vt_logs v ++ o_logs o))
| vs_call sender o :
    sender <> self -> site_call decider_at dp sender (vt_site v) o -> s_minter (o_site o) = s_minter (vt_site v) ->
    vault_step v (mkVault (o_site o) (vt_assets v) (vt_logs v ++ o_logs o))
| vs_storage s' :
    s_ledger s' = s_ledger (vt_site v) -> s_minter s' = s_minter (vt_site v) -> vault_step v (mkVault s' (vt_assets v) (vt_logs v))
| vs_others a' logs :
    as_minter a' = as_minter (vt_assets v) -> as_events a' = as_events (vt_assets v) ->
    slot (as_native (vt_assets v)) self <= slot (as_native a') self -> u_balanceOf (as_underlying (vt_assets v)) self <= u_balanceOf (as_underlying a') self ->
    Forall (fun l => log_address l <> dp_token dp) logs -> vault_step v (mkVault (vt_site v) a' (vt_logs v ++ logs)).

(** ** Accounting of one call *)

Context (Hself : self <> dp_token dp) (Hdp : deployed dp).

Lemma teleported_app l k : teleported (l ++ k) = teleported l + teleported k.
Proof. unfold teleported. by rewrite omap_app, fmap_app, sum_Z_app. Qed.
Lemma teleported_others logs : Forall (fun l => log_address l <> dp_token dp) logs -> teleported logs = 0.
Proof.
  induction 1 as [|l logs Hl _ IH]; [done|]. unfold teleported in *. destruct l as [ad e]. cbn [omap list_omap log_address] in *. by rewrite own_log_other.
Qed.

Lemma move_supply from to v l s s' logs :
  token_move dp from to v l s = Ok (s', logs) -> exists l', l = Some l' /\ s_ledger s' = l' /\ s_minter s' = s_minter s /\ teleported logs = 0.
Proof.
  unfold token_move. intros H. apply result_bind_ok in H as (l' & Hl & H). apply result_bind_ok in H as (t' & Ht & H). injection H as <- <-.
  destruct l as [l0|]; [|done]. injection Hl as ->. exists l'. split_and!; [done..|].
  unfold teleported. cbn [omap list_omap]. by rewrite !own_log_self.
Qed.

Lemma verifier_logs_free (events : list VerifierEvent) : teleported (mkLog (dp_verifier dp) ∘ VerifierLog <$> events) = 0.
Proof. apply teleported_others, Forall_fmap, Forall_true. intros e. cbn. destruct Hdp. congruence. Qed.
Lemma hub_logs_free (events : list HubEvent) : teleported (mkLog (dp_hub dp) ∘ HubLog <$> events) = 0.
Proof. apply teleported_others, Forall_fmap, Forall_true. intros e. cbn. destruct Hdp. congruence. Qed.

(** The token's supply. *)
Definition supply_of (s : Contracts) : Z := totalSupply (s_ledger s).
#[local] Arguments teleported : simpl never.
#[local] Ltac quiet_call := unfold run_verifier, run_hub, quiet_outcome; cbn [o_site o_logs]; rewrite ?verifier_logs_free, ?hub_logs_free; unfold supply_of; cbn; lia.

Lemma token_teleport_supply sender to v s o :
  ZERC20_teleport dp sender to v s = Ok o -> supply_of (o_site o) = supply_of s + teleported (o_logs o).
Proof.
  unfold ZERC20_teleport. intros H. apply result_bind_ok in H as (? & _ & H). apply result_bind_ok in H as ([s' logs] & Hm & H). injection H as <-.
  apply move_supply in Hm as (l' & Hl & Hs & _ & Ht). unfold supply_of, quiet_outcome. cbn [o_site o_logs]. rewrite Hs, (mint_supply _ _ _ _ Hl).
  rewrite teleported_app, Ht. unfold teleported. cbn [omap list_omap]. rewrite own_log_self. cbn. lia.
Qed.

Lemma run_teleport_supply r s o : run_teleport dp r s = Ok o -> supply_of (o_site o) = supply_of s + teleported (o_logs o).
Proof.
  unfold run_teleport. intros H. apply result_bind_ok in H as ([[t' v'] events] & _ & H). destruct events as [|[] [|]]; try discriminate H.
  pose proof (verifier_logs_free [OnChain.Teleport to value]) as Hq.
  apply result_bind_ok in H as (o' & Ho & H). injection H as <-. apply token_teleport_supply in Ho.
  cbn [o_site o_logs quiet_outcome]. etrans; [exact Ho|]. rewrite teleported_app. unfold supply_of, set_verifier_state in *. cbn in *. lia.
Qed.

(** A call of another account changes the supply by what its teleports mint. *)
Lemma call_supply sender s o :
  site_call decider_at dp sender s o -> s_minter s = self -> sender <> self -> supply_of (o_site o) = supply_of s + teleported (o_logs o).
Proof.
  intros Hc Hm Hs. destruct Hc as [to v _ _ H|to v _ _ H|from v _ H|to v _ H|m H|H|proof H|options v H|g hint gr proof H|g hint gr proof H|H|H|info H|info H|targets options v H].
  - apply result_bind_ok in H as ([s' logs] & (l' & Hl & <- & _ & Ht)%move_supply & H). injection H as <-. unfold supply_of. cbn. rewrite Ht, (transfer_supply _ _ _ _ _ Hl). lia.
  - apply result_bind_ok in H as ([] & Hd%demand_ok & H). apply Z.eqb_eq in Hd. congruence.
  - apply result_bind_ok in H as ([] & Hd%demand_ok & H). apply Z.eqb_eq in Hd. congruence.
  - by eapply token_teleport_supply.
  - apply result_bind_ok in H as ([] & _ & H). injection H as <-. unfold supply_of, teleported. cbn. rewrite own_log_self. cbn. lia.
  - injection H as <-. quiet_call.
  - apply result_bind_ok in H as ([v' events] & _ & H). injection H as <-. quiet_call.
  - apply result_bind_ok in H as ([[v' events] payload] & _ & H). injection H as <-. quiet_call.
  - by eapply run_teleport_supply.
  - by eapply run_teleport_supply.
  - apply result_bind_ok in H as (? & _ & H). apply result_bind_ok in H as ([v' events] & _ & H). injection H as <-. quiet_call.
  - apply result_bind_ok in H as (? & _ & H). apply result_bind_ok in H as ([v' events] & _ & H). injection H as <-. quiet_call.
  - do 2 apply result_bind_ok in H as (? & _ & H). apply result_bind_ok in H as ([h' events] & _ & H). injection H as <-. quiet_call.
  - do 2 apply result_bind_ok in H as (? & _ & H). apply result_bind_ok in H as ([h' events] & _ & H). injection H as <-. quiet_call.
  - apply result_bind_ok in H as (? & _ & H). apply result_bind_ok in H as ([[h' events] sent] & _ & H). injection H as <-. quiet_call.
Qed.

(** ** The adapter *)

Lemma pay_native_ok from to v m m' x :
  pay_native from to v m = Ok m' -> slot m' x = slot m x - (if x =? from then v else 0) + (if x =? to then v else 0).
Proof.
  unfold pay_native. intros H. apply result_bind_ok in H as (? & _ & H). injection H as <-. unfold slot at 1.
  destruct (Z.eqb_spec x to) as [->|Ht]; [rewrite lookup_insert_eq; cbn | rewrite lookup_insert_ne by done];
    unfold slot; match goal with |- context [<[from := _]> m !! ?y] => destruct (Z.eqb_spec y from) as [->|Hf];
      [rewrite lookup_insert_eq | rewrite lookup_insert_ne by done] end; cbn; lia.
Qed.

(** What a mint or a burn by the adapter does. *)
Lemma call_mint_ok to v a s o :
  call_mint self dp to v a s = Ok o ->
  s_minter (o_site o) = s_minter s /\ supply_of (o_site o) = supply_of s + v /\ teleported (o_logs o) = 0.
Proof.
  unfold call_mint, ZERC20_mint. intros H. do 2 apply result_bind_ok in H as (? & _ & H). apply result_bind_ok in H as ([s' logs] & Hm & H). injection H as <-.
  apply move_supply in Hm as (l' & Hl & Hs & Hm & Ht). unfold supply_of, quiet_outcome. cbn. rewrite Hs. split_and!; [done | by eapply mint_supply | done].
Qed.
Lemma call_burn_ok from v a s o :
  call_burn self dp from v a s = Ok o ->
  s_minter (o_site o) = s_minter s /\ supply_of (o_site o) = supply_of s - v /\ teleported (o_logs o) = 0
  /\ forall x, erc20_balanceOf (s_ledger (o_site o)) x = erc20_balanceOf (s_ledger s) x - (if x =? from then v else 0).
Proof.
  unfold call_burn, ZERC20_burn. intros H. do 2 apply result_bind_ok in H as (? & _ & H). apply result_bind_ok in H as ([s' logs] & Hm & H). injection H as <-.
  apply move_supply in Hm as (l' & Hl & Hs & Hm & Ht). unfold supply_of, quiet_outcome. cbn. rewrite Hs.
  split_and!; [done | by eapply burn_supply | done |]. intros y. by eapply burn_balance.
Qed.

(** The event of a call accounts for the change of the supply and of the liquidity. *)
Record accounted (a : Assets) (s : Contracts) (a' : Assets) (o : Outcome) (e : MinterEvent) : Prop := {
  ac_minter : as_minter a' = as_minter a;
  ac_role : s_minter (o_site o) = s_minter s;
  ac_event : as_events a' = as_events a ++ [e];
  ac_supply : supply_of (o_site o) = supply_of s + deposit_of e - withdrawal_of e;
  ac_liquidity : liquidity a' = liquidity a + deposit_of e - withdrawal_of e;
  ac_logs : teleported (o_logs o) = 0;
}.

Lemma minter_log_free e : teleported [mkLog self (OtherEvent (topic0 e))] = 0.
Proof. apply teleported_others, Forall_singleton. done. Qed.

Lemma adapter_accounted sender amount a s a' o :
  sender <> self -> adapter_call sender amount a s (a', o) -> exists e, accounted a s a' o e.
Proof.
  intros Hs Hc.
  assert (Hsn : (self =? sender) = false) by (apply Z.eqb_neq; congruence).
  destruct Hc as [H|[H|[H|H]]].
  - apply result_bind_ok in H as (m & Hp & H). apply result_bind_ok in H as ([] & Hd%demand_ok & H). apply result_bind_ok in H as (? & _ & H).
    apply result_bind_ok in H as (o' & (Hr & Hsu & Hl)%call_mint_ok & H). injection H as <- <-. exists (NativeDeposited sender amount).
    apply (pay_native_ok _ _ _ _ _ self) in Hp. rewrite Hsn, Z.eqb_refl in Hp. cbn in Hd.
    split; cbn; rewrite ?teleported_app, ?minter_log_free; try done; try lia. unfold liquidity, native_mode. cbn. rewrite Hd. lia.
  - apply result_bind_ok in H as ([] & Hd%demand_ok & H). apply result_bind_ok in H as (? & _ & H). apply result_bind_ok in H as (u & Hp & H).
    apply result_bind_ok in H as (o' & (Hr & Hsu & Hl)%call_mint_ok & H). injection H as <- <-. exists (TokenDeposited sender amount).
    destruct (safeTransferFrom _ _ _ _ _) as [u0|] eqn:Eu; [|done]. injection Hp as ->. apply (from_balance _ _ _ _ _ _ self) in Eu. rewrite Hsn, Z.eqb_refl in Eu.
    apply negb_true_iff in Hd. split; cbn; rewrite ?teleported_app, ?minter_log_free; try done; try lia. unfold liquidity, native_mode. cbn. rewrite Hd. lia.
  - apply result_bind_ok in H as ([] & Hd%demand_ok & H). do 2 apply result_bind_ok in H as (? & _ & H).
    apply result_bind_ok in H as (o' & (Hr & Hsu & Hl & _)%call_burn_ok & H). apply result_bind_ok in H as (m & Hp & H). apply result_bind_ok in H as (? & _ & H).
    injection H as <- <-. exists (NativeWithdrawn sender amount). apply (pay_native_ok _ _ _ _ _ self) in Hp. rewrite Hsn, Z.eqb_refl in Hp.
    split; cbn; rewrite ?teleported_app, ?minter_log_free; try done; try lia. unfold liquidity, native_mode. cbn. rewrite Hd. lia.
  - apply result_bind_ok in H as ([] & Hd%demand_ok & H). do 2 apply result_bind_ok in H as (? & _ & H).
    apply result_bind_ok in H as (o' & (Hr & Hsu & Hl & _)%call_burn_ok & H). apply result_bind_ok in H as (u & Hp & H).
    injection H as <- <-. exists (TokenWithdrawn sender amount).
    destruct (safeTransfer _ _ _ _) as [u0|] eqn:Eu; [|done]. injection Hp as ->. apply (transfer_balance _ _ _ _ _ self) in Eu. rewrite Hsn, Z.eqb_refl in Eu.
    apply negb_true_iff in Hd. split; cbn; rewrite ?teleported_app, ?minter_log_free; try done; try lia. unfold liquidity, native_mode. cbn. rewrite Hd. lia.
Qed.

(** ** The books *)

Lemma deposited_snoc l e : deposited (l ++ [e]) = deposited l + deposit_of e.
Proof. unfold deposited. rewrite fmap_app, sum_Z_app. cbn. lia. Qed.
Lemma withdrawn_snoc l e : withdrawn (l ++ [e]) = withdrawn l + withdrawal_of e.
Proof. unfold withdrawn. rewrite fmap_app, sum_Z_app. cbn. lia. Qed.

(** What the events and the logs say of the supply and the liquidity, from a starting point on. *)
Record books (v0 v : Vault) : Prop := {
  bk_minter : as_minter (vt_assets v) = as_minter (vt_assets v0);
  bk_role : s_minter (vt_site v) = self;
  bk_supply : supply_of (vt_site v) = supply_of (vt_site v0) + deposited (as_events (vt_assets v)) - withdrawn (as_events (vt_assets v)) + teleported (vt_logs v);
  bk_liquidity : liquidity (vt_assets v0) + deposited (as_events (vt_assets v)) - withdrawn (as_events (vt_assets v)) <= liquidity (vt_assets v);
}.

Lemma books_step v0 v v' : books v0 v -> vault_step v v' -> books v0 v'.
Proof.
  intros [Hm Hr Hs Hl] Hstep. destruct Hstep as [sender amount a' o Hn _ Hc|sender o Hn Hc Hk|s' Hled Hk|a' logs Hk He Hna Hu Hlogs]; cbn.
  - apply adapter_accounted in Hc as (e & [E1 E2 E3 E4 E5 E6]); [|done].
    split; cbn; rewrite ?E3, ?deposited_snoc, ?withdrawn_snoc, ?teleported_app, ?E6; [congruence | congruence | lia | lia].
  - apply call_supply in Hc; [|done..]. split; cbn; rewrite ?teleported_app; [done | congruence | lia | done].
  - split; cbn; unfold supply_of in *; [done | congruence | rewrite Hled; lia | done].
  - split; cbn; rewrite ?He, ?teleported_app, ?(teleported_others logs Hlogs); [congruence | done | lia |].
    etrans; [exact Hl|]. unfold liquidity, native_mode. rewrite Hk. case_match; lia.
Qed.

Lemma books_reachable v0 v :
  s_minter (vt_site v0) = self -> as_events (vt_assets v0) = [] -> vt_logs v0 = [] -> rtc vault_step v0 v -> books v0 v.
Proof.
  intros Hm He Hl. apply rtc_ind_r; [|intros ? ? _ Hs Hb; by eapply books_step].
  split; [done | done | |]; rewrite He, ?Hl; change (teleported []) with 0; change (deposited []) with 0; change (withdrawn []) with 0; lia.
Qed.

(** ** Withdrawals *)

Definition withdraw (sender amount : Z) (a : Assets) (s : Contracts) : result string (Assets * Outcome) :=
  if native_mode a then withdrawNative self dp accepts topic0 sender amount a s else withdrawToken self dp topic0 sender amount a s.
(** An account's balance in the wrapped asset. *)
Definition wealth (a : Assets) (x : Z) : Z := if native_mode a then slot (as_native a) x else u_balanceOf (as_underlying a) x.

(** A holder of the token that may withdraw an amount. *)
Record holds (holder amount : Z) (s : Contracts) : Prop := {
  ho_holder : holder <> 0 /\ holder <> self;
  ho_amount : 0 < amount <= MASK248;
  ho_balance : amount <= erc20_balanceOf (s_ledger s) holder;
  ho_index : index (s_token s) <> u256_max;
  ho_accepts : accepts holder = true;
}.

Lemma burn_goes holder amount a s :
  s_minter s = self -> zerc20Token (as_minter a) = dp_token dp -> holds holder amount s -> exists o, call_burn self dp holder amount a s = Ok o.
Proof.
  intros Hr Ht [Hh Ha Hb Hi _]. unfold call_burn, ZERC20_burn. rewrite Ht, Hr, !Z.eqb_refl. cbn.
  destruct (burn_succeeds holder amount (s_ledger s)) as [l' Hl]; [apply Hh | lia |]. unfold token_move. rewrite Hl. cbn.
  unfold afterTokenTransfer, require. rewrite (proj2 (Z.leb_le _ _)) by lia. cbn. rewrite (proj2 (Z.eqb_neq _ _)) by done. cbn. by eexists.
Qed.

(** A withdrawal pays the holder exactly when the adapter has the liquidity. *)
Definition paid_out (holder amount : Z) (a : Assets) (s : Contracts) (a' : Assets) (s' : Contracts) : Prop :=
  erc20_balanceOf (s_ledger s') holder = erc20_balanceOf (s_ledger s) holder - amount
  /\ wealth a' holder = wealth a holder + amount /\ liquidity a' = liquidity a - amount.

Lemma withdraw_pays holder amount a s :
  self <> 0 -> s_minter s = self -> zerc20Token (as_minter a) = dp_token dp -> holds holder amount s -> amount <= liquidity a ->
  exists a' o, withdraw holder amount a s = Ok (a', o) /\ paid_out holder amount a s a' (o_site o).
Proof.
  intros Hz Hr Ht Hh Hl. destruct (burn_goes _ _ _ _ Hr Ht Hh) as [o Ho]. pose proof (call_burn_ok _ _ _ _ _ Ho) as (_ & _ & _ & Hb). destruct Hh as [[H0 Hs] Ha _ _ Hacc].
  specialize (Hb holder). rewrite Z.eqb_refl in Hb.
  assert (Hsh : (holder =? self) = false) by (by apply Z.eqb_neq). assert (Hhs : (self =? holder) = false) by (apply Z.eqb_neq; congruence).
  unfold withdraw, paid_out, liquidity, wealth in *. destruct (native_mode a) eqn:Em; unfold native_mode in *.
  - unfold withdrawNative. rewrite Em. cbn. rewrite (proj2 (Z.eqb_neq amount 0)), (proj2 (Z.ltb_ge _ _)) by lia. cbn. rewrite Ho. cbn.
    unfold pay_native at 1. rewrite (proj2 (Z.leb_le _ _)) by lia. cbn. rewrite Hacc. cbn. eexists _, _. split; [reflexivity|]. cbn. rewrite Em.
    assert (Hp : pay_native self holder amount (as_native a) = Ok (<[holder:=slot (<[self:=slot (as_native a) self - amount]> (as_native a)) holder + amount]> (<[self:=slot (as_native a) self - amount]> (as_native a)))).
    { unfold pay_native. by rewrite (proj2 (Z.leb_le _ _)) by lia. }
    split_and!; [done | |]; rewrite (pay_native_ok _ _ _ _ _ _ Hp), ?Hsh, ?Hhs, Z.eqb_refl; lia.
  - unfold withdrawToken. rewrite Em. cbn. rewrite (proj2 (Z.eqb_neq amount 0)), (proj2 (Z.ltb_ge _ _)) by lia. cbn. rewrite Ho. cbn.
    destruct (transfer_succeeds self holder amount (as_underlying a)) as [u Hu]; [done..| lia |]. rewrite Hu. cbn. eexists _, _. split; [reflexivity|]. cbn. rewrite Em.
    split_and!; [done | |]; rewrite (transfer_balance _ _ _ _ _ _ Hu), ?Hsh, ?Hhs, Z.eqb_refl; lia.
Qed.

Lemma withdraw_refused holder amount a s : 0 < amount -> liquidity a < amount -> exists e, withdraw holder amount a s = Err e.
Proof.
  intros Ha Hl. unfold withdraw, liquidity in *. destruct (native_mode a) eqn:Em; unfold native_mode in *; [unfold withdrawNative | unfold withdrawToken]; rewrite Em; cbn;
    rewrite (proj2 (Z.eqb_neq amount 0)), (proj2 (Z.ltb_lt _ _)) by lia; by eexists.
Qed.

(** ** Through the binding *)

Context {W : Wire} {SL : SignatureLib} (others : Assets -> Assets).

(** The binding for the adapter, by its mode. *)
Definition binding_withdraw (legacy : bool) (a : Assets) (key amount : Z) : M (Node * Assets) ContractError TxReceipt :=
  let c := MinterContract_with_legacy_tx legacy (MinterContract_new self) in
  if native_mode a then MinterContract_withdraw_native self dp accepts topic0 others c key amount else MinterContract_withdraw_token self dp topic0 others c key amount.

Definition transport_up : Prop := (forall name, wire_send name = Ok tt) /\ exists p, wire_gas_price = Ok p.

Lemma send_mines name legacy key sender call n :
  transport_up -> get_address_from_private_key key = Ok sender ->
  exists gas, send name legacy key call n = (let '(n', r) := mine gas (call sender) (wire_others n) in (n', Ok r)).
Proof.
  intros [Hs [p Hp]] Ha. unfold send, signer_of, send_call_with_legacy, include. rewrite Ha. exists (if legacy then Some p else None).
  destruct legacy; cbn; unfold mbind, M_bind; cbn; rewrite ?Hp; cbn; rewrite Hs; done.
Qed.

(** What a mined withdrawal does, from the state it is mined in. *)
Lemma binding_withdraw_mined legacy key holder amount n a :
  transport_up -> get_address_from_private_key key = Ok holder ->
  exists n' a' receipt, binding_withdraw legacy (others a) key amount (n, a) = ((n', a'), Ok receipt)
    /\ match withdraw holder amount (others a) (n_site (wire_others n)) with
       | Ok (a1, o) => rc_status receipt = true /\ rc_logs receipt = o_logs o /\ n_site n' = o_site o /\ a' = a1
       | Err _ => rc_status receipt = false /\ n_site n' = n_site (wire_others n) /\ a' = others a
       end.
Proof.
  intros Ht Ha. set (tx := fun sender s => withdraw sender amount (others a) s).
  assert (Hb : binding_withdraw legacy (others a) key amount (n, a)
    = let '(n', r) := send (if native_mode (others a) then "withdrawNative" else "withdrawToken") legacy key (fun sender s => x ← tx sender s; Ok x.2) n in
      match r, get_address_from_private_key key with
      | Ok receipt, Ok sender => match tx sender (n_site (wire_others n)) with Ok x => ((n', x.1), r) | Err _ => ((n', others a), r) end
      | _, _ => ((n', a), r)
      end).
  { unfold binding_withdraw, tx, withdraw. destruct (native_mode (others a)); cbn; unfold minter_at_address; cbn; rewrite Z.eqb_refl; reflexivity. }
  rewrite Hb. destruct (send_mines (if native_mode (others a) then "withdrawNative" else "withdrawToken") legacy key holder (fun sender s => x ← tx sender s; Ok x.2) n Ht Ha) as [gas Hg].
  rewrite Hg, Ha. unfold mine. fold (tx holder (n_site (wire_others n))). destruct (tx holder (n_site (wire_others n))) as [[a1 o]|e]; cbn; eexists _, _, _; (split; [reflexivity|]); done.
Qed.

End vault.

(** * Witness: a deposit, a transfer, a teleport of the token, and a withdrawal in native mode *)

Section witness.
#[local] Existing Instance toy_crypto.
#[local] Existing Instance toy_poseidonT3.
#[local] Existing Instance toy_endpoint.
#[local] Existing Instance demo_erc20.
#[local] Existing Instance demo_deciders.
#[local] Existing Instance demo_wire.
#[local] Existing Instance toy_signatures.

Definition total (l : list (Z * Z)) : Z := sum_Z (snd <$> l).
Lemma total_cons x v l : total ((x, v) :: l) = v + total l.
Proof. reflexivity. Qed.
Lemma debit_ok from v l l' : debit from v l = Some l' -> l' = (from, - v) :: l.
Proof. unfold debit. case_match; [done|]. by intros [= <-]. Qed.
Lemma credit_ok to v l l' : credit to v l = Some l' -> l' = (to, v) :: l.
Proof. unfold credit. case_match; [done|]. by intros [= <-]. Qed.
Lemma move_ok from to v l l' : debit from v l ≫= credit to v = Some l' -> l' = (to, v) :: (from, - v) :: l.
Proof. intros (l1 & ->%debit_ok & H%credit_ok)%bind_Some. done. Qed.
Lemma debit_goes from v l : from <> 0 -> v <= balance l from -> debit from v l = Some ((from, - v) :: l).
Proof. intros H1 H2. unfold debit. by rewrite (proj2 (Z.eqb_neq _ _) H1), (proj2 (Z.ltb_ge _ _) H2). Qed.
Lemma balance_cons x v l a : balance ((x, v) :: l) a = (if a =? x then v else 0) + balance l a.
Proof. unfold balance. cbn. by rewrite (Z.eqb_sym x a). Qed.

#[local] Instance demo_erc20_laws : ERC20Laws demo_erc20.
Proof.
  refine {| totalSupply := total : @Ledger demo_erc20 -> Z |}.
  - intros to v l l' ->%credit_ok. etrans; [apply total_cons|]. lia.
  - intros from v l l' ->%debit_ok. etrans; [apply total_cons|]. lia.
  - intros from to v l l' ->%move_ok. etrans; [apply total_cons|]. rewrite total_cons. lia.
  - intros from v l l' a ->%debit_ok. etrans; [apply balance_cons|]. cbn [erc20_balanceOf demo_erc20]. case_match; lia.
  - intros from v l H0 H. cbn in *. rewrite debit_goes by lia. by eexists.
Defined.
Definition demo_underlying : Underlying := {|
  ULedger := list (Z * Z);
  u_balanceOf := balance;
  safeTransferFrom := fun _ from to v l => debit from v l ≫= credit to v;
  safeTransfer := fun from to v l => debit from v l ≫= credit to v;
|}.
#[local] Existing Instance demo_underlying.
#[local] Instance demo_underlying_laws : UnderlyingLaws demo_underlying.
Proof.
  split; cbn.
  - intros _ from to v l l' a ->%move_ok. rewrite !balance_cons. repeat case_match; lia.
  - intros from to v l l' a ->%move_ok. rewrite !balance_cons. repeat case_match; lia.
  - intros from to v l Hf Ht H. rewrite debit_goes by lia. cbn. unfold credit. rewrite (proj2 (Z.eqb_neq _ _) Ht). by eexists.
Qed.

(** The adapter is at address 6 and wraps the native currency, of which account 5 has 50; the key 3 is the toy signer of its own address. *)
Definition demo_vault : Vault :=
  mkVault (mkContracts (mkToken 0 0 9) (demo_ledger 7) 6 (Verifier_init 0 1) (demo_addresses 7) None)
    (mkAssets (mkMinter 8 0 3) (<[5 := 50]> ∅) (@nil (Z * Z)) []) [].
Definition demo_holder : Z := match get_address_from_private_key 3 with Ok a => a | Err _ => 0 end.
Definition demo_after_deposit : Vault :=
  match depositNative 6 (demo_dps 7) (fun _ => 1) 5 30 (vt_assets demo_vault) (vt_site demo_vault) with
  | Ok (a, o) => mkVault (o_site o) a (o_logs o) | Err _ => demo_vault end.
Definition demo_after_transfer : Vault :=
  match ZERC20_transfer (demo_dps 7) 5 demo_holder 12 (vt_site demo_after_deposit) with
  | Ok o => mkVault (o_site o) (vt_assets demo_after_deposit) (vt_logs demo_after_deposit ++ o_logs o) | Err _ => demo_vault end.
Definition demo_vault_node : Node := mkNode 4 (vt_site demo_after_transfer) [] [] [].

Lemma demo_vault_reaches :
  rtc (vault_step (fun _ => demo_deciders) 6 (demo_dps 7) (fun _ => true) (fun _ => 1)) demo_vault demo_after_transfer.
Proof.
  apply (rtc_l _ _ demo_after_deposit); [|apply rtc_once].
  - destruct (depositNative 6 (demo_dps 7) (fun _ => 1) 5 30 (vt_assets demo_vault) (vt_site demo_vault)) as [[a o]|] eqn:E; [|by vm_compute in E].
    assert (demo_after_deposit = mkVault (o_site o) a ([] ++ o_logs o)) as -> by (unfold demo_after_deposit; by rewrite E).
    apply (vs_adapter _ _ _ _ _ demo_vault 5 30); [lia | lia | by left].
  - destruct (ZERC20_transfer (demo_dps 7) 5 demo_holder 12 (vt_site demo_after_deposit)) as [o|] eqn:E; [|by vm_compute in E].
    assert (demo_after_transfer = mkVault (o_site o) (vt_assets demo_after_deposit) (vt_logs demo_after_deposit ++ o_logs o)) as -> by (unfold demo_after_transfer; by rewrite E).
    apply (vs_call _ _ _ _ _ demo_after_deposit 5); [lia | | vm_compute in E; injection E as <-; vm_compute; reflexivity].
    apply (sc_transfer _ _ 5 _ _ demo_holder 12); [split; vm_compute; done | lia | exact E].
Qed.

End witness.
