(* ===== verification/Params.v ===== *)
(** Parameters of the provers and the files that hold them: [zkp/src/nova/params.rs],
    [zkp/src/groth16/params.rs], [zkp/src/bin/generate_circuit_artifacts.rs], [decider-prover/src/circuits.rs] and the loaders of the indexer
    ([load_root_nova_params]) and of the command line ([load_withdraw_params], [load_single_withdraw_params]).

    Sonobe and arkworks are external ([Sonobe], [Groth16Lib]); a circuit type parameter [C] is its [CircuitKind].  Errors of the libraries are
    their messages.  The file system is a map from paths to contents.  The randomness of proofs ([OsRng]) is not modelled: a prover returns one
    of the proofs it may return. *)

From S2P Require Import Prelude Words Text Crypto BitPaths MerkleTrees Gadgets Circuits Database OnChain TreeDb Events Leases Jobs RootJob Teleport Payment Decider Storage Cli Redeem Indexer.
From Stdlib Require Import Ascii.
Local Open Scope Z_scope.

(** ** External libraries *)

(** [N<C>], [D<C>], their parameters and the conversion to calldata. *)
Class Sonobe := {
  StdRng : Type;
  seed_from_u64 : Z -> StdRng;
  NovaPP : Type;
  NovaVP : Type;
  NovaInstance : Type;
  NovaIvcProof : Type;
  DeciderPP : Type;
  DeciderVP : Type;
  DeciderProof : Type;
  G1 : Type;
  SnarkProof : Type;
  (** [N::preprocess], [N::init], [N::from_ivc_proof], [N::verify], [N::prove_step] and [N::ivc_proof] *)
  nova_preprocess : CircuitKind -> PoseidonConfig -> StdRng -> StdRng * result string (NovaPP * NovaVP);
  nova_init : CircuitKind -> PoseidonConfig -> NovaPP * NovaVP -> list Z -> result string NovaInstance;
  nova_from_ivc : CircuitKind -> PoseidonConfig -> NovaPP * NovaVP -> NovaIvcProof -> result string NovaInstance;
  nova_verify_ivc : NovaVP -> NovaIvcProof -> result string unit;
  nova_root_step : NovaInstance -> RootExternalInputs -> result string NovaInstance;
  nova_withdraw_step : NovaInstance -> WithdrawExternalInputs -> result string NovaInstance;
  nova_ivc : NovaInstance -> NovaIvcProof;
  (** the public fields of [N]: [i], [z_0], [z_i], [U_i] and [u_i] *)
  nova_i : NovaInstance -> Z;
  nova_z_0 : NovaInstance -> list Z;
  nova_z_i : NovaInstance -> list Z;
  U_cmW : NovaInstance -> G1;
  U_cmE : NovaInstance -> G1;
  u_cmW : NovaInstance -> G1;
  U_commitments : NovaInstance -> list G1;
  u_commitments : NovaInstance -> list G1;
  (** serialization without compression *)
  pp_serialize : NovaPP -> result string bytes;
  vp_serialize : NovaVP -> result string bytes;
  pp_deserialize : CircuitKind -> PoseidonConfig -> bytes -> result string NovaPP;
  vp_deserialize : CircuitKind -> PoseidonConfig -> bytes -> result string NovaVP;
  ivc_proof_serialize : NovaIvcProof -> result string bytes;
  ivc_proof_deserialize : bytes -> result string NovaIvcProof;
  dpp_serialize : DeciderPP -> result string bytes;
  dvp_serialize : DeciderVP -> result string bytes;
  dpp_deserialize : CircuitKind -> bytes -> result string DeciderPP;
  dvp_deserialize : CircuitKind -> bytes -> result string DeciderVP;
  (** [D::preprocess], [D::prove] and [D::verify] *)
  decider_preprocess : CircuitKind -> NovaPP * NovaVP -> nat -> StdRng -> StdRng * result string (DeciderPP * DeciderVP);
  decider_prove : DeciderPP -> NovaInstance -> result string DeciderProof;
  decider_verify : DeciderVP -> Z -> list Z -> list Z -> list G1 -> list G1 -> DeciderProof -> result string bool;
  proof_cmT : DeciderProof -> G1;
  proof_r : DeciderProof -> Z;
  proof_snark : DeciderProof -> SnarkProof;
  proof_challenges : DeciderProof -> list Z;
  (** the evaluation and the proof of the KZG openings *)
  proof_kzg : DeciderProof -> list (Z * G1);
  (** [ToEth] *)
  fr_to_eth : Z -> bytes;
  frs_to_eth : list Z -> bytes;
  g1_to_eth : G1 -> bytes;
  snark_to_eth : SnarkProof -> bytes;
  (** [get_decider_template_for_cyclefold_decider] *)
  decider_template : DeciderVP -> nat -> string;
}.

(** [Groth16::<Bn254>] and its Solidity template. *)
Class Groth16Lib (S : Sonobe) := {
  Groth16PK : Type;
  Groth16VK : Type;
  G16Proof : Type;
  groth16_setup : SingleWithdrawCircuit -> StdRng -> result string (Groth16PK * Groth16VK);
  pk_serialize : Groth16PK -> result string bytes;
  vk_serialize : Groth16VK -> result string bytes;
  pk_deserialize : bytes -> result string Groth16PK;
  vk_deserialize : bytes -> result string Groth16VK;
  g16_prove : Groth16PK -> SingleWithdrawCircuit -> result string G16Proof;
  g16_verify : Groth16VK -> list Z -> G16Proof -> result string bool;
  g16_to_eth : G16Proof -> bytes;
  inputs_to_eth : list Z -> bytes;
  groth16_template : Groth16VK -> string;
}.

(** ** [nova/params.rs] *)

Inductive NovaError :=
| DeserializationError (message : string)
| SerializationError (message : string)
| InitializationError (message : string)
| VerificationError (message : string)
| PreprocessError (message : string)
| DeciderProofError (message : string).

(** The messages of [thiserror]. *)
Definition NovaError_display (e : NovaError) : string :=
  match e with
  | DeserializationError m => "Deserialization Error: " +:+ m
  | SerializationError m => "Serialization Error: " +:+ m
  | InitializationError m => "Initialization Error: " +:+ m
  | VerificationError m => "Verification Error: " +:+ m
  | PreprocessError m => "Preprocess Error: " +:+ m
  | DeciderProofError m => "Decider Proof Error: " +:+ m
  end.

Section nova.
Context {S : Sonobe}.

Record NovaParams := mkNovaParams {
  np_f_params : PoseidonConfig;
  np_pp : NovaPP;
  np_vp : NovaVP;
}.
Record DeciderParams := mkDeciderParams { dp_pp : DeciderPP; dp_vp : DeciderVP }.

(** A library call that draws from the generator. *)
Definition draw {A} (wrap : string -> NovaError) (f : StdRng -> StdRng * result string A) : M StdRng NovaError A :=
  fun rng => let '(rng', r) := f rng in (rng', map_err wrap r).

Section circuit.
(** The circuit type [C]. *)
Context (kind : CircuitKind).

(** [FCircuit::new] of the circuits keeps the parameters. *)
Definition circuit_new (params : PoseidonConfig) : result string PoseidonConfig := Ok params.
Definition FCircuit_new (f_params : PoseidonConfig) : result NovaError PoseidonConfig :=
  map_err (fun e => InitializationError ("FCircuit Initialization: " +:+ e)) (circuit_new f_params).

Definition NovaParams_rand (f_params : PoseidonConfig) : M StdRng NovaError NovaParams :=
  lift (FCircuit_new f_params) ≫= fun circuit =>
  draw (fun e => PreprocessError ("Nova Preprocess: " +:+ e)) (nova_preprocess kind circuit) ≫= fun nova_params =>
  mret (mkNovaParams f_params nova_params.1 nova_params.2).

Definition NovaParams_from_bytes (f_params : PoseidonConfig) (pp_bytes vp_bytes : bytes) : result NovaError NovaParams :=
  nova_pp ← map_err (fun e => DeserializationError ("Nova Prover Params: " +:+ e)) (pp_deserialize kind f_params pp_bytes);
  nova_vp ← map_err (fun e => DeserializationError ("Nova Verifier Params: " +:+ e)) (vp_deserialize kind f_params vp_bytes);
  Ok (mkNovaParams f_params nova_pp nova_vp).

Definition NovaParams_to_bytes (p : NovaParams) : result NovaError (bytes * bytes) :=
  pp_bytes ← map_err (fun e => SerializationError ("Nova Prover Params: " +:+ e)) (pp_serialize (np_pp p));
  vp_bytes ← map_err (fun e => SerializationError ("Nova Verifier Params: " +:+ e)) (vp_serialize (np_vp p));
  Ok (pp_bytes, vp_bytes).

Definition NovaParams_initial_nova (p : NovaParams) (z0 : list Z) : result NovaError NovaInstance :=
  circuit ← FCircuit_new (np_f_params p);
  map_err (fun e => InitializationError ("Nova Initialization: " +:+ e)) (nova_init kind circuit (np_pp p, np_vp p) z0).

Definition NovaParams_nova_from_ivc_proof (p : NovaParams) (ivc_proof : NovaIvcProof) : result NovaError NovaInstance :=
  map_err (fun e => InitializationError ("Nova from IVC Proof: " +:+ e)) (nova_from_ivc kind (np_f_params p) (np_pp p, np_vp p) ivc_proof).

Definition NovaParams_verify (p : NovaParams) (ivc_proof : NovaIvcProof) : result NovaError unit :=
  map_err (fun e => VerificationError ("Nova Verification: " +:+ e)) (nova_verify_ivc (np_vp p) ivc_proof).

(** [FCircuit::state_len] of the circuits. *)
Definition circuit_state_len : nat := match kind with Root => ROOT_STATE_LEN | _ => WITHDRAW_STATE_LEN end.
Definition NovaParams_state_len (p : NovaParams) : result NovaError nat :=
  _ ← FCircuit_new (np_f_params p); Ok circuit_state_len.

Definition DeciderParams_rand (nova_params : NovaParams) : M StdRng NovaError DeciderParams :=
  lift (NovaParams_state_len nova_params) ≫= fun state_len =>
  draw (fun e => PreprocessError ("Decider Preprocess: " +:+ e)) (decider_preprocess kind (np_pp nova_params, np_vp nova_params) state_len) ≫= fun decider_params =>
  mret (mkDeciderParams decider_params.1 decider_params.2).

Definition DeciderParams_from_bytes (pp_bytes vp_bytes : bytes) : result NovaError DeciderParams :=
  decider_pp ← map_err (fun e => DeserializationError ("Decider Prover Params: " +:+ e)) (dpp_deserialize kind pp_bytes);
  decider_vp ← map_err (fun e => DeserializationError ("Decider Verifier Params: " +:+ e)) (dvp_deserialize kind vp_bytes);
  Ok (mkDeciderParams decider_pp decider_vp).
End circuit.

Definition DeciderParams_to_bytes (p : DeciderParams) : result NovaError (bytes * bytes) :=
  pp_bytes ← map_err (fun e => SerializationError ("Decider Prover Params: " +:+ e)) (dpp_serialize (dp_pp p));
  vp_bytes ← map_err (fun e => SerializationError ("Decider Verifier Params: " +:+ e)) (dvp_serialize (dp_vp p));
  Ok (pp_bytes, vp_bytes).

Definition DeciderParams_verifier_solidity_code (p : DeciderParams) (state_len : nat) : string := decider_template (dp_vp p) state_len.

(** The calldata of a proof; indexing a missing opening panics. *)
Definition decider_calldata (nova : NovaInstance) (proof : DeciderProof) : result NovaError bytes :=
  match proof_kzg proof with
  | (eval_W, kzg_W) :: (eval_E, kzg_E) :: _ =>
    Ok (concat [fr_to_eth (nova_i nova); frs_to_eth (nova_z_0 nova); frs_to_eth (nova_z_i nova);
                g1_to_eth (U_cmW nova); g1_to_eth (U_cmE nova); g1_to_eth (u_cmW nova);
                g1_to_eth (proof_cmT proof); fr_to_eth (proof_r proof); snark_to_eth (proof_snark proof);
                frs_to_eth (proof_challenges proof); fr_to_eth eval_W; fr_to_eth eval_E; g1_to_eth kzg_W; g1_to_eth kzg_E])
  | _ => Err (DeciderProofError "index out of bounds")
  end.

Definition DeciderParams_generate_decider_proof (p : DeciderParams) (nova : NovaInstance) : result NovaError bytes :=
  proof ← map_err (fun e => DeciderProofError ("Decider Proof Generation: " +:+ e)) (decider_prove (dp_pp p) nova);
  verified ← map_err (fun e => DeciderProofError ("Decider Proof Verification: " +:+ e))
               (decider_verify (dp_vp p) (nova_i nova) (nova_z_0 nova) (nova_z_i nova) (U_commitments nova) (u_commitments nova) proof);
  if negb verified then Err (DeciderProofError "Decider Proof Verification Failed") else decider_calldata nova proof.
End nova.

(** ** [groth16/params.rs] *)

Inductive Groth16Error :=
| G16SetupError (message : string)
| G16SerializationError (message : string)
| G16DeserializationError (message : string)
| G16SolidityExportError (message : string)
| G16ProofGenerationError (message : string)
| G16ProofVerificationInternalError (message : string)
| G16ProofVerificationError (message : string).

Definition Groth16Error_display (e : Groth16Error) : string :=
  match e with
  | G16SetupError m => "Setup Error: " +:+ m
  | G16SerializationError m => "Serialization Error: " +:+ m
  | G16DeserializationError m => "Deserialization Error: " +:+ m
  | G16SolidityExportError m => "Solidity Export Error: " +:+ m
  | G16ProofGenerationError m => "Proof Generation Error: " +:+ m
  | G16ProofVerificationInternalError m => "Proof Verification Internal Error: " +:+ m
  | G16ProofVerificationError m => "Proof Verification Error: " +:+ m
  end.

Section groth16.
Context {S : Sonobe} {G : Groth16Lib S}.

Record Groth16Params := mkGroth16Params { g16_vk : Groth16VK; g16_pk : Groth16PK }.

Definition Groth16Params_rand (rng : StdRng) (circuit : SingleWithdrawCircuit) : result Groth16Error Groth16Params :=
  '(pk, vk) ← map_err G16SetupError (groth16_setup circuit rng);
  Ok (mkGroth16Params vk pk).

Definition Groth16Params_from_bytes (pk_bytes vk_bytes : bytes) : result Groth16Error Groth16Params :=
  pk ← map_err (fun e => G16DeserializationError ("Groth16 Proving Key: " +:+ e)) (pk_deserialize pk_bytes);
  vk ← map_err (fun e => G16DeserializationError ("Groth16 Verifying Key: " +:+ e)) (vk_deserialize vk_bytes);
  Ok (mkGroth16Params vk pk).

Definition Groth16Params_to_bytes (p : Groth16Params) : result Groth16Error (bytes * bytes) :=
  pk_bytes ← map_err (fun e => G16SerializationError ("Groth16 Proving Key: " +:+ e)) (pk_serialize (g16_pk p));
  vk_bytes ← map_err (fun e => G16SerializationError ("Groth16 Verifying Key: " +:+ e)) (vk_serialize (g16_vk p));
  Ok (pk_bytes, vk_bytes).

Definition Groth16Params_verifier_solidity_code (p : Groth16Params) : result Groth16Error string :=
  ok_or (G16SolidityExportError "UTF-8 Error") (from_utf8 (groth16_template (g16_vk p))).

Definition Groth16Params_generate_proof (p : Groth16Params) (circuit : SingleWithdrawCircuit) (inputs : list Z) : result Groth16Error bytes :=
  proof ← map_err G16ProofGenerationError (g16_prove (g16_pk p) circuit);
  verified ← map_err (fun e => G16ProofVerificationInternalError ("Groth16 proof verification: " +:+ e)) (g16_verify (g16_vk p) inputs proof);
  if negb verified then Err (G16ProofVerificationError "Groth16 proof verification failed")
  else Ok (concat [g16_to_eth proof; inputs_to_eth inputs]).
End groth16.

(** ** Files *)

Definition Files := gmap string bytes.
Definition as_bytes (s : string) : bytes := byte_of <$> String.list_ascii_of_string s.
(** [fs::read] and [fs::write]; [writable] are the paths that can be written. *)
Definition fs_read (path : string) (fs : Files) : result string bytes := ok_or "No such file or directory"%string (fs !! path).
Definition fs_write (writable : string -> bool) (path : string) (contents : bytes) : M Files string unit := fun fs =>
  if writable path then (<[path := contents]> fs, Ok tt) else (fs, Err "Permission denied"%string).

(** [str::replace] of a pattern that is not empty; [skip] characters belong to a match. *)
Fixpoint str_replace_from (skip : nat) (pattern to s : string) : string :=
  match s with
  | EmptyString => EmptyString
  | String c rest =>
    match skip with
    | O => if String.prefix pattern s then to +:+ str_replace_from (pred (string_len pattern)) pattern to rest
           else String c (str_replace_from O pattern to rest)
    | S skip' => str_replace_from skip' pattern to rest
    end
  end.
Definition str_replace (pattern to s : string) : string := str_replace_from O pattern to s.

(** ** [generate_circuit_artifacts.rs] *)

(** [to_pascal_case] on ASCII. *)
Definition to_uppercase (c : ascii) : ascii :=
  if (97 <=? byte_of c) && (byte_of c <=? 122) then ascii_of_nat (nat_of_ascii c - 32) else c.
Fixpoint split_on (sep : ascii) (s : string) : list string :=
  match s with
  | EmptyString => [EmptyString]
  | String c rest =>
    if bool_decide (c = sep) then EmptyString :: split_on sep rest
    else match split_on sep rest with
         | segment :: segments => String c segment :: segments
         | [] => [String c EmptyString]
         end
  end.
Definition capitalize (segment : string) : string :=
  match segment with EmptyString => EmptyString | String first rest => String (to_uppercase first) rest end.
Definition to_pascal_case (s : string) : string :=
  foldr (fun segment acc => capitalize segment +:+ acc) EmptyString
    (List.filter (fun segment => negb (bool_decide (segment = EmptyString))) (split_on "_"%char s)).

Section artifacts.
Context {C : Crypto} {S : Sonobe} {G : Groth16Lib S}.
Context (writable : string -> bool).

Definition write_bytes (path : string) (contents : bytes) : M Files string unit := fun fs =>
  let '(fs', r) := fs_write writable path contents fs in (fs', map_err (fun _ => "failed to write " +:+ path) r).

(** The two generators start from the same seed for every circuit. *)
Definition generate_nova_artifacts (kind : CircuitKind) (prefix output_dir : string) (f_params : PoseidonConfig) : M Files string unit :=
  let rng := seed_from_u64 42 in
  let '(rng, nova_params) := NovaParams_rand kind f_params rng in
  lift (map_err NovaError_display nova_params) ≫= fun nova_params =>
  lift (map_err NovaError_display (NovaParams_state_len kind nova_params)) ≫= fun state_len =>
  let '(rng, decider_params) := DeciderParams_rand kind nova_params rng in
  lift (map_err NovaError_display decider_params) ≫= fun decider_params =>
  lift (map_err NovaError_display (NovaParams_to_bytes nova_params)) ≫= fun '(nova_pp_bytes, nova_vp_bytes) =>
  lift (map_err NovaError_display (DeciderParams_to_bytes decider_params)) ≫= fun '(decider_pp_bytes, decider_vp_bytes) =>
  let pascal_case_prefix := to_pascal_case prefix in
  let contract_name := pascal_case_prefix +:+ "NovaDecider" in
  let solidity := str_replace "NovaDecider" contract_name (DeciderParams_verifier_solidity_code decider_params state_len) in
  write_bytes (path_join output_dir (prefix +:+ "_nova_pp.bin")) nova_pp_bytes ≫= fun _ =>
  write_bytes (path_join output_dir (prefix +:+ "_nova_vp.bin")) nova_vp_bytes ≫= fun _ =>
  write_bytes (path_join output_dir (prefix +:+ "_decider_pp.bin")) decider_pp_bytes ≫= fun _ =>
  write_bytes (path_join output_dir (prefix +:+ "_decider_vp.bin")) decider_vp_bytes ≫= fun _ =>
  write_bytes (path_join output_dir (pascal_case_prefix +:+ "NovaDecider.sol")) (as_bytes solidity).

Definition generate_groth16_artifacts (DEPTH : nat) (prefix output_dir : string) (poseidon_config : PoseidonConfig) : M Files string unit :=
  let rng := seed_from_u64 42 in
  let circuit := SingleWithdrawCircuit_new DEPTH poseidon_config in
  lift (map_err (fun _ => "failed groth16 setup for " +:+ prefix) (Groth16Params_rand rng circuit)) ≫= fun params =>
  lift (map_err (fun _ => "failed to serialize groth16 params for " +:+ prefix) (Groth16Params_to_bytes params)) ≫= fun '(pk_bytes, vk_bytes) =>
  let pascal_case_prefix := to_pascal_case prefix in
  let contract_name := pascal_case_prefix +:+ "Groth16Verifier" in
  lift (map_err (fun _ => "failed to render solidity verifier for " +:+ prefix) (Groth16Params_verifier_solidity_code params)) ≫= fun code =>
  let solidity := str_replace "Groth16Verifier" contract_name code in
  write_bytes (path_join output_dir (prefix +:+ "_groth16_pk.bin")) pk_bytes ≫= fun _ =>
  write_bytes (path_join output_dir (prefix +:+ "_groth16_vk.bin")) vk_bytes ≫= fun _ =>
  write_bytes (path_join output_dir (pascal_case_prefix +:+ "Groth16Verifier.sol")) (as_bytes solidity).

(** [main]: [artifacts_dir] is [nova_artifacts] of the workspace, which can be created. *)
Definition generate_artifacts (artifacts_dir : string) : M Files string unit :=
  lift (ok_or "poseidon parameters"%string circom_poseidon_config) ≫= fun poseidon_config =>
  generate_groth16_artifacts TRANSFER_TREE_HEIGHT "withdraw_local" artifacts_dir poseidon_config ≫= fun _ =>
  generate_groth16_artifacts GLOBAL_TRANSFER_TREE_HEIGHT "withdraw_global" artifacts_dir poseidon_config ≫= fun _ =>
  generate_nova_artifacts Root "root" artifacts_dir poseidon_config ≫= fun _ =>
  generate_nova_artifacts WithdrawLocal "withdraw_local" artifacts_dir poseidon_config ≫= fun _ =>
  generate_nova_artifacts WithdrawGlobal "withdraw_global" artifacts_dir poseidon_config.

(** ** [decider-prover/src/circuits.rs] *)

Record CircuitContext := mkCircuitContext { cc_nova : NovaParams; cc_decider : DeciderParams }.
Record ProverEngine := mkProverEngine {
  pe_root : CircuitContext;
  pe_withdraw_local : option CircuitContext;
  pe_withdraw_global : CircuitContext;
}.

(** [ProverError::Io] and [From<NovaError>]. *)
Definition read_artifact (dir prefix suffix : string) (fs : Files) : result string bytes :=
  let path := path_join dir (prefix +:+ "_" +:+ suffix) in
  map_err (fun err => "I/O error: failed to read " +:+ path +:+ ": " +:+ err) (fs_read path fs).
Definition nova_err {A} (r : result NovaError A) : result string A := map_err (fun e => "nova error: " +:+ NovaError_display e) r.

Definition CircuitContext_load (kind : CircuitKind) (prefix dir : string) (f_params : PoseidonConfig) (fs : Files) : result string CircuitContext :=
  nova_pp ← read_artifact dir prefix "nova_pp.bin" fs;
  nova_vp ← read_artifact dir prefix "nova_vp.bin" fs;
  decider_pp ← read_artifact dir prefix "decider_pp.bin" fs;
  decider_vp ← read_artifact dir prefix "decider_vp.bin" fs;
  nova ← nova_err (NovaParams_from_bytes kind f_params nova_pp nova_vp);
  decider ← nova_err (DeciderParams_from_bytes kind decider_pp decider_vp);
  Ok (mkCircuitContext nova decider).

Definition ProverEngine_load (artifacts_dir : string) (enable_withdraw_local : bool) (fs : Files) : result string ProverEngine :=
  poseidon ← ok_or "poseidon parameters"%string circom_poseidon_config;
  root ← CircuitContext_load Root "root" artifacts_dir poseidon fs;
  withdraw_local ← (if enable_withdraw_local then
                      c ← CircuitContext_load WithdrawLocal "withdraw_local" artifacts_dir poseidon fs; Ok (Some c)
                    else Ok None);
  withdraw_global ← CircuitContext_load WithdrawGlobal "withdraw_global" artifacts_dir poseidon fs;
  Ok (mkProverEngine root withdraw_local withdraw_global).

(** The context of a circuit: the local one is used only where it is loaded. *)
Definition engine_context (e : ProverEngine) (kind : CircuitKind) : option CircuitContext :=
  match kind with Root => Some (pe_root e) | WithdrawLocal => pe_withdraw_local e | WithdrawGlobal => Some (pe_withdraw_global e) end.

(** The engine of the decider service, over the loaded contexts. *)
Definition context_verify (e : ProverEngine) (kind : CircuitKind) (p : NovaIvcProof) : result string unit :=
  c ← ok_or "not loaded"%string (engine_context e kind);
  map_err NovaError_display (NovaParams_verify (cc_nova c) p).
Definition context_decide (e : ProverEngine) (kind : CircuitKind) (p : NovaIvcProof) : result string bytes :=
  c ← ok_or "not loaded"%string (engine_context e kind);
  nova ← map_err NovaError_display (NovaParams_nova_from_ivc_proof kind (cc_nova c) p);
  map_err NovaError_display (DeciderParams_generate_decider_proof (cc_decider c) nova).
Definition engine_of (e : ProverEngine) : Engine := {|
  IVCProof := NovaIvcProof;
  ivc_deserialize := ivc_proof_deserialize;
  ivc_verify := context_verify e;
  ivc_decide := context_decide e;
|}.
Definition ProverEngine_generate_decider_proof (e : ProverEngine) : CircuitKind -> bytes -> result ProverError bytes :=
  generate_decider_proof (E := engine_of e) (match pe_withdraw_local e with Some _ => true | None => false end).

(** ** Loaders of the clients *)

(** [indexer/src/jobs/root.rs] *)
Definition load_root_nova_params (artifacts_dir : string) (fs : Files) : result string NovaParams :=
  let pp_path := path_join artifacts_dir "root_nova_pp.bin" in
  let vp_path := path_join artifacts_dir "root_nova_vp.bin" in
  pp_bytes ← map_err (fun _ => "failed to read " +:+ pp_path) (fs_read pp_path fs);
  vp_bytes ← map_err (fun _ => "failed to read " +:+ vp_path) (fs_read vp_path fs);
  f_params ← ok_or "poseidon parameters"%string circom_poseidon_config;
  map_err (fun _ => "failed to load root nova parameters"%string) (NovaParams_from_bytes Root f_params pp_bytes vp_bytes).

(** [cli/src/proof/batch.rs] and [single.rs] *)
Definition artifact_prefix (DEPTH : nat) : result string (CircuitKind * string) :=
  if (DEPTH =? TRANSFER_TREE_HEIGHT)%nat then Ok (WithdrawLocal, "withdraw_local"%string)
  else if (DEPTH =? GLOBAL_TRANSFER_TREE_HEIGHT)%nat then Ok (WithdrawGlobal, "withdraw_global"%string)
  else Err "Unsupported transfer tree depth"%string.

Definition load_withdraw_params (artifacts_dir : string) (DEPTH : nat) (fs : Files) : result string NovaParams :=
  '(kind, prefix) ← artifact_prefix DEPTH;
  poseidon_params ← ok_or "poseidon parameters"%string circom_poseidon_config;
  pp ← map_err (fun _ => "failed to read " +:+ prefix +:+ "_nova_pp.bin") (fs_read (path_join artifacts_dir (prefix +:+ "_nova_pp.bin")) fs);
  vp ← map_err (fun _ => "failed to read " +:+ prefix +:+ "_nova_vp.bin") (fs_read (path_join artifacts_dir (prefix +:+ "_nova_vp.bin")) fs);
  map_err (fun err => "failed to deserialize withdraw nova params: " +:+ NovaError_display err) (NovaParams_from_bytes kind poseidon_params pp vp).

Definition load_single_withdraw_params (artifacts_dir : string) (depth : nat) (fs : Files) : result string Groth16Params :=
  '(_, prefix) ← artifact_prefix depth;
  pk ← map_err (fun _ => "failed to read " +:+ prefix +:+ "_groth16_pp.bin") (fs_read (path_join artifacts_dir (prefix +:+ "_groth16_pk.bin")) fs);
  vk ← map_err (fun _ => "failed to read " +:+ prefix +:+ "_groth16_vp.bin") (fs_read (path_join artifacts_dir (prefix +:+ "_groth16_vk.bin")) fs);
  map_err (fun _ => "failed to parse " +:+ prefix +:+ " Groth16 params") (Groth16Params_from_bytes pk vk).

(** ** The provers of the other components, over the files *)

(** The folding of the root job with its loaded parameters. *)
Definition root_scheme (p : NovaParams) : NovaScheme := {|
  RootNovaInstance := NovaInstance;
  RootIvcProof := NovaIvcProof;
  initial_nova := fun z0 => map_err NovaError_display (NovaParams_initial_nova Root p z0);
  prove_step := nova_root_step;
  nova_state := nova_z_i;
  nova_ivc_proof := nova_ivc;
  nova_verify := fun x => map_err NovaError_display (NovaParams_verify p x);
  nova_from_ivc_proof := fun x => map_err NovaError_display (NovaParams_nova_from_ivc_proof Root p x);
  serialize_uncompressed := ivc_proof_serialize;
  deserialize_uncompressed := ivc_proof_deserialize;
|}.

(** The provers of the command line, which loads the parameters of each proof. *)
Definition withdraw_scheme (artifacts_dir : string) (fs : Files) : WithdrawNova := {|
  WithdrawNovaInstance := NovaInstance;
  WithdrawIvcProof := NovaIvcProof;
  withdraw_initial_nova := fun DEPTH z0 =>
    '(kind, _) ← artifact_prefix DEPTH;
    p ← load_withdraw_params artifacts_dir DEPTH fs;
    map_err NovaError_display (NovaParams_initial_nova kind p z0);
  withdraw_prove_step := nova_withdraw_step;
  withdraw_ivc_proof := nova_ivc;
  withdraw_nova_state := nova_z_i;
  withdraw_nova_verify := fun DEPTH x =>
    p ← load_withdraw_params artifacts_dir DEPTH fs;
    map_err NovaError_display (NovaParams_verify p x);
  withdraw_serialize := ivc_proof_serialize;
|}.

(** The calldata of a Groth16 proof as words. *)
Definition single_scheme (artifacts_dir : string) (fs : Files) : Groth16 := {|
  Groth16Proof := G16Proof;
  groth16_prove := fun DEPTH circuit =>
    p ← load_single_withdraw_params artifacts_dir DEPTH fs;
    map_err (fun e => Groth16Error_display (G16ProofGenerationError e)) (g16_prove (g16_pk p) circuit);
  groth16_verify := fun DEPTH inputs proof =>
    p ← load_single_withdraw_params artifacts_dir DEPTH fs;
    map_err (fun e => Groth16Error_display (G16ProofVerificationInternalError ("Groth16 proof verification: " +:+ e))) (g16_verify (g16_vk p) inputs proof);
  proof_to_eth := fun p => abi_words 8 (g16_to_eth p);
|}.

(** The decider client, when the service runs the engine. *)
Definition engine_client (e : ProverEngine) : DeciderClient := {|
  produce_decider_proof := fun kind bs => map_err (fun _ => "decider prover"%string) (ProverEngine_generate_decider_proof e kind bs);
|}.

(** The verifier contracts deployed from the generated sources: [accepts] and [accepts_groth16] are what compiled sources answer. *)
Definition deployed_deciders (accepts : bytes -> list Z -> bool) (accepts_groth16 : bytes -> list Z -> list Z -> bool) (artifacts_dir : string) (fs : Files)
  : Deciders :=
  let source name := default [] (fs !! path_join artifacts_dir name) in
  {| rootDecider := accepts (source "RootNovaDecider.sol");
     withdrawDecider := fun is_global => accepts (source (if is_global then "WithdrawGlobalNovaDecider.sol" else "WithdrawLocalNovaDecider.sol"));
     singleWithdrawVerifier := fun is_global =>
       accepts_groth16 (source (if is_global then "WithdrawGlobalGroth16Verifier.sol" else "WithdrawLocalGroth16Verifier.sol")) |}.
End artifacts.
