(* ===== verification/ParamsSpec.v ===== *)
(** The generated parameter files serve every prover: what the generator of the artifacts writes is what the decider service, the root job
    and the command line load, and with them the provers satisfy the laws that the theorems on the root job and on redeeming assume; in particular
    the calldata that [generate_decider_proof] lays out is what the verifier contracts decode.

    Sonobe, arkworks, the Solidity compiler and the EVM are interfaces with their documented behaviour as laws. *)

From S2P Require Import Prelude Words Text Crypto BitPaths MerkleTrees Gadgets Circuits Folding Database OnChain OnChainSpec TreeDb TreeDbSpec Events EventsSpec Leases Jobs JobsSpec RootJob RootJobSpec Teleport TeleportSpec Payment Decider Storage Cli Redeem RedeemSpec Indexer Params.
Local Open Scope Z_scope.

Section spec.
Context {C : Crypto} {R : R1CS} {S : Sonobe} {G : Groth16Lib S}.
Context (accepts : bytes -> list Z -> bool) (accepts_groth16 : bytes -> list Z -> list Z -> bool).

(** Keys made by the preprocessing of a circuit. *)
Definition nova_keys (kind : CircuitKind) (cfg : PoseidonConfig) (ks : NovaPP * NovaVP) : Prop :=
  exists rng rng', nova_preprocess kind cfg rng = (rng', Ok ks).
Definition decider_keys (kind : CircuitKind) (ks : NovaPP * NovaVP) (ds : DeciderPP * DeciderVP) : Prop :=
  exists rng rng', decider_preprocess kind ks (circuit_state_len kind) rng = (rng', Ok ds).

(** [ToEth]: big-endian words; a point has two and a Groth16 proof eight. *)
Class ToEthLaws := {
  g1_words : G1 -> list Z;
  snark_words : SnarkProof -> list Z;
  g16_words : G16Proof -> list Z;
  te_fr : forall x, fr_to_eth x = abi_encode_words [x];
  te_frs : forall l, frs_to_eth l = abi_encode_words l;
  te_g1 : forall g, g1_to_eth g = abi_encode_words (g1_words g);
  te_g1_words : forall g, length (g1_words g) = 2%nat /\ Forall in_u256 (g1_words g);
  te_snark : forall p, snark_to_eth p = abi_encode_words (snark_words p);
  te_snark_words : forall p, length (snark_words p) = 8%nat /\ Forall in_u256 (snark_words p);
  te_g16 : forall p, g16_to_eth p = abi_encode_words (g16_words p);
  te_g16_words : forall p, length (g16_words p) = 8%nat /\ Forall in_u256 (g16_words p);
  te_inputs : forall l, inputs_to_eth l = abi_encode_words l;
}.
Context {TE : ToEthLaws}.

(** The array of [verifyOpaqueNovaProof]. *)
Definition opaque_proof (n : NovaInstance) (p : DeciderProof) (eW eE : Z) (kW kE : G1) : list Z :=
  [nova_i n] ++ nova_z_0 n ++ nova_z_i n ++ g1_words (U_cmW n) ++ g1_words (U_cmE n) ++ g1_words (u_cmW n) ++ g1_words (proof_cmT p) ++ [proof_r p]
  ++ snark_words (proof_snark p) ++ proof_challenges p ++ [eW; eE] ++ g1_words kW ++ g1_words kE.

Definition kind_height (kind : CircuitKind) : nat := match kind with WithdrawGlobal => GLOBAL_TRANSFER_TREE_HEIGHT | _ => TRANSFER_TREE_HEIGHT end.
Definition decider_contracts : list string := ["RootNovaDecider"; "WithdrawLocalNovaDecider"; "WithdrawGlobalNovaDecider"].

(** [attests kind ks n i z0 z]: under the keys, [n] has folded [i] satisfied steps from [z0] to [z]. *)
Class SonobeLaws (attests : CircuitKind -> NovaPP * NovaVP -> NovaInstance -> Z -> list Z -> list Z -> Prop) : Prop := {
  sl_pp : forall kind cfg ks bs, nova_keys kind cfg ks -> pp_serialize ks.1 = Ok bs -> pp_deserialize kind cfg bs = Ok ks.1;
  sl_vp : forall kind cfg ks bs, nova_keys kind cfg ks -> vp_serialize ks.2 = Ok bs -> vp_deserialize kind cfg bs = Ok ks.2;
  sl_dpp : forall kind ks ds bs, decider_keys kind ks ds -> dpp_serialize ds.1 = Ok bs -> dpp_deserialize kind bs = Ok ds.1;
  sl_dvp : forall kind ks ds bs, decider_keys kind ks ds -> dvp_serialize ds.2 = Ok bs -> dvp_deserialize kind bs = Ok ds.2;
  sl_ivc : forall p, exists bs, ivc_proof_serialize p = Ok bs /\ ivc_proof_deserialize bs = Ok p;
  sl_init : forall kind cfg ks z0, nova_keys kind cfg ks -> length z0 = circuit_state_len kind ->
    exists n, nova_init kind cfg ks z0 = Ok n /\ attests kind ks n 0 z0 z0;
  sl_root_step : forall cfg ks n i z0 z x z', nova_keys Root cfg ks -> attests Root ks n i z0 z -> rx_wf x ->
    root_generate_step_constraints cfg z x = Some (z', true) -> exists n', nova_root_step n x = Ok n' /\ attests Root ks n' (i + 1) z0 z';
  sl_withdraw_step : forall kind cfg ks n i z0 z x z', kind <> Root -> nova_keys kind cfg ks -> attests kind ks n i z0 z -> wx_wf (kind_height kind) x ->
    withdraw_generate_step_constraints (kind_height kind) cfg z x = Some (z', true) ->
    exists n', nova_withdraw_step n x = Ok n' /\ attests kind ks n' (i + 1) z0 z';
  sl_fields : forall kind ks n i z0 z, attests kind ks n i z0 z -> nova_i n = i /\ nova_z_0 n = z0 /\ nova_z_i n = z;
  sl_verify : forall kind ks n i z0 z, attests kind ks n i z0 z -> 0 < i -> nova_verify_ivc ks.2 (nova_ivc n) = Ok tt;
  sl_resume : forall kind cfg ks n i z0 z, nova_keys kind cfg ks -> attests kind ks n i z0 z -> 0 < i ->
    exists n', nova_from_ivc kind cfg ks (nova_ivc n) = Ok n' /\ attests kind ks n' i z0 z;
  (** a decider proof of two steps or more verifies *)
  sl_decider : forall kind cfg ks ds n i z0 z, nova_keys kind cfg ks -> decider_keys kind ks ds -> attests kind ks n i z0 z -> 2 <= i < 2 ^ 64 ->
    exists p eW eE kW kE, decider_prove ds.1 n = Ok p /\ decider_verify ds.2 i z0 z (U_commitments n) (u_commitments n) p = Ok true
      /\ proof_kzg p = [(eW, kW); (eE, kE)] /\ length (proof_challenges p) = 2%nat /\ Forall is_fr ([proof_r p; eW; eE] ++ proof_challenges p);
  (** the generated contract accepts the array of a proof that verifies *)
  sl_contract : forall kind ks ds n p eW eE kW kE name, decider_keys kind ks ds -> name ∈ decider_contracts ->
    decider_verify ds.2 (nova_i n) (nova_z_0 n) (nova_z_i n) (U_commitments n) (u_commitments n) p = Ok true -> proof_kzg p = [(eW, kW); (eE, kE)] ->
    accepts (as_bytes (str_replace "NovaDecider" name (decider_template ds.2 (circuit_state_len kind)))) (opaque_proof n p eW eE kW kE) = true;
}.

Definition groth16_contracts : list string := ["WithdrawLocalGroth16Verifier"; "WithdrawGlobalGroth16Verifier"].
Definition groth16_keys (DEPTH : nat) (ks : Groth16PK * Groth16VK) : Prop :=
  exists cfg rng, circom_poseidon_config = Some cfg /\ groth16_setup (SingleWithdrawCircuit_new DEPTH cfg) rng = Ok ks.

Class Groth16Laws : Prop := {
  gl_pk : forall DEPTH ks bs, groth16_keys DEPTH ks -> pk_serialize ks.1 = Ok bs -> pk_deserialize bs = Ok ks.1;
  gl_vk : forall DEPTH ks bs, groth16_keys DEPTH ks -> vk_serialize ks.2 = Ok bs -> vk_deserialize bs = Ok ks.2;
  gl_complete : forall DEPTH ks circuit inputs, groth16_keys DEPTH ks -> circuit_wf DEPTH circuit ->
    sw_generate_constraints DEPTH circuit = Some (tt, true) -> public_inputs circuit = Some inputs ->
    exists p, g16_prove ks.1 circuit = Ok p /\ g16_verify ks.2 inputs p = Ok true;
  gl_contract : forall DEPTH ks inputs p name, groth16_keys DEPTH ks -> name ∈ groth16_contracts -> g16_verify ks.2 inputs p = Ok true ->
    accepts_groth16 (as_bytes (str_replace "Groth16Verifier" name (groth16_template ks.2))) (g16_words p) inputs = true;
}.

(** ** Files *)

Definition writes (dir : string) (l : list (string * bytes)) (fs : Files) : Files := foldl (fun fs nb => <[path_join dir nb.1 := nb.2]> fs) fs l.

Lemma path_join_inj dir a b : is_relative a = true -> is_relative b = true -> path_join dir a = path_join dir b -> a = b.
Proof.
  intros Ha Hb. unfold path_join. rewrite Ha, Hb. cbn [negb].
  destruct (bool_decide (dir = EmptyString) || ends_with_slash dir); [apply (inj (String.append dir))|]. intros E%(inj (String.append dir)). exact (inj (String.append "/") _ _ E).
Qed.

Lemma writes_ne dir l n fs : Forall (fun nb => is_relative nb.1 = true) l -> is_relative n = true -> n ∉ l.*1 -> writes dir l fs !! path_join dir n = fs !! path_join dir n.
Proof.
  unfold writes. revert fs. induction l as [|[m b] l IH]; intros fs Hr Hn Hni; [done|]. apply Forall_cons in Hr as [Hm Hr].
  cbn [foldl]. apply not_elem_of_cons in Hni as [Hne Hni]. rewrite IH by done. apply lookup_insert_ne. cbn. intros E%path_join_inj; [by apply Hne | done..].
Qed.

Lemma lookup_writes dir l n b fs : Forall (fun nb => is_relative nb.1 = true) l -> NoDup l.*1 -> (n, b) ∈ l -> writes dir l fs !! path_join dir n = Some b.
Proof.
  revert fs. induction l as [|[m c] l IH]; intros fs Hr Hd Hin; [by apply not_elem_of_nil in Hin|]. apply Forall_cons in Hr as [Hm Hr].
  cbn in Hd. apply NoDup_cons in Hd as [Hni Hd]. apply elem_of_cons in Hin as [[= -> ->]|Hin].
  - change (writes dir ((m, c) :: l) fs) with (writes dir l (<[path_join dir m := c]> fs)). rewrite writes_ne by done. apply lookup_insert_eq.
  - by apply IH.
Qed.

Lemma writes_app dir l k fs : writes dir (l ++ k) fs = writes dir k (writes dir l fs).
Proof. apply foldl_app. Qed.

Context (writable : string -> bool).

Lemma write_ok {A} path contents (k : unit -> M Files string A) fs r :
  (write_bytes writable path contents ≫= k) fs = r -> (exists a, r.2 = Ok a) -> (k tt) (<[path := contents]> fs) = r.
Proof.
  intros <- [a Ha]. unfold mbind, M_bind, write_bytes, fs_write in *. destruct (writable path); [done|]. by cbn in Ha.
Qed.
Lemma last_write_ok path contents fs fs' : write_bytes writable path contents fs = (fs', Ok tt) -> fs' = <[path := contents]> fs.
Proof. unfold write_bytes, fs_write. destruct (writable path); [by intros [= <-] | done]. Qed.

(** The files of the folding of one circuit. *)
Definition nova_files (prefix : string) (pp vp dpp dvp : bytes) (sol : string) : list (string * bytes) :=
  [(prefix +:+ "_nova_pp.bin", pp); (prefix +:+ "_nova_vp.bin", vp); (prefix +:+ "_decider_pp.bin", dpp); (prefix +:+ "_decider_vp.bin", dvp);
   (to_pascal_case prefix +:+ "NovaDecider.sol", as_bytes sol)].

Record nova_generated (kind : CircuitKind) (prefix : string) (cfg : PoseidonConfig) (l : list (string * bytes)) (ks : NovaPP * NovaVP) (ds : DeciderPP * DeciderVP) : Prop := {
  ng_keys : nova_keys kind cfg ks;
  ng_decider : decider_keys kind ks ds;
  ng_files : exists pp vp dpp dvp, pp_serialize ks.1 = Ok pp /\ vp_serialize ks.2 = Ok vp /\ dpp_serialize ds.1 = Ok dpp /\ dvp_serialize ds.2 = Ok dvp
    /\ l = nova_files prefix pp vp dpp dvp (str_replace "NovaDecider" (to_pascal_case prefix +:+ "NovaDecider") (decider_template ds.2 (circuit_state_len kind)));
}.

Lemma map_err_inv {E E' A} (f : E -> E') (r : result E A) a : map_err f r = Ok a -> r = Ok a.
Proof. destruct r; [by intros [= ->] | done]. Qed.

Lemma NovaParams_rand_ok kind cfg rng rng' p :
  NovaParams_rand kind cfg rng = (rng', Ok p) -> np_f_params p = cfg /\ nova_preprocess kind cfg rng = (rng', Ok (np_pp p, np_vp p)).
Proof.
  unfold NovaParams_rand. intros (c & Hc & H)%lift_ok. injection Hc as <-. unfold mbind, M_bind, draw, mret, M_ret in H.
  destruct (nova_preprocess kind cfg rng) as [rng1 [[pp vp]|e]]; [|done]. cbn in H. by injection H as <- <-.
Qed.
Lemma DeciderParams_rand_ok kind p rng rng' d :
  DeciderParams_rand kind p rng = (rng', Ok d) -> decider_preprocess kind (np_pp p, np_vp p) (circuit_state_len kind) rng = (rng', Ok (dp_pp d, dp_vp d)).
Proof.
  unfold DeciderParams_rand. intros (c & Hc & H)%lift_ok. injection Hc as <-. unfold mbind, M_bind, draw, mret, M_ret in H.
  destruct (decider_preprocess _ _ _ _) as [rng1 [[pp vp]|e]]; [|done]. cbn in H. by injection H as <- <-.
Qed.
Lemma NovaParams_to_bytes_ok p pp vp : NovaParams_to_bytes p = Ok (pp, vp) -> pp_serialize (np_pp p) = Ok pp /\ vp_serialize (np_vp p) = Ok vp.
Proof. unfold NovaParams_to_bytes. intros H. apply result_bind_ok in H as (a & ->%map_err_inv & H). apply result_bind_ok in H as (b & ->%map_err_inv & H). by injection H as -> ->. Qed.
Lemma DeciderParams_to_bytes_ok p pp vp : DeciderParams_to_bytes p = Ok (pp, vp) -> dpp_serialize (dp_pp p) = Ok pp /\ dvp_serialize (dp_vp p) = Ok vp.
Proof. unfold DeciderParams_to_bytes. intros H. apply result_bind_ok in H as (a & ->%map_err_inv & H). apply result_bind_ok in H as (b & ->%map_err_inv & H). by injection H as -> ->. Qed.

Lemma generate_nova_ok kind prefix dir cfg fs fs' :
  generate_nova_artifacts writable kind prefix dir cfg fs = (fs', Ok tt) ->
  exists l ks ds, nova_generated kind prefix cfg l ks ds /\ fs' = writes dir l fs.
Proof.
  unfold generate_nova_artifacts. destruct (NovaParams_rand kind cfg _) as [rng1 rp] eqn:Ep.
  intros (p & ->%map_err_inv & H)%lift_ok. apply NovaParams_rand_ok in Ep as [Hcfg Hpre].
  apply lift_ok in H as (len & Hlen & H). injection Hlen as <-.
  destruct (DeciderParams_rand kind p rng1) as [rng2 rd] eqn:Ed. apply lift_ok in H as (d & ->%map_err_inv & H). apply DeciderParams_rand_ok in Ed.
  apply lift_ok in H as ([pp vp] & [Hpp Hvp]%map_err_inv%NovaParams_to_bytes_ok & H). apply lift_ok in H as ([dpp dvp] & [Hdpp Hdvp]%map_err_inv%DeciderParams_to_bytes_ok & H).
  do 4 (apply write_ok in H; [|by exists tt]). apply last_write_ok in H.
  eexists (nova_files prefix pp vp dpp dvp _), (np_pp p, np_vp p), (dp_pp d, dp_vp d). split; [|exact H].
  split; [by exists (seed_from_u64 42), rng1 | by exists rng1, rng2 | exists pp, vp, dpp, dvp; done].
Qed.

(** The files of the Groth16 circuit of a height. *)
Record groth16_generated (DEPTH : nat) (prefix : string) (l : list (string * bytes)) (ks : Groth16PK * Groth16VK) : Prop := {
  gg_keys : groth16_keys DEPTH ks;
  gg_files : exists pk vk, pk_serialize ks.1 = Ok pk /\ vk_serialize ks.2 = Ok vk
    /\ l = [(prefix +:+ "_groth16_pk.bin", pk); (prefix +:+ "_groth16_vk.bin", vk);
            (to_pascal_case prefix +:+ "Groth16Verifier.sol",
             as_bytes (str_replace "Groth16Verifier" (to_pascal_case prefix +:+ "Groth16Verifier") (groth16_template ks.2)))];
}.

Lemma generate_groth16_ok DEPTH prefix dir cfg fs fs' :
  circom_poseidon_config = Some cfg -> generate_groth16_artifacts writable DEPTH prefix dir cfg fs = (fs', Ok tt) ->
  exists l ks, groth16_generated DEPTH prefix l ks /\ fs' = writes dir l fs.
Proof.
  intros Hcfg. unfold generate_groth16_artifacts. intros (p & Hp%map_err_inv & H)%lift_ok.
  unfold Groth16Params_rand in Hp. apply result_bind_ok in Hp as ([pk vk] & Hs%map_err_inv & Hp). injection Hp as <-.
  apply lift_ok in H as ([pkb vkb] & Hb%map_err_inv & H). unfold Groth16Params_to_bytes in Hb.
  apply result_bind_ok in Hb as (b1 & H1%map_err_inv & Hb). apply result_bind_ok in Hb as (b2 & H2%map_err_inv & Hb). injection Hb as -> ->.
  apply lift_ok in H as (code & Hcode%map_err_inv & H). unfold Groth16Params_verifier_solidity_code, from_utf8 in Hcode.
  destruct (utf8_valid _); [|done]. injection Hcode as <-.
  do 2 (apply write_ok in H; [|by exists tt]). apply last_write_ok in H.
  eexists [(prefix +:+ "_groth16_pk.bin", _); (prefix +:+ "_groth16_vk.bin", _); (to_pascal_case prefix +:+ "Groth16Verifier.sol", _)], (pk, vk). split; [|exact H].
  split; [by exists cfg, (seed_from_u64 42) | by exists pkb, vkb].
Qed.

(** What the generator leaves in the directory. *)
Record generated (dir : string) (fs : Files) (cfg : PoseidonConfig) (nk : CircuitKind -> NovaPP * NovaVP) (dk : CircuitKind -> DeciderPP * DeciderVP)
  (gk : bool -> Groth16PK * Groth16VK) : Prop := {
  gn_config : circom_poseidon_config = Some cfg;
  gn_nova : forall kind prefix, (kind, prefix) ∈ [(Root, "root"); (WithdrawLocal, "withdraw_local"); (WithdrawGlobal, "withdraw_global")] ->
    exists l, nova_generated kind prefix cfg l (nk kind) (dk kind) /\ forall n b, (n, b) ∈ l -> fs !! path_join dir n = Some b;
  gn_groth16 : forall g, exists l, groth16_generated (withdraw_height g) (if g then "withdraw_global" else "withdraw_local") l (gk g)
    /\ forall n b, (n, b) ∈ l -> fs !! path_join dir n = Some b;
}.

Lemma generate_artifacts_ok dir fs fs' :
  generate_artifacts writable dir fs = (fs', Ok tt) -> exists cfg nk dk gk, generated dir fs' cfg nk dk gk.
Proof.
  unfold generate_artifacts. intros (cfg & Hcfg & H)%lift_ok. assert (circom_poseidon_config = Some cfg) as Hc by (destruct circom_poseidon_config; [by injection Hcfg as ->|done]).
  apply M_bind_ok in H as (fs1 & [] & H1 & H). apply M_bind_ok in H as (fs2 & [] & H2 & H). apply M_bind_ok in H as (fs3 & [] & H3 & H). apply M_bind_ok in H as (fs4 & [] & H4 & H).
  apply generate_groth16_ok in H1 as (l1 & k1 & G1' & ->); [|done]. apply generate_groth16_ok in H2 as (l2 & k2 & G2' & ->); [|done].
  apply generate_nova_ok in H3 as (l3 & k3 & d3 & G3 & ->). apply generate_nova_ok in H4 as (l4 & k4 & d4 & G4 & ->). apply generate_nova_ok in H as (l5 & k5 & d5 & G5 & ->).
  rewrite <- !writes_app. set (all := l1 ++ _).
  assert (Hall : all.*1 = ["withdraw_local_groth16_pk.bin"; "withdraw_local_groth16_vk.bin"; "WithdrawLocalGroth16Verifier.sol";
     "withdraw_global_groth16_pk.bin"; "withdraw_global_groth16_vk.bin"; "WithdrawGlobalGroth16Verifier.sol";
     "root_nova_pp.bin"; "root_nova_vp.bin"; "root_decider_pp.bin"; "root_decider_vp.bin"; "RootNovaDecider.sol";
     "withdraw_local_nova_pp.bin"; "withdraw_local_nova_vp.bin"; "withdraw_local_decider_pp.bin"; "withdraw_local_decider_vp.bin"; "WithdrawLocalNovaDecider.sol";
     "withdraw_global_nova_pp.bin"; "withdraw_global_nova_vp.bin"; "withdraw_global_decider_pp.bin"; "withdraw_global_decider_vp.bin"; "WithdrawGlobalNovaDecider.sol"]).
  { destruct (gg_files _ _ _ _ G1') as (? & ? & _ & _ & E1). destruct (gg_files _ _ _ _ G2') as (? & ? & _ & _ & E2).
    destruct (ng_files _ _ _ _ _ _ G3) as (? & ? & ? & ? & _ & _ & _ & _ & E3). destruct (ng_files _ _ _ _ _ _ G4) as (? & ? & ? & ? & _ & _ & _ & _ & E4).
    destruct (ng_files _ _ _ _ _ _ G5) as (? & ? & ? & ? & _ & _ & _ & _ & E5). unfold all. rewrite E1, E2, E3, E4, E5. reflexivity. }
  assert (Hrel : Forall (fun nb : string * bytes => is_relative nb.1 = true) all).
  { assert (Forall (fun n => is_relative n = true) all.*1) as HF by (rewrite Hall; repeat constructor). by apply Forall_fmap in HF. }
  assert (Hnd : NoDup all.*1). { rewrite Hall. apply (bool_decide_unpack _). vm_compute. exact I. }
  assert (Hl : forall n b, (n, b) ∈ all -> writes dir all fs !! path_join dir n = Some b) by (intros n b; by apply lookup_writes).
  exists cfg, (fun k => match k with Root => k3 | WithdrawLocal => k4 | WithdrawGlobal => k5 end), (fun k => match k with Root => d3 | WithdrawLocal => d4 | WithdrawGlobal => d5 end),
    (fun g : bool => if g then k2 else k1). split; [done| |].
  - intros kind prefix Hk. repeat (apply elem_of_cons in Hk as [[= -> ->]|Hk]); [exists l3|exists l4|exists l5|by apply not_elem_of_nil in Hk];
      (split; [done|]); intros n b Hn; apply Hl; unfold all; set_solver.
  - intros [|]; [exists l2|exists l1]; (split; [done|]); intros n b Hn; apply Hl; unfold all; set_solver.
Qed.

(** ** Loading *)

Context {attests : CircuitKind -> NovaPP * NovaVP -> NovaInstance -> Z -> list Z -> list Z -> Prop} {SL : SonobeLaws attests} {GL : Groth16Laws}.

Section loaded.
Context (dir : string) (fs : Files) (cfg : PoseidonConfig) (nk : CircuitKind -> NovaPP * NovaVP) (dk : CircuitKind -> DeciderPP * DeciderVP) (gk : bool -> Groth16PK * Groth16VK).
Context (Hgen : generated dir fs cfg nk dk gk).

Definition loaded_nova (kind : CircuitKind) : NovaParams := mkNovaParams cfg (nk kind).1 (nk kind).2.
Definition loaded_context (kind : CircuitKind) : CircuitContext := mkCircuitContext (loaded_nova kind) (mkDeciderParams (dk kind).1 (dk kind).2).
Definition loaded_groth16 (g : bool) : Groth16Params := mkGroth16Params (gk g).2 (gk g).1.
Definition kind_prefix (kind : CircuitKind) : string := match kind with Root => "root" | WithdrawLocal => "withdraw_local" | WithdrawGlobal => "withdraw_global" end.

Lemma kind_listed kind : (kind, kind_prefix kind) ∈ [(Root, "root"); (WithdrawLocal, "withdraw_local"); (WithdrawGlobal, "withdraw_global")].
Proof. destruct kind; set_solver. Qed.

Lemma kind_files kind : nova_keys kind cfg (nk kind) /\ decider_keys kind (nk kind) (dk kind)
  /\ exists pp vp dpp dvp, pp_serialize (nk kind).1 = Ok pp /\ vp_serialize (nk kind).2 = Ok vp /\ dpp_serialize (dk kind).1 = Ok dpp /\ dvp_serialize (dk kind).2 = Ok dvp
    /\ fs !! path_join dir (kind_prefix kind +:+ "_nova_pp.bin") = Some pp /\ fs !! path_join dir (kind_prefix kind +:+ "_nova_vp.bin") = Some vp
    /\ fs !! path_join dir (kind_prefix kind +:+ "_decider_pp.bin") = Some dpp /\ fs !! path_join dir (kind_prefix kind +:+ "_decider_vp.bin") = Some dvp
    /\ fs !! path_join dir (to_pascal_case (kind_prefix kind) +:+ "NovaDecider.sol")
       = Some (as_bytes (str_replace "NovaDecider" (to_pascal_case (kind_prefix kind) +:+ "NovaDecider") (decider_template (dk kind).2 (circuit_state_len kind)))).
Proof.
  destruct (gn_nova _ _ _ _ _ _ Hgen kind (kind_prefix kind) (kind_listed kind)) as (l & [Hk Hd (pp & vp & dpp & dvp & H1 & H2 & H3 & H4 & ->)] & Hl).
  split; [done|]. split; [done|]. exists pp, vp, dpp, dvp. unfold nova_files in Hl. split_and!; [done.. | | | | |]; apply Hl; set_solver.
Qed.

Lemma loads_nova kind : exists pp vp,
  fs_read (path_join dir (kind_prefix kind +:+ "_nova_pp.bin")) fs = Ok pp /\ fs_read (path_join dir (kind_prefix kind +:+ "_nova_vp.bin")) fs = Ok vp
  /\ NovaParams_from_bytes kind cfg pp vp = Ok (loaded_nova kind).
Proof.
  destruct (kind_files kind) as (Hk & _ & pp & vp & _ & _ & H1 & H2 & _ & _ & F1 & F2 & _). exists pp, vp. unfold fs_read. rewrite F1, F2. split_and!; [done..|].
  unfold NovaParams_from_bytes. by rewrite (sl_pp _ _ _ _ Hk H1), (sl_vp _ _ _ _ Hk H2).
Qed.

Lemma read_artifact_ok prefix suffix b : fs !! path_join dir (prefix +:+ "_" +:+ suffix) = Some b -> read_artifact dir prefix suffix fs = Ok b.
Proof. unfold read_artifact, fs_read. by intros ->. Qed.

Lemma loads_context kind : CircuitContext_load kind (kind_prefix kind) dir cfg fs = Ok (loaded_context kind).
Proof.
  destruct (kind_files kind) as (Hk & Hd & pp & vp & dpp & dvp & H1 & H2 & H3 & H4 & F1 & F2 & F3 & F4 & _).
  unfold CircuitContext_load. rewrite (read_artifact_ok _ "nova_pp.bin" _ F1), (read_artifact_ok _ "nova_vp.bin" _ F2), (read_artifact_ok _ "decider_pp.bin" _ F3),
    (read_artifact_ok _ "decider_vp.bin" _ F4). cbn. unfold NovaParams_from_bytes, DeciderParams_from_bytes.
  by rewrite (sl_pp _ _ _ _ Hk H1), (sl_vp _ _ _ _ Hk H2), (sl_dpp _ _ _ _ Hd H3), (sl_dvp _ _ _ _ Hd H4).
Qed.

Definition loaded_engine : ProverEngine := mkProverEngine (loaded_context Root) (Some (loaded_context WithdrawLocal)) (loaded_context WithdrawGlobal).

Lemma loads_engine : ProverEngine_load dir true fs = Ok loaded_engine.
Proof.
  unfold ProverEngine_load. rewrite (gn_config _ _ _ _ _ _ Hgen). cbn [ok_or].
  pose proof (loads_context Root) as H1. pose proof (loads_context WithdrawLocal) as H2. pose proof (loads_context WithdrawGlobal) as H3. cbn [kind_prefix] in *.
  cbn. by rewrite H1, H2, H3.
Qed.

Lemma loads_root : load_root_nova_params dir fs = Ok (loaded_nova Root).
Proof.
  destruct (loads_nova Root) as (pp & vp & H1 & H2 & H3). unfold load_root_nova_params. cbn [kind_prefix] in *. change ("root" +:+ "_nova_pp.bin") with "root_nova_pp.bin" in H1.
  change ("root" +:+ "_nova_vp.bin") with "root_nova_vp.bin" in H2. rewrite H1, H2, (gn_config _ _ _ _ _ _ Hgen). cbn. by rewrite H3.
Qed.

Definition withdraw_kind (g : bool) : CircuitKind := if g then WithdrawGlobal else WithdrawLocal.
Lemma height_prefix g : artifact_prefix (withdraw_height g) = Ok (withdraw_kind g, kind_prefix (withdraw_kind g)).
Proof. by destruct g. Qed.
Lemma loads_withdraw g : load_withdraw_params dir (withdraw_height g) fs = Ok (loaded_nova (withdraw_kind g)).
Proof.
  destruct (loads_nova (withdraw_kind g)) as (pp & vp & H1 & H2 & H3). unfold load_withdraw_params. rewrite height_prefix. cbn -[String.append].
  rewrite (gn_config _ _ _ _ _ _ Hgen). cbn -[String.append]. rewrite H1, H2. cbn. by rewrite H3.
Qed.

Lemma groth16_file g : groth16_keys (withdraw_height g) (gk g) /\ exists pk vk, pk_serialize (gk g).1 = Ok pk /\ vk_serialize (gk g).2 = Ok vk
  /\ fs !! path_join dir (kind_prefix (withdraw_kind g) +:+ "_groth16_pk.bin") = Some pk /\ fs !! path_join dir (kind_prefix (withdraw_kind g) +:+ "_groth16_vk.bin") = Some vk
  /\ fs !! path_join dir (if g then "WithdrawGlobalGroth16Verifier.sol" else "WithdrawLocalGroth16Verifier.sol")
     = Some (as_bytes (str_replace "Groth16Verifier" (if g then "WithdrawGlobalGroth16Verifier" else "WithdrawLocalGroth16Verifier") (groth16_template (gk g).2))).
Proof.
  destruct (gn_groth16 _ _ _ _ _ _ Hgen g) as (l & [Hk (pk & vk & H1 & H2 & ->)] & Hl). split; [done|]. exists pk, vk.
  destruct g; (split_and!; [done..| | |]); apply Hl; set_solver.
Qed.
Lemma loads_single g : load_single_withdraw_params dir (withdraw_height g) fs = Ok (loaded_groth16 g).
Proof.
  destruct (groth16_file g) as (Hk & pk & vk & H1 & H2 & F1 & F2 & _). unfold load_single_withdraw_params. rewrite height_prefix. cbn -[String.append].
  unfold fs_read. rewrite F1, F2. cbn. unfold Groth16Params_from_bytes. by rewrite (gl_pk _ _ _ Hk H1), (gl_vk _ _ _ Hk H2).
Qed.

(** ** Calldata *)

Lemma abi_encode_app l k : abi_encode_words (l ++ k) = abi_encode_words l ++ abi_encode_words k.
Proof. unfold abi_encode_words. by rewrite fmap_app, concat_app. Qed.

Lemma calldata_words n p eW eE kW kE :
  proof_kzg p = [(eW, kW); (eE, kE)] -> decider_calldata n p = Ok (abi_encode_words (opaque_proof n p eW eE kW kE)).
Proof.
  intros Hk. unfold decider_calldata, opaque_proof. rewrite Hk. rewrite !te_fr, !te_frs, !te_g1, te_snark. cbn [concat]. rewrite app_nil_r.
  rewrite !abi_encode_app. change (abi_encode_words [eW; eE]) with (abi_encode_words ([eW] ++ [eE])). rewrite abi_encode_app, <- !app_assoc. reflexivity.
Qed.

Lemma opaque_words n p eW eE kW kE :
  in_u256 (nova_i n) -> Forall is_fr (nova_z_0 n ++ nova_z_i n) -> Forall is_fr ([proof_r p; eW; eE] ++ proof_challenges p) ->
  Forall in_u256 (opaque_proof n p eW eE kW kE).
Proof.
  assert (forall l, Forall is_fr l -> Forall in_u256 l) as Hu by (intros l Hl; eapply Forall_impl; [exact Hl | apply is_fr_u256]).
  intros Hi [H0 Hz]%Hu%Forall_app Hp%Hu. cbn in Hp. apply Forall_cons in Hp as [Hr Hp]. apply Forall_cons in Hp as [HW Hp]. apply Forall_cons in Hp as [HE Hc].
  unfold opaque_proof. repeat (apply Forall_app_2 || apply te_g1_words || apply te_snark_words || done || constructor).
Qed.
Lemma opaque_length n p eW eE kW kE len :
  length (nova_z_0 n) = len -> length (nova_z_i n) = len -> length (proof_challenges p) = 2%nat -> length (opaque_proof n p eW eE kW kE) = (26 + 2 * len)%nat.
Proof.
  intros H0 Hz Hc. unfold opaque_proof. rewrite !length_app, H0, Hz, Hc, !(proj1 (te_g1_words _)), (proj1 (te_snark_words _)). cbn [length]. lia.
Qed.

(** The decider service with the loaded engine turns a folded proof into calldata that the deployed contract accepts. *)
Lemma engine_decides kind n i z0 z bs :
  attests kind (nk kind) n i z0 z -> 2 <= i < 2 ^ 64 -> length z0 = circuit_state_len kind -> length z = circuit_state_len kind -> Forall is_fr (z0 ++ z) ->
  ivc_proof_serialize (nova_ivc n) = Ok bs ->
  exists pf rest, ProverEngine_generate_decider_proof loaded_engine kind bs = Ok pf
    /\ abi_decode_words (26 + 2 * circuit_state_len kind) pf = Ok ([i] ++ z0 ++ z ++ rest)
    /\ accepts (default [] (fs !! path_join dir (to_pascal_case (kind_prefix kind) +:+ "NovaDecider.sol"))) ([i] ++ z0 ++ z ++ rest) = true.
Proof.
  intros Ha Hi L0 Lz Hfr Hbs. destruct (kind_files kind) as (Hk & Hd & _ & _ & _ & _ & _ & _ & _ & _ & _ & _ & _ & _ & Hsol).
  destruct (sl_ivc (nova_ivc n)) as (bs' & Hs & Hdes). rewrite Hbs in Hs. injection Hs as <-.
  destruct (sl_resume kind cfg (nk kind) n i z0 z Hk Ha ltac:(lia)) as (n' & Hres & Ha').
  destruct (sl_decider kind cfg (nk kind) (dk kind) n' i z0 z Hk Hd Ha' Hi) as (p & eW & eE & kW & kE & Hp & Hv & Hkzg & Lc & Hpf).
  destruct (sl_fields kind (nk kind) n' i z0 z Ha') as (F1 & F2 & F3).
  set (ws := opaque_proof n' p eW eE kW kE). exists (abi_encode_words ws).
  assert (exists rest, ws = [i] ++ z0 ++ z ++ rest) as [rest Hrest] by (unfold ws, opaque_proof; rewrite F1, F2, F3; by eexists). exists rest.
  assert (Hgen' : DeciderParams_generate_decider_proof (mkDeciderParams (dk kind).1 (dk kind).2) n' = Ok (abi_encode_words ws)).
  { unfold DeciderParams_generate_decider_proof. cbn [dp_pp dp_vp]. rewrite Hp. cbn [map_err mbind result_bind]. rewrite F1, F2, F3, Hv. cbn [map_err mbind result_bind negb]. by apply calldata_words. }
  split; [|split].
  - unfold ProverEngine_generate_decider_proof, generate_decider_proof, produce_decider.
    assert (engine_context loaded_engine kind = Some (loaded_context kind)) as Hctx by (by destruct kind).
    assert (context_verify loaded_engine kind (nova_ivc n) = Ok tt) as Hver.
    { unfold context_verify. rewrite Hctx. cbn. unfold NovaParams_verify. cbn. by rewrite (sl_verify _ _ _ _ _ _ Ha ltac:(lia)). }
    assert (NovaParams_nova_from_ivc_proof kind (loaded_nova kind) (nova_ivc n) = Ok n') as Hfrom.
    { unfold NovaParams_nova_from_ivc_proof, loaded_nova. cbn [np_f_params np_pp np_vp]. by rewrite <- (surjective_pairing (nk kind)), Hres. }
    assert (context_decide loaded_engine kind (nova_ivc n) = Ok (abi_encode_words ws)) as Hdec.
    { unfold context_decide. rewrite Hctx. cbn [ok_or mbind result_bind loaded_context cc_nova cc_decider]. rewrite Hfrom. cbn [map_err mbind result_bind]. by rewrite Hgen'. }
    destruct kind; cbn [loaded_engine pe_withdraw_local engine_of ivc_deserialize ivc_verify ivc_decide];
      rewrite Hdes; cbn [map_err mbind result_bind]; rewrite Hver; cbn [map_err mbind result_bind]; by rewrite Hdec.
  - rewrite <- Hrest. unfold ws. rewrite <- (opaque_length n' p eW eE kW kE (circuit_state_len kind)) by congruence. apply abi_roundtrip, opaque_words; [unfold in_u256; rewrite F1; lia | by rewrite F2, F3 | done].
  - rewrite <- Hrest, Hsol. cbn [default]. apply (sl_contract kind (nk kind) (dk kind)); [done | apply (bool_decide_unpack _); by destruct kind | by rewrite F1, F2, F3 | done].
Qed.

(** ** The laws of the provers *)

#[local] Instance loaded_deciders : Deciders := deployed_deciders accepts accepts_groth16 dir fs.
#[local] Instance loaded_client : DeciderClient := engine_client loaded_engine.

Lemma root_prover_laws : ProverLaws (NS := root_scheme (loaded_nova Root)) (attests Root (nk Root)).
Proof.
  destruct (kind_files Root) as (Hk & _). split; cbn [initial_nova prove_step nova_state nova_ivc_proof nova_verify nova_from_ivc_proof serialize_uncompressed deserialize_uncompressed root_scheme].
  - intros z0 L0. destruct (sl_init Root cfg (nk Root) z0 Hk L0) as (n & Hn & Ha). exists n. split; [|done].
    unfold NovaParams_initial_nova, loaded_nova. cbn. by rewrite <- surjective_pairing, Hn.
  - intros cfg' n i z0 z x z' Hcfg Ha Hx Hz. rewrite (gn_config _ _ _ _ _ _ Hgen) in Hcfg. injection Hcfg as <-. by eapply sl_root_step.
  - intros n i z0 z Ha. by apply (sl_fields _ _ _ _ _ _ Ha).
  - intros n i z0 z Ha Hi. unfold NovaParams_verify, loaded_nova. cbn. by rewrite (sl_verify _ _ _ _ _ _ Ha Hi).
  - apply sl_ivc.
  - intros n i z0 z Ha Hi. destruct (sl_resume _ _ _ _ _ _ _ Hk Ha Hi) as (n' & Hn & Ha'). exists n'. split; [|done].
    unfold NovaParams_nova_from_ivc_proof, loaded_nova. cbn. by rewrite <- surjective_pairing, Hn.
  - intros n i z0 z bs Ha Hi L0 Lz Hfr Hbs. destruct (engine_decides Root n i z0 z bs Ha Hi L0 Lz Hfr Hbs) as (pf & rest & H1 & H2 & H3). exists pf, rest.
    split_and!; [cbn [produce_decider_proof loaded_client engine_client]; by rewrite H1 | exact H2 | exact H3].
Qed.

Lemma withdraw_prover_laws : WithdrawProverLaws (N := withdraw_scheme dir fs) (attests WithdrawGlobal (nk WithdrawGlobal)).
Proof.
  destruct (kind_files WithdrawGlobal) as (Hk & _). pose proof (loads_withdraw true) as Hl. cbn [withdraw_height withdraw_kind] in Hl.
  split; cbn [withdraw_initial_nova withdraw_prove_step withdraw_ivc_proof withdraw_nova_verify withdraw_serialize withdraw_scheme].
  - intros z0 L0. destruct (sl_init WithdrawGlobal cfg (nk WithdrawGlobal) z0 Hk L0) as (n & Hn & Ha). exists n. split; [|done].
    pose proof (height_prefix true) as Hp. cbn [withdraw_height withdraw_kind] in Hp. rewrite Hp. cbn [mbind result_bind]. rewrite Hl. cbn [mbind result_bind].
    unfold NovaParams_initial_nova, loaded_nova. cbn. by rewrite <- surjective_pairing, Hn.
  - intros cfg' n i z0 z x z' Hcfg Ha Hx Hz. rewrite (gn_config _ _ _ _ _ _ Hgen) in Hcfg. injection Hcfg as <-. by eapply (sl_withdraw_step WithdrawGlobal).
  - intros n i z0 z Ha Hi. rewrite Hl. cbn [mbind result_bind]. unfold NovaParams_verify, loaded_nova. cbn. by rewrite (sl_verify _ _ _ _ _ _ Ha Hi).
  - intros p. destruct (sl_ivc p) as (bs & Hbs & _). by exists bs.
  - intros n i z0 z bs Ha Hi L0 Lz Hfr Hbs. destruct (engine_decides WithdrawGlobal n i z0 z bs Ha Hi L0 Lz Hfr Hbs) as (pf & rest & H1 & H2 & H3). exists pf, rest.
    split_and!; [cbn [produce_decider_proof loaded_client engine_client]; by rewrite H1 | exact H2 | exact H3].
Qed.

Lemma single_prover_laws : Groth16Complete (G := single_scheme dir fs).
Proof.
  split. intros g circuit inputs Hwf Hsat Hin. destruct (groth16_file g) as (Hk & _ & _ & _ & _ & _ & _ & Hsol).
  destruct (gl_complete _ _ _ _ Hk Hwf Hsat Hin) as (p & Hp & Hv). exists p. cbn [groth16_prove groth16_verify proof_to_eth single_scheme].
  rewrite (loads_single g). cbn [mbind result_bind loaded_groth16 g16_pk g16_vk]. rewrite Hp, Hv, te_g16. destruct (te_g16_words p) as [L8 U8].
  rewrite <- L8, (abi_words_encode _ U8). split_and!; [done.. |]. unfold singleWithdrawVerifier, loaded_deciders, deployed_deciders. cbv zeta.
  rewrite Hsol. cbn [default]. apply (gl_contract (withdraw_height g)); [done | | done]. apply (bool_decide_unpack _). by destruct g.
Qed.
End loaded.

End spec.

(** * Witness: transparent libraries, whose proofs are the statements they attest *)

Section witness.
#[local] Existing Instance easy_crypto.
#[local] Existing Instance easy_r1cs.

Definition clear_step {X} (step : list Z -> X -> Synth (list Z)) (n : CircuitKind * PoseidonConfig * (Z * list Z * list Z)) (x : X)
  : result string (CircuitKind * PoseidonConfig * (Z * list Z * list Z)) :=
  let '(i, z0, z) := n.2 in
  match step z x with Some (z', true) => Ok (n.1, (i + 1, z0, z')) | _ => Err "unsatisfied"%string end.

Definition clear_sonobe : Sonobe := {|
  StdRng := Z;
  seed_from_u64 := id;
  NovaPP := PoseidonConfig;
  NovaVP := PoseidonConfig;
  NovaInstance := CircuitKind * PoseidonConfig * (Z * list Z * list Z);
  NovaIvcProof := Z * list Z * list Z;
  DeciderPP := unit;
  DeciderVP := unit;
  DeciderProof := unit;
  G1 := unit;
  SnarkProof := unit;
  nova_preprocess := fun kind cfg rng => (rng + 1, Ok (cfg, cfg));
  nova_init := fun kind cfg ks z0 => Ok ((kind, ks.1), (0, z0, z0));
  nova_from_ivc := fun kind cfg ks p => Ok ((kind, ks.1), p);
  nova_verify_ivc := fun _ p => if 0 <? p.1.1 then Ok tt else Err "empty"%string;
  nova_root_step := fun n => clear_step (root_generate_step_constraints n.1.2) n;
  nova_withdraw_step := fun n => clear_step (withdraw_generate_step_constraints (kind_height n.1.1) n.1.2) n;
  nova_ivc := fun n => n.2;
  nova_i := fun n => n.2.1.1;
  nova_z_0 := fun n => n.2.1.2;
  nova_z_i := fun n => n.2.2;
  U_cmW := fun _ => tt;
  U_cmE := fun _ => tt;
  u_cmW := fun _ => tt;
  U_commitments := fun _ => [tt; tt];
  u_commitments := fun _ => [tt; tt];
  pp_serialize := fun _ => Ok [];
  vp_serialize := fun _ => Ok [];
  pp_deserialize := fun _ cfg _ => Ok cfg;
  vp_deserialize := fun _ cfg _ => Ok cfg;
  ivc_proof_serialize := fun p => Ok ([p.1.1; Z.of_nat (length p.1.2)] ++ p.1.2 ++ p.2);
  ivc_proof_deserialize := fun bs =>
    match bs with i :: n :: rest => Ok (i, take (Z.to_nat n) rest, drop (Z.to_nat n) rest) | _ => Err "short"%string end;
  dpp_serialize := fun _ => Ok [];
  dvp_serialize := fun _ => Ok [];
  dpp_deserialize := fun _ _ => Ok tt;
  dvp_deserialize := fun _ _ => Ok tt;
  decider_preprocess := fun _ _ _ rng => (rng + 1, Ok (tt, tt));
  decider_prove := fun _ n => if 2 <=? n.2.1.1 then Ok tt else Err "too few steps"%string;
  decider_verify := fun _ i _ _ _ _ _ => Ok (2 <=? i);
  proof_cmT := fun _ => tt;
  proof_r := fun _ => 7;
  proof_snark := fun _ => tt;
  proof_challenges := fun _ => [8; 9];
  proof_kzg := fun _ => [(10, tt); (11, tt)];
  fr_to_eth := fun x => abi_encode_words [x];
  frs_to_eth := abi_encode_words;
  g1_to_eth := fun _ => abi_encode_words [1; 2];
  snark_to_eth := fun _ => abi_encode_words (replicate 8 3);
  decider_template := fun _ _ => "contract NovaDecider {}"%string;
|}.
#[local] Existing Instance clear_sonobe.

Definition clear_groth16 : Groth16Lib clear_sonobe := {|
  Groth16PK := nat;
  Groth16VK := unit;
  G16Proof := unit;
  groth16_setup := fun circuit _ => Ok (length (sw_siblings circuit), tt);
  pk_serialize := fun d => Ok [Z.of_nat d];
  vk_serialize := fun _ => Ok [];
  pk_deserialize := fun bs => match bs with [d] => Ok (Z.to_nat d) | _ => Err "short"%string end;
  vk_deserialize := fun _ => Ok tt;
  g16_prove := fun d circuit => match sw_generate_constraints d circuit with Some (_, true) => Ok tt | _ => Err "unsatisfied"%string end;
  g16_verify := fun _ inputs _ => Ok (length inputs =? 3)%nat;
  g16_to_eth := fun _ => abi_encode_words (replicate 8 4);
  inputs_to_eth := abi_encode_words;
  groth16_template := fun _ => "contract Groth16Verifier {}"%string;
|}.
#[local] Existing Instance clear_groth16.

(** Compiled sources answer by their contract's name and the step count. *)
Definition clear_accepts (source : bytes) (ws : list Z) : bool :=
  bool_decide (source ∈ (fun name => as_bytes ("contract " +:+ name +:+ " {}")) <$> decider_contracts) && (2 <=? word ws 0).
Definition clear_accepts_groth16 (source : bytes) (proof inputs : list Z) : bool :=
  bool_decide (source ∈ (fun name => as_bytes ("contract " +:+ name +:+ " {}")) <$> groth16_contracts) && (length inputs =? 3)%nat.

#[local] Instance clear_to_eth : ToEthLaws.
Proof.
  refine {| g1_words := fun _ : @G1 clear_sonobe => [1; 2]; snark_words := fun _ : @SnarkProof clear_sonobe => replicate 8 3;
            g16_words := fun _ : @G16Proof _ clear_groth16 => replicate 8 4 |}; try reflexivity; intros; (split; [reflexivity|]); repeat constructor; unfold in_u256; lia.
Defined.

Definition clear_attests (kind : CircuitKind) (ks : @NovaPP clear_sonobe * @NovaVP clear_sonobe) (n : @NovaInstance clear_sonobe) (i : Z) (z0 z : list Z) : Prop :=
  n = ((kind, ks.1), (i, z0, z)).
Lemma clear_keys kind cfg ks : nova_keys kind cfg ks -> ks = (cfg, cfg).
Proof. intros (rng & rng' & H). cbn in H. by injection H as _ <-. Qed.

#[local] Instance clear_sonobe_laws : SonobeLaws clear_accepts clear_attests.
Proof.
  split.
  - intros kind cfg ks bs ->%clear_keys _. done.
  - intros kind cfg ks bs ->%clear_keys _. done.
  - intros kind ks [[] []] bs _ _. done.
  - intros kind ks [[] []] bs _ _. done.
  - intros [[i z0] z]. eexists. split; [reflexivity|]. cbn. by rewrite Nat2Z.id, take_app_length, drop_app_length.
  - intros kind cfg ks z0 _ _. by eexists.
  - intros cfg ks n i z0 z x z' ->%clear_keys -> _ Hs. eexists. split; [|reflexivity]. unfold nova_root_step, clear_sonobe, clear_step. cbn [fst snd]. by rewrite Hs.
  - intros kind cfg ks n i z0 z x z' _ ->%clear_keys -> _ Hs. eexists. split; [|reflexivity]. unfold nova_withdraw_step, clear_sonobe, clear_step. cbn [fst snd]. by rewrite Hs.
  - by intros kind ks n i z0 z ->.
  - intros kind ks n i z0 z -> Hi. cbn. by rewrite (proj2 (Z.ltb_lt _ _) Hi).
  - intros kind cfg ks n i z0 z _ -> _. by eexists.
  - intros kind cfg ks ds n i z0 z _ _ -> Hi. exists tt, 10, 11, tt, tt. cbn. rewrite (proj2 (Z.leb_le _ _)) by lia. split_and!; [done..|].
    repeat constructor; unfold is_fr; vm_compute; done.
  - intros kind ks ds n p eW eE kW kE name _ Hname Hv _. unfold clear_accepts. apply andb_true_iff. split.
    + apply bool_decide_eq_true_2. unfold decider_contracts in *. repeat (apply elem_of_cons in Hname as [->|Hname]); [..|by apply not_elem_of_nil in Hname];
        apply (bool_decide_unpack _); vm_compute; exact I.
    + apply (f_equal (fun r => match r with Ok b => b | Err _ => false end)) in Hv. exact Hv.
Qed.

#[local] Instance clear_groth16_laws : Groth16Laws clear_accepts_groth16.
Proof.
  assert (forall DEPTH ks, groth16_keys DEPTH ks -> ks = (DEPTH, tt)) as Hk.
  { intros DEPTH ks (cfg & rng & _ & H). cbn in H. injection H as <-. by rewrite length_replicate. }
  split.
  - intros DEPTH ks bs ->%Hk [= <-]. cbn. by rewrite Nat2Z.id.
  - intros DEPTH ks bs ->%Hk _. done.
  - intros DEPTH ks circuit inputs ->%Hk _ Hs Hin. exists tt. unfold g16_prove, g16_verify, clear_groth16. cbn [fst]. rewrite Hs. split; [done|].
    unfold public_inputs in Hin. destruct (sw_merkle_root circuit), (sw_recipient circuit), (sw_withdraw_value circuit); try discriminate Hin. by injection Hin as <-.
  - intros DEPTH ks inputs p name _ Hname Hv. unfold clear_accepts_groth16. apply andb_true_iff. split.
    + apply bool_decide_eq_true_2. unfold groth16_contracts in *. repeat (apply elem_of_cons in Hname as [->|Hname]); [..|by apply not_elem_of_nil in Hname];
        apply (bool_decide_unpack _); vm_compute; exact I.
    + apply (f_equal (fun r => match r with Ok b => b | Err _ => false end)) in Hv. exact Hv.
Qed.

End witness.
