(* ===== verification/Api.v ===== *)
(** The wire of the services: the types of [api-types/src/lib.rs] with their JSON and query-string encodings, the routes of the
    indexer's server ([run_http_server]) and its HTTP client [client-common/src/indexer/mod.rs].

    JSON is at the level of [serde_json::Value]; its text, the percent encoding of query strings and TCP are the libraries'.  [Url] and the formats of alloy
    are external. *)

From Stdlib Require Import Ascii.
From S2P Require Import Prelude Words Text Crypto BitPaths MerkleTrees Gadgets Circuits Database OnChain TreeDb Events Leases Jobs RootJob Teleport Payment Server Decider Storage Cli Redeem Wasm Indexer.
Local Open Scope Z_scope.

(** ** Values and fields, as [serde] derives them *)

Inductive JValue :=
| JNull
| JBool (b : bool)
| JNumber (n : Z)
| JString (s : string)
| JArray (l : list JValue)
| JObject (fields : list (string * JValue)).

(** The value of a field; a repeated field is an error, other fields are ignored. *)
Definition find_field {A} (name : string) (fields : list (string * A)) : result string (option A) :=
  match List.filter (fun kv => bool_decide (kv.1 = name)) fields with
  | [] => Ok None
  | [kv] => Ok (Some kv.2)
  | _ => Err ("duplicate field " +:+ name)
  end.
Definition field {A B} (de : A -> result string B) (name : string) (fields : list (string * A)) : result string B :=
  v ← find_field name fields;
  match v with Some v => de v | None => Err ("missing field " +:+ name) end.

Definition de_object {A} (f : list (string * JValue) -> result string A) (v : JValue) : result string A :=
  match v with JObject fields => f fields | _ => Err "invalid type" end.
Definition de_array {A} (f : JValue -> result string A) (v : JValue) : result string (list A) :=
  match v with JArray l => map_result f l | _ => Err "invalid type" end.
Definition de_string (v : JValue) : result string string := match v with JString s => Ok s | _ => Err "invalid type" end.
Definition de_u64 (v : JValue) : result string Z :=
  match v with JNumber n => if (0 <=? n) && (n <=? u64_max) then Ok n else Err "invalid value" | _ => Err "invalid type" end.
Definition ser_option {A} (ser : A -> JValue) (o : option A) : JValue := match o with Some a => ser a | None => JNull end.
(** [#[serde(default)]] of an [Option]. *)
Definition optional {A} (de : JValue -> result string A) (name : string) (fields : list (string * JValue)) : result string (option A) :=
  v ← find_field name fields;
  match v with None | Some JNull => Ok None | Some v => a ← de v; Ok (Some a) end.

(** ** [serde_utils] *)

(** [format!("{value:#x}")]: no leading zeros. *)
Definition hex_digit (d : Z) : ascii := default "0"%char (String.get (Z.to_nat d) "0123456789abcdef").
Fixpoint lower_hex_from (fuel : nat) (x : Z) (acc : string) : string :=
  match fuel with
  | O => acc
  | S fuel' => if x =? 0 then acc else lower_hex_from fuel' (x / 16) (String (hex_digit (x mod 16)) acc)
  end.
Definition lower_hex (x : Z) : string := if x =? 0 then "0" else lower_hex_from 64 x EmptyString.

(** [Display] of an address, and the formats of [WebLib]. *)
Class ApiText := { address_display : Z -> string }.

Section codec.
Context {W : WebLib} {T : ApiText}.

Definition api_parse_u256 (value : string) : result string Z :=
  let trimmed := trim value in
  let hex := default trimmed (strip_0x trimmed) in
  if bool_decide (hex = EmptyString) then Ok 0
  else ok_or ("invalid hex U256 '" +:+ value +:+ "'") (u256_from_str_radix_16 hex).

Definition u256_hex_text (value : Z) : string := "0x" +:+ lower_hex value.
Definition u256_hex_serialize (value : Z) : JValue := JString (u256_hex_text value).
Definition u256_hex_deserialize (v : JValue) : result string Z := input ← de_string v; api_parse_u256 input.
Definition u256_vec_hex_serialize (values : list Z) : JValue := JArray ((fun v => JString (u256_hex_text v)) <$> values).
Definition u256_vec_hex_deserialize (v : JValue) : result string (list Z) :=
  inputs ← de_array de_string v; map_result api_parse_u256 inputs.

(** [DisplayFromStr]. *)
Definition address_serialize (a : Z) : JValue := JString (address_display a).
Definition address_from_text (s : string) : result string Z := ok_or "invalid address"%string (Address_from_str s).
Definition address_deserialize (v : JValue) : result string Z := s ← de_string v; address_from_text s.

(** ** [api_types::indexer] *)

Definition TokenStatusResponse_serialize (s : TokenStatusResponse) : JValue :=
  JObject [("label", JString (ts_label s)); ("chain_id", JNumber (ts_chain_id s)); ("token_address", address_serialize (ts_token_address s));
           ("verifier_address", address_serialize (ts_verifier_address s)); ("onchain_reserved_index", ser_option JNumber (ts_onchain_reserved_index s));
           ("onchain_proved_index", ser_option JNumber (ts_onchain_proved_index s)); ("events_synced_index", ser_option JNumber (ts_events_synced_index s));
           ("tree_synced_index", ser_option JNumber (ts_tree_synced_index s)); ("ivc_generated_index", ser_option JNumber (ts_ivc_generated_index s))].
Definition TokenStatusResponse_deserialize : JValue -> result string TokenStatusResponse := de_object (fun o =>
  label ← field de_string "label" o;
  chain_id ← field de_u64 "chain_id" o;
  token_address ← field address_deserialize "token_address" o;
  verifier_address ← field address_deserialize "verifier_address" o;
  reserved ← optional de_u64 "onchain_reserved_index" o;
  proved ← optional de_u64 "onchain_proved_index" o;
  events ← optional de_u64 "events_synced_index" o;
  tree ← optional de_u64 "tree_synced_index" o;
  ivc ← optional de_u64 "ivc_generated_index" o;
  Ok (mkTokenStatus label chain_id token_address verifier_address reserved proved events tree ivc)).

Definition IndexedEvent_serialize (e : IndexedEvent) : JValue :=
  JObject [("event_index", JNumber (ie_event_index e)); ("from", address_serialize (ie_from e)); ("to", address_serialize (ie_to e));
           ("value", u256_hex_serialize (ie_value e)); ("eth_block_number", JNumber (ie_eth_block_number e))].
Definition IndexedEvent_deserialize : JValue -> result string IndexedEvent := de_object (fun o =>
  event_index ← field de_u64 "event_index" o;
  from ← field address_deserialize "from" o;
  to ← field address_deserialize "to" o;
  value ← field u256_hex_deserialize "value" o;
  eth_block_number ← field de_u64 "eth_block_number" o;
  Ok (mkIndexedEvent event_index from to value eth_block_number)).

(** The [HistoricalProof] of the API. *)
Definition HistoricalProof_serialize (p : ApiProof) : JValue :=
  JObject [("target_index", JNumber (ap_target_index p)); ("leaf_index", JNumber (ap_leaf_index p)); ("root", u256_hex_serialize (ap_root p));
           ("hash_chain", u256_hex_serialize (ap_hash_chain p)); ("siblings", u256_vec_hex_serialize (ap_siblings p))].
Definition HistoricalProof_deserialize : JValue -> result string ApiProof := de_object (fun o =>
  target_index ← field de_u64 "target_index" o;
  leaf_index ← field de_u64 "leaf_index" o;
  root ← field u256_hex_deserialize "root" o;
  hash_chain ← field u256_hex_deserialize "hash_chain" o;
  siblings ← field u256_vec_hex_deserialize "siblings" o;
  Ok (mkApiProof target_index leaf_index root hash_chain siblings)).

Definition TreeIndexResponse_serialize (tree_index : Z) : JValue := JObject [("tree_index"%string, JNumber tree_index)].
Definition TreeIndexResponse_deserialize : JValue -> result string Z := de_object (field de_u64 "tree_index").

Definition ProveManyRequest_serialize (r : ProveManyRequest) : JValue :=
  JObject [("chain_id", JNumber (pm_chain_id r)); ("token_address", address_serialize (pm_token_address r)); ("target_index", JNumber (pm_target_index r));
           ("leaf_indices", JArray (JNumber <$> pm_leaf_indices r))].
Definition ProveManyRequest_deserialize : JValue -> result string ProveManyRequest := de_object (fun o =>
  chain_id ← field de_u64 "chain_id" o;
  token_address ← field address_deserialize "token_address" o;
  target_index ← field de_u64 "target_index" o;
  leaf_indices ← field (de_array de_u64) "leaf_indices" o;
  Ok (mkProveManyRequest chain_id token_address target_index leaf_indices)).

(** Query strings: pairs of texts; [None] is left out. *)
Definition text_u64 (s : string) : result string Z := ok_or "invalid digit found in string"%string (u64_from_str_radix 10 s).
Definition text_optional {A} (de : string -> result string A) (name : string) (q : list (string * string)) : result string (option A) :=
  v ← find_field name q; match v with None => Ok None | Some s => a ← de s; Ok (Some a) end.

Definition EventsQuery_to_query (q : EventsQuery) : list (string * string) :=
  [("chain_id", u64_to_string (eq_chain_id q)); ("token_address", address_display (eq_token_address q)); ("to", address_display (eq_to q))]
  ++ match eq_limit q with Some l => [("limit"%string, u64_to_string l)] | None => [] end.
Definition EventsQuery_from_query (q : list (string * string)) : result string EventsQuery :=
  chain_id ← field text_u64 "chain_id" q;
  token_address ← field address_from_text "token_address" q;
  to ← field address_from_text "to" q;
  limit ← text_optional text_u64 "limit" q;
  Ok (mkEventsQuery chain_id token_address to limit).

Definition TreeIndexQuery_to_query (q : TreeIndexQuery) : list (string * string) :=
  [("chain_id", u64_to_string (ti_chain_id q)); ("token_address", address_display (ti_token_address q)); ("transfer_root", u256_hex_text (ti_transfer_root q))].
Definition TreeIndexQuery_from_query (q : list (string * string)) : result string TreeIndexQuery :=
  chain_id ← field text_u64 "chain_id" q;
  token_address ← field address_from_text "token_address" q;
  transfer_root ← field api_parse_u256 "transfer_root" q;
  Ok (mkTreeIndexQuery chain_id token_address transfer_root).
End codec.

(** ** [api_types::prover] *)

Record JobInfoResponse := mkJobInfoResponse { ji_job_id : string; ji_circuit : CircuitKind; ji_status : JobStatus }.

(** [rename_all = "snake_case"] gives the names of [Display]. *)
Definition de_circuit (v : JValue) : result string CircuitKind := s ← de_string v; CircuitKind_from_str s.
Definition de_status (v : JValue) : result string JobStatus := s ← de_string v; JobStatus_from_str s.
Definition JobRequest_serialize (r : JobRequest) : JValue :=
  JObject [("job_id", JString (jr_job_id r)); ("circuit", JString (CircuitKind_to_string (jr_circuit r))); ("ivc_proof", JString (jr_ivc_proof r))].
Definition JobRequest_deserialize : JValue -> result string JobRequest := de_object (fun o =>
  job_id ← field de_string "job_id" o;
  circuit ← field de_circuit "circuit" o;
  ivc_proof ← field de_string "ivc_proof" o;
  Ok (mkJobRequest job_id circuit ivc_proof)).
Definition JobStatusResponse_serialize (s : JobState) : JValue :=
  JObject [("job_id", JString (js_job_id s)); ("circuit", JString (CircuitKind_to_string (js_circuit s))); ("status", JString (JobStatus_to_string (js_status s)));
           ("result", ser_option JString (js_result s)); ("error", ser_option JString (js_error s))].
Definition JobStatusResponse_deserialize : JValue -> result string JobState := de_object (fun o =>
  job_id ← field de_string "job_id" o;
  circuit ← field de_circuit "circuit" o;
  status ← field de_status "status" o;
  res ← optional de_string "result" o;
  error ← optional de_string "error" o;
  Ok (mkJobState job_id circuit status res error)).
Definition SubmitJobResponse_serialize (r : SubmitJobResponse) : JValue :=
  JObject [("job_id", JString (sr_job_id r)); ("status", JString (JobStatus_to_string (sr_status r))); ("message", JString (sr_message r))].
Definition SubmitJobResponse_deserialize : JValue -> result string SubmitJobResponse := de_object (fun o =>
  job_id ← field de_string "job_id" o;
  status ← field de_status "status" o;
  message ← field de_string "message" o;
  Ok (mkSubmitJobResponse job_id status message)).
Definition JobInfoResponse_serialize (r : JobInfoResponse) : JValue :=
  JObject [("job_id", JString (ji_job_id r)); ("circuit", JString (CircuitKind_to_string (ji_circuit r))); ("status", JString (JobStatus_to_string (ji_status r)))].
Definition JobInfoResponse_deserialize : JValue -> result string JobInfoResponse := de_object (fun o =>
  job_id ← field de_string "job_id" o;
  circuit ← field de_circuit "circuit" o;
  status ← field de_status "status" o;
  Ok (mkJobInfoResponse job_id circuit status)).

(** ** HTTP *)

Inductive Method := GET | POST.
Record Request := mkRequest { rq_method : Method; rq_path : string; rq_query : list (string * string); rq_body : option JValue }.
(** [rs_body] is [None] when the body is not JSON. *)
Record Response := mkResponse { rs_status : Z; rs_body : option JValue }.

Class UrlLib := {
  Url : Type;
  url_path : Url -> string;
  url_set_path : string -> Url -> Url;
  url_join : Url -> string -> result string Url;
}.

(** [reqwest]: building a client, and sending a request. *)
Class Http (U : UrlLib) := {
  client_build : result string unit;
  http_send : Method -> Url -> list (string * string) -> option JValue -> result string Response;
}.

(** *** The server: [run_http_server] *)

Section server.
Context {C : Crypto} {W : WebLib} {T : ApiText}.
Variable connect : list string -> result string (Z -> VerifierStatus).

Definition error_response (e : ApiError) : option Response :=
  match e with
  | ErrorBadRequest _ => Some (mkResponse 400 None)
  | ErrorNotFound _ => Some (mkResponse 404 None)
  | ErrorInternalServerError _ => Some (mkResponse 500 None)
  | HandlerPanicked => None
  end.
Definition json_response {A} (ser : A -> JValue) (r : result ApiError A) : option Response :=
  match r with Ok a => Some (mkResponse 200 (Some (ser a))) | Err e => error_response e end.
(** A handler's answer, with the database it leaves. *)
Definition handled {A} (ser : A -> JValue) (m : M Db ApiError A) : Db -> Db * option Response := fun d =>
  let '(d', r) := m d in (d', json_response ser r).
Definition quick (status : Z) : Db -> Db * option Response := fun d => (d, Some (mkResponse status None)).
(** The extractors [Query] and [Json] answer 400 to what they cannot decode. *)
Definition extracted {A} (input : result string A) (f : A -> Db -> Db * option Response) : Db -> Db * option Response :=
  match input with Ok a => f a | Err _ => quick 400 end.
Definition body_of (r : Request) : result string JValue := ok_or "invalid body"%string (rq_body r).

(** The routes; another method of a route is 405, another path 404. [None]: the connection is dropped.
    Bodies over the framework's size limit are left out. *)
Definition serve (state : AppState) (r : Request) : Db -> Db * option Response :=
  if bool_decide (rq_path r = "/healthz"%string) then
    match rq_method r with GET => quick 200 | _ => quick 405 end
  else if bool_decide (rq_path r = "/status"%string) then
    match rq_method r with
    | GET => handled (fun l => JArray (TokenStatusResponse_serialize <$> l)) (tokens_status connect state)
    | _ => quick 405 end
  else if bool_decide (rq_path r = "/events"%string) then
    match rq_method r with
    | GET => extracted (EventsQuery_from_query (rq_query r)) (fun q =>
               handled (fun l => JArray (IndexedEvent_serialize <$> l)) (events_by_recipient state q))
    | _ => quick 405 end
  else if bool_decide (rq_path r = "/proofs"%string) then
    match rq_method r with
    | POST => extracted (v ← body_of r; ProveManyRequest_deserialize v) (fun q =>
                handled (fun l => JArray (HistoricalProof_serialize <$> l)) (prove_many_handler state q))
    | _ => quick 405 end
  else if bool_decide (rq_path r = "/tree-index"%string) then
    match rq_method r with
    | GET => extracted (TreeIndexQuery_from_query (rq_query r)) (fun q =>
               handled TreeIndexResponse_serialize (tree_index_by_root state q))
    | _ => quick 405 end
  else quick 404.

(** [run_http_server]: the registry is initialised from the database before the first request. *)
Definition run_http_server (tokens : list TokenEntry) (tree_config : DbMerkleTreeConfig) (tree_height : nat) : M Db string AppState :=
  TokenRegistry_initialise tokens ∅ ≫= fun registry =>
  mret (mkAppState registry tree_config tree_height).
End server.

(** *** The client: [HttpIndexerClient] *)

Inductive IndexerError :=
| ClientBuild
| InvalidEndpoint (path : string)
| EventsRequest
| EventsStatus
| EventsDecode
| ProofRequest
| ProofStatus
| ProofDecode
| TreeIndexRequest
| TreeIndexStatus
| TreeIndexDecode
| TestQueueEmpty (method : string).
Definition IndexerError_display (e : IndexerError) : string :=
  match e with
  | ClientBuild => "failed to build HTTP client for indexer"
  | InvalidEndpoint path => "invalid indexer base url while joining path '" +:+ path +:+ "'"
  | EventsRequest => "failed to query indexer events endpoint"
  | EventsStatus => "indexer events endpoint returned error status"
  | EventsDecode => "failed to decode indexer events response"
  | ProofRequest => "failed to submit indexer proof request"
  | ProofStatus => "indexer proof endpoint returned error status"
  | ProofDecode => "failed to decode indexer proof response"
  | TreeIndexRequest => "failed to query indexer tree index endpoint"
  | TreeIndexStatus => "indexer tree index endpoint returned error status"
  | TreeIndexDecode => "failed to decode indexer tree index response"
  | TestQueueEmpty method => "no queued response for " +:+ method +:+ " in TestIndexerClient"
  end.

Section client.
Context {W : WebLib} {T : ApiText} {U : UrlLib} {H : Http U}.

Record HttpIndexerClient := mkHttpIndexerClient { base_url : Url }.

(** [str::trim_end_matches('/')]. *)
Fixpoint trim_end_slashes (s : string) : string :=
  match s with
  | EmptyString => EmptyString
  | String a rest =>
    let rest' := trim_end_slashes rest in
    if bool_decide (rest' = EmptyString) && bool_decide (a = "/"%char) then EmptyString else String a rest'
  end.
Definition normalize_base (u : Url) : Url :=
  if negb (ends_with_slash (url_path u)) then url_set_path (trim_end_slashes (url_path u) +:+ "/") u else u.

Definition HttpIndexerClient_new (u : Url) : result IndexerError HttpIndexerClient :=
  let normalized := normalize_base u in
  _ ← map_err (fun _ => ClientBuild) client_build;
  Ok (mkHttpIndexerClient normalized).

Definition endpoint (c : HttpIndexerClient) (path : string) : result IndexerError Url :=
  map_err (fun _ => InvalidEndpoint path) (url_join (base_url c) path).

(** [send().await?.error_for_status()?.json().await?] *)
Definition exchange {A} (request status decode : IndexerError) (sent : result string Response) (de : JValue -> result string A) : result IndexerError A :=
  response ← map_err (fun _ => request) sent;
  _ ← (if 400 <=? rs_status response then Err status else Ok tt);
  v ← ok_or decode (rs_body response);
  map_err (fun _ => decode) (de v).

Definition HttpIndexerClient_events_by_recipient (c : HttpIndexerClient) (chain_id token_address to : Z) (limit : option Z) : result IndexerError (list IndexedEvent) :=
  url ← endpoint c "events";
  let params := mkEventsQuery chain_id token_address to limit in
  exchange EventsRequest EventsStatus EventsDecode (http_send GET url (EventsQuery_to_query params) None) (de_array IndexedEvent_deserialize).

Definition HttpIndexerClient_prove_many (c : HttpIndexerClient) (chain_id token_address target_index : Z) (leaf_indices : list Z) : result IndexerError (list ApiProof) :=
  url ← endpoint c "proofs";
  let payload := mkProveManyRequest chain_id token_address target_index leaf_indices in
  exchange ProofRequest ProofStatus ProofDecode (http_send POST url [] (Some (ProveManyRequest_serialize payload))) (de_array HistoricalProof_deserialize).

Definition HttpIndexerClient_tree_index_by_root (c : HttpIndexerClient) (chain_id token_address transfer_root : Z) : result IndexerError Z :=
  url ← endpoint c "tree-index";
  let params := mkTreeIndexQuery chain_id token_address transfer_root in
  exchange TreeIndexRequest TreeIndexStatus TreeIndexDecode (http_send GET url (TreeIndexQuery_to_query params) None) TreeIndexResponse_deserialize.

(** The client as the other components use it. *)
Definition wire_client (c : HttpIndexerClient) : IndexerClient := {|
  client_events_by_recipient := fun chain_id token_address to limit =>
    map_err IndexerError_display (HttpIndexerClient_events_by_recipient c chain_id token_address to limit);
  client_prove_many := fun chain_id token_address target_index leaf_indices =>
    map_err IndexerError_display (HttpIndexerClient_prove_many c chain_id token_address target_index leaf_indices);
|}.
End client.

(** ** [TestIndexerClient]: queued answers *)

Record TestIndexerClient := mkTestIndexerClient {
  tc_events : list (result IndexerError (list IndexedEvent));
  tc_prove_many : list (result IndexerError (list ApiProof));
  tc_tree_index : list (result IndexerError Z);
}.
Definition TestIndexerClient_new : TestIndexerClient := mkTestIndexerClient [] [] [].
Definition enqueue_events_response response (c : TestIndexerClient) : TestIndexerClient :=
  mkTestIndexerClient (tc_events c ++ [response]) (tc_prove_many c) (tc_tree_index c).
Definition enqueue_prove_many_response response (c : TestIndexerClient) : TestIndexerClient :=
  mkTestIndexerClient (tc_events c) (tc_prove_many c ++ [response]) (tc_tree_index c).
Definition enqueue_tree_index_response response (c : TestIndexerClient) : TestIndexerClient :=
  mkTestIndexerClient (tc_events c) (tc_prove_many c) (tc_tree_index c ++ [response]).
Definition take_next {A} (queue : list (result IndexerError A)) (method : string) : list (result IndexerError A) * result IndexerError A :=
  match queue with [] => ([], Err (TestQueueEmpty method)) | r :: queue' => (queue', r) end.
Definition test_events_by_recipient : M TestIndexerClient IndexerError (list IndexedEvent) := fun c =>
  let '(q, r) := take_next (tc_events c) "events_by_recipient" in (mkTestIndexerClient q (tc_prove_many c) (tc_tree_index c), r).
Definition test_prove_many : M TestIndexerClient IndexerError (list ApiProof) := fun c =>
  let '(q, r) := take_next (tc_prove_many c) "prove_many" in (mkTestIndexerClient (tc_events c) q (tc_tree_index c), r).
Definition test_tree_index_by_root : M TestIndexerClient IndexerError Z := fun c =>
  let '(q, r) := take_next (tc_tree_index c) "tree_index_by_root" in (mkTestIndexerClient (tc_events c) (tc_prove_many c) q, r).
