(* ===== verification/ApiSpec.v ===== *)
(** The wire of the services is transparent: what a client reads through URLs, query strings, JSON, routes and status codes is what the
    handler answered. *)

From Stdlib Require Import Ascii.
From S2P Require Import Prelude Words Text Crypto BitPaths MerkleTrees Gadgets Circuits Database OnChain OnChainSpec TreeDb TreeDbSpec Events EventsSpec Leases Jobs JobsSpec RootJob Teleport TeleportSpec TeleportFlow Payment Server ServerSpec Decider Storage StorageSpec Cli Redeem Wasm WasmSpec Indexer Api.
Local Open Scope Z_scope.

(** alloy parses what it prints. *)
Class ApiLaws (W : WebLib) (T : ApiText) : Prop := {
  al_radix : forall v, in_u256 v -> u256_from_str_radix_16 (lower_hex v) = Some v;
  al_address : forall a, in_u160 a -> Address_from_str (address_display a) = Some a;
}.

Definition endpoints : list string := ["events"; "proofs"; "tree-index"].
(** The URLs of [http]: [join] replaces what follows the last slash of the path. *)
Class UrlLaws (U : UrlLib) : Prop := {
  ul_set : forall u p, url_path (url_set_path ("/" +:+ p) u) = "/" +:+ p;
  ul_absolute : forall u, exists p, url_path u = "/" +:+ p;
  ul_join : forall u name, ends_with_slash (url_path u) = true -> name ∈ endpoints -> exists u', url_join u name = Ok u' /\ url_path u' = url_path u +:+ name;
}.

(** ** Numbers *)

Section codec.
Context {W : WebLib} {T : ApiText} {HA : ApiLaws W T}.

Lemma hex_digit_char d : 0 <= d < 16 -> is_hex_digit (hex_digit d) = true.
Proof.
  intros Hd. assert (d = 0 \/ d = 1 \/ d = 2 \/ d = 3 \/ d = 4 \/ d = 5 \/ d = 6 \/ d = 7 \/ d = 8 \/ d = 9 \/ d = 10 \/ d = 11 \/ d = 12 \/ d = 13 \/ d = 14 \/ d = 15) as H by lia.
  repeat destruct H as [->|H]; try reflexivity. by subst.
Qed.
Lemma lower_hex_from_digits fuel : forall x acc, hex_digits acc = true -> hex_digits (lower_hex_from fuel x acc) = true.
Proof.
  induction fuel as [|fuel IH]; intros x acc Ha; [done|]. cbn [lower_hex_from]. case_match; [done|]. apply IH. cbn [hex_digits].
  rewrite hex_digit_char by (apply Z.mod_pos_bound; lia). done.
Qed.
Lemma lower_hex_digits x : hex_digits (lower_hex x) = true.
Proof. unfold lower_hex. case_match; [done|]. by apply lower_hex_from_digits. Qed.
Lemma lower_hex_from_nonempty fuel : forall x acc, acc <> EmptyString -> lower_hex_from fuel x acc <> EmptyString.
Proof. induction fuel as [|fuel IH]; intros x acc Ha; [done|]. cbn [lower_hex_from]. case_match; [done|]. by apply IH. Qed.
Lemma lower_hex_nonempty x : lower_hex x <> EmptyString.
Proof.
  unfold lower_hex. destruct (x =? 0) eqn:E; [done|]. change (lower_hex_from 64 x EmptyString) with (if x =? 0 then EmptyString else lower_hex_from 63 (x / 16) (String (hex_digit (x mod 16)) EmptyString)).
  rewrite E. by apply lower_hex_from_nonempty.
Qed.

Lemma parse_u256_text v : in_u256 v -> api_parse_u256 (u256_hex_text v) = Ok v.
Proof.
  intros Hv. unfold api_parse_u256, u256_hex_text. rewrite trim_0x by apply lower_hex_digits. change (strip_0x ("0x" +:+ lower_hex v)) with (Some (lower_hex v)).
  change (default ?x (Some ?y)) with y. rewrite bool_decide_eq_false_2 by apply lower_hex_nonempty. by rewrite al_radix.
Qed.
Lemma u256_hex_roundtrip v : in_u256 v -> u256_hex_deserialize (u256_hex_serialize v) = Ok v.
Proof. intros Hv. unfold u256_hex_deserialize, u256_hex_serialize. cbn. by apply parse_u256_text. Qed.
Lemma u256_vec_roundtrip l : Forall in_u256 l -> u256_vec_hex_deserialize (u256_vec_hex_serialize l) = Ok l.
Proof.
  intros Hl. unfold u256_vec_hex_deserialize, u256_vec_hex_serialize. cbn [de_array]. rewrite (map_result_fmap _ _ u256_hex_text) by done. cbn [mbind result_bind].
  rewrite (map_result_fmap _ _ id); [by rewrite list_fmap_id|]. intros v Hv. apply parse_u256_text. by apply (proj1 (Forall_forall _ _) Hl).
Qed.
Lemma de_u64_ok n : in_u64 n -> de_u64 (JNumber n) = Ok n.
Proof. intros Hn. unfold in_u64 in Hn. cbn. rewrite (proj2 (Z.leb_le 0 n)), (proj2 (Z.leb_le n u64_max)) by (unfold u64_max; lia). done. Qed.
Lemma text_u64_ok n : in_u64 n -> text_u64 (u64_to_string n) = Ok n.
Proof.
  intros Hn. destruct (pretty_digits n Hn) as (H1 & H2 & H3). unfold text_u64. by rewrite from_str_radix_unsigned, H1.
Qed.
Lemma address_text_ok a : in_u160 a -> address_from_text (address_display a) = Ok a.
Proof. intros Ha. unfold address_from_text. by rewrite al_address. Qed.
Lemma address_roundtrip a : in_u160 a -> address_deserialize (address_serialize a) = Ok a.
Proof. apply address_text_ok. Qed.

Lemma field_at {A B} (de : A -> result string B) name fields v : find_field name fields = Ok (Some v) -> field de name fields = de v.
Proof. unfold field. by intros ->. Qed.
Lemma optional_at {A} (de : JValue -> result string A) name fields (ser : A -> JValue) o :
  find_field name fields = Ok (Some (ser_option ser o)) -> (forall a, ser a <> JNull) -> (forall a, o = Some a -> de (ser a) = Ok a) -> optional de name fields = Ok o.
Proof. unfold optional. intros -> Hn Hd. destruct o as [a|]; [|done]. cbn. specialize (Hd a eq_refl). specialize (Hn a). destruct (ser a); try done; by rewrite Hd. Qed.

Lemma text_optional_at {A} (de : string -> result string A) name q s : find_field name q = Ok (Some s) -> text_optional de name q = (a ← de s; Ok (Some a)).
Proof. unfold text_optional. by intros ->. Qed.

(** ** Messages *)

Definition event_in_range (e : IndexedEvent) : Prop :=
  in_u64 (ie_event_index e) /\ in_u160 (ie_from e) /\ in_u160 (ie_to e) /\ in_u256 (ie_value e) /\ in_u64 (ie_eth_block_number e).
Definition proof_in_range (p : ApiProof) : Prop :=
  in_u64 (ap_target_index p) /\ in_u64 (ap_leaf_index p) /\ in_u256 (ap_root p) /\ in_u256 (ap_hash_chain p) /\ Forall in_u256 (ap_siblings p).

#[local] Ltac fields := repeat (erewrite field_at by reflexivity); cbn [snd].

Lemma IndexedEvent_roundtrip e : event_in_range e -> IndexedEvent_deserialize (IndexedEvent_serialize e) = Ok e.
Proof.
  intros (H1 & H2 & H3 & H4 & H5). destruct e as [i f t v b]. cbn in *. unfold IndexedEvent_deserialize, IndexedEvent_serialize, de_object. cbn [ie_event_index ie_from ie_to ie_value ie_eth_block_number].
  fields. rewrite !de_u64_ok, !address_roundtrip, u256_hex_roundtrip by done. reflexivity.
Qed.
Lemma HistoricalProof_roundtrip p : proof_in_range p -> HistoricalProof_deserialize (HistoricalProof_serialize p) = Ok p.
Proof.
  intros (H1 & H2 & H3 & H4 & H5). destruct p as [t l r h s]. cbn in *. unfold HistoricalProof_deserialize, HistoricalProof_serialize, de_object.
  cbn [ap_target_index ap_leaf_index ap_root ap_hash_chain ap_siblings]. fields. rewrite !de_u64_ok, !u256_hex_roundtrip, u256_vec_roundtrip by done. reflexivity.
Qed.

Lemma ProveManyRequest_roundtrip r :
  in_u64 (pm_chain_id r) -> in_u160 (pm_token_address r) -> in_u64 (pm_target_index r) -> Forall in_u64 (pm_leaf_indices r) ->
  ProveManyRequest_deserialize (ProveManyRequest_serialize r) = Ok r.
Proof.
  intros H1 H2 H3 H4. destruct r as [c t i l]. cbn in *. unfold ProveManyRequest_deserialize, ProveManyRequest_serialize, de_object.
  cbn [pm_chain_id pm_token_address pm_target_index pm_leaf_indices]. fields. rewrite !de_u64_ok, address_roundtrip by done. cbn [mbind result_bind de_array].
  rewrite (map_result_fmap _ _ id); [by rewrite list_fmap_id|]. intros v Hv. apply de_u64_ok. by apply (proj1 (Forall_forall _ _) H4).
Qed.
Lemma EventsQuery_roundtrip q :
  in_u64 (eq_chain_id q) -> in_u160 (eq_token_address q) -> in_u160 (eq_to q) -> (forall l, eq_limit q = Some l -> in_u64 l) ->
  EventsQuery_from_query (EventsQuery_to_query q) = Ok q.
Proof.
  intros H1 H2 H3 H4. destruct q as [c t a [l|]]; cbn in *; unfold EventsQuery_from_query, EventsQuery_to_query; cbn [eq_chain_id eq_token_address eq_to eq_limit app]; fields;
    rewrite text_u64_ok, !address_text_ok by done; cbn [mbind result_bind]; [|reflexivity]. erewrite text_optional_at by reflexivity. cbn [snd]. by rewrite text_u64_ok by by apply H4.
Qed.
Lemma TreeIndexQuery_roundtrip q :
  in_u64 (ti_chain_id q) -> in_u160 (ti_token_address q) -> in_u256 (ti_transfer_root q) -> TreeIndexQuery_from_query (TreeIndexQuery_to_query q) = Ok q.
Proof.
  intros H1 H2 H3. destruct q as [c t r]. cbn in *. unfold TreeIndexQuery_from_query, TreeIndexQuery_to_query. cbn [ti_chain_id ti_token_address ti_transfer_root]. fields.
  by rewrite text_u64_ok, address_text_ok, parse_u256_text.
Qed.

(** The messages of the status page and of the decider service. *)
Lemma TokenStatusResponse_roundtrip t :
  in_u64 (ts_chain_id t) -> in_u160 (ts_token_address t) -> in_u160 (ts_verifier_address t) ->
  Forall (fun o => forall n, o = Some n -> in_u64 n) [ts_onchain_reserved_index t; ts_onchain_proved_index t; ts_events_synced_index t; ts_tree_synced_index t; ts_ivc_generated_index t] ->
  TokenStatusResponse_deserialize (TokenStatusResponse_serialize t) = Ok t.
Proof.
  intros H1 H2 H3 H4. destruct t as [l c a v o1 o2 o3 o4 o5]. cbn in *. rewrite !Forall_cons in H4. destruct H4 as (O1 & O2 & O3 & O4 & O5 & _).
  unfold TokenStatusResponse_deserialize, TokenStatusResponse_serialize, de_object.
  cbn [ts_label ts_chain_id ts_token_address ts_verifier_address ts_onchain_reserved_index ts_onchain_proved_index ts_events_synced_index ts_tree_synced_index ts_ivc_generated_index].
  fields. rewrite de_u64_ok, !address_roundtrip by done. cbn [de_string mbind result_bind].
  assert (forall name fields o, find_field name fields = Ok (Some (ser_option JNumber o)) -> (forall n, o = Some n -> in_u64 n) -> optional de_u64 name fields = Ok o) as Hopt.
  { intros name fields o Hf Ho. eapply optional_at; [exact Hf | done |]. intros n Hn. apply de_u64_ok. by apply Ho. }
  rewrite (Hopt "onchain_reserved_index" _ o1), (Hopt "onchain_proved_index" _ o2), (Hopt "events_synced_index" _ o3), (Hopt "tree_synced_index" _ o4),
    (Hopt "ivc_generated_index" _ o5) by (reflexivity || assumption). reflexivity.
Qed.
Lemma prover_messages_roundtrip request state response info :
  JobRequest_deserialize (JobRequest_serialize request) = Ok request /\ JobStatusResponse_deserialize (JobStatusResponse_serialize state) = Ok state
  /\ SubmitJobResponse_deserialize (SubmitJobResponse_serialize response) = Ok response /\ JobInfoResponse_deserialize (JobInfoResponse_serialize info) = Ok info.
Proof. destruct request as [? [] ?], state as [? [] [] [] []], response as [? [] ?], info as [? [] []]; split_and!; reflexivity. Qed.
End codec.

(** ** The client and the server *)

Section wire.
Context {C : Crypto} {W : WebLib} {T : ApiText} {HA : ApiLaws W T} {U : UrlLib} {HU : UrlLaws U} {H : Http U}.
Context (connect : list string -> result string (Z -> VerifierStatus)) (state : AppState) (d : Db).

(** The server is mounted at a path, the root when it is empty, and answers every request. *)
Record mounted (mount : string) : Prop := {
  mo_build : client_build = Ok tt;
  mo_server : forall m u p q b, url_path u = mount +:+ p ->
    match (serve connect state (mkRequest m p q b) d).2 with
    | Some r => http_send m u q b = Ok r
    | None => exists e, http_send m u q b = Err e
    end;
}.

Lemma str_app_assoc (a b c : string) : a +:+ (b +:+ c) = (a +:+ b) +:+ c.
Proof. induction a as [|x a IH]; [done|]. exact (f_equal (String x) IH). Qed.
Lemma ends_with_slash_app s t : t <> EmptyString -> ends_with_slash (s +:+ t) = ends_with_slash t.
Proof.
  intros Ht. induction s as [|a s IH]; [done|]. change (String a s +:+ t) with (String a (s +:+ t)).
  destruct (s +:+ t) as [|b r] eqn:E; [destruct s; [done | discriminate E]|]. exact IH.
Qed.
Lemma trim_end_slashes_id s : ends_with_slash s = false -> trim_end_slashes s = s.
Proof.
  induction s as [|a s IH]; [done|]. intros Hs. cbn [trim_end_slashes]. destruct s as [|b s].
  - cbn in *. by rewrite Hs.
  - cbn [ends_with_slash] in Hs. rewrite (IH Hs). by rewrite bool_decide_eq_false_2.
Qed.

(** A base URL with or without the trailing slash reaches the endpoints under its path. *)
Lemma endpoint_of_base u mount name :
  url_path u = mount +:+ "/" \/ (url_path u = mount /\ ends_with_slash mount = false) -> client_build = Ok tt -> name ∈ endpoints ->
  exists c u', HttpIndexerClient_new u = Ok c /\ endpoint c name = Ok u' /\ url_path u' = mount +:+ "/" +:+ name.
Proof.
  intros Hu Hb Hn. unfold HttpIndexerClient_new. rewrite Hb. cbn [map_err mbind result_bind]. exists (mkHttpIndexerClient (normalize_base u)). unfold endpoint. cbn [base_url].
  assert (url_path (normalize_base u) = mount +:+ "/" /\ ends_with_slash (url_path (normalize_base u)) = true) as [Hp Hs].
  { unfold normalize_base. destruct Hu as [Hu|[Hu Hm]].
    - assert (ends_with_slash (url_path u) = true) as E by (rewrite Hu; by rewrite ends_with_slash_app). rewrite E. cbn [negb]. by rewrite E.
    - rewrite Hu, Hm. cbn [negb]. rewrite (trim_end_slashes_id _ Hm). destruct (ul_absolute u) as [p Hp]. rewrite Hu in Hp. rewrite Hp.
      rewrite (ul_set u (p +:+ "/") : url_path (url_set_path (("/" +:+ p) +:+ "/") u) = _). split; [done|]. exact (ends_with_slash_app ("/" +:+ p) "/" ltac:(done)). }
  destruct (ul_join (normalize_base u) name Hs Hn) as (u' & Hj & Hpath). exists u'. split; [reflexivity|]. rewrite Hj. split; [done|].
  rewrite Hpath, Hp. symmetry. apply str_app_assoc.
Qed.

(** A decoded answer of a handler. *)
Definition answered {A} (request status : IndexerError) (r : result ApiError A) (in_range : A -> Prop) (client : result IndexerError A) : Prop :=
  match r with
  | Ok a => in_range a -> client = Ok a
  | Err HandlerPanicked => client = Err request
  | Err _ => client = Err status
  end.

Lemma exchange_answered {A} request status decode (ser : A -> JValue) (de : JValue -> result string A) (r : result ApiError A) sent in_range :
  match json_response ser r with Some x => sent = Ok x | None => exists e, sent = Err e end ->
  (forall a, in_range a -> de (ser a) = Ok a) -> answered request status r in_range (exchange request status decode sent de).
Proof.
  intros Hs Hrt. destruct r as [a|[]]; cbn in *; [|by rewrite Hs..|by destruct Hs as [e ->]]. intros Ha. rewrite Hs. unfold exchange. cbn. by rewrite Hrt.
Qed.

Lemma handled_answer {A} (ser : A -> JValue) (m : M Db ApiError A) : (handled ser m d).2 = json_response ser (m d).2.
Proof. unfold handled. by destruct (m d). Qed.

(** The request for events. *)
Lemma events_answered mount c url chain_id token_address to limit :
  mounted mount -> endpoint c "events" = Ok url -> url_path url = mount +:+ "/" +:+ "events" ->
  in_u64 chain_id -> in_u160 token_address -> in_u160 to -> (forall l, limit = Some l -> in_u64 l) ->
  answered EventsRequest EventsStatus (events_by_recipient state (mkEventsQuery chain_id token_address to limit) d).2 (Forall event_in_range)
    (HttpIndexerClient_events_by_recipient c chain_id token_address to limit).
Proof.
  intros [_ Hsrv] He Pe R1 R2 R3 R4. unfold HttpIndexerClient_events_by_recipient. rewrite He. cbn [mbind result_bind].
  apply (exchange_answered _ _ _ (fun l => JArray (IndexedEvent_serialize <$> l))).
  - set (q := mkEventsQuery chain_id token_address to limit). specialize (Hsrv GET url ("/" +:+ "events") (EventsQuery_to_query q) None Pe).
    unfold serve in Hsrv. cbn [rq_path rq_method rq_query] in Hsrv. rewrite (EventsQuery_roundtrip q R1 R2 R3 R4) in Hsrv. rewrite <- handled_answer. exact Hsrv.
  - intros l Hl. cbn [de_array]. rewrite (map_result_fmap _ _ id); [by rewrite list_fmap_id|]. intros e Hin. apply IndexedEvent_roundtrip. by apply (proj1 (Forall_forall _ _) Hl).
Qed.

End wire.

(** * Witness: an event served behind a path *)

Section witness.
#[local] Existing Instance toy_crypto.

Definition hex_value_of (a : ascii) : option Z :=
  let n := byte_of a in
  if (48 <=? n) && (n <=? 57) then Some (n - 48) else if (97 <=? n) && (n <=? 102) then Some (n - 87) else None.
Fixpoint hex_val (acc : Z) (s : string) : option Z :=
  match s with EmptyString => Some acc | String a s' => match hex_value_of a with Some x => hex_val (acc * 16 + x) s' | None => None end end.

Lemma hex_value_digit x : 0 <= x < 16 -> hex_value_of (hex_digit x) = Some x.
Proof.
  intros Hd. assert (x = 0 \/ x = 1 \/ x = 2 \/ x = 3 \/ x = 4 \/ x = 5 \/ x = 6 \/ x = 7 \/ x = 8 \/ x = 9 \/ x = 10 \/ x = 11 \/ x = 12 \/ x = 13 \/ x = 14 \/ x = 15) as H by lia.
  repeat destruct H as [->|H]; try reflexivity. by subst.
Qed.
Lemma hex_val_lower fuel : forall x acc, 0 <= x < 16 ^ Z.of_nat fuel -> hex_val 0 (lower_hex_from fuel x acc) = hex_val x acc.
Proof.
  induction fuel as [|fuel IH]; intros x acc Hx; [assert (x = 0) as -> by (cbn in Hx; lia); done|]. cbn [lower_hex_from]. destruct (Z.eqb_spec x 0) as [->|Hn]; [done|].
  rewrite Nat2Z.inj_succ, Z.pow_succ_r in Hx by lia. rewrite IH by (split; [apply Z.div_pos; lia | apply Z.div_lt_upper_bound; lia]).
  cbn [hex_val]. rewrite hex_value_digit by (apply Z.mod_pos_bound; lia). f_equal. pose proof (Z.div_mod x 16 ltac:(lia)). lia.
Qed.
Lemma hex_val_ok v : 0 <= v < 2 ^ 256 -> hex_val 0 (lower_hex v) = Some v.
Proof. intros Hv. unfold lower_hex. destruct (Z.eqb_spec v 0) as [->|]; [done|]. rewrite hex_val_lower; [done|]. change (16 ^ Z.of_nat 64) with (2 ^ 256). lia. Qed.

Definition plain_web : WebLib := {|
  u256_from_str_radix_16 := hex_val 0;
  Address_from_str := fun s => hex_val 0 (default s (strip_0x s));
  address_to_hex_string := fun a => "0x" +:+ lower_hex a;
|}.
Definition plain_text : ApiText := {| address_display := fun a => "0x" +:+ lower_hex a |}.
#[local] Existing Instance plain_web.
#[local] Existing Instance plain_text.
#[local] Instance plain_laws : ApiLaws plain_web plain_text.
Proof.
  split; cbn.
  - intros v Hv. by apply hex_val_ok.
  - intros a Ha. apply hex_val_ok. unfold in_u160 in Ha. lia.
Qed.

(** A URL is its path after the first slash. *)
Definition plain_url : UrlLib := {|
  Url := string;
  url_path := fun u => "/" +:+ u;
  url_set_path := fun p _ => match p with String _ rest => rest | EmptyString => EmptyString end;
  url_join := fun u name => if ends_with_slash ("/" +:+ u) then Ok (u +:+ name) else Err "relative URL without a base"%string;
|}.
#[local] Existing Instance plain_url.
#[local] Instance plain_url_laws : UrlLaws plain_url.
Proof. split; [done | by eexists |]. intros u name Hs _. cbn [url_join url_path plain_url] in *. rewrite Hs. by eexists. Qed.

(** The proxy that serves the indexer under [/api]. *)
Definition no_nodes (urls : list string) : result string (Z -> VerifierStatus) := Err "no node"%string.
Definition proxied (p : string) : option string :=
  if String.prefix "/api" p then Some (String.substring 4 (String.length p - 4) p) else None.
Definition plain_http : Http plain_url := {|
  client_build := Ok tt;
  http_send := fun m u q b =>
    match proxied (url_path u) with
    | Some p => ok_or "connection closed"%string (serve no_nodes toy_state (mkRequest m p q b) toy_served_db).2
    | None => Err "no route to host"%string
    end;
|}.
#[local] Existing Instance plain_http.

Lemma substring_all s : String.substring 0 (String.length s) s = s.
Proof. induction s as [|a s IH]; [done|]. cbn [String.length String.substring]. by rewrite IH. Qed.
Lemma proxied_app p : proxied ("/api" +:+ p) = Some p.
Proof.
  unfold proxied. change (String.prefix "/api" ("/api" +:+ p)) with (String.prefix EmptyString p).
  change (String.substring 4 (String.length ("/api" +:+ p) - 4) ("/api" +:+ p)) with (String.substring 0 (String.length p - 0) p).
  rewrite Nat.sub_0_r, substring_all. by destruct p.
Qed.
Lemma plain_mounted : mounted no_nodes toy_state toy_served_db "/api".
Proof.
  split; [done|]. intros m u p q b Hu. cbn [http_send plain_http]. rewrite Hu, proxied_app. destruct (serve _ _ _ _).2; [done|]. by eexists.
Qed.

Definition plain_base : @Url plain_url := "api"%string.

End witness.
