(* ===== verification/Service.v ===== *)
(** The indexer as a running service: the mode of [indexer/src/main.rs] without [--once].

    The HTTP server and the endless loops of the three jobs run concurrently on one database; every iteration of a job and every
    request is one event of the service, and any sequence of events is a run.  Nodes are live: what they answer may be different at
    every event. *)

From Stdlib Require Import Ascii.
From S2P Require Import Prelude Words Text Crypto BitPaths MerkleTrees Circuits Database OnChain TreeDb Events Leases Jobs RootJob Payment Server Storage Indexer Wasm Api.
Local Open Scope Z_scope.

(** The iterations of [run_forever] of the three jobs, the start of the server and a request to it. *)
Inductive ServiceEvent :=
| EventTick (e : RunEnv)
| TreeTick (e : RunEnv)
| RootTick (e : RunEnv) (do_compile do_submit : bool)
| ServerStart
| HttpRequest (r : Request).

(** The database and the contracts, what the nodes of the tokens answer, and the state of the server when it has started. *)
Record ServiceState := mkServiceState {
  ss_world : World;
  ss_nodes : TokenMetadata -> EthNode;
  ss_server : option AppState;
}.

(** What [main] has built when the loops start. *)
Record Service := mkService {
  sv_jobs : IndexerJobs;
  sv_tokens : list TokenEntry;
  sv_tree_config : DbMerkleTreeConfig;
  sv_tree_height : nat;
  sv_mode : Mode;
}.

(** The contexts of the event job hold connections, not answers. *)
Definition live (nodes : TokenMetadata -> EthNode) (job : EventSyncJob) : EventSyncJob :=
  mkEventSyncJob
    ((fun t => mkEventTokenContext (etc_label t) (etc_metadata t) (etc_deployed_block_number t) (nodes (etc_metadata t)) (etc_lock_key t))
       <$> esj_tokens job)
    (esj_interval_ms job) (esj_indexer_config job).

(** Which futures [main] runs. *)
Definition enabled (mode : Mode) (ev : ServiceEvent) : bool :=
  match mode, ev with
  | OnceFinished, _ => false
  | ServeOnly, (EventTick _ | TreeTick _ | RootTick _ _ _) => false
  | _, _ => true
  end.

Section service.
Context {C : Crypto} {D : Deciders} {NS : NovaScheme} {DC : DeciderClient} {RPC : Rpc} {W : WebLib} {T : ApiText}.
(** The providers of the status page. *)
Variable connect_status : list string -> result string (Z -> VerifierStatus).

Definition on_service_db (f : Db -> Db) (s : ServiceState) : ServiceState :=
  mkServiceState (set_db (f (w_db (ss_world s))) (ss_world s)) (ss_nodes s) (ss_server s).

(** A failed initialisation of the registry ends the process. *)
Definition start_server (sv : Service) (s : ServiceState) : ServiceState :=
  match ss_server s with
  | Some _ => s
  | None =>
    let '(d, r) := run_http_server (sv_tokens sv) (sv_tree_config sv) (sv_tree_height sv) (w_db (ss_world s)) in
    mkServiceState (set_db d (ss_world s)) (ss_nodes s) (match r with Ok state => Some state | Err _ => None end)
  end.

(** One event, with the response of a request; a request before the server listens is refused. *)
Definition service_tick (sv : Service) (ev : ServiceEvent) (s : ServiceState) : ServiceState * option Response :=
  if negb (enabled (sv_mode sv) ev) then (s, None)
  else
    match ev with
    | EventTick e =>
      (on_service_db (event_run_once (run_fuel e) (run_scan_fuel e) (run_event_now e) (run_holder e) (live (ss_nodes s) (event_job (sv_jobs sv)))) s, None)
    | TreeTick e => (on_service_db (tree_run_once (run_fuel e) (run_tree_now e) (run_holder e) (tree_job (sv_jobs sv))) s, None)
    | RootTick e do_compile do_submit =>
      (mkServiceState (run_cycle (run_polls e) (run_root_now e) (run_holder e) (root_job (sv_jobs sv)) do_compile do_submit
                         (rpj_tokens (root_job (sv_jobs sv))) (ss_world s)) (ss_nodes s) (ss_server s), None)
    | ServerStart => (start_server sv s, None)
    | HttpRequest r =>
      match ss_server s with
      | None => (s, None)
      | Some state =>
        let '(d, response) := serve connect_status state r (w_db (ss_world s)) in
        (mkServiceState (set_db d (ss_world s)) (ss_nodes s) (Some state), response)
      end
    end.

Definition service_run (sv : Service) (evs : list ServiceEvent) (s : ServiceState) : ServiceState :=
  foldl (fun s ev => (service_tick sv ev s).1) s evs.
End service.

Section main.
Variable default_hasher : string -> Z -> Z -> Z -> Z -> Z.
Variable connect : list string -> result JobError EthNode.
Variable load_root_nova_params : string -> result JobError unit.
Variable decider_client_new : string -> Z -> Z -> result JobError unit.

(** [main] up to [select!], without [--once]. *)
Definition service_main (config : IndexerConfig) (is_sync : option string) : result JobError Service :=
  jobs ← build_jobs default_hasher connect load_root_nova_params decider_client_new config;
  tree_config ← map_err (fun _ => Msg "failed to build merkle tree config for root prover job") (TreeJobConfig_build (ic_tree config));
  Ok (mkService jobs (ic_tokens config) tree_config (tjc_height (ic_tree config)) (if run_sync is_sync then ServeAndSync else ServeOnly)).
End main.

(** *** [select!]: the future that ends first ends the process *)

Inductive JobExit := JobReturned (r : result JobError unit) | JobPanicked (join_err : string).
Inductive Finished := ServerFinished (r : result string unit) | JobFinished (name : string) (exit : JobExit).

Definition handle_job_exit (name : string) (exit : JobExit) : result string unit :=
  match exit with
  | JobReturned inner => map_err (fun _ => name +:+ " job exited with an error") inner
  | JobPanicked join_err => Err join_err
  end.
Definition process_exit (f : Finished) : result string unit :=
  match f with
  | ServerFinished r => r
  | JobFinished name exit => handle_job_exit name exit
  end.
