(* ===== verification/ServiceSpec.v ===== *)
(** The running indexer serves the logs: whatever the interleaving of the jobs, of the requests and of the growth of the chains, the
    server answers from a prefix of every token's log that never shrinks, and an iteration of the event and the tree job brings it up to
    the chain. *)

From Stdlib Require Import Ascii.
From S2P Require Import Prelude Words Text Crypto BitPaths MerkleTrees Gadgets Circuits Folding Database OnChain OnChainSpec TreeDb TreeDbSpec Events EventsSpec Leases Jobs JobsSpec RootJob RootJobSpec Teleport TeleportSpec TeleportFlow Payment Server ServerSpec Decider Storage StorageSpec Cli Redeem Wasm WasmSpec Indexer IndexerSpec Api ApiSpec Service.
Local Open Scope Z_scope.

(** ** Computations that keep a relation between the states before and after *)

Definition keeps {S E A} (R : S -> S -> Prop) (m : M S E A) : Prop := forall s, R s (m s).1.

Section keeps.
Context {S : Type} (R : S -> S -> Prop) {HR : PreOrder R}.

Lemma keeps_same {E A} (m : M S E A) : (forall s, (m s).1 = s) -> keeps R m.
Proof. intros H s. by rewrite H. Qed.
Lemma keeps_ret {E A} (a : A) : keeps R (mret a : M S E A).
Proof. by apply keeps_same. Qed.
Lemma keeps_lift {E A} (r : result E A) : keeps R (lift r).
Proof. by apply keeps_same. Qed.
Lemma keeps_fail {E A} (e : E) : keeps R (fail e : M S E A).
Proof. by apply keeps_same. Qed.
Lemma keeps_gets {E A} (f : S -> A) : keeps R (gets f : M S E A).
Proof. by apply keeps_same. Qed.
Lemma keeps_get {E} : keeps R (get : M S E S).
Proof. by apply keeps_same. Qed.
Lemma keeps_modify {E} (f : S -> S) : (forall s, R s (f s)) -> keeps R (modify f : M S E unit).
Proof. intros H s. apply H. Qed.
Lemma keeps_bind {E A B} (m : M S E A) (f : A -> M S E B) : keeps R m -> (forall a, keeps R (f a)) -> keeps R (m ≫= f).
Proof.
  intros Hm Hf s. specialize (Hm s). unfold mbind, M_bind. destruct (m s) as [s' [a|e]]; [|exact Hm]. cbn in *. etransitivity; [exact Hm | apply Hf].
Qed.
(** A step that does not fail may use what it returned. *)
Lemma keeps_lift_bind {E A B} (r : result E A) (f : A -> M S E B) :
  (forall a, r = Ok a -> keeps R (f a)) -> keeps R (lift r ≫= f).
Proof. intros Hf s. unfold lift, mbind, M_bind. destruct r; [by apply Hf | cbn; reflexivity]. Qed.
Lemma keeps_transaction {E A} (m : M S E A) : keeps R m -> keeps R (transaction m).
Proof. intros Hm s. specialize (Hm s). unfold transaction. destruct (m s) as [s' [a|e]]; [exact Hm | done]. Qed.
Lemma keeps_map_err_M {E E' A} (f : E -> E') (m : M S E A) : keeps R m -> keeps R (map_err_M f m).
Proof. intros Hm s. specialize (Hm s). unfold map_err_M. by destruct (m s). Qed.
Lemma keeps_attempt {E E' A} (m : M S E A) : keeps R m -> keeps R (attempt m : M S E' (result E A)).
Proof. intros Hm s. specialize (Hm s). unfold attempt. by destruct (m s). Qed.
End keeps.

Create HintDb keeps.
#[export] Hint Resolve keeps_ret keeps_lift keeps_fail keeps_get keeps_gets : keeps.
(** ** What the root prover and the requests leave alone *)

(** Everything but the partitions and the tables of the root prover. *)
Record same_core (d d' : Db) : Prop := {
  co_tokens : tokens d' = tokens d;
  co_next : next_token_id d' = next_token_id d;
  co_events : indexed_transfer_events d' = indexed_transfer_events d;
  co_event_state : event_indexer_state d' = event_indexer_state d;
  co_nodes : merkle_nodes_current d' = merkle_nodes_current d;
  co_updates : merkle_node_updates d' = merkle_node_updates d;
  co_snapshots : merkle_snapshots d' = merkle_snapshots d;
  co_leases : leases d' = leases d;
}.
#[export] Instance same_core_preorder : PreOrder same_core.
Proof. split; [by split|]. intros d1 d2 d3 [] []. split; congruence. Qed.

Definition world_core (w w' : World) : Prop := same_core (w_db w) (w_db w').
#[export] Instance world_core_preorder : PreOrder world_core.
Proof. split; [intros w; apply (reflexivity (R := same_core)) | intros w1 w2 w3 H1 H2; exact (transitivity (R := same_core) H1 H2)]. Qed.

Lemma keeps_on_db {E A} (m : M Db E A) : keeps same_core m -> keeps world_core (on_db m).
Proof. intros H w. specialize (H (w_db w)). unfold on_db, world_core. by destruct (m (w_db w)). Qed.
Ltac keep_step :=
  match goal with
  | |- keeps _ (_ ≫= _) => apply (keeps_bind _); [|intros ?]
  | |- keeps _ (transaction _) => apply (keeps_transaction _)
  | |- keeps _ (map_err_M _ _) => apply keeps_map_err_M
  | |- keeps _ (attempt _) => apply keeps_attempt
  | |- keeps _ (on_db _) => apply keeps_on_db
  | |- keeps _ (match ?x with _ => _ end) => destruct x
  | |- keeps _ (let _ := _ in _) => cbv zeta
  end.
Ltac keep := repeat (first [solve [auto with keeps nocore typeclass_instances] | keep_step]).

Lemma keeps_partition p : keeps same_core (execute_partition_statement p).
Proof. intros d. by split. Qed.
#[export] Hint Resolve keeps_partition : keeps.

Section core.
Context {C : Crypto}.

Lemma keeps_tree_new tok h cfg : keeps same_core (DbTree_new tok h cfg).
Proof. unfold DbTree_new, TreePartitions_ensure. keep. Qed.
Lemma keeps_root_at_internal t i : keeps same_core (root_at_internal t i).
Proof. unfold root_at_internal. keep. Qed.
Lemma keeps_chain_at_internal t i : keeps same_core (hash_chain_at_internal t i).
Proof. unfold hash_chain_at_internal. keep. Qed.
Lemma keeps_latest_internal t : keeps same_core (latest_index_internal t).
Proof. unfold latest_index_internal. keep. Qed.
Lemma keeps_overlay t a b : keeps same_core (load_overlay t a b).
Proof. unfold load_overlay. keep. Qed.
Lemma keeps_node_hashes t l : keeps same_core (load_node_hashes t l).
Proof. unfold load_node_hashes. keep. Qed.
Hint Resolve keeps_tree_new keeps_root_at_internal keeps_chain_at_internal keeps_latest_internal keeps_overlay keeps_node_hashes : keeps.

Lemma keeps_prove_many t i l : keeps same_core (prove_many t i l).
Proof. unfold prove_many, prove_from_latest. keep. Qed.
Hint Resolve keeps_prove_many : keeps.
Lemma keeps_prove t i j : keeps same_core (DbTree_prove t i j).
Proof. unfold DbTree_prove. keep. Qed.

Lemma keeps_prove_handler state q : keeps same_core (prove_many_handler state q).
Proof. unfold prove_many_handler. keep. Qed.
Lemma keeps_events_handler state q : keeps same_core (events_by_recipient state q).
Proof. unfold events_by_recipient. keep. Qed.
Lemma keeps_index_handler state q : keeps same_core (tree_index_by_root state q).
Proof. unfold tree_index_by_root. keep. Qed.
End core.
#[export] Hint Resolve keeps_tree_new keeps_root_at_internal keeps_chain_at_internal keeps_latest_internal keeps_prove keeps_prove_handler keeps_events_handler keeps_index_handler : keeps.

Section root.
Context {C : Crypto} {D : Deciders} {NS : NovaScheme} {DC : DeciderClient} {RPC : Rpc}.

Lemma keeps_prover_state {E : Type} (f : Db -> gmap Z ProverRow) : keeps same_core (modify (fun d => set_prover (f d) d) : M Db E unit).
Proof. apply keeps_modify. by split. Qed.
Lemma keeps_ivc {E : Type} (f : Db -> gmap (Z * Z) IvcRow) : keeps same_core (modify (fun d => set_ivc (f d) d) : M Db E unit).
Proof. apply keeps_modify. by split. Qed.
Hint Resolve keeps_prover_state keeps_ivc : keeps.

Lemma keeps_upsert_state tok b c s pi ph : keeps same_core (upsert_prover_state tok b c s pi ph).
Proof. unfold upsert_prover_state, check_token. keep. Qed.
Lemma keeps_load_state tok : keeps same_core (load_prover_state tok).
Proof. unfold load_prover_state. keep. Qed.
Lemma keeps_delete_ivc tok : keeps same_core (delete_ivc_proofs tok).
Proof. apply keeps_ivc. Qed.
Lemma keeps_load_ivc tok i : keeps same_core (load_ivc_record tok i).
Proof. unfold load_ivc_record. keep. Qed.
Lemma keeps_compiled tok i : keeps same_core (update_last_compiled_index tok i).
Proof. unfold update_last_compiled_index. keep. Qed.
Lemma keeps_upsert_ivc tok i j p h r : keeps same_core (upsert_ivc_proof tok i j p h r).
Proof. unfold upsert_ivc_proof, check_token. keep. Qed.
Hint Resolve keeps_upsert_state keeps_load_state keeps_delete_ivc keeps_load_ivc keeps_compiled keeps_upsert_ivc : keeps.
Lemma keeps_alignment tok b : keeps same_core (ensure_state_alignment tok b).
Proof. unfold ensure_state_alignment. keep. Qed.
Lemma keeps_wait polls tok i : keeps same_core (wait_for_ivc_record polls tok i).
Proof. induction polls as [|polls IH]; cbn [wait_for_ivc_record]; keep. Qed.
Lemma keeps_state_vector t i : keeps same_core (load_state_vector t i).
Proof. unfold load_state_vector, root_at, hash_chain_at. keep. Qed.
Lemma keeps_batch tok i j : keeps same_core (fetch_event_batch tok i j).
Proof. unfold fetch_event_batch. keep. Qed.
Lemma keeps_lookup m : keeps same_core (lookup_token_id m).
Proof. unfold lookup_token_id. keep. Qed.
Lemma keeps_reservation_row tok i h : keeps same_core (persist_pending_reservation tok i h).
Proof. unfold persist_pending_reservation. keep. Qed.
Lemma keeps_latest t : keeps same_core (latest_index t).
Proof. unfold latest_index. keep. Qed.
Hint Resolve keeps_alignment keeps_wait keeps_state_vector keeps_batch keeps_lookup keeps_reservation_row keeps_latest : keeps.

Lemma keeps_ext {A} msg (r : result string A) : keeps world_core (ext msg r).
Proof. unfold ext. keep. Qed.
Lemma keeps_send name a f : keeps world_core (send_tx name a f).
Proof.
  unfold send_tx. apply (keeps_bind _); [apply keeps_ext|intros _]. apply (keeps_bind _).
  { intros w. destruct (execute _ _). exact (reflexivity (R := same_core) _). }
  intros receipt. apply (keeps_bind _); [apply keeps_ext | intros _; keep].
Qed.
Hint Resolve keeps_ext keeps_send : keeps.
Lemma keeps_initialise tok t b c : keeps world_core (initialise_nova tok t b c).
Proof. unfold initialise_nova, deserialize_ivc_proof. keep. Qed.
Lemma keeps_compile_event t tok b nova e i : keeps world_core (compile_event t tok b nova e i).
Proof. unfold compile_event, serialize_ivc_proof. keep. Qed.
Hint Resolve keeps_initialise keeps_compile_event : keeps.
Lemma keeps_compile_loop t tok b events : forall nova i, keeps world_core (compile_loop t tok b nova events i).
Proof. induction events as [|e events IH]; intros nova i; cbn [compile_loop]; keep. Qed.
Hint Resolve keeps_compile_loop : keeps.
Lemma keeps_sync_ivc tok t s i : keeps world_core (sync_ivc_proofs tok t s i).
Proof. unfold sync_ivc_proofs. keep. Qed.
Lemma keeps_decider_input s r : keeps world_core (decider_input s r).
Proof. unfold decider_input, load_nova_from_ivc, deserialize_ivc_proof, serialize_ivc_proof. keep. Qed.
Lemma keeps_reservation token tok s : keeps world_core (reservation token tok s).
Proof. unfold reservation, reserve_hash_chain. keep. Qed.
Hint Resolve keeps_sync_ivc keeps_decider_input keeps_reservation : keeps.
Lemma keeps_submit polls en token tok s i : keeps world_core (submit_if_ready polls en token tok s i).
Proof. unfold submit_if_ready, submit_transfer_root, reset_state_after_submission. keep. Qed.
Hint Resolve keeps_submit : keeps.
Lemma keeps_process polls job token c u : keeps world_core (process_token_inner polls job token c u).
Proof. unfold process_token_inner. keep. Qed.

(** With no lease held, a token of a root cycle leaves none. *)
Lemma root_token_core polls now holder job token c u w :
  leases (w_db w) = ∅ -> world_core w (root_process_token polls now holder job token c u w).1.
Proof.
  intros Hl. unfold root_process_token. set (w0 := set_db (leased now holder (rtc_lock_key token) (w_db w)) w).
  assert (lease_free now holder (rtc_lock_key token) (w_db w)) as Hf by (intros r; rewrite Hl; by rewrite lookup_empty).
  rewrite (M_bind_run _ _ w w0 true) by (apply on_db_run; by rewrite acquire_free).
  pose proof (keeps_process polls job token c u w0) as K. unfold attempt, mbind, M_bind at 1. destruct (process_token_inner _ _ _ _ _ w0) as [w1 r]. cbn [fst] in K.
  unfold M_bind, on_db, modify, lift. cbn [fst]. destruct K as [K1 K2 K3 K4 K5 K6 K7 K8].
  pose proof (release_leased now holder (rtc_lock_key token) (w_db w) (w_db w1) K8) as Hr. cbn [fst]. unfold world_core. cbn [w_db set_db]. rewrite Hr.
  split; try assumption. cbn [leases set_leases]. rewrite Hl. apply delete_empty.
Qed.
Lemma root_cycle_core polls now holder job c u ts : forall w, leases (w_db w) = ∅ -> world_core w (run_cycle polls now holder job c u ts w).
Proof.
  induction ts as [|t ts IH]; intros w Hl; [exact (reflexivity (R := same_core) _)|]. cbn [run_cycle]. pose proof (root_token_core polls now holder job t c u w Hl) as H1.
  etransitivity; [exact H1|]. apply IH. by rewrite (co_leases _ _ H1).
Qed.
End root.

Lemma serve_core {C : Crypto} {W : WebLib} {T : ApiText} connect state r d : same_core d (serve connect state r d).1.
Proof.
  assert (forall A (ser : A -> JValue) (m : M Db ApiError A), keeps same_core m -> same_core d (handled ser m d).1) as Hh.
  { intros A ser m Hm. specialize (Hm d). unfold handled. by destruct (m d). }
  unfold serve, extracted, quick. repeat case_match; try reflexivity; apply Hh; keep.
Qed.

(** ** Logs and what the tables hold of them *)

(** The log of a token's contract and the latest block, per token. *)
Definition View : Type := TokenEntry -> list IndexedTransferLog * Z.

(** The node of a token serves its log, whose values fit their types and the tree. *)
Record honest_token (t : TokenEntry) (N : EthNode) (logs : list IndexedTransferLog) (latest : Z) : Prop := {
  ht_view : node_view N logs latest;
  ht_range : Forall leaf_in_range (log_leaves logs);
  ht_from : Forall (fun l => in_u160 (lg_from l)) logs;
  ht_length : Z.of_nat (length logs) < 2 ^ 40;
  ht_blocks : forall k e, events_of logs !! k = Some e -> te_deployed_block_number t <= ie_eth_block_number e;
}.

(** New blocks append to the log; what was mined stays. *)
Definition extended (a b : list IndexedTransferLog * Z) : Prop :=
  a.2 <= b.2 /\ exists new, b.1 = a.1 ++ new /\ Forall (fun l => exists k, lg_block_number l = Some k /\ a.2 < k) new.

Section rows.
Context {C : Crypto} {NS : NovaScheme} (win : Z) (far : nat) (Hfar : forall x, as_u64 x <> Z.of_nat far).

(** The rows of the root prover are of no concern here: with a proved index that no row has, every row is a checkpoint. *)
Definition any_proof (nova : RootNovaInstance) (i : Z) (z0 zi : list Z) : Prop := True.
Definition any_verifier : Verifier := Verifier_init 0 0.
Abbreviation synced_log m logs n tok d := (synced any_proof win m logs n far any_verifier tok d).
Abbreviation known_log m logs d := (token_known any_proof win m logs far any_verifier d).

Lemma any_checkpoint tok ls v d : checkpoint_ok any_proof tok ls far v d.
Proof. intros row _ Hb. by apply Hfar in Hb. Qed.

(** A change of the other tables, or of the rows of other tokens in the token table. *)
Lemma synced_tables m logs n tok d d' :
  tokens_ok d' -> registered m tok d' -> indexed_transfer_events d' = indexed_transfer_events d -> event_indexer_state d' = event_indexer_state d ->
  merkle_nodes_current d' = merkle_nodes_current d -> merkle_node_updates d' = merkle_node_updates d -> merkle_snapshots d' = merkle_snapshots d ->
  synced_log m logs n tok d -> synced_log m logs n tok d'.
Proof.
  intros Hok Hreg E1 E2 E3 E4 E5 [S1 S2 S3 S4 [[I1 I2 I3] [H1 H2 H3 H4 H5 H6 H7 H8] _] S6 S7].
  assert (is_Some (tokens d' !! tok)) as Ht by (destruct Hreg as (r & -> & _); by eexists).
  split; try done.
  - split; [|split; cbn in *; rewrite ?E3, ?E4, ?E5; try done|apply any_checkpoint].
    + split; [done | unfold events_sound; by rewrite E1 |]. intros r. rewrite E2. unfold event_stored. rewrite E1. apply I3.
    + intros tb Htb. rewrite !elem_of_union, !elem_of_singleton. destruct Htb as [->|[->| ->]]; auto.
  - unfold events_are. rewrite E1. exact S6.
  - by rewrite E2.
Qed.
Lemma synced_same_core m logs n tok d d' : same_core d d' -> synced_log m logs n tok d -> synced_log m logs n tok d'.
Proof.
  intros [] H. apply (synced_tables m logs n tok d); try done.
  - unfold tokens_ok. rewrite co_tokens0, co_next0. apply H.
  - unfold registered. rewrite co_tokens0. apply H.
Qed.

(** The tables hold a prefix [logs] of the token's log, [n] leaves of it in the tree, and the rest is newer than what has been scanned. *)
Definition held (v : View) (t : TokenEntry) (logs : list IndexedTransferLog) (n : nat) (d : Db) : Prop :=
  exists tok r, synced_log (metadata t) logs n tok d /\ event_indexer_state d !! tok = Some r /\ es_last_synced_block r <= (v t).2
    /\ exists new, (v t).1 = logs ++ new /\ Forall (fun l => exists k, lg_block_number l = Some k /\ es_last_synced_block r <= k) new.

Lemma held_extended v v' t logs n d : extended (v t) (v' t) -> held v t logs n d -> held v' t logs n d.
Proof.
  intros [He (ext & Hx & Hf)] (tok & r & Hs & Hr & Hl & new & Hn & Hnew). exists tok, r. split_and!; [done | done | lia |]. exists (new ++ ext).
  split; [by rewrite Hx, Hn, app_assoc|]. apply Forall_app. split; [done|]. eapply Forall_impl; [exact Hf|]. intros l (k & Hk & Hlt). exists k. split; [done | lia].
Qed.

Lemma held_known v t logs n d : held v t logs n d -> known_log (metadata t) (v t).1 d.
Proof.
  intros (tok & r & [S1 S2 S3 S4 [[I1 I2 I3] S5 _] S6 S7] & Hr & Hl & new & Hn & Hnew). split; [done|]. left. exists tok, n. rewrite Hn.
  split; [done|]. split; [rewrite length_app; lia|]. split; [|by rewrite take_app_le by done | apply any_checkpoint]. split; [done| |].
  - intros i row Hi. destruct (I2 i row Hi) as (k & e & -> & He & ->). exists k, e. split_and!; try done. unfold events_of. rewrite fmap_app. by apply lookup_app_l_Some.
  - intros r' Hr'. destruct (I3 r' Hr') as (J1 & J2 & J3). split_and!; [done | done |]. intros k e. unfold events_of at 1. rewrite fmap_app. intros [He|[_ He]]%lookup_app_Some Hb; [by apply J3|].
    exfalso. rewrite list_lookup_fmap in He. destruct (new !! (k - length (log_to_event <$> logs))%nat) as [l|] eqn:El; [|done]. injection He as <-.
    apply (proj1 (Forall_lookup _ _) Hnew) in El as (b & Eb & Hle). cbn in Hb. rewrite Eb in Hb. assert (r' = r) as -> by congruence. cbn in Hb. lia.
Qed.

Lemma held_other v m' tok' t logs n d d' : other_token m' (metadata t) -> work_frame m' tok' d d' -> held v t logs n d -> held v t logs n d'.
Proof.
  intros Ho F (tok & r & Hs & Hr & Hrest). exists tok, r. split; [by eapply other_synced|]. split; [|done].
  rewrite (rw_state _ _ _ (wf_rows _ _ _ _ F tok (other_id _ _ _ _ _ _ Ho F (sy_registered _ _ _ _ _ _ _ _ _ Hs)))). exact Hr.
Qed.
Lemma held_tables v t logs n d d' :
  tokens_ok d' -> (forall tok, registered (metadata t) tok d -> registered (metadata t) tok d') -> indexed_transfer_events d' = indexed_transfer_events d ->
  event_indexer_state d' = event_indexer_state d -> merkle_nodes_current d' = merkle_nodes_current d -> merkle_node_updates d' = merkle_node_updates d ->
  merkle_snapshots d' = merkle_snapshots d -> held v t logs n d -> held v t logs n d'.
Proof.
  intros Hok Hreg E1 E2 E3 E4 E5 (tok & r & Hs & Hrest). exists tok, r. rewrite E2. split; [|done].
  apply (synced_tables _ _ _ _ d); try done. apply Hreg, Hs.
Qed.
Lemma held_core v t logs n d d' : same_core d d' -> held v t logs n d -> held v t logs n d'.
Proof. intros HC (tok & r & Hs & Hrest). exists tok, r. rewrite (co_event_state _ _ HC). split; [by eapply synced_same_core | done]. Qed.
End rows.

(** ** The iterations of the jobs *)

(** A loaded configuration whose values are of their Rust types and whose tokens are different. *)
Definition entry_ok (t : TokenEntry) : Prop := 0 <= te_chain_id t <= i64_max /\ 0 <= te_deployed_block_number t < i64_max /\ in_u160 (te_token_address t).
Record well_configured (config : IndexerConfig) : Prop := {
  wc_settings : usable_settings config;
  wc_span : ejc_block_span (ic_event_indexer config) <> 0;
  wc_window : tjc_history_window (ic_tree config) <> 0;
  wc_batch : tjc_batch_size (ic_tree config) <> 0;
  wc_height : tjc_height (ic_tree config) = TRANSFER_TREE_HEIGHT;
  wc_keys : NoDup ((fun t => (address_bytes (te_token_address t), te_chain_id t)) <$> ic_tokens config);
  wc_entries : forall t, t ∈ ic_tokens config -> entry_ok t;
}.

Section ticks.
Context {C : Crypto} {HC : CryptoLaws C} {NS : NovaScheme}.
Context (config : IndexerConfig) (default_hasher : string -> Z -> Z -> Z -> Z -> Z).
Abbreviation win := (tjc_history_window (ic_tree config)).
Abbreviation entries := (ic_tokens config).
Context (far : nat) (Hfar : forall x, as_u64 x <> Z.of_nat far).
Context (Hwc : well_configured config).

(** The jobs that [main] built. *)
Definition event_contexts (nodes : TokenMetadata -> EthNode) : list EventTokenContext :=
  (fun t => mkEventTokenContext (te_label t) (metadata t) (te_deployed_block_number t) (nodes (metadata t)) (lock_key_with_salt default_hasher t EVENT_LOCK_SALT)) <$> entries.
Definition tree_contexts : list TreeTokenContext :=
  (fun t => mkTreeTokenContext (te_label t) (metadata t) (lock_key_with_salt default_hasher t TREE_LOCK_SALT)) <$> entries.
Record built (sv : Service) : Prop := {
  bu_events : forall nodes, live nodes (event_job (sv_jobs sv)) = mkEventSyncJob (event_contexts nodes) (ejc_interval_ms (ic_event_indexer config))
    (mkEventIndexerConfig (ejc_block_span (ic_event_indexer config)) (ejc_forward_scan_overlap (ic_event_indexer config)));
  bu_tree : tree_job (sv_jobs sv) = mkTreeIngestionJob tree_contexts (tjc_interval_ms (ic_tree config)) (tjc_height (ic_tree config)) (tjc_batch_size (ic_tree config))
    (mkDbMerkleTreeConfig win);
  bu_tokens : sv_tokens sv = entries;
  bu_config : sv_tree_config sv = mkDbMerkleTreeConfig win;
  bu_height : sv_tree_height sv = TRANSFER_TREE_HEIGHT;
}.

Lemma entries_other t u : t ∈ entries -> u ∈ entries -> u <> t -> other_token (metadata t) (metadata u).
Proof.
  intros Ht Hu Hne. pose proof (fmap_NoDup_ne _ _ _ _ (wc_keys _ Hwc) Ht Hu Hne) as H. unfold other_token. cbn.
  destruct (decide (address_bytes (te_token_address t) = address_bytes (te_token_address u))) as [E|E]; [right | by left].
  intros E2. apply H. by rewrite E, E2.
Qed.
Lemma entries_NoDup : NoDup entries.
Proof. eapply NoDup_fmap_1, (wc_keys _ Hwc). Qed.
Lemma win_ok : 0 < win < 2 ^ 63.
Proof. destruct Hwc as [[] ? ? ? ? ? ?]. lia. Qed.
Lemma no_lease_free now holder key d : leases d = ∅ -> lease_free now holder key d.
Proof. intros Hl r. by rewrite Hl, lookup_empty. Qed.

Definition registrations_kept (d d' : Db) : Prop := forall m j, registered m j d -> registered m j d'.
Lemma registrations_work m tok d d0 d' : registrations_kept d d0 -> work_frame m tok d0 d' -> registrations_kept d d'.
Proof.
  intros Hk F m' j Hj%Hk. destruct (decide (j = tok)) as [->|Hne]; [|by eapply registered_same; [apply (wf_rows _ _ _ _ F j Hne)|]].
  destruct (wf_own _ _ _ _ F) as [E|(r & Hr & A1 & A2)]; destruct Hj as (r0 & Hr0 & B1 & B2); [congruence|]. destruct (wf_registered _ _ _ _ F) as (r' & Hr' & C1 & C2).
  assert (r0 = r) as -> by congruence. exists r'. split_and!; congruence.
Qed.

(** The fuels of a tick suffice for the logs. *)
Definition run_fits (e : RunEnv) (v : View) : Prop := forall t, t ∈ entries -> (v t).2 < Z.of_nat (run_scan_fuel e) /\ (length (v t).1 < run_fuel e)%nat.
Definition honest_view (nodes : TokenMetadata -> EthNode) (v : View) : Prop := forall t, t ∈ entries -> honest_token t (nodes (metadata t)) (v t).1 (v t).2.

Lemma held_now v t n tok d r :
  synced any_proof win (metadata t) (v t).1 n far any_verifier tok d -> event_indexer_state d !! tok = Some r -> es_last_synced_block r = (v t).2 ->
  held win far v t (v t).1 n d.
Proof. intros Hs Hr El. exists tok, r. split_and!; [done | done | lia |]. exists []. by rewrite app_nil_r. Qed.

(** An iteration of the event job holds the whole logs. *)
Lemma event_tick e nodes v sv d :
  built sv -> run_fits e v -> honest_view nodes v -> leases d = ∅ ->
  (forall t, t ∈ entries -> token_known any_proof win (metadata t) (v t).1 far any_verifier d) ->
  let d' := event_run_once (run_fuel e) (run_scan_fuel e) (run_event_now e) (run_holder e) (live nodes (event_job (sv_jobs sv))) d in
  (leases d' = ∅ /\ registrations_kept d d') /\ forall t, t ∈ entries -> exists n, held win far v t (v t).1 n d'.
Proof.
  intros Hb Hfit Hh Hl Hk. rewrite (bu_events _ Hb). unfold event_run_once. rewrite run_tokens_foldl. cbn [esj_tokens]. unfold event_contexts.
  set (job := mkEventSyncJob _ _ _).
  apply (loop_done (fun c d => (event_process_token (run_fuel e) (run_scan_fuel e) (run_event_now e) (run_holder e) job c d).1) _
    (fun t d => token_known any_proof win (metadata t) (v t).1 far any_verifier d) (fun t d => exists n, held win far v t (v t).1 n d) (fun x => leases x = ∅ /\ registrations_kept d x));
    [|apply entries_NoDup | split; [exact Hl | by intros m j] | exact Hk].
  intros t d0 Ht [Hl0 Hm0] Hk0. destruct (Hfit t Ht) as [F1 F2], (Hh t Ht) as [V1 V2 V3 V4 V5], (wc_entries _ Hwc t Ht) as (E1 & E2 & _). pose proof Hwc as [[U1 U2 U3 U4 U5] X1 X2 X3 X4 _ _].
  destruct (event_step any_proof win (v t).1 (v t).2 far any_verifier win_ok (run_fuel e) (run_scan_fuel e) (run_event_now e) (run_holder e) job
    (mkEventTokenContext (te_label t) (metadata t) (te_deployed_block_number t) (nodes (metadata t)) (lock_key_with_salt default_hasher t EVENT_LOCK_SALT)) d0)
    as (d1 & tok & n & -> & S1 & L1 & W1 & r & R1 & R2); try assumption; try (cbn; lia); [by apply no_lease_free|].
  cbn [fst etc_metadata etc_lock_key] in *. rewrite Hl0, delete_empty in L1. split; [exists n; by eapply held_now|]. split; [split; [done | by eapply registrations_work]|].
  intros u Hu Hne. pose proof (entries_other t u Ht Hu Hne) as Ho. split; [intros Hk1; by eapply other_known|]. intros (n' & Hn'). exists n'. by eapply held_other.
Qed.

(** An iteration of the tree job puts the held logs into the trees. *)
Lemma tree_tick e nodes v sv (P : TokenEntry -> list IndexedTransferLog -> Prop) d :
  built sv -> run_fits e v -> honest_view nodes v -> leases d = ∅ -> (forall t, t ∈ entries -> exists logs n, P t logs /\ held win far v t logs n d) ->
  let d' := tree_run_once (run_fuel e) (run_tree_now e) (run_holder e) (tree_job (sv_jobs sv)) d in
  (leases d' = ∅ /\ registrations_kept d d') /\ forall t, t ∈ entries -> exists logs, P t logs /\ held win far v t logs (length logs) d'.
Proof.
  intros Hb Hfit Hh Hl Hk. rewrite (bu_tree _ Hb). unfold tree_run_once. rewrite run_tokens_foldl. cbn [tij_tokens]. unfold tree_contexts. set (job := mkTreeIngestionJob _ _ _ _ _).
  apply (loop_done (fun c d => (tree_process_token (run_fuel e) (run_tree_now e) (run_holder e) job c d).1) _
    (fun t d => exists logs n, P t logs /\ held win far v t logs n d) (fun t d => exists logs, P t logs /\ held win far v t logs (length logs) d) (fun x => leases x = ∅ /\ registrations_kept d x));
    [|apply entries_NoDup | split; [exact Hl | by intros m j] | exact Hk].
  intros t d0 Ht [Hl0 Hm0] (logs & n & HP & tok & r & S0 & R1 & R2 & new & N1 & N2).
  destruct (Hfit t Ht) as [F1 F2], (Hh t Ht) as [V1 V2 V3 V4 V5], (wc_entries _ Hwc t Ht) as (E1 & E2 & _). pose proof Hwc as [[U1 U2 U3 U4 U5] X1 X2 X3 X4 _ _]. rewrite N1, length_app in *.
  destruct (tree_step any_proof win logs far any_verifier) with (fuel := run_fuel e) (now := run_tree_now e) (holder := run_holder e) (job := job)
    (token := mkTreeTokenContext (te_label t) (metadata t) (lock_key_with_salt default_hasher t TREE_LOCK_SALT)) (tok := tok) (n := n) (d := d0)
    as (d1 & -> & S1 & L1 & W1 & Es); try assumption; try reflexivity; try (cbn; lia).
  { apply leaves_log_range. unfold log_leaves in *. rewrite fmap_app, Forall_app in V2. apply V2. }
  { by apply no_lease_free. }
  cbn [fst ttc_metadata ttc_lock_key] in *. rewrite Hl0, delete_empty in L1. split; [|split; [split; [done | by eapply registrations_work]|]].
  - exists logs. split; [done|]. exists tok, r. rewrite Es. split_and!; try done. by exists new.
  - intros u Hu Hne. pose proof (entries_other t u Ht Hu Hne) as Ho.
    split; [intros (l & k & HP' & Hk'); exists l, k; split; [done | by eapply held_other] | intros (l & HP' & Hk'); exists l; split; [done | by eapply held_other]].
Qed.
End ticks.

(** ** The server *)

(** Everything but the token table. *)
Record same_rest (d d' : Db) : Prop := {
  re_events : indexed_transfer_events d' = indexed_transfer_events d;
  re_event_state : event_indexer_state d' = event_indexer_state d;
  re_nodes : merkle_nodes_current d' = merkle_nodes_current d;
  re_updates : merkle_node_updates d' = merkle_node_updates d;
  re_snapshots : merkle_snapshots d' = merkle_snapshots d;
  re_leases : leases d' = leases d;
}.
#[export] Instance same_rest_preorder : PreOrder same_rest.
Proof. split; [by split|]. intros d1 d2 d3 [] []. split; congruence. Qed.

Lemma keeps_initialise_registry ts : forall r, keeps same_rest (TokenRegistry_initialise ts r).
Proof.
  assert (forall x n, keeps same_rest (modify (set_tokens x n) : M Db string unit)) as Hm by (intros x n d; by split).
  assert (keeps same_rest (get : M Db string Db)) as Hg by (intros d; apply (reflexivity (R := same_rest))).
  induction ts as [|t ts IH]; intros r; cbn [TokenRegistry_initialise]; [keep|]. unfold server_ensure_token_record. keep; auto.
Qed.

Section server.
Context {C : Crypto} {HC : CryptoLaws C} {NS : NovaScheme}.
Context (config : IndexerConfig) (far : nat) (Hfar : forall x, as_u64 x <> Z.of_nat far).
Abbreviation win := (tjc_history_window (ic_tree config)).

(** The registry of the server has the identifiers of the token table. *)
Record server_ok (d : Db) (state : AppState) : Prop := {
  so_config : as_tree_config state = mkDbMerkleTreeConfig win;
  so_height : as_tree_height state = TRANSFER_TREE_HEIGHT;
  so_registry : forall t, t ∈ ic_tokens config -> exists tc, registry_get (as_tokens state) (te_chain_id t) (te_token_address t) = Some tc
    /\ 0 < tc_id tc /\ registered (metadata t) (tc_id tc) d;
}.
Lemma server_ok_kept d d' state : registrations_kept d d' -> server_ok d state -> server_ok d' state.
Proof. intros Hk [S1 S2 S3]. split; [done | done|]. intros t Ht. destruct (S3 t Ht) as (tc & H1 & H2 & H3). exists tc. split_and!; try done. by apply Hk. Qed.

Lemma server_starts d :
  tokens_ok d -> (forall t, t ∈ ic_tokens config -> entry_ok t) ->
  exists d' state, run_http_server (ic_tokens config) (mkDbMerkleTreeConfig win) TRANSFER_TREE_HEIGHT d = (d', Ok state)
    /\ tokens_ok d' /\ registrations_kept d d' /\ same_rest d d' /\ server_ok d' state.
Proof.
  intros Hok He. destruct (initialise_spec (ic_tokens config) ∅ d Hok) as (d' & r & Hi & Hok' & Hr & Hm & Hdom & _); [done | apply Forall_forall; intros t Ht; apply He, Ht |].
  exists d', (mkAppState r (mkDbMerkleTreeConfig win) TRANSFER_TREE_HEIGHT). unfold run_http_server. rewrite (M_bind_run _ _ _ _ _ Hi).
  split_and!; [done | done | exact Hm | |].
  - pose proof (keeps_initialise_registry (ic_tokens config) ∅ d) as K. by rewrite Hi in K.
  - split; [done | done|]. intros t Ht. unfold registry_get. cbn [as_tokens].
    assert ((te_chain_id t, te_token_address t) ∈ dom r) as [tc Htc]%elem_of_dom.
    { rewrite Hdom, dom_empty_L, union_empty_l_L, elem_of_list_to_set, list_elem_of_fmap. by exists t. }
    exists tc. split; [done|]. destruct (Hr _ _ Htc) as ([= E1 E2] & Hp & Hreg). split; [done|]. by rewrite <- E1, <- E2 in Hreg.
Qed.

Lemma honest_events t N logs latest k e :
  honest_token t N logs latest -> events_of logs !! k = Some e -> event_in_log k e /\ event_in_range e.
Proof.
  intros [V1 V2 V3 V4 V5] He. pose proof (V5 k e He). unfold events_of in He. rewrite list_lookup_fmap in He. destruct (logs !! k) as [l|] eqn:El; [|done]. injection He as <-.
  destruct (nv_wf _ _ _ V1 k l El) as (Ei & b & Eb & Hb). pose proof (nv_latest_range _ _ _ V1). pose proof (lookup_lt_Some _ _ _ El).
  assert (in_u160 (lg_to l) /\ in_u256 (lg_value l)) as [Hto Hv] by exact (proj1 (Forall_lookup _ _) (leaves_log_range _ V2) k l El).
  pose proof (proj1 (Forall_lookup _ _) V3 k l El) as Hfrom.
  assert (uint256_as_u64 (lg_index l) = Z.of_nat k) as Hk by (rewrite Ei, uint256_as_u64_mod; apply Z.mod_small; lia).
  unfold i64_max in *. split; [split|unfold event_in_range, in_u64]; cbn [log_to_event ie_event_index ie_from ie_to ie_value ie_eth_block_number]; rewrite ?Hk, ?Eb; cbn [default from_option id]; first [done | lia | split_and!; first [done | lia]].
Qed.

Lemma prefix_honest t N logs new latest k e :
  honest_token t N (logs ++ new) latest -> events_of logs !! k = Some e -> event_in_log k e /\ event_in_range e.
Proof. intros Hh He. eapply honest_events; [exact Hh|]. unfold events_of in *. rewrite fmap_app. by apply lookup_app_l_Some. Qed.

(** A server over tables that hold a log serves that log. *)
Lemma held_served nodes v t logs n d state :
  honest_token t (nodes (metadata t)) (v t).1 (v t).2 -> t ∈ ic_tokens config -> server_ok d state -> held win far v t logs n d ->
  exists tc, server_holds state (te_chain_id t) (te_token_address t) tc (events_of logs) n d.
Proof.
  intros Hh Ht [S1 S2 S3] (tok & r & [Y1 Y2 Y3 Y4 [Y5 Y6 _] Y7 Y8] & Hr & Hl & new & Hn & Hnew). destruct (S3 t Ht) as (tc & G1 & G2 & G3). rewrite Hn in Hh.
  assert (tc_id tc = tok) as Etok.
  { destruct G3 as (a & A1 & A2 & A3), Y2 as (b & B1 & B2 & B3). apply (proj2 (proj2 Y1) _ _ _ _ A1 B1); congruence. }
  exists tc. split; [done | done | | rewrite Etok; apply Y5 | | unfold events_of; by rewrite length_fmap |].
  - intros k e He. by eapply prefix_honest.
  - intros k e He. rewrite Etok. apply Y7. unfold log_rows. by rewrite list_lookup_fmap, He.
  - rewrite Etok, S1, S2. cbn [cfg_history_window]. unfold event_leaves, events_of. rewrite <- fmap_take, <- list_fmap_compose. exact Y6.
Qed.
End server.

(** ** Runs *)

Section run.
Context {C : Crypto} {HC : CryptoLaws C} {D : Deciders} {NS : NovaScheme} {DC : DeciderClient} {RPC : Rpc} {W : WebLib} {T : ApiText}.
Context (connect_status : list string -> result string (Z -> VerifierStatus)).
Context (default_hasher : string -> Z -> Z -> Z -> Z -> Z) (connect : list string -> result JobError EthNode).
Context (load_root_nova_params : string -> result JobError unit) (decider_client_new : string -> Z -> Z -> result JobError unit).

Lemma service_main_built config is_sync sv :
  service_main default_hasher connect load_root_nova_params decider_client_new config is_sync = Ok sv -> tjc_height (ic_tree config) = TRANSFER_TREE_HEIGHT ->
  built config default_hasher sv /\ sv_mode sv = (if run_sync is_sync then ServeAndSync else ServeOnly).
Proof.
  intros H Hh. unfold service_main in H. apply result_bind_ok in H as (jobs & Hj & H). apply result_bind_ok in H as (cfg & Hc%map_err_ok & H). injection H as <-.
  assert (forall c, TreeJobConfig_build (ic_tree config) = Ok c -> c = mkDbMerkleTreeConfig (tjc_history_window (ic_tree config))) as Hcfg.
  { intros c Hb%map_err_ok. unfold DbMerkleTreeConfig_new in Hb. if_case_in Hb E; [done|]. by injection Hb as <-. }
  unfold build_jobs in Hj. apply result_bind_ok in Hj as (ej & He%map_err_ok & Hj). apply result_bind_ok in Hj as (tj & Ht%map_err_ok & Hj).
  apply result_bind_ok in Hj as (c2 & _ & Hj). apply result_bind_ok in Hj as (rj & _ & Hj). injection Hj as <-.
  split; [|done]. split; cbn [sv_jobs sv_tokens sv_tree_config sv_tree_height event_job tree_job]; [| | done | by apply Hcfg | done].
  - intros nodes. unfold EventSyncJob_build in He. apply result_bind_ok in He as (ic & Hi%map_err_ok & He). apply result_bind_ok in He as (ctx & Hx & He). injection He as <-.
    unfold EventIndexerConfig_new in Hi. if_case_in Hi E; [done|]. injection Hi as <-. unfold live. cbn [esj_tokens esj_interval_ms esj_indexer_config]. f_equal. unfold event_contexts.
    clear -Hx. revert ctx Hx. induction (ic_tokens config) as [|t ts IH]; intros ctx Hx; [by injection Hx as <-|]. cbn [map_result] in Hx. apply result_bind_ok in Hx as (c & Hc & Hx).
    apply result_bind_ok in Hx as (cs & Hcs & Hx). injection Hx as <-. apply result_bind_ok in Hc as (node & _ & Hc). injection Hc as <-. rewrite !fmap_cons. f_equal. by apply IH.
  - unfold TreeIngestionJob_build in Ht. apply result_bind_ok in Ht as (c & Hb & Ht). injection Ht as <-. by rewrite (Hcfg c Hb).
Qed.

(** Events of the service, and blocks that are mined between them. *)
Definition event_fits (config : IndexerConfig) (ev : ServiceEvent) (v : View) : Prop :=
  match ev with EventTick e | TreeTick e => run_fits config e v | _ => True end.
Inductive service_step (config : IndexerConfig) (sv : Service) : ServiceState * View -> ServiceState * View -> Prop :=
| step_service ev s v : event_fits config ev v -> service_step config sv (s, v) ((service_tick connect_status sv ev s).1, v)
| step_chains s v w nodes v' :
    w_db w = w_db (ss_world s) -> (forall t, t ∈ ic_tokens config -> extended (v t) (v' t)) -> honest_view config nodes v' ->
    service_step config sv (s, v) (mkServiceState w nodes (ss_server s), v').

Lemma run_steps config sv v evs : forall s, Forall (fun ev => event_fits config ev v) evs -> rtc (service_step config sv) (s, v) (service_run connect_status sv evs s, v).
Proof.
  induction evs as [|ev evs IH]; intros s Hf; [apply rtc_refl|]. inversion_clear Hf as [|?? He Hr]. eapply rtc_l; [by apply (step_service _ _ ev)|]. by apply IH.
Qed.

Section invariant.
Context (config : IndexerConfig) (sv : Service) (far : nat) (Hfar : forall x, as_u64 x <> Z.of_nat far).
Context (Hwc : well_configured config).
Context (Hbuilt : built config default_hasher sv) (Hmode : sv_mode sv = ServeAndSync).
Abbreviation win := (tjc_history_window (ic_tree config)).

(** The tables hold at least [floor] of every log. *)
Record service_inv (floor : TokenEntry -> list IndexedTransferLog) (s : ServiceState) (v : View) : Prop := {
  si_leases : leases (w_db (ss_world s)) = ∅;
  si_tokens : tokens_ok (w_db (ss_world s));
  si_nodes : honest_view config (ss_nodes s) v;
  si_logs : forall t, t ∈ ic_tokens config -> exists logs n, floor t `prefix_of` logs /\ held win far v t logs n (w_db (ss_world s));
  si_server : forall state, ss_server s = Some state -> server_ok config (w_db (ss_world s)) state;
}.

Lemma held_tokens_ok v t logs n d : held win far v t logs n d -> tokens_ok d.
Proof. intros (tok & r & Hs & _). apply Hs. Qed.

(** The event job after which every log is held. *)
Lemma event_tick_inv floor e s v :
  run_fits config e v -> honest_view config (ss_nodes s) v -> leases (w_db (ss_world s)) = ∅ -> tokens_ok (w_db (ss_world s)) ->
  (forall t, t ∈ ic_tokens config -> token_known any_proof win (metadata t) (v t).1 far any_verifier (w_db (ss_world s)) /\ floor t `prefix_of` (v t).1) ->
  (forall state, ss_server s = Some state -> server_ok config (w_db (ss_world s)) state) ->
  let s' := (service_tick connect_status sv (EventTick e) s).1 in
  service_inv floor s' v /\ ss_server s' = ss_server s /\ forall t, t ∈ ic_tokens config -> exists n, held win far v t (v t).1 n (w_db (ss_world s')).
Proof.
  intros Hfit Hh Hl Hok Hk Hs. unfold service_tick. rewrite Hmode. cbn [enabled negb fst on_service_db ss_world ss_nodes ss_server w_db set_db].
  destruct (event_tick config default_hasher far Hwc e (ss_nodes s) v sv (w_db (ss_world s)) Hbuilt Hfit Hh Hl) as [[L1 K1] H1]; [intros t Ht; by apply Hk|].
  split; [|done]. split; cbn [on_service_db ss_world ss_nodes ss_server w_db set_db]; [done | | done | | intros state Hst; by eapply server_ok_kept, Hs].
  - destruct (ic_tokens config) as [|t ts] eqn:E.
    + rewrite (bu_events _ _ _ Hbuilt). unfold event_contexts. rewrite E. exact Hok.
    + destruct (H1 t) as [n Hn]; [by left|]. by eapply held_tokens_ok.
  - intros t Ht. destruct (H1 t Ht) as [n Hn]. exists (v t).1, n. split; [by apply Hk | done].
Qed.

(** The root prover and the requests. *)
Lemma core_inv floor s v w : same_core (w_db (ss_world s)) (w_db w) -> service_inv floor s v -> service_inv floor (mkServiceState w (ss_nodes s) (ss_server s)) v.
Proof.
  intros Hc [I1 I2 I3 I4 I5]. pose proof Hc as [K1 K2 _ _ _ _ _ K8]. split; cbn [ss_world ss_nodes ss_server]; [by rewrite K8 | unfold tokens_ok; by rewrite K1, K2 | done | |].
  - intros t Ht. destruct (I4 t Ht) as (logs & n & Hp & Hn). exists logs, n. split; [done | by eapply held_core].
  - intros state Hst. eapply server_ok_kept; [|by apply I5]. intros m j. unfold registered. by rewrite K1.
Qed.

Lemma start_inv floor s v : service_inv floor s v -> service_inv floor (start_server sv s) v.
Proof.
  intros HI. unfold start_server. destruct (ss_server s) as [st|] eqn:Es; [done|]. destruct HI as [I1 I2 I3 I4 I5].
  rewrite (bu_tokens _ _ _ Hbuilt), (bu_config _ _ _ Hbuilt), (bu_height _ _ _ Hbuilt).
  destruct (server_starts config (w_db (ss_world s)) I2 (wc_entries _ Hwc)) as (d' & state & -> & Hok & Hk & [R1 R2 R3 R4 R5 R6] & Hso).
  split; cbn [ss_world ss_nodes ss_server w_db set_db]; [by rewrite R6 | done | done | | by intros ? [= <-]].
  intros t Ht. destruct (I4 t Ht) as (logs & n & Hp & Hn). exists logs, n. split; [done|]. apply (held_tables win far Hfar v t logs n (w_db (ss_world s))); try done. by intros tok Htok%Hk.
Qed.

Lemma tree_tick_inv floor e s v (P : TokenEntry -> list IndexedTransferLog -> Prop) :
  run_fits config e v -> service_inv floor s v -> (forall t logs, P t logs -> floor t `prefix_of` logs) ->
  (forall t, t ∈ ic_tokens config -> exists logs n, P t logs /\ held win far v t logs n (w_db (ss_world s))) ->
  let s' := (service_tick connect_status sv (TreeTick e) s).1 in
  service_inv floor s' v /\ ss_server s' = ss_server s /\ forall t, t ∈ ic_tokens config -> exists logs, P t logs /\ held win far v t logs (length logs) (w_db (ss_world s')).
Proof.
  intros Hfit [I1 I2 I3 I4 I5] HPf HP. unfold service_tick. rewrite Hmode. cbn [enabled negb fst on_service_db ss_world ss_nodes ss_server w_db set_db].
  destruct (tree_tick config default_hasher far Hwc e (ss_nodes s) v sv P (w_db (ss_world s)) Hbuilt Hfit I3 I1 HP) as [[L1 K1] H1].
  split; [|done]. split; cbn [on_service_db ss_world ss_nodes ss_server w_db set_db]; [done | | done | | intros state Hst; by eapply server_ok_kept, I5].
  - destruct (ic_tokens config) as [|t ts] eqn:E.
    + rewrite (bu_tree _ _ _ Hbuilt). unfold tree_contexts. rewrite E. exact I2.
    + destruct (H1 t) as (logs & _ & Hn); [by left|]. by eapply held_tokens_ok.
  - intros t Ht. destruct (H1 t Ht) as (logs & Hp & Hn). exists logs, (length logs). split; [by apply HPf | done].
Qed.

Lemma held_prefix v t logs n d : held win far v t logs n d -> logs `prefix_of` (v t).1.
Proof. intros (tok & r & _ & _ & _ & new & -> & _). by exists new. Qed.

Lemma service_step_inv floor s v s' v' : service_step config sv (s, v) (s', v') -> service_inv floor s v -> service_inv floor s' v'.
Proof.
  intros Hstep HI. inversion Hstep as [ev s0 v0 Hfit E1 E2|s0 v0 w nodes v1 Hw Hx Hh E1 E2]; subst; clear Hstep.
  - destruct ev as [e|e|e c u| |r]; cbn [event_fits] in Hfit.
    + apply event_tick_inv; try done; try apply HI. intros t Ht. destruct (si_logs _ _ _ HI t Ht) as (logs & n & Hp & Hn). split; [by eapply held_known|].
      etransitivity; [exact Hp | by eapply held_prefix].
    + apply (tree_tick_inv floor e s v' (fun t logs => floor t `prefix_of` logs)); try done. apply HI.
    + unfold service_tick. rewrite Hmode. cbn [enabled negb fst]. apply core_inv; [|done]. apply root_cycle_core, HI.
    + unfold service_tick. rewrite Hmode. cbn [enabled negb fst]. by apply start_inv.
    + unfold service_tick. rewrite Hmode. cbn [enabled negb fst]. destruct (ss_server s) as [st|] eqn:Es; [|done].
      pose proof (serve_core connect_status st r (w_db (ss_world s))) as Hk. destruct (serve _ _ _ _) as [d resp]. cbn [fst] in Hk |- *. rewrite <- Es. by apply core_inv.
  - destruct HI as [I1 I2 I3 I4 I5]. split; cbn [ss_world ss_nodes ss_server]; rewrite ?Hw; try done.
    intros t Ht. destruct (I4 t Ht) as (logs & n & Hp & Hn). exists logs, n. split; [done|]. eapply held_extended; [by apply Hx | done].
Qed.
Lemma service_run_inv floor s v s' v' : rtc (service_step config sv) (s, v) (s', v') -> service_inv floor s v -> service_inv floor s' v'.
Proof.
  intros Hrun. remember (s, v) as a eqn:Ea. remember (s', v') as b eqn:Eb. revert s v Ea. induction Hrun as [x|x y z Hxy Hyz IH]; intros s v Ea HI; subst.
  - by injection Ea as -> ->.
  - destruct y as [s1 v1]. eapply IH; [done | done |]. by eapply service_step_inv.
Qed.
End invariant.

(** The database of an earlier run, or one that has never seen the token: any part of the log is indexed, and a part of it is in the tree. *)
Definition token_stored (win : Z) (t : TokenEntry) (logs : list IndexedTransferLog) (d : Db) : Prop :=
  tokens_ok d
  /\ ((exists tok n, registered (metadata t) tok d /\ (n <= length logs)%nat /\ indexer_inv tok (events_of logs) d
         /\ has_history tok TRANSFER_TREE_HEIGHT win d (log_leaves (take n logs)))
      \/ ((forall tok, ~ registered (metadata t) tok d) /\ forall tok, next_token_id d <= tok -> no_rows tok d)).

Lemma stored_known win far t logs d :
  (forall x, as_u64 x <> Z.of_nat far) -> token_stored win t logs d -> token_known any_proof win (metadata t) logs far any_verifier d.
Proof.
  intros Hfar [Hok [(tok & n & H1 & H2 & H3 & H4)|H]]; (split; [done|]); [left | by right]. exists tok, n. split_and!; try done. split; try done. by apply any_checkpoint.
Qed.
Lemma far_index : exists far : nat, forall x, as_u64 x <> Z.of_nat far.
Proof. exists (Z.to_nat (2 ^ 64)). intros x. rewrite Z2Nat.id by lia. unfold as_u64. pose proof (Z.mod_pos_bound x (2 ^ 64) ltac:(lia)). lia. Qed.

Context {HA : ApiLaws W T} {U : UrlLib} {HU : UrlLaws U} {H : Http U}.

(** The client of a server over the tables. *)
Lemma held_client config far nodes v t logs n d state mount c url to limit :
  honest_token t (nodes (metadata t)) (v t).1 (v t).2 -> t ∈ ic_tokens config -> entry_ok t -> server_ok config d state ->
  held (tjc_history_window (ic_tree config)) far v t logs n d -> mounted connect_status state d mount ->
  endpoint c "events" = Ok url -> url_path url = mount +:+ "/" +:+ "events" -> in_u160 to -> (forall l, limit = Some l -> in_u64 l) ->
  HttpIndexerClient_events_by_recipient c (te_chain_id t) (te_token_address t) to limit = Ok (take (page limit) (events_to to (events_of logs))).
Proof.
  intros Hh Ht (Hc & _ & Ha) Hso Hheld Hmo He Hp Hto Hlim. destruct (held_served config far nodes v t logs n d state Hh Ht Hso Hheld) as [tc Hserve].
  assert (in_u64 (te_chain_id t)) as Hc64 by (unfold in_u64, i64_max in *; lia).
  pose proof (events_answered connect_status state d mount c url (te_chain_id t) (te_token_address t) to limit Hmo He Hp Hc64 Ha Hto Hlim) as Hans.
  rewrite (events_by_recipient_ok _ _ _ tc _ n d to limit Hserve Hto) in Hans. apply Hans.
  apply Forall_take, Forall_forall. intros e [_ [k Hk]%list_elem_of_lookup]%list_elem_of_filter.
  destruct Hheld as (tok & r & _ & _ & _ & new & Hn & _). rewrite Hn in Hh. by eapply prefix_honest.
Qed.

End run.

(** ** Witness: two tokens on a database that has never been used *)

Section witness.
#[local] Existing Instance toy_crypto.
#[local] Existing Instance toy_crypto_laws.
#[local] Existing Instance toy_nova.
#[local] Existing Instance toy_decider.
#[local] Existing Instance accept_all.
#[local] Existing Instance toy_rpc.
#[local] Existing Instance toy_signatures.
#[local] Existing Instance plain_web.
#[local] Existing Instance plain_text.
#[local] Existing Instance plain_laws.
#[local] Existing Instance plain_url.
#[local] Existing Instance plain_url_laws.

Definition salt_hasher (label : string) (a b c salt : Z) : Z := salt.
Definition demo_service : result JobError Service := service_main salt_hasher (fun _ => Ok demo_node) (fun _ => Ok tt) (fun _ _ _ => Ok tt) demo_config (Some "TRUE"%string).
Definition demo_sv : Service :=
  Eval vm_compute in match demo_service with Ok sv => sv | Err _ => mkService (mkIndexerJobs (mkEventSyncJob [] 0 (mkEventIndexerConfig 0 0))
    (mkTreeIngestionJob [] 0 0 0 (mkDbMerkleTreeConfig 0)) (mkRootProverJob [] (mkDbMerkleTreeConfig 0) 0 0 false)) [] (mkDbMerkleTreeConfig 0) 0 ServeOnly end.
Definition demo_s0 : ServiceState := mkServiceState demo_world (fun _ => demo_node) None.
Definition demo_view_of (t : TokenEntry) : list IndexedTransferLog * Z := (demo_logs, 20).
Definition demo_s1 : ServiceState := (service_tick no_nodes demo_sv (EventTick demo_run) demo_s0).1.
Definition demo_s : ServiceState := service_run no_nodes demo_sv [ServerStart; RootTick demo_run true true; TreeTick demo_run; HttpRequest (mkRequest GET "/status" [] None)] demo_s1.
Definition demo_app : AppState := default (mkAppState ∅ (mkDbMerkleTreeConfig 0) 0) (ss_server demo_s).

Definition service_http : Http plain_url := {|
  client_build := Ok tt;
  http_send := fun m u q b =>
    match proxied (url_path u) with
    | Some p => ok_or "connection closed"%string (serve no_nodes demo_app (mkRequest m p q b) (w_db (ss_world demo_s))).2
    | None => Err "no route to host"%string
    end;
|}.
#[local] Existing Instance service_http.
Lemma service_mounted : mounted no_nodes demo_app (w_db (ss_world demo_s)) "/api".
Proof. split; [done|]. intros m u p q b Hu. cbn [http_send service_http]. rewrite Hu, proxied_app. destruct (serve _ _ _ _).2; [done|]. by eexists. Qed.

Lemma demo_tokens t : t ∈ ic_tokens demo_config -> exists label a b, t = demo_entry label a b /\ 0 <= a < 100.
Proof. intros [->|[->|[]%elem_of_nil]%elem_of_cons]%elem_of_cons; [exists "usd"%string, 77, 78 | exists "eur"%string, 87, 88]; (split; [done | lia]). Qed.
Lemma demo_nodes_honest : honest_view demo_config (fun _ => demo_node) demo_view_of.
Proof.
  intros t (label & a & b & -> & _)%demo_tokens. destruct (demo_trackable label a b). split; try assumption.
  apply Forall_singleton. unfold in_u160. cbn. lia.
Qed.
Lemma demo_fits : run_fits demo_config demo_run demo_view_of.
Proof. intros t _. cbn. lia. Qed.
Lemma demo_stored t : t ∈ ic_tokens demo_config -> entry_ok t /\ token_stored (tjc_history_window (ic_tree demo_config)) t demo_logs empty_db.
Proof.
  intros (label & a & b & -> & Ha)%demo_tokens. split; [unfold entry_ok, in_u160, i64_max; cbn; lia|].
  split; [by split_and!; cbn; [|lia|]|]. right. split; [|by repeat split]. intros tok (r & Hr & _). change (tokens empty_db) with (∅ : gmap Z TokenRow) in Hr. by rewrite lookup_empty in Hr.
Qed.
Lemma service_history : rtc (service_step no_nodes demo_config demo_sv) (demo_s1, demo_view_of) (demo_s, demo_view_of).
Proof. apply run_steps. repeat constructor. Qed.

Definition demo_base : @Url plain_url := "api/"%string.
End witness.
