(* ===== verification/CliMain.v ===== *)
(** The command line as a process: [cli/src/main.rs], [commands/transfer.rs], [invoice status] and the client constructors of
    [commands/shared.rs]; and the demonstration client [zstorage/frontend/src/bin/stealth_client.rs].

    Argument parsing by [clap] is done: a command is its decoded arguments.  Providers, agents and the decider client are external; printed
    output is returned. *)

From Stdlib Require Import Ascii.
From S2P Require Import Prelude Words Text Crypto BitPaths MerkleTrees Gadgets Circuits Database OnChain TreeDb Events Leases Jobs RootJob Teleport Payment Server Decider Storage Cli Redeem Wasm Indexer Api.
Local Open Scope Z_scope.

(** ** Arguments *)

Record CommonArgs := mkCommonArgs {
  ca_tokens_file_path : string;
  ca_private_key : string;
  ca_indexer_url : string;
  ca_decider_prover_url : string;
  ca_ic_replica_url : string;
  ca_key_manager_canister_id : string;
  ca_storage_canister_id : string;
  ca_indexer_fetch_limit : Z;
  ca_event_block_span : Z;
  ca_nova_artifacts_dir : option string;
}.

Record TransferArgs := mkTransferArgs { tr_chain_id : Z; tr_to : Z; tr_amount : Z }.
Record InvoiceListArgs := mkInvoiceListArgs { il_chain_id : Z; il_owner : option Z }.
Record InvoiceReceiveArgs := mkInvoiceReceiveArgs { iv_chain_id : Z; iv_invoice_id : Z }.

Inductive InvoiceCommand :=
| Ls (args : InvoiceListArgs)
| Issue (args : InvoiceIssueArgs)
| Receive (args : InvoiceReceiveArgs)
| Status (args : InvoiceReceiveArgs).
Inductive Command :=
| InvoiceCmd (c : InvoiceCommand)
| TransferCmd (args : TransferArgs)
| PrivateTransferCmd (args : PrivateTransferArgs)
| ReceiveTransferCmd (args : ReceiveTransferArgs) (scan_results_path : string)
| ScanReceiveTransfersCmd (args : ScanArgs) (output : string).

(** What a command prints at its end. *)
Inductive Printed :=
| PrintedInvoices (ids : list Z)
| PrintedInvoice (id : Z) (burn_addresses : list Z)
| PrintedRedeem (r : option RedeemResult)
| PrintedStatus (s : option (list Z * list (Z * EventsWithEligibility)))
| PrintedTransfer (tx_hash : string)
| PrintedPrivateTransfer (announcement_id : Z) (tx_hash : string)
| PrintedReceive (r : ReceiveOutcome)
| PrintedScan (count : nat).

(** ** Clients *)

Section main.
Context {C : Crypto} {G : Groth16} {N : WithdrawNova} {V : Deciders} {VL : VetKeysLib} {L : SignatureLib} {Sg : Signer} {W : WebLib} {T : ApiText} {U : UrlLib} {H : Http U}.
Variable SEED_MESSAGE : bytes.

(** A provider is the list of the endpoints it uses. *)
Abbreviation Provider := (list Url).

Class Network := {
  url_parse : string -> option Url;
  (** calls of the token and of the hub, and the transaction of an ERC-20 transfer with its hash, through a provider *)
  node_balance_of : Provider -> Z -> Z -> result string Z;
  node_hub : Provider -> Z -> HubNode;
  node_transfer : Provider -> Z -> SubmittedTransfer -> result string bytes;
  (** [HttpDeciderClient::with_defaults], by URL and timeout in seconds *)
  decider_with_defaults : Url -> Z -> result string DeciderClient;
  (** [Agent::builder().with_url(url).build()], [fetch_root_key] and [Principal::from_text] *)
  agent_build : string -> result string unit;
  fetch_root_key : string -> result string unit;
  principal_from_text : string -> option bytes;
}.
Context {Net : Network}.

Definition get_provider (rpc_url : string) : result string Provider :=
  url ← ok_or ("Failed to parse rpc url: " +:+ rpc_url) (url_parse rpc_url);
  Ok [url].
(** An empty list has no [NonZeroUsize] length. *)
Definition get_provider_with_fallback (rpc_urls : list string) : result string Provider :=
  transports ← map_result (fun url => ok_or ("Failed to parse rpc url: " +:+ url) (url_parse url)) rpc_urls;
  match transports with [] => Err "panicked"%string | _ => Ok transports end.
Definition provider_of (rpc_urls : list string) : result string Provider :=
  match rpc_urls with [url] => get_provider url | _ => get_provider_with_fallback rpc_urls end.
Definition TokenEntry_provider (t : TokenEntry) : result string Provider :=
  context ("failed to construct provider for '" +:+ te_label t +:+ "'") (provider_of (te_rpc_urls t)).
Definition HubEntry_provider (h : HubEntry) : result string Provider :=
  context "failed to construct provider for hub" (provider_of (he_rpc_urls h)).

(** The bindings that [build_erc20], [build_verifier] and [build_hub] return: a provider; the address and the transaction type are the entry's. *)
Definition build_erc20 (entry : TokenEntry) : result string Provider := TokenEntry_provider entry.
Definition build_verifier (entry : TokenEntry) : result string Provider := TokenEntry_provider entry.
Definition build_hub (entry : HubEntry) : result string HubNode :=
  provider ← HubEntry_provider entry;
  Ok (node_hub provider (he_hub_address entry)).

Definition format_tx_hash (hash : bytes) : string := "0x" +:+ hex_encode hash.

(** [str::contains]. *)
Fixpoint str_contains (needle s : string) : bool :=
  String.prefix needle s || match s with EmptyString => false | String _ s' => str_contains needle s' end.
Definition is_local_replica (url : string) : bool := str_contains "127.0.0.1" url || str_contains "localhost" url.

(** The canister identifiers of the client. *)
Record StealthClient := mkStealthClient { sk_storage_id : bytes; sk_key_manager_id : bytes }.
Definition build_agent (label replica_url : string) : result string unit :=
  _ ← context label (agent_build replica_url);
  if is_local_replica replica_url then context "failed to fetch replica root key" (fetch_root_key replica_url) else Ok tt.
Definition build_stealth_client (common : CommonArgs) : result string StealthClient :=
  _ ← build_agent "failed to build IC agent" (ca_ic_replica_url common);
  storage_id ← ok_or "failed to parse storage canister principal"%string (principal_from_text (ca_storage_canister_id common));
  key_manager_id ← ok_or "failed to parse key manager canister principal"%string (principal_from_text (ca_key_manager_canister_id common));
  Ok (mkStealthClient storage_id key_manager_id).
Definition stealth_client (common : CommonArgs) : result string StealthClient :=
  context "failed to construct stealth canister client" (build_stealth_client common).

Definition build_indexer_client (common : CommonArgs) (context_label : string) : result string HttpIndexerClient :=
  base ← ok_or ("invalid INDEXER_URL '" +:+ ca_indexer_url common +:+ "' for " +:+ context_label) (url_parse (ca_indexer_url common));
  context "failed to construct indexer client" (HttpIndexerClient_new base).
Definition build_decider_client (common : CommonArgs) (context_label : string) : result string DeciderClient :=
  base ← ok_or ("invalid DECIDER_PROVER_URL '" +:+ ca_decider_prover_url common +:+ "' for " +:+ context_label) (url_parse (ca_decider_prover_url common));
  context "failed to construct decider prover client" (decider_with_defaults base 300).
(** The decider client is built when a batch is proved; its failure is that of its proof. *)
Definition lazy_decider (common : CommonArgs) : DeciderClient :=
  {| produce_decider_proof := fun kind ivc => client ← build_decider_client common "teleport redemption"; @produce_decider_proof client kind ivc |}.

(** ** The world of the commands *)

(** The canisters the identifiers name, the contracts by the address of the verifier, the files by path and the submitted transfers. *)
Record CliWorld := mkCliWorld {
  cw_storage : StorageState;
  cw_key_manager : option KeyManagerState;
  cw_contracts : gmap Z (Token * Verifier);
  cw_files : gmap string ScanFile;
  cw_sent : list (Z * SubmittedTransfer);
}.

(** Clocks, random values and fuels of one run. *)
Record CliRun := mkCliRun {
  cr_fuel : nat;
  cr_pow_fuel : nat;
  cr_num_dummy_steps : nat;
  cr_time : Z;
  cr_now_ns : Z;
  cr_canister_now : Z;
  cr_randomness : Randomness;
  cr_invoice_randoms : list bytes;
  cr_transport_seed : bytes;
  (** the storage canister's state at each page of a scan *)
  cr_pages : nat -> StorageState;
}.

Definition on_storage {A} (m : M StorageState string A) : M CliWorld string A := fun w =>
  let '(s, r) := m (cw_storage w) in (mkCliWorld s (cw_key_manager w) (cw_contracts w) (cw_files w) (cw_sent w), r).
Definition on_key_manager {A} (m : M (option KeyManagerState) string A) : M CliWorld string A := fun w =>
  let '(s, r) := m (cw_key_manager w) in (mkCliWorld (cw_storage w) s (cw_contracts w) (cw_files w) (cw_sent w), r).
Definition on_contracts {A} (verifier : Z) (m : M (Token * Verifier) string A) : M CliWorld string A := fun w =>
  match cw_contracts w !! verifier with
  | None => (w, Err "no contract code at the address"%string)
  | Some tv => let '(tv', r) := m tv in (mkCliWorld (cw_storage w) (cw_key_manager w) (<[verifier := tv']> (cw_contracts w)) (cw_files w) (cw_sent w), r)
  end.
Definition read_file (path : string) (w : CliWorld) : ScanFile := default NoFile (cw_files w !! path).
Definition write_file (path : string) (f : ScanFile) : M CliWorld string unit :=
  modify (fun w => mkCliWorld (cw_storage w) (cw_key_manager w) (cw_contracts w) (<[path := f]> (cw_files w)) (cw_sent w)).

(** [erc20.transfer(private_key, to, amount)]. *)
Definition send_transfer (provider : Provider) (private_key : Z) (sub : SubmittedTransfer) : M CliWorld string bytes := fun w =>
  match node_transfer provider private_key sub with
  | Ok hash => (mkCliWorld (cw_storage w) (cw_key_manager w) (cw_contracts w) (cw_files w) (cw_sent w ++ [(private_key, sub)]), Ok hash)
  | Err e => (w, Err e)
  end.

(** ** Commands *)

Definition transfer (args : TransferArgs) (tokens : list TokenEntry) (private_key : Z) : M CliWorld string Printed :=
  lift (find_token_by_chain tokens (tr_chain_id args)) ≫= fun entry =>
  lift (build_erc20 entry) ≫= fun erc20 =>
  lift (get_address_from_private_key private_key) ≫= fun _ =>
  context_M ("failed to submit transfer for " +:+ te_label entry) (send_transfer erc20 private_key (mkSubmittedTransfer entry (tr_to args) (tr_amount args))) ≫= fun hash =>
  mret (PrintedTransfer (format_tx_hash hash)).

(** The clients of a command are constructed before its effects; steps without effects may fail in another order than in the source. *)
Definition cli_private_transfer (run : CliRun) (common : CommonArgs) (args : PrivateTransferArgs) (tokens : list TokenEntry) (private_key : Z) : M CliWorld string Printed :=
  lift (find_token_by_chain tokens (pt_chain_id args)) ≫= fun entry =>
  lift (build_erc20 entry) ≫= fun erc20 =>
  lift (stealth_client common) ≫= fun _ =>
  gets cw_key_manager ≫= fun km =>
  on_storage (private_transfer SEED_MESSAGE (cr_pow_fuel run) km (cr_time run) args tokens private_key (cr_randomness run)) ≫= fun '(announcement, sub) =>
  context_M ("failed to submit private transfer for " +:+ te_label entry) (send_transfer erc20 private_key sub) ≫= fun hash =>
  mret (PrintedPrivateTransfer (an_id announcement) (format_tx_hash hash)).

Definition cli_scan (run : CliRun) (common : CommonArgs) (args : ScanArgs) (output : string) (private_key : Z) : M CliWorld string Printed :=
  lift (stealth_client common) ≫= fun client =>
  on_key_manager (scan_receive_transfers (cr_fuel run) (sk_key_manager_id client) (cr_now_ns run) (cr_canister_now run) args private_key (cr_transport_seed run) (cr_pages run))
    ≫= fun transfers =>
  gets (read_file output) ≫= fun file =>
  lift (write_results file transfers) ≫= fun file' =>
  write_file output file' ≫= fun _ => mret (PrintedScan (length transfers)).

(** What redeeming needs of the token's entry and of the arguments. *)
Definition redeem_env (run : CliRun) (common : CommonArgs) (hub : option HubEntry) (entry : TokenEntry) (clients : list (Z -> result string Z)) : RedeemEnv :=
  mkRedeemEnv (te_verifier_address entry) (te_chain_id entry) (cr_num_dummy_steps run) (ca_event_block_span common) (ca_indexer_fetch_limit common) hub
    (match ca_nova_artifacts_dir common with Some _ => true | None => false end) clients.
Definition token_clients (tokens : list TokenEntry) : result string (list (Z -> result string Z)) :=
  map_result (fun t => provider ← build_erc20 t; Ok (node_balance_of provider (te_token_address t))) tokens.

Definition cli_receive_transfer (run : CliRun) (common : CommonArgs) (args : ReceiveTransferArgs) (scan_results_path : string) (tokens : list TokenEntry)
  (hub : option HubEntry) : M CliWorld string Printed :=
  gets (read_file scan_results_path) ≫= fun file =>
  lift (resolve_full_burn_address args file) ≫= fun burn_bytes =>
  lift (context "failed to decode FullBurnAddress" (FullBurnAddress_from_bytes burn_bytes)) ≫= fun burn_payload =>
  lift (ok_or "hub entry is required to redeem transfers"%string hub) ≫= fun hub_entry =>
  lift (build_hub hub_entry) ≫= fun hub_contract =>
  lift (find_token_by_chain tokens (gr_chain_id (fb_gr burn_payload))) ≫= fun token_entry =>
  lift (build_verifier token_entry) ≫= fun _ =>
  lift (token_clients tokens) ≫= fun clients =>
  lift (build_indexer_client common "receive transfer command") ≫= fun indexer =>
  on_contracts (te_verifier_address token_entry)
    (receive_transfer (D := lazy_decider common) (I := wire_client indexer) (H := hub_contract) (cr_fuel run) (redeem_env run common hub token_entry clients) tokens burn_bytes)
    ≫= fun r => mret (PrintedReceive r).

(** The clients of [build_invoice_receive_context]. *)
Definition invoice_clients (run : CliRun) (common : CommonArgs) (args : InvoiceReceiveArgs) (tokens : list TokenEntry) (hub : option HubEntry) (label : string)
  : result string (TokenEntry * HubNode * HttpIndexerClient * RedeemEnv) :=
  hub_entry ← ok_or ("hub entry is required to use " +:+ label) hub;
  hub_contract ← build_hub hub_entry;
  token_entry ← find_token_by_chain tokens (iv_chain_id args);
  _ ← build_verifier token_entry;
  clients ← token_clients tokens;
  indexer ← build_indexer_client common label;
  Ok (token_entry, hub_contract, indexer, redeem_env run common hub token_entry clients).

Definition cli_invoice_receive (run : CliRun) (common : CommonArgs) (args : InvoiceReceiveArgs) (tokens : list TokenEntry) (hub : option HubEntry) (private_key : Z)
  : M CliWorld string Printed :=
  lift (invoice_clients run common args tokens hub "invoice receive command") ≫= fun '(token_entry, hub_contract, indexer, env) =>
  on_contracts (te_verifier_address token_entry)
    (invoice_receive (D := lazy_decider common) (I := wire_client indexer) (H := hub_contract) SEED_MESSAGE (cr_fuel run) (cr_pow_fuel run) env
       (iv_chain_id args) (iv_invoice_id args) tokens private_key) ≫= fun r => mret (PrintedRedeem r).

Definition cli_invoice_status (run : CliRun) (common : CommonArgs) (args : InvoiceReceiveArgs) (tokens : list TokenEntry) (hub : option HubEntry) (private_key : Z)
  : M CliWorld string Printed :=
  lift (invoice_clients run common args tokens hub "invoice status command") ≫= fun '(token_entry, hub_contract, indexer, env) =>
  on_contracts (te_verifier_address token_entry) (
    get ≫= fun tv =>
    lift (build_invoice_receive_context (I := wire_client indexer) (H := hub_contract) SEED_MESSAGE (cr_fuel run) (cr_pow_fuel run) env
            (iv_chain_id args) (iv_invoice_id args) tokens private_key tv.2)) ≫= fun ctx =>
  mret (PrintedStatus ((fun c => ((map_to_list (ir_burn_address_to_secret_and_tweak c)).*1, ir_separated_events c)) <$> ctx)).

Definition invoice_command (run : CliRun) (common : CommonArgs) (c : InvoiceCommand) (tokens : list TokenEntry) (hub : option HubEntry) (private_key : Z)
  : M CliWorld string Printed :=
  match c with
  | Ls args =>
    lift (stealth_client common) ≫= fun _ =>
    gets cw_storage ≫= fun storage =>
    lift (invoice_list (il_chain_id args) (il_owner args) tokens private_key storage) ≫= fun ids => mret (PrintedInvoices ids)
  | Issue args =>
    lift (stealth_client common) ≫= fun _ =>
    on_storage (invoice_issue SEED_MESSAGE (cr_pow_fuel run) args tokens private_key (cr_invoice_randoms run)) ≫= fun '(id, burns) => mret (PrintedInvoice id burns)
  | Receive args => cli_invoice_receive run common args tokens hub private_key
  | Status args => cli_invoice_status run common args tokens hub private_key
  end.

(** [main]; [read_tokens] is the decoded tokens file. *)
Definition cli_main (run : CliRun) (read_tokens : string -> result string TokensFile) (common : CommonArgs) (command : Command) : M CliWorld string Printed :=
  lift (context "failed to load tokens configuration" (f ← read_tokens (ca_tokens_file_path common); cli_load_tokens_config f)) ≫= fun '(tokens, hub) =>
  lift (cli_parse_private_key (ca_private_key common)) ≫= fun private_key =>
  match command with
  | InvoiceCmd c => invoice_command run common c tokens hub private_key
  | TransferCmd args => transfer args tokens private_key
  | PrivateTransferCmd args => cli_private_transfer run common args tokens private_key
  | ReceiveTransferCmd args path => cli_receive_transfer run common args path tokens hub
  | ScanReceiveTransfersCmd args output => cli_scan run common args output private_key
  end.

(** ** [stealth_client.rs] *)

Record StealthCli := mkStealthCli {
  sl_replica_url : string;
  sl_key_manager : string;
  sl_storage : string;
  sl_message : string;
  sl_authorization_ttl_seconds : Z;
}.

(** The random values and the clocks of a run. *)
Record StealthRun := mkStealthRun {
  sn_signing_key : SigningKey;
  sn_randomness : Randomness;
  sn_transport_seed : bytes;
  sn_nonce : Z;
  sn_now_ns : Z;
  sn_canister_now : Z;
  sn_time : Z;
}.

Definition string_as_bytes (s : string) : bytes := byte_of <$> String.list_ascii_of_string s.

Definition on_storage_canister {A} (m : M StorageState string A) : M (StorageState * option KeyManagerState) string A := fun sk =>
  let '(s, r) := m sk.1 in ((s, sk.2), r).
Definition on_key_manager_canister {A} (m : M (option KeyManagerState) string A) : M (StorageState * option KeyManagerState) string A := fun sk =>
  let '(k, r) := m sk.2 in ((sk.1, k), r).

(** The decrypted announcement, or the warning. *)
Definition run_demo_flow (cli : StealthCli) (client : StealthClient) (run : StealthRun) : M (StorageState * option KeyManagerState) string (option DecryptedAnnouncement) :=
  let rnd := sn_randomness run in
  let signing_key := sn_signing_key run in
  let address := derive_address signing_key in
  gets snd ≫= fun km =>
  lift (context "failed to query view public key" (client_get_view_public_key address km)) ≫= fun view_public_key =>
  let plaintext := string_as_bytes (sl_message cli) in
  lift (context "encryption failed" (encrypt_payload (rnd_ibe_seed rnd) (rnd_session_key rnd) (rnd_nonce rnd) view_public_key plaintext)) ≫= fun encryption =>
  on_storage_canister (context_M "failed to submit announcement" (client_submit_announcement (sn_time run) encryption)) ≫= fun announcement =>
  let transport := prepare_transport_key (sn_transport_seed run) in
  let expiry_ns := saturating_add_u64 (sn_now_ns run) (saturating_mul_u64 (sl_authorization_ttl_seconds cli) 1000000000) in
  let nonce := sn_nonce run in
  let auth_message := authorization_message (sk_key_manager_id client) address (public transport) expiry_ns nonce in
  lift (sign_authorization auth_message signing_key) ≫= fun signature =>
  let request := Storage.mkRequest address (public transport) expiry_ns nonce signature in
  on_key_manager_canister (context_M "failed to request encrypted view key"
    (client_request_encrypted_view_key (sk_key_manager_id client) (sn_canister_now run) request)) ≫= fun encrypted_key =>
  lift (context "failed to decrypt vet key response" (decrypt_vet_key encrypted_key view_public_key (secret transport))) ≫= fun view_key =>
  gets (fun sk => list_announcements None (Some 50) sk.1) ≫= fun page =>
  lift (context "failed to decrypt announcements" (scan_announcements view_key (announcements page))) ≫= fun decrypted =>
  mret (List.find (fun entry => da_id entry =? an_id announcement) decrypted).

Definition stealth_main (cli : StealthCli) (run : StealthRun) : M (StorageState * option KeyManagerState) string (option DecryptedAnnouncement) :=
  lift (build_agent "failed to build agent" (sl_replica_url cli)) ≫= fun _ =>
  lift (ok_or "failed to parse storage canister principal"%string (principal_from_text (sl_storage cli))) ≫= fun storage_id =>
  lift (ok_or "failed to parse key manager canister principal"%string (principal_from_text (sl_key_manager cli))) ≫= fun key_manager_id =>
  run_demo_flow cli (mkStealthClient storage_id key_manager_id) run.
End main.
