(* ===== verification/CliMainSpec.v ===== *)
(** What the processes of [CliMain] do to the world: which part of it each command of the command line can change, that a private
    transfer is announced before it is paid, and the outcome of the demonstration client. *)

From stdpp Require Import relations.
From S2P Require Import Prelude Words Text Crypto BitPaths MerkleTrees Gadgets Circuits Database OnChain TreeDb Events Leases Jobs RootJob Teleport Payment Server Decider Storage StorageSpec Cli CliSpec Redeem Wasm Indexer Api Service ServiceSpec CliMain.
Local Open Scope Z_scope.

(** ** Frames of the commands *)

Section frames.
Context {C : Crypto} {G : Groth16} {N : WithdrawNova} {V : Deciders} {VL : VetKeysLib} {L : SignatureLib} {Sg : Signer} {W : WebLib} {T : ApiText} {U : UrlLib} {H : Http U} {Net : Network}.
Variable SEED_MESSAGE : bytes.

(** What a command may change. *)
Record Frame := mkFrame {
  fr_storage : bool;
  fr_key_manager : bool;
  fr_contracts : list Z;
  fr_files : list string;
  fr_sends : bool;
}.
(** The storage canister goes through its own steps, contracts and files change at the given addresses and paths only. *)
Record within (f : Frame) (w w' : CliWorld) : Prop := {
  wi_storage : if fr_storage f then rtc storage_step (cw_storage w) (cw_storage w') else cw_storage w' = cw_storage w;
  wi_key_manager : fr_key_manager f = false -> cw_key_manager w' = cw_key_manager w;
  wi_contracts : forall a, a ∉ fr_contracts f -> cw_contracts w' !! a = cw_contracts w !! a;
  wi_deployed : dom (cw_contracts w') = dom (cw_contracts w);
  wi_files : forall p, p ∉ fr_files f -> cw_files w' !! p = cw_files w !! p;
  wi_sent : if fr_sends f then cw_sent w `prefix_of` cw_sent w' else cw_sent w' = cw_sent w;
}.
#[local] Instance within_preorder f : PreOrder (within f).
Proof.
  split; [intros w; split; try done; by case_match|].
  intros w1 w2 w3 [Hs Hk Hc Hd Hp Ht] [Hs' Hk' Hc' Hd' Hp' Ht']. destruct f as [[] km cs fs []]; cbn in *; split; cbn;
    first [congruence | by etrans | intros; rewrite ?Hk', ?Hc', ?Hp'; auto].
Qed.

Definition silent : Frame := mkFrame false false [] [] false.
Definition redeems (tokens : list TokenEntry) : Frame := mkFrame false false (te_verifier_address <$> tokens) [] false.
Definition frame_of (tokens : list TokenEntry) (c : Command) : Frame :=
  match c with
  | InvoiceCmd (Ls _) | InvoiceCmd (Status _) => silent
  | InvoiceCmd (Issue _) => mkFrame true false [] [] false
  | InvoiceCmd (Receive _) | ReceiveTransferCmd _ _ => redeems tokens
  | TransferCmd _ => mkFrame false false [] [] true
  | PrivateTransferCmd _ => mkFrame true false [] [] true
  | ScanReceiveTransfersCmd _ output => mkFrame false true [] [output] false
  end.

Lemma within_on_storage {A} f (m : M StorageState string A) :
  fr_storage f = true -> keeps (rtc storage_step) m -> keeps (within f) (on_storage m).
Proof.
  intros Hf Hm w. specialize (Hm (cw_storage w)). unfold on_storage. destruct (m (cw_storage w)). split; cbn; try done; [by rewrite Hf | by case_match].
Qed.
Lemma within_on_key_manager {A} f (m : M (option KeyManagerState) string A) :
  fr_key_manager f = true -> keeps (within f) (on_key_manager m).
Proof. intros Hf w. unfold on_key_manager. destruct (m (cw_key_manager w)). split; cbn; try done; [by case_match | congruence | by case_match]. Qed.
Lemma within_on_contracts {A} f a (m : M (Token * Verifier) string A) :
  a ∈ fr_contracts f -> keeps (within f) (on_contracts a m).
Proof.
  intros Ha w. unfold on_contracts. destruct (cw_contracts w !! a) as [tv|] eqn:E; [|reflexivity].
  destruct (m tv) as [tv' r]. split; cbn; try done; [by case_match | | | by case_match].
  - intros b Hb. apply lookup_insert_ne. by intros ->.
  - apply dom_insert_lookup_L. by eexists.
Qed.
Lemma within_reads {A} f a (m : M (Token * Verifier) string A) : (forall tv, (m tv).1 = tv) -> keeps (within f) (on_contracts a m).
Proof.
  intros Hm. apply (keeps_same _). intros w. unfold on_contracts. destruct (cw_contracts w !! a) as [tv|] eqn:E; [|done].
  specialize (Hm tv). destruct (m tv) as [tv' r]. cbn in Hm |- *. subst tv'. rewrite insert_id by done. by destruct w.
Qed.
Lemma within_write_file f p c : p ∈ fr_files f -> keeps (within f) (write_file p c).
Proof.
  intros Hp. apply keeps_modify. intros w. split; cbn; try done; [by case_match | | by case_match].
  intros q Hq. apply lookup_insert_ne. by intros ->.
Qed.
Lemma within_send f provider key sub : fr_sends f = true -> keeps (within f) (send_transfer provider key sub).
Proof.
  intros Hf w. unfold send_transfer. case_match; [|reflexivity]. split; cbn; try done; [by case_match|].
  rewrite Hf. by apply prefix_app_r.
Qed.

(** The canister calls of the commands are steps of the canister. *)
Lemma announce_steps time input : keeps (rtc storage_step) (client_submit_announcement time input).
Proof.
  intros s. unfold client_submit_announcement. pose proof (step_announce time input s) as Hs.
  destruct (submit_announcement time input s). by apply rtc_once.
Qed.
Lemma invoice_steps input : keeps (rtc storage_step) (client_submit_invoice input).
Proof.
  intros s. unfold client_submit_invoice. pose proof (step_invoice input s) as Hs.
  destruct (submit_invoice input s). by apply rtc_once.
Qed.
#[local] Hint Resolve within_on_storage within_on_key_manager within_write_file within_send announce_steps invoice_steps : keeps.
#[local] Hint Extern 0 (fr_storage _ = true) => reflexivity : keeps.
#[local] Hint Extern 0 (fr_key_manager _ = true) => reflexivity : keeps.
#[local] Hint Extern 0 (fr_sends _ = true) => reflexivity : keeps.
#[local] Hint Extern 0 (_ ∈ fr_files _) => apply list_elem_of_here : keeps.

Lemma private_transfer_steps fuel km time args tokens key rnd :
  keeps (rtc storage_step) (private_transfer SEED_MESSAGE fuel km time args tokens key rnd).
Proof. unfold private_transfer, context_M. keep. Qed.
Lemma invoice_issue_steps fuel args tokens key randoms :
  keeps (rtc storage_step) (invoice_issue SEED_MESSAGE fuel args tokens key randoms).
Proof. unfold invoice_issue, context_M. keep. Qed.
#[local] Hint Resolve private_transfer_steps invoice_issue_steps : keeps.

Lemma found_token tokens chain_id entry : find_token_by_chain tokens chain_id = Ok entry -> te_verifier_address entry ∈ te_verifier_address <$> tokens.
Proof.
  unfold find_token_by_chain. intros Hf. apply list_elem_of_fmap_2.
  apply (list_elem_of_filter (fun token => te_chain_id token = chain_id)). destruct (filter _ tokens) as [|t [|u l]]; try done.
  injection Hf as ->. by left.
Qed.

Lemma receive_transfer_frame run common args path tokens hub : keeps (within (redeems tokens)) (cli_receive_transfer run common args path tokens hub).
Proof.
  unfold cli_receive_transfer. do 5 (keep_step; [solve [keep]|]). apply (keeps_lift_bind _). intros entry He%found_token.
  do 3 (keep_step; [solve [keep]|]). keep_step; [|keep]. by apply within_on_contracts.
Qed.

Lemma invoice_clients_entry run common args tokens hub label entry node indexer env :
  invoice_clients run common args tokens hub label = Ok (entry, node, indexer, env) -> te_verifier_address entry ∈ te_verifier_address <$> tokens.
Proof.
  unfold invoice_clients. intros Hc. repeat (apply result_bind_ok in Hc as (? & ? & Hc)). simplify_eq. by eapply found_token.
Qed.
Lemma invoice_receive_frame run common args tokens hub key :
  keeps (within (redeems tokens)) (cli_invoice_receive SEED_MESSAGE run common args tokens hub key).
Proof.
  unfold cli_invoice_receive. apply (keeps_lift_bind _). intros [[[entry node] indexer] env] He%invoice_clients_entry.
  keep_step; [|keep]. by apply within_on_contracts.
Qed.
Lemma invoice_status_frame run common args tokens hub key :
  keeps (within silent) (cli_invoice_status SEED_MESSAGE run common args tokens hub key).
Proof.
  unfold cli_invoice_status. apply (keeps_bind _); [keep|]. intros [[[entry node] indexer] env]. keep_step; [|keep]. apply within_reads. intros tv. reflexivity.
Qed.
#[local] Hint Resolve receive_transfer_frame invoice_receive_frame invoice_status_frame : keeps.

(** The tokens of the configuration, none when it does not load. *)
Definition configured_tokens (read_tokens : string -> result string TokensFile) (common : CommonArgs) : list TokenEntry :=
  match (f ← read_tokens (ca_tokens_file_path common); cli_load_tokens_config f) with Ok (tokens, _) => tokens | Err _ => [] end.


Lemma private_transfer_appends fuel km time args tokens key rnd s s' ann sub :
  private_transfer SEED_MESSAGE fuel km time args tokens key rnd s = (s', Ok (ann, sub)) -> st_announcements s' = st_announcements s ++ [ann].
Proof.
  unfold private_transfer. cbv zeta. intros Hr. repeat (apply lift_ok in Hr as (? & _ & Hr)).
  unfold context_M, map_err_M, client_submit_announcement, mbind, M_bind, mret, M_ret in Hr.
  match type of Hr with context [submit_announcement time ?input s] =>
    destruct (submit_announcement_cases time input s) as [(e & _ & Hs)|[_ Hs]]; cbv zeta in Hs; rewrite Hs in Hr end; by simplify_eq/=.
Qed.

(** A private transfer is paid only once its announcement is stored: a run that submits a transfer has appended the announcement that
    carries its burn address, and a run that fails before leaves no transfer behind. *)
Theorem paid_after_announced run common args tokens key w w' r :
  cli_private_transfer SEED_MESSAGE run common args tokens key w = (w', r) ->
  cw_sent w' = cw_sent w
  \/ exists ann sub, private_transfer SEED_MESSAGE (cr_pow_fuel run) (cw_key_manager w) (cr_time run) args tokens key (cr_randomness run) (cw_storage w)
       = (cw_storage w', Ok (ann, sub))
     /\ st_announcements (cw_storage w') = st_announcements (cw_storage w) ++ [ann]
     /\ cw_sent w' = cw_sent w ++ [(key, sub)].
Proof.
  unfold cli_private_transfer. intros Hr.
  unfold mbind, M_bind, lift, gets, mret, M_ret in Hr.
  destruct (find_token_by_chain _ _) as [entry|]; [|left; by simplify_eq].
  destruct (build_erc20 entry) as [erc20|]; [|left; by simplify_eq].
  destruct (stealth_client common); [|left; by simplify_eq]. unfold on_storage in Hr.
  destruct (private_transfer _ _ _ _ _ _ _ _ _) as [s1 [[ann sub]|]] eqn:Ep; [|left; by simplify_eq].
  unfold context_M, map_err_M, send_transfer in Hr. destruct (node_transfer _ _ _); simplify_eq/=; [right|by left].
  exists ann, sub. split_and!; [done | by eapply private_transfer_appends | done].
Qed.
End frames.

(** ** The demonstration client *)

Section demo.
Context {C : Crypto} {HC : CryptoLaws C} {VL : VetKeysLib} {L : SignatureLib} {HL : SignatureLaws C L}.
Context (name : string) {HV : VetKeysLaws VL name}.

Lemma sign_authorization_total message sk e :
  (forall digest, length digest = 32%nat -> is_ok (sign_prehash_recoverable sk digest) = true) -> sign_authorization message sk <> Err e.
Proof.
  intros Hsign. unfold sign_authorization. specialize (Hsign (keccak256 message) (keccak256_length _)).
  by destruct (sign_prehash_recoverable sk (keccak256 message)) as [[]|].
Qed.

(** Announcements that are not the wanted one are not found, whatever they decrypt to. *)
Lemma scan_finds vk id rest : forall l, Forall (fun a => an_id a <> id) l ->
  exists ds, scan_announcements vk (l ++ rest) = (ds' ← scan_announcements vk rest; Ok (ds ++ ds'))
    /\ List.find (fun entry => da_id entry =? id) ds = None.
Proof.
  induction l as [|a l IH]; intros Hl.
  { exists []. split; [|done]. cbn. by destruct (scan_announcements vk rest). }
  apply Forall_cons in Hl as [Ha Hl]. destruct (IH Hl) as (ds & Hs & Hf). cbn [app scan_announcements].
  destruct (decrypt_announcement vk a) as [m|e] eqn:E.
  - exists (m :: ds). rewrite Hs. split; [by destruct (scan_announcements vk rest)|]. cbn [List.find].
    rewrite (proj2 (Z.eqb_neq _ _)); [done|]. intros Hid. apply Ha. rewrite <- Hid. revert E.
    unfold decrypt_announcement, ok_or, mbind, result_bind. by repeat case_match; intros [= <-].
  - destruct (decrypt_errors _ _ _ E) as [reason ->]. by exists ds.
Qed.

Lemma older_ids s : storage_inv s -> Forall (fun a => an_id a <> st_next_id s) (st_announcements s).
Proof.
  intros HI. apply Forall_lookup. intros i a Hi. pose proof (inv_ids s HI i a Hi) as Hid. pose proof (inv_next s HI) as Hn.
  apply lookup_lt_Some in Hi. lia.
Qed.

(** The first page of 50 holds the last of [n + 1] announcements when [n < 50]. *)
Lemma first_page {A} (l : list A) (a : A) : take 50 (l ++ [a]) = take 50 l ++ (if (length l <? 50)%nat then [a] else []).
Proof.
  destruct (Nat.ltb_spec (length l) 50).
  - by rewrite !take_ge by (rewrite ?length_app; cbn; lia).
  - rewrite app_nil_r. by rewrite take_app_le.
Qed.

Lemma find_app_None {A} (f : A -> bool) (l k : list A) : List.find f l = None -> List.find f (l ++ k) = List.find f k.
Proof. induction l as [|x l IH]; [done|]. cbn. by destruct (f x). Qed.

Lemma demo_scan s vk ann plaintext time :
  storage_inv s -> an_id ann = st_next_id s -> decrypt_announcement vk ann = Ok (mkDecryptedAnnouncement (an_id ann) plaintext time) ->
  exists ds, scan_announcements vk (take 50 (st_announcements s ++ [ann])) = Ok ds
    /\ List.find (fun entry => da_id entry =? an_id ann) ds
       = if (length (st_announcements s) <? 50)%nat then Some (mkDecryptedAnnouncement (an_id ann) plaintext time) else None.
Proof.
  intros HI Hid Hd. rewrite first_page.
  destruct (scan_finds vk (an_id ann) (if (length (st_announcements s) <? 50)%nat then [ann] else []) (take 50 (st_announcements s)))
    as (ds & Hs & Hf); [apply Forall_take; rewrite Hid; by apply older_ids|].
  rewrite Hs. destruct (length (st_announcements s) <? 50)%nat.
  - cbn [scan_announcements]. rewrite Hd. cbn [mbind result_bind]. eexists. split; [done|].
    rewrite find_app_None by done. cbn. by rewrite Z.eqb_refl.
  - cbn. eexists. split; [done|]. by rewrite app_nil_r.
Qed.

(** The view key of a signing key: the request is signed and answered, and the answer decrypts to a key of the address. *)
Lemma view_key_requested self now sk seed expiry nonce km :
  key_id_name km = name -> (forall digest, length digest = 32%nat -> is_ok (sign_prehash_recoverable sk digest) = true) ->
  now <= expiry -> max_nonce (Some km) (derive_address sk) < nonce ->
  let a := derive_address sk in let t := prepare_transport_key seed in
  exists pk dpk sig km' enc vk,
    client_get_view_public_key a (Some km) = Ok pk /\ DerivedPublicKey_deserialize pk = Some dpk
    /\ sign_authorization (authorization_message self a (public t) expiry nonce) sk = Ok sig
    /\ client_request_encrypted_view_key self now (Storage.mkRequest a (public t) expiry nonce sig) (Some km) = (km', Ok enc)
    /\ decrypt_vet_key enc pk (secret t) = Ok vk /\ view_key_of name a pk dpk vk.
Proof.
  intros Hname Hsign Hexp Hnonce a t.
  destruct (vetkd_available (name := name) (context_for_address a)) as (pk & dpk & Hpk & Hdpk).
  destruct (vetkd_delivers (context_for_address a) pk dpk seed Hpk Hdpk) as (enc & evk & vk & Hd & He & Hv).
  destruct (sign_authorization (authorization_message self a (public t) expiry nonce) sk) as [sig|] eqn:Hsig.
  2: { exfalso. by eapply sign_authorization_total. }
  pose proof (request_honest self now sk (public t) expiry nonce sig km Hsig Hexp Hnonce) as Hr. fold a in Hr. rewrite Hname in Hr.
  cbn [public t prepare_transport_key] in Hr. rewrite Hd in Hr. fold t in Hr.
  destruct (request_encrypted_view_key self now (Storage.mkRequest a (public t) expiry nonce sig) (Some km)) as [km' r] eqn:Eq.
  cbn in Eq, Hr. rewrite Eq in Hr. cbn [snd] in Hr. subst r.
  exists pk, dpk, sig, km', enc, vk. split_and!; [|done..| | |].
  - unfold client_get_view_public_key, get_view_public_key, to_address, with_state, a. rewrite derive_address_length, Nat.eqb_refl.
    cbn [mbind result_bind fmap option_fmap option_map ok_or]. fold a. by rewrite Hname, Hpk.
  - unfold client_request_encrypted_view_key. cbn. by rewrite Eq.
  - unfold decrypt_vet_key. rewrite He. cbn [map_err mbind result_bind]. rewrite Hdpk. cbn [ok_or mbind result_bind secret t prepare_transport_key].
    by rewrite Hv.
  - split; [done|]. split; [done|]. by exists enc, evk, (secret t).
Qed.

(** The demonstration against honest canisters.  With a key that signs, a nonce above the ones seen for its address, clocks that
    agree with the time to live and a message of at most 16000 bytes, the flow never fails: it appends its announcement and
    decrypts its own message when fewer than 50 announcements were stored before.  From the 50th on the one page it reads ends before
    its announcement, and it reports the warning instead. *)
Theorem demo_flow_outcome (cli : StealthCli) (client : StealthClient) (run : StealthRun) s km :
  storage_inv s -> key_id_name km = name ->
  (forall digest, length digest = 32%nat -> is_ok (sign_prehash_recoverable (sn_signing_key run) digest) = true) ->
  max_nonce (Some km) (derive_address (sn_signing_key run)) < sn_nonce run ->
  sn_canister_now run <= saturating_add_u64 (sn_now_ns run) (saturating_mul_u64 (sl_authorization_ttl_seconds cli) 1000000000) ->
  length (rnd_session_key (sn_randomness run)) = 32%nat -> length (rnd_nonce (sn_randomness run)) = 12%nat ->
  Z.of_nat (length (string_as_bytes (sl_message cli))) <= 16000 ->
  exists s' km' ann,
    run_demo_flow cli client run (s, Some km)
    = ((s', km'), Ok (if (length (st_announcements s) <? 50)%nat
                      then Some (mkDecryptedAnnouncement (an_id ann) (string_as_bytes (sl_message cli)) (sn_time run)) else None))
    /\ storage_step s s' /\ st_announcements s' = st_announcements s ++ [ann].
Proof.
  intros HI Hname Hsign Hnonce Hexp Hsess Hn Hlen.
  destruct (view_key_requested (sk_key_manager_id client) (sn_canister_now run) (sn_signing_key run) (sn_transport_seed run) _ (sn_nonce run) km Hname Hsign Hexp Hnonce)
    as (pk & dpk & sig & km' & enc & vk & Hpk & Hdpk & Hsig & Hreq & Hdec & Hvk).
  destruct (encrypt_ok name pk dpk (rnd_ibe_seed (sn_randomness run)) (rnd_session_key (sn_randomness run)) (rnd_nonce (sn_randomness run))
    (string_as_bytes (sl_message cli))) as (input & Henc & Hval); [done..|].
  set (ann := mkAnnouncement (st_next_id s) (ai_ibe_ciphertext input) (ai_ciphertext input) (ai_nonce input) (sn_time run)).
  destruct (submit_announcement_cases (sn_time run) input s) as [(e & He' & _)|[_ Hs]]; [congruence|]. cbv zeta in Hs. fold ann in Hs.
  pose proof (step_announce (sn_time run) input s) as Hstep. rewrite Hs in Hstep. cbn [fst] in Hstep. set (s' := mkStorageState _ _ _) in *.
  destruct (demo_scan s vk ann (string_as_bytes (sl_message cli)) (sn_time run)) as (ds & Hds & Hfind); [done..| by eapply decrypt_own |].
  exists s', km', ann. split; [|done]. rewrite <- Hfind. unfold run_demo_flow. cbv zeta.
  erewrite M_bind_run by reflexivity.
  erewrite M_bind_run by (apply lift_run; cbn [snd]; rewrite Hpk; reflexivity).
  erewrite M_bind_run by (apply lift_run; rewrite Henc; reflexivity).
  erewrite M_bind_run by (unfold on_storage_canister, context_M, map_err_M, client_submit_announcement; cbn [fst snd]; rewrite Hs; reflexivity).
  erewrite M_bind_run by (apply lift_run; exact Hsig).
  erewrite M_bind_run by (unfold on_key_manager_canister, context_M, map_err_M; cbn [fst snd]; rewrite Hreq; reflexivity).
  erewrite M_bind_run by (apply lift_run; rewrite Hdec; reflexivity).
  erewrite M_bind_run by reflexivity. cbn [fst].
  erewrite M_bind_run; [reflexivity|]. apply lift_run. rewrite list_announcements_spec.
  - cbn [announcements]. change (take _ (drop _ _)) with (take 50 (st_announcements s ++ [ann])). by rewrite Hds.
  - apply ids_from_snoc; [apply HI|]. cbn. by rewrite (inv_next s HI).
Qed.
End demo.
